(* ===== verification/_CoqProject ===== *)
-Q . S2P
Prelude.v
KVSpec.v
FreeQueue.v
Request.v
BlockHash.v
BlockPool.v
CacheHit.v
SingleType.v
Coordinator.v
HybridHit.v
KVCacheManager.v
EncoderCache.v
RequestQueue.v
SchedUtils.v
SchedState.v
Schedule.v
SchedUpdate.v
SchedDemo.v
SchedInv.v
ScheduleSafe.v
UpdateSafe.v
Frame.v
KVHits.v
KVStart.v
KVKeeps.v
Engine.v
EngineSafe.v
EngineRun.v
Ngram.v
LayerSpec.v
KVConfig.v
KVConfigSafe.v
KVGroups.v
KVConfigs.v
KVConfigDemo.v
PyFloat.v
OffloadPolicy.v
CPUOffload.v
OffloadConnector.v
OffloadLookup.v
OffloadJobs.v
OffloadStart.v
