(* ===== verification/Prelude.v ===== *)
(** * vLLM's scheduler and its KV-cache bookkeeping

    A model and verification of the part of vLLM (the directory [src/vllm]) that
    decides which request runs next and which memory it gets, the core under
    [vllm/v1/core], and of the loop of the engine that drives it
    ([vllm/v1/engine/core.py]).  The programs around it (front end, sockets, workers,
    kernels, the Ascend port) call it or are called with its results; they are not
    modelled.

    ** The program

    A request arrives with its tokens and waits in a queue.  When the scheduler
    takes it, the KV-cache manager looks up which of its full blocks are in the
    prefix cache, by a chain of hashes over the tokens; it enters those hits in
    the request's block tables, one table per group of layers, allocates new
    blocks from a pool, and caches the blocks that became full.  While the request
    runs it gets more blocks, blocks before a sliding window are given back, and
    when it ends all its blocks return to the pool in the order in which they
    should be evicted.  Outputs of the vision encoder are kept in a cache of their
    own.  A step of the scheduler serves the running requests, preempting some
    when the blocks run out, then the waiting ones; the model's output is taken in
    by a second call, which appends tokens and stops requests.  The engine core
    calls the two in turn, with the executor in between, and keeps a queue of the
    batches in flight; requests, aborts, pauses and resets come between its steps.
    At the start, the layers of the workers are divided into groups and the memory of
    the workers into blocks; the groups and the number of blocks are what the manager
    is constructed with.  The n-gram proposer guesses tokens from the text so far.
    Blocks of the device may be copied to slots in the memory of the host and back: a
    manager decides which blocks the slots hold, and a connector, called by the
    scheduler, decides what is loaded and stored and keeps the jobs in flight.

    ** The files

    - [Prelude]: exceptions as values ([res]), the state and exception monad
      ([M]) in which all stateful code is written, its weakest precondition
      ([wp], total: the call returns and does not raise) with the tactic
      [wp_step], and list lemmas.
    - [KVSpec] ([vllm/v1/kv_cache_interface.py], [vllm/utils/math_utils.py]): the
      kinds of attention, admission caps, the tokens a window skips.
    - [FreeQueue] ([FreeKVCacheBlockQueue] of [kv_cache_utils.py]): the doubly
      linked list of free blocks on a store of shared block objects; it refines
      operations on lists.
    - [Request] ([vllm/v1/request.py]): the attributes the core reads, the order
      [__lt__].
    - [BlockHash] (hashing half of [kv_cache_utils.py]): keys, extra keys, the
      chain of block hashes; equal hashes mean equal prefixes.
    - [BlockPool] ([block_pool.py]): reference counts, free queue and cache table;
      invariant [pool_inv].
    - [CacheHit] (the searches of [single_type_kv_cache_manager.py]): one search
      per kind of attention; the class [HitFinder] is their common contract.
    - [SingleType] (the rest of that file): the tables of one group; invariant
      [ms_inv] of a manager with its pool, [step] for what an operation does.
    - [Coordinator] ([kv_cache_coordinator.py]): all groups over one pool;
      invariant [sys_inv]; loops over the managers by [visited].
    - [HybridHit] (the hybrid coordinator's search): proved against [HitFinder].
    - [KVCacheManager] ([kv_cache_manager.py]): what the scheduler calls;
      invariant [kv_inv], reachable states [kv_reach].
    - [EncoderCache] ([encoder_cache_manager.py]): both managers and the budget.
    - [RequestQueue] ([sched/request_queue.py]): both queues, with the algorithms
      of Python's [heapq].
    - [SchedUtils] ([sched/utils.py]): repetitions, stopping conditions.
    - [SchedState]: configuration, state and output of the scheduler
      ([sched/scheduler.py], [interface.py], [output.py]); requests are objects
      in a store, referred to from the table, the running list and the queues.
    - [Schedule]: [schedule] and what it calls, [AsyncScheduler] included.
    - [SchedUpdate]: [update_from_output], adding, finishing and resetting.
    - [SchedDemo]: runs of the scheduler on small configurations, among them the
      findings about it.
    - [SchedInv]: the invariant [inv] of the scheduler, stated against the class
      [KVPromises] of what it relies on in the KV-cache manager; [ScheduleSafe] and
      [UpdateSafe]: [schedule] and every operation of [SchedUpdate] keep it and do
      not raise ([schedule_spec], [update_from_output_spec], [finish_requests_spec],
      [update_add_request_spec], [update_reset_prefix_cache_spec]).
    - [Frame] (what an operation of the manager leaves to other requests), [KVHits]
      (what the search for hits gives to the allocation), [KVStart] (the manager as
      it is constructed): lemmas for [KVKeeps], where the manager as coded is shown
      to keep the promises ([manager_promises]).
    - [Engine] ([EngineCore] of [engine/core.py]): the loop, with and without the
      queue of batches; [EngineSafe]: its invariant [engine_ok] from that of the
      scheduler; [EngineRun]: engine, scheduler and manager together, from their
      construction on ([engine_reach]).

    - [Ngram] ([spec_decode/ngram_proposer.py]): the proposer with its buffers.
    - [LayerSpec] ([kv_cache_interface.py]): the specifications of layers with all
      fields; page sizes, memory of a request, merging.
    - [KVConfig] (second half of [kv_cache_utils.py]): from layers and memory to
      groups, blocks and tensors.  [KVConfigSafe]: the memory of a request grows with
      its length, the search for the longest length, the layout of the tensors;
      [KVGroups]: every layer is in one group; [KVConfigs]: the workers together;
      [KVConfigDemo]: two starts that go wrong.
    - [PyFloat]: Python's numbers, integers and IEEE binary64.  [OffloadPolicy]
      ([kv_offload/cpu/policies]): the class [CachePolicy] with its laws
      ([PolicyLaws]) and its two instances, [LRU] and [ARC].
    - [CPUOffload] ([kv_offload/cpu/manager.py]): the manager of the slots over any
      policy; invariant [inv], and the protocol of its callers [client].
    - [OffloadConnector] ([kv_connector/v1/offloading/scheduler.py], [common.py]): the
      scheduler's side of the connector over any [OffloadingManager].
      [OffloadLookup]: the search for loadable tokens; [OffloadJobs]: connector and
      manager together, from their construction on ([reach]); [OffloadStart]: block sizes
      ([resolve_kv_cache_block_sizes]) and the construction from the configuration.

    Names are those of the code; a method is the definition of its name in the
    module of its class ([Pool.get_new_blocks] is [BlockPool.get_new_blocks]).
    Block objects live in a store and are referred to by location, so aliasing
    between tables, queue and cache is that of the program.  A [defaultdict]
    access that creates an entry is written out.

    ** The theorems

    The restrictions of a theorem are in the comment before it; those of the invariants are
    under "Not modelled" below.

    - The whole: [engine_reach_safe] (after any sequence of calls no call raises,
      no request is lost or doubled, limits and budgets hold, block counts are exact
      and only running requests hold blocks), [pause_abort_frees_all].  The layers
      below meet through the class [KVPromises]: the scheduler is proved against it,
      and the manager implements it.
    - Safety of the state: [kv_reach_safe] (all groups and the pool, after any
      sequence of calls: counts are exact, nothing leaks, nothing is handed out
      twice, no admissible call raises), [pool_reach_safe], [encoder_cache_safe].
    - What the calls do: [allocate_slots_new], [allocate_slots_running] (when it
      refuses, which blocks it takes, what the tables hold), [get_new_blocks_lru],
      [free_blocks_order], [remove_skipped_keeps_window], [reset_clears_iff_idle],
      [can_allocate_exact], [priority_pop_serves_first].
    - The start: [get_kv_cache_configs_sound] (every layer has one tensor, all fit the
      memory, one number of blocks for all workers), [pool_holds_longest_request],
      [auto_fit_longest].
    - Offloading: the connector is a client of the manager
      ([connector_follows_protocol]), so what holds of the manager under its protocol
      holds of the two ([jobs_hold_slots]): [offload_never_raises], [offload_slots]
      (every slot is free or of one block), [transfer_keeps_slot].  What the calls do:
      [prepare_store_effect], [store_then_lookup], [matched_tokens_loadable] (the
      search ends, and the load of what it reports reads only blocks that are ready), for
      connectors as [connector_well_formed] and [init_blocks_ok] show them to be
      constructed.  The policies: [arc_bounded],
      [lru_evicts_oldest].
    - Prefix caching: [equal_hash_equal_prefix], [append_keeps_hashes],
      [cache_then_hit], [lookup_sound_complete], [find_meets_contract],
      [find_returns_longest], [hybrid_find_meets_contract], [sliding_mask_exact].
    - Refinement and equivalence: [queue_op_refines], [init_refines],
      [propose_exact] (the n-gram search against a direct definition), [coarse_hash_determines_fine], [priority_iteration_deterministic].
    - Stopping: [check_stop_exact], [repetition_exact].
    - Behaviour against intent, proved on concrete reachable states: in
      [SchedDemo] [lora_limit_assertion_fails],
      [pooling_request_scheduled_negative], [min_tokens_beyond_length_starves],
      [preemption_passes_over_request], [session_update_breaks_heap],
      [session_update_keeps_stale_hash]; further
      [external_tokens_steal_hits], [mamba_eagle_overshoots],
      [second_full_not_truncated], [late_block_drops_image],
      [lora_name_collides_with_salt], [sliding_eagle_loses_segment],
      [repeated_input_loses_reference]; in [KVConfigDemo] [tight_start_starves] and
      [merge_forgets_head_size_v]; in [CPUOffload] [arc_refuses_with_idle_block] and
      [store_evicts_its_input]; in [OffloadLookup] [misaligned_window_asserts]; in [OffloadJobs]
      [reset_leaves_jobs_in_requests].

    ** Loops and fuel

    Loops that are not structural carry fuel and return [OutOfFuel] when it is
    used up; their theorems are about [wp] or [Ok], so they include that this does
    not happen.  The bounds: the walk of the free list, the number of objects in
    the store; the sifts of [heapq], the length of the heap; the hybrid search,
    one turn more than the tokens asked for, as every turn but the last shortens
    the length.  The loop over running requests has the length of the running
    list, preemption too (each turn takes a request from it), the loop over
    waiting requests the length of both queues (each turn takes one from them);
    one more for the test that ends the loop.  The binary search for the longest
    length has the length to begin with as fuel; every turn shortens the interval.
    The connector's loop over the groups has the number of tokens and two; a turn is
    repeated only when the hit became shorter.

    ** Parameters

    The hash functions (their results are byte strings; injectivity is a named
    hypothesis where a theorem needs it), [NONE_HASH], the digest of a tensor, and
    the order in which Python iterates over a set, the executor, the size of a PyTorch
    data type.  Integers are Python's,
    unbounded; where the code converts to four bytes the overflow error is
    modelled.

    ** Not modelled

    - Of the configuration: logging, the reported concurrency (floating point), and
      plug-ins that register further classes of specifications.
      [pool_holds_longest_request] is for groups of one specification each.
    - Of the scheduler: statistics, log-probabilities, routed experts, events and
      the encoder-cache connector (none is configured); the KV connector and the
      grammar back ends are parameters that answer.
    - Of offloading: the workers, which copy, and the tiers below the memory of the
      host (threads, files, object stores).  [connector_follows_protocol] and
      [jobs_hold_slots] are about calls that return: whether the connector's
      assertions on the scheduler's blocks hold is not shown.
    - Proposers with a draft model (device programs).
    - Of the engine core: its construction, LoRA management, and calls that only go to
      the executor.  [engine_reach_safe] and [pause_abort_frees_all] are for the
      configurations named there: the KV connector, asynchronous scheduling, speculative
      decoding, LoRA, context parallelism, grammars, sessions, pooling, multi-modal
      requests, and groups of Mamba or chunked local attention are in the definitions but
      outside these theorems (for some of them they do not hold, see the findings in
      [SchedDemo]).
    - The metrics collector and timestamps, which observe and do not influence.
    - Tables of Mamba and cross-attention groups are modelled ([SingleType]) but
      the invariants of [Coordinator] and [KVCacheManager] are for the kinds whose
      allocation is that of the base class ([plain]); tokens from a KV connector
      are in the model, and [kv_reach] excludes them because the invariant does
      not survive them ([external_tokens_steal_hits]).
    - Front end, workers, kernels, connectors and the Ascend port: I/O, device
      programs or glue. *)

From stdpp Require Export base gmap list strings numbers sorting.
From Stdlib Require Export ZArith Lia.

#[global] Open Scope Z_scope.
#[global] Set Default Goal Selector "!".

(** ** Python's exceptions and results

    A call of the modelled program either returns a value or raises.  The
    constructors are the exception classes the modelled code raises itself or
    triggers in the language ([AttributeError] for an attribute of [None],
    [IndexError] and [KeyError] for a failed subscript, ...).  [OutOfFuel] is
    the one constructor that is not Python's: it is what a fuelled loop of the
    model returns when its fuel is used up, and every theorem about such a loop
    shows that it does not occur. *)
Inductive exn :=
  | ValueError | RuntimeError | AssertionError | IndexError | KeyError
  | OverflowError | AttributeError | TypeError | NotImplementedError
  | ZeroDivisionError | StopIteration | OutOfFuel.

#[global] Instance exn_eq_dec : EqDecision exn.
Proof. solve_decision. Defined.

Inductive res (A : Type) := Ok (a : A) | Raise (e : exn).
Arguments Ok {A} a.
Arguments Raise {A} e.

Lemma Ok_inj {A} (x y : A) : Ok x = Ok y → x = y.
Proof. congruence. Qed.

#[global] Instance res_ret : MRet res := @Ok.
#[global] Instance res_bind : MBind res := λ A B f r,
  match r with Ok a => f a | Raise e => Raise e end.

Lemma bind_Ok {A B} (r : res A) (f : A → res B) b : r ≫= f = Ok b → ∃ a, r = Ok a ∧ f a = Ok b.
Proof. destruct r as [a|]; [|done]. intros E. by exists a. Qed.

(** ** A state and exception monad

    [M S A] is a computation over the mutable state [S].  A raised exception
    keeps the state reached so far, as Python does. *)
Definition M (S A : Type) : Type := S → res A * S.

#[global] Instance M_ret {S} : MRet (M S) := λ A a s, (Ok a, s).
#[global] Instance M_bind {S} : MBind (M S) := λ A B f m s,
  match m s with
  | (Ok a, s') => f a s'
  | (Raise e, s') => (Raise e, s')
  end.

Section monad_ops.
Context {S : Type}.

Definition get : M S S := λ s, (Ok s, s).
Definition gets {A} (f : S → A) : M S A := λ s, (Ok (f s), s).
Definition modify (f : S → S) : M S () := λ s, (Ok tt, f s).
Definition raise {A} (e : exn) : M S A := λ s, (Raise e, s).
Definition massert (b : bool) : M S () := if b then mret tt else raise AssertionError.
Definition of_opt {A} (e : exn) (o : option A) : M S A :=
  match o with Some a => mret a | None => raise e end.
Definition of_res {A} (r : res A) : M S A := λ s, (r, s).

(** [for x in l: body x] *)
Fixpoint for_each {A} (l : list A) (body : A → M S ()) : M S () :=
  match l with
  | [] => mret tt
  | x :: l' => _ ← body x; for_each l' body
  end.

(** [[f(x) for x in l]], with effects in order *)
Fixpoint mapM_ {A B} (f : A → M S B) (l : list A) : M S (list B) :=
  match l with
  | [] => mret []
  | x :: l' => y ← f x; ys ← mapM_ f l'; mret (y :: ys)
  end.
End monad_ops.

(** [zoom get set m] runs [m], written over a component's state, inside the
    state of the object that owns the component. *)
Definition zoom {S T A} (get : S → T) (set : T → S → S) (m : M T A) : M S A :=
  λ s, let '(r, t) := m (get s) in (r, set t s).

(** ** Weakest preconditions

    [wp m Q s]: started in [s], [m] returns (it does not raise) a value and a
    state that satisfy [Q]: total correctness. *)
Definition wp {S A} (m : M S A) (Q : A → S → Prop) (s : S) : Prop :=
  match m s with
  | (Ok a, s') => Q a s'
  | (Raise _, _) => False
  end.

Section wp_rules.
Context {S : Type}.
Implicit Types s : S.

Lemma wp_intro {A} (m : M S A) Q s a s' :
  m s = (Ok a, s') → Q a s' → wp m Q s.
Proof. unfold wp. by intros ->. Qed.

Lemma wp_elim {A} (m : M S A) Q s :
  wp m Q s → ∃ a s', m s = (Ok a, s') ∧ Q a s'.
Proof. unfold wp. destruct (m s) as [[a|e] s']; naive_solver. Qed.

Lemma wp_ret {A} (a : A) Q s : wp (mret a) Q s ↔ Q a s.
Proof. done. Qed.

Lemma wp_bind {A B} (m : M S A) (f : A → M S B) Q s :
  wp (m ≫= f) Q s ↔ wp m (λ a s', wp (f a) Q s') s.
Proof. unfold wp, mbind, M_bind. by destruct (m s) as [[a|e] s']. Qed.

Lemma wp_mono {A} (m : M S A) (P Q : A → S → Prop) s :
  wp m P s → (∀ a s', P a s' → Q a s') → wp m Q s.
Proof. unfold wp. destruct (m s) as [[a|e] s']; naive_solver. Qed.

Lemma wp_conj {A} (m : M S A) (P Q : A → S → Prop) s :
  wp m P s → wp m Q s → wp m (λ a s', P a s' ∧ Q a s') s.
Proof. unfold wp. destruct (m s) as [[a|e] s']; naive_solver. Qed.

Lemma wp_get Q s : wp get Q s ↔ Q s s.
Proof. done. Qed.

Lemma wp_gets {A} (f : S → A) Q s : wp (gets f) Q s ↔ Q (f s) s.
Proof. done. Qed.

Lemma wp_modify (f : S → S) Q s : wp (modify f) Q s ↔ Q tt (f s).
Proof. done. Qed.

Lemma wp_massert (b : bool) Q s : wp (massert b) Q s ↔ b = true ∧ Q tt s.
Proof. unfold wp, massert. destruct b; naive_solver. Qed.

Lemma wp_of_opt {A} e (o : option A) Q s :
  wp (of_opt e o) Q s ↔ ∃ a, o = Some a ∧ Q a s.
Proof. unfold wp, of_opt. destruct o; naive_solver. Qed.

Lemma wp_raise {A} e (Q : A → S → Prop) s : wp (raise e) Q s ↔ False.
Proof. done. Qed.

Lemma wp_if {A} (b : bool) (m1 m2 : M S A) Q s :
  (b = true → wp m1 Q s) → (b = false → wp m2 Q s) → wp (if b then m1 else m2) Q s.
Proof. destruct b; naive_solver. Qed.

(** A [for] loop: [I] relates the elements already visited to the state. *)
Lemma wp_for_each {A} (I : list A → S → Prop) (body : A → M S ()) (l : list A) s :
  I [] s →
  (∀ pre x suf s', l = pre ++ x :: suf → I pre s' →
     wp (body x) (λ _ s'', I (pre ++ [x]) s'') s') →
  wp (for_each l body) (λ _ s', I l s') s.
Proof.
  intros H0 Hstep.
  cut (∀ suf pre s', l = pre ++ suf → I pre s' →
         wp (for_each suf body) (λ _ s'', I l s'') s').
  { intros H. by apply (H l []). }
  intros suf. induction suf as [|x suf IH]; intros pre s' Hl HI; simpl.
  - apply wp_ret. rewrite app_nil_r in Hl. by subst pre.
  - apply wp_bind. eapply wp_mono; [by apply (Hstep pre x suf)|].
    intros ? s'' HI'. apply (IH (pre ++ [x])); [|done].
    by rewrite <- app_assoc.
Qed.
End wp_rules.

Lemma wp_zoom {S T A} (get : S → T) (set : T → S → S) (m : M T A) Q s :
  wp (zoom get set m) Q s ↔ wp m (λ a t, Q a (set t s)) (get s).
Proof. unfold wp, zoom. by destruct (m (get s)) as [[a|e] t]. Qed.

(** The symbolic-execution tactic of the development: rewrite with the
    defining equations of the monad's operations. *)
Ltac wp_step :=
  repeat first
    [ rewrite wp_bind | rewrite wp_ret | rewrite wp_gets | rewrite wp_get
    | rewrite wp_modify | rewrite wp_massert | rewrite wp_zoom ].

(** ** Partial correctness

    What holds of the result if the call returns. *)
Definition wlp {S A} (m : M S A) (Q : A → S → Prop) (s : S) : Prop :=
  match m s with (Ok a, s') => Q a s' | (Raise _, _) => True end.

Section wlp.
Context {S : Type}.
Lemma wlp_ret {A} (a : A) Q (s : S) : wlp (mret a) Q s ↔ Q a s.
Proof. done. Qed.
Lemma wlp_bind {A B} (m : M S A) (f : A → M S B) Q s : wlp (m ≫= f) Q s ↔ wlp m (λ a s', wlp (f a) Q s') s.
Proof. unfold wlp, mbind, M_bind. by destruct (m s) as [[a|e] s']. Qed.
Lemma wlp_mono {A} (m : M S A) (P Q : A → S → Prop) s : wlp m P s → (∀ a s', P a s' → Q a s') → wlp m Q s.
Proof. unfold wlp. destruct (m s) as [[a|e] s']; naive_solver. Qed.
Lemma wlp_get Q (s : S) : wlp get Q s ↔ Q s s.
Proof. done. Qed.
Lemma wlp_modify (f : S → S) Q s : wlp (modify f) Q s ↔ Q tt (f s).
Proof. done. Qed.
Lemma wlp_massert (b : bool) Q (s : S) : wlp (massert b) Q s ↔ (b = true → Q tt s).
Proof. unfold wlp, massert. destruct b; naive_solver. Qed.
Lemma wlp_of_opt {A} e (o : option A) Q (s : S) : wlp (of_opt e o) Q s ↔ ∀ a, o = Some a → Q a s.
Proof. unfold wlp, of_opt. destruct o; naive_solver. Qed.
Lemma wlp_of_res {A} (r : res A) Q (s : S) : wlp (of_res r) Q s ↔ ∀ a, r = Ok a → Q a s.
Proof. unfold wlp, of_res. destruct r; naive_solver. Qed.
Lemma wlp_raise {A} e (Q : A → S → Prop) s : wlp (raise e) Q s ↔ True.
Proof. done. Qed.
Lemma wlp_zoom {T A} (get : S → T) (set : T → S → S) (m : M T A) Q s :
  wlp (zoom get set m) Q s ↔ wlp m (λ a t, Q a (set t s)) (get s).
Proof. unfold wlp, zoom. by destruct (m (get s)) as [[a|e] t]. Qed.
Lemma wlp_wp {A} (m : M S A) Q s : wp m Q s → wlp m Q s.
Proof. unfold wp, wlp. by destruct (m s) as [[a|e] s']. Qed.
Lemma wlp_intro {A} (m : M S A) (Q : A → S → Prop) s : (∀ a s', m s = (Ok a, s') → Q a s') → wlp m Q s.
Proof. unfold wlp. destruct (m s) as [[a|e] s']; naive_solver. Qed.
Lemma wlp_elim {A} (m : M S A) (Q : A → S → Prop) s a s' : wlp m Q s → m s = (Ok a, s') → Q a s'.
Proof. unfold wlp. intros H E. by rewrite E in H. Qed.
End wlp.
Ltac wlp_step :=
  repeat first [ rewrite wlp_bind | rewrite wlp_ret | rewrite wlp_get | rewrite wlp_modify | rewrite wlp_zoom ].

(** ** Lengths and slices with Python's integers *)
Abbreviation len l := (Z.of_nat (length l)).

(** Python's [l[i:j]] for [0 <= i], [0 <= j]. *)
Definition py_slice {A} (l : list A) (i j : Z) : list A :=
  take (Z.to_nat (j - i)) (drop (Z.to_nat i) l).

(** Python's [l[i:]] for [0 <= i]. *)
Definition py_from {A} (l : list A) (i : Z) : list A := drop (Z.to_nat i) l.

(** [list(range(i, j))] *)
Definition py_range (i j : Z) : list Z := seqZ i (j - i).

(** [l[i]] with a subscript that may be out of range (or negative). *)
Definition py_get {A} (l : list A) (i : Z) : option A :=
  let k := if i <? 0 then len l + i else i in
  if k <? 0 then None else l !! Z.to_nat k.

(** [l[i] = v]; [None] when the subscript is out of range. *)
Definition py_set {A} (l : list A) (i : Z) (v : A) : option (list A) :=
  let k := if i <? 0 then len l + i else i in
  if (0 <=? k) && (k <? len l) then Some (<[Z.to_nat k := v]> l) else None.

(** ** Lists *)
Lemma filter_id {A} (P : A → Prop) `{∀ x, Decision (P x)} (l : list A) :
  (∀ x, x ∈ l → P x) → filter P l = l.
Proof.
  induction l as [|x l IH]; intros Hl; [done|].
  rewrite filter_cons_True by (apply Hl; set_solver). f_equal. apply IH. set_solver.
Qed.

Lemma filter_ext_in {A} (P Q : A → Prop) `{∀ x, Decision (P x)} `{∀ x, Decision (Q x)} (l : list A) :
  (∀ x, x ∈ l → P x ↔ Q x) → filter P l = filter Q l.
Proof.
  induction l as [|x l IH]; intros Hl; [done|]. rewrite !filter_cons.
  rewrite IH by set_solver. destruct (Hl x ltac:(set_solver)).
  repeat case_decide; tauto.
Qed.

Lemma py_slice_subset {A} (l : list A) i j x : x ∈ py_slice l i j → x ∈ l.
Proof.
  unfold py_slice. intros [k Hk]%list_elem_of_lookup.
  apply lookup_take_Some in Hk as [Hk _]. rewrite lookup_drop in Hk.
  by eapply list_elem_of_lookup_2.
Qed.

Lemma py_slice_sublist {A} (l : list A) i j : py_slice l i j `sublist_of` l.
Proof. unfold py_slice. etrans; [apply sublist_take|apply sublist_drop]. Qed.
