(* ===== verification/KVSpec.v ===== *)
(** * KV-cache specifications

    The part of [vllm/v1/kv_cache_interface.py] that the block managers read:
    the kind of attention of a group of layers, its block size and window, and
    the admission caps.  What only the worker reads of a specification (number
    of heads, head sizes, data type, padding) is the field [layout]: two
    specifications of the same kind are equal when these fields are.  With it,
    the integer helpers of [vllm/utils/math_utils.py]. *)
From S2P Require Import Prelude.

(** ** Integer helpers *)
Definition cdiv (a b : Z) : Z := - (a / - b).
Definition round_up (x y : Z) : Z := (x + y - 1) / y * y.
Definition round_down (x y : Z) : Z := x / y * y.

Lemma cdiv_spec a b : 0 < b → (cdiv a b - 1) * b < a ≤ cdiv a b * b.
Proof.
  intros Hb. unfold cdiv. pose proof (Z.div_mod a (- b)). pose proof (Z.mod_neg_bound a (- b)). nia.
Qed.

Lemma cdiv_le a b n : 0 < b → cdiv a b ≤ n ↔ a ≤ n * b.
Proof. intros Hb. pose proof (cdiv_spec a b Hb). nia. Qed.

Lemma cdiv_nonneg a b : 0 < b → 0 ≤ a → 0 ≤ cdiv a b.
Proof. intros Hb Ha. pose proof (cdiv_spec a b Hb). nia. Qed.

Lemma cdiv_mono a a' b : 0 < b → a ≤ a' → cdiv a b ≤ cdiv a' b.
Proof. intros Hb Ha. apply cdiv_le; [done|]. pose proof (cdiv_spec a' b Hb). lia. Qed.

Lemma cdiv_mul n b : 0 < b → cdiv (n * b) b = n.
Proof. intros Hb. pose proof (cdiv_spec (n * b) b Hb). nia. Qed.

Lemma div_le_cdiv a b : 0 < b → a / b ≤ cdiv a b.
Proof.
  intros Hb. pose proof (cdiv_spec a b Hb). pose proof (Z.mul_div_le a b Hb). nia.
Qed.

(** ** Specifications *)

(** [FullAttentionSpec] and its subclasses. *)
Inductive full_kind := FKFull | FKTQ | FKMLA | FKHiddenState | FKSink (sink_len : option Z).

(** The values of [mamba_cache_mode]. *)
Inductive mamba_cache_mode := ModeNone | ModeAll | ModeAlign.

Inductive spec_kind :=
  | FullAttention (k : full_kind)
  | SlidingWindow (sliding_window : Z) (mla : bool)
  | ChunkedLocal (attention_chunk_size : Z)
  | Mamba (mode : mamba_cache_mode) (num_speculative_blocks : Z)
  | CrossAttention.

Record KVCacheSpec := mkSpec { block_size : Z; layout : Z; kind : spec_kind }.

#[global] Instance full_kind_eq_dec : EqDecision full_kind.
Proof. solve_decision. Defined.
#[global] Instance mamba_cache_mode_eq_dec : EqDecision mamba_cache_mode.
Proof. solve_decision. Defined.
#[global] Instance spec_kind_eq_dec : EqDecision spec_kind.
Proof. solve_decision. Defined.
#[global] Instance KVCacheSpec_eq_dec : EqDecision KVCacheSpec.
Proof. solve_decision. Defined.

(** [isinstance(spec, FullAttentionSpec)] *)
Definition is_full (s : KVCacheSpec) : bool :=
  match kind s with FullAttention _ => true | _ => false end.

(** [isinstance(spec, SlidingWindowSpec)] *)
Definition is_sliding (s : KVCacheSpec) : bool :=
  match kind s with SlidingWindow _ _ => true | _ => false end.

(** [type(spec) in (FullAttentionSpec, TQFullAttentionSpec, MLAAttentionSpec)] *)
Definition tracks_new_blocks (s : KVCacheSpec) : bool :=
  match kind s with FullAttention (FKFull | FKTQ | FKMLA) => true | _ => false end.

(** [SlidingWindowSpec.max_admission_blocks_per_request] *)
Definition sliding_max_admission (block_size sliding_window max_num_batched_tokens max_model_len : Z) : Z :=
  cdiv (Z.min (sliding_window - 1 + max_num_batched_tokens) max_model_len) block_size + 1.

(** [ChunkedLocalAttentionSpec.max_admission_blocks_per_request] *)
Definition chunked_max_admission (block_size attention_chunk_size max_num_batched_tokens max_model_len : Z) : Z :=
  cdiv (Z.min (attention_chunk_size + max_num_batched_tokens) max_model_len) block_size.

(** What [get_manager_for_kv_cache_spec] passes to the manager. *)
Definition max_admission_blocks_per_request (s : KVCacheSpec)
    (max_num_batched_tokens max_model_len : Z) : option Z :=
  match kind s with
  | SlidingWindow w _ => Some (sliding_max_admission (block_size s) w max_num_batched_tokens max_model_len)
  | ChunkedLocal c => Some (chunked_max_admission (block_size s) c max_num_batched_tokens max_model_len)
  | _ => None
  end.

Record KVCacheGroupSpec := mkGroup { kv_cache_spec : KVCacheSpec; is_eagle_group : bool }.
Record KVCacheConfig := mkConfig { num_blocks : Z; kv_cache_groups : list KVCacheGroupSpec }.

(** [get_num_skipped_tokens] of the managers: the number of tokens that the
    computation of the next token does not read. *)
Definition sliding_skipped (sliding_window num_computed_tokens : Z) : Z :=
  Z.max 0 (num_computed_tokens - sliding_window + 1).
Definition chunked_skipped (attention_chunk_size num_computed_tokens : Z) : Z :=
  num_computed_tokens / attention_chunk_size * attention_chunk_size.
Definition mamba_skipped (num_computed_tokens : Z) : Z := num_computed_tokens - 1.

Definition num_skipped_tokens (k : spec_kind) (num_computed_tokens : Z) : Z :=
  match k with
  | FullAttention _ | CrossAttention => 0
  | SlidingWindow w _ => sliding_skipped w num_computed_tokens
  | ChunkedLocal c => chunked_skipped c num_computed_tokens
  | Mamba _ _ => mamba_skipped num_computed_tokens
  end.

(** Python's floor division of a number of skipped tokens by the block size:
    a block is skipped only when all of its tokens are. *)
Lemma skipped_blocks_skipped k n bs j :
  0 < bs → 0 ≤ num_skipped_tokens k n → j < num_skipped_tokens k n / bs →
  (j + 1) * bs ≤ num_skipped_tokens k n.
Proof. intros Hbs _ Hj. pose proof (Z.mul_div_le (num_skipped_tokens k n) bs Hbs). nia. Qed.
