(* ===== verification/FreeQueue.v ===== *)
(** * The free-block queue

    [KVCacheBlock] and [FreeKVCacheBlockQueue] of
    [vllm/v1/core/kv_cache_utils.py].  Blocks are shared mutable objects: they
    live in a store ([heap]), a reference to a block is its location, and the
    queue is threaded through the [prev_free_block] and [next_free_block]
    attributes of the blocks, between two sentinel blocks.  The theorems relate
    every operation to the operation on the list of free blocks it stands for
    ([queue_rep]). *)
From S2P Require Import Prelude.

(** Python [bytes]: a list of values of a byte. *)
Abbreviation bytes := (list Z).

(** A reference to a block object. *)
Abbreviation loc := nat.

Record KVCacheBlock := mkBlock {
  block_id : Z;
  ref_cnt : Z;
  block_hash : option bytes;          (* [_block_hash], with the group id *)
  prev_free_block : option loc;
  next_free_block : option loc;
  is_null : bool;
}.

(** [KVCacheBlock(block_id=...)] *)
Definition new_block (id : Z) : KVCacheBlock := mkBlock id 0 None None None false.

Definition set_ref_cnt (v : Z) (b : KVCacheBlock) : KVCacheBlock :=
  mkBlock (block_id b) v (block_hash b) (prev_free_block b) (next_free_block b) (is_null b).
Definition set_hash (v : option bytes) (b : KVCacheBlock) : KVCacheBlock :=
  mkBlock (block_id b) (ref_cnt b) v (prev_free_block b) (next_free_block b) (is_null b).
Definition set_prev (v : option loc) (b : KVCacheBlock) : KVCacheBlock :=
  mkBlock (block_id b) (ref_cnt b) (block_hash b) v (next_free_block b) (is_null b).
Definition set_next (v : option loc) (b : KVCacheBlock) : KVCacheBlock :=
  mkBlock (block_id b) (ref_cnt b) (block_hash b) (prev_free_block b) v (is_null b).
Definition set_is_null (v : bool) (b : KVCacheBlock) : KVCacheBlock :=
  mkBlock (block_id b) (ref_cnt b) (block_hash b) (prev_free_block b) (next_free_block b) v.

(** The store of block objects; allocating an object extends it. *)
Abbreviation heap := (list KVCacheBlock).

(** The attributes of [FreeKVCacheBlockQueue], with the store it manipulates. *)
Record queue_state := mkQueue {
  q_heap : heap;
  num_free_blocks : Z;
  fake_free_list_head : loc;
  fake_free_list_tail : loc;
}.

Definition q_set_heap (h : heap) (q : queue_state) : queue_state :=
  mkQueue h (num_free_blocks q) (fake_free_list_head q) (fake_free_list_tail q).
Definition q_set_num (n : Z) (q : queue_state) : queue_state :=
  mkQueue (q_heap q) n (fake_free_list_head q) (fake_free_list_tail q).

Definition next_of (h : heap) (l : loc) : option loc := h !! l ≫= next_free_block.
Definition prev_of (h : heap) (l : loc) : option loc := h !! l ≫= prev_free_block.

Definition write_next (l : loc) (v : option loc) : M queue_state () :=
  modify (λ q, q_set_heap (alter (set_next v) l (q_heap q)) q).
Definition write_prev (l : loc) (v : option loc) : M queue_state () :=
  modify (λ q, q_set_heap (alter (set_prev v) l (q_heap q)) q).
Definition read_next (l : loc) : M queue_state (option loc) :=
  gets (λ q, next_of (q_heap q) l).
Definition read_prev (l : loc) : M queue_state (option loc) :=
  gets (λ q, prev_of (q_heap q) l).
Definition add_num (d : Z) : M queue_state () :=
  modify (λ q, q_set_num (num_free_blocks q + d) q).

Module FreeKVCacheBlockQueue.

(** The loop of [__init__] over [range(num_free_blocks)], followed by the
    connection of the sentinels. *)
Definition link_step (blocks : list loc) (h : heap) (i : nat) : heap :=
  let h1 := if (0 <? Z.of_nat i)
            then match blocks !! i with
                 | Some b => alter (set_prev (blocks !! (i - 1)%nat)) b h
                 | None => h
                 end
            else h in
  if (Z.of_nat i <? len blocks - 1)
  then match blocks !! i with
       | Some b => alter (set_next (blocks !! (i + 1)%nat)) b h1
       | None => h1
       end
  else h1.

Definition init (h : heap) (blocks : list loc) : queue_state :=
  let h1 := foldl (link_step blocks) h (seq 0 (length blocks)) in
  let hd := length h1 in
  let tl := S (length h1) in
  let h2 := h1 ++ [new_block (-1); new_block (-1)] in
  let h3 :=
    match blocks !! 0%nat, last blocks with
    | Some b0, Some bn =>
        alter (set_next (Some tl)) bn
          (alter (set_prev (Some bn)) tl
            (alter (set_prev (Some hd)) b0
              (alter (set_next (Some b0)) hd h2)))
    | _, _ => alter (set_prev (Some hd)) tl (alter (set_next (Some tl)) hd h2)
    end in
  mkQueue h3 (len blocks) hd tl.

Definition popleft : M queue_state loc :=
  q ← get;
  let hd := fake_free_list_head q in
  let tl := fake_free_list_tail q in
  hn ← read_next hd;
  match hn with
  | None => _ ← massert (num_free_blocks q =? 0); raise ValueError
  | Some first =>
      if decide (first = tl)
      then _ ← massert (num_free_blocks q =? 0); raise ValueError
      else
        fn ← read_next first;
        match fn with
        | None => raise RuntimeError
        | Some second =>
            _ ← write_next hd (Some second);
            _ ← write_prev second (Some hd);
            _ ← write_prev first None;
            _ ← write_next first None;
            _ ← add_num (-1);
            mret first
        end
  end.

(** The [for _ in range(n)] loop: returns the popped blocks and [curr_block]. *)
Fixpoint pop_loop (n : nat) (curr : option loc) : M queue_state (list loc * option loc) :=
  match n with
  | O => mret ([], curr)
  | S n' =>
      match curr with
      | None => raise AssertionError
      | Some b =>
          nx ← read_next b;
          _ ← write_prev b None;
          _ ← write_next b None;
          '(r, c) ← pop_loop n' nx;
          mret (b :: r, c)
      end
  end.

Definition popleft_n (n : Z) : M queue_state (list loc) :=
  if n =? 0 then mret [] else
  q ← get;
  _ ← massert (n <=? num_free_blocks q);
  _ ← add_num (- n);
  curr ← read_next (fake_free_list_head q);
  '(ret, curr) ← pop_loop (Z.to_nat n) curr;
  match curr with
  | Some c =>
      _ ← write_next (fake_free_list_head q) (Some c);
      _ ← write_prev c (Some (fake_free_list_head q));
      mret ret
  | None => mret ret
  end.

Definition remove (b : loc) : M queue_state () :=
  p ← read_prev b;
  n ← read_next b;
  match p, n with
  | Some p, Some n =>
      _ ← write_next p (Some n);
      _ ← write_prev n (Some p);
      _ ← write_prev b None;
      _ ← write_next b None;
      add_num (-1)
  | _, _ => raise RuntimeError
  end.

Definition append (b : loc) : M queue_state () :=
  q ← get;
  lst ← read_prev (fake_free_list_tail q);
  match lst with
  | None => raise RuntimeError
  | Some last_block =>
      _ ← write_next last_block (Some b);
      _ ← write_prev b (Some last_block);
      _ ← write_next b (Some (fake_free_list_tail q));
      _ ← write_prev (fake_free_list_tail q) (Some b);
      add_num 1
  end.

(** The loop [for block in blocks] shared by [prepend_n] and [append_n]:
    chain the blocks after [prev] and return the last one. *)
Fixpoint chain_loop (prev : loc) (blocks : list loc) : M queue_state loc :=
  match blocks with
  | [] => mret prev
  | b :: bs =>
      _ ← write_prev b (Some prev);
      _ ← write_next prev (Some b);
      chain_loop b bs
  end.

Definition prepend_n (blocks : list loc) : M queue_state () :=
  if len blocks =? 0 then mret tt else
  q ← get;
  fb ← read_next (fake_free_list_head q);
  match fb with
  | None => raise AssertionError
  | Some first_block =>
      prev_block ← chain_loop (fake_free_list_head q) blocks;
      _ ← write_next prev_block (Some first_block);
      _ ← write_prev first_block (Some prev_block);
      add_num (len blocks)
  end.

Definition append_n (blocks : list loc) : M queue_state () :=
  if len blocks =? 0 then mret tt else
  q ← get;
  lb ← read_prev (fake_free_list_tail q);
  match lb with
  | None => raise AssertionError
  | Some last_block =>
      last_block ← chain_loop last_block blocks;
      _ ← write_next last_block (Some (fake_free_list_tail q));
      _ ← write_prev (fake_free_list_tail q) (Some last_block);
      add_num (len blocks)
  end.

(** [while curr_block.next_free_block is not None]; each turn visits one block
    of the chain, so the number of objects in the store bounds the turns. *)
Fixpoint collect (fuel : nat) (h : heap) (curr : loc) : res (list loc) :=
  match fuel with
  | O => Raise OutOfFuel
  | S f =>
      match next_of h curr with
      | None => Ok []
      | Some n =>
          match collect f h n with
          | Ok r => Ok (curr :: r)
          | Raise e => Raise e
          end
      end
  end.

Definition get_all_free_blocks : M queue_state (list loc) :=
  q ← get;
  fb ← read_next (fake_free_list_head q);
  match fb with
  | None => raise RuntimeError
  | Some first => of_res (collect (S (length (q_heap q))) (q_heap q) first)
  end.

End FreeKVCacheBlockQueue.

(** ** Heap lemmas: reading after a write *)
Section heap_lemmas.
Implicit Types (h : heap) (a b : loc).

Lemma next_of_set_next_eq h a v :
  (a < length h)%nat → next_of (alter (set_next v) a h) a = v.
Proof.
  intros [x Hx]%lookup_lt_is_Some. unfold next_of.
  by rewrite list_lookup_alter_eq, Hx.
Qed.

Lemma prev_of_set_prev_eq h a v :
  (a < length h)%nat → prev_of (alter (set_prev v) a h) a = v.
Proof.
  intros [x Hx]%lookup_lt_is_Some. unfold prev_of.
  by rewrite list_lookup_alter_eq, Hx.
Qed.

Lemma next_of_set_next_ne h a b v :
  a ≠ b → next_of (alter (set_next v) a h) b = next_of h b.
Proof. intros. unfold next_of. by rewrite list_lookup_alter_ne. Qed.

Lemma prev_of_set_prev_ne h a b v :
  a ≠ b → prev_of (alter (set_prev v) a h) b = prev_of h b.
Proof. intros. unfold prev_of. by rewrite list_lookup_alter_ne. Qed.

Lemma next_of_set_prev h a b v :
  next_of (alter (set_prev v) a h) b = next_of h b.
Proof.
  unfold next_of. rewrite list_lookup_alter. case_decide; [subst|done].
  by destruct (h !! b).
Qed.

Lemma prev_of_set_next h a b v :
  prev_of (alter (set_next v) a h) b = prev_of h b.
Proof.
  unfold prev_of. rewrite list_lookup_alter. case_decide; [subst|done].
  by destruct (h !! b).
Qed.

Lemma next_of_Some_lt h a b : next_of h a = Some b → (a < length h)%nat.
Proof.
  unfold next_of. destruct (h !! a) eqn:E; [|done]. intros _. by eapply lookup_lt_Some.
Qed.

Lemma prev_of_Some_lt h a b : prev_of h a = Some b → (a < length h)%nat.
Proof.
  unfold prev_of. destruct (h !! a) eqn:E; [|done]. intros _. by eapply lookup_lt_Some.
Qed.
End heap_lemmas.

Create Rewrite HintDb heap.
#[export] Hint Rewrite next_of_set_prev prev_of_set_next @length_alter : heap.
Ltac heap_simpl := repeat first
  [ progress autorewrite with heap in *
  | rewrite next_of_set_next_eq by (autorewrite with heap; first [eassumption | lia])
  | rewrite prev_of_set_prev_eq by (autorewrite with heap; first [eassumption | lia])
  | rewrite next_of_set_next_ne by (first [done | set_solver])
  | rewrite prev_of_set_prev_ne by (first [done | set_solver]) ].

(** What the pool sees of a block: everything but the links. *)
Definition meta (b : KVCacheBlock) : Z * Z * option bytes * bool :=
  (block_id b, ref_cnt b, block_hash b, is_null b).

(** Two stores agree up to the links of the queue. *)
Definition heap_sim (h h' : heap) : Prop := meta <$> h = meta <$> h'.

#[export] Instance heap_sim_equivalence : Equivalence heap_sim.
Proof. unfold heap_sim. split; congruence. Qed.

Lemma heap_sim_alter (f : KVCacheBlock → KVCacheBlock) a (h : heap) :
  (∀ b, meta (f b) = meta b) → heap_sim h (alter f a h).
Proof.
  intros Hf. unfold heap_sim. apply list_eq. intros i.
  rewrite !list_lookup_fmap, list_lookup_alter. case_decide as E; [subst|done].
  destruct (h !! i); simpl; [by rewrite Hf|done].
Qed.

Lemma heap_sim_set_next a v h : heap_sim h (alter (set_next v) a h).
Proof. by apply heap_sim_alter. Qed.
Lemma heap_sim_set_prev a v h : heap_sim h (alter (set_prev v) a h).
Proof. by apply heap_sim_alter. Qed.

Lemma heap_sim_length h h' : heap_sim h h' → length h = length h'.
Proof. intros H. apply (f_equal length) in H. by rewrite !length_fmap in H. Qed.

Lemma heap_sim_lookup h h' l b :
  heap_sim h h' → h !! l = Some b → ∃ b', h' !! l = Some b' ∧ meta b' = meta b.
Proof.
  intros H Hl. apply (f_equal (λ m, m !! l)) in H.
  rewrite !list_lookup_fmap, Hl in H.
  destruct (h' !! l) as [b'|]; [|done]. exists b'. split; [done|]. simpl in H. congruence.
Qed.

Ltac solve_heap_sim := repeat first
  [ reflexivity | eassumption
  | etrans; [|apply heap_sim_set_next] | etrans; [|apply heap_sim_set_prev] ].

(** ** Chains of links *)
Definition link (h : heap) (a b : loc) : Prop :=
  next_of h a = Some b ∧ prev_of h b = Some a.

Fixpoint links (h : heap) (xs : list loc) : Prop :=
  match xs with
  | a :: ((b :: _) as r) => link h a b ∧ links h r
  | _ => True
  end.

Section links.
Implicit Types (h : heap) (xs ys : list loc).

Lemma links_cons2 h a b xs : links h (a :: b :: xs) ↔ link h a b ∧ links h (b :: xs).
Proof. done. Qed.

Lemma links_app h xs y zs :
  links h (xs ++ y :: zs) ↔ links h (xs ++ [y]) ∧ links h (y :: zs).
Proof.
  induction xs as [|x xs IH]; [simpl; tauto|].
  destruct xs as [|x' xs].
  - simpl. tauto.
  - change (links h (x :: x' :: xs ++ y :: zs) ↔
            links h (x :: x' :: xs ++ [y]) ∧ links h (y :: zs)).
    rewrite !links_cons2. simpl in IH. tauto.
Qed.

Lemma links_frame h h' xs :
  links h xs →
  (∀ a, a ∈ removelast xs → next_of h' a = next_of h a) →
  (∀ a, a ∈ tail xs → prev_of h' a = prev_of h a) →
  links h' xs.
Proof.
  induction xs as [|a [|b xs] IH]; [done|done|].
  intros [[H1 H2] H] Hn Hp. split.
  - split; [rewrite Hn|rewrite Hp]; set_solver.
  - apply IH; [done| |].
    + intros c Hc. apply Hn. change (c ∈ a :: removelast (b :: xs)). set_solver.
    + intros c Hc. apply Hp. simpl in *. set_solver.
Qed.

Lemma links_lookup h xs :
  (∀ i a b, xs !! i = Some a → xs !! S i = Some b → link h a b) → links h xs.
Proof.
  induction xs as [|a [|b xs] IH]; intros H; [done|done|]. split.
  - by apply (H O).
  - apply IH. intros i c d Hc Hd. by apply (H (S i)).
Qed.

Lemma links_in_heap h xs a :
  links h xs → (2 ≤ length xs)%nat → a ∈ xs → (a < length h)%nat.
Proof.
  induction xs as [|x [|y xs] IH]; intros Hl Hlen Ha; simpl in *; [lia|lia|].
  destruct Hl as [[Hn Hp] Hl].
  apply elem_of_cons in Ha as [->|Ha]; [by eapply next_of_Some_lt|].
  destruct xs as [|z xs].
  - apply list_elem_of_singleton in Ha as ->. by eapply prev_of_Some_lt.
  - apply IH; simpl; [done|lia|done].
Qed.
End links.

Lemma removelast_subseteq {A} (xs : list A) a : a ∈ removelast xs → a ∈ xs.
Proof.
  induction xs as [|x [|y xs] IH]; [done|set_solver|].
  change (a ∈ x :: removelast (y :: xs) → a ∈ x :: y :: xs). set_solver.
Qed.

(** ** The queue represents a list *)
Definition chain_of (q : queue_state) (l : list loc) : list loc :=
  fake_free_list_head q :: l ++ [fake_free_list_tail q].

Record queue_rep (q : queue_state) (l : list loc) : Prop := {
  qr_links : links (q_heap q) (chain_of q l);
  qr_nodup : NoDup (chain_of q l);
  qr_num : num_free_blocks q = len l;
  qr_head : prev_of (q_heap q) (fake_free_list_head q) = None;
  qr_tail : next_of (q_heap q) (fake_free_list_tail q) = None;
  qr_unlinked a : a ∉ chain_of q l →
    prev_of (q_heap q) a = None ∧ next_of (q_heap q) a = None;
}.

(** What no operation of the queue changes. *)
Record q_frame (q q' : queue_state) : Prop := {
  qf_sim : heap_sim (q_heap q) (q_heap q');
  qf_head : fake_free_list_head q' = fake_free_list_head q;
  qf_tail : fake_free_list_tail q' = fake_free_list_tail q;
}.

#[export] Instance q_frame_preorder : PreOrder q_frame.
Proof.
  split; [by split|]. intros q1 q2 q3 [] []. split; [by etrans|congruence|congruence].
Qed.

(** ** Unlinking a block and splicing a list of blocks *)
Section surgery.
Implicit Types (h : heap) (a b p n : loc) (ps ns : list loc).

Definition unlink h p b n : heap :=
  alter (set_next None) b (alter (set_prev None) b
    (alter (set_prev (Some p)) n (alter (set_next (Some n)) p h))).

Lemma unlink_sim h p b n : heap_sim h (unlink h p b n).
Proof. unfold unlink. solve_heap_sim. Qed.

Lemma unlink_links h ps p b n ns :
  links h (ps ++ p :: b :: n :: ns) → NoDup (ps ++ p :: b :: n :: ns) →
  links (unlink h p b n) (ps ++ p :: n :: ns).
Proof.
  intros Hl Hd. apply links_app in Hl as [Hps Hl].
  rewrite !links_cons2 in Hl. destruct Hl as ([Hp1 Hp2] & [Hb1 Hb2] & Hn).
  assert (p < length h)%nat by (by eapply next_of_Some_lt).
  assert (n < length h)%nat by (by eapply prev_of_Some_lt).
  rewrite NoDup_app in Hd. destruct Hd as (Hd1 & Hd2 & Hd3).
  rewrite !NoDup_cons in Hd3. destruct Hd3 as (Hd3 & Hd4 & Hd5 & Hd6).
  apply links_app. split; [|rewrite links_cons2; split].
  - apply (links_frame h); [done| |].
    + intros a Ha. rewrite removelast_last in Ha. unfold unlink. heap_simpl. done.
    + intros a Ha. unfold unlink.
      assert (a ∈ ps ∨ a = p) by (destruct ps; simpl in Ha; set_solver).
      heap_simpl. done.
  - unfold unlink. split; heap_simpl; done.
  - apply (links_frame h); [done| |].
    + intros a Ha%removelast_subseteq. unfold unlink. heap_simpl. done.
    + intros a Ha. simpl in Ha. unfold unlink. heap_simpl. done.
Qed.

(** Blocks not next to the unlinked one keep their links; it has none left. *)
Lemma unlink_next h p b n a :
  (b < length h)%nat → a ≠ p → next_of (unlink h p b n) a = if decide (a = b) then None else next_of h a.
Proof.
  intros Hb Hp. unfold unlink. case_decide; [subst a|]; heap_simpl; done.
Qed.

Lemma unlink_prev h p b n a :
  (b < length h)%nat → a ≠ n → prev_of (unlink h p b n) a = if decide (a = b) then None else prev_of h a.
Proof.
  intros Hb Hp. unfold unlink. case_decide; [subst a|]; heap_simpl; done.
Qed.
End surgery.

Section snoc_split.
Context {A : Type}.

Lemma cons_snoc_split (x : A) l : ∃ ps p, x :: l = ps ++ [p].
Proof.
  destruct (exists_last (l := x :: l)) as (ps & p & H); [done|]. by exists ps, p.
Qed.

Lemma snoc_cons_split (l : list A) (x : A) : ∃ n ns, l ++ [x] = n :: ns.
Proof. destruct l; eauto. Qed.
End snoc_split.

Import FreeKVCacheBlockQueue.

(** Unlinking [b] from the represented list. *)
Lemma queue_rep_unlink q l1 b l2 :
  queue_rep q (l1 ++ b :: l2) →
  ∃ p n, last (fake_free_list_head q :: l1) = Some p ∧
    head (l2 ++ [fake_free_list_tail q]) = Some n ∧
    next_of (q_heap q) p = Some b ∧
    prev_of (q_heap q) b = Some p ∧ next_of (q_heap q) b = Some n ∧
    queue_rep (q_set_num (num_free_blocks q - 1) (q_set_heap (unlink (q_heap q) p b n) q))
      (l1 ++ l2).
Proof.
  intros [Hl Hd Hnum Hh Ht Hu].
  destruct (cons_snoc_split (fake_free_list_head q) l1) as (ps & p & Eps).
  destruct (snoc_cons_split l2 (fake_free_list_tail q)) as (n & ns & Ens).
  assert (Echain : chain_of q (l1 ++ b :: l2) = ps ++ p :: b :: n :: ns).
  { unfold chain_of. rewrite <- app_assoc, app_comm_cons, Eps, <- app_assoc. simpl.
    by rewrite <- Ens. }
  assert (Echain' : chain_of q (l1 ++ l2) = ps ++ p :: n :: ns).
  { unfold chain_of. rewrite <- app_assoc, app_comm_cons, Eps, <- app_assoc. simpl.
    by rewrite <- Ens. }
  rewrite Echain in Hl, Hd, Hu.
  pose proof Hl as Hl'. apply links_app in Hl' as [_ Hl'].
  rewrite !links_cons2 in Hl'. destruct Hl' as ([Hp1 Hp2] & [Hb1 Hb2] & Hn).
  assert (b < length (q_heap q))%nat by (by eapply next_of_Some_lt).
  exists p, n.
  rewrite Eps, Ens, last_snoc. do 5 (split; [done|]).
  set (q' := q_set_num _ _).
  assert (Echain2 : chain_of q' (l1 ++ l2) = ps ++ p :: n :: ns) by done.
  split.
  - rewrite Echain2. by apply unlink_links.
  - rewrite Echain2. rewrite !NoDup_app, !NoDup_cons in *. set_solver.
  - simpl. rewrite Hnum, !length_app. simpl. lia.
  - simpl. assert (fake_free_list_head q ≠ b ∧ fake_free_list_head q ≠ n).
    { assert (fake_free_list_head q ∈ ps ++ [p]) by (rewrite <- Eps; set_solver).
      rewrite NoDup_app, !NoDup_cons in Hd. set_solver. }
    rewrite unlink_prev by naive_solver. by case_decide.
  - simpl. assert (fake_free_list_tail q ≠ b ∧ fake_free_list_tail q ≠ p).
    { assert (fake_free_list_tail q ∈ n :: ns) by (rewrite <- Ens; set_solver).
      rewrite NoDup_app, !NoDup_cons in Hd. set_solver. }
    rewrite unlink_next by naive_solver. by case_decide.
  - rewrite Echain2. simpl. intros a Ha.
    rewrite unlink_prev, unlink_next by set_solver.
    case_decide; [done|]. apply Hu. set_solver.
Qed.

Lemma unlink_frame q p b n d :
  q_frame q (q_set_num d (q_set_heap (unlink (q_heap q) p b n) q)).
Proof. split; [apply unlink_sim|done|done]. Qed.

(** ** Specifications of the operations *)
Lemma remove_spec q l1 b l2 :
  queue_rep q (l1 ++ b :: l2) →
  wp (remove b) (λ _ q', queue_rep q' (l1 ++ l2) ∧ q_frame q q') q.
Proof.
  intros Hq. apply queue_rep_unlink in Hq as (p & n & _ & _ & _ & Hp & Hn & Hq).
  unfold remove, read_prev, read_next. wp_step. rewrite Hp, Hn.
  unfold write_prev, write_next, add_num. wp_step.
  split; [exact Hq|exact (unlink_frame q p b n _)].
Qed.

(** A block that is not in the free list is refused, and nothing changes. *)
Lemma remove_not_free q l b :
  queue_rep q l → b ∉ l → remove b q = (Raise RuntimeError, q).
Proof.
  intros Hq Hb. unfold remove, read_prev, read_next, mbind, M_bind, gets.
  destruct (decide (b = fake_free_list_head q)) as [->|Hh]; [by rewrite (qr_head _ _ Hq)|].
  destruct (decide (b = fake_free_list_tail q)) as [->|Ht].
  { rewrite (qr_tail _ _ Hq). by destruct (prev_of _ _). }
  destruct (qr_unlinked _ _ Hq b) as [E1 E2]; [|by rewrite E1, ?E2].
  unfold chain_of. set_solver.
Qed.

Lemma popleft_spec q b l :
  queue_rep q (b :: l) →
  wp popleft (λ r q', r = b ∧ queue_rep q' l ∧ q_frame q q') q.
Proof.
  intros Hq.
  assert (Htl : b ≠ fake_free_list_tail q).
  { destruct Hq as [_ Hd]. unfold chain_of in Hd. simpl in Hd.
    rewrite !NoDup_cons in Hd. set_solver. }
  apply (queue_rep_unlink q []) in Hq as (p & n & Ep & _ & Hpn & Hp & Hn & Hq).
  simplify_eq/=. unfold popleft, read_next. wp_step. rewrite Hpn.
  rewrite decide_False by done. wp_step. rewrite Hn.
  unfold write_prev, write_next, add_num. wp_step.
  split; [done|]. split; [exact Hq|exact (unlink_frame q _ b n _)].
Qed.

Lemma popleft_empty q : queue_rep q [] → popleft q = (Raise ValueError, q).
Proof.
  intros [[[Hn _] _] _ Hnum _ _ _]. unfold popleft, read_next, mbind, M_bind, get, gets.
  rewrite Hn, decide_True by done. rewrite Hnum. done.
Qed.

(** The loop of [popleft_n] clears the links of the blocks it visits. *)
Lemma pop_loop_spec l1 : ∀ q x ys c,
  links (q_heap q) (l1 ++ x :: ys) → NoDup (l1 ++ x :: ys) →
  c = head (l1 ++ [x]) →
  wp (pop_loop (length l1) c)
    (λ r q', r = (l1, Some x) ∧ q_frame q q' ∧ num_free_blocks q' = num_free_blocks q ∧
       (∀ a, next_of (q_heap q') a = if decide (a ∈ l1) then None else next_of (q_heap q) a) ∧
       (∀ a, prev_of (q_heap q') a = if decide (a ∈ l1) then None else prev_of (q_heap q) a)) q.
Proof.
  induction l1 as [|b l1 IH]; intros q x ys c Hl Hd Hc.
  { subst c. simpl. wp_step. split; [done|]. split; [reflexivity|]. naive_solver. }
  subst c. simpl pop_loop. unfold read_next, write_prev, write_next. wp_step.
  set (q1 := q_set_heap _ (q_set_heap _ q)).
  assert (Hlt : (b < length (q_heap q))%nat).
  { destruct l1 as [|b' l1]; destruct Hl as [[Hn _] _]; by eapply next_of_Some_lt. }
  assert (Hnx : next_of (q_heap q) b = head (l1 ++ [x])).
  { destruct l1 as [|b' l1]; by destruct Hl as [[Hn _] _]. }
  assert (E1n : ∀ a, next_of (q_heap q1) a = if decide (a = b) then None else next_of (q_heap q) a).
  { intros a. simpl. case_decide; [subst a|]; heap_simpl; done. }
  assert (E1p : ∀ a, prev_of (q_heap q1) a = if decide (a = b) then None else prev_of (q_heap q) a).
  { intros a. simpl. case_decide; [subst a|]; heap_simpl; done. }
  simpl in Hd. apply NoDup_cons in Hd as [Hb Hd].
  eapply wp_mono.
  - apply (IH q1 x ys); [|done|done].
    apply (links_frame (q_heap q)).
    + destruct l1; [by destruct Hl|by destruct Hl].
    + intros a Ha%removelast_subseteq. rewrite E1n, decide_False; set_solver.
    + intros a Ha. rewrite E1p, decide_False; [done|].
      intros ->. apply Hb. destruct l1; simpl in *; set_solver.
  - intros [r c'] q' (Er & Hf & Hnum & Hnext & Hprev). simplify_eq. wp_step.
    split; [done|]. split; [etrans; [|done]; split; [simpl; solve_heap_sim|done|done]|].
    split; [done|]. split; intros a; rewrite ?Hnext, ?Hprev, ?E1n, ?E1p;
      repeat case_decide; set_solver.
Qed.

Lemma popleft_n_spec q l1 l2 :
  queue_rep q (l1 ++ l2) →
  wp (popleft_n (len l1)) (λ r q', r = l1 ∧ queue_rep q' l2 ∧ q_frame q q') q.
Proof.
  intros Hq. unfold popleft_n. destruct l1 as [|b l1]; [by wp_step; split_and!|].
  rewrite (proj2 (Z.eqb_neq _ _)) by (simpl; lia).
  destruct Hq as [Hl Hd Hnum Hh Ht Hu].
  destruct (snoc_cons_split l2 (fake_free_list_tail q)) as (x & ys & Exy).
  assert (Echain : chain_of q ((b :: l1) ++ l2) = fake_free_list_head q :: (b :: l1) ++ x :: ys).
  { unfold chain_of. by rewrite <- app_assoc, Exy. }
  rewrite Echain in Hl, Hd, Hu. rewrite length_app in Hnum.
  pose proof (links_in_heap _ _ (fake_free_list_head q) Hl ltac:(simpl; lia) ltac:(set_solver)).
  pose proof (links_in_heap _ _ x Hl ltac:(simpl; lia) ltac:(set_solver)).
  destruct Hl as [[Hhn _] Hl]. apply NoDup_cons in Hd as [Hhd Hd].
  unfold read_next, add_num. wp_step. split; [apply Z.leb_le; lia|]. wp_step.
  set (q1 := q_set_num _ q). change (q_heap q1) with (q_heap q). rewrite Hhn, Nat2Z.id.
  apply (wp_mono _ _ _ _ (pop_loop_spec (b :: l1) q1 x ys (Some b) Hl Hd eq_refl)).
  intros r q' (-> & Hf & Hnum' & Hnext & Hprev). unfold write_next, write_prev. wp_step.
  assert (Hlen : length (q_heap q') = length (q_heap q)).
  { symmetry. apply heap_sim_length, (qf_sim _ _ Hf). }
  split; [done|]. destruct Hf as [Hsim Hhead Htail].
  change (fake_free_list_head q1) with (fake_free_list_head q) in Hhead.
  change (fake_free_list_tail q1) with (fake_free_list_tail q) in Htail.
  change (q_heap q1) with (q_heap q) in *.
  set (q2 := q_set_heap _ _).
  assert (Echain2 : chain_of q2 l2 = fake_free_list_head q :: x :: ys).
  { unfold chain_of, q2. simpl. by rewrite Hhead, Htail, Exy. }
  apply NoDup_app in Hd as (Hd1 & Hd2 & Hd3). rewrite NoDup_cons in Hd3.
  split; [split|split; [|done|done]].
  - rewrite Echain2. rewrite links_cons2. split; [split; simpl; heap_simpl; done|].
    apply links_app in Hl as [_ Hl]. apply (links_frame (q_heap q)); [done| |].
    + intros a Ha%removelast_subseteq. simpl. heap_simpl.
      rewrite Hnext, decide_False; [done|]. intros Hin. by apply (Hd2 a).
    + intros a Ha. simpl in *. heap_simpl.
      rewrite Hprev, decide_False; [done|]. intros Hin. apply (Hd2 a); set_solver.
  - rewrite Echain2. rewrite !NoDup_cons. set_solver.
  - simpl. rewrite Hnum'. simpl. simpl in Hnum. lia.
  - simpl. rewrite Hhead. heap_simpl. rewrite Hprev.
    rewrite decide_False; [done|set_solver].
  - simpl. rewrite Htail.
    assert (Hin : fake_free_list_tail q ∈ x :: ys).
    { rewrite <- Exy. apply elem_of_app. right. by apply list_elem_of_singleton. }
    rewrite next_of_set_prev, next_of_set_next_ne.
    { rewrite Hnext, decide_False; [done|]. intros Hin'. by apply (Hd2 _ Hin'). }
    intros E. apply Hhd. rewrite E. apply elem_of_app. by right.
  - rewrite Echain2. intros a Ha. simpl. heap_simpl. rewrite Hnext, Hprev.
    case_decide as Hni; [done|]. apply Hu. set_solver +Ha Hni.
  - simpl. solve_heap_sim.
Qed.

(** ** Splicing a list of blocks into the chain *)
Lemma chain_loop_spec blocks : ∀ q p,
  NoDup (p :: blocks) → (∀ a, a ∈ p :: blocks → (a < length (q_heap q))%nat) →
  wp (chain_loop p blocks)
    (λ r q', last (p :: blocks) = Some r ∧ links (q_heap q') (p :: blocks) ∧
       q_frame q q' ∧ num_free_blocks q' = num_free_blocks q ∧
       (∀ a, a ∉ removelast (p :: blocks) → next_of (q_heap q') a = next_of (q_heap q) a) ∧
       (∀ a, a ∉ blocks → prev_of (q_heap q') a = prev_of (q_heap q) a)) q.
Proof.
  induction blocks as [|b bs IH]; intros q p Hd Hin.
  { simpl. wp_step. split_and!; try done. }
  simpl chain_loop. unfold write_prev, write_next. wp_step.
  set (q1 := q_set_heap _ (q_set_heap _ q)).
  apply NoDup_cons in Hd as [Hp Hd].
  eapply wp_mono.
  - apply (IH q1 b); [done|]. intros a Ha. simpl. heap_simpl. apply Hin. set_solver.
  - intros r q' (Hlast & Hl & Hf & Hnum & Hnext & Hprev). simpl in Hnum.
    assert (p < length (q_heap q))%nat by set_solver.
    assert (b < length (q_heap q))%nat by set_solver.
    change (last (p :: b :: bs) = Some r) with (last (b :: bs) = Some r).
    assert (∀ a, a ∈ removelast (b :: bs) → a ∈ b :: bs) by (intros; by apply removelast_subseteq).
    split; [done|]. split; [split; [split|done]|].
    + rewrite Hnext by set_solver. simpl. heap_simpl. done.
    + rewrite Hprev by (apply NoDup_cons in Hd; set_solver). simpl. heap_simpl. done.
    + split; [etrans; [|done]; split; [simpl; solve_heap_sim|done|done]|].
      split; [done|].
      change (removelast (p :: b :: bs)) with (p :: removelast (b :: bs)).
      split; intros a Ha.
      * rewrite Hnext by set_solver. simpl. heap_simpl. done.
      * rewrite Hprev by set_solver. simpl. heap_simpl. done.
Qed.

(** Inserting the blocks between the neighbours [p] and [n] of the chain. *)
Lemma splice_spec q ps p n ns blocks :
  blocks ≠ [] →
  links (q_heap q) (ps ++ p :: n :: ns) → NoDup (ps ++ p :: n :: ns) →
  NoDup blocks → (∀ a, a ∈ blocks → (a ∉ ps ++ p :: n :: ns) ∧ (a < length (q_heap q))%nat) →
  wp (r ← (chain_loop p blocks); _ ← (write_next r (Some n)); (write_prev n (Some r)))
    (λ _ q', links (q_heap q') (ps ++ p :: blocks ++ n :: ns) ∧
       q_frame q q' ∧ num_free_blocks q' = num_free_blocks q ∧
       (∀ a, a ∉ p :: blocks → next_of (q_heap q') a = next_of (q_heap q) a) ∧
       (∀ a, a ∉ n :: blocks → prev_of (q_heap q') a = prev_of (q_heap q) a)) q.
Proof.
  intros Hne Hl Hd Hdb Hb.
  pose proof (links_in_heap _ _ p Hl ltac:(rewrite length_app; simpl; lia) ltac:(set_solver)).
  pose proof (links_in_heap _ _ n Hl ltac:(rewrite length_app; simpl; lia) ltac:(set_solver)).
  apply NoDup_app in Hd as (Hd1 & Hd2 & Hd3). rewrite !NoDup_cons in Hd3.
  apply links_app in Hl as [Hl1 Hl2]. apply links_cons2 in Hl2 as [_ Hl2].
  wp_step. eapply wp_mono.
  { apply chain_loop_spec; [rewrite NoDup_cons; set_solver|].
    intros a [->|Ha]%elem_of_cons; [done|]. by apply Hb. }
  intros r q1 (Hlast & Hch & Hf & Hnum & Hnext & Hprev).
  destruct (exists_last Hne) as (bs & r' & Ebs).
  assert (r' = r) as ->.
  { rewrite Ebs, app_comm_cons, last_snoc in Hlast. by simplify_eq. }
  assert (Hrl : removelast (p :: blocks) = p :: bs).
  { rewrite Ebs, app_comm_cons. apply removelast_last. }
  rewrite Hrl in Hnext.
  assert (Hr : r ∈ blocks) by (rewrite Ebs; set_solver).
  assert (Hrbs : r ∉ bs) by (rewrite Ebs, NoDup_app in Hdb; set_solver).
  assert (Hbsub : ∀ a, a ∈ bs → a ∈ blocks) by (rewrite Ebs; set_solver).
  assert (Hlen : length (q_heap q1) = length (q_heap q)).
  { symmetry. apply heap_sim_length, (qf_sim _ _ Hf). }
  assert (r < length (q_heap q1))%nat by (rewrite Hlen; naive_solver).
  unfold write_next, write_prev. wp_step. simpl.
  split; [|split; [etrans; [done|]; split; [simpl; solve_heap_sim|done|done]|]].
  2: { split; [done|]. split; intros a Ha; heap_simpl; [apply Hnext|apply Hprev]; set_solver. }
  apply links_app. split.
  { apply (links_frame (q_heap q)); [done| |].
    - intros a Ha. rewrite removelast_last in Ha. heap_simpl. apply Hnext. set_solver.
    - intros a Ha. assert (a ∈ ps ∨ a = p) by (destruct ps; simpl in Ha; set_solver).
      heap_simpl. apply Hprev. set_solver. }
  replace (p :: blocks ++ n :: ns) with ((p :: bs) ++ r :: n :: ns)
    by (rewrite Ebs, <- app_assoc; done).
  apply links_app. rewrite links_cons2. split; [|split].
  - apply (links_frame (q_heap q1)).
    + by rewrite <- app_comm_cons, <- Ebs.
    + intros a Ha. rewrite removelast_last in Ha. heap_simpl. done.
    + intros a Ha. simpl in Ha. assert (a ∈ blocks) by (rewrite Ebs; set_solver). heap_simpl. done.
  - split; heap_simpl; done.
  - apply (links_frame (q_heap q)); [done| |].
    + intros a Ha%removelast_subseteq. heap_simpl. apply Hnext. set_solver.
    + intros a Ha. simpl in Ha. heap_simpl. apply Hprev. set_solver.
Qed.

(** The blocks may enter the free list: they are objects of the store that the
    chain does not contain yet. *)
Definition can_enter (q : queue_state) (l blocks : list loc) : Prop :=
  NoDup blocks ∧ ∀ a, a ∈ blocks → (a ∉ chain_of q l) ∧ (a < length (q_heap q))%nat.

Lemma queue_rep_splice q l1 l2 blocks :
  queue_rep q (l1 ++ l2) → blocks ≠ [] → can_enter q (l1 ++ l2) blocks →
  ∃ p n, last (fake_free_list_head q :: l1) = Some p ∧
    head (l2 ++ [fake_free_list_tail q]) = Some n ∧ link (q_heap q) p n ∧
    wp (r ← (chain_loop p blocks); _ ← (write_next r (Some n));
        _ ← (write_prev n (Some r)); add_num (len blocks))
      (λ _ q', queue_rep q' (l1 ++ blocks ++ l2) ∧ q_frame q q') q.
Proof.
  intros [Hl Hd Hnum Hh Ht Hu] Hne [Hdb Hb].
  destruct (cons_snoc_split (fake_free_list_head q) l1) as (ps & p & Eps).
  destruct (snoc_cons_split l2 (fake_free_list_tail q)) as (n & ns & Ens).
  assert (Echain : chain_of q (l1 ++ l2) = ps ++ p :: n :: ns).
  { unfold chain_of. rewrite <- app_assoc, app_comm_cons, Eps, <- app_assoc. simpl.
    by rewrite <- Ens. }
  rewrite Echain in Hl, Hd, Hu, Hb.
  exists p, n. rewrite Eps, Ens, last_snoc. split; [done|]. split; [done|].
  split. { apply links_app in Hl as [_ Hl]. by apply links_cons2 in Hl as [Hl _]. }
  pose proof (splice_spec q ps p n ns blocks Hne Hl Hd Hdb Hb) as Hs.
  rewrite !wp_bind in Hs. rewrite !wp_bind. apply (wp_mono _ _ _ _ Hs).
  intros r q1 Hs1. rewrite wp_bind in *. apply (wp_mono _ _ _ _ Hs1).
  intros _ q2 Hs2. rewrite wp_bind in *. apply (wp_mono _ _ _ _ Hs2).
  intros _ q3 (Hl3 & Hf3 & Hnum3 & Hnext3 & Hprev3).
  unfold add_num. wp_step. set (q' := q_set_num _ q3).
  assert (Echain' : chain_of q' (l1 ++ blocks ++ l2) = ps ++ p :: blocks ++ n :: ns).
  { unfold chain_of. simpl. destruct Hf3 as [_ -> ->].
    rewrite <- !app_assoc, app_comm_cons, Eps, <- app_assoc. simpl. by rewrite <- Ens. }
  split; [|etrans; [exact Hf3|by split]].
  assert (Hhd : fake_free_list_head q ∈ ps ++ [p]).
  { rewrite <- Eps. apply elem_of_cons. by left. }
  assert (Htl : fake_free_list_tail q ∈ n :: ns).
  { rewrite <- Ens. apply elem_of_app. right. by apply list_elem_of_singleton. }
  split.
  - by rewrite Echain'.
  - rewrite Echain'. rewrite !NoDup_app, !NoDup_cons, NoDup_app, !NoDup_cons in *.
    set_solver +Hd Hdb Hb.
  - simpl. rewrite Hnum3, Hnum, !length_app. lia.
  - simpl. rewrite (qf_head _ _ Hf3), Hprev3; [done|].
    rewrite NoDup_app, !NoDup_cons in Hd. set_solver +Hhd Hd Hb.
  - simpl. rewrite (qf_tail _ _ Hf3), Hnext3; [done|].
    rewrite NoDup_app, !NoDup_cons in Hd. set_solver +Htl Hd Hb.
  - rewrite Echain'. intros a Ha. simpl.
    rewrite Hnext3, Hprev3 by set_solver +Ha. apply Hu. set_solver +Ha.
Qed.

Lemma append_n_spec q l blocks :
  queue_rep q l → can_enter q l blocks →
  wp (append_n blocks) (λ _ q', queue_rep q' (l ++ blocks) ∧ q_frame q q') q.
Proof.
  intros Hq Hb. unfold append_n.
  destruct (decide (blocks = [])) as [->|Hne].
  { simpl. wp_step. rewrite app_nil_r. split; [done|reflexivity]. }
  rewrite (proj2 (Z.eqb_neq _ _)) by (destruct blocks; simpl; [done|lia]).
  destruct (queue_rep_splice q l [] blocks) as (p & n & Hp & Hn & [_ Hpn] & Hwp);
    [by rewrite ?app_nil_r..|]. simplify_eq/=.
  unfold read_prev. wp_step. rewrite Hpn. apply (wp_mono _ _ _ _ Hwp).
  by rewrite app_nil_r.
Qed.

Lemma prepend_n_spec q l blocks :
  queue_rep q l → can_enter q l blocks →
  wp (prepend_n blocks) (λ _ q', queue_rep q' (blocks ++ l) ∧ q_frame q q') q.
Proof.
  intros Hq Hb. unfold prepend_n.
  destruct (decide (blocks = [])) as [->|Hne].
  { simpl. wp_step. split; [done|reflexivity]. }
  rewrite (proj2 (Z.eqb_neq _ _)) by (destruct blocks; simpl; [done|lia]).
  destruct (queue_rep_splice q [] l blocks) as (p & n & Hp & Hn & [Hpn _] & Hwp);
    [done..|]. simplify_eq/=.
  unfold read_next. wp_step. by rewrite Hpn.
Qed.

(** [append] is [append_n] of one block. *)
Lemma append_append_n q l b :
  queue_rep q l → can_enter q l [b] → append b q = append_n [b] q.
Proof.
  intros Hq Hb.
  destruct (queue_rep_splice q l [] [b]) as (p & n & Hp & Hn & [_ Hpn] & _);
    [by rewrite ?app_nil_r..|]. simplify_eq/=.
  assert (p ≠ b).
  { intros ->. destruct Hb as [_ Hb]. destruct (Hb b) as [Hb' _]; [set_solver|].
    apply Hb'. unfold chain_of. apply last_Some_elem_of in Hp. set_solver +Hp. }
  unfold append, append_n, read_prev. simpl len. simpl.
  unfold mbind, M_bind, get, gets, write_prev, write_next, modify, add_num, mret, M_ret.
  rewrite Hpn. unfold modify, q_set_heap, q_set_num. simpl.
  by rewrite (list_alter_alter_ne (set_prev (Some p)) (set_next (Some b))).
Qed.

Lemma append_spec q l b :
  queue_rep q l → can_enter q l [b] →
  wp (append b) (λ _ q', queue_rep q' (l ++ [b]) ∧ q_frame q q') q.
Proof.
  intros Hq Hb. unfold wp. rewrite (append_append_n q l b) by done.
  by apply append_n_spec.
Qed.

Lemma collect_spec h tl l : ∀ fuel x,
  links h (x :: l) → last (x :: l) = Some tl → next_of h tl = None →
  (length l < fuel)%nat → collect fuel h x = Ok (removelast (x :: l)).
Proof.
  induction l as [|y l IH]; intros fuel x Hl Hlast Ht Hf; (destruct fuel as [|f]; [lia|]).
  - simplify_eq/=. by rewrite Ht.
  - destruct Hl as [[Hn _] Hl]. simpl collect. rewrite Hn, IH; [done..|].
    simpl in *. lia.
Qed.

Lemma NoDup_lt_length (l : list nat) n :
  NoDup l → (∀ a, a ∈ l → (a < n)%nat) → (length l ≤ n)%nat.
Proof.
  intros Hd Hb. rewrite <- (length_seq n 0). apply submseteq_length, NoDup_submseteq; [done|].
  intros a Ha. apply elem_of_seq. specialize (Hb a Ha). lia.
Qed.

(** The loop ends within its fuel, and returns the represented list. *)
Lemma get_all_free_blocks_spec q l :
  queue_rep q l → get_all_free_blocks q = (Ok l, q).
Proof.
  intros [Hl Hd Hnum Hh Ht Hu].
  assert (Hlen : (length (chain_of q l) ≤ length (q_heap q))%nat).
  { apply NoDup_lt_length; [done|]. intros a Ha.
    apply (links_in_heap _ _ a Hl); [|done]. unfold chain_of. simpl. rewrite length_app. simpl. lia. }
  unfold get_all_free_blocks, read_next, mbind, M_bind, get, gets, of_res. unfold chain_of in *.
  destruct (snoc_cons_split l (fake_free_list_tail q)) as (n & ns & Ens).
  rewrite Ens in *. destruct Hl as [[-> _] Hl].
  rewrite (collect_spec _ (fake_free_list_tail q) ns); [|done| |done|].
  - by rewrite <- Ens, removelast_last.
  - by rewrite <- Ens, last_snoc.
  - simpl in Hlen. lia.
Qed.

(** ** The constructor *)
Section init.
Context (h0 : heap) (blocks : list loc).
Hypothesis Hd : NoDup blocks.
Hypothesis Hin : ∀ a, a ∈ blocks → (a < length h0)%nat.

(** The links after [k] turns of the loop. *)
Definition linked_upto (k : nat) (h : heap) : Prop :=
  heap_sim h0 h ∧
  (∀ a, a ∉ blocks → next_of h a = next_of h0 a ∧ prev_of h a = prev_of h0 a) ∧
  ∀ i b, blocks !! i = Some b →
    prev_of h b = (if decide (0 < i < k)%nat then blocks !! (i - 1)%nat else prev_of h0 b) ∧
    next_of h b = (if decide (i < k ∧ S i < length blocks)%nat
                   then blocks !! S i else next_of h0 b).

Lemma linked_upto_step k h :
  (k < length blocks)%nat → linked_upto k h → linked_upto (S k) (link_step blocks h k).
Proof.
  intros Hk (Hsim & Hout & Hblk).
  destruct (lookup_lt_is_Some_2 _ _ Hk) as [b Hb].
  assert (Hbin : b ∈ blocks) by (by eapply list_elem_of_lookup_2).
  assert (Hlt : (b < length h)%nat).
  { rewrite <- (heap_sim_length _ _ Hsim). by apply Hin. }
  unfold link_step. rewrite Hb.
  set (h1 := if 0 <? Z.of_nat k then _ else _).
  assert (H1s : heap_sim h0 h1).
  { unfold h1. case_match; [|done]. solve_heap_sim. }
  assert (H1n : ∀ a, next_of h1 a = next_of h a).
  { intros a. unfold h1. case_match; [|done]. by heap_simpl. }
  assert (H1p : ∀ a, prev_of h1 a = if decide (a = b ∧ (0 < k)%nat)
                                    then blocks !! (k - 1)%nat else prev_of h a).
  { intros a. unfold h1. destruct (Z.ltb_spec 0 (Z.of_nat k)).
    - destruct (decide (a = b ∧ (0 < k)%nat)) as [[-> _]|E]; [by heap_simpl|].
      rewrite prev_of_set_prev_ne; [done|]. intros ->. apply E. split; [done|lia].
    - rewrite decide_False by lia. done. }
  set (h2 := if Z.of_nat k <? len blocks - 1 then _ else _).
  assert (H2s : heap_sim h0 h2).
  { unfold h2. case_match; [|done]. solve_heap_sim. }
  assert (H2p : ∀ a, prev_of h2 a = prev_of h1 a).
  { intros a. unfold h2. case_match; [|done]. by heap_simpl. }
  assert (H2n : ∀ a, next_of h2 a = if decide (a = b ∧ (S k < length blocks)%nat)
                                    then blocks !! S k else next_of h1 a).
  { intros a. unfold h2. rewrite Nat.add_1_r.
    assert (b < length h1)%nat by (rewrite <- (heap_sim_length _ _ H1s); by apply Hin).
    destruct (Z.ltb_spec (Z.of_nat k) (len blocks - 1)).
    - destruct (decide (a = b ∧ (S k < length blocks)%nat)) as [[-> _]|E]; [by heap_simpl|].
      rewrite next_of_set_next_ne; [done|]. intros ->. apply E. split; [done|lia].
    - rewrite decide_False by lia. done. }
  split; [done|]. split.
  - intros a Ha. rewrite H2n, H2p, H1n, H1p, !decide_False by set_solver. by apply Hout.
  - intros i c Hc. rewrite H2n, H2p, H1n, H1p. destruct (Hblk i c Hc) as [-> ->].
    destruct (decide (i = k)) as [->|Hik].
    + assert (c = b) as -> by congruence.
      split; repeat case_decide; try done; lia.
    + assert (c ≠ b) by (intros ->; apply Hik; by eapply NoDup_lookup).
      split; repeat case_decide; try done; lia.
Qed.

Lemma linked_upto_all :
  linked_upto (length blocks) (foldl (link_step blocks) h0 (seq 0 (length blocks))).
Proof.
  cut (∀ n, (n ≤ length blocks)%nat →
         linked_upto n (foldl (link_step blocks) h0 (seq 0 n))).
  { intros H. by apply H. }
  induction n as [|n IH]; intros Hn.
  - split; [reflexivity|]. split; [done|]. intros i b Hb.
    rewrite !decide_False by lia. done.
  - rewrite seq_S, foldl_snoc. apply linked_upto_step; [lia|]. apply IH. lia.
Qed.

Hypothesis Hfresh : ∀ a, next_of h0 a = None ∧ prev_of h0 a = None.

Lemma next_of_app_l (h k : heap) a : (a < length h)%nat → next_of (h ++ k) a = next_of h a.
Proof. intros. unfold next_of. by rewrite lookup_app_l. Qed.
Lemma prev_of_app_l (h k : heap) a : (a < length h)%nat → prev_of (h ++ k) a = prev_of h a.
Proof. intros. unfold prev_of. by rewrite lookup_app_l. Qed.

Lemma sentinels_unlinked (h : heap) a :
  (length h ≤ a)%nat →
  next_of (h ++ [new_block (-1); new_block (-1)]) a = None ∧
  prev_of (h ++ [new_block (-1); new_block (-1)]) a = None.
Proof.
  intros H. unfold next_of, prev_of. rewrite lookup_app_r by done.
  by destruct (a - length h)%nat as [|[|?]].
Qed.

Let h1 := foldl (link_step blocks) h0 (seq 0 (length blocks)).
Let h2 := h1 ++ [new_block (-1); new_block (-1)].

Lemma init_h2_links : links h2 blocks.
Proof.
  destruct linked_upto_all as (Hsim & Hout & Hblk). fold h1 in Hsim, Hout, Hblk.
  apply links_lookup. intros i a b Ha Hb.
  pose proof (lookup_lt_Some _ _ _ Hb).
  assert (∀ c, c ∈ blocks → (c < length h1)%nat).
  { intros c Hc. rewrite <- (heap_sim_length _ _ Hsim). by apply Hin. }
  unfold h2. split.
  - rewrite next_of_app_l by eauto using list_elem_of_lookup_2.
    destruct (Hblk i a Ha) as [_ ->]. rewrite decide_True by lia. done.
  - rewrite prev_of_app_l by eauto using list_elem_of_lookup_2.
    destruct (Hblk (S i) b Hb) as [-> _]. rewrite decide_True by lia.
    by rewrite Nat.sub_1_r.
Qed.

Lemma init_h2_out a : a ∉ blocks → next_of h2 a = None ∧ prev_of h2 a = None.
Proof.
  destruct linked_upto_all as (_ & Hout & _). fold h1 in Hout. intros Ha.
  destruct (decide (a < length h1)%nat).
  - unfold h2. rewrite next_of_app_l, prev_of_app_l by done.
    destruct (Hout a Ha) as [-> ->]. apply Hfresh.
  - apply sentinels_unlinked. lia.
Qed.

Lemma init_h2_ends b0 bn :
  blocks !! 0%nat = Some b0 → last blocks = Some bn →
  prev_of h2 b0 = None ∧ next_of h2 bn = None.
Proof.
  destruct linked_upto_all as (Hsim & _ & Hblk). fold h1 in Hsim, Hblk.
  intros Hb0 Hbn. rewrite last_lookup in Hbn.
  assert (∀ c, c ∈ blocks → (c < length h1)%nat).
  { intros c Hc. rewrite <- (heap_sim_length _ _ Hsim). by apply Hin. }
  unfold h2. rewrite next_of_app_l, prev_of_app_l by eauto using list_elem_of_lookup_2.
  destruct (Hblk _ _ Hb0) as [-> _]. destruct (Hblk _ _ Hbn) as [_ ->].
  rewrite !decide_False by lia. split; apply Hfresh.
Qed.

Lemma init_rep :
  queue_rep (init h0 blocks) blocks ∧
  heap_sim (h0 ++ [new_block (-1); new_block (-1)]) (q_heap (init h0 blocks)) ∧
  fake_free_list_head (init h0 blocks) = length h0 ∧
  fake_free_list_tail (init h0 blocks) = S (length h0).
Proof.
  destruct linked_upto_all as (Hsim & _ & _). fold h1 in Hsim.
  pose proof (heap_sim_length _ _ Hsim) as Hlen.
  assert (Hs2 : heap_sim (h0 ++ [new_block (-1); new_block (-1)]) h2).
  { unfold heap_sim, h2. rewrite !fmap_app. by rewrite Hsim. }
  assert (Hl2 : length h2 = S (S (length h0))).
  { unfold h2. rewrite length_app. simpl. lia. }
  assert (Hltb : ∀ c, c ∈ blocks → c ≠ length h1 ∧ c ≠ S (length h1) ∧ (c < length h2)%nat).
  { intros c Hc%Hin. lia. }
  pose proof init_h2_links as Hlinks. pose proof init_h2_out as Hout.
  pose proof init_h2_ends as Hends.
  assert (Hhd : length h1 ∉ blocks) by (intros H%Hltb; lia).
  assert (Htl : S (length h1) ∉ blocks) by (intros H%Hltb; lia).
  assert (length h1 ≠ S (length h1)) by lia.
  assert (length h1 < length h2)%nat by lia.
  assert (S (length h1) < length h2)%nat by lia.
  unfold init. fold h1. fold h2. clearbody h1 h2.
  destruct blocks as [|b0 bs] eqn:Eb; cbn [lookup list_lookup].
  { split; [|split; [cbn [q_heap]; etrans; [exact Hs2|]; solve_heap_sim|simpl; lia]].
    split; cbn; unfold chain_of; cbn.
    - split; [split|done]; heap_simpl; done.
    - rewrite !NoDup_cons. set_solver.
    - done.
    - heap_simpl. by apply Hout.
    - heap_simpl. by apply Hout.
    - intros a Ha. heap_simpl. destruct (Hout a) as [-> ->]; [set_solver|done]. }
  destruct (last_is_Some (b0 :: bs)) as [_ [bn Hbn]]; [done|]. rewrite Hbn.
  assert (Hbnin : bn ∈ b0 :: bs) by (apply last_Some_elem_of; done).
  destruct (Hltb b0) as (? & ? & ?); [set_solver|]. destruct (Hltb bn Hbnin) as (? & ? & ?).
  destruct (Hends b0 bn eq_refl Hbn) as [Hb0p Hbnn].
  destruct (exists_last (l := b0 :: bs)) as (pre & bn' & Epre); [done|].
  assert (bn' = bn) as ->. { rewrite Epre, last_snoc in Hbn. by simplify_eq. }
  assert (Hbnpre : bn ∉ pre). { rewrite Epre, NoDup_app in Hd. set_solver +Hd. }
  split; [|split; [cbn [q_heap]; etrans; [exact Hs2|]; solve_heap_sim|simpl; lia]].
  split; cbn [q_heap num_free_blocks fake_free_list_head fake_free_list_tail chain_of].
  - change (links ?h (length h1 :: (b0 :: bs) ++ [S (length h1)])) with
      (link h (length h1) b0 ∧ links h ((b0 :: bs) ++ [S (length h1)])).
    split; [split; heap_simpl; done|].
    rewrite Epre, <- app_assoc. apply links_app. split.
    + rewrite <- Epre. apply (links_frame h2); [done| |].
      * intros a Ha. rewrite Epre, removelast_last in Ha.
        assert (a ∈ b0 :: bs) as (? & ? & _)%Hltb by (rewrite Epre; set_solver +Ha).
        assert (bn ≠ a) by (intros ->; done). heap_simpl. done.
      * intros a Ha. simpl in Ha. assert (a ∈ b0 :: bs) as (? & ? & _)%Hltb by set_solver +Ha.
        assert (b0 ≠ a) by (intros ->; apply NoDup_cons in Hd; naive_solver).
        heap_simpl. done.
    + split; [split; heap_simpl; done|done].
  - unfold chain_of. cbn [fake_free_list_head fake_free_list_tail].
    rewrite NoDup_cons, NoDup_app. split; [|split; [done|split; [|apply NoDup_singleton]]];
      set_solver.
  - done.
  - heap_simpl. by apply Hout.
  - heap_simpl. by apply Hout.
  - unfold chain_of. cbn [fake_free_list_head fake_free_list_tail]. intros a Ha.
    assert (a ∉ b0 :: bs) as Hni by set_solver +Ha.
    assert (a ≠ b0 ∧ a ≠ bn ∧ a ≠ length h1 ∧ a ≠ S (length h1)) as (? & ? & ? & ?)
      by (split_and!; intros ->; set_solver +Ha Hni Hbnin).
    heap_simpl. destruct (Hout a Hni) as [-> ->]. done.
Qed.

End init.

(** ** The queue refines a list

    The operations as data, what each does to the list of free blocks
    ([spec_op], [None] where the code raises) and when a caller may use it. *)
Inductive queue_op :=
  | OPopleft | OPopleftN (n : nat) | ORemove (b : loc)
  | OAppend (b : loc) | OAppendN (bs : list loc) | OPrependN (bs : list loc).

Definition run_op (o : queue_op) : M queue_state (list loc) :=
  match o with
  | OPopleft => b ← popleft; mret [b]
  | OPopleftN n => popleft_n (Z.of_nat n)
  | ORemove b => _ ← remove b; mret []
  | OAppend b => _ ← append b; mret []
  | OAppendN bs => _ ← append_n bs; mret []
  | OPrependN bs => _ ← prepend_n bs; mret []
  end.

Definition spec_op (o : queue_op) (l : list loc) : option (list loc * list loc) :=
  match o with
  | OPopleft => match l with [] => None | b :: l' => Some ([b], l') end
  | OPopleftN n => if decide (n ≤ length l)%nat then Some (take n l, drop n l) else None
  | ORemove b => if decide (b ∈ l) then Some ([], filter (λ c, c ≠ b) l) else None
  | OAppend b => Some ([], l ++ [b])
  | OAppendN bs => Some ([], l ++ bs)
  | OPrependN bs => Some ([], bs ++ l)
  end.

(** Blocks that enter the queue are objects that are not in it. *)
Definition op_pre (q : queue_state) (l : list loc) (o : queue_op) : Prop :=
  match o with
  | OAppend b => can_enter q l [b]
  | OAppendN bs | OPrependN bs => can_enter q l bs
  | _ => True
  end.

Lemma popleft_n_too_many q l n :
  queue_rep q l → (length l < n)%nat →
  popleft_n (Z.of_nat n) q = (Raise AssertionError, q).
Proof.
  intros Hq Hn. unfold popleft_n. rewrite (proj2 (Z.eqb_neq _ _)) by lia.
  unfold mbind, M_bind, get, massert. rewrite (qr_num _ _ Hq).
  by rewrite (proj2 (Z.leb_gt _ _)) by lia.
Qed.

Lemma filter_ne_split (l1 : list loc) b l2 :
  NoDup (l1 ++ b :: l2) → filter (λ c, c ≠ b) (l1 ++ b :: l2) = l1 ++ l2.
Proof.
  intros (Hd1 & Hd2 & Hd3)%NoDup_app. apply NoDup_cons in Hd3 as [Hb Hd3].
  rewrite filter_app, filter_cons_False by auto.
  rewrite !filter_id; [done|set_solver..].
Qed.

Lemma queue_rep_NoDup q l : queue_rep q l → NoDup l.
Proof. intros [_ Hd]. unfold chain_of in Hd. rewrite NoDup_cons, NoDup_app in Hd. naive_solver. Qed.

(** C8. Every operation of [FreeKVCacheBlockQueue] refines the operation on the
    list of free blocks: where the list operation is defined the code returns
    its blocks and the new queue represents the new list, with the blocks'
    other attributes untouched; where it is not (pop from an empty queue,
    [popleft_n] of more than there is, [remove] of a block that is not free)
    the code raises and changes nothing. *)
Theorem queue_op_refines (q : queue_state) (l : list loc) (o : queue_op) :
  queue_rep q l → op_pre q l o →
  match spec_op o l with
  | Some (r, l') => wp (run_op o) (λ r' q', r' = r ∧ queue_rep q' l' ∧ q_frame q q') q
  | None => ∃ e, run_op o q = (Raise e, q) ∧ e ≠ OutOfFuel
  end.
Proof.
  intros Hq Hpre. destruct o as [|n|b|b|bs|bs]; simpl in *.
  - destruct l as [|b l].
    + exists ValueError. unfold mbind, M_bind. by rewrite popleft_empty.
    + wp_step. eapply wp_mono; [by apply popleft_spec|]. intros r q' (-> & ? & ?). by wp_step.
  - case_decide as Hn.
    + rewrite <- (take_drop n l) in Hq. apply popleft_n_spec in Hq.
      rewrite length_take_le in Hq by done. done.
    + exists AssertionError. by rewrite (popleft_n_too_many q l) by (done || lia).
  - case_decide as Hb.
    + pose proof (queue_rep_NoDup _ _ Hq) as Hd.
      apply list_elem_of_split in Hb as (l1 & l2 & ->).
      rewrite filter_ne_split by done. wp_step.
      eapply wp_mono; [by apply remove_spec|]. intros r q' (? & ?). by wp_step.
    + exists RuntimeError. unfold mbind, M_bind. by rewrite (remove_not_free q l).
  - wp_step. eapply wp_mono; [by apply append_spec|]. intros r q' (? & ?). by wp_step.
  - wp_step. eapply wp_mono; [by apply append_n_spec|]. intros r q' (? & ?). by wp_step.
  - wp_step. eapply wp_mono; [by apply prepend_n_spec|]. intros r q' (? & ?). by wp_step.
Qed.

(** A store of [n] fresh blocks, as [BlockPool] builds it. *)
Definition fresh_heap (n : nat) : heap := new_block <$> seqZ 0 (Z.of_nat n).

Lemma fresh_heap_lookup n i b :
  fresh_heap n !! i = Some b ↔ (i < n)%nat ∧ b = new_block (Z.of_nat i).
Proof.
  unfold fresh_heap. rewrite list_lookup_fmap_Some. setoid_rewrite lookup_seqZ.
  naive_solver lia.
Qed.

Lemma fresh_heap_length n : length (fresh_heap n) = n.
Proof. unfold fresh_heap. rewrite length_fmap, length_seqZ. lia. Qed.

Lemma fresh_heap_unlinked n a :
  next_of (fresh_heap n) a = None ∧ prev_of (fresh_heap n) a = None.
Proof.
  unfold next_of, prev_of. destruct (fresh_heap n !! a) as [b|] eqn:E; [|done].
  apply fresh_heap_lookup in E as [_ ->]. done.
Qed.

(** The constructor: for distinct blocks of the store that are not linked
    yet, the new queue represents exactly the given list, in order, and the
    blocks' other attributes are untouched. *)
Theorem init_refines (h : heap) (blocks : list loc) :
  NoDup blocks → (∀ a, a ∈ blocks → (a < length h)%nat) →
  (∀ a, next_of h a = None ∧ prev_of h a = None) →
  queue_rep (init h blocks) blocks ∧
  heap_sim (h ++ [new_block (-1); new_block (-1)]) (q_heap (init h blocks)).
Proof. intros ???. by destruct (init_rep h blocks) as (? & ? & _). Qed.

(** [get_all_free_blocks] ends (the loop's fuel, the number of objects, is
    enough), returns the blocks of the free list in order and changes nothing. *)
Theorem get_all_free_blocks_terminates (q : queue_state) (l : list loc) :
  queue_rep q l → get_all_free_blocks q = (Ok l, q).
Proof. apply get_all_free_blocks_spec. Qed.

Definition demo_queue : queue_state := init (fresh_heap 4) [0; 1; 2; 3]%nat.

Lemma demo_queue_rep : queue_rep demo_queue [0; 1; 2; 3]%nat.
Proof.
  apply init_rep; [repeat constructor; set_solver| |apply fresh_heap_unlinked].
  intros a. rewrite fresh_heap_length. set_solver by lia.
Qed.

Lemma queue_op_refines_witness :
  wp (run_op (ORemove 2)) (λ r q', r = [] ∧ queue_rep q' [0; 1; 3]%nat ∧ q_frame demo_queue q')
    demo_queue.
Proof. exact (queue_op_refines demo_queue _ (ORemove 2) demo_queue_rep I). Defined.

Lemma init_refines_witness :
  queue_rep demo_queue [0; 1; 2; 3]%nat ∧
  heap_sim (fresh_heap 4 ++ [new_block (-1); new_block (-1)]) (q_heap demo_queue).
Proof.
  apply init_refines; [repeat constructor; set_solver| |apply fresh_heap_unlinked].
  intros a. rewrite fresh_heap_length. set_solver by lia.
Defined.

Lemma get_all_free_blocks_terminates_witness :
  get_all_free_blocks demo_queue = (Ok [0; 1; 2; 3]%nat, demo_queue).
Proof. apply get_all_free_blocks_terminates, demo_queue_rep. Defined.
