(* ===== verification/Request.v ===== *)
(** * Requests

    [Request], [RequestStatus] of [vllm/v1/request.py] and the placeholder
    ranges of [vllm/multimodal/inputs.py] they carry: the data the KV-cache
    manager, the encoder cache and the scheduler read.  The order of
    [Request.__lt__] is shown to be a strict total order, which is what the
    priority queue relies on. *)
From S2P Require Import Prelude FreeQueue.

(** ** Status *)
Inductive RequestStatus :=
  | WAITING | WAITING_FOR_STRUCTURED_OUTPUT_GRAMMAR | WAITING_FOR_REMOTE_KVS
  | WAITING_FOR_STREAMING_REQ | RUNNING | PREEMPTED
  | FINISHED_STOPPED | FINISHED_LENGTH_CAPPED | FINISHED_ABORTED | FINISHED_IGNORED
  | FINISHED_ERROR | FINISHED_REPETITION.

#[global] Instance RequestStatus_eq_dec : EqDecision RequestStatus.
Proof. solve_decision. Defined.

(** The [IntEnum] values: [enum.auto()] counts from 1. *)
Definition status_value (s : RequestStatus) : Z :=
  match s with
  | WAITING => 1 | WAITING_FOR_STRUCTURED_OUTPUT_GRAMMAR => 2
  | WAITING_FOR_REMOTE_KVS => 3 | WAITING_FOR_STREAMING_REQ => 4
  | RUNNING => 5 | PREEMPTED => 6 | FINISHED_STOPPED => 7
  | FINISHED_LENGTH_CAPPED => 8 | FINISHED_ABORTED => 9 | FINISHED_IGNORED => 10
  | FINISHED_ERROR => 11 | FINISHED_REPETITION => 12
  end.

Definition status_is_finished (s : RequestStatus) : bool :=
  status_value PREEMPTED <? status_value s.

Inductive FinishReason := STOP | LENGTH | ABORT | ERROR | REPETITION.

Definition get_finished_reason (s : RequestStatus) : option FinishReason :=
  match s with
  | FINISHED_STOPPED => Some STOP
  | FINISHED_LENGTH_CAPPED => Some LENGTH
  | FINISHED_ABORTED => Some ABORT
  | FINISHED_IGNORED => Some LENGTH
  | FINISHED_ERROR => Some ERROR
  | WAITING_FOR_STREAMING_REQ => Some STOP
  | FINISHED_REPETITION => Some REPETITION
  | _ => None
  end.

(** ** Multi-modal features *)
Record PlaceholderRange := mkRange {
  offset : Z;
  pr_length : Z;
  is_embed : option (list bool);
}.

(** [is_embed.cumsum(dim=0).tolist()] *)
Fixpoint cumsum_from (acc : Z) (l : list bool) : list Z :=
  match l with
  | [] => []
  | b :: l' => let acc' := acc + Z.b2z b in acc' :: cumsum_from acc' l'
  end.

Definition embeds_cumsum (p : PlaceholderRange) : option (list Z) :=
  cumsum_from 0 <$> is_embed p.

Definition get_num_embeds (p : PlaceholderRange) : Z :=
  match embeds_cumsum p with
  | None => pr_length p
  | Some c => default 0 (last c)
  end.

(** [embeds_cumsum[i]], with Python's [IndexError]. *)
Definition get_embeds_indices_in_range (p : PlaceholderRange) (start_idx end_idx : Z) : res (Z * Z) :=
  match embeds_cumsum p with
  | None => Ok (start_idx, end_idx)
  | Some c =>
      match (if 0 <? start_idx then py_get c (start_idx - 1) else Some 0),
            (if 0 <? end_idx then py_get c (end_idx - 1) else Some 0) with
      | Some s, Some e => Ok (s, e)
      | _, _ => Raise IndexError
      end
  end.

Record MultiModalFeatureSpec := mkFeature {
  identifier : string;
  mm_position : PlaceholderRange;
}.

Record LoRARequest := mkLoRA { lora_name : string; adapter_id : Z }.

(** Prompt embeddings, as far as the scheduler-side code looks at them: their
    length, and the digest [hashlib.sha256(tensor_data(embeds[s:e])).digest()]
    of a range of rows. *)
Record PromptEmbeds := mkEmbeds { pe_len : Z; pe_digest : Z → Z → bytes }.

(** ** Parameters of a request *)
Record RepetitionDetectionParams := mkRepetition {
  max_pattern_size : Z; min_pattern_size : Z; min_count : Z
}.

Record SamplingParams := mkSampling {
  sp_max_tokens : option Z;
  sp_structured : bool;                        (* has a structured-output constraint *)
  sp_skip_reading_prefix_cache : option bool;
  sp_min_tokens : Z;
  sp_eos_token_id : option Z;
  sp_stop_token_ids : option (list Z);
  sp_repetition_detection : option RepetitionDetectionParams;
}.
Record PoolingParams := mkPooling { pp_skip_reading_prefix_cache : option bool }.

(** The next chunk of input of a streaming session *)
Record StreamingUpdate := mkUpdate {
  su_mm_features : list MultiModalFeatureSpec;
  su_prompt_token_ids : option (list Z);
  su_max_tokens : Z;
  su_arrival_time : Z;
  su_sampling_params : option SamplingParams;
}.

(** [int | str] *)
Inductive StopReason := StopToken (token : Z) | RepetitionDetected.

(** The counts of [PrefillStats.set] *)
Record PrefillStats := mkPrefillStats {
  ps_num_prompt_tokens : Z; ps_num_local_cached_tokens : Z; ps_num_external_cached_tokens : Z
}.

(** Attributes that only the scheduler looks at. *)
Record RequestExt := mkExt {
  sampling_params : option SamplingParams;
  pooling_params : option PoolingParams;
  stop_reason : option StopReason;
  prefill_stats : option PrefillStats;
  async_tokens_to_discard : Z;
  next_decode_eligible_step : Z;
  streaming_queue : option (list (option StreamingUpdate));
}.

Definition new_ext (sp : option SamplingParams) (pp : option PoolingParams) : RequestExt :=
  mkExt sp pp None (Some (mkPrefillStats 0 0 0)) 0 0 None.

(** ** The request

    Token times and priorities are integers; [py_id] is Python's [id()] of the
    object, which [__lt__] uses as the last tie-break.  Trace headers, events and
    the counters of NaNs are left out. *)
Record Request := mkRequest {
  request_id : string;
  client_index : Z;
  priority : Z;
  arrival_time : Z;
  py_id : Z;
  status : RequestStatus;
  max_tokens : Z;
  use_structured_output : bool;
  prompt_token_ids : option (list Z);
  prompt_embeds : option PromptEmbeds;
  prompt_embeds_per_block_hashes : gmap (Z * Z) bytes;
  num_prompt_tokens : Z;
  output_token_ids : list Z;
  all_token_ids : list Z;
  num_output_placeholders : Z;
  spec_token_ids : list Z;
  num_computed_tokens : Z;
  cache_salt : option string;
  mm_features : list MultiModalFeatureSpec;
  lora_request : option LoRARequest;
  is_prefill_chunk : bool;
  num_preemptions : Z;
  block_hashes : list bytes;
  skip_reading_prefix_cache : bool;
  resumable : bool;
  ext : RequestExt;
}.

Definition set_status (v : RequestStatus) (r : Request) : Request :=
  mkRequest (request_id r) (client_index r) (priority r) (arrival_time r) (py_id r) v
    (max_tokens r) (use_structured_output r) (prompt_token_ids r) (prompt_embeds r)
    (prompt_embeds_per_block_hashes r) (num_prompt_tokens r) (output_token_ids r)
    (all_token_ids r) (num_output_placeholders r) (spec_token_ids r) (num_computed_tokens r)
    (cache_salt r) (mm_features r) (lora_request r) (is_prefill_chunk r) (num_preemptions r)
    (block_hashes r) (skip_reading_prefix_cache r) (resumable r) (ext r).
Definition set_prompt_embeds_per_block_hashes (v : gmap (Z * Z) bytes) (r : Request) : Request :=
  mkRequest (request_id r) (client_index r) (priority r) (arrival_time r) (py_id r) (status r)
    (max_tokens r) (use_structured_output r) (prompt_token_ids r) (prompt_embeds r) v
    (num_prompt_tokens r) (output_token_ids r) (all_token_ids r) (num_output_placeholders r)
    (spec_token_ids r) (num_computed_tokens r) (cache_salt r) (mm_features r) (lora_request r)
    (is_prefill_chunk r) (num_preemptions r) (block_hashes r) (skip_reading_prefix_cache r)
    (resumable r) (ext r).
Definition set_output_token_ids (v : list Z) (r : Request) : Request :=
  mkRequest (request_id r) (client_index r) (priority r) (arrival_time r) (py_id r) (status r)
    (max_tokens r) (use_structured_output r) (prompt_token_ids r) (prompt_embeds r)
    (prompt_embeds_per_block_hashes r) (num_prompt_tokens r) v (all_token_ids r)
    (num_output_placeholders r) (spec_token_ids r) (num_computed_tokens r) (cache_salt r)
    (mm_features r) (lora_request r) (is_prefill_chunk r) (num_preemptions r) (block_hashes r)
    (skip_reading_prefix_cache r) (resumable r) (ext r).
Definition set_all_token_ids (v : list Z) (r : Request) : Request :=
  mkRequest (request_id r) (client_index r) (priority r) (arrival_time r) (py_id r) (status r)
    (max_tokens r) (use_structured_output r) (prompt_token_ids r) (prompt_embeds r)
    (prompt_embeds_per_block_hashes r) (num_prompt_tokens r) (output_token_ids r) v
    (num_output_placeholders r) (spec_token_ids r) (num_computed_tokens r) (cache_salt r)
    (mm_features r) (lora_request r) (is_prefill_chunk r) (num_preemptions r) (block_hashes r)
    (skip_reading_prefix_cache r) (resumable r) (ext r).
Definition set_num_output_placeholders (v : Z) (r : Request) : Request :=
  mkRequest (request_id r) (client_index r) (priority r) (arrival_time r) (py_id r) (status r)
    (max_tokens r) (use_structured_output r) (prompt_token_ids r) (prompt_embeds r)
    (prompt_embeds_per_block_hashes r) (num_prompt_tokens r) (output_token_ids r)
    (all_token_ids r) v (spec_token_ids r) (num_computed_tokens r) (cache_salt r)
    (mm_features r) (lora_request r) (is_prefill_chunk r) (num_preemptions r) (block_hashes r)
    (skip_reading_prefix_cache r) (resumable r) (ext r).
Definition set_spec_token_ids (v : list Z) (r : Request) : Request :=
  mkRequest (request_id r) (client_index r) (priority r) (arrival_time r) (py_id r) (status r)
    (max_tokens r) (use_structured_output r) (prompt_token_ids r) (prompt_embeds r)
    (prompt_embeds_per_block_hashes r) (num_prompt_tokens r) (output_token_ids r)
    (all_token_ids r) (num_output_placeholders r) v (num_computed_tokens r) (cache_salt r)
    (mm_features r) (lora_request r) (is_prefill_chunk r) (num_preemptions r) (block_hashes r)
    (skip_reading_prefix_cache r) (resumable r) (ext r).
Definition set_num_computed_tokens (v : Z) (r : Request) : Request :=
  mkRequest (request_id r) (client_index r) (priority r) (arrival_time r) (py_id r) (status r)
    (max_tokens r) (use_structured_output r) (prompt_token_ids r) (prompt_embeds r)
    (prompt_embeds_per_block_hashes r) (num_prompt_tokens r) (output_token_ids r)
    (all_token_ids r) (num_output_placeholders r) (spec_token_ids r) v (cache_salt r)
    (mm_features r) (lora_request r) (is_prefill_chunk r) (num_preemptions r) (block_hashes r)
    (skip_reading_prefix_cache r) (resumable r) (ext r).
Definition set_is_prefill_chunk (v : bool) (r : Request) : Request :=
  mkRequest (request_id r) (client_index r) (priority r) (arrival_time r) (py_id r) (status r)
    (max_tokens r) (use_structured_output r) (prompt_token_ids r) (prompt_embeds r)
    (prompt_embeds_per_block_hashes r) (num_prompt_tokens r) (output_token_ids r)
    (all_token_ids r) (num_output_placeholders r) (spec_token_ids r) (num_computed_tokens r)
    (cache_salt r) (mm_features r) (lora_request r) v (num_preemptions r) (block_hashes r)
    (skip_reading_prefix_cache r) (resumable r) (ext r).
Definition set_num_preemptions (v : Z) (r : Request) : Request :=
  mkRequest (request_id r) (client_index r) (priority r) (arrival_time r) (py_id r) (status r)
    (max_tokens r) (use_structured_output r) (prompt_token_ids r) (prompt_embeds r)
    (prompt_embeds_per_block_hashes r) (num_prompt_tokens r) (output_token_ids r)
    (all_token_ids r) (num_output_placeholders r) (spec_token_ids r) (num_computed_tokens r)
    (cache_salt r) (mm_features r) (lora_request r) (is_prefill_chunk r) v (block_hashes r)
    (skip_reading_prefix_cache r) (resumable r) (ext r).
Definition set_block_hashes (v : list bytes) (r : Request) : Request :=
  mkRequest (request_id r) (client_index r) (priority r) (arrival_time r) (py_id r) (status r)
    (max_tokens r) (use_structured_output r) (prompt_token_ids r) (prompt_embeds r)
    (prompt_embeds_per_block_hashes r) (num_prompt_tokens r) (output_token_ids r)
    (all_token_ids r) (num_output_placeholders r) (spec_token_ids r) (num_computed_tokens r)
    (cache_salt r) (mm_features r) (lora_request r) (is_prefill_chunk r) (num_preemptions r) v
    (skip_reading_prefix_cache r) (resumable r) (ext r).

Definition set_arrival_time (v : Z) (r : Request) : Request :=
  mkRequest (request_id r) (client_index r) (priority r) v (py_id r) (status r) (max_tokens r)
    (use_structured_output r) (prompt_token_ids r) (prompt_embeds r)
    (prompt_embeds_per_block_hashes r) (num_prompt_tokens r) (output_token_ids r)
    (all_token_ids r) (num_output_placeholders r) (spec_token_ids r) (num_computed_tokens r)
    (cache_salt r) (mm_features r) (lora_request r) (is_prefill_chunk r) (num_preemptions r)
    (block_hashes r) (skip_reading_prefix_cache r) (resumable r) (ext r).
Definition set_prompt_token_ids (v : option (list Z)) (r : Request) : Request :=
  mkRequest (request_id r) (client_index r) (priority r) (arrival_time r) (py_id r) (status r)
    (max_tokens r) (use_structured_output r) v (prompt_embeds r)
    (prompt_embeds_per_block_hashes r) (num_prompt_tokens r) (output_token_ids r)
    (all_token_ids r) (num_output_placeholders r) (spec_token_ids r) (num_computed_tokens r)
    (cache_salt r) (mm_features r) (lora_request r) (is_prefill_chunk r) (num_preemptions r)
    (block_hashes r) (skip_reading_prefix_cache r) (resumable r) (ext r).
Definition set_num_prompt_tokens (v : Z) (r : Request) : Request :=
  mkRequest (request_id r) (client_index r) (priority r) (arrival_time r) (py_id r) (status r)
    (max_tokens r) (use_structured_output r) (prompt_token_ids r) (prompt_embeds r)
    (prompt_embeds_per_block_hashes r) v (output_token_ids r) (all_token_ids r)
    (num_output_placeholders r) (spec_token_ids r) (num_computed_tokens r) (cache_salt r)
    (mm_features r) (lora_request r) (is_prefill_chunk r) (num_preemptions r) (block_hashes r)
    (skip_reading_prefix_cache r) (resumable r) (ext r).
Definition set_mm_features (v : list MultiModalFeatureSpec) (r : Request) : Request :=
  mkRequest (request_id r) (client_index r) (priority r) (arrival_time r) (py_id r) (status r)
    (max_tokens r) (use_structured_output r) (prompt_token_ids r) (prompt_embeds r)
    (prompt_embeds_per_block_hashes r) (num_prompt_tokens r) (output_token_ids r)
    (all_token_ids r) (num_output_placeholders r) (spec_token_ids r) (num_computed_tokens r)
    (cache_salt r) v (lora_request r) (is_prefill_chunk r) (num_preemptions r) (block_hashes r)
    (skip_reading_prefix_cache r) (resumable r) (ext r).
Definition set_resumable (v : bool) (r : Request) : Request :=
  mkRequest (request_id r) (client_index r) (priority r) (arrival_time r) (py_id r) (status r)
    (max_tokens r) (use_structured_output r) (prompt_token_ids r) (prompt_embeds r)
    (prompt_embeds_per_block_hashes r) (num_prompt_tokens r) (output_token_ids r)
    (all_token_ids r) (num_output_placeholders r) (spec_token_ids r) (num_computed_tokens r)
    (cache_salt r) (mm_features r) (lora_request r) (is_prefill_chunk r) (num_preemptions r)
    (block_hashes r) (skip_reading_prefix_cache r) v (ext r).
Definition set_ext (v : RequestExt) (r : Request) : Request :=
  mkRequest (request_id r) (client_index r) (priority r) (arrival_time r) (py_id r) (status r)
    (max_tokens r) (use_structured_output r) (prompt_token_ids r) (prompt_embeds r)
    (prompt_embeds_per_block_hashes r) (num_prompt_tokens r) (output_token_ids r)
    (all_token_ids r) (num_output_placeholders r) (spec_token_ids r) (num_computed_tokens r)
    (cache_salt r) (mm_features r) (lora_request r) (is_prefill_chunk r) (num_preemptions r)
    (block_hashes r) (skip_reading_prefix_cache r) (resumable r) v.
Definition set_sampling_params (v : option SamplingParams) (r : Request) : Request :=
  set_ext (mkExt v (pooling_params (ext r)) (stop_reason (ext r)) (prefill_stats (ext r))
    (async_tokens_to_discard (ext r)) (next_decode_eligible_step (ext r)) (streaming_queue (ext r))) r.
Definition set_stop_reason (v : option StopReason) (r : Request) : Request :=
  set_ext (mkExt (sampling_params (ext r)) (pooling_params (ext r)) v (prefill_stats (ext r))
    (async_tokens_to_discard (ext r)) (next_decode_eligible_step (ext r)) (streaming_queue (ext r))) r.
Definition set_prefill_stats (v : option PrefillStats) (r : Request) : Request :=
  set_ext (mkExt (sampling_params (ext r)) (pooling_params (ext r)) (stop_reason (ext r)) v
    (async_tokens_to_discard (ext r)) (next_decode_eligible_step (ext r)) (streaming_queue (ext r))) r.
Definition set_async_tokens_to_discard (v : Z) (r : Request) : Request :=
  set_ext (mkExt (sampling_params (ext r)) (pooling_params (ext r)) (stop_reason (ext r)) (prefill_stats (ext r))
    v (next_decode_eligible_step (ext r)) (streaming_queue (ext r))) r.
Definition set_next_decode_eligible_step (v : Z) (r : Request) : Request :=
  set_ext (mkExt (sampling_params (ext r)) (pooling_params (ext r)) (stop_reason (ext r)) (prefill_stats (ext r))
    (async_tokens_to_discard (ext r)) v (streaming_queue (ext r))) r.
Definition set_streaming_queue (v : option (list (option StreamingUpdate))) (r : Request) : Request :=
  set_ext (mkExt (sampling_params (ext r)) (pooling_params (ext r)) (stop_reason (ext r)) (prefill_stats (ext r))
    (async_tokens_to_discard (ext r)) (next_decode_eligible_step (ext r)) v)
    r.

Definition num_tokens (r : Request) : Z := len (all_token_ids r).
Definition num_tokens_with_spec (r : Request) : Z := len (all_token_ids r) + len (spec_token_ids r).
Definition num_output_tokens (r : Request) : Z := len (output_token_ids r).
Definition num_encoder_inputs (r : Request) : Z := len (mm_features r).
Definition has_encoder_inputs (r : Request) : bool := 0 <? num_encoder_inputs r.
Definition is_finished (r : Request) : bool := status_is_finished (status r).

Definition get_num_encoder_embeds (r : Request) (input_id : nat) : res Z :=
  match mm_features r !! input_id with
  | None => Raise AssertionError
  | Some f => Ok (get_num_embeds (mm_position f))
  end.

(** The block hasher a request is given: it may fill the digest memo of the
    request, so it runs on the request. *)
Definition block_hasher : Type := M Request (list bytes).

Definition update_block_hashes (hasher : option block_hasher) : M Request () :=
  match hasher with
  | None => mret tt
  | Some f => hs ← f; modify (λ r, set_block_hashes (block_hashes r ++ hs) r)
  end.

Definition append_output_token_ids (hasher : option block_hasher) (token_ids : list Z) : M Request () :=
  _ ← modify (λ r, set_output_token_ids (output_token_ids r ++ token_ids) r);
  _ ← modify (λ r, set_all_token_ids (all_token_ids r ++ token_ids) r);
  update_block_hashes hasher.

(** *** Construction *)
Definition length_from_prompt_token_ids_or_embeds
    (ids : option (list Z)) (embeds : option PromptEmbeds) : res Z :=
  match ids, embeds with
  | None, None => Raise ValueError
  | None, Some e => Ok (pe_len e)
  | Some l, Some e => if pe_len e =? len l then Ok (len l) else Raise ValueError
  | Some l, None => Ok (len l)
  end.

Definition get_skip_reading_prefix_cache (sp : option SamplingParams) (pp : option PoolingParams) : bool :=
  match sp ≫= sp_skip_reading_prefix_cache with
  | Some b => b
  | None => default false (pp ≫= pp_skip_reading_prefix_cache)
  end.

(** [max_tokens] and the initial status, from the parameters. *)
Definition init_limits (sp : option SamplingParams) (pp : option PoolingParams)
    : res (Z * RequestStatus) :=
  match pp, sp with
  | Some _, _ => Ok (1, WAITING)
  | None, Some s =>
      match sp_max_tokens s with
      | None => Raise AssertionError
      | Some m => Ok (m, if sp_structured s then WAITING_FOR_STRUCTURED_OUTPUT_GRAMMAR else WAITING)
      end
  | None, None => Raise ValueError
  end.

Definition Request_init (rid : string) (ci prio at_ pid : Z)
    (ids : option (list Z)) (embeds : option PromptEmbeds)
    (sp : option SamplingParams) (pp : option PoolingParams)
    (mm : option (list MultiModalFeatureSpec)) (lora : option LoRARequest)
    (salt : option string) (hasher : option block_hasher) (resum : bool) : res Request :=
  match init_limits sp pp with
  | Raise e => Raise e
  | Ok (mt, st) =>
      match length_from_prompt_token_ids_or_embeds ids embeds with
      | Raise e => Raise e
      | Ok npt =>
          let all := default (replicate (Z.to_nat npt) 0) ids in
          let r := mkRequest rid ci prio at_ pid st mt
                     (match sp with Some s => sp_structured s | None => false end)
                     ids embeds ∅ npt [] all 0 [] 0 salt (default [] mm) lora
                     false 0 [] (get_skip_reading_prefix_cache sp pp) resum (new_ext sp pp) in
          match update_block_hashes hasher r with
          | (Raise e, _) => Raise e
          | (Ok _, r') => Ok r'
          end
      end
  end.

(** *** [Request.__lt__] *)
Definition request_lt (a b : Request) : bool :=
  if negb (priority a =? priority b) then priority a <? priority b
  else if negb (arrival_time a =? arrival_time b) then arrival_time a <? arrival_time b
  else if negb (String.eqb (request_id a) (request_id b))
       then String.ltb (request_id a) (request_id b)
  else py_id a <? py_id b.

(** **** The order on strings *)
Lemma string_compare_refl s : String.compare s s = Eq.
Proof.
  induction s as [|c s IH]; [done|]. simpl. unfold Ascii.compare.
  by rewrite N.compare_refl.
Qed.

Lemma string_ltb_irrefl s : String.ltb s s = false.
Proof. unfold String.ltb. by rewrite string_compare_refl. Qed.

Lemma string_ltb_trans a : ∀ b c,
  String.ltb a b = true → String.ltb b c = true → String.ltb a c = true.
Proof.
  unfold String.ltb. induction a as [|x a IH]; intros [|y b] [|z c]; simpl; try done.
  unfold Ascii.compare.
  destruct (N.compare_spec (Ascii.N_of_ascii x) (Ascii.N_of_ascii y)) as [Exy|Hxy|?]; [| |done];
  destruct (N.compare_spec (Ascii.N_of_ascii y) (Ascii.N_of_ascii z)) as [Eyz|Hyz|?]; try done.
  - rewrite Exy, Eyz, N.compare_refl. apply IH.
  - intros _ _. rewrite Exy. apply N.compare_lt_iff in Hyz as ->. done.
  - intros _ _. rewrite <- Eyz. apply N.compare_lt_iff in Hxy as ->. done.
  - intros _ _. assert (Hxz := N.lt_trans _ _ _ Hxy Hyz). by apply N.compare_lt_iff in Hxz as ->.
Qed.

Lemma string_ltb_total a b : a ≠ b → String.ltb a b = true ∨ String.ltb b a = true.
Proof.
  unfold String.ltb. rewrite (String.compare_antisym b a). intros Hne.
  destruct (String.compare a b) eqn:E; [|by left|by right].
  by apply String.compare_eq_iff in E.
Qed.

(** **** The order on requests

    [request_lt] says: lexicographically smaller on priority, arrival time,
    request id and object identity. *)
Lemma request_lt_spec a b :
  request_lt a b = true ↔
    priority a < priority b ∨
    (priority a = priority b ∧
      (arrival_time a < arrival_time b ∨
       (arrival_time a = arrival_time b ∧
         (String.ltb (request_id a) (request_id b) = true ∨
          (request_id a = request_id b ∧ py_id a < py_id b))))).
Proof.
  unfold request_lt.
  destruct (Z.eqb_spec (priority a) (priority b)) as [Ep|Ep]; simpl;
    [|rewrite Z.ltb_lt; lia].
  destruct (Z.eqb_spec (arrival_time a) (arrival_time b)) as [Et|Et]; simpl;
    [|rewrite Z.ltb_lt; lia].
  destruct (String.eqb_spec (request_id a) (request_id b)) as [Er|Er]; simpl.
  - rewrite Z.ltb_lt, Er, string_ltb_irrefl. naive_solver lia.
  - naive_solver lia.
Qed.

Lemma request_lt_irrefl a : request_lt a a = false.
Proof.
  destruct (request_lt a a) eqn:E; [|done].
  apply request_lt_spec in E. rewrite string_ltb_irrefl in E. naive_solver lia.
Qed.

Lemma request_lt_trans a b c :
  request_lt a b = true → request_lt b c = true → request_lt a c = true.
Proof.
  rewrite !request_lt_spec. intros H1 H2.
  destruct H1 as [?|(?&[?|(?&[?|(?&?)])])]; destruct H2 as [?|(?&[?|(?&[?|(?&?)])])];
    try (left; lia);
    try (right; split; [lia|]; left; lia);
    right; (split; [lia|]); right; (split; [lia|]).
  - left. by eapply string_ltb_trans.
  - left. congruence.
  - left. congruence.
  - right. split; [congruence|lia].
Qed.

(** Two requests that are different objects compare one way or the other. *)
Lemma request_lt_total a b :
  py_id a ≠ py_id b → request_lt a b = true ∨ request_lt b a = true.
Proof.
  intros Hid. rewrite !request_lt_spec.
  destruct (Z.lt_trichotomy (priority a) (priority b)) as [?|[?|?]]; [tauto| |tauto].
  destruct (Z.lt_trichotomy (arrival_time a) (arrival_time b)) as [?|[?|?]]; [tauto| |naive_solver lia].
  destruct (decide (request_id a = request_id b)) as [Er|Er].
  - destruct (Z.lt_trichotomy (py_id a) (py_id b)) as [?|[?|?]]; naive_solver.
  - destruct (string_ltb_total _ _ Er); naive_solver.
Qed.

(** ** Embedding counts *)
Lemma cumsum_from_lookup l : ∀ acc i c,
  cumsum_from acc l !! i = Some c →
  c = acc + len (filter (λ b, b = true) (take (S i) l)).
Proof.
  induction l as [|b l IH]; intros acc [|i] c Hc; cbn [cumsum_from lookup list_lookup] in Hc; simplify_eq.
  - destruct b; simpl; lia.
  - apply IH in Hc as ->. change (take (S (S i)) (b :: l)) with ([b] ++ take (S i) l).
    rewrite filter_app, length_app. destruct b; simpl Z.b2z; simpl (filter _ [_]); simpl; lia.
Qed.

Lemma cumsum_from_length l : ∀ acc, List.length (cumsum_from acc l) = List.length l.
Proof. induction l; intros; simpl; auto. Qed.
