(* ===== verification/BlockHash.v ===== *)
(** * Block hashes

    The hashing half of [vllm/v1/core/kv_cache_utils.py]: the keys of the prefix
    cache ([make_block_hash_with_group_id] and its inverses), the extra keys of
    a block ([generate_block_hash_extra_keys]), the chained hash of the full
    blocks of a request ([get_request_block_hasher]) and the conversion to a
    coarser block size ([BlockHashListWithBlockSize]).

    The hash function ([sha256_cbor] and the like) is a parameter of the model,
    as is [NONE_HASH]. *)
From S2P Require Import Prelude FreeQueue Request.

(** ** Keys with a group id *)
Definition to_bytes_4 (g : Z) : res bytes :=
  if (g <? 0) || (2 ^ 32 <=? g) then Raise OverflowError
  else Ok [g / 2 ^ 24 mod 256; g / 2 ^ 16 mod 256; g / 2 ^ 8 mod 256; g mod 256].

(** [int.from_bytes(b, "big", signed=False)] *)
Definition from_bytes (b : bytes) : Z := foldl (λ acc x, acc * 256 + x) 0 b.

Definition make_block_hash_with_group_id (block_hash : bytes) (group_id : Z) : res bytes :=
  match to_bytes_4 group_id with
  | Ok g => Ok (block_hash ++ g)
  | Raise e => Raise e
  end.

(** [key[:-4]] and [key[-4:]] *)
Definition get_block_hash (key : bytes) : bytes := take (length key - 4) key.
Definition get_group_id (key : bytes) : Z := from_bytes (drop (length key - 4) key).

Inductive ExternalBlockHash := EBytes (b : bytes) | EInt (z : Z).

(** [use_int] is [envs.VLLM_KV_EVENTS_USE_INT_BLOCK_HASHES]. *)
Definition maybe_convert_block_hash (use_int : bool) (hash_bytes : bytes) : ExternalBlockHash :=
  if negb use_int then EBytes hash_bytes
  else EInt (Z.land (from_bytes hash_bytes) (Z.shiftl 1 64 - 1)).

(** ** Extra keys

    A Python value in the tuple of extra keys: a string (the LoRA name, the
    cache salt), a pair of an identifier and an offset, a digest. *)
Inductive extra_key := KStr (s : string) | KMM (identifier : string) (off : Z) | KBytes (b : bytes).

#[global] Instance extra_key_eq_dec : EqDecision extra_key.
Proof. solve_decision. Defined.

Definition need_extra_keys (r : Request) : bool :=
  negb (len (mm_features r) =? 0)
  || match lora_request r with Some _ => true | None => false end
  || match cache_salt r with Some _ => true | None => false end.

(** The [while] loop of [_gen_mm_extra_hash_keys]; every turn moves to the next
    feature or leaves, so the number of features is enough fuel. *)
Fixpoint mm_loop (fuel : nat) (fs : list MultiModalFeatureSpec) (start_token_idx end_token_idx curr : Z)
    : res (list extra_key * Z) :=
  match fuel with
  | O => Raise OutOfFuel
  | S f =>
      match fs !! Z.to_nat curr with
      | None => Ok ([], curr)
      | Some feat =>
          let off := offset (mm_position feat) in
          let l := pr_length (mm_position feat) in
          if off <? end_token_idx then
            if off + l <=? start_token_idx then
              mm_loop f fs start_token_idx end_token_idx (curr + 1)
            else
              let k := KMM (identifier feat) (off - start_token_idx) in
              if off + l <=? end_token_idx then
                match mm_loop f fs start_token_idx end_token_idx (curr + 1) with
                | Ok (ks, c) => Ok (k :: ks, c)
                | Raise e => Raise e
                end
              else Ok ([k], curr)
          else Ok ([], curr)
      end
  end.

Definition gen_mm_extra_hash_keys (r : Request) (start_token_idx end_token_idx start_mm_idx : Z)
    : res (list extra_key * Z) :=
  let fs := mm_features r in
  match last fs with
  | None => Ok ([], start_mm_idx)
  | Some lst =>
      if offset (mm_position lst) + pr_length (mm_position lst) <=? start_token_idx
      then Ok ([], start_mm_idx)
      else if start_mm_idx <? 0 then
        if - start_mm_idx <=? len fs
        then mm_loop (S (length fs)) fs start_token_idx end_token_idx (len fs + start_mm_idx)
        else Raise AssertionError
      else mm_loop (S (length fs)) fs start_token_idx end_token_idx start_mm_idx
  end.

Definition gen_lora_extra_hash_keys (r : Request) : list extra_key :=
  match lora_request r with
  | None => []
  | Some l => [KStr (lora_name l)]
  end.

(** Digests of the prompt embeddings are memoised on the request. *)
Definition gen_prompt_embeds_extra_hash_keys (start_token_idx end_token_idx : Z)
    : M Request (list extra_key) :=
  r ← get;
  match prompt_embeds r with
  | None => mret []
  | Some pe =>
      match prompt_embeds_per_block_hashes r !! (start_token_idx, end_token_idx) with
      | Some d => mret [KBytes d]
      | None =>
          let d := pe_digest pe start_token_idx end_token_idx in
          _ ← modify (λ r, set_prompt_embeds_per_block_hashes
                (<[(start_token_idx, end_token_idx) := d]> (prompt_embeds_per_block_hashes r)) r);
          mret [KBytes d]
      end
  end.

(** [[request.cache_salt] if (start_token_idx == 0 and request.cache_salt) else []]:
    the empty string is falsy. *)
Definition cache_salt_keys (r : Request) (start_token_idx : Z) : list extra_key :=
  match cache_salt r with
  | Some s => if (start_token_idx =? 0) && negb (String.eqb s "") then [KStr s] else []
  | None => []
  end.

(** [None] for an empty list, the tuple otherwise. *)
Definition keys_or_none (ks : list extra_key) : option (list extra_key) :=
  match ks with [] => None | _ => Some ks end.

Definition generate_block_hash_extra_keys (start_token_idx end_token_idx start_mm_idx : Z)
    : M Request (option (list extra_key) * Z) :=
  r ← get;
  '(mm_extra_keys, new_start_mm_idx) ←
    of_res (gen_mm_extra_hash_keys r start_token_idx end_token_idx start_mm_idx);
  let lora_extra_keys := gen_lora_extra_hash_keys r in
  let salt_keys := cache_salt_keys r start_token_idx in
  prompt_embeds_keys ← gen_prompt_embeds_extra_hash_keys start_token_idx end_token_idx;
  mret (keys_or_none (lora_extra_keys ++ mm_extra_keys ++ salt_keys ++ prompt_embeds_keys),
        new_start_mm_idx).

(** ** Hashing the blocks of a request *)
Section hashing.
Context (hash_function : bytes * list Z * option (list extra_key) → bytes).
Context (NONE_HASH : bytes).

(** [if not parent_block_hash]: [None] and the empty string are falsy. *)
Definition parent_or_none (parent : option bytes) : bytes :=
  match parent with
  | None | Some [] => NONE_HASH
  | Some p => p
  end.

Definition hash_block_tokens (parent : option bytes) (toks : list Z)
    (extra : option (list extra_key)) : bytes :=
  hash_function (parent_or_none parent, toks, extra).

(** The [while True] loop of [request_block_hasher]. *)
Fixpoint hash_loop (fuel : nat) (block_size start_token_idx curr_mm_idx : Z)
    (prev : option bytes) : M Request (list bytes) :=
  match fuel with
  | O => raise OutOfFuel
  | S f =>
      r ← get;
      let end_token_idx := start_token_idx + block_size in
      if num_tokens r <? end_token_idx then mret []
      else
        '(extra, mm_idx) ← generate_block_hash_extra_keys start_token_idx end_token_idx curr_mm_idx;
        let h := hash_block_tokens prev (py_slice (all_token_ids r) start_token_idx end_token_idx) extra in
        hs ← hash_loop f block_size end_token_idx mm_idx (Some h);
        mret (h :: hs)
  end.

Definition request_block_hasher (block_size : Z) : block_hasher :=
  r ← get;
  let start_token_idx := len (block_hashes r) * block_size in
  if num_tokens r <? start_token_idx + block_size then mret []
  else
    let curr_mm_idx := if 0 <? start_token_idx then -1 else 0 in
    hash_loop (S (length (all_token_ids r))) block_size start_token_idx curr_mm_idx
      (last (block_hashes r)).
End hashing.

(** ** Converting the granularity of hashes *)
Module BlockHashListWithBlockSize.

Record t := mk { b_hashes : list bytes; scale_factor : Z }.

Definition init (hashes : list bytes) (hash_block_size target_block_size : Z) : res t :=
  if target_block_size mod hash_block_size =? 0
  then Ok (mk hashes (target_block_size / hash_block_size))
  else Raise AssertionError.

Definition length_ (l : t) : Z := len (b_hashes l) / scale_factor l.

Definition get_value_at (l : t) (idx : Z) : bytes :=
  let base := idx * scale_factor l in
  concat (py_slice (b_hashes l) base (base + scale_factor l)).

(** [l[start:]] *)
Definition from_ (l : t) (start : Z) : list bytes :=
  get_value_at l <$> py_range (Z.min start (length_ l)) (length_ l).

(** [list(iter(l))] *)
Definition to_list (l : t) : list bytes := get_value_at l <$> py_range 0 (length_ l).

End BlockHashListWithBlockSize.

(** ** Keys: packing and unpacking *)
Lemma to_bytes_4_ok g :
  0 ≤ g < 2 ^ 32 →
  ∃ b, to_bytes_4 g = Ok b ∧ length b = 4%nat ∧ from_bytes b = g.
Proof.
  intros Hg. unfold to_bytes_4.
  rewrite (proj2 (Z.ltb_ge _ _)), (proj2 (Z.leb_gt _ _)) by lia. cbn [orb].
  eexists. split; [done|]. split; [done|]. unfold from_bytes. cbn [foldl].
  pose proof (Z.div_mod g 256). pose proof (Z.div_mod (g / 256) 256).
  pose proof (Z.div_mod (g / 256 / 256) 256).
  assert (g / 256 / 256 / 256 < 256).
  { rewrite !Z.div_div by lia. apply Z.div_lt_upper_bound; lia. }
  assert (0 ≤ g / 256 / 256 / 256) by (rewrite !Z.div_div by lia; apply Z.div_pos; lia).
  change (2 ^ 24) with (256 * 256 * 256). change (2 ^ 16) with (256 * 256).
  change (2 ^ 8) with 256. rewrite <- !Z.div_div by lia.
  rewrite (Z.mod_small (g / 256 / 256 / 256)) by lia. lia.
Qed.

Lemma make_key_ok h g :
  0 ≤ g < 2 ^ 32 →
  ∃ key, make_block_hash_with_group_id h g = Ok key ∧
    get_block_hash key = h ∧ get_group_id key = g.
Proof.
  intros Hg. destruct (to_bytes_4_ok g Hg) as (b & Hb & Hlen & Hv).
  exists (h ++ b). unfold make_block_hash_with_group_id. rewrite Hb. split; [done|].
  unfold get_block_hash, get_group_id. rewrite length_app, Hlen.
  replace (length h + 4 - 4)%nat with (length h) by lia.
  by rewrite take_app_length, drop_app_length.
Qed.

(** Different (hash, group) pairs never share a key of the cache. *)
Lemma make_key_inj h1 g1 h2 g2 k :
  make_block_hash_with_group_id h1 g1 = Ok k →
  make_block_hash_with_group_id h2 g2 = Ok k → h1 = h2 ∧ g1 = g2.
Proof.
  assert (Hr : ∀ h g, make_block_hash_with_group_id h g = Ok k → 0 ≤ g < 2 ^ 32).
  { intros h g. unfold make_block_hash_with_group_id, to_bytes_4.
    destruct (Z.ltb_spec g 0); [done|]. destruct (Z.leb_spec (2 ^ 32) g); [done|]. lia. }
  intros H1 H2. destruct (make_key_ok h1 g1) as (k1 & E1 & <- & <-); [by eapply Hr|].
  destruct (make_key_ok h2 g2) as (k2 & E2 & <- & <-); [by eapply Hr|].
  split; congruence.
Qed.

(** ** Extra keys of a block, without the index bookkeeping *)
Definition feature_end (f : MultiModalFeatureSpec) : Z :=
  offset (mm_position f) + pr_length (mm_position f).

Definition overlaps (s e : Z) (f : MultiModalFeatureSpec) : Prop :=
  offset (mm_position f) < e ∧ s < feature_end f.
#[global] Instance overlaps_dec s e f : Decision (overlaps s e f).
Proof. unfold overlaps. apply _. Defined.

Definition mm_key (s : Z) (f : MultiModalFeatureSpec) : extra_key :=
  KMM (identifier f) (offset (mm_position f) - s).

(** The features are sorted by position and do not overlap one another. *)
Definition mm_sorted (fs : list MultiModalFeatureSpec) : Prop :=
  (∀ f, f ∈ fs → 0 ≤ pr_length (mm_position f)) ∧
  ∀ i j f g, (i < j)%nat → fs !! i = Some f → fs !! j = Some g →
    feature_end f ≤ offset (mm_position g).

(** The keys a block [s, e) should have: one per feature that overlaps it. *)
Definition mm_spec_keys (fs : list MultiModalFeatureSpec) (s e : Z) : list extra_key :=
  mm_key s <$> filter (overlaps s e) fs.

Section mm_keys.
Context (fs : list MultiModalFeatureSpec) (s e : Z).
Hypothesis Hsorted : mm_sorted fs.
Hypothesis Hse : s ≤ e.

Lemma mm_ends_before_last f lst :
  f ∈ fs → last fs = Some lst → feature_end f ≤ feature_end lst.
Proof.
  destruct Hsorted as [Hpos Hord]. intros [i Hi]%list_elem_of_lookup Hlst.
  rewrite last_lookup in Hlst. pose proof (lookup_lt_Some _ _ _ Hi).
  destruct (decide (i = pred (length fs))) as [->|]; [simplify_eq; lia|].
  assert (feature_end f ≤ offset (mm_position lst)) by (apply (Hord i (pred (length fs))); [lia|done|done]).
  assert (0 ≤ pr_length (mm_position lst)) by (apply Hpos; by eapply list_elem_of_lookup_2).
  unfold feature_end in *. lia.
Qed.

(** The loop from [curr], when the features before [curr] end before the
    block: the overlapping features, and an index that is right for the next
    block. *)
Lemma mm_loop_ok fuel : ∀ curr,
  (length fs - curr < fuel)%nat →
  ∃ c, mm_loop fuel fs s e (Z.of_nat curr) = Ok (mm_spec_keys (drop curr fs) s e, Z.of_nat c) ∧
    (curr ≤ c)%nat ∧
    ∀ i f, (curr ≤ i < c)%nat → fs !! i = Some f → feature_end f ≤ e.
Proof.
  destruct Hsorted as [Hpos Hord].
  assert (Hrest : ∀ curr feat, fs !! curr = Some feat → e ≤ feature_end feat →
            mm_spec_keys (drop (S curr) fs) s e = []).
  { intros curr feat Hf He. unfold mm_spec_keys.
    destruct (filter _ _) as [|g l] eqn:Eg; [done|exfalso].
    assert (Hg : g ∈ filter (overlaps s e) (drop (S curr) fs)) by (rewrite Eg; set_solver).
    apply list_elem_of_filter in Hg as [[Ho _] [i Hi]%list_elem_of_lookup].
    rewrite lookup_drop in Hi.
    assert (feature_end feat ≤ offset (mm_position g)) by (eapply Hord; [|done..]; lia). lia. }
  induction fuel as [|fuel IH]; intros curr Hfuel; simpl mm_loop.
  { lia. }
  rewrite Nat2Z.id. destruct (fs !! curr) as [feat|] eqn:Hf.
  2: { exists curr. rewrite drop_ge by (by apply lookup_ge_None). split; [done|]. split; [done|]. lia. }
  rewrite (drop_S fs feat curr) by done.
  assert (0 ≤ pr_length (mm_position feat)) by (apply Hpos; by eapply list_elem_of_lookup_2).
  replace (Z.of_nat curr + 1) with (Z.of_nat (S curr)) by lia.
  destruct (Z.ltb_spec (offset (mm_position feat)) e) as [He|He].
  2: { exists curr. split; [|split; [done|lia]]. unfold mm_spec_keys.
       rewrite filter_cons_False by (unfold overlaps; lia). f_equal. f_equal.
       symmetry. eapply Hrest; [done|]. unfold feature_end. lia. }
  destruct (IH (S curr)) as (c & Hc & Hcle & Hends).
  { apply lookup_lt_Some in Hf. lia. }
  destruct (Z.leb_spec (offset (mm_position feat) + pr_length (mm_position feat)) s) as [Hs|Hs].
  - exists c. unfold mm_spec_keys.
    rewrite filter_cons_False by (unfold overlaps, feature_end; lia).
    split; [done|]. split; [lia|]. intros i f Hi Hif.
    destruct (decide (i = curr)) as [->|]; [simplify_eq; unfold feature_end; lia|].
    apply (Hends i); [lia|done].
  - unfold mm_spec_keys. rewrite filter_cons_True by (unfold overlaps, feature_end; lia).
    destruct (Z.leb_spec (offset (mm_position feat) + pr_length (mm_position feat)) e) as [He2|He2].
    + rewrite Hc. exists c. split; [done|]. split; [lia|]. intros i f Hi Hif.
      destruct (decide (i = curr)) as [->|]; [simplify_eq; unfold feature_end; lia|].
      apply (Hends i); [lia|done].
    + exists curr. split; [|split; [done|lia]].
      assert (Hnil : mm_spec_keys (drop (S curr) fs) s e = []).
      { eapply Hrest; [done|]. unfold feature_end. lia. }
      unfold mm_spec_keys in Hnil. rewrite fmap_cons, Hnil. done.
Qed.
End mm_keys.

(** An index from which the loop may start for a block that begins at [s]:
    the features before it end before the block.  A negative index counts from
    the end, as in Python. *)
Definition idx_ok (fs : list MultiModalFeatureSpec) (s i : Z) : Prop :=
  fs = [] ∨
  - len fs ≤ i ∧
  ∀ j f, Z.of_nat j < (if i <? 0 then len fs + i else i) → fs !! j = Some f → feature_end f ≤ s.

Lemma mm_spec_keys_drop fs s e n :
  (∀ j f, (j < n)%nat → fs !! j = Some f → feature_end f ≤ s) →
  mm_spec_keys (drop n fs) s e = mm_spec_keys fs s e.
Proof.
  intros H. unfold mm_spec_keys. rewrite <- (take_drop n fs) at 2.
  rewrite filter_app. assert (filter (overlaps s e) (take n fs) = []) as ->; [|done].
  destruct (filter _ _) as [|g l] eqn:Eg; [done|exfalso].
  assert (Hg : g ∈ filter (overlaps s e) (take n fs)) by (rewrite Eg; set_solver).
  apply list_elem_of_filter in Hg as [[_ Ho] [j Hj]%list_elem_of_lookup].
  apply lookup_take_Some in Hj as [Hj Hlt]. specialize (H j g Hlt Hj). lia.
Qed.

Lemma gen_mm_ok r s e i :
  mm_sorted (mm_features r) → s ≤ e → idx_ok (mm_features r) s i →
  ∃ i', gen_mm_extra_hash_keys r s e i = Ok (mm_spec_keys (mm_features r) s e, i') ∧
    idx_ok (mm_features r) e i'.
Proof.
  intros Hs Hse Hi. unfold gen_mm_extra_hash_keys.
  destruct (last (mm_features r)) as [lst|] eqn:El.
  2: { apply last_None in El. rewrite El. exists i. split; [done|by left]. }
  destruct Hi as [E|[Hlo Hi]]; [by rewrite E in El|].
  destruct (Z.leb_spec (offset (mm_position lst) + pr_length (mm_position lst)) s) as [Hl|Hl].
  { assert (Hall : ∀ f, f ∈ mm_features r → feature_end f ≤ s).
    { intros f Hf. pose proof (mm_ends_before_last _ Hs f lst Hf El). unfold feature_end in *. lia. }
    exists i. split.
    - rewrite <- (mm_spec_keys_drop _ s e (length (mm_features r))).
      + by rewrite drop_all.
      + intros j f _ Hf. apply Hall. by eapply list_elem_of_lookup_2.
    - right. split; [done|]. intros j f Hj Hf. specialize (Hi j f Hj Hf). lia. }
  set (n := Z.to_nat (if i <? 0 then len (mm_features r) + i else i)).
  assert (Hbefore : ∀ j f, (j < n)%nat → mm_features r !! j = Some f → feature_end f ≤ s).
  { intros j f Hj. apply Hi. subst n. lia. }
  destruct (mm_loop_ok _ s e Hs Hse (S (length (mm_features r))) n) as (c & Hc & Hnc & Hends); [lia|].
  rewrite (mm_spec_keys_drop _ s e n Hbefore) in Hc.
  exists (Z.of_nat c). split.
  - subst n. destruct (Z.ltb_spec i 0).
    + rewrite (proj2 (Z.leb_le _ _)) by lia. by rewrite Z2Nat.id in Hc by lia.
    + by rewrite Z2Nat.id in Hc by lia.
  - right. split; [lia|]. rewrite (proj2 (Z.ltb_ge _ _)) by lia. intros j f Hj Hf.
    destruct (decide (j < n)%nat) as [Hjn|].
    + specialize (Hbefore j f Hjn Hf). lia.
    + apply (Hends j); [lia|done].
Qed.

(** ** The memo of digests is transparent *)
Definition memo_ok (r : Request) : Prop :=
  ∀ pe s e d, prompt_embeds r = Some pe →
    prompt_embeds_per_block_hashes r !! (s, e) = Some d → d = pe_digest pe s e.

(** [r'] is [r] up to the memo. *)
Definition memo_frame (r r' : Request) : Prop :=
  memo_ok r' ∧ r' = set_prompt_embeds_per_block_hashes (prompt_embeds_per_block_hashes r') r.

Lemma memo_frame_refl r : memo_ok r → memo_frame r r.
Proof. intros H. split; [done|]. by destruct r. Qed.

Lemma memo_frame_trans r1 r2 r3 : memo_frame r1 r2 → memo_frame r2 r3 → memo_frame r1 r3.
Proof. intros [_ H1] [H2 H3]. split; [done|]. rewrite H3, H1. by destruct r1. Qed.

Definition embeds_spec_keys (r : Request) (s e : Z) : list extra_key :=
  match prompt_embeds r with None => [] | Some pe => [KBytes (pe_digest pe s e)] end.

(** The extra keys of the block [s, e) of a request. *)
Definition spec_extra_keys (r : Request) (s e : Z) : option (list extra_key) :=
  keys_or_none (gen_lora_extra_hash_keys r ++ mm_spec_keys (mm_features r) s e ++
                cache_salt_keys r s ++ embeds_spec_keys r s e).

Lemma gen_prompt_embeds_ok r s e :
  memo_ok r →
  wp (gen_prompt_embeds_extra_hash_keys s e)
    (λ ks r', ks = embeds_spec_keys r s e ∧ memo_frame r r') r.
Proof.
  intros Hm. unfold gen_prompt_embeds_extra_hash_keys, embeds_spec_keys. wp_step.
  destruct (prompt_embeds r) as [pe|] eqn:Epe; wp_step.
  2: { split; [done|by apply memo_frame_refl]. }
  destruct (_ !! _) as [d|] eqn:Ed; wp_step.
  - rewrite (Hm pe s e d) by done. split; [done|by apply memo_frame_refl].
  - split; [done|]. split; [|by destruct r].
    intros pe' s' e' d'. simpl. intros Hpe'. rewrite lookup_insert.
    case_decide as E; [naive_solver|]. by apply Hm.
Qed.

Lemma generate_extra_keys_ok r s e i :
  mm_sorted (mm_features r) → s ≤ e → idx_ok (mm_features r) s i → memo_ok r →
  wp (generate_block_hash_extra_keys s e i)
    (λ ki r', ki.1 = spec_extra_keys r s e ∧ idx_ok (mm_features r) e ki.2 ∧ memo_frame r r') r.
Proof.
  intros Hs Hse Hi Hm. destruct (gen_mm_ok r s e i Hs Hse Hi) as (i' & Hgen & Hi').
  unfold generate_block_hash_extra_keys. wp_step. rewrite Hgen.
  unfold of_res at 1, wp at 1. wp_step.
  eapply wp_mono; [by apply gen_prompt_embeds_ok|]. intros ks r' [-> Hf]. by wp_step.
Qed.

(** ** The chain of block hashes *)
Section chain.
Context (hash_function : bytes * list Z * option (list extra_key) → bytes).
Context (NONE_HASH : bytes).

Abbreviation hash_block := (hash_block_tokens hash_function NONE_HASH).
Abbreviation hasher := (request_block_hasher hash_function NONE_HASH).

(** What is hashed for a block: its tokens and its extra keys. *)
Abbreviation input := (list Z * option (list extra_key))%type.

Fixpoint chain_hashes (prev : option bytes) (ins : list input) : list bytes :=
  match ins with
  | [] => []
  | (toks, extra) :: ins' =>
      let h := hash_block prev toks extra in h :: chain_hashes (Some h) ins'
  end.

Definition block_input (r : Request) (bs j : Z) : input :=
  (py_slice (all_token_ids r) (j * bs) (j * bs + bs), spec_extra_keys r (j * bs) (j * bs + bs)).

Definition num_full (r : Request) (bs : Z) : Z := num_tokens r / bs.

Definition inputs_from (r : Request) (bs k : Z) : list input :=
  block_input r bs <$> seqZ k (num_full r bs - k).

(** The hashes of all full blocks, computed in one go. *)
Definition full_hashes (r : Request) (bs : Z) : list bytes := chain_hashes None (inputs_from r bs 0).

Lemma chain_hashes_length ins : ∀ prev, length (chain_hashes prev ins) = length ins.
Proof. induction ins as [|[t e] ins IH]; intros prev; simpl; auto. Qed.

Lemma chain_hashes_app xs : ∀ prev ys,
  chain_hashes prev (xs ++ ys) =
  chain_hashes prev xs ++ chain_hashes (match last (chain_hashes prev xs) with
                                        | Some h => Some h | None => prev end) ys.
Proof.
  induction xs as [|[t e] xs IH]; intros prev ys; [done|].
  simpl. f_equal. rewrite IH. f_equal. f_equal.
  rewrite last_cons. by destruct (last (chain_hashes _ xs)).
Qed.

Lemma memo_frame_inputs r r' bs k :
  memo_frame r r' → inputs_from r' bs k = inputs_from r bs k.
Proof. intros [_ ->]. by destruct r. Qed.

Lemma hash_loop_ok bs fuel : ∀ r k i prev,
  0 < bs → 0 ≤ k → Z.max 0 (num_full r bs - k) < Z.of_nat fuel →
  mm_sorted (mm_features r) → memo_ok r → idx_ok (mm_features r) (k * bs) i →
  wp (hash_loop hash_function NONE_HASH fuel bs (k * bs) i prev)
    (λ hs r', hs = chain_hashes prev (inputs_from r bs k) ∧ memo_frame r r') r.
Proof.
  induction fuel as [|fuel IH]; intros r k i prev Hbs Hk Hfuel Hs Hm Hi; [lia|].
  simpl hash_loop. wp_step.
  assert (Hdiv : num_tokens r < k * bs + bs ↔ num_full r bs ≤ k).
  { unfold num_full. pose proof (Z.div_mod (num_tokens r) bs ltac:(lia)).
    pose proof (Z.mod_pos_bound (num_tokens r) bs Hbs). nia. }
  destruct (Z.ltb_spec (num_tokens r) (k * bs + bs)) as [Hlt|Hge].
  { wp_step. split; [|by apply memo_frame_refl]. unfold inputs_from.
    apply Hdiv in Hlt. by rewrite seqZ_nil by lia. }
  assert (Hk' : k < num_full r bs) by lia.
  wp_step. eapply wp_mono.
  { apply generate_extra_keys_ok; [done| |done|done]. lia. }
  intros [extra i'] r1 (Hextra & Hi' & Hf1). simpl in Hextra, Hi'. subst extra.
  wp_step. replace (k * bs + bs) with ((k + 1) * bs) in Hi' |- * by lia.
  assert (Efs : mm_features r1 = mm_features r) by (destruct Hf1 as [_ ->]; by destruct r).
  assert (Enf : num_full r1 bs = num_full r bs) by (destruct Hf1 as [_ ->]; by destruct r).
  eapply wp_mono.
  { apply (IH r1 (k + 1)); [done|lia|lia|by rewrite Efs|by destruct Hf1|by rewrite Efs]. }
  intros hs r2 [-> Hf2]. wp_step. split; [|by eapply memo_frame_trans].
  rewrite (memo_frame_inputs _ _ _ _ Hf1). unfold inputs_from.
  rewrite (seqZ_cons k) by lia. simpl. unfold block_input at 2. simpl.
  replace (Z.succ k) with (k + 1) by lia.
  replace (Z.pred (num_full r bs - k)) with (num_full r bs - (k + 1)) by lia.
  by replace (k * bs + bs) with ((k + 1) * bs) by lia.
Qed.

(** The hashes a request holds are those of its first blocks, and every
    feature but the last one ends before the first token not hashed yet. *)
Definition hashed_prefix (r : Request) (bs : Z) : Prop :=
  block_hashes r = chain_hashes None (block_input r bs <$> seqZ 0 (len (block_hashes r))) ∧
  len (block_hashes r) ≤ num_full r bs.

Definition late_features_ok (r : Request) (bs : Z) : Prop :=
  block_hashes r = [] ∨ idx_ok (mm_features r) (len (block_hashes r) * bs) (-1).

Lemma num_full_le_tokens r bs : 0 < bs → num_full r bs ≤ num_tokens r.
Proof.
  intros. unfold num_full, num_tokens. apply Z.div_le_upper_bound; [done|]. nia.
Qed.

Lemma hasher_ok r bs :
  0 < bs → mm_sorted (mm_features r) → memo_ok r →
  hashed_prefix r bs → late_features_ok r bs →
  wp (hasher bs) (λ hs r', block_hashes r ++ hs = full_hashes r bs ∧ memo_frame r r') r.
Proof.
  intros Hbs Hs Hm [Hpre Hle] Hlate. set (k := len (block_hashes r)) in *.
  assert (Hfull : full_hashes r bs = block_hashes r ++
            chain_hashes (last (block_hashes r)) (inputs_from r bs k)).
  { unfold full_hashes, inputs_from.
    replace (num_full r bs - 0) with (k + (num_full r bs - k)) by lia.
    rewrite seqZ_app by lia. rewrite fmap_app, chain_hashes_app, <- Hpre.
    f_equal. rewrite Z.add_0_l. by destruct (last (block_hashes r)). }
  unfold request_block_hasher. wp_step. fold k.
  destruct (Z.ltb_spec (num_tokens r) (k * bs + bs)) as [Hlt|Hge].
  - wp_step. split; [|by apply memo_frame_refl]. rewrite Hfull. f_equal.
    assert (num_full r bs ≤ k).
    { unfold num_full. pose proof (Z.div_mod (num_tokens r) bs ltac:(lia)).
      pose proof (Z.mod_pos_bound (num_tokens r) bs Hbs). nia. }
    unfold inputs_from. by rewrite seqZ_nil by lia.
  - eapply wp_mono; [apply hash_loop_ok; try done; [lia| |]|].
    + pose proof (num_full_le_tokens r bs Hbs). unfold num_tokens in *. lia.
    + destruct (Z.ltb_spec 0 (k * bs)) as [Hk|Hk].
      * destruct Hlate as [He|]; [|done]. unfold k in Hk. rewrite He in Hk. simpl in Hk. lia.
      * right. split; [lia|]. simpl. lia.
    + intros hs r' [-> Hf]. by rewrite Hfull.
Qed.

Definition hashes_ok (r : Request) (bs : Z) : Prop := block_hashes r = full_hashes r bs.

Lemma full_hashes_length r bs : 0 < bs → len (full_hashes r bs) = num_full r bs.
Proof.
  intros Hbs. unfold full_hashes, inputs_from. rewrite chain_hashes_length, length_fmap, length_seqZ.
  assert (0 ≤ num_full r bs) by (apply Z.div_pos; unfold num_tokens; lia). lia.
Qed.

(** A request without hashes, and one whose hashes are up to date before new
    tokens arrive, satisfy the precondition of the hasher. *)
Lemma hashed_prefix_append r bs toks :
  0 < bs → hashes_ok r bs →
  hashed_prefix (set_all_token_ids (all_token_ids r ++ toks) r) bs.
Proof.
  intros Hbs Hok. set (r' := set_all_token_ids _ r).
  assert (Hlen : len (block_hashes r') = num_full r bs).
  { change (block_hashes r') with (block_hashes r). rewrite Hok. by apply full_hashes_length. }
  split.
  - rewrite Hlen. change (block_hashes r') with (block_hashes r). rewrite Hok.
    unfold full_hashes, inputs_from. rewrite Z.sub_0_r. f_equal.
    apply list_fmap_ext. intros i j Hj. apply lookup_seqZ in Hj as [-> Hj].
    unfold block_input. f_equal. unfold py_slice. simpl.
    rewrite drop_app_le, take_app_le; [done|..].
    + rewrite length_drop. unfold num_full, num_tokens in Hj.
      pose proof (Z.div_mod (len (all_token_ids r)) bs ltac:(lia)).
      pose proof (Z.mod_pos_bound (len (all_token_ids r)) bs Hbs). nia.
    + unfold num_full, num_tokens in Hj.
      pose proof (Z.div_mod (len (all_token_ids r)) bs ltac:(lia)).
      pose proof (Z.mod_pos_bound (len (all_token_ids r)) bs Hbs). nia.
  - rewrite Hlen. unfold num_full. apply Z.div_le_mono; [done|].
    unfold num_tokens. simpl. rewrite length_app. lia.
Qed.

Lemma chain_lookup_0 ins prev h :
  chain_hashes prev ins !! 0%nat = Some h →
  ∃ t e, ins !! 0%nat = Some (t, e) ∧ h = hash_function (parent_or_none NONE_HASH prev, t, e).
Proof. destruct ins as [|[t e] ins]; simpl; [done|]. intros [= <-]. eauto. Qed.

Lemma chain_lookup_S ins : ∀ prev i h,
  chain_hashes prev ins !! S i = Some h →
  ∃ p t e, chain_hashes prev ins !! i = Some p ∧ ins !! S i = Some (t, e) ∧
    h = hash_function (parent_or_none NONE_HASH (Some p), t, e).
Proof.
  induction ins as [|[t e] ins IH]; intros prev i h Hh; [done|].
  simpl in Hh. destruct i as [|i].
  - apply chain_lookup_0 in Hh as (t' & e' & Hi & ->). by eexists _, t', e'.
  - apply IH in Hh as (p & t' & e' & Hp & Hi & ->). by exists p, t', e'.
Qed.

(** *** Collision freedom of the chain *)
Section injective.
Hypothesis hash_inj : ∀ x y, hash_function x = hash_function y → x = y.
Hypothesis hash_nonempty : ∀ x, hash_function x ≠ [].
Hypothesis none_fresh : ∀ x, hash_function x ≠ NONE_HASH.

Lemma chain_is_hash ins prev i h :
  chain_hashes prev ins !! i = Some h → ∃ x, h = hash_function x.
Proof.
  destruct i as [|i].
  - intros (t & e & _ & ->)%chain_lookup_0. eauto.
  - intros (p & t & e & _ & _ & ->)%chain_lookup_S. eauto.
Qed.

Lemma parent_of_hash p x : p = hash_function x → parent_or_none NONE_HASH (Some p) = p.
Proof. intros ->. simpl. destruct (hash_function x) eqn:E; [|done]. by apply hash_nonempty in E. Qed.

Lemma chain_inj i : ∀ j xs ys h,
  chain_hashes None xs !! i = Some h → chain_hashes None ys !! j = Some h →
  i = j ∧ ∀ k, (k ≤ i)%nat → xs !! k = ys !! k.
Proof.
  induction i as [|i IH]; intros [|j] xs ys h Hx Hy.
  - apply chain_lookup_0 in Hx as (t & e & Hx & ->). apply chain_lookup_0 in Hy as (t' & e' & Hy & E).
    apply hash_inj in E. simplify_eq. split; [done|]. intros k Hk. by replace k with 0%nat by lia; rewrite Hx, Hy.
  - apply chain_lookup_0 in Hx as (t & e & Hx & ->).
    apply chain_lookup_S in Hy as (p & t' & e' & Hp & Hy & E). apply hash_inj in E.
    apply chain_is_hash in Hp as [x ->]. rewrite (parent_of_hash _ x) in E by done.
    simplify_eq. by destruct (none_fresh x).
  - apply chain_lookup_0 in Hy as (t & e & Hy & ->).
    apply chain_lookup_S in Hx as (p & t' & e' & Hp & Hx & E). apply hash_inj in E.
    apply chain_is_hash in Hp as [x ->]. rewrite (parent_of_hash _ x) in E by done.
    simplify_eq. by destruct (none_fresh x).
  - apply chain_lookup_S in Hx as (p & t & e & Hp & Hx & ->).
    apply chain_lookup_S in Hy as (p' & t' & e' & Hp' & Hy & E). apply hash_inj in E.
    pose proof (chain_is_hash _ _ _ _ Hp) as [x Ep].
    pose proof (chain_is_hash _ _ _ _ Hp') as [x' Ep'].
    rewrite (parent_of_hash p x Ep), (parent_of_hash p' x' Ep') in E.
    injection E as -> -> ->. destruct (IH j xs ys p' Hp Hp') as [-> Hk].
    split; [done|]. intros k Hle. destruct (decide (k = S j)) as [->|]; [congruence|].
    apply Hk. lia.
Qed.
End injective.
End chain.

(** Two token lists with the same blocks have the same prefix. *)
Lemma slices_prefix (l1 l2 : list Z) (bs n : Z) :
  0 < bs → 0 ≤ n → n * bs ≤ len l1 → n * bs ≤ len l2 →
  (∀ j, 0 ≤ j < n → py_slice l1 (j * bs) (j * bs + bs) = py_slice l2 (j * bs) (j * bs + bs)) →
  take (Z.to_nat (n * bs)) l1 = take (Z.to_nat (n * bs)) l2.
Proof.
  intros Hbs Hn H1 H2 Hj. apply list_eq. intros i.
  destruct (decide (i < Z.to_nat (n * bs))%nat) as [Hi|Hi].
  2: { rewrite !lookup_take_ge by lia. done. }
  rewrite !lookup_take_lt by done.
  set (j := Z.of_nat i / bs). set (o := Z.of_nat i mod bs).
  assert (Ei : Z.of_nat i = bs * j + o) by (apply Z.div_mod; lia).
  assert (Ho : 0 ≤ o < bs) by (by apply Z.mod_pos_bound).
  assert (Hjn : 0 ≤ j < n) by (split; [apply Z.div_pos; lia|apply Z.div_lt_upper_bound; lia]).
  specialize (Hj j Hjn). apply (f_equal (λ l, l !! Z.to_nat o)) in Hj.
  unfold py_slice in Hj. rewrite !lookup_take_lt, !lookup_drop in Hj by lia.
  replace (Z.to_nat (j * bs) + Z.to_nat o)%nat with i in Hj by nia. done.
Qed.

(** ** Correctness of the hashing *)

(** A cache key packs a block hash and a group id reversibly: for a group id
    that fits 4 bytes both components are recovered, otherwise the code raises
    [OverflowError]. *)
Theorem block_key_roundtrip (h : bytes) (g : Z) :
  match make_block_hash_with_group_id h g with
  | Ok key => get_block_hash key = h ∧ get_group_id key = g ∧ 0 ≤ g < 2 ^ 32
  | Raise e => e = OverflowError ∧ ¬ (0 ≤ g < 2 ^ 32)
  end.
Proof.
  destruct (decide (0 ≤ g < 2 ^ 32)) as [Hg|Hg].
  - destruct (make_key_ok h g Hg) as (key & -> & ? & ?). auto.
  - unfold make_block_hash_with_group_id, to_bytes_4.
    destruct (Z.ltb_spec g 0); [by simpl|]. destruct (Z.leb_spec (2 ^ 32) g); [by simpl|]. lia.
Qed.

(** Appending tokens keeps the hashes; nothing else that they depend on changes. *)
Lemma append_ok hash_function NONE_HASH (r : Request) (bs : Z) (toks : list Z) :
  0 < bs → mm_sorted (mm_features r) → memo_ok r →
  hashes_ok hash_function NONE_HASH r bs → late_features_ok r bs →
  wp (append_output_token_ids (Some (request_block_hasher hash_function NONE_HASH bs)) toks)
    (λ _ r', hashes_ok hash_function NONE_HASH r' bs ∧ memo_ok r' ∧
       all_token_ids r' = all_token_ids r ++ toks ∧
       output_token_ids r' = output_token_ids r ++ toks ∧ mm_features r' = mm_features r) r.
Proof.
  intros Hbs Hs Hm Hok Hlate. unfold append_output_token_ids, update_block_hashes. wp_step.
  set (r1 := set_all_token_ids _ _).
  eapply wp_mono.
  { apply (hasher_ok hash_function NONE_HASH r1 bs Hbs); try done.
    exact (hashed_prefix_append hash_function NONE_HASH
             (set_output_token_ids (output_token_ids r ++ toks) r) bs toks Hbs Hok). }
  intros hs r2 [Hfull [Hm2 E2]]. wp_step. rewrite E2. simpl.
  split; [|split; [|done]].
  - unfold hashes_ok. etrans; [exact Hfull|]. unfold full_hashes. f_equal.
  - intros pe s e d Hpe Hd. by apply (Hm2 pe); [rewrite E2|].
Qed.

(** C29. The hashes a request carries stay the hashes of all its full blocks:
    appending tokens and hashing only the new blocks gives what hashing the
    whole request in one go would give.  Needed: the multi-modal features are
    sorted, and only the last one may reach into the part not hashed yet. *)
Theorem append_keeps_hashes hash_function NONE_HASH (r : Request) (bs : Z) (toks : list Z) :
  0 < bs → mm_sorted (mm_features r) → memo_ok r →
  hashes_ok hash_function NONE_HASH r bs → late_features_ok r bs →
  wp (append_output_token_ids (Some (request_block_hasher hash_function NONE_HASH bs)) toks)
    (λ _ r', hashes_ok hash_function NONE_HASH r' bs ∧ memo_ok r' ∧
       all_token_ids r' = all_token_ids r ++ toks ∧
       output_token_ids r' = output_token_ids r ++ toks) r.
Proof.
  intros Hbs Hs Hm Hok Hlate. eapply wp_mono; [by apply (append_ok _ _ r bs toks)|]. by intros _ r' (? & ? & ? & ? & _).
Qed.

(** The constructor: its attributes, with the hashes of all full blocks. *)
Lemma request_init_spec hash_function NONE_HASH (bs : Z) rid ci prio at_ pid ids embeds sp pp mm
    lora salt resum mt st npt :
  0 < bs → mm_sorted (default [] mm) →
  init_limits sp pp = Ok (mt, st) → length_from_prompt_token_ids_or_embeds ids embeds = Ok npt →
  let r0 := mkRequest rid ci prio at_ pid st mt (match sp with Some s => sp_structured s | None => false end)
              ids embeds ∅ npt [] (default (replicate (Z.to_nat npt) 0) ids) 0 [] 0 salt (default [] mm) lora
              false 0 [] (get_skip_reading_prefix_cache sp pp) resum (new_ext sp pp) in
  ∃ r m, Request_init rid ci prio at_ pid ids embeds sp pp mm lora salt
           (Some (request_block_hasher hash_function NONE_HASH bs)) resum = Ok r ∧
    hashes_ok hash_function NONE_HASH r bs ∧ memo_ok r ∧
    r = set_block_hashes (block_hashes r) (set_prompt_embeds_per_block_hashes m r0).
Proof.
  intros Hbs Hs Hlim Hnpt r0. unfold Request_init. rewrite Hlim, Hnpt. cbv zeta. fold r0.
  assert (H : wp (update_block_hashes (Some (request_block_hasher hash_function NONE_HASH bs)))
            (λ _ r', block_hashes r' = full_hashes hash_function NONE_HASH r0 bs ∧ memo_ok r' ∧
               ∃ m, r' = set_block_hashes (block_hashes r') (set_prompt_embeds_per_block_hashes m r0)) r0).
  { unfold update_block_hashes. wp_step. eapply wp_mono.
    - apply (hasher_ok hash_function NONE_HASH r0 bs Hbs Hs); [done| |by left].
      split; [done|]. simpl. apply Z.div_pos; unfold num_tokens; lia.
    - intros hs r2 [Hfull [Hm2 E2]]. wp_step. rewrite E2. simpl.
      split; [exact Hfull|]. split; [|by eexists].
      intros pe s e d Hpe Hd. by apply (Hm2 pe); [rewrite E2|]. }
  apply wp_elim in H as (u & r & -> & Hh & Hm & m & E). exists r, m. split; [done|].
  assert (Hr : full_hashes hash_function NONE_HASH r bs = full_hashes hash_function NONE_HASH r0 bs)
    by (rewrite E; done).
  split; [by unfold hashes_ok; rewrite Hr|done].
Qed.

(** A new request carries the hashes of all full blocks of its prompt, and
    nothing else of the arguments is changed. *)
Theorem new_request_hashes hash_function NONE_HASH (bs : Z) rid ci prio at_ pid ids embeds sp pp mm
    lora salt resum limits npt :
  0 < bs → mm_sorted (default [] mm) →
  init_limits sp pp = Ok limits → length_from_prompt_token_ids_or_embeds ids embeds = Ok npt →
  ∃ r, Request_init rid ci prio at_ pid ids embeds sp pp mm lora salt
         (Some (request_block_hasher hash_function NONE_HASH bs)) resum = Ok r ∧
    hashes_ok hash_function NONE_HASH r bs ∧ memo_ok r ∧
    all_token_ids r = default (replicate (Z.to_nat npt) 0) ids ∧
    mm_features r = default [] mm ∧ status r = limits.2 ∧ max_tokens r = limits.1.
Proof.
  intros Hbs Hs Hlim Hnpt. destruct limits as [mt st].
  destruct (request_init_spec hash_function NONE_HASH bs rid ci prio at_ pid ids embeds sp pp mm lora salt resum
    mt st npt Hbs Hs Hlim Hnpt) as (r & m & E & Hh & Hm & Er). exists r. split_and!; try done; by rewrite Er.
Qed.

(** The position, the tokens and the extra keys of equal hashes are equal. *)
Lemma equal_hash_inputs hash_function NONE_HASH (r1 r2 : Request) (bs : Z) (i j : nat) (h : bytes) :
  (∀ x y, hash_function x = hash_function y → x = y) →
  (∀ x, hash_function x ≠ []) → (∀ x, hash_function x ≠ NONE_HASH) →
  0 < bs → hashes_ok hash_function NONE_HASH r1 bs → hashes_ok hash_function NONE_HASH r2 bs →
  block_hashes r1 !! i = Some h → block_hashes r2 !! j = Some h →
  i = j ∧
  take (Z.to_nat (Z.of_nat (S i) * bs)) (all_token_ids r1) =
  take (Z.to_nat (Z.of_nat (S i) * bs)) (all_token_ids r2) ∧
  ∀ k, 0 ≤ k ≤ Z.of_nat i →
    spec_extra_keys r1 (k * bs) (k * bs + bs) = spec_extra_keys r2 (k * bs) (k * bs + bs).
Proof.
  intros Hinj Hne Hnone Hbs H1 H2 Hi Hj. rewrite H1 in Hi. rewrite H2 in Hj.
  destruct (chain_inj _ _ Hinj Hne Hnone _ _ _ _ _ Hi Hj) as [<- Hins]. split; [done|].
  assert (Hlt : ∀ r, is_Some (full_hashes hash_function NONE_HASH r bs !! i) → Z.of_nat i < num_full r bs).
  { intros r Hsome%lookup_lt_is_Some. pose proof (full_hashes_length hash_function NONE_HASH r bs Hbs). lia. }
  pose proof (Hlt r1 ltac:(by eexists)) as Hl1. pose proof (Hlt r2 ltac:(by eexists)) as Hl2.
  assert (Hblk : ∀ k, 0 ≤ k ≤ Z.of_nat i → block_input r1 bs k = block_input r2 bs k).
  { intros k Hk. specialize (Hins (Z.to_nat k) ltac:(lia)). unfold inputs_from in Hins.
    rewrite !list_lookup_fmap, !lookup_seqZ_lt in Hins by lia. simpl in Hins.
    rewrite Z2Nat.id in Hins by lia. rewrite ?Z.add_0_l in Hins.
    by apply (inj Some). }
  assert (Hcover : ∀ r, Z.of_nat i < num_full r bs → Z.of_nat (S i) * bs ≤ len (all_token_ids r)).
  { intros r Hr. unfold num_full, num_tokens in Hr.
    pose proof (Z.div_mod (len (all_token_ids r)) bs ltac:(lia)).
    pose proof (Z.mod_pos_bound (len (all_token_ids r)) bs Hbs). nia. }
  split.
  - apply slices_prefix; [done|lia|by apply Hcover|by apply Hcover|].
    intros k Hk. specialize (Hblk k ltac:(lia)). unfold block_input in Hblk. congruence.
  - intros k Hk. specialize (Hblk k Hk). unfold block_input in Hblk. congruence.
Qed.

(** ** The requests whose hashes the code computes *)

(** The attributes that the hashes are computed from, and the hashes *)
Definition hash_attributes (r : Request) :=
  (block_hashes r, all_token_ids r, mm_features r, lora_request r, cache_salt r, prompt_embeds r, prompt_embeds_per_block_hashes r).

(** A request comes from its constructor with the hasher; tokens are appended, with the
    hasher, where at most the last multi-modal input reaches into the part not hashed yet;
    other attributes change at will. *)
Inductive hashed (hash_function : bytes * list Z * option (list extra_key) → bytes) (NONE_HASH : bytes) (bs : Z) : Request → Prop :=
  | hashed_new rid ci prio at_ pid ids embeds sp pp mm lora salt resum r :
      mm_sorted (default [] mm) →
      Request_init rid ci prio at_ pid ids embeds sp pp mm lora salt
        (Some (request_block_hasher hash_function NONE_HASH bs)) resum = Ok r →
      hashed hash_function NONE_HASH bs r
  | hashed_append r toks r' :
      hashed hash_function NONE_HASH bs r → late_features_ok r bs →
      append_output_token_ids (Some (request_block_hasher hash_function NONE_HASH bs)) toks r = (Ok tt, r') →
      hashed hash_function NONE_HASH bs r'
  | hashed_other r r' :
      hashed hash_function NONE_HASH bs r → hash_attributes r' = hash_attributes r → hashed hash_function NONE_HASH bs r'.

Lemma hashed_ok hash_function NONE_HASH bs r : 0 < bs → hashed hash_function NONE_HASH bs r →
  hashes_ok hash_function NONE_HASH r bs ∧ mm_sorted (mm_features r) ∧ memo_ok r.
Proof.
  intros Hbs. induction 1 as [rid ci prio at_ pid ids embeds sp pp mm lora salt resum r Hs E|r toks r' _ (Hh & Hs & Hm) Hl E|r r' _ (Hh & Hs & Hm) E].
  - pose proof E as E0. unfold Request_init in E0. destruct (init_limits sp pp) as [[mt st]|] eqn:El; [|done].
    destruct (length_from_prompt_token_ids_or_embeds ids embeds) as [npt|] eqn:En; [|done]. clear E0.
    destruct (request_init_spec hash_function NONE_HASH bs rid ci prio at_ pid ids embeds sp pp mm lora salt resum mt st npt Hbs Hs El En)
      as (r0 & m & E0 & Hh & Hm & Er). assert (r0 = r) as -> by congruence. split_and!; [done| |done]. by rewrite Er.
  - pose proof (append_ok hash_function NONE_HASH r bs toks Hbs Hs Hm Hh Hl) as Hw. unfold wp in Hw. rewrite E in Hw.
    destruct Hw as (? & ? & _ & _ & ->). done.
  - injection E as E1 E2 E3 E4 E5 E6 E7. unfold memo_ok, hashes_ok in *. rewrite E1, E3, E6, E7. split_and!; [|done..]. rewrite Hh.
    unfold full_hashes, inputs_from, num_full, num_tokens. rewrite E2. f_equal. apply list_fmap_ext. intros _ k _.
    unfold block_input, spec_extra_keys, gen_lora_extra_hash_keys, cache_salt_keys, embeds_spec_keys. by rewrite E2, E3, E4, E5, E6.
Qed.

(** The extra keys that the code computes for the block [s, e), looking at all inputs *)
Definition block_extra_keys (r : Request) (s e : Z) : res (option (list extra_key)) :=
  ki ← (generate_block_hash_extra_keys s e 0 r).1; Ok ki.1.

Lemma block_extra_keys_ok r s e : mm_sorted (mm_features r) → s ≤ e → memo_ok r → block_extra_keys r s e = Ok (spec_extra_keys r s e).
Proof.
  intros Hs Hse Hm. unfold block_extra_keys. assert (Hi : idx_ok (mm_features r) s 0) by (right; split; [lia|simpl; lia]).
  destruct (wp_elim _ _ _ (generate_extra_keys_ok r s e 0 Hs Hse Hi Hm)) as (ki & r' & -> & Ek & _). cbn [fst mbind res_bind]. by rewrite Ek.
Qed.

(** The keys of images are told apart from the others. *)
Lemma equal_keys_equal_images r1 r2 s e : spec_extra_keys r1 s e = spec_extra_keys r2 s e →
  mm_spec_keys (mm_features r1) s e = mm_spec_keys (mm_features r2) s e.
Proof.
  unfold spec_extra_keys. set (is_mm := λ k, match k with KMM _ _ => true | _ => false end).
  assert (Hf : ∀ r, filter (λ k, is_mm k = true) (default [] (spec_extra_keys r s e)) = mm_spec_keys (mm_features r) s e).
  { intros r. replace (default [] _) with (gen_lora_extra_hash_keys r ++ mm_spec_keys (mm_features r) s e ++ cache_salt_keys r s ++ embeds_spec_keys r s e)
      by (unfold spec_extra_keys, keys_or_none; by destruct (_ ++ _)).
    rewrite !filter_app. replace (filter _ (gen_lora_extra_hash_keys r)) with (@nil extra_key)
      by (unfold gen_lora_extra_hash_keys; by destruct (lora_request r)).
    replace (filter _ (cache_salt_keys r s)) with (@nil extra_key)
      by (unfold cache_salt_keys; destruct (cache_salt r) as [x|]; [by destruct (_ && _)|done]).
    replace (filter _ (embeds_spec_keys r s e)) with (@nil extra_key) by (unfold embeds_spec_keys; by destruct (prompt_embeds r)).
    rewrite !app_nil_r. apply filter_id. intros k (f & -> & _)%list_elem_of_fmap. done. }
  intros E. rewrite <- (Hf r1), <- (Hf r2). unfold spec_extra_keys. by rewrite E.
Qed.

(** C28. Prefix caching is sound, for the hashes that the hasher computes when a request is
    constructed and tokens are appended, under a collision-free hash function: if the [i]-th
    block of one request and the [j]-th of another have the same hash, they sit at the same
    position, all tokens up to their end agree, and for every block up to them the code
    computes the same extra keys, and the same images overlap it at the same place.  The
    multi-modal inputs are sorted, and at most the last one reaches behind the hashed part
    when tokens are appended: otherwise an image can be lost ([late_block_drops_image]).
    Within the extra keys, a LoRA name and a cache salt are not told apart
    ([lora_name_collides_with_salt]). *)
Theorem equal_hash_equal_prefix hash_function NONE_HASH (r1 r2 : Request) (bs : Z) (i j : nat) (h : bytes) :
  (∀ x y, hash_function x = hash_function y → x = y) →
  (∀ x, hash_function x ≠ []) → (∀ x, hash_function x ≠ NONE_HASH) →
  0 < bs → hashed hash_function NONE_HASH bs r1 → hashed hash_function NONE_HASH bs r2 →
  block_hashes r1 !! i = Some h → block_hashes r2 !! j = Some h →
  i = j ∧
  take (Z.to_nat (Z.of_nat (S i) * bs)) (all_token_ids r1) =
  take (Z.to_nat (Z.of_nat (S i) * bs)) (all_token_ids r2) ∧
  ∀ k, 0 ≤ k ≤ Z.of_nat i →
    (∃ keys, block_extra_keys r1 (k * bs) (k * bs + bs) = Ok keys ∧ block_extra_keys r2 (k * bs) (k * bs + bs) = Ok keys) ∧
    mm_spec_keys (mm_features r1) (k * bs) (k * bs + bs) = mm_spec_keys (mm_features r2) (k * bs) (k * bs + bs).
Proof.
  intros Hinj Hne Hnone Hbs (H1 & Hs1 & Hm1)%hashed_ok (H2 & Hs2 & Hm2)%hashed_ok Hi Hj; [|done..].
  destruct (equal_hash_inputs _ _ r1 r2 bs i j h Hinj Hne Hnone Hbs H1 H2 Hi Hj) as (<- & Ht & Hk). split_and!; [done|done|].
  intros k Hki. specialize (Hk k Hki). split; [|by apply equal_keys_equal_images].
  exists (spec_extra_keys r1 (k * bs) (k * bs + bs)). rewrite !block_extra_keys_ok by (done || lia). by rewrite Hk.
Qed.

(** ** Two requests that should not share a block, and do

    A prompt of six tokens with two one-token images at positions 4 and 5, and
    a block size of 4: the second block is completed by generated tokens. *)
Section late_block.
Definition image (name : string) (off : Z) : MultiModalFeatureSpec :=
  mkFeature name (mkRange off 1 None).

Definition two_image_request (hasher : block_hasher) (first : string) : res Request :=
  Request_init "r" 0 0 0 1 (Some [1; 2; 3; 4; 9; 9]) None
    (Some (mkSampling (Some 16) false None 0 None None None)) None
    (Some [image first 4; image "B" 5]) None None (Some hasher) false.

(** The request after two generated tokens. *)
Definition two_image_after (hasher : block_hasher) (first : string) : res Request :=
  match two_image_request hasher first with
  | Raise e => Raise e
  | Ok r =>
      match append_output_token_ids (Some hasher) [7; 8] r with
      | (Ok _, r') => Ok r'
      | (Raise e, _) => Raise e
      end
  end.
End late_block.

(** The shortcut of [request_block_hasher] that looks only at the last
    multi-modal input when a block is completed by generated tokens loses the
    inputs before it: for every hash function, two requests that differ in an
    image inside that block (and in nothing else) get the same block hashes,
    although the keys of that block differ. *)
Theorem late_block_drops_image hash_function NONE_HASH :
  let hasher := request_block_hasher hash_function NONE_HASH 4 in
  ∃ ra rb, two_image_after hasher "A" = Ok ra ∧ two_image_after hasher "A'" = Ok rb ∧
    length (block_hashes ra) = 2%nat ∧ block_hashes ra = block_hashes rb ∧
    spec_extra_keys ra 4 8 ≠ spec_extra_keys rb 4 8.
Proof. simpl. eexists _, _. split; [reflexivity|]. split; [reflexivity|]. by vm_compute. Qed.

(** A LoRA name and a cache salt are both plain strings in the tuple of
    extra keys: for every hash function, a request for the LoRA adapter [name]
    and a request of the base model whose cache salt is [name] get the same hash
    for their first block. *)
Theorem lora_name_collides_with_salt hash_function NONE_HASH (name : string) (id : Z) :
  let hasher := request_block_hasher hash_function NONE_HASH 4 in
  let req lora salt :=
    Request_init "r" 0 0 0 1 (Some [1; 2; 3; 4]) None
      (Some (mkSampling (Some 16) false None 0 None None None)) None None lora salt (Some hasher) false in
  name ≠ ""%string →
  ∃ ra rb, req (Some (mkLoRA name id)) None = Ok ra ∧ req None (Some name) = Ok rb ∧
    length (block_hashes ra) = 1%nat ∧ block_hashes ra = block_hashes rb.
Proof.
  simpl. intros Hname. eexists _, _. split; [reflexivity|]. split; [reflexivity|].
  split; [reflexivity|]. simpl. unfold cache_salt_keys. simpl.
  by rewrite (proj2 (String.eqb_neq _ _) Hname).
Qed.

(** ** Granularity conversion *)
Import BlockHashListWithBlockSize.

Lemma concat_inj_same_length (xs ys : list bytes) d :
  (∀ x, x ∈ xs → length x = d) → (∀ y, y ∈ ys → length y = d) →
  length xs = length ys → concat xs = concat ys → xs = ys.
Proof.
  revert ys. induction xs as [|x xs IH]; intros [|y ys] Hx Hy Hlen Hc; try done.
  simpl in Hc. apply app_inj_1 in Hc as [-> Hc].
  - f_equal. apply IH; [set_solver|set_solver|by injection Hlen|done].
  - rewrite (Hx x), (Hy y); set_solver.
Qed.

(** C36. Block hashes at a coarser granularity: the list has one entry per full
    group of [target / hash] hashes, and with digests of one length two entries
    are equal only when all the hashes they are made of are equal. *)
Theorem coarse_hash_determines_fine (hs1 hs2 : list bytes) (hbs tbs : Z) (d : nat) (l1 l2 : t) (i : Z) :
  0 < hbs → 0 < tbs →
  init hs1 hbs tbs = Ok l1 → init hs2 hbs tbs = Ok l2 →
  (∀ h, h ∈ hs1 ∨ h ∈ hs2 → length h = d) →
  0 ≤ i < length_ l1 → 0 ≤ i < length_ l2 →
  get_value_at l1 i = get_value_at l2 i →
  length_ l1 = len hs1 * hbs / tbs ∧
  let n := tbs / hbs in py_slice hs1 (i * n) (i * n + n) = py_slice hs2 (i * n) (i * n + n).
Proof.
  intros Hh Ht H1 H2 Hd Hi1 Hi2 Hv. unfold init in H1, H2.
  destruct (Z.eqb_spec (tbs mod hbs) 0) as [Hm|]; [|done]. simplify_eq.
  apply Z.mod_divide in Hm as [n Hn]; [|lia]. subst tbs.
  assert (0 < n) by nia. unfold length_, get_value_at in *. simpl in *.
  rewrite Z.div_mul in * by lia.
  assert (Hlen : ∀ (l : list bytes), 0 ≤ i < len l / n →
            length (py_slice l (i * n) (i * n + n)) = Z.to_nat n).
  { intros l Hl. unfold py_slice. rewrite length_take, length_drop.
    pose proof (Z.div_mod (len l) n ltac:(lia)). pose proof (Z.mod_pos_bound (len l) n ltac:(lia)).
    assert ((i + 1) * n ≤ len l) by nia. lia. }
  split.
  - rewrite Z.div_mul_cancel_r by lia. done.
  - apply (concat_inj_same_length _ _ d); [| |by rewrite !Hlen|done].
    + intros h Hin. apply Hd. left. by eapply py_slice_subset.
    + intros h Hin. apply Hd. right. by eapply py_slice_subset.
Qed.

(** ** Witnesses *)
#[global] Instance extra_key_countable : Countable extra_key.
Proof.
  refine (inj_countable'
    (λ k, match k with KStr s => inl (inl s) | KMM i o => inl (inr (i, o)) | KBytes b => inr b end)
    (λ x, match x with inl (inl s) => KStr s | inl (inr (i, o)) => KMM i o | inr b => KBytes b end) _).
  by intros [].
Defined.

(** A collision-free hash function: the serialised input itself. *)
Definition demo_hash (x : bytes * list Z * option (list extra_key)) : bytes := [Zpos (encode x)].
Definition demo_none : bytes := [0].

Lemma demo_hash_inj x y : demo_hash x = demo_hash y → x = y.
Proof. unfold demo_hash. intros [= H]. by apply encode_inj in H. Qed.

Definition demo_request : Request :=
  mkRequest "r" 0 0 0 1 RUNNING 16 false (Some [1; 2; 3; 4; 5]) None ∅ 5 [] [1; 2; 3; 4; 5]
    0 [] 0 None [] None false 0 (full_hashes demo_hash demo_none
      (mkRequest "r" 0 0 0 1 RUNNING 16 false (Some [1; 2; 3; 4; 5]) None ∅ 5 [] [1; 2; 3; 4; 5]
        0 [] 0 None [] None false 0 [] false false (new_ext None None)) 2) false false (new_ext None None).

Lemma append_keeps_hashes_witness :
  wp (append_output_token_ids (Some (request_block_hasher demo_hash demo_none 2)) [6; 7; 8])
    (λ _ r', hashes_ok demo_hash demo_none r' 2 ∧ memo_ok r' ∧
       all_token_ids r' = [1; 2; 3; 4; 5; 6; 7; 8] ∧ output_token_ids r' = [6; 7; 8]) demo_request.
Proof.
  apply (append_keeps_hashes demo_hash demo_none demo_request 2 [6; 7; 8]).
  - lia.
  - split; [set_solver|]. intros i j f g _ Hf. done.
  - intros pe s e d Hpe. done.
  - reflexivity.
  - right. by left.
Defined.

Lemma new_request_hashes_witness :
  ∃ r, Request_init "r" 0 0 0 1 (Some [1; 2; 3; 4; 5]) None
         (Some (mkSampling (Some 16) false None 0 None None None)) None None None None
         (Some (request_block_hasher demo_hash demo_none 2)) false = Ok r ∧
    hashes_ok demo_hash demo_none r 2 ∧ memo_ok r ∧ all_token_ids r = [1; 2; 3; 4; 5] ∧
    mm_features r = [] ∧ status r = WAITING ∧ max_tokens r = 16.
Proof.
  apply (new_request_hashes demo_hash demo_none 2 "r" 0 0 0 1 (Some [1; 2; 3; 4; 5]) None
    (Some (mkSampling (Some 16) false None 0 None None None)) None None None None false (16, WAITING) 5).
  - lia.
  - split; [set_solver|]. intros i j f g _ Hf. done.
  - reflexivity.
  - reflexivity.
Defined.

(** Two requests with an image, one that has generated tokens *)
Definition demo_sampling : option SamplingParams := Some (mkSampling (Some 16) false None 0 None None None).
Definition demo_new (ids : list Z) : res Request :=
  Request_init "r" 0 0 0 1 (Some ids) None demo_sampling None (Some [image "A" 1]) None None (Some (request_block_hasher demo_hash demo_none 2)) false.
Definition demo_long : Request := default demo_request (match demo_new [1; 9; 3; 4; 5] with Ok r => Some r | Raise _ => None end).
Definition demo_short : Request := default demo_request (match demo_new [1; 9; 3] with Ok r => Some r | Raise _ => None end).
Definition demo_grown : Request := (append_output_token_ids (Some (request_block_hasher demo_hash demo_none 2)) [4; 7] demo_short).2.

Lemma equal_hash_equal_prefix_witness :
  1%nat = 1%nat ∧ take 4 (all_token_ids demo_long) = take 4 (all_token_ids demo_grown) ∧
  ∀ k, 0 ≤ k ≤ 1 →
    (∃ keys, block_extra_keys demo_long (k * 2) (k * 2 + 2) = Ok keys ∧ block_extra_keys demo_grown (k * 2) (k * 2 + 2) = Ok keys) ∧
    mm_spec_keys (mm_features demo_long) (k * 2) (k * 2 + 2) = mm_spec_keys (mm_features demo_grown) (k * 2) (k * 2 + 2).
Proof.
  assert (Hmm : mm_sorted [image "A" 1]).
  { split; [by intros f ->%list_elem_of_singleton|]. intros [|i] [|j] f g Hij Hf Hg; [lia|done..]. }
  assert (Hl : hashed demo_hash demo_none 2 demo_long).
  { apply (hashed_new demo_hash demo_none 2 "r" 0 0 0 1 (Some [1; 9; 3; 4; 5]) None demo_sampling None (Some [image "A" 1]) None None false); [exact Hmm|].
    vm_compute. reflexivity. }
  assert (Hs : hashed demo_hash demo_none 2 demo_short).
  { apply (hashed_new demo_hash demo_none 2 "r" 0 0 0 1 (Some [1; 9; 3]) None demo_sampling None (Some [image "A" 1]) None None false); [exact Hmm|].
    vm_compute. reflexivity. }
  assert (Hg : hashed demo_hash demo_none 2 demo_grown).
  { apply (hashed_append _ _ _ demo_short [4; 7]); [exact Hs| |vm_compute; reflexivity].
    right. right. split; [vm_compute; discriminate|]. intros j f Hj. change (Z.of_nat j < 0) in Hj. lia. }
  destruct (block_hashes demo_long !! 1%nat) as [h|] eqn:E; [|exfalso; by vm_compute in E].
  apply (equal_hash_equal_prefix demo_hash demo_none demo_long demo_grown 2 1 1 h);
    [apply demo_hash_inj|done|done|lia|exact Hl|exact Hg|exact E|rewrite <- E; vm_compute; reflexivity].
Defined.

Lemma lora_name_collides_with_salt_witness :
  let hasher := request_block_hasher demo_hash demo_none 4 in
  let req lora salt :=
    Request_init "r" 0 0 0 1 (Some [1; 2; 3; 4]) None
      (Some (mkSampling (Some 16) false None 0 None None None)) None None lora salt (Some hasher) false in
  ∃ ra rb, req (Some (mkLoRA "tenant" 7)) None = Ok ra ∧ req None (Some "tenant"%string) = Ok rb ∧
    length (block_hashes ra) = 1%nat ∧ block_hashes ra = block_hashes rb.
Proof. apply (lora_name_collides_with_salt demo_hash demo_none "tenant" 7). done. Defined.

Lemma coarse_hash_determines_fine_witness :
  2 = len [[1]; [2]; [3]; [4]; [5]] * 16 / 32 ∧
  py_slice [[1]; [2]; [3]; [4]; [5]] 2 4 = py_slice [[0]; [2]; [3]; [4]] 2 4.
Proof.
  apply (coarse_hash_determines_fine [[1]; [2]; [3]; [4]; [5]] [[0]; [2]; [3]; [4]] 16 32 1
    (mk [[1]; [2]; [3]; [4]; [5]] 2) (mk [[0]; [2]; [3]; [4]] 2) 1);
    [lia|lia|reflexivity|reflexivity| | | |reflexivity].
  - intros h. rewrite !elem_of_cons, !elem_of_nil. naive_solver.
  - vm_compute. done.
  - vm_compute. done.
Defined.
