(* ===== verification/BlockPool.v ===== *)
(** * The block pool

    [BlockHashToBlockMap] and [BlockPool] of [vllm/v1/core/block_pool.py]: the
    table of the prefix cache and the allocator of KV-cache blocks.  The pool
    owns the store of block objects and the free queue ([FreeQueue]).  The
    invariant [pool_inv] ties the reference counts, the free queue and the
    cache table together, and every operation keeps it.

    The optional metrics collector observes the pool and does not influence it;
    it is taken to be absent. *)
From S2P Require Import Prelude FreeQueue Request BlockHash.

(** ** The table of the prefix cache

    A Python [dict] keeps insertion order: an association list whose keys are
    distinct, where storing to an existing key keeps its position. *)
Section dict.
Context {K V : Type} `{EqDecision K}.

Fixpoint dict_set (k : K) (v : V) (d : list (K * V)) : list (K * V) :=
  match d with
  | [] => [(k, v)]
  | (k', v') :: d' => if decide (k' = k) then (k, v) :: d' else (k', v') :: dict_set k v d'
  end.

Fixpoint dict_get (k : K) (d : list (K * V)) : option V :=
  match d with
  | [] => None
  | (k', v') :: d' => if decide (k' = k) then Some v' else dict_get k d'
  end.

Definition dict_del (k : K) (d : list (K * V)) : list (K * V) := filter (λ kv, kv.1 ≠ k) d.
End dict.

(** [KVCacheBlock | dict[int, KVCacheBlock]] *)
Inductive cache_entry := ESingle (b : loc) | EDict (d : list (Z * loc)).

Module BlockHashToBlockMap.

Abbreviation t := (gmap bytes cache_entry).

Definition get_one_block (c : t) (key : bytes) : option loc :=
  match c !! key with
  | None => None
  | Some (ESingle b) => Some b
  | Some (EDict d) => snd <$> head d
  end.

(** [id_of] reads the [block_id] of a block object. *)
Definition insert (id_of : loc → Z) (c : t) (key : bytes) (b : loc) : t :=
  match c !! key with
  | None => <[key := ESingle b]> c
  | Some (ESingle b0) => <[key := EDict (dict_set (id_of b) b [(id_of b0, b0)])]> c
  | Some (EDict d) => <[key := EDict (dict_set (id_of b) b d)]> c
  end.

(** Returns the popped block (if any) and the new table. *)
Definition pop (id_of : loc → Z) (c : t) (key : bytes) (block_id : Z) : option loc * t :=
  let c' := delete key c in
  match c !! key with
  | None => (None, c')
  | Some (ESingle b) => if id_of b =? block_id then (Some b, c') else (None, <[key := ESingle b]> c')
  | Some (EDict d) =>
      let d' := dict_del block_id d in
      (dict_get block_id d, if decide (0 < length d')%nat then <[key := EDict d']> c' else c')
  end.

End BlockHashToBlockMap.

(** ** Events *)
Inductive KVCacheEvent :=
  | BlockStored (hashes : list ExternalBlockHash) (parent : option ExternalBlockHash)
      (token_ids : list Z) (bs : Z) (lora_id : option Z) (lora_nm : option string)
      (extra_keys : option (list (option (list extra_key)))) (group_idx : Z)
  | BlockRemoved (hashes : list ExternalBlockHash) (group_idx : Z)
  | AllBlocksCleared.

(** ** The pool *)
Record BlockPool := mkPool {
  num_gpu_blocks : Z;
  enable_caching : bool;
  hash_block_size : Z;
  pool_queue : queue_state;                 (* the store and the free queue *)
  cached_block_hash_to_block : gmap bytes cache_entry;
  null_block : loc;
  enable_kv_cache_events : bool;
  use_int_hashes : bool;                    (* the environment's flag *)
  kv_event_queue : list KVCacheEvent;
}.

Definition p_set_queue (v : queue_state) (p : BlockPool) : BlockPool :=
  mkPool (num_gpu_blocks p) (enable_caching p) (hash_block_size p) v
    (cached_block_hash_to_block p) (null_block p) (enable_kv_cache_events p)
    (use_int_hashes p) (kv_event_queue p).
Definition p_set_cache (v : gmap bytes cache_entry) (p : BlockPool) : BlockPool :=
  mkPool (num_gpu_blocks p) (enable_caching p) (hash_block_size p) (pool_queue p) v
    (null_block p) (enable_kv_cache_events p) (use_int_hashes p) (kv_event_queue p).
Definition p_set_events (v : list KVCacheEvent) (p : BlockPool) : BlockPool :=
  mkPool (num_gpu_blocks p) (enable_caching p) (hash_block_size p) (pool_queue p)
    (cached_block_hash_to_block p) (null_block p) (enable_kv_cache_events p)
    (use_int_hashes p) v.

Definition pool_heap (p : BlockPool) : heap := q_heap (pool_queue p).
Definition p_set_heap (h : heap) (p : BlockPool) : BlockPool :=
  p_set_queue (q_set_heap h (pool_queue p)) p.

(** An operation of the free queue, run in the pool. *)
Definition on_queue {A} (m : M queue_state A) : M BlockPool A := zoom pool_queue p_set_queue m.

(** Reading and changing a block object. *)
Definition read_block (l : loc) : M BlockPool KVCacheBlock :=
  p ← get; of_opt AttributeError (pool_heap p !! l).
Definition update_block (f : KVCacheBlock → KVCacheBlock) (l : loc) : M BlockPool () :=
  modify (λ p, p_set_heap (alter f l (pool_heap p)) p).

Definition id_of (h : heap) (l : loc) : Z := match h !! l with Some b => block_id b | None => -1 end.

Module Pool.

(** [BlockPool(...)]: the blocks, the queue over all of them, and the null
    block taken from its front. *)
Definition init (n : Z) (caching : bool) (hbs : Z) (events use_int : bool) : res BlockPool :=
  if 0 <? n then
    let h := fresh_heap (Z.to_nat n) in
    let q := FreeKVCacheBlockQueue.init h (seq 0 (Z.to_nat n)) in
    match FreeKVCacheBlockQueue.popleft q with
    | (Ok nb, q') =>
        Ok (mkPool n caching hbs (q_set_heap (alter (set_is_null true) nb (q_heap q')) q')
              ∅ nb events use_int [])
    | (Raise e, _) => Raise e
    end
  else Raise AssertionError.

Definition get_num_free_blocks : M BlockPool Z := gets (λ p, num_free_blocks (pool_queue p)).

(** Returns [None] on a miss in any group; an overflowing group id raises. *)
Fixpoint get_cached_block (c : gmap bytes cache_entry) (block_hash : bytes) (group_ids : list Z)
    : res (option (list loc)) :=
  match group_ids with
  | [] => Ok (Some [])
  | g :: gs =>
      match make_block_hash_with_group_id block_hash g with
      | Raise e => Raise e
      | Ok key =>
          match BlockHashToBlockMap.get_one_block c key with
          | None => Ok None
          | Some b =>
              match get_cached_block c block_hash gs with
              | Ok (Some bs) => Ok (Some (b :: bs))
              | r => r
              end
          end
      end
  end.

Definition maybe_evict_cached_block (b : loc) : M BlockPool bool :=
  blk ← read_block b;
  match block_hash blk with
  | None => mret false
  | Some key =>
      p ← get;
      let '(popped, c') :=
        BlockHashToBlockMap.pop (id_of (pool_heap p)) (cached_block_hash_to_block p) key (block_id blk) in
      _ ← modify (p_set_cache c');
      match popped with
      | None => mret false
      | Some _ =>
          _ ← update_block (set_hash None) b;
          _ ← (if enable_kv_cache_events p
               then modify (λ p, p_set_events (kv_event_queue p ++
                      [BlockRemoved [maybe_convert_block_hash (use_int_hashes p) (get_block_hash key)]
                         (get_group_id key)]) p)
               else mret tt);
          mret true
      end
  end.

Definition get_new_blocks (num_blocks : Z) : M BlockPool (list loc) :=
  free ← get_num_free_blocks;
  if free <? num_blocks then raise ValueError
  else
    ret ← on_queue (FreeKVCacheBlockQueue.popleft_n num_blocks);
    p ← get;
    _ ← (if enable_caching p
         then for_each ret (λ b,
                _ ← maybe_evict_cached_block b;
                blk ← read_block b;
                _ ← massert (ref_cnt blk =? 0);
                update_block (λ x, set_ref_cnt (ref_cnt x + 1) x) b)
         else for_each ret (λ b,
                blk ← read_block b;
                _ ← massert (ref_cnt blk =? 0);
                update_block (λ x, set_ref_cnt (ref_cnt x + 1) x) b));
    mret ret.

Definition touch (blocks : list loc) : M BlockPool () :=
  for_each blocks (λ b,
    blk ← read_block b;
    _ ← (if (ref_cnt blk =? 0) && negb (is_null blk)
         then on_queue (FreeKVCacheBlockQueue.remove b) else mret tt);
    update_block (λ x, set_ref_cnt (ref_cnt x + 1) x) b).

(** [block.ref_cnt == 0 and not block.is_null] *)
Definition is_freed (h : heap) (b : loc) : bool :=
  match h !! b with
  | Some blk => (ref_cnt blk =? 0) && negb (is_null blk)
  | None => false
  end.

Definition freed_of (h : heap) (l : list loc) : list loc := filter (λ b, is_freed h b = true) l.

Definition free_blocks (ordered_blocks : list loc) (prepend : bool) : M BlockPool () :=
  _ ← for_each ordered_blocks (update_block (λ x, set_ref_cnt (ref_cnt x - 1) x));
  p ← get;
  let freed_blocks := freed_of (pool_heap p) ordered_blocks in
  if prepend then on_queue (FreeKVCacheBlockQueue.prepend_n freed_blocks)
  else on_queue (FreeKVCacheBlockQueue.append_n freed_blocks).

(** [block_mask is not None and not block_mask[i]] *)
Definition masked_out (block_mask : option (list bool)) (i : nat) : bool :=
  match block_mask with
  | Some m => negb (default true (m !! i))
  | None => false
  end.

(** Sets the hash of the block and adds the block to the table. *)
Definition cache_block (key : bytes) (b : loc) : M BlockPool () :=
  _ ← update_block (set_hash (Some key)) b;
  modify (λ p, p_set_cache (BlockHashToBlockMap.insert (id_of (pool_heap p))
                              (cached_block_hash_to_block p) key b) p).

(** The loop of [cache_full_blocks] over the new full blocks; [i] is the
    position of the first of [blks] in them.  Returns the hashes for the event. *)
Fixpoint cache_loop (new_block_hashes : list bytes) (block_mask : option (list bool))
    (group_id : Z) (i : nat) (blks : list loc) : M BlockPool (list ExternalBlockHash) :=
  match blks with
  | [] => mret []
  | b :: blks' =>
      blk ← read_block b;
      if is_null blk || masked_out block_mask i
      then cache_loop new_block_hashes block_mask group_id (S i) blks'
      else
        _ ← massert (match block_hash blk with None => true | Some _ => false end);
        h ← of_opt IndexError (new_block_hashes !! i);
        key ← of_res (make_block_hash_with_group_id h group_id);
        _ ← cache_block key b;
        p ← get;
        hs ← cache_loop new_block_hashes block_mask group_id (S i) blks';
        mret (maybe_convert_block_hash (use_int_hashes p) h :: hs)
  end.

(** The extra keys of the blocks stored, for the event; reads the null flags
    of the blocks, and may fill the memo of the request. *)
Fixpoint event_keys (h : heap) (blocks : list loc) (block_mask : option (list bool))
    (num_cached_blocks block_size : Z) (idxs : list Z) (curr_mm_idx : Z)
    : M Request (list (option (list extra_key))) :=
  match idxs with
  | [] => mret []
  | i :: idxs' =>
      b ← of_opt IndexError (blocks !! Z.to_nat i);
      blk ← of_opt AttributeError (h !! b);
      if is_null blk || masked_out block_mask (Z.to_nat (i - num_cached_blocks))
      then event_keys h blocks block_mask num_cached_blocks block_size idxs' curr_mm_idx
      else
        '(extra, mm_idx) ← generate_block_hash_extra_keys (i * block_size) (i * block_size + block_size) curr_mm_idx;
        ks ← event_keys h blocks block_mask num_cached_blocks block_size idxs' mm_idx;
        mret (extra :: ks)
  end.

(** The block hashes of the request at the granularity of the group:
    [block_hashes[num_cached_blocks:]] and [block_hashes[num_cached_blocks - 1]]. *)
Definition hashes_at (hashes : list bytes) (hbs bs num_cached_blocks : Z)
    : res (list bytes * option bytes) :=
  if bs =? hbs
  then Ok (py_from hashes num_cached_blocks,
           if num_cached_blocks =? 0 then None else hashes !! Z.to_nat (num_cached_blocks - 1))
  else
    match BlockHashListWithBlockSize.init hashes hbs bs with
    | Raise e => Raise e
    | Ok l => Ok (BlockHashListWithBlockSize.from_ l num_cached_blocks,
                  if num_cached_blocks =? 0 then None
                  else Some (BlockHashListWithBlockSize.get_value_at l (num_cached_blocks - 1)))
    end.

(** Caches the full blocks; returns the request (its memo may be filled). *)
Definition cache_full_blocks (request : Request) (blocks : list loc)
    (num_cached_blocks num_full_blocks block_size kv_cache_group_id : Z)
    (block_mask : option (list bool)) : M BlockPool Request :=
  if num_full_blocks <=? num_cached_blocks then mret request
  else
    let new_full_blocks := py_slice blocks num_cached_blocks num_full_blocks in
    _ ← massert (num_full_blocks <=? len (block_hashes request));
    _ ← massert (match block_mask with None => true | Some m => len m =? len new_full_blocks end);
    p ← get;
    '(new_block_hashes, parent) ←
      of_res (hashes_at (block_hashes request) (hash_block_size p) block_size num_cached_blocks);
    new_hashes ← cache_loop new_block_hashes block_mask kv_cache_group_id 0 new_full_blocks;
    p ← get;
    if negb (enable_kv_cache_events p) then mret request
    else
      let '(rk, request') :=
        event_keys (pool_heap p) blocks block_mask num_cached_blocks block_size
          (py_range num_cached_blocks num_full_blocks) 0 request in
      keys ← of_res rk;
      _ ← modify (λ p, p_set_events (kv_event_queue p ++
        [BlockStored new_hashes (maybe_convert_block_hash (use_int_hashes p) <$> parent)
           (py_slice (all_token_ids request) (num_cached_blocks * block_size) (num_full_blocks * block_size))
           block_size (adapter_id <$> lora_request request) (lora_name <$> lora_request request)
           (match keys with [] => None | _ => Some keys end) kv_cache_group_id]) p);
      mret request'.

Definition evict_blocks (block_ids : list loc) : M BlockPool () :=
  for_each block_ids (λ b,
    p ← get;
    _ ← massert (Z.of_nat b <? num_gpu_blocks p);
    _ ← maybe_evict_cached_block b;
    mret tt).

Definition reset_prefix_cache : M BlockPool bool :=
  p ← get;
  let num_used_blocks := num_gpu_blocks p - num_free_blocks (pool_queue p) in
  if negb (num_used_blocks =? 1) then mret false
  else
    _ ← modify (p_set_cache ∅);
    _ ← for_each (seq 0 (Z.to_nat (num_gpu_blocks p))) (update_block (set_hash None));
    _ ← (if enable_kv_cache_events p
         then modify (λ p, p_set_events (kv_event_queue p ++ [AllBlocksCleared]) p)
         else mret tt);
    mret true.

Definition take_events : M BlockPool (list KVCacheEvent) :=
  p ← get;
  if negb (enable_kv_cache_events p) then mret []
  else _ ← modify (p_set_events []); mret (kv_event_queue p).

(** The usage as a fraction: (numerator, denominator) of
    [1.0 - free / total], [(0, 1)] when there is no usable block. *)
Definition get_usage (p : BlockPool) : Z * Z :=
  let total_gpu_blocks := num_gpu_blocks p - 1 in
  if total_gpu_blocks =? 0 then (0, 1)
  else (total_gpu_blocks - num_free_blocks (pool_queue p), total_gpu_blocks).

End Pool.

(** ** Attributes of blocks *)
Definition ref_of (h : heap) (b : loc) : Z := from_option ref_cnt 0 (h !! b).
Definition hash_of (h : heap) (b : loc) : option bytes := h !! b ≫= block_hash.
Definition null_of (h : heap) (b : loc) : bool := from_option is_null false (h !! b).

Lemma id_of_option h b : id_of h b = from_option block_id (-1) (h !! b).
Proof. unfold id_of. by destruct (h !! b). Qed.
Lemma hash_of_option h b : hash_of h b = from_option block_hash None (h !! b).
Proof. unfold hash_of. by destruct (h !! b). Qed.

(** They do not depend on the links. *)
Lemma heap_sim_attr {A} (g : KVCacheBlock → A) (d : A) h h' b :
  (∀ x y, meta x = meta y → g x = g y) → heap_sim h h' →
  from_option g d (h !! b) = from_option g d (h' !! b).
Proof.
  intros Hg Hs. destruct (h !! b) as [x|] eqn:E.
  - destruct (heap_sim_lookup _ _ _ _ Hs E) as (y & -> & Hm). symmetry. by apply Hg.
  - apply lookup_ge_None in E. rewrite (heap_sim_length _ _ Hs) in E.
    apply lookup_ge_None in E. by rewrite E.
Qed.

Ltac solve_attr_proper := intros h h' Hs b ? <-; rewrite ?id_of_option, ?hash_of_option;
  apply heap_sim_attr; [unfold meta; congruence|done].

#[export] Instance ref_of_proper : Proper (heap_sim ==> eq ==> eq) ref_of.
Proof. solve_attr_proper. Qed.
#[export] Instance hash_of_proper : Proper (heap_sim ==> eq ==> eq) hash_of.
Proof. solve_attr_proper. Qed.
#[export] Instance null_of_proper : Proper (heap_sim ==> eq ==> eq) null_of.
Proof. solve_attr_proper. Qed.
#[export] Instance id_of_proper : Proper (heap_sim ==> eq ==> eq) id_of.
Proof. solve_attr_proper. Qed.

(** Reading an attribute after a block object was changed. *)
Section attributes.
Context (h : heap) (f : KVCacheBlock → KVCacheBlock) (a : loc).

Lemma attr_alter {A} (g : KVCacheBlock → A) (d : A) c :
  from_option g d (alter f a h !! c) =
  if decide (a = c) then from_option (g ∘ f) d (h !! c) else from_option g d (h !! c).
Proof.
  rewrite list_lookup_alter. case_decide; [subst a|done]. by destruct (h !! c).
Qed.

Lemma attr_alter_same {A} (g : KVCacheBlock → A) (d : A) c :
  (∀ x, g (f x) = g x) →
  from_option g d (alter f a h !! c) = from_option g d (h !! c).
Proof.
  intros Hg. rewrite attr_alter. case_decide; [|done]. destruct (h !! c); simpl; auto.
Qed.
End attributes.

Section attr_lemmas.
Implicit Types (h : heap) (a b : loc).

Lemma ref_of_add_ref h a d b :
  (a < length h)%nat →
  ref_of (alter (λ x, set_ref_cnt (ref_cnt x + d) x) a h) b
  = ref_of h b + (if decide (a = b) then d else 0).
Proof.
  intros [x Hx]%lookup_lt_is_Some. unfold ref_of. rewrite attr_alter.
  case_decide; [subst b; by rewrite Hx|lia].
Qed.
Lemma ref_of_set_hash h a v b : ref_of (alter (set_hash v) a h) b = ref_of h b.
Proof. by apply attr_alter_same. Qed.
Lemma hash_of_add_ref h a d b :
  hash_of (alter (λ x, set_ref_cnt (ref_cnt x + d) x) a h) b = hash_of h b.
Proof. rewrite !hash_of_option. by apply attr_alter_same. Qed.
Lemma hash_of_set_hash h a v b :
  (a < length h)%nat → hash_of (alter (set_hash v) a h) b = if decide (a = b) then v else hash_of h b.
Proof.
  intros [x Hx]%lookup_lt_is_Some. rewrite !hash_of_option, attr_alter.
  case_decide; [subst b; by rewrite Hx|done].
Qed.
Lemma null_of_add_ref h a d b :
  null_of (alter (λ x, set_ref_cnt (ref_cnt x + d) x) a h) b = null_of h b.
Proof. by apply attr_alter_same. Qed.
Lemma null_of_set_hash h a v b : null_of (alter (set_hash v) a h) b = null_of h b.
Proof. by apply attr_alter_same. Qed.
Lemma id_of_add_ref h a d b :
  id_of (alter (λ x, set_ref_cnt (ref_cnt x + d) x) a h) b = id_of h b.
Proof. rewrite !id_of_option. by apply attr_alter_same. Qed.
Lemma id_of_set_hash h a v b : id_of (alter (set_hash v) a h) b = id_of h b.
Proof. rewrite !id_of_option. by apply attr_alter_same. Qed.
End attr_lemmas.

Create Rewrite HintDb attr.
#[export] Hint Rewrite ref_of_set_hash hash_of_add_ref null_of_add_ref null_of_set_hash
  id_of_add_ref id_of_set_hash @length_alter : attr.

(** Changing an attribute other than the links keeps the queue. *)
Lemma queue_rep_alter q l f b :
  (∀ x, prev_free_block (f x) = prev_free_block x ∧ next_free_block (f x) = next_free_block x) →
  queue_rep q l → queue_rep (q_set_heap (alter f b (q_heap q)) q) l.
Proof.
  intros Hf [Hl Hd Hn Hh Ht Hu].
  assert (En : ∀ a, next_of (alter f b (q_heap q)) a = next_of (q_heap q) a).
  { intros a. unfold next_of. rewrite list_lookup_alter. case_decide; [subst b|done].
    destruct (q_heap q !! a); [simpl; apply Hf|done]. }
  assert (Ep : ∀ a, prev_of (alter f b (q_heap q)) a = prev_of (q_heap q) a).
  { intros a. unfold prev_of. rewrite list_lookup_alter. case_decide; [subst b|done].
    destruct (q_heap q !! a); [simpl; apply Hf|done]. }
  split; try done; cbn [q_heap q_set_heap fake_free_list_head fake_free_list_tail].
  - apply (links_frame (q_heap q)); [done|intros; apply En|intros; apply Ep].
  - by rewrite Ep.
  - by rewrite En.
  - intros a Ha. rewrite En, Ep. by apply Hu.
Qed.

(** ** Entries of the table *)
Definition entry_blocks (e : option cache_entry) : list loc :=
  match e with
  | None => []
  | Some (ESingle b) => [b]
  | Some (EDict d) => snd <$> d
  end.

Definition entry_wf (e : cache_entry) : Prop :=
  match e with
  | ESingle _ => True
  | EDict d => d ≠ [] ∧ NoDup (fst <$> d) ∧ ∀ i b, (i, b) ∈ d → i = Z.of_nat b
  end.

Section dict_lemmas.
Context {K V : Type} `{EqDecision K}.
Implicit Types (d : list (K * V)).

Lemma dict_set_elem k v d k' v' :
  NoDup (fst <$> d) →
  (k', v') ∈ dict_set k v d ↔ (k' = k ∧ v' = v) ∨ (k' ≠ k ∧ (k', v') ∈ d).
Proof.
  induction d as [|[k0 v0] d IH]; simpl; intros Hd.
  - rewrite list_elem_of_singleton, elem_of_nil. naive_solver.
  - apply NoDup_cons in Hd as [Hk0 Hd]. case_decide as E.
    + subst k0. rewrite !elem_of_cons. split; [|naive_solver].
      intros [|Hin]; [naive_solver|]. destruct (decide (k' = k)) as [->|]; [|naive_solver].
      destruct Hk0. apply list_elem_of_fmap. by exists (k, v').
    + rewrite !elem_of_cons, IH by done. naive_solver.
Qed.

Lemma dict_set_fst k v d x : x ∈ (dict_set k v d).*1 ↔ x = k ∨ x ∈ d.*1.
Proof.
  induction d as [|[k0 v0] d IH]; simpl; [set_solver|]. case_decide; set_solver.
Qed.

Lemma dict_set_NoDup k v d : NoDup (fst <$> d) → NoDup (fst <$> dict_set k v d).
Proof.
  induction d as [|[k0 v0] d IH]; simpl; intros Hd.
  - apply NoDup_singleton.
  - apply NoDup_cons in Hd as [Hk0 Hd]. case_decide as E; simpl.
    + subst k0. by apply NoDup_cons.
    + apply NoDup_cons. split; [|by apply IH]. rewrite dict_set_fst. naive_solver.
Qed.

Lemma dict_set_fresh k v d : k ∉ d.*1 → dict_set k v d = d ++ [(k, v)].
Proof.
  induction d as [|[k' v'] d IH]; simpl; [done|]. intros Hk. apply not_elem_of_cons in Hk as [Hne Hk].
  rewrite decide_False by congruence. by rewrite IH.
Qed.

Lemma dict_set_ne k v d : dict_set k v d ≠ [].
Proof. destruct d as [|[k0 v0] d]; simpl; [done|]. by case_decide. Qed.

Lemma dict_get_elem k d v :
  NoDup (fst <$> d) → dict_get k d = Some v ↔ (k, v) ∈ d.
Proof.
  induction d as [|[k0 v0] d IH]; simpl; intros Hd; [set_solver|].
  apply NoDup_cons in Hd as [Hk0 Hd]. rewrite elem_of_cons. case_decide as E.
  - subst k0. split; [naive_solver|]. intros [|Hin]; [naive_solver|].
    destruct Hk0. apply list_elem_of_fmap. by exists (k, v).
  - rewrite IH by done. naive_solver.
Qed.
End dict_lemmas.

(** ** The table as a relation between keys and blocks *)
Definition table_wf (c : gmap bytes cache_entry) : Prop :=
  ∀ key e, c !! key = Some e → entry_wf e.

Section table.
Context (id : loc → Z).
Implicit Types (c : gmap bytes cache_entry) (key : bytes) (b x : loc).

Lemma entry_dict_elem d x : entry_wf (EDict d) → x ∈ snd <$> d ↔ (Z.of_nat x, x) ∈ d.
Proof.
  intros (_ & _ & Hid). rewrite list_elem_of_fmap. split.
  - intros ([i y] & -> & Hin). simpl. by rewrite <- (Hid i y Hin).
  - intros Hin. by exists (Z.of_nat x, x).
Qed.

Lemma insert_table c key b :
  table_wf c → id b = Z.of_nat b →
  (∀ x, x ∈ entry_blocks (c !! key) → id x = Z.of_nat x) →
  table_wf (BlockHashToBlockMap.insert id c key b) ∧
  ∀ key' x, x ∈ entry_blocks (BlockHashToBlockMap.insert id c key b !! key') ↔
    (key' = key ∧ x = b) ∨ x ∈ entry_blocks (c !! key').
Proof.
  intros Hwf Hb Hids. unfold BlockHashToBlockMap.insert.
  assert (Hset : ∀ d, NoDup (fst <$> d) → (∀ i y, (i, y) ∈ d → i = Z.of_nat y) →
            entry_wf (EDict (dict_set (id b) b d)) ∧
            ∀ x, x ∈ snd <$> dict_set (id b) b d ↔ x = b ∨ x ∈ snd <$> d).
  { intros d Hd Hi.
    assert (Hwf' : entry_wf (EDict (dict_set (id b) b d))).
    { split; [apply dict_set_ne|]. split; [by apply dict_set_NoDup|].
      intros i y. rewrite dict_set_elem by done. naive_solver congruence. }
    split; [done|]. intros x. rewrite entry_dict_elem by done.
    rewrite dict_set_elem by done. rewrite list_elem_of_fmap, Hb. split.
    - intros [[_ ->]|[_ Hin]]; [by left|]. right. by exists (Z.of_nat x, x).
    - intros [->|([i y] & -> & Hin)]; [naive_solver|]. simpl.
      destruct (decide (y = b)) as [->|]; [naive_solver|]. right.
      split; [lia|]. by rewrite <- (Hi i y Hin). }
  destruct (c !! key) as [[b0|d]|] eqn:E.
  - destruct (Hset [(id b0, b0)]) as [Hw Hin].
    { apply NoDup_singleton. }
    { intros i y ?%list_elem_of_singleton. simplify_eq. apply Hids. simpl. set_solver. }
    split; [intros k e; rewrite lookup_insert; case_decide; naive_solver|].
    intros key' x. rewrite lookup_insert. case_decide as Ek.
    + subst key'. rewrite E. simpl in *. rewrite Hin. set_solver.
    + naive_solver.
  - destruct (Hwf _ _ E) as (Hne & Hd & Hi). destruct (Hset d Hd Hi) as [Hw Hin].
    split; [intros k e; rewrite lookup_insert; case_decide; naive_solver|].
    intros key' x. rewrite lookup_insert. case_decide as Ek.
    + subst key'. rewrite E. simpl in *. rewrite Hin. naive_solver.
    + naive_solver.
  - split; [intros k e; rewrite lookup_insert; case_decide; naive_solver|].
    intros key' x. rewrite lookup_insert. case_decide as Ek.
    + subst key'. rewrite E. simpl. set_solver.
    + naive_solver.
Qed.

Lemma pop_table c key b :
  table_wf c → b ∈ entry_blocks (c !! key) →
  (∀ x, x ∈ entry_blocks (c !! key) → id x = Z.of_nat x) →
  ∃ c', BlockHashToBlockMap.pop id c key (Z.of_nat b) = (Some b, c') ∧ table_wf c' ∧
    ∀ key' x, x ∈ entry_blocks (c' !! key') ↔
      x ∈ entry_blocks (c !! key') ∧ ¬ (key' = key ∧ x = b).
Proof.
  intros Hwf Hin Hids. unfold BlockHashToBlockMap.pop.
  assert (Hdel : table_wf (delete key c)).
  { intros k e. rewrite lookup_delete. case_decide; naive_solver. }
  destruct (c !! key) as [[b0|d]|] eqn:E; [| |set_solver].
  - simpl in Hin. apply list_elem_of_singleton in Hin as <-.
    rewrite (Hids b), Z.eqb_refl by (simpl; set_solver). eexists. split; [done|].
    split; [done|]. intros key' x. rewrite lookup_delete. case_decide as Ek.
    + subst key'. rewrite E. simpl. set_solver.
    + naive_solver.
  - pose proof (Hwf _ _ E) as Hw. destruct Hw as (Hne & Hd & Hi).
    simpl in Hin. apply entry_dict_elem in Hin; [|done].
    rewrite (proj2 (dict_get_elem _ _ _ Hd) Hin).
    assert (Hdin : ∀ x, x ∈ snd <$> dict_del (Z.of_nat b) d ↔ x ∈ snd <$> d ∧ x ≠ b).
    { intros x. rewrite !list_elem_of_fmap. unfold dict_del. split.
      - intros ([i y] & -> & [Hny Hy]%list_elem_of_filter). simpl in *.
        split; [by exists (i, y)|]. intros ->. apply Hny. by apply Hi.
      - intros [([i y] & -> & Hy) Hne']. exists (i, y). split; [done|].
        apply list_elem_of_filter. split; [|done]. simpl in *. rewrite (Hi i y Hy). lia. }
    eexists. split; [done|]. case_decide as Hlen.
    + split.
      { intros k e. rewrite lookup_insert. case_decide; [|by apply Hdel]. intros [= <-].
        split; [by destruct (dict_del _ _); simpl in *; [lia|]|].
        split.
        - unfold dict_del. eapply sublist_NoDup; [apply Hd|]. apply fmap_sublist, sublist_filter.
        - intros i y [_ Hy]%list_elem_of_filter. by apply Hi. }
      intros key' x. rewrite lookup_insert. case_decide as Ek.
      * subst key'. rewrite E. simpl. rewrite Hdin. naive_solver.
      * rewrite lookup_delete_ne by done. naive_solver.
    + split; [done|]. intros key' x. rewrite lookup_delete. case_decide as Ek.
      * subst key'. rewrite E. simpl.
        assert (dict_del (Z.of_nat b) d = []) as Hnil by (by destruct (dict_del _ _); simpl in *; [|lia]).
        rewrite Hnil in Hdin. specialize (Hdin x). simpl in Hdin. set_solver.
      * naive_solver.
Qed.

Lemma get_one_block_spec c key :
  table_wf c →
  match BlockHashToBlockMap.get_one_block c key with
  | Some b => b ∈ entry_blocks (c !! key)
  | None => entry_blocks (c !! key) = []
  end.
Proof.
  clear id. intros Hwf. unfold BlockHashToBlockMap.get_one_block.
  destruct (c !! key) as [[b|d]|] eqn:E; simpl; [set_solver| |done].
  destruct (Hwf _ _ E) as [Hne _]. destruct d as [|[i b] d]; [done|]. simpl. set_solver.
Qed.
End table.

(** ** The invariant *)
Section data_inv.
(** The number of blocks, the null block, the table, and the blocks that
    count as free. *)
Context (n : nat) (nb : loc).
Implicit Types (c : gmap bytes cache_entry) (free : list loc) (h : heap).

Record data_inv c free h : Prop := {
  di_len : length h = (n + 2)%nat;
  di_nb : (nb < n)%nat;
  di_id b : (b < n)%nat → id_of h b = Z.of_nat b;
  di_null b : (b < n)%nat → null_of h b = bool_decide (b = nb);
  di_free b : b ∈ free ↔ (b < n)%nat ∧ b ≠ nb ∧ ref_of h b = 0;
  di_ref b : (b < n)%nat → b ≠ nb → 0 ≤ ref_of h b;
  di_table : table_wf c;
  di_cache key b : b ∈ entry_blocks (c !! key) ↔ (b < n)%nat ∧ hash_of h b = Some key;
  di_null_hash : hash_of h nb = None;
}.

#[export] Instance data_inv_proper c free : Proper (heap_sim ==> iff) (data_inv c free).
Proof.
  assert (Himp : ∀ h h', heap_sim h h' → data_inv c free h → data_inv c free h').
  { intros h h' Hs [Hlen Hnb Hid Hnull Hfree Href Ht Hc Hnh].
    split; [by rewrite <- (heap_sim_length _ _ Hs)|done|intros b..|done|intros key b|];
      rewrite <- Hs; auto. }
  intros h h' Hs. split; [by apply Himp|by apply Himp].
Qed.

Lemma di_in_heap c free h b : data_inv c free h → (b < n)%nat → (b < length h)%nat.
Proof. intros H Hb. rewrite (di_len _ _ _ H). lia. Qed.

Lemma di_lookup c free h b :
  data_inv c free h → (b < n)%nat →
  ∃ x, h !! b = Some x ∧ block_id x = Z.of_nat b ∧ is_null x = bool_decide (b = nb) ∧
       ref_cnt x = ref_of h b ∧ block_hash x = hash_of h b.
Proof.
  intros H Hb. destruct (lookup_lt_is_Some_2 h b) as [x Hx]; [by eapply di_in_heap|].
  exists x. split; [done|]. pose proof (di_id _ _ _ H b Hb) as Hid.
  pose proof (di_null _ _ _ H b Hb) as Hnull.
  unfold id_of, null_of, ref_of, hash_of in *. by rewrite Hx in *.
Qed.

(** Changing a reference count, and which blocks count as free. *)
Lemma data_inv_ref c free free' h b d :
  data_inv c free h → (b < n)%nat →
  (b ≠ nb → 0 ≤ ref_of h b + d) →
  (∀ a, a ∈ free' ↔ if decide (a = b) then b ≠ nb ∧ ref_of h b + d = 0 else a ∈ free) →
  data_inv c free' (alter (λ x, set_ref_cnt (ref_cnt x + d) x) b h).
Proof.
  intros H Hb Hpos Hfree'. pose proof (di_in_heap _ _ _ b H Hb) as Hlt.
  destruct H as [Hlen Hnb Hid Hnull Hfree Href Ht Hc Hnh].
  split; autorewrite with attr; try done;
    try (intros key; autorewrite with attr; by auto);
    try (intros key a; autorewrite with attr; by auto); intros a.
  - rewrite Hfree', ref_of_add_ref by done. destruct (decide (a = b)) as [->|].
    + rewrite decide_True by done. naive_solver.
    + rewrite decide_False by done. rewrite Hfree, Z.add_0_r. done.
  - intros Ha Hne. rewrite ref_of_add_ref by done. case_decide; [subst a; auto|].
    specialize (Href a Ha Hne). lia.
Qed.

(** Changing the hash of a block together with the table. *)
Lemma data_inv_hash c c' free h b v :
  data_inv c free h → (b < n)%nat → b ≠ nb → table_wf c' →
  (∀ key x, x ∈ entry_blocks (c' !! key) ↔
     if decide (x = b) then v = Some key else x ∈ entry_blocks (c !! key)) →
  data_inv c' free (alter (set_hash v) b h).
Proof.
  intros H Hb Hbn Ht' Hc'. pose proof (di_in_heap _ _ _ b H Hb) as Hlt.
  destruct H as [Hlen Hnb Hid Hnull Hfree Href Ht Hc Hnh].
  split; autorewrite with attr; try done; try (intros a; autorewrite with attr; by auto).
  - intros key a. rewrite Hc', hash_of_set_hash by done. destruct (decide (a = b)) as [->|].
    + rewrite decide_True by done. naive_solver.
    + rewrite decide_False by done. apply Hc.
  - rewrite hash_of_set_hash, decide_False by done. done.
Qed.
End data_inv.

Definition nblk (p : BlockPool) : nat := Z.to_nat (num_gpu_blocks p).

(** [free] is the content of the free queue, in eviction order. *)
Record pool_inv (p : BlockPool) (free : list loc) : Prop := {
  pi_pos : 0 < num_gpu_blocks p;
  pi_rep : queue_rep (pool_queue p) free;
  pi_head : fake_free_list_head (pool_queue p) = nblk p;
  pi_tail : fake_free_list_tail (pool_queue p) = S (nblk p);
  pi_data : data_inv (nblk p) (null_block p) (cached_block_hash_to_block p) free (pool_heap p);
}.

(** What only the constructor sets. *)
Record pool_frame (p p' : BlockPool) : Prop := {
  pf_num : num_gpu_blocks p' = num_gpu_blocks p;
  pf_caching : enable_caching p' = enable_caching p;
  pf_hbs : hash_block_size p' = hash_block_size p;
  pf_null : null_block p' = null_block p;
  pf_events : enable_kv_cache_events p' = enable_kv_cache_events p;
  pf_int : use_int_hashes p' = use_int_hashes p;
}.

#[export] Instance pool_frame_preorder : PreOrder pool_frame.
Proof. split; [by split|]. intros p1 p2 p3 [] []. split; congruence. Qed.

Abbreviation pref p b := (ref_of (pool_heap p) b).
Abbreviation phash p b := (hash_of (pool_heap p) b).

(** The invariant while some blocks taken from the queue ([pend]) are still
    counted as free. *)
Record pool_inv_pend (p : BlockPool) (pend free : list loc) : Prop := {
  pp_pos : 0 < num_gpu_blocks p;
  pp_rep : queue_rep (pool_queue p) free;
  pp_head : fake_free_list_head (pool_queue p) = nblk p;
  pp_tail : fake_free_list_tail (pool_queue p) = S (nblk p);
  pp_data : data_inv (nblk p) (null_block p) (cached_block_hash_to_block p) (pend ++ free) (pool_heap p);
}.

Lemma pool_inv_pend_nil p free : pool_inv_pend p [] free ↔ pool_inv p free.
Proof. split; intros []; by split. Qed.

Lemma pool_inv_free p free : pool_inv p free → num_free_blocks (pool_queue p) = len free.
Proof. intros H. apply (qr_num _ _ (pi_rep _ _ H)). Qed.

Lemma pool_inv_NoDup p free : pool_inv p free → NoDup free.
Proof. intros H. eapply queue_rep_NoDup, pi_rep, H. Qed.

(** ** Specifications of the operations *)
Import Pool.

Lemma wp_read_block (p : BlockPool) b x Q :
  pool_heap p !! b = Some x → Q x p → wp (read_block b) Q p.
Proof. intros Hx HQ. unfold read_block. wp_step. apply wp_of_opt. eauto. Qed.

Lemma maybe_evict_spec p pend free b :
  pool_inv_pend p pend free → (b < nblk p)%nat →
  wp (maybe_evict_cached_block b)
    (λ _ p', pool_inv_pend p' pend free ∧ pool_frame p p' ∧
       (∀ a, phash p' a = if decide (a = b) then None else phash p a) ∧
       (∀ a, pref p' a = pref p a)) p.
Proof.
  intros [Hpos Hrep Hh Ht Hdata] Hb.
  destruct (di_lookup _ _ _ _ _ _ Hdata Hb) as (x & Hx & Hid & _ & _ & Hhash).
  unfold maybe_evict_cached_block. wp_step. eapply wp_read_block; [done|].
  rewrite Hhash. destruct (phash p b) as [key|] eqn:Ekey; wp_step.
  2: { split; [by split|]. split; [reflexivity|]. split; [|done].
       intros a. case_decide; [congruence|done]. }
  assert (Hbn : b ≠ null_block p).
  { intros ->. rewrite (di_null_hash _ _ _ _ _ Hdata) in Ekey. done. }
  destruct (pop_table (id_of (pool_heap p)) (cached_block_hash_to_block p) key b) as (c' & Hpop & Hwf & Hc').
  { apply (di_table _ _ _ _ _ Hdata). }
  { apply (di_cache _ _ _ _ _ Hdata). done. }
  { intros y Hy. apply (di_cache _ _ _ _ _ Hdata) in Hy as [Hy _]. by apply (di_id _ _ _ _ _ Hdata). }
  rewrite Hid, Hpop. unfold update_block. wp_step.
  set (p1 := p_set_heap _ _).
  assert (Hp1 : pool_inv_pend p1 pend free).
  { split; [done| |done|done|].
    - by apply (queue_rep_alter (pool_queue p)).
    - apply (data_inv_hash _ _ (cached_block_hash_to_block p)); [done..|].
      intros key' y. change (cached_block_hash_to_block p1) with c'. rewrite Hc'. case_decide as Ey; [subst y|].
      + split; [|done]. intros [Hin Hne]. apply (di_cache _ _ _ _ _ Hdata) in Hin as [_ Hin].
        exfalso. apply Hne. split; [congruence|done].
      + naive_solver. }
  assert (Hhash1 : ∀ a, phash p1 a = if decide (a = b) then None else phash p a).
  { intros a. change (pool_heap p1) with (alter (set_hash None) b (pool_heap p)).
    rewrite hash_of_set_hash by (by eapply di_in_heap).
    destruct (decide (b = a)), (decide (a = b)); done. }
  assert (Href1 : ∀ a, pref p1 a = pref p a).
  { intros a. change (pool_heap p1) with (alter (set_hash None) b (pool_heap p)).
    by autorewrite with attr. }
  destruct (enable_kv_cache_events p); wp_step.
  - split; [by destruct Hp1; split|]. split; [by split|]. split; [exact Hhash1|exact Href1].
  - split; [done|]. split; [by split|]. done.
Qed.

(** One block leaves the pending ones: its count goes from 0 to 1. *)
Lemma take_pending p b pend free :
  pool_inv_pend p (b :: pend) free → b ∉ pend → b ∉ free →
  wp (blk ← read_block b; _ ← massert (ref_cnt blk =? 0);
      (update_block (λ x, set_ref_cnt (ref_cnt x + 1) x) b))
    (λ _ p', pool_inv_pend p' pend free ∧ pool_frame p p' ∧
       (∀ a, phash p' a = phash p a) ∧
       (∀ a, pref p' a = pref p a + if decide (a = b) then 1 else 0)) p.
Proof.
  intros [Hpos Hrep Hh Ht Hdata] Hb1 Hb2.
  destruct (proj1 (di_free _ _ _ _ _ Hdata b)) as (Hb & Hbn & Hbr); [set_solver|].
  destruct (di_lookup _ _ _ _ _ _ Hdata Hb) as (x & Hx & _ & _ & Hr & _).
  wp_step. eapply wp_read_block; [done|]. wp_step. split; [apply Z.eqb_eq; lia|].
  unfold update_block. wp_step. set (p1 := p_set_heap _ p).
  change (pool_heap p1) with (alter (λ y, set_ref_cnt (ref_cnt y + 1) y) b (pool_heap p)).
  split; [|split; [by split|]; split].
  - split; [done| |done|done|].
    + by apply (queue_rep_alter (pool_queue p)).
    + eapply data_inv_ref; [done|done|lia|]. intros a. rewrite elem_of_app.
      case_decide as E; [subst a; naive_solver lia|]. set_solver.
  - intros a. by autorewrite with attr.
  - intros a. rewrite ref_of_add_ref by (by eapply di_in_heap).
    destruct (decide (b = a)), (decide (a = b)); done.
Qed.

(** The hashes and counts of the pool [p'] are those of [p] after the blocks
    [l] were taken. *)
Definition taken (p : BlockPool) (evicted l : list loc) (p' : BlockPool) : Prop :=
  pool_frame p p' ∧
  (∀ a, phash p' a = if decide (a ∈ evicted) then (if enable_caching p then None else phash p a)
                     else phash p a) ∧
  (∀ a, pref p' a = pref p a + if decide (a ∈ l) then 1 else 0).

(** One turn of the loop of [get_new_blocks]. *)
Lemma get_new_step p l1 l2 pre x suf p' :
  NoDup (l1 ++ l2) → l1 = pre ++ x :: suf →
  pool_inv_pend p' (x :: suf) l2 → taken p pre pre p' →
  wp (_ ← (if enable_caching p then maybe_evict_cached_block x else mret false);
      blk ← read_block x; _ ← massert (ref_cnt blk =? 0);
      (update_block (λ y, set_ref_cnt (ref_cnt y + 1) y) x))
    (λ _ p'', pool_inv_pend p'' suf l2 ∧ taken p (pre ++ [x]) (pre ++ [x]) p'') p'.
Proof.
  intros Hnd -> Hp' (Hfr & Hha & Hre).
  assert (Hx : (x < nblk p')%nat).
  { apply (di_free _ _ _ _ _ (pp_data _ _ _ Hp')). set_solver. }
  assert (Hxs : (x ∉ suf) ∧ (x ∉ l2) ∧ (x ∉ pre)).
  { rewrite <- app_assoc in Hnd. simpl in Hnd.
    rewrite NoDup_app, NoDup_cons in Hnd. set_solver +Hnd. }
  apply wp_bind. apply wp_mono with (P := λ _ p'',
    pool_inv_pend p'' (x :: suf) l2 ∧ taken p (pre ++ [x]) pre p'').
  - destruct (enable_caching p) eqn:Ec.
    + eapply wp_mono; [by apply maybe_evict_spec|]. intros _ p2 (Hp2 & Hf2 & Hh2 & Hr2).
      split; [done|]. split; [by etrans|]. split; intros a.
      * rewrite Hh2, Hha, Ec. repeat case_decide; try done; set_solver.
      * by rewrite Hr2, Hre.
    + wp_step. split; [done|]. split; [done|]. split; [|done].
      intros a. rewrite Hha, Ec. repeat case_decide; done.
  - intros _ p2 (Hp2 & Hf2 & Hh2 & Hr2).
    eapply wp_mono; [apply (take_pending p2 x suf l2); naive_solver|].
    intros _ p3 (Hp3 & Hf3 & Hh3 & Hr3).
    split; [done|]. split; [by etrans|]. split; intros a.
    + by rewrite Hh3, Hh2.
    + rewrite Hr3, Hr2. destruct Hxs as (_ & _ & Hxpre).
      repeat case_decide; try lia; set_solver.
Qed.

Lemma get_new_blocks_spec p l1 l2 :
  pool_inv p (l1 ++ l2) →
  wp (get_new_blocks (len l1)) (λ r p', r = l1 ∧ pool_inv p' l2 ∧ taken p l1 l1 p') p.
Proof.
  intros Hp. pose proof (pool_inv_NoDup _ _ Hp) as Hnd.
  unfold get_new_blocks, get_num_free_blocks. wp_step.
  rewrite (pool_inv_free _ _ Hp), length_app.
  rewrite (proj2 (Z.ltb_ge _ _)) by lia. wp_step. unfold on_queue. wp_step.
  eapply wp_mono; [apply popleft_n_spec, (pi_rep _ _ Hp)|].
  intros r q' (-> & Hrep & Hf). wp_step. set (p1 := p_set_queue q' p).
  assert (Hsim : heap_sim (pool_heap p) (pool_heap p1)) by apply (qf_sim _ _ Hf).
  set (I := λ (pre : list loc) (p' : BlockPool),
    pool_inv_pend p' (drop (length pre) l1) l2 ∧ taken p pre pre p').
  assert (HI0 : I [] p1).
  { split; [|split; [by split|]; split; intros a].
    - destruct Hp as [Hpos Hrep0 Hh Ht Hdata]. split; [done|done|..].
      + etrans; [apply (qf_head _ _ Hf)|done].
      + etrans; [apply (qf_tail _ _ Hf)|done].
      + by rewrite <- Hsim.
    - rewrite decide_False by set_solver. by rewrite <- Hsim.
    - rewrite decide_False, Z.add_0_r by set_solver. by rewrite <- Hsim. }
  assert (Hbody : ∀ pre x suf p', l1 = pre ++ x :: suf → I pre p' →
    wp (_ ← (if enable_caching p then maybe_evict_cached_block x else mret false);
        blk ← read_block x; _ ← massert (ref_cnt blk =? 0);
        (update_block (λ y, set_ref_cnt (ref_cnt y + 1) y) x)) (λ _ p'', I (pre ++ [x]) p'') p').
  { intros pre x suf p' El [Hp' Htk].
    rewrite El, drop_app_length in Hp'. unfold I.
    replace (drop (length (pre ++ [x])) l1) with suf; [by eapply get_new_step|].
    rewrite El. replace (pre ++ x :: suf) with ((pre ++ [x]) ++ suf) by (by rewrite <- app_assoc).
    by rewrite drop_app_length. }
  apply wp_mono with (P := λ _ p', I l1 p').
  - change (enable_caching p1) with (enable_caching p). destruct (enable_caching p) eqn:Ec.
    + apply (wp_for_each I); [exact HI0|exact Hbody].
    + apply (wp_for_each I); [exact HI0|exact Hbody].
  - intros ? p' [Hp' Htk]. wp_step. split; [done|]. split; [|done].
    rewrite drop_all in Hp'. by apply pool_inv_pend_nil.
Qed.

Lemma get_new_blocks_ok p free k :
  pool_inv p free → 0 ≤ k ≤ len free →
  wp (get_new_blocks k) (λ r p', r = take (Z.to_nat k) free ∧
    pool_inv p' (drop (Z.to_nat k) free) ∧ taken p r r p') p.
Proof.
  intros Hp Hk.
  replace (get_new_blocks k) with (get_new_blocks (len (take (Z.to_nat k) free)))
    by (f_equal; rewrite length_take; lia).
  eapply wp_mono; [apply (get_new_blocks_spec p _ (drop (Z.to_nat k) free)); by rewrite take_drop|].
  intros r p' (-> & Hp' & Ht). done.
Qed.

(** Asking for more blocks than there are raises, and changes nothing. *)
Lemma get_new_blocks_too_many p free k :
  pool_inv p free → len free < k → get_new_blocks k p = (Raise ValueError, p).
Proof.
  intros Hp Hk. unfold get_new_blocks, get_num_free_blocks, mbind, M_bind, gets.
  rewrite (pool_inv_free _ _ Hp). by rewrite (proj2 (Z.ltb_lt _ _)).
Qed.

(** ** Changes of reference counts

    [p'] is [p] with the count of every block [a] changed by [d a]: the table,
    the hashes and the events are as before. *)
Record counted (p : BlockPool) (d : loc → Z) (p' : BlockPool) : Prop := {
  cn_frame : pool_frame p p';
  cn_table : cached_block_hash_to_block p' = cached_block_hash_to_block p;
  cn_events : kv_event_queue p' = kv_event_queue p;
  cn_hash a : phash p' a = phash p a;
  cn_ref a : pref p' a = pref p a + d a;
}.

Lemma counted_refl p d : (∀ a, d a = 0) → counted p d p.
Proof. intros Hd. split; [reflexivity|done|done|done|]. intros a. rewrite Hd. lia. Qed.

Lemma counted_trans p1 p2 p3 d1 d2 d :
  counted p1 d1 p2 → counted p2 d2 p3 → (∀ a, d a = d1 a + d2 a) → counted p1 d p3.
Proof.
  intros [? ? ? Hh1 Hr1] [? ? ? Hh2 Hr2] Hd. split; [by etrans|congruence|congruence|intros a..].
  - by rewrite Hh2, Hh1.
  - rewrite Hr2, Hr1, Hd. lia.
Qed.

Lemma counted_nblk p d p' : counted p d p' → nblk p' = nblk p.
Proof. intros [Hf]. unfold nblk. by rewrite (pf_num _ _ Hf). Qed.

(** An operation of the queue changes no count. *)
Lemma counted_queue p q' : q_frame (pool_queue p) q' → counted p (λ _, 0) (p_set_queue q' p).
Proof.
  intros Hf. assert (Hs : heap_sim (pool_heap p) (pool_heap (p_set_queue q' p))) by apply (qf_sim _ _ Hf).
  split; [by split|done|done|intros a..]; rewrite <- Hs; lia || done.
Qed.

Definition single (b : loc) (d : Z) : loc → Z := λ a, if decide (a = b) then d else 0.

(** The number of times a block occurs in a list. *)
Definition occ (a : loc) (l : list loc) : Z := len (filter (λ x, x = a) l).

Lemma occ_nil a : occ a [] = 0.
Proof. done. Qed.

Lemma occ_cons a b l : occ a (b :: l) = single b 1 a + occ a l.
Proof.
  unfold occ, single. rewrite filter_cons. repeat case_decide; simpl; subst; try lia; done.
Qed.

Lemma occ_app a l1 l2 : occ a (l1 ++ l2) = occ a l1 + occ a l2.
Proof. unfold occ. rewrite filter_app, length_app. lia. Qed.

Lemma occ_snoc a l b : occ a (l ++ [b]) = occ a l + single b 1 a.
Proof. rewrite occ_app, occ_cons, occ_nil. lia. Qed.

Lemma occ_nonneg a l : 0 ≤ occ a l.
Proof. unfold occ. lia. Qed.

Lemma occ_pos a l : a ∈ l ↔ 0 < occ a l.
Proof.
  induction l as [|b l IH]; [rewrite occ_nil; set_solver by lia|].
  rewrite occ_cons, elem_of_cons, IH. unfold single. pose proof (occ_nonneg a l).
  case_decide; naive_solver lia.
Qed.

Lemma occ_not_elem a l : a ∉ l → occ a l = 0.
Proof. rewrite occ_pos. pose proof (occ_nonneg a l). lia. Qed.

Lemma occ_NoDup a l : NoDup l → occ a l = if decide (a ∈ l) then 1 else 0.
Proof.
  induction 1 as [|b l Hb Hl IH]; [done|]. rewrite occ_cons, IH. unfold single.
  repeat case_decide; set_solver by lia.
Qed.

(** Changing one count; [pend'] are the blocks that now count as free without
    being in the queue. *)
Lemma wp_add_ref p pend pend' free b d :
  pool_inv_pend p pend free → (b < nblk p)%nat →
  (b ≠ null_block p → 0 ≤ pref p b + d) →
  (∀ a, a ∈ pend' ++ free ↔
     if decide (a = b) then b ≠ null_block p ∧ pref p b + d = 0 else a ∈ pend ++ free) →
  wp (update_block (λ x, set_ref_cnt (ref_cnt x + d) x) b)
    (λ _ p', pool_inv_pend p' pend' free ∧ counted p (single b d) p') p.
Proof.
  intros [Hpos Hrep Hh Ht Hdata] Hb Hge Hfree.
  unfold update_block. wp_step. set (p1 := p_set_heap _ p).
  split; [split; [done| |done|done|]|].
  - by apply (queue_rep_alter (pool_queue p)).
  - by eapply data_inv_ref.
  - split; [by split|done|done|intros a..];
      change (pool_heap p1) with (alter (λ y, set_ref_cnt (ref_cnt y + d) y) b (pool_heap p)).
    + by autorewrite with attr.
    + rewrite ref_of_add_ref by (by eapply di_in_heap). unfold single.
      destruct (decide (b = a)), (decide (a = b)); congruence.
Qed.

(** The queue of the pool changes; the counts do not. *)
Lemma pool_inv_pend_queue p pend free pend' free' q' :
  pool_inv_pend p pend free → queue_rep q' free' → q_frame (pool_queue p) q' →
  (∀ a, a ∈ pend' ++ free' ↔ a ∈ pend ++ free) →
  pool_inv_pend (p_set_queue q' p) pend' free'.
Proof.
  intros [Hpos Hrep Hh Ht Hdata] Hq Hf Heq.
  assert (Hs : heap_sim (pool_heap p) (pool_heap (p_set_queue q' p))) by apply (qf_sim _ _ Hf).
  split; [done|done|etrans; [apply (qf_head _ _ Hf)|done]|etrans; [apply (qf_tail _ _ Hf)|done]|].
  rewrite <- Hs. destruct Hdata as [? ? ? ? Hfree]. split; try done.
  intros b. rewrite Heq. apply Hfree.
Qed.

(** ** [touch] *)
Lemma filter_ne_app (l1 l2 : list loc) b :
  NoDup (l1 ++ b :: l2) → filter (λ a, a ≠ b) (l1 ++ b :: l2) = l1 ++ l2.
Proof.
  rewrite NoDup_app, NoDup_cons. intros (H1 & H2 & H3 & _).
  rewrite filter_app, filter_cons_False by naive_solver.
  rewrite !filter_id; [done|set_solver|set_solver].
Qed.

(** The blocks of [free] that are not in [l]. *)
Definition without (l free : list loc) : list loc := filter (λ a, a ∉ l) free.

Definition touch_one (b : loc) : M BlockPool () :=
  blk ← read_block b;
  _ ← (if (ref_cnt blk =? 0) && negb (is_null blk)
       then on_queue (FreeKVCacheBlockQueue.remove b) else mret tt);
  update_block (λ x, set_ref_cnt (ref_cnt x + 1) x) b.

Lemma touch_one_spec p free b :
  pool_inv p free → (b < nblk p)%nat →
  wp (touch_one b) (λ _ p', pool_inv p' (filter (λ a, a ≠ b) free) ∧ counted p (single b 1) p') p.
Proof.
  intros Hp Hb. pose proof (pool_inv_NoDup _ _ Hp) as Hnd.
  pose proof (pi_data _ _ Hp) as Hdata.
  destruct (di_lookup _ _ _ _ _ _ Hdata Hb) as (x & Hx & _ & Hnull & Hr & _).
  apply pool_inv_pend_nil in Hp.
  unfold touch_one. wp_step. eapply wp_read_block; [done|]. rewrite Hnull, Hr, wp_bind.
  apply wp_mono with (P := λ _ p', pool_inv_pend p' (if decide (b ∈ free) then [b] else [])
      (filter (λ a, a ≠ b) free) ∧ counted p (λ _, 0) p').
  - destruct (decide (b ∈ free)) as [Hin|Hin].
    + destruct (proj1 (di_free _ _ _ _ _ Hdata b) Hin) as (_ & Hbn & ->).
      rewrite bool_decide_false by done. simpl. unfold on_queue. wp_step.
      apply list_elem_of_split in Hin as (l1 & l2 & ->). rewrite filter_ne_app by done.
      eapply wp_mono; [apply remove_spec, (pp_rep _ _ _ Hp)|]. intros _ q' [Hq Hf].
      split; [|by apply counted_queue]. eapply pool_inv_pend_queue; [done..|]. set_solver +.
    + destruct (_ && _) eqn:E.
      { destruct Hin. apply (di_free _ _ _ _ _ Hdata).
        apply andb_true_iff in E as [E1%Z.eqb_eq E2]. split_and!; [done| |done].
        apply negb_true_iff, bool_decide_eq_false in E2. done. }
      wp_step. split; [|by apply counted_refl].
      rewrite filter_id by set_solver. done.
  - intros _ p1 [Hp1 Hc]. eapply wp_mono; [apply (wp_add_ref p1 _ [] _ b 1 Hp1)|].
    + by rewrite (counted_nblk _ _ _ Hc).
    + intros Hbn. rewrite (cn_ref _ _ _ Hc). rewrite (pf_null _ _ (cn_frame _ _ _ Hc)) in Hbn.
      pose proof (di_ref _ _ _ _ _ Hdata b Hb Hbn). lia.
    + intros a. rewrite (cn_ref _ _ _ Hc). simpl. destruct (decide (a = b)) as [->|E].
      * split; [by intros [??]%list_elem_of_filter|]. rewrite (pf_null _ _ (cn_frame _ _ _ Hc)). intros [Hbn Hz].
        pose proof (di_ref _ _ _ _ _ Hdata b Hb Hbn). lia.
      * rewrite elem_of_app. case_decide; set_solver +E.
    + intros _ p2 [Hp2 Hc2]. split; [by apply pool_inv_pend_nil|].
      by eapply counted_trans; [done..|].
Qed.

Lemma touch_spec p free blocks :
  pool_inv p free → (∀ b, b ∈ blocks → (b < nblk p)%nat) →
  wp (touch blocks)
    (λ _ p', pool_inv p' (without blocks free) ∧ counted p (λ a, occ a blocks) p') p.
Proof.
  intros Hp Hb. apply (wp_for_each (λ pre p',
    pool_inv p' (without pre free) ∧ counted p (λ a, occ a pre) p')); unfold without.
  - split; [|by apply counted_refl]. rewrite filter_id by set_solver. done.
  - intros pre x suf p' -> [Hp' Hc]. eapply wp_mono.
    { apply (touch_one_spec p' _ x Hp'). rewrite (counted_nblk _ _ _ Hc). apply Hb. set_solver. }
    intros _ p'' [Hp'' Hc']. split.
    + rewrite list_filter_filter in Hp''. eapply eq_ind; [exact Hp''|].
      apply list_filter_iff. set_solver +.
    + eapply counted_trans; [done..|]. intros a. apply occ_snoc.
Qed.

(** ** [free_blocks] *)

(** The blocks whose last reference is dropped. *)
Definition released (p : BlockPool) (l : list loc) : list loc :=
  filter (λ b, b ≠ null_block p ∧ pref p b = 1) l.

(** Every block but the null block occurs once and has a reference to drop. *)
Definition can_free (p : BlockPool) (l : list loc) : Prop :=
  NoDup (filter (λ b, b ≠ null_block p) l) ∧
  ∀ b, b ∈ l → (b < nblk p)%nat ∧ (b ≠ null_block p → 1 ≤ pref p b).

Lemma can_free_occ p l a : can_free p l → a ≠ null_block p → a ∈ l → occ a l = 1.
Proof.
  intros [Hnd _] Ha Hin.
  assert (E : occ a (filter (λ b, b ≠ null_block p) l) = occ a l).
  { unfold occ. rewrite list_filter_filter. f_equal. f_equal.
    apply list_filter_iff. naive_solver. }
  rewrite <- E, occ_NoDup, decide_True; [done| |done].
  by apply list_elem_of_filter.
Qed.

Lemma released_NoDup p l : can_free p l → NoDup (released p l).
Proof.
  intros [Hnd _]. unfold released.
  eapply sublist_NoDup; [exact Hnd|]. clear Hnd.
  induction l as [|x l IH]; [done|]. rewrite !filter_cons.
  repeat case_decide; [by constructor|tauto|by constructor|done].
Qed.

(** The first loop drops one reference per occurrence. *)
Lemma drop_refs_spec p free l :
  pool_inv p free → can_free p l →
  wp (for_each l (update_block (λ x, set_ref_cnt (ref_cnt x - 1) x)))
    (λ _ p', pool_inv_pend p' (released p l) free ∧ counted p (λ a, - occ a l) p') p.
Proof.
  intros Hp Hl. apply (wp_for_each (λ pre p',
    pool_inv_pend p' (released p pre) free ∧ counted p (λ a, - occ a pre) p')).
  { split; [by apply pool_inv_pend_nil|by apply counted_refl]. }
  intros pre x suf p' El [Hp' Hc].
  destruct (proj2 Hl x) as [Hx Hge]; [set_solver|].
  pose proof (pf_null _ _ (cn_frame _ _ _ Hc)) as En.
  assert (Hocc : x ≠ null_block p → occ x pre = 0).
  { intros Hn. pose proof (can_free_occ p l x Hl Hn ltac:(set_solver)) as H1.
    rewrite El, occ_app, occ_cons in H1. unfold single in H1.
    rewrite decide_True in H1 by done.
    pose proof (occ_nonneg x pre). pose proof (occ_nonneg x suf). lia. }
  eapply wp_mono.
  { apply (wp_add_ref p' _ (released p (pre ++ [x])) free x (-1) Hp').
    - by rewrite (counted_nblk _ _ _ Hc).
    - rewrite En, (cn_ref _ _ _ Hc). intros Hn. specialize (Hocc Hn). specialize (Hge Hn). lia.
    - intros a. rewrite En, (cn_ref _ _ _ Hc). unfold released. rewrite filter_app.
      destruct (decide (a = x)) as [->|Hax].
      + assert (Hf : x ≠ null_block p → x ∉ free).
        { intros Hn Hin. apply (di_free _ _ _ _ _ (pi_data _ _ Hp)) in Hin. naive_solver lia. }
        assert (Hf' : x ∈ free → x ≠ null_block p).
        { intros Hin. by apply (di_free _ _ _ _ _ (pi_data _ _ Hp)) in Hin as (_ & ? & _). }
        rewrite !elem_of_app, !list_elem_of_filter, list_elem_of_singleton.
        naive_solver lia.
      + rewrite !elem_of_app, !list_elem_of_filter, list_elem_of_singleton. naive_solver. }
  intros _ p'' [Hp'' Hc']. split; [done|].
  eapply counted_trans; [done..|]. intros a. simpl. rewrite occ_snoc. unfold single.
  case_decide; lia.
Qed.

Lemma free_blocks_spec p free l prepend :
  pool_inv p free → can_free p l →
  wp (free_blocks l prepend)
    (λ _ p', pool_inv p' (if prepend then released p l ++ free else free ++ released p l) ∧
             counted p (λ a, - occ a l) p') p.
Proof.
  intros Hp Hl. unfold free_blocks. rewrite wp_bind.
  eapply wp_mono; [by apply drop_refs_spec|]. intros _ p' [Hp' Hc]. wp_step.
  assert (Efreed : freed_of (pool_heap p') l = released p l).
  { apply filter_ext_in. intros b Hb. destruct (proj2 Hl b Hb) as [Hbn Hge].
    rewrite <- (counted_nblk _ _ _ Hc) in Hbn.
    destruct (di_lookup _ _ _ _ _ _ (pp_data _ _ _ Hp') Hbn) as (y & Hy & _ & Hnull & Hr & _).
    unfold is_freed. rewrite Hy, Hnull, Hr, (cn_ref _ _ _ Hc), (pf_null _ _ (cn_frame _ _ _ Hc)).
    rewrite andb_true_iff, negb_true_iff, bool_decide_eq_false, Z.eqb_eq.
    destruct (decide (b = null_block p)) as [|Hn]; [naive_solver|].
    pose proof (can_free_occ p l b Hl Hn Hb). naive_solver lia. }
  rewrite Efreed.
  assert (Henter : can_enter (pool_queue p') free (released p l)).
  { split; [by apply released_NoDup|]. intros a Ha.
    pose proof (proj1 (di_free _ _ _ _ _ (pp_data _ _ _ Hp') a) ltac:(set_solver)) as (Han & _ & _).
    apply list_elem_of_filter in Ha as [[Ha1 Ha2] _].
    split; [|by eapply di_in_heap; [apply (pp_data _ _ _ Hp')|]].
    unfold chain_of. rewrite (pp_head _ _ _ Hp'), (pp_tail _ _ _ Hp').
    assert (a ∉ free) by (intros Hin; apply (di_free _ _ _ _ _ (pi_data _ _ Hp)) in Hin; naive_solver lia).
    rewrite elem_of_cons, elem_of_app, list_elem_of_singleton. naive_solver lia. }
  pose proof (pp_rep _ _ _ Hp') as Hrep. unfold on_queue.
  destruct prepend; wp_step; (eapply wp_mono; [by (apply prepend_n_spec || apply append_n_spec)|]);
    intros _ q' [Hq Hf]; (split; [apply pool_inv_pend_nil|]).
  1, 3: eapply pool_inv_pend_queue; [done..|]; set_solver +.
  all: (eapply counted_trans; [done|by apply counted_queue|]); intros a; simpl; lia.
Qed.

(** ** [cache_full_blocks] *)

(** The blocks that enter the cache, with their hashes: not the null block,
    and not masked out. *)
Fixpoint to_cache (nb : loc) (hs : list bytes) (mask : option (list bool)) (i : nat)
    (blks : list loc) : list (loc * bytes) :=
  match blks with
  | [] => []
  | b :: blks' =>
      if bool_decide (b = nb) || masked_out mask i then to_cache nb hs mask (S i) blks'
      else (b, hs !!! i) :: to_cache nb hs mask (S i) blks'
  end.

Lemma to_cache_elem nb hs mask blks b h : ∀ i, (b, h) ∈ to_cache nb hs mask i blks → b ∈ blks.
Proof.
  induction blks as [|x blks IH]; intros i; cbn [to_cache]; [set_solver|].
  destruct (_ || _); [set_solver|]. rewrite elem_of_cons. intros [[= -> ->]|Hin]; set_solver.
Qed.

(** [p'] is [p] with the blocks of [l] in the cache under their hashes. *)
Record cached_as (p : BlockPool) (g : Z) (l : list (loc * bytes)) (p' : BlockPool) : Prop := {
  ca_frame : pool_frame p p';
  ca_ref a : pref p' a = pref p a;
  ca_in b h : (b, h) ∈ l → ∃ key, make_block_hash_with_group_id h g = Ok key ∧ phash p' b = Some key;
  ca_out a : a ∉ l.*1 → phash p' a = phash p a;
}.

(** One block enters the cache. *)
Lemma cache_one p free b key :
  pool_inv p free → (b < nblk p)%nat → b ≠ null_block p → phash p b = None →
  wp (cache_block key b)
    (λ _ p', pool_inv p' free ∧ pool_frame p p' ∧ kv_event_queue p' = kv_event_queue p ∧
       (∀ a, pref p' a = pref p a) ∧
       (∀ a, phash p' a = if decide (a = b) then Some key else phash p a)) p.
Proof.
  intros [Hpos Hrep Hh Ht Hdata] Hb Hbn Hnone. unfold cache_block, update_block. wp_step.
  set (p1 := p_set_heap _ p). set (h1 := alter (set_hash (Some key)) b (pool_heap p)).
  change (pool_heap p1) with h1.
  change (cached_block_hash_to_block p1) with (cached_block_hash_to_block p).
  set (p2 := p_set_cache _ p1). change (pool_heap p2) with h1.
  destruct (insert_table (id_of h1) (cached_block_hash_to_block p) key b) as [Hwf Hin].
  { apply (di_table _ _ _ _ _ Hdata). }
  { unfold h1. autorewrite with attr. by apply (di_id _ _ _ _ _ Hdata). }
  { intros x [Hx _]%(di_cache _ _ _ _ _ Hdata). unfold h1. autorewrite with attr.
    by apply (di_id _ _ _ _ _ Hdata). }
  split_and!; [|by split|done|intros a; unfold h1; by autorewrite with attr|].
  - split; [done| |done|done|].
    + by apply (queue_rep_alter (pool_queue p)).
    + apply (data_inv_hash _ _ (cached_block_hash_to_block p)); [done..|].
      intros key' x. change (cached_block_hash_to_block p2)
        with (BlockHashToBlockMap.insert (id_of h1) (cached_block_hash_to_block p) key b).
      rewrite Hin. case_decide as Ex; [subst x|naive_solver].
      split; [|naive_solver]. intros [[-> _]|Hc]; [done|].
      apply (di_cache _ _ _ _ _ Hdata) in Hc as [_ Hc]. congruence.
  - intros a. unfold h1. rewrite hash_of_set_hash by (by eapply di_in_heap).
    destruct (decide (b = a)), (decide (a = b)); congruence.
Qed.

Lemma cached_as_refl p g : cached_as p g [] p.
Proof. split; [reflexivity|done|set_solver|done]. Qed.

Lemma cached_as_cons p p1 p2 g b h l key :
  pool_frame p p1 → (∀ a, pref p1 a = pref p a) →
  make_block_hash_with_group_id h g = Ok key →
  (∀ a, phash p1 a = if decide (a = b) then Some key else phash p a) →
  b ∉ l.*1 → cached_as p1 g l p2 → cached_as p g ((b, h) :: l) p2.
Proof.
  intros Hf Hr Hk Hh Hb [Hf2 Hr2 Hin Hout]. split.
  - by etrans.
  - intros a. by rewrite Hr2.
  - intros b' h' [[= -> ->]|Hl]%elem_of_cons; [|by apply Hin].
    exists key. rewrite Hout, Hh, decide_True by done. done.
  - intros a. rewrite fmap_cons, not_elem_of_cons. simpl. intros [Hne Ha].
    by rewrite Hout, Hh, decide_False.
Qed.

Lemma cache_loop_spec hs mask g blks : ∀ i p free,
  0 ≤ g < 2 ^ 32 → pool_inv p free → (i + length blks ≤ length hs)%nat →
  (∀ b, b ∈ blks → (b < nblk p)%nat) →
  NoDup (to_cache (null_block p) hs mask i blks).*1 →
  (∀ b, b ∈ (to_cache (null_block p) hs mask i blks).*1 → phash p b = None) →
  wp (cache_loop hs mask g i blks)
    (λ r p', r = maybe_convert_block_hash (use_int_hashes p) <$> (to_cache (null_block p) hs mask i blks).*2 ∧
       pool_inv p' free ∧ kv_event_queue p' = kv_event_queue p ∧
       cached_as p g (to_cache (null_block p) hs mask i blks) p') p.
Proof.
  induction blks as [|b blks IH]; intros i p free Hg Hp Hlen Hb; cbn [cache_loop to_cache].
  { intros _ _. wp_step. split_and!; [done..|apply cached_as_refl]. }
  assert (Hbn : (b < nblk p)%nat) by (apply Hb; set_solver).
  destruct (di_lookup _ _ _ _ _ _ (pi_data _ _ Hp) Hbn) as (x & Hx & _ & Hnull & _ & Hhash).
  destruct (bool_decide (b = null_block p) || masked_out mask i) eqn:Esel; intros Hnd Hno.
  - wp_step. eapply wp_read_block; [done|]. rewrite Hnull, Esel.
    apply IH; [done|done|simpl in Hlen; lia|set_solver|done|done].
  - rewrite !fmap_cons, NoDup_cons in *. simpl in Hnd, Hno, Hlen. destruct Hnd as [Hfresh Hnd].
    wp_step. eapply wp_read_block; [done|]. rewrite Hnull, Esel, Hhash.
    rewrite (Hno b) by set_solver. wp_step. split; [done|]. rewrite wp_of_opt.
    apply orb_false_iff in Esel as [Ene%bool_decide_eq_false _].
    destruct (lookup_lt_is_Some_2 hs i) as [h Hh]; [lia|]. exists h. split; [done|].
    destruct (make_key_ok h g Hg) as (key & Hkey & _). wp_step.
    rewrite Hkey. unfold of_res at 1, wp at 1. wp_step.
    eapply wp_mono; [apply (cache_one p free b key); auto; apply Hno; set_solver|].
    intros _ p1 (Hp1 & Hf & Hev & Hr & Hh1). wp_step.
    assert (En : null_block p1 = null_block p) by apply (pf_null _ _ Hf).
    eapply wp_mono.
    { apply (IH (S i) p1 free Hg Hp1); [lia| |by rewrite En|].
      - intros b' Hb'. unfold nblk. rewrite (pf_num _ _ Hf). apply Hb. set_solver.
      - rewrite En. intros b' Hb'. rewrite Hh1, decide_False by set_solver. apply Hno. set_solver. }
    intros r p2 (-> & Hp2 & Hev2 & Hca). wp_step. rewrite En, (pf_int _ _ Hf) in *.
    rewrite (list_lookup_total_correct _ _ _ Hh).
    split_and!; [done|done|congruence|by eapply cached_as_cons].
Qed.

(** The blocks [num_cached_blocks..] whose hashes the event lists. *)
Definition stored_idxs (nb : loc) (blocks : list loc) (mask : option (list bool)) (nc : Z)
    (idxs : list Z) : list Z :=
  filter (λ i, bool_decide (blocks !! Z.to_nat i = Some nb) ||
               masked_out mask (Z.to_nat (i - nc)) = false) idxs.

Definition keys_of (r : Request) (bs i : Z) : option (list extra_key) :=
  spec_extra_keys r (i * bs) (i * bs + bs).

Lemma idx_ok_mono fs s s' i : s ≤ s' → idx_ok fs s i → idx_ok fs s' i.
Proof.
  intros Hs [->|[Hi H]]; [by left|right]. split; [done|].
  intros j f Hj Hf. specialize (H j f Hj Hf). lia.
Qed.

Lemma memo_frame_keys r r' bs : memo_frame r r' → keys_of r' bs = keys_of r bs.
Proof. intros [_ ->]. done. Qed.

Section event_keys.
Context (n : nat) (nb : loc) (c : gmap bytes cache_entry) (free : list loc) (h : heap).
Context (Hdata : data_inv n nb c free h).
Context (blocks : list loc) (mask : option (list bool)) (nc bs : Z) (Hbs : 0 < bs).
Context (Hblocks : ∀ b, b ∈ blocks → (b < n)%nat).

Lemma event_keys_spec len_ : ∀ lo curr r,
  0 ≤ lo → lo + Z.of_nat len_ ≤ len blocks →
  mm_sorted (mm_features r) → memo_ok r → idx_ok (mm_features r) (lo * bs) curr →
  wp (event_keys h blocks mask nc bs (seqZ lo (Z.of_nat len_)) curr)
    (λ ks r', memo_frame r r' ∧ ks = keys_of r bs <$> stored_idxs nb blocks mask nc (seqZ lo (Z.of_nat len_))) r.
Proof.
  induction len_ as [|m IH]; intros lo curr r Hlo Hlen Hs Hm Hi.
  { simpl. wp_step. split; [by apply memo_frame_refl|done]. }
  rewrite seqZ_cons by lia. replace (Z.pred (Z.of_nat (S m))) with (Z.of_nat m) by lia.
  destruct (lookup_lt_is_Some_2 blocks (Z.to_nat lo)) as [b Hb]; [lia|].
  destruct (di_lookup _ _ _ _ _ b Hdata) as (x & Hx & _ & Hnull & _).
  { apply Hblocks. by eapply list_elem_of_lookup_2. }
  cbn [event_keys]. wp_step. rewrite wp_of_opt. exists b. split; [done|].
  wp_step. rewrite wp_of_opt. exists x. split; [done|].
  unfold stored_idxs. rewrite filter_cons, Hb, Hnull.
  rewrite (bool_decide_ext (Some b = Some nb) (b = nb)) by naive_solver.
  destruct (bool_decide (b = nb) || masked_out mask (Z.to_nat (lo - nc))).
  - rewrite decide_False by done. apply IH; [lia|lia|done|done|].
    eapply idx_ok_mono; [|done]. nia.
  - rewrite decide_True by done. wp_step. eapply wp_mono.
    { apply generate_extra_keys_ok; [done| |done|done]. lia. }
    intros [k i'] r1 (Hk & Hi' & Hf1). simpl in Hk, Hi'. wp_step.
    assert (Emm : mm_features r1 = mm_features r) by (destruct Hf1 as [_ ->]; done).
    eapply wp_mono; [apply (IH (Z.succ lo) i' r1); rewrite ?Emm; [lia|lia|done|apply Hf1|]|].
    { eapply idx_ok_mono; [|exact Hi']. lia. }
    intros ks r2 [Hf2 ->]. wp_step. split; [by eapply memo_frame_trans|].
    rewrite fmap_cons, Hk, (memo_frame_keys r r1) by done. done.
Qed.
End event_keys.

(** The hashes of a request at the granularity of a group. *)
Definition group_hashes (hashes : list bytes) (hbs bs : Z) : list bytes :=
  if bs =? hbs then hashes
  else BlockHashListWithBlockSize.to_list (BlockHashListWithBlockSize.mk hashes (bs / hbs)).

Lemma group_hashes_length hashes hbs bs :
  0 < hbs → 0 < bs → bs mod hbs = 0 → len (group_hashes hashes hbs bs) = len hashes / (bs / hbs).
Proof.
  intros H1 H2 H3. unfold group_hashes. destruct (Z.eqb_spec bs hbs) as [->|].
  - rewrite Z.div_same, Z.div_1_r by lia. done.
  - unfold BlockHashListWithBlockSize.to_list, py_range, BlockHashListWithBlockSize.length_. simpl.
    rewrite length_fmap, length_seqZ, Z.sub_0_r, Z2Nat.id; [done|].
    apply Z.div_pos; [lia|]. apply Z.div_exact in H3; nia.
Qed.

Lemma hashes_at_ok hashes hbs bs nc :
  0 < hbs → 0 < bs → bs mod hbs = 0 → 0 ≤ nc ≤ len (group_hashes hashes hbs bs) →
  hashes_at hashes hbs bs nc =
    Ok (drop (Z.to_nat nc) (group_hashes hashes hbs bs),
        if nc =? 0 then None else group_hashes hashes hbs bs !! Z.to_nat (nc - 1)).
Proof.
  intros Hhbs Hbs Hm Hnc. pose proof (group_hashes_length hashes hbs bs Hhbs Hbs Hm) as Hlen.
  rewrite Hlen in Hnc. unfold hashes_at, group_hashes in *. destruct (bs =? hbs); [done|].
  unfold BlockHashListWithBlockSize.init, BlockHashListWithBlockSize.from_,
    BlockHashListWithBlockSize.to_list in *.
  rewrite Hm. simpl. set (l := BlockHashListWithBlockSize.mk _ _) in *.
  change (len hashes / (bs / hbs)) with (BlockHashListWithBlockSize.length_ l) in *.
  unfold py_range in *. rewrite Z.min_l by lia. f_equal. f_equal.
  - rewrite <- fmap_drop. f_equal. apply list_eq. intros i. rewrite lookup_drop.
    destruct (decide (Z.of_nat i < BlockHashListWithBlockSize.length_ l - nc)).
    + rewrite !lookup_seqZ_lt by lia. f_equal. lia.
    + rewrite !lookup_seqZ_ge by lia. done.
  - destruct (Z.eqb_spec nc 0); [done|].
    rewrite list_lookup_fmap, lookup_seqZ_lt by lia. simpl. do 2 f_equal. lia.
Qed.

(** What a call of [cache_full_blocks] relies on. *)
Record cache_call (p : BlockPool) (r : Request) (blocks : list loc) (nc nf bs g : Z)
    (mask : option (list bool)) : Prop := {
  cc_group : 0 ≤ g < 2 ^ 32;
  cc_hbs : 0 < hash_block_size p;
  cc_bs : 0 < bs;
  cc_mod : bs mod hash_block_size p = 0;
  cc_range : 0 ≤ nc < nf;
  cc_blocks : nf ≤ len blocks;
  cc_in_pool b : b ∈ blocks → (b < nblk p)%nat;
  cc_hashes : nf ≤ len (group_hashes (block_hashes r) (hash_block_size p) bs);
  cc_mask m : mask = Some m → len m = nf - nc;
  cc_sorted : mm_sorted (mm_features r);
  cc_memo : memo_ok r;
}.

(** The blocks and hashes a call adds to the cache. *)
Definition call_cached (p : BlockPool) (r : Request) (blocks : list loc) (nc nf bs : Z)
    (mask : option (list bool)) : list (loc * bytes) :=
  to_cache (null_block p)
    (drop (Z.to_nat nc) (group_hashes (block_hashes r) (hash_block_size p) bs)) mask 0
    (py_slice blocks nc nf).

(** The event of a call. *)
Definition call_event (p : BlockPool) (r : Request) (blocks : list loc) (nc nf bs g : Z)
    (mask : option (list bool)) : KVCacheEvent :=
  let conv := maybe_convert_block_hash (use_int_hashes p) in
  let keys := keys_of r bs <$> stored_idxs (null_block p) blocks mask nc (py_range nc nf) in
  BlockStored (conv <$> (call_cached p r blocks nc nf bs mask).*2)
    (conv <$> (if nc =? 0 then None
               else group_hashes (block_hashes r) (hash_block_size p) bs !! Z.to_nat (nc - 1)))
    (py_slice (all_token_ids r) (nc * bs) (nf * bs)) bs
    (adapter_id <$> lora_request r) (lora_name <$> lora_request r)
    (match keys with [] => None | _ => Some keys end) g.

Lemma py_slice_length {A} (l : list A) i j : 0 ≤ i ≤ j → j ≤ len l → len (py_slice l i j) = j - i.
Proof. intros. unfold py_slice. rewrite length_take, length_drop. lia. Qed.

Lemma cache_full_blocks_spec p free r blocks nc nf bs g mask :
  pool_inv p free → cache_call p r blocks nc nf bs g mask →
  NoDup (call_cached p r blocks nc nf bs mask).*1 →
  (∀ b, b ∈ (call_cached p r blocks nc nf bs mask).*1 → phash p b = None) →
  wp (cache_full_blocks r blocks nc nf bs g mask)
    (λ r' p', pool_inv p' free ∧ cached_as p g (call_cached p r blocks nc nf bs mask) p' ∧
       memo_frame r r' ∧
       kv_event_queue p' = kv_event_queue p ++
         (if enable_kv_cache_events p then [call_event p r blocks nc nf bs g mask] else [])) p.
Proof.
  intros Hp [Hg Hhbs Hbs Hmod Hr Hbl Hpool Hh Hmask Hs Hm] Hnd Hno.
  unfold cache_full_blocks. rewrite (proj2 (Z.leb_gt _ _)) by lia. wp_step.
  assert (Hle : nf ≤ len (block_hashes r)).
  { rewrite group_hashes_length in Hh by done.
    assert (bs = hash_block_size p * (bs / hash_block_size p)) by (apply Z.div_exact; lia).
    assert (1 ≤ bs / hash_block_size p) by nia.
    pose proof (Z.div_le_upper_bound (len (block_hashes r)) (bs / hash_block_size p)
      (len (block_hashes r))). nia. }
  split; [by apply Z.leb_le|]. split.
  { destruct mask as [m|]; [|done]. apply Z.eqb_eq. rewrite py_slice_length by lia. by apply Hmask. }
  rewrite hashes_at_ok by (done || lia). unfold of_res at 1, wp at 1. wp_step.
  eapply wp_mono.
  { apply (cache_loop_spec _ _ g _ 0 p free); [done|done| |..].
    - pose proof (py_slice_length blocks nc nf). rewrite length_drop. lia.
    - intros b Hb. apply Hpool. by eapply py_slice_subset.
    - exact Hnd.
    - exact Hno. }
  intros ks p' (-> & Hp' & Hev & Hca). wp_step.
  pose proof (ca_frame _ _ _ _ Hca) as Hf. rewrite (pf_events _ _ Hf).
  destruct (enable_kv_cache_events p); simpl negb; cbn iota.
  2: { wp_step. rewrite app_nil_r. split_and!; [done|done|by apply memo_frame_refl|done]. }
  pose proof (event_keys_spec _ _ _ _ _ (pi_data _ _ Hp') blocks mask nc bs Hbs) as Hkeys.
  assert (En : nblk p' = nblk p) by (unfold nblk; by rewrite (pf_num _ _ Hf)).
  rewrite En, (pf_null _ _ Hf) in Hkeys. specialize (Hkeys Hpool (Z.to_nat (nf - nc)) nc 0 r).
  rewrite Z2Nat.id in Hkeys by lia.
  apply wp_elim in Hkeys as (keys & r' & Ek & Hfr & ->); [|lia|lia|done|done|].
  2: { right. split; [lia|]. simpl. lia. }
  unfold py_range. rewrite Ek. wp_step. unfold of_res at 1, wp at 1. wp_step.
  split_and!; [by destruct Hp'; split|by destruct Hca; split; [|done..]; etrans; [done|]; by split|done|].
  simpl. rewrite Hev. unfold call_event, call_cached. by rewrite (pf_int _ _ Hf).
Qed.

(** ** [evict_blocks], [reset_prefix_cache] and the constructor *)

(** The hashes of [p'] are those of [p], without those of [ids]. *)
Definition unhashed (p : BlockPool) (ids : list loc) (p' : BlockPool) : Prop :=
  ∀ a, phash p' a = if decide (a ∈ ids) then None else phash p a.

Lemma unhashed_nil p : unhashed p [] p.
Proof. intros a. by rewrite decide_False by set_solver. Qed.

Lemma unhashed_snoc p ids x p1 p2 :
  unhashed p ids p1 → (∀ a, phash p2 a = if decide (a = x) then None else phash p1 a) →
  unhashed p (ids ++ [x]) p2.
Proof. intros H1 H2 a. rewrite H2, H1. repeat case_decide; set_solver. Qed.

Lemma evict_blocks_spec p free ids :
  pool_inv p free → (∀ b, b ∈ ids → (b < nblk p)%nat) →
  wp (evict_blocks ids)
    (λ _ p', pool_inv p' free ∧ pool_frame p p' ∧ (∀ a, pref p' a = pref p a) ∧ unhashed p ids p') p.
Proof.
  intros Hp Hids. apply (wp_for_each (λ pre p', pool_inv p' free ∧ pool_frame p p' ∧
    (∀ a, pref p' a = pref p a) ∧ unhashed p pre p')).
  { split_and!; [done|reflexivity|done|apply unhashed_nil]. }
  intros pre x suf p' El (Hp' & Hf & Hr & Hh).
  assert (Hx : (x < nblk p')%nat).
  { unfold nblk. rewrite (pf_num _ _ Hf). apply Hids. set_solver. }
  wp_step. split.
  { apply Z.ltb_lt. unfold nblk in Hx. lia. }
  eapply wp_mono; [apply maybe_evict_spec; [by apply pool_inv_pend_nil|done]|].
  intros _ p'' (Hp'' & Hf' & Hh' & Hr'). wp_step.
  split_and!; [by apply pool_inv_pend_nil|by etrans|intros a; by rewrite Hr'|].
  by eapply unhashed_snoc.
Qed.

(** When every block but the null block is free. *)
Lemma all_free_length p free :
  pool_inv p free → len free ≤ num_gpu_blocks p - 1.
Proof.
  intros Hp. pose proof (pool_inv_NoDup _ _ Hp) as Hnd. pose proof (pi_pos _ _ Hp) as Hpos.
  pose proof (pi_data _ _ Hp) as Hd.
  assert (Hsub : null_block p :: free ⊆+ seq 0 (nblk p)).
  { apply NoDup_submseteq.
    - apply NoDup_cons. split; [|done]. intros Hin. apply (di_free _ _ _ _ _ Hd) in Hin. naive_solver.
    - intros x [->|Hx]%elem_of_cons; apply elem_of_seq.
      + pose proof (di_nb _ _ _ _ _ Hd). lia.
      + apply (di_free _ _ _ _ _ Hd) in Hx. lia. }
  apply submseteq_length in Hsub. rewrite length_seq in Hsub. simpl in Hsub. unfold nblk in Hsub. lia.
Qed.

Lemma all_free_iff p free :
  pool_inv p free →
  len free = num_gpu_blocks p - 1 ↔ ∀ a, (a < nblk p)%nat → a ≠ null_block p → pref p a = 0.
Proof.
  intros Hp. pose proof (pi_data _ _ Hp) as Hd. pose proof (pi_pos _ _ Hp) as Hpos.
  pose proof (di_nb _ _ _ _ _ Hd) as Hnb. split.
  - intros Hlen a Ha Hn. apply (di_free _ _ _ _ _ Hd).
    destruct (decide (a ∈ free)) as [|Hna]; [done|exfalso].
    pose proof (all_free_length _ _ Hp) as Hle.
    assert (Hsub : a :: null_block p :: free ⊆+ seq 0 (nblk p)).
    { apply NoDup_submseteq.
      - rewrite !NoDup_cons. split_and!; [set_solver| |by eapply pool_inv_NoDup].
        intros Hin. apply (di_free _ _ _ _ _ Hd) in Hin. naive_solver.
      - intros x Hx. apply elem_of_seq. rewrite !elem_of_cons in Hx.
        destruct Hx as [->|[->|Hx%(di_free _ _ _ _ _ Hd)]]; lia. }
    apply submseteq_length in Hsub. rewrite length_seq in Hsub. simpl in Hsub. unfold nblk in Hsub. lia.
  - intros Hall. pose proof (all_free_length _ _ Hp) as Hle.
    assert (Hsub : seq 0 (nblk p) ⊆+ null_block p :: free).
    { apply NoDup_submseteq; [apply NoDup_seq|]. intros x Hx%elem_of_seq. apply elem_of_cons.
      destruct (decide (x = null_block p)); [by left|right].
      apply (di_free _ _ _ _ _ Hd). split_and!; [lia|done|]. apply Hall; [lia|done]. }
    apply submseteq_length in Hsub. rewrite length_seq in Hsub. simpl in Hsub. unfold nblk in Hsub. lia.
Qed.

Lemma clear_hashes_spec (l : list loc) p free :
  queue_rep (pool_queue p) free →
  wp (for_each l (update_block (set_hash None)))
    (λ _ p', p' = p_set_heap (pool_heap p') p ∧ queue_rep (pool_queue p') free ∧
       length (pool_heap p') = length (pool_heap p) ∧
       (∀ a, ref_of (pool_heap p') a = ref_of (pool_heap p) a ∧ id_of (pool_heap p') a = id_of (pool_heap p) a ∧
             null_of (pool_heap p') a = null_of (pool_heap p) a) ∧
       unhashed p l p') p.
Proof.
  intros Hq. apply (wp_for_each (λ pre p', p' = p_set_heap (pool_heap p') p ∧
       queue_rep (pool_queue p') free ∧ length (pool_heap p') = length (pool_heap p) ∧
       (∀ a, ref_of (pool_heap p') a = ref_of (pool_heap p) a ∧ id_of (pool_heap p') a = id_of (pool_heap p) a ∧
             null_of (pool_heap p') a = null_of (pool_heap p) a) ∧
       unhashed p pre p')).
  { split_and!; [by destruct p as [? ? ? []]|done..|apply unhashed_nil]. }
  intros pre x suf p' _ (Ep & Hq' & Hl & Hat & Hh). unfold update_block. wp_step.
  set (p'' := p_set_heap _ p').
  change (pool_heap p'') with (alter (set_hash None) x (pool_heap p')).
  split_and!.
  - unfold p''. rewrite Ep at 2. done.
  - by apply (queue_rep_alter (pool_queue p')).
  - by rewrite length_alter.
  - intros a. autorewrite with attr. apply Hat.
  - eapply unhashed_snoc; [done|]. intros a.
    change (pool_heap p'') with (alter (set_hash None) x (pool_heap p')).
    rewrite !hash_of_option, attr_alter.
    destruct (decide (x = a)) as [->|]; [rewrite decide_True by done|by rewrite decide_False by done].
    by destruct (pool_heap p' !! a).
Qed.

Lemma reset_prefix_cache_spec p free :
  pool_inv p free →
  wp reset_prefix_cache
    (λ b p', pool_inv p' free ∧ pool_frame p p' ∧ (∀ a, pref p' a = pref p a) ∧
       b = bool_decide (len free = num_gpu_blocks p - 1) ∧
       if b then cached_block_hash_to_block p' = ∅ ∧ unhashed p (seq 0 (nblk p)) p'
       else p' = p) p.
Proof.
  intros Hp. pose proof (all_free_length _ _ Hp) as Hle. unfold reset_prefix_cache. wp_step.
  rewrite (pool_inv_free _ _ Hp). destruct (Z.eqb_spec (num_gpu_blocks p - len free) 1) as [E|E]; simpl.
  2: { wp_step. rewrite bool_decide_false by lia. done. }
  rewrite bool_decide_true by lia. wp_step.
  eapply wp_mono; [apply (clear_hashes_spec _ (p_set_cache ∅ p) free), (pi_rep _ _ Hp)|].
  intros _ p' (Ep & Hq & Hl & Hat & Hh).
  change (pool_heap (p_set_cache ∅ p)) with (pool_heap p) in *. fold (nblk p) in Hh.
  assert (Hnone : ∀ a, (a < nblk p)%nat → phash p' a = None).
  { intros a Ha. rewrite Hh, decide_True; [done|]. apply elem_of_seq. lia. }
  assert (Hf : pool_frame p p') by (rewrite Ep; by split).
  assert (Hp' : pool_inv p' free).
  { destruct Hp as [Hpos _ Hhd Htl [Hlen Hnb Hid Hnull Hfree Href _ _ _]].
    rewrite Ep. split; [done|by rewrite Ep in Hq|done|done|].
    change (pool_heap (p_set_heap (pool_heap p') (p_set_cache ∅ p))) with (pool_heap p').
    change (cached_block_hash_to_block (p_set_heap (pool_heap p') (p_set_cache ∅ p)))
      with (∅ : gmap bytes cache_entry).
    split; [by rewrite Hl|done|..]; try (intros b; rewrite ?(proj1 (Hat b)), ?(proj1 (proj2 (Hat b))), ?(proj2 (proj2 (Hat b))); by auto).
    - intros key b. rewrite lookup_empty. simpl. split; [set_solver|]. intros [Hb Hk].
      by rewrite Hnone in Hk.
    - by apply Hnone. }
  assert (Ec : cached_block_hash_to_block p' = ∅) by (by rewrite Ep).
  destruct (enable_kv_cache_events p); wp_step.
  - split_and!; [by destruct Hp'; split|by destruct Hf; split|apply Hat|done|done|done].
  - split_and!; [done|done|apply Hat|done|done|done].
Qed.

(** The state the constructor reaches. *)
Section init.
Context (m : nat).
Abbreviation h0 := (fresh_heap m ++ [new_block (-1); new_block (-1)]).

Lemma init_heap_lookup b :
  h0 !! b = if decide (b < m)%nat then Some (new_block (Z.of_nat b))
            else if decide (b < m + 2)%nat then Some (new_block (-1)) else None.
Proof.
  destruct (decide (b < m)%nat).
  - rewrite lookup_app_l by (by rewrite fresh_heap_length). by apply fresh_heap_lookup.
  - rewrite lookup_app_r by (rewrite fresh_heap_length; lia). rewrite fresh_heap_length.
    case_decide; [|by apply lookup_ge_None; simpl; lia].
    assert (b - m = 0 ∨ b - m = 1)%nat as [->| ->] by lia; done.
Qed.

Context (h : heap) (Hs : heap_sim h0 h).
Abbreviation h' := (alter (set_is_null true) 0%nat h).

Lemma init_ref b : ref_of h' b = 0.
Proof.
  unfold ref_of. rewrite attr_alter_same by done. change (ref_of h b = 0).
  rewrite <- Hs. unfold ref_of. rewrite init_heap_lookup. repeat case_decide; done.
Qed.

Lemma init_hash b : hash_of h' b = None.
Proof.
  rewrite hash_of_option, attr_alter_same, <- hash_of_option by done.
  rewrite <- Hs. unfold hash_of. rewrite init_heap_lookup. repeat case_decide; done.
Qed.

Lemma init_null b : (b < m)%nat → null_of h' b = bool_decide (b = 0%nat).
Proof.
  intros Hb. unfold null_of. rewrite attr_alter.
  assert (Hy : null_of h b = false).
  { rewrite <- Hs. unfold null_of. by rewrite init_heap_lookup, decide_True. }
  destruct (lookup_lt_is_Some_2 h b) as [y Ey].
  { rewrite <- (heap_sim_length _ _ Hs), length_app, fresh_heap_length. simpl. lia. }
  unfold null_of in Hy. rewrite Ey in *. simpl in *.
  destruct (decide (0%nat = b)) as [<-|]; [done|]. rewrite Hy. symmetry. by apply bool_decide_false.
Qed.

Lemma init_data_inv : (0 < m)%nat → data_inv m 0 ∅ (seq 1 (m - 1)) h'.
Proof.
  intros Hm. split; [|lia|intros b Hb|intros b Hb|intros b|intros b Hb _|done| |apply init_hash].
  - by rewrite length_alter, <- (heap_sim_length _ _ Hs), length_app, fresh_heap_length.
  - rewrite id_of_option, attr_alter_same, <- id_of_option by done. rewrite <- Hs.
    unfold id_of. by rewrite init_heap_lookup, decide_True.
  - by apply init_null.
  - rewrite init_ref, elem_of_seq. lia.
  - by rewrite init_ref.
  - intros key b. rewrite lookup_empty, init_hash. simpl. set_solver.
Qed.
End init.

Lemma init_spec n caching hbs events use_int :
  0 < n →
  ∃ p, Pool.init n caching hbs events use_int = Ok p ∧
    pool_inv p (seq 1 (Z.to_nat n - 1)) ∧ null_block p = 0%nat ∧ num_gpu_blocks p = n ∧
    hash_block_size p = hbs ∧ enable_caching p = caching ∧ enable_kv_cache_events p = events ∧
    use_int_hashes p = use_int ∧ kv_event_queue p = [] ∧
    ∀ b, pref p b = 0 ∧ phash p b = None.
Proof.
  intros Hn. unfold Pool.init. rewrite (proj2 (Z.ltb_lt _ _)) by done.
  set (m := Z.to_nat n).
  destruct (init_rep (fresh_heap m) (seq 0 m)) as (Hrep & Hsim & Hhd & Htl).
  { apply NoDup_seq. }
  { intros a Ha%elem_of_seq. rewrite fresh_heap_length. lia. }
  { apply fresh_heap_unlinked. }
  rewrite fresh_heap_length in Hhd, Htl.
  set (q0 := FreeKVCacheBlockQueue.init (fresh_heap m) (seq 0 m)) in *.
  assert (Es : seq 0 m = 0%nat :: seq 1 (m - 1)).
  { destruct m as [|m'] eqn:Em; [lia|]. simpl. by rewrite Nat.sub_0_r. }
  rewrite Es in Hrep. apply popleft_spec, wp_elim in Hrep as (nb & q' & -> & -> & Hrep & Hf).
  assert (Hs : heap_sim (fresh_heap m ++ [new_block (-1); new_block (-1)]) (q_heap q')).
  { etrans; [exact Hsim|apply (qf_sim _ _ Hf)]. }
  eexists. split; [done|].
  split_and!; [|done..|intros b; split; [apply (init_ref m _ Hs)|apply (init_hash m _ Hs)]].
  split; [done|by apply (queue_rep_alter q')|etrans; [apply (qf_head _ _ Hf)|done]
    |etrans; [apply (qf_tail _ _ Hf)|done]|].
  apply init_data_inv; [done|lia].
Qed.

(** ** Looking up the cache *)
Lemma get_cached_block_spec p free h gs :
  pool_inv p free → Forall (λ g, 0 ≤ g < 2 ^ 32) gs →
  match get_cached_block (cached_block_hash_to_block p) h gs with
  | Ok (Some bs) => Forall2 (λ g b, (b < nblk p)%nat ∧ b ≠ null_block p ∧
                       ∃ key, make_block_hash_with_group_id h g = Ok key ∧ phash p b = Some key) gs bs
  | Ok None => ∃ g key, g ∈ gs ∧ make_block_hash_with_group_id h g = Ok key ∧
                 ∀ b, (b < nblk p)%nat → phash p b ≠ Some key
  | Raise _ => False
  end.
Proof.
  intros Hp. pose proof (pi_data _ _ Hp) as Hd.
  induction gs as [|g gs IH]; intros Hgs; simpl; [done|].
  apply Forall_cons in Hgs as [Hg Hgs]. destruct (make_key_ok h g Hg) as (key & Hkey & _).
  rewrite Hkey. specialize (IH Hgs).
  pose proof (get_one_block_spec (cached_block_hash_to_block p) key (di_table _ _ _ _ _ Hd)) as Hone.
  destruct (BlockHashToBlockMap.get_one_block _ _) as [b|].
  - apply (di_cache _ _ _ _ _ Hd) in Hone as [Hb Hk].
    destruct (get_cached_block _ _ gs) as [[bs|]|]; [| |done].
    + constructor; [|done]. split; [done|]. split; [|eauto].
      intros ->. by rewrite (di_null_hash _ _ _ _ _ Hd) in Hk.
    + destruct IH as (g' & key' & Hin & H1 & H2). exists g', key'. split; [set_solver|done].
  - exists g, key. split; [set_solver|]. split; [done|]. intros b Hb Hk.
    assert (b ∈ entry_blocks (cached_block_hash_to_block p !! key)) as Hin by (by apply (di_cache _ _ _ _ _ Hd)).
    rewrite Hone in Hin. set_solver.
Qed.

(** ** Any sequence of calls *)
Inductive pool_op :=
  | OGet (num_blocks : Z)
  | OTouch (blocks : list loc)
  | OFree (blocks : list loc) (prepend : bool)
  | OCache (r : Request) (blocks : list loc) (nc nf bs g : Z) (mask : option (list bool))
  | OEvict (block_ids : list loc)
  | OReset
  | OTake.

Definition run_pool_op (o : pool_op) : M BlockPool () :=
  match o with
  | OGet n => _ ← get_new_blocks n; mret tt
  | OTouch l => touch l
  | OFree l prepend => free_blocks l prepend
  | OCache r blocks nc nf bs g mask => _ ← cache_full_blocks r blocks nc nf bs g mask; mret tt
  | OEvict ids => evict_blocks ids
  | OReset => _ ← reset_prefix_cache; mret tt
  | OTake => _ ← take_events; mret tt
  end.

(** What the callers owe the pool. *)
Definition pool_op_ok (p : BlockPool) (o : pool_op) : Prop :=
  match o with
  | OGet n => 0 ≤ n
  | OTouch l | OEvict l => ∀ b, b ∈ l → (b < nblk p)%nat
  | OFree l _ => can_free p l
  | OCache r blocks nc nf bs g mask =>
      cache_call p r blocks nc nf bs g mask ∧
      NoDup (call_cached p r blocks nc nf bs mask).*1 ∧
      ∀ b, b ∈ (call_cached p r blocks nc nf bs mask).*1 → phash p b = None
  | OReset | OTake => True
  end.

Inductive pool_reach : BlockPool → Prop :=
  | reach_init n caching hbs events use_int p :
      Pool.init n caching hbs events use_int = Ok p → pool_reach p
  | reach_step p o : pool_reach p → pool_op_ok p o → pool_reach (run_pool_op o p).2.

Lemma wp_snd {S A} (m : M S A) Q s : wp m Q s → ∃ a, Q a (m s).2.
Proof. intros (a & s' & -> & HQ)%wp_elim. by exists a. Qed.

Lemma run_pool_op_inv p free o :
  pool_inv p free → pool_op_ok p o → ∃ free', pool_inv (run_pool_op o p).2 free'.
Proof.
  intros Hp Hok.
  assert (Hwp : ∀ {A} (m : M BlockPool A) Q, wp m Q p → (∀ a p', Q a p' → ∃ f, pool_inv p' f) →
            ∃ f, pool_inv (m p).2 f).
  { intros A m Q (a & HQ)%wp_snd H. by eapply H. }
  destruct o as [n|l|l prepend|r blocks nc nf bs g mask|ids| |]; simpl in Hok |- *.
  - destruct (decide (n ≤ len free)) as [Hn|Hn].
    + apply (Hwp _ _ (λ _ p', ∃ f, pool_inv p' f)); [|done]. wp_step. eapply wp_mono; [by apply (get_new_blocks_ok p free)|].
      intros r p' (_ & Hp' & _). wp_step. eauto.
    + unfold mbind, M_bind. rewrite (get_new_blocks_too_many _ free) by (done || lia). eauto.
  - eapply Hwp; [by apply (touch_spec p free)|naive_solver].
  - eapply Hwp; [by apply (free_blocks_spec p free)|naive_solver].
  - destruct Hok as (Hc & Hnd & Hno). apply (Hwp _ _ (λ _ p', ∃ f, pool_inv p' f)); [|done].
    wp_step. eapply wp_mono; [by apply (cache_full_blocks_spec p free)|].
    intros r' p' [Hp' _]. wp_step. by exists free.
  - eapply Hwp; [by apply (evict_blocks_spec p free)|naive_solver].
  - apply (Hwp _ _ (λ _ p', ∃ f, pool_inv p' f)); [|done]. wp_step.
    eapply wp_mono; [by apply (reset_prefix_cache_spec p free)|].
    intros b p' [Hp' _]. wp_step. by exists free.
  - unfold take_events, mbind, M_bind, get, modify. exists free.
    destruct (enable_kv_cache_events p); simpl; [by destruct Hp; split|done].
Qed.

Lemma pool_reach_inv p : pool_reach p → ∃ free, pool_inv p free.
Proof.
  induction 1 as [n caching hbs events use_int p Hinit|p o _ [free IH] Hok].
  - destruct (decide (0 < n)) as [Hn|Hn].
    + destruct (init_spec n caching hbs events use_int Hn) as (p' & E & Hp' & _).
      rewrite Hinit in E. injection E as <-. by eexists.
    + unfold Pool.init in Hinit. rewrite (proj2 (Z.ltb_ge _ _)) in Hinit by lia. done.
  - by eapply run_pool_op_inv.
Qed.

(** C7. After any sequence of calls of the pool's operations, the free queue
    holds, without duplicates, exactly the blocks with reference count zero
    other than the null block, and the cache table maps a key exactly to the
    blocks that carry it as their hash: no block leaks, none is handed out while
    it is referenced, and no stale entry can be hit. *)
Theorem pool_reach_safe (p : BlockPool) :
  pool_reach p →
  ∃ free, FreeKVCacheBlockQueue.get_all_free_blocks (pool_queue p) = (Ok free, pool_queue p) ∧
    NoDup free ∧ num_free_blocks (pool_queue p) = len free ∧
    (∀ b, b ∈ free ↔ (b < nblk p)%nat ∧ b ≠ null_block p ∧ pref p b = 0) ∧
    (∀ key b, b ∈ entry_blocks (cached_block_hash_to_block p !! key) ↔
       (b < nblk p)%nat ∧ phash p b = Some key).
Proof.
  intros [free Hp]%pool_reach_inv. exists free.
  split_and!; [apply get_all_free_blocks_spec, (pi_rep _ _ Hp)|by eapply pool_inv_NoDup|by apply pool_inv_free|..].
  - apply (di_free _ _ _ _ _ (pi_data _ _ Hp)).
  - apply (di_cache _ _ _ _ _ (pi_data _ _ Hp)).
Qed.

(** C35. [get_new_blocks] takes the requested number of blocks from the front of
    the free queue, in order, each with one reference afterwards and (with
    caching on) no hash; nothing else changes.  Asking for more than there are
    raises [ValueError] and changes nothing. *)
Theorem get_new_blocks_lru (p : BlockPool) (free : list loc) (k : Z) :
  pool_inv p free → 0 ≤ k →
  (k ≤ len free →
     wp (get_new_blocks k)
       (λ r p', r = take (Z.to_nat k) free ∧ pool_inv p' (drop (Z.to_nat k) free) ∧
          (∀ b, b ∈ r → pref p' b = 1 ∧ (enable_caching p = true → phash p' b = None)) ∧
          (∀ b, b ∉ r → pref p' b = pref p b ∧ phash p' b = phash p b)) p) ∧
  (len free < k → get_new_blocks k p = (Raise ValueError, p)).
Proof.
  intros Hp Hk. split; [intros Hle|by eapply get_new_blocks_too_many].
  eapply wp_mono; [by apply (get_new_blocks_ok p free)|].
  intros r p' (-> & Hp' & Hf & Hh & Hr). split_and!; [done|done|intros b Hb..].
  - assert (Hb0 : pref p b = 0).
    { apply (di_free _ _ _ _ _ (pi_data _ _ Hp)). by apply elem_of_take in Hb as (i & ?%list_elem_of_lookup_2 & _). }
    rewrite Hr, Hh, !decide_True by done. split; [lia|]. by intros ->.
  - rewrite Hr, Hh, !decide_False by done. split; [lia|done].
Qed.

(** A touched block is protected: after [touch blocks], no number of
    blocks that can be allocated includes one of them. *)
Theorem touched_not_reallocated (p : BlockPool) (free blocks : list loc) (k : Z) :
  pool_inv p free → (∀ b, b ∈ blocks → (b < nblk p)%nat) →
  0 ≤ k ≤ len (without blocks free) →
  wp (_ ← touch blocks; get_new_blocks k)
    (λ r p', len r = k ∧ (∀ b, b ∈ r → b ∉ blocks) ∧
       (∀ b, b ∈ blocks → pref p' b = pref p b + occ b blocks ∧ phash p' b = phash p b)) p.
Proof.
  intros Hp Hb Hk. wp_step. eapply wp_mono; [by apply touch_spec|].
  intros _ p1 [Hp1 Hc]. set (f := without blocks free) in *.
  assert (Hdisj : ∀ b, b ∈ take (Z.to_nat k) f → b ∉ blocks).
  { intros b Hin%elem_of_take. destruct Hin as (i & Hi & _).
    apply list_elem_of_lookup_2, list_elem_of_filter in Hi. naive_solver. }
  eapply wp_mono; [by apply (get_new_blocks_ok p1 f)|].
  intros r p2 (-> & Hp2 & Hf & Hh & Hr). split_and!; [rewrite length_take; lia|done|].
  intros b Hin. assert (Hnot : b ∉ take (Z.to_nat k) f) by naive_solver.
  rewrite Hr, Hh, !decide_False by done. rewrite (cn_ref _ _ _ Hc), (cn_hash _ _ _ Hc). split; [lia|done].
Qed.

(** [free_blocks] drops one reference per block; the blocks whose last
    reference is dropped enter the free queue in the given order, at its end
    (or, with [prepend], at its front), and keep their hashes, so that they can
    still be hit until they are handed out again. *)
Theorem free_blocks_order (p : BlockPool) (free l : list loc) (prepend : bool) :
  pool_inv p free → can_free p l →
  wp (free_blocks l prepend)
    (λ _ p', let freed := filter (λ b, b ≠ null_block p ∧ pref p b = 1) l in
       pool_inv p' (if prepend then freed ++ free else free ++ freed) ∧
       (∀ b, pref p' b = pref p b - occ b l) ∧
       (∀ b, phash p' b = phash p b) ∧
       cached_block_hash_to_block p' = cached_block_hash_to_block p) p.
Proof.
  intros Hp Hl. eapply wp_mono; [by apply free_blocks_spec|]. intros _ p' [Hp' Hc].
  split_and!; [exact Hp'| |apply (cn_hash _ _ _ Hc)|apply (cn_table _ _ _ Hc)].
  intros b. rewrite (cn_ref _ _ _ Hc). lia.
Qed.

(** C25. The cache lookup is sound and complete: a hit gives, for each group,
    a block of the pool (never the null block) that carries exactly the key of
    the hash and the group; a miss means that for some group no block carries
    the key. *)
Theorem lookup_sound_complete (p : BlockPool) (free : list loc) (h : bytes) (gs : list Z) :
  pool_inv p free → Forall (λ g, 0 ≤ g < 2 ^ 32) gs →
  match get_cached_block (cached_block_hash_to_block p) h gs with
  | Ok (Some bs) => Forall2 (λ g b, (b < nblk p)%nat ∧ b ≠ null_block p ∧
                       ∃ key, make_block_hash_with_group_id h g = Ok key ∧ phash p b = Some key) gs bs
  | Ok None => ∃ g key, g ∈ gs ∧ make_block_hash_with_group_id h g = Ok key ∧
                 ∀ b, (b < nblk p)%nat → phash p b ≠ Some key
  | Raise _ => False
  end.
Proof. apply get_cached_block_spec. Qed.

(** C24. After [cache_full_blocks], looking up the hash of any block it stored
    hits, in the group of the call; reference counts and the free queue are
    unchanged; with events on, exactly one event is queued, whose hashes, parent
    hash, tokens and extra keys are those of the stored blocks. *)
Theorem cache_then_hit (p : BlockPool) (free : list loc) (r : Request) (blocks : list loc)
    (nc nf bs g : Z) (mask : option (list bool)) :
  pool_inv p free → cache_call p r blocks nc nf bs g mask →
  NoDup (call_cached p r blocks nc nf bs mask).*1 →
  (∀ b, b ∈ (call_cached p r blocks nc nf bs mask).*1 → phash p b = None) →
  wp (cache_full_blocks r blocks nc nf bs g mask)
    (λ _ p', pool_inv p' free ∧ (∀ b, pref p' b = pref p b) ∧
       (∀ b h, (b, h) ∈ call_cached p r blocks nc nf bs mask →
          ∃ b' key, make_block_hash_with_group_id h g = Ok key ∧
            get_cached_block (cached_block_hash_to_block p') h [g] = Ok (Some [b']) ∧
            phash p' b = Some key ∧ phash p' b' = Some key) ∧
       kv_event_queue p' = kv_event_queue p ++
         (if enable_kv_cache_events p then [call_event p r blocks nc nf bs g mask] else [])) p.
Proof.
  intros Hp Hcall Hnd Hno. eapply wp_mono; [by apply (cache_full_blocks_spec p free)|].
  intros r' p' (Hp' & Hca & _ & Hev).
  split_and!; [done|apply (ca_ref _ _ _ _ Hca)|intros b h Hin|done].
  destruct (ca_in _ _ _ _ Hca b h Hin) as (key & Hkey & Hb).
  pose proof (get_cached_block_spec p' free h [g] Hp' ltac:(by constructor; [apply Hcall|])) as Hget.
  assert (Hbn : (b < nblk p')%nat).
  { unfold nblk. rewrite (pf_num _ _ (ca_frame _ _ _ _ Hca)).
    eapply (cc_in_pool _ _ _ _ _ _ _ _ Hcall), py_slice_subset, to_cache_elem, Hin. }
  destruct (get_cached_block _ h [g]) as [[bs'|]|]; [| |done].
  - apply Forall2_cons_inv_l in Hget as (b' & l & (_ & _ & k & Hk & Hb') & Hl & ->).
    apply Forall2_nil_inv_l in Hl as ->. exists b', key. split_and!; [done|done|done|].
    rewrite Hkey in Hk. congruence.
  - destruct Hget as (g' & k & Hg' & Hk & Hmiss). apply list_elem_of_singleton in Hg' as ->.
    rewrite Hkey in Hk. injection Hk as <-. by destruct (Hmiss b Hbn).
Qed.

(** [reset_prefix_cache] succeeds exactly when no block is in use; then no
    lookup hits any more, and the free queue and the counts are unchanged.  When
    it refuses, it changes nothing. *)
Theorem reset_clears_iff_idle (p : BlockPool) (free : list loc) :
  pool_inv p free →
  wp reset_prefix_cache
    (λ b p', pool_inv p' free ∧
       (b = true ↔ ∀ a, (a < nblk p)%nat → a ≠ null_block p → pref p a = 0) ∧
       (b = false → p' = p) ∧
       (b = true → ∀ h g gs key, make_block_hash_with_group_id h g = Ok key →
          get_cached_block (cached_block_hash_to_block p') h (g :: gs) = Ok None)) p.
Proof.
  intros Hp. eapply wp_mono; [by apply reset_prefix_cache_spec|].
  intros b p' (Hp' & _ & _ & Hb & Hres). split_and!; [done| | |].
  - rewrite Hb, bool_decide_eq_true. by apply all_free_iff.
  - by intros ->.
  - intros -> h g gs key Hkey. destruct Hres as [-> _]. simpl. rewrite Hkey.
    unfold BlockHashToBlockMap.get_one_block. by rewrite lookup_empty.
Qed.

(** ** Witnesses *)
Definition empty_pool : BlockPool := mkPool 0 false 0 (mkQueue [] 0 0 0) ∅ 0 false false [].

(** A pool of five blocks with two of them allocated. *)
Definition demo_pool : BlockPool :=
  match Pool.init 5 true 2 true false with Ok p => p | Raise _ => empty_pool end.
Definition demo_pool2 : BlockPool := (get_new_blocks 2 demo_pool).2.

Lemma demo_pool_eq : Pool.init 5 true 2 true false = Ok demo_pool.
Proof. done. Qed.

Lemma demo_pool_inv : pool_inv demo_pool [1; 2; 3; 4]%nat.
Proof.
  destruct (init_spec 5 true 2 true false ltac:(lia)) as (p & E & Hp & _).
  rewrite demo_pool_eq in E. by injection E as ->.
Qed.

Lemma demo_pool2_inv : pool_inv demo_pool2 [3; 4]%nat.
Proof.
  destruct (wp_snd _ _ _ (get_new_blocks_ok demo_pool _ 2 demo_pool_inv ltac:(simpl; lia)))
    as (r & _ & Hp & _).
  exact Hp.
Qed.

Lemma demo_pool2_step : demo_pool2 = (run_pool_op (OGet 2) demo_pool).2.
Proof. vm_compute. reflexivity. Qed.

Lemma pool_reach_safe_witness :
  ∃ free, FreeKVCacheBlockQueue.get_all_free_blocks (pool_queue demo_pool2) = (Ok free, pool_queue demo_pool2) ∧
    NoDup free ∧ num_free_blocks (pool_queue demo_pool2) = len free ∧
    (∀ b, b ∈ free ↔ (b < nblk demo_pool2)%nat ∧ b ≠ null_block demo_pool2 ∧ pref demo_pool2 b = 0) ∧
    (∀ key b, b ∈ entry_blocks (cached_block_hash_to_block demo_pool2 !! key) ↔
       (b < nblk demo_pool2)%nat ∧ phash demo_pool2 b = Some key).
Proof.
  apply pool_reach_safe. rewrite demo_pool2_step.
  apply (reach_step demo_pool (OGet 2)); [|simpl; lia].
  eapply reach_init, demo_pool_eq.
Defined.

Lemma get_new_blocks_lru_witness :
  wp (get_new_blocks 3)
    (λ r p', r = [1; 2; 3]%nat ∧ pool_inv p' [4]%nat ∧
       (∀ b, b ∈ r → pref p' b = 1 ∧ (enable_caching demo_pool = true → phash p' b = None)) ∧
       (∀ b, b ∉ r → pref p' b = pref demo_pool b ∧ phash p' b = phash demo_pool b)) demo_pool.
Proof.
  apply (get_new_blocks_lru demo_pool [1; 2; 3; 4]%nat 3); [apply demo_pool_inv|lia|simpl; lia].
Defined.

Lemma touched_not_reallocated_witness :
  wp (_ ← touch [2; 3]%nat; get_new_blocks 2)
    (λ r p', len r = 2 ∧ (∀ b, b ∈ r → b ∉ [2; 3]%nat) ∧
       (∀ b, b ∈ [2; 3]%nat → pref p' b = pref demo_pool b + occ b [2; 3]%nat ∧
          phash p' b = phash demo_pool b)) demo_pool.
Proof.
  apply (touched_not_reallocated demo_pool [1; 2; 3; 4]%nat); [apply demo_pool_inv| |vm_compute; done].
  intros b. change (nblk demo_pool) with 5%nat. set_solver by lia.
Defined.

Lemma free_blocks_order_witness :
  wp (free_blocks [2; 0; 1; 0]%nat true)
    (λ _ p', pool_inv p' [2; 1; 3; 4]%nat ∧
       (∀ b, pref p' b = pref demo_pool2 b - occ b [2; 0; 1; 0]%nat) ∧
       (∀ b, phash p' b = phash demo_pool2 b) ∧
       cached_block_hash_to_block p' = cached_block_hash_to_block demo_pool2) demo_pool2.
Proof.
  assert (E : filter (λ b, b ≠ null_block demo_pool2 ∧ pref demo_pool2 b = 1) [2; 0; 1; 0]%nat = [2; 1]%nat)
    by (vm_compute; reflexivity).
  change [2; 1; 3; 4]%nat with ([2; 1] ++ [3; 4])%nat. rewrite <- E.
  apply (free_blocks_order demo_pool2 [3; 4]%nat [2; 0; 1; 0]%nat true); [apply demo_pool2_inv|].
  split.
  - change (NoDup [2; 1]%nat). repeat constructor; set_solver.
  - intros b. change (nblk demo_pool2) with 5%nat. change (null_block demo_pool2) with 0%nat.
    rewrite !elem_of_cons, elem_of_nil.
    intros [->|[->|[->|[->|[]]]]]; (split; [lia|]); intros; first [done|vm_compute; congruence].
Defined.

Lemma lookup_sound_complete_witness :
  match get_cached_block (cached_block_hash_to_block demo_pool) [7] [0; 1] with
  | Ok (Some bs) => False
  | Ok None => ∃ g key, g ∈ [0; 1] ∧ make_block_hash_with_group_id [7] g = Ok key ∧
                 ∀ b, (b < nblk demo_pool)%nat → phash demo_pool b ≠ Some key
  | Raise _ => False
  end.
Proof.
  apply (lookup_sound_complete demo_pool [1; 2; 3; 4]%nat [7] [0; 1]); [apply demo_pool_inv|].
  repeat constructor; lia.
Defined.

Lemma cache_then_hit_witness :
  wp (cache_full_blocks demo_request [1; 2]%nat 0 2 2 3 None)
    (λ _ p', pool_inv p' [3; 4]%nat ∧ (∀ b, pref p' b = pref demo_pool2 b) ∧
       (∀ b h, (b, h) ∈ call_cached demo_pool2 demo_request [1; 2]%nat 0 2 2 None →
          ∃ b' key, make_block_hash_with_group_id h 3 = Ok key ∧
            get_cached_block (cached_block_hash_to_block p') h [3] = Ok (Some [b']) ∧
            phash p' b = Some key ∧ phash p' b' = Some key) ∧
       kv_event_queue p' = kv_event_queue demo_pool2 ++
         [call_event demo_pool2 demo_request [1; 2]%nat 0 2 2 3 None]) demo_pool2.
Proof.
  apply (cache_then_hit demo_pool2 [3; 4]%nat demo_request [1; 2]%nat 0 2 2 3 None).
  - apply demo_pool2_inv.
  - split; try done.
    + intros b. change (nblk demo_pool2) with 5%nat. set_solver by lia.
    + split; [set_solver|]. intros i j f g _ Hf. done.
  - change (NoDup [1; 2]%nat). repeat constructor; set_solver.
  - change ((call_cached demo_pool2 demo_request [1; 2]%nat 0 2 2 None).*1) with [1; 2]%nat.
    intros b. rewrite !elem_of_cons, elem_of_nil. intros [->|[->|[]]]; done.
Defined.

Lemma reset_clears_iff_idle_witness :
  wp reset_prefix_cache
    (λ b p', pool_inv p' [1; 2; 3; 4]%nat ∧
       (b = true ↔ ∀ a, (a < nblk demo_pool)%nat → a ≠ null_block demo_pool → pref demo_pool a = 0) ∧
       (b = false → p' = demo_pool) ∧
       (b = true → ∀ h g gs key, make_block_hash_with_group_id h g = Ok key →
          get_cached_block (cached_block_hash_to_block p') h (g :: gs) = Ok None)) demo_pool.
Proof. apply reset_clears_iff_idle, demo_pool_inv. Defined.
