(* ===== verification/CacheHit.v ===== *)
(** * Finding the longest cache hit

    The class methods [find_longest_cache_hit] and [reachable_block_mask] of the
    managers in [vllm/v1/core/single_type_kv_cache_manager.py].  They read the
    table of the prefix cache and do not change it.

    [computed_blocks] is a tuple with one list per group of the lookup; the
    lists are updated in step.  The model keeps them as such; the proofs view
    them as the columns of a list of rows, a row being the blocks one hash hits
    in the groups.  [HitFinder] is the contract every manager's search meets,
    the interface the coordinator relies on. *)
From S2P Require Import Prelude FreeQueue Request BlockHash BlockPool KVSpec.

(** ** Updating the lists of [computed_blocks] in step *)

(** [for computed, cached in zip(computed_blocks, cached_block):
       computed.append(cached)] *)
Fixpoint append_each (computed : list (list loc)) (cached : list loc) : list (list loc) :=
  match computed, cached with
  | c :: cs, b :: bs => (c ++ [b]) :: append_each cs bs
  | cs, _ => cs
  end.

(** [computed[i] = cached] *)
Fixpoint set_each (i : nat) (computed : list (list loc)) (cached : list loc) : list (list loc) :=
  match computed, cached with
  | c :: cs, b :: bs => <[i := b]> c :: set_each i cs bs
  | cs, _ => cs
  end.

(** [computed.pop()], which raises on an empty list *)
Definition pop_list (l : list loc) : res (list loc) :=
  match l with [] => Raise IndexError | _ => Ok (removelast l) end.

Fixpoint pop_each (computed : list (list loc)) : res (list (list loc)) :=
  match computed with
  | [] => Ok []
  | c :: cs => c' ← pop_list c; cs' ← pop_each cs; Ok (c' :: cs')
  end.

(** [computed_blocks[0]] *)
Definition first_list (computed : list (list loc)) : res (list loc) :=
  match computed with [] => Raise IndexError | c :: _ => Ok c end.

(** [while block_size != alignment_tokens and
       len(computed_blocks[0]) * block_size % alignment_tokens != 0: pop].
    Each turn removes a block, so the length of the first list bounds the
    turns. *)
Fixpoint align_loop (fuel : nat) (bs align : Z) (computed : list (list loc)) : res (list (list loc)) :=
  match fuel with
  | O => Raise OutOfFuel
  | S fuel' =>
      if bs =? align then Ok computed
      else
        c ← first_list computed;
        if len c * bs mod align =? 0 then Ok computed
        else computed' ← pop_each computed; align_loop fuel' bs align computed'
  end.

Definition align_down (bs align : Z) (computed : list (list loc)) : res (list (list loc)) :=
  align_loop (S (match computed with [] => 0 | c :: _ => length c end)) bs align computed.

(** [if drop_eagle_block and computed_blocks[0]: pop] *)
Definition drop_last (drop_eagle_block : bool) (computed : list (list loc)) : res (list (list loc)) :=
  if drop_eagle_block
  then c ← first_list computed;
       match c with [] => Ok computed | _ => pop_each computed end
  else Ok computed.

Section find.
(** The table of the pool, its null block, the hashes of the request at the
    granularity of the groups, and the groups of the lookup. *)
Context (cache : gmap bytes cache_entry) (null_block : loc).
Context (block_hashes : list bytes) (max_length : Z) (kv_cache_group_ids : list Z).

(** [if cached_block := block_pool.get_cached_block(...)]: an empty list is
    false. *)
Definition try_hit (h : bytes) : res (option (list loc)) :=
  r ← Pool.get_cached_block cache h kv_cache_group_ids;
  Ok (match r with Some (b :: bs) => Some (b :: bs) | _ => None end).

Definition hash_at (i : nat) : res bytes :=
  match block_hashes !! i with Some h => Ok h | None => Raise IndexError end.

Definition no_blocks : list (list loc) := (λ _, []) <$> kv_cache_group_ids.
Definition null_blocks (n : nat) : list (list loc) :=
  (λ _, replicate n null_block) <$> kv_cache_group_ids.

(** *** [FullAttentionManager] *)
Fixpoint full_loop (hs : list bytes) (computed : list (list loc)) : res (list (list loc)) :=
  match hs with
  | [] => Ok computed
  | h :: hs' =>
      r ← try_hit h;
      match r with
      | Some cached => full_loop hs' (append_each computed cached)
      | None => Ok computed
      end
  end.

Definition full_find (spec : KVCacheSpec) (drop_eagle_block : bool)
    (alignment_tokens dcp_world_size pcp_world_size : Z) : res (list (list loc)) :=
  match kind spec with
  | FullAttention _ | ChunkedLocal _ =>
      let bs := if 1 <? dcp_world_size * pcp_world_size
                then block_size spec * (dcp_world_size * pcp_world_size)
                else block_size spec in
      let max_num_blocks := max_length / bs in
      if max_num_blocks <? 0 then Raise ValueError   (* itertools.islice *)
      else
        computed ← full_loop (take (Z.to_nat max_num_blocks) block_hashes) no_blocks;
        computed ← drop_last drop_eagle_block computed;
        align_down bs alignment_tokens computed
  | _ => Raise AssertionError
  end.

(** *** [SlidingWindowManager] *)
Definition contiguous_blocks_for_hit (window_size bs : Z) (use_eagle : bool) : Z :=
  let blocks := cdiv (window_size - 1) bs in
  if use_eagle then blocks + 1 else blocks.

(** The loop [for i in range(max_num_blocks - 1, -1, -1)]; [n] is the number
    of indices to visit.  Returns the blocks, [num_contiguous_blocks] and
    [match_found]. *)
Fixpoint sliding_loop (bs align need : Z) (drop_eagle_block : bool) (n : nat)
    (computed : list (list loc)) (num_contiguous : Z) : res (list (list loc) * Z * bool) :=
  match n with
  | O => Ok (computed, num_contiguous, false)
  | S i =>
      h ← hash_at i;
      r ← try_hit h;
      match r with
      | Some cached =>
          let post_pop_blocks := if drop_eagle_block then Z.of_nat i else Z.of_nat i + 1 in
          if (num_contiguous =? 0) && negb (bs =? align)
             && negb (post_pop_blocks * bs mod align =? 0)
          then sliding_loop bs align need drop_eagle_block i computed num_contiguous
          else
            let computed' := set_each i computed cached in
            let num_contiguous' := num_contiguous + 1 in
            if need <=? num_contiguous'
            then Ok (take (Z.to_nat (Z.of_nat i + num_contiguous')) <$> computed', num_contiguous', true)
            else sliding_loop bs align need drop_eagle_block i computed' num_contiguous'
      | None => sliding_loop bs align need drop_eagle_block i computed 0
      end
  end.

Definition sliding_find (spec : KVCacheSpec) (drop_eagle_block : bool)
    (alignment_tokens dcp_world_size pcp_world_size : Z) : res (list (list loc)) :=
  match kind spec with
  | SlidingWindow window _ =>
      if negb (dcp_world_size =? 1) || negb (pcp_world_size =? 1) then Raise AssertionError
      else
        let bs := block_size spec in
        let need := contiguous_blocks_for_hit window bs drop_eagle_block in
        let max_num_blocks := Z.to_nat (max_length / bs) in
        '(computed, num_contiguous, match_found) ←
          sliding_loop bs alignment_tokens need drop_eagle_block max_num_blocks
            (null_blocks max_num_blocks) 0;
        computed ← (if (match_found : bool) then Ok computed
                    else align_down bs alignment_tokens (take (Z.to_nat num_contiguous) <$> computed));
        if drop_eagle_block
        then c ← first_list computed;
             match c with
             | [] => Ok computed
             | _ => computed ← pop_each computed; align_down bs alignment_tokens computed
             end
        else Ok computed
  | _ => Raise AssertionError
  end.

(** *** [ChunkedLocalAttentionManager] *)
Fixpoint chunked_loop (idxs : list nat) (computed : list (list loc)) : res (list (list loc)) :=
  match idxs with
  | [] => Ok computed
  | i :: idxs' =>
      h ← hash_at i;
      r ← try_hit h;
      match r with
      | Some cached => chunked_loop idxs' (append_each computed cached)
      | None => Ok computed
      end
  end.

Definition chunked_find (spec : KVCacheSpec) (drop_eagle_block : bool)
    (alignment_tokens dcp_world_size pcp_world_size : Z) : res (list (list loc)) :=
  match kind spec with
  | ChunkedLocal chunk =>
      if drop_eagle_block || negb (dcp_world_size =? 1) || negb (pcp_world_size =? 1)
         || negb (block_size spec =? alignment_tokens)
      then Raise AssertionError
      else
        let max_num_blocks := Z.to_nat (max_length / block_size spec) in
        let start_idx := if 0 <? max_length then max_length / chunk * chunk else 0 in
        let start_block := Z.to_nat (start_idx / block_size spec) in
        chunked_loop (seq start_block (max_num_blocks - start_block)) (null_blocks start_block)
  | _ => Raise AssertionError
  end.

(** *** [MambaManager] *)
Fixpoint mamba_loop (bs align : Z) (n : nat) : res (list (list loc)) :=
  match n with
  | O => Ok no_blocks
  | S i =>
      h ← hash_at i;
      r ← try_hit h;
      match r with
      | Some cached =>
          if negb (bs =? align) && negb ((Z.of_nat i + 1) * bs mod align =? 0)
          then mamba_loop bs align i
          else Ok (append_each (null_blocks i) cached)
      | None => mamba_loop bs align i
      end
  end.

Definition mamba_find (spec : KVCacheSpec) (drop_eagle_block : bool)
    (alignment_tokens dcp_world_size pcp_world_size : Z) : res (list (list loc)) :=
  match kind spec with
  | Mamba _ _ =>
      if negb (dcp_world_size =? 1) || negb (pcp_world_size =? 1) then Raise AssertionError
      else mamba_loop (block_size spec) alignment_tokens (Z.to_nat (max_length / block_size spec))
  | _ => Raise AssertionError
  end.

(** *** [CrossAttentionManager] *)
Definition cross_find (spec : KVCacheSpec) : res (list (list loc)) :=
  match kind spec with
  | CrossAttention => Raise NotImplementedError
  | _ => Raise AssertionError
  end.

(** The method of the manager class registered for a specification. *)
Definition find_longest_cache_hit (spec : KVCacheSpec) (drop_eagle_block : bool)
    (alignment_tokens dcp_world_size pcp_world_size : Z) : res (list (list loc)) :=
  match kind spec with
  | FullAttention _ => full_find spec drop_eagle_block alignment_tokens dcp_world_size pcp_world_size
  | SlidingWindow _ _ => sliding_find spec drop_eagle_block alignment_tokens dcp_world_size pcp_world_size
  | ChunkedLocal _ => chunked_find spec drop_eagle_block alignment_tokens dcp_world_size pcp_world_size
  | Mamba _ _ => mamba_find spec drop_eagle_block alignment_tokens dcp_world_size pcp_world_size
  | CrossAttention => cross_find spec
  end.
End find.

(** ** [reachable_block_mask] *)

(** The mask of [SlidingWindowManager]; [None]: every block is cached. *)
Definition sliding_mask (start_block end_block alignment_tokens bs window : Z) (use_eagle : bool)
    (retention_interval num_prompt_tokens : option Z) : res (option (list bool)) :=
  if negb (alignment_tokens mod bs =? 0) then Raise AssertionError
  else
    let need := contiguous_blocks_for_hit window bs use_eagle in
    let shift := if use_eagle then 1 else 0 in
    let segment_tokens :=
      match retention_interval with
      | None => Some alignment_tokens
      | Some r => if r =? 0 then None else Some r
      end in
    let tail i :=
      match segment_tokens with
      | None => false
      | Some t => (shift <=? i) && (t / bs - need <=? (i - shift) mod (t / bs))
      end in
    let replay i :=
      match retention_interval, num_prompt_tokens with
      | Some _, Some np =>
          let latest := (np - 1) / alignment_tokens * alignment_tokens in
          let prompt_end_block := latest / bs + shift in
          (prompt_end_block - need <=? i) && (i <? prompt_end_block)
      | _, _ => false
      end in
    match segment_tokens with
    | Some t => if t / bs <=? need then Ok None
                else Ok (Some ((λ i, tail i || replay i) <$> py_range start_block end_block))
    | None => Ok (Some ((λ i, tail i || replay i) <$> py_range start_block end_block))
    end.

(** Only the sliding-window manager masks blocks. *)
Definition reachable_block_mask (spec : KVCacheSpec) (start_block end_block alignment_tokens : Z)
    (use_eagle : bool) (retention_interval num_prompt_tokens : option Z) : res (option (list bool)) :=
  match kind spec with
  | SlidingWindow window _ =>
      sliding_mask start_block end_block alignment_tokens (block_size spec) window use_eagle
        retention_interval num_prompt_tokens
  | _ => Ok None
  end.

(** ** Columns of a list of rows *)
Definition cols (G : nat) (rows : list (list loc)) : list (list loc) :=
  (λ k, (λ row, row !!! k) <$> rows) <$> seq 0 G.

Section cols.
Implicit Types (rows computed : list (list loc)) (row cached : list loc) (G k i : nat).

Lemma cols_lookup G rows k :
  cols G rows !! k = if decide (k < G)%nat then Some ((λ row, row !!! k) <$> rows) else None.
Proof.
  unfold cols. rewrite list_lookup_fmap. case_decide.
  - by rewrite lookup_seq_lt.
  - by rewrite lookup_seq_ge by lia.
Qed.

Lemma cols_length G rows : length (cols G rows) = G.
Proof. unfold cols. by rewrite length_fmap, length_seq. Qed.

Lemma append_each_lookup computed : ∀ cached k,
  append_each computed cached !! k =
  match computed !! k, cached !! k with
  | Some c, Some b => Some (c ++ [b])
  | o, _ => o
  end.
Proof.
  induction computed as [|c cs IH]; intros [|b bs] [|k]; simpl; try done.
  by destruct (cs !! k).
Qed.

Lemma set_each_lookup i computed : ∀ cached k,
  set_each i computed cached !! k =
  match computed !! k, cached !! k with
  | Some c, Some b => Some (<[i := b]> c)
  | o, _ => o
  end.
Proof.
  induction computed as [|c cs IH]; intros [|b bs] [|k]; simpl; try done.
  by destruct (cs !! k).
Qed.

Lemma row_lookup row G k : length row = G → (k < G)%nat → row !! k = Some (row !!! k).
Proof. intros <- Hk. by apply list_lookup_lookup_total_lt. Qed.

Lemma append_each_cols G rows row :
  length row = G → append_each (cols G rows) row = cols G (rows ++ [row]).
Proof.
  intros Hr. apply list_eq. intros k. rewrite append_each_lookup, !cols_lookup.
  case_decide; [|done]. rewrite (row_lookup row G k) by done. by rewrite fmap_app.
Qed.

Lemma set_each_cols G rows i row :
  length row = G → set_each i (cols G rows) row = cols G (<[i := row]> rows).
Proof.
  intros Hr. apply list_eq. intros k. rewrite set_each_lookup, !cols_lookup.
  case_decide; [|done]. rewrite (row_lookup row G k) by done. by rewrite list_fmap_insert.
Qed.

Lemma take_cols G rows n : take n <$> cols G rows = cols G (take n rows).
Proof.
  apply list_eq. intros k. rewrite list_lookup_fmap, !cols_lookup.
  case_decide; [|done]. simpl. by rewrite fmap_take.
Qed.

Lemma pop_each_cols G rows row : pop_each (cols G (rows ++ [row])) = Ok (cols G rows).
Proof.
  unfold cols. induction (seq 0 G) as [|k ks IH]; [done|]. rewrite !fmap_cons. cbn [pop_each].
  assert (E : pop_list ((λ row0, row0 !!! k) <$> rows ++ [row]) = Ok ((λ row0, row0 !!! k) <$> rows)).
  { rewrite fmap_app. unfold pop_list. simpl (_ <$> [row]).
    destruct ((_ <$> rows) ++ _) eqn:E; [by apply app_nil in E as [_ ?]|].
    by rewrite <- E, removelast_last. }
  rewrite E. unfold mbind, res_bind in IH |- *. rewrite IH. done.
Qed.

Lemma first_list_cols G rows :
  (0 < G)%nat → first_list (cols G rows) = Ok ((λ row, row !!! 0%nat) <$> rows).
Proof. intros HG. destruct G; [lia|]. done. Qed.

Lemma no_blocks_cols gids : no_blocks gids = cols (length gids) [].
Proof.
  apply list_eq. intros k. unfold no_blocks. rewrite list_lookup_fmap, cols_lookup.
  destruct (gids !! k) eqn:E.
  - apply lookup_lt_Some in E. by rewrite decide_True.
  - apply lookup_ge_None in E. by rewrite decide_False by lia.
Qed.

Lemma null_blocks_cols nb gids n :
  null_blocks nb gids n = cols (length gids) (replicate n (replicate (length gids) nb)).
Proof.
  apply list_eq. intros k. unfold null_blocks. rewrite list_lookup_fmap, cols_lookup.
  destruct (gids !! k) eqn:E.
  - apply lookup_lt_Some in E. rewrite decide_True by done. simpl. f_equal.
    rewrite fmap_replicate. f_equal. symmetry. by apply lookup_total_replicate_2.
  - apply lookup_ge_None in E. by rewrite decide_False by lia.
Qed.

(** *** Rounding a number of blocks down to the alignment *)
Definition aligned (bs align : Z) (n : nat) : Prop := Z.of_nat n * bs mod align = 0.
#[global] Instance aligned_dec bs align n : Decision (aligned bs align n).
Proof. unfold aligned. apply _. Defined.

Fixpoint round_blocks (bs align : Z) (n : nat) : nat :=
  if decide (aligned bs align n) then n
  else match n with O => O | S n' => round_blocks bs align n' end.

Lemma round_blocks_spec bs align n :
  aligned bs align (round_blocks bs align n) ∧ (round_blocks bs align n ≤ n)%nat ∧
  ∀ m, (m ≤ n)%nat → aligned bs align m → (m ≤ round_blocks bs align n)%nat.
Proof.
  induction n as [|n (IH1 & IH2 & IH3)]; cbn [round_blocks]; case_decide as E.
  - split_and!; [done|lia|lia].
  - by destruct E.
  - split_and!; [done|lia|lia].
  - split_and!; [done|lia|]. intros m Hm Ha. destruct (decide (m = S n)) as [->|]; [done|].
    apply IH3; [lia|done].
Qed.

Lemma round_blocks_le bs align n : (round_blocks bs align n ≤ n)%nat.
Proof. apply round_blocks_spec. Qed.

Lemma round_blocks_aligned bs align n : aligned bs align n → round_blocks bs align n = n.
Proof. intros H. destruct n; cbn [round_blocks]; by rewrite decide_True. Qed.

Lemma aligned_same bs n : bs ≠ 0 → aligned bs bs n.
Proof. intros. unfold aligned. by apply Z.mod_mul. Qed.

Lemma align_loop_cols G bs align rows : ∀ fuel,
  (0 < G)%nat → bs ≠ 0 → (length rows < fuel)%nat →
  align_loop fuel bs align (cols G rows) = Ok (cols G (take (round_blocks bs align (length rows)) rows)).
Proof.
  induction rows as [|row rows IH] using rev_ind; intros [|fuel] HG Hbs Hf; simpl in Hf;
    [lia| |lia|]; cbn [align_loop].
  - destruct (bs =? align); [done|]. by rewrite first_list_cols.
  - rewrite !length_app, Nat.add_1_r in *. simpl length in *.
    destruct (Z.eqb_spec bs align) as [->|Hne].
    { rewrite round_blocks_aligned by (by apply aligned_same).
      by rewrite take_ge by (rewrite length_app; simpl; lia). }
    rewrite first_list_cols by done. unfold mbind, res_bind. rewrite length_fmap, length_app.
    cbn [length]. rewrite Nat.add_1_r. cbn [round_blocks]. unfold aligned at 1.
    destruct (Z.eqb_spec (Z.of_nat (S (length rows)) * bs mod align) 0) as [E|E].
    + rewrite decide_True by done. by rewrite take_ge by (rewrite length_app; simpl; lia).
    + rewrite decide_False by done. rewrite pop_each_cols, IH by (done || lia). do 2 f_equal.
      rewrite take_app_le; [done|]. apply round_blocks_spec.
Qed.

Lemma align_down_cols G bs align rows :
  (0 < G)%nat → bs ≠ 0 →
  align_down bs align (cols G rows) = Ok (cols G (take (round_blocks bs align (length rows)) rows)).
Proof.
  intros HG Hbs. unfold align_down.
  assert (E : match cols G rows with [] => 0 | c :: _ => length c end%nat = length rows).
  { destruct G as [|G]; [lia|]. simpl. by rewrite length_fmap. }
  rewrite E. by apply align_loop_cols; [| |lia].
Qed.
End cols.

(** ** What a lookup gives *)
Lemma get_cached_block_length cache h gs bs :
  Pool.get_cached_block cache h gs = Ok (Some bs) → length bs = length gs.
Proof.
  revert bs. induction gs as [|g gs IH]; intros bs; simpl; [by intros [= <-]|].
  destruct (make_block_hash_with_group_id h g); [|done].
  destruct (BlockHashToBlockMap.get_one_block cache _); [|done].
  destruct (Pool.get_cached_block cache h gs) as [[bs'|]|]; [|done..].
  intros [= <-]. simpl. by rewrite (IH bs').
Qed.

Lemma get_cached_block_no_raise cache h gs :
  Forall (λ g, 0 ≤ g < 2 ^ 32) gs → ∃ o, Pool.get_cached_block cache h gs = Ok o.
Proof.
  induction 1 as [|g gs Hg _ [o IH]]; simpl; [by eexists|].
  destruct (make_key_ok h g Hg) as (key & -> & _).
  destruct (BlockHashToBlockMap.get_one_block cache key); [|by eexists].
  rewrite IH. destruct o; by eexists.
Qed.

Section contract.
Context (cache : gmap bytes cache_entry) (nb : loc) (hs : list bytes) (gids : list Z).
Abbreviation G := (length gids).

(** The blocks a hash hits, one per group. *)
Definition row_of (h : bytes) : option (list loc) :=
  match Pool.get_cached_block cache h gids with Ok o => o | Raise _ => None end.

(** The blocks hit by the [i]-th hash of the request. *)
Definition row_at (i : nat) : option (list loc) := hs !! i ≫= row_of.

Definition null_row : list loc := replicate G nb.

(** The contract of a search over blocks of size [bs]: the result, seen as
    rows, is not longer than asked, aligned, made of null blocks and of hits
    at their own positions, and every block that the computation of the next
    token reads is a hit. *)
Record hit_ok (k : spec_kind) (bs align max_length : Z) (rows : list (list loc)) : Prop := {
  ho_max : len rows * bs ≤ max_length;
  ho_aligned : aligned bs align (length rows);
  ho_rows j row : rows !! j = Some row → row = null_row ∨ row_at j = Some row;
  ho_window j : (j < length rows)%nat →
    num_skipped_tokens k (len rows * bs) < (Z.of_nat j + 1) * bs →
    is_Some (row_at j) ∧ rows !! j = row_at j;
}.

(** The lookups of one search have at least one group, and group ids fit in
    the four bytes of the key. *)
Record groups_ok : Prop := {
  go_range : Forall (λ g, 0 ≤ g < 2 ^ 32) gids;
  go_pos : (0 < G)%nat;
}.
Context (Hg : groups_ok).

Lemma row_of_length h row : row_of h = Some row → length row = G.
Proof.
  unfold row_of. destruct (Pool.get_cached_block cache h gids) as [o|] eqn:E; [|done].
  intros ->. by eapply get_cached_block_length.
Qed.

Lemma row_at_length i row : row_at i = Some row → length row = G.
Proof. unfold row_at. destruct (hs !! i); [|done]. apply row_of_length. Qed.

Lemma try_hit_row h : try_hit cache gids h = Ok (row_of h).
Proof.
  destruct Hg as [Hr Hpos]. unfold try_hit.
  destruct (get_cached_block_no_raise cache h gids Hr) as [o Ho].
  pose proof (row_of_length h) as Hlen. unfold row_of in *. rewrite Ho in *. simpl.
  destruct o as [[|b bs]|]; [|done..]. specialize (Hlen _ eq_refl). simpl in Hlen. lia.
Qed.

Lemma hash_hit {A} i (k : option (list loc) → res A) :
  (i < length hs)%nat → (h ← hash_at hs i; r ← try_hit cache gids h; k r) = k (row_at i).
Proof.
  intros [h Hh]%lookup_lt_is_Some. unfold hash_at, row_at. rewrite Hh. simpl.
  unfold mbind at 1, res_bind at 1. by rewrite try_hit_row.
Qed.

(** *** Runs of hits from the left *)
Fixpoint hit_prefix (l : list bytes) : list (list loc) :=
  match l with
  | [] => []
  | h :: l' => match row_of h with Some row => row :: hit_prefix l' | None => [] end
  end.

Lemma hit_prefix_lookup l : ∀ j, (j < length (hit_prefix l))%nat →
  is_Some (l !! j ≫= row_of) ∧ hit_prefix l !! j = l !! j ≫= row_of.
Proof.
  induction l as [|h l IH]; intros j Hj; simpl in *; [lia|].
  destruct (row_of h) as [row|] eqn:E; simpl in *; [|lia].
  destruct j as [|j]; simpl; [rewrite E; eauto|]. apply IH. lia.
Qed.

Lemma hit_prefix_length l : (length (hit_prefix l) ≤ length l)%nat.
Proof. induction l as [|h l IH]; simpl; [done|]. destruct (row_of h); simpl; lia. Qed.

Lemma hit_prefix_longest l : ∀ n, (n ≤ length l)%nat →
  (∀ j, (j < n)%nat → is_Some (l !! j ≫= row_of)) → (n ≤ length (hit_prefix l))%nat.
Proof.
  induction l as [|h l IH]; intros [|n] Hn Hall; simpl in *; try lia.
  destruct (Hall 0%nat ltac:(lia)) as [row Hrow]. simpl in Hrow. rewrite Hrow. simpl.
  apply le_n_S, IH; [lia|]. intros j Hj. apply (Hall (S j)). lia.
Qed.

Lemma full_loop_rows l : ∀ rows,
  full_loop cache gids l (cols G rows) = Ok (cols G (rows ++ hit_prefix l)).
Proof.
  induction l as [|h l IH]; intros rows; cbn [full_loop hit_prefix].
  - by rewrite app_nil_r.
  - rewrite try_hit_row. unfold mbind, res_bind. destruct (row_of h) as [row|] eqn:E.
    + rewrite append_each_cols by (by eapply row_of_length). rewrite IH.
      by rewrite <- app_assoc.
    + by rewrite app_nil_r.
Qed.

Lemma drop_last_cols drop rows :
  drop_last drop (cols G rows) = Ok (cols G (if drop then removelast rows else rows)).
Proof.
  destruct Hg as [_ Hpos]. unfold drop_last. destruct drop; [|done].
  rewrite first_list_cols by done. unfold mbind, res_bind.
  destruct rows as [|row rows _] using rev_ind; [done|].
  rewrite fmap_app. destruct ((_ <$> rows) ++ _) eqn:E; [by apply app_nil in E as [_ ?]|].
  rewrite pop_each_cols, removelast_last. done.
Qed.
End contract.

(** ** Full attention *)
Definition eff_block_size (spec : KVCacheSpec) (dcp pcp : Z) : Z :=
  if 1 <? dcp * pcp then block_size spec * (dcp * pcp) else block_size spec.

Section full.
Context (cache : gmap bytes cache_entry) (nb : loc) (hs : list bytes) (gids : list Z).
Context (Hg : groups_ok gids).
Context (spec : KVCacheSpec) (max_length align dcp pcp : Z) (drop : bool).
Abbreviation bs := (eff_block_size spec dcp pcp).
Abbreviation G := (length gids).
Abbreviation maxb := (Z.to_nat (max_length / bs)).
Context (Hbs : 0 < bs) (Hmax : 0 ≤ max_length).
Context (k : full_kind) (Hkind : kind spec = FullAttention k).

Abbreviation hits := (hit_prefix cache gids (take maxb hs)).
Abbreviation kept := (if drop then pred (length hits) else length hits).

Lemma full_find_rows :
  full_find cache hs max_length gids spec drop align dcp pcp
  = Ok (cols G (take (round_blocks bs align kept) hits)).
Proof.
  unfold full_find. rewrite Hkind. fold (eff_block_size spec dcp pcp).
  assert (0 ≤ max_length / bs) by (apply Z.div_pos; lia).
  rewrite (proj2 (Z.ltb_ge _ _)) by done.
  rewrite no_blocks_cols, full_loop_rows by done. unfold mbind at 1, res_bind at 1.
  rewrite drop_last_cols by done. unfold mbind, res_bind.
  rewrite align_down_cols by (apply Hg || lia). rewrite app_nil_l.
  assert (Hlast : (if drop then removelast hits else hits) = take kept hits).
  { destruct drop; [apply removelast_firstn_len|]. by rewrite firstn_all. }
  rewrite Hlast, length_take, Nat.min_l by (destruct drop; lia).
  rewrite take_take, Nat.min_l; [done|]. apply round_blocks_spec.
Qed.

Abbreviation rows := (take (round_blocks bs align kept) hits).

Lemma full_rows_length : length rows = round_blocks bs align kept.
Proof.
  rewrite length_take, Nat.min_l; [done|]. etrans; [apply round_blocks_le|]. destruct drop; lia.
Qed.

Lemma full_kept_max : (kept ≤ maxb)%nat.
Proof.
  pose proof (hit_prefix_length cache gids (take maxb hs)). rewrite length_take in *.
  destruct drop; lia.
Qed.

Lemma full_row_at j : (j < length rows)%nat →
  is_Some (row_at cache hs gids j) ∧ rows !! j = row_at cache hs gids j.
Proof.
  intros Hj. rewrite full_rows_length in Hj.
  pose proof (proj1 (proj2 (round_blocks_spec bs align kept))) as Hle.
  rewrite lookup_take_lt by done.
  destruct (hit_prefix_lookup cache gids (take maxb hs) j) as [Hs E]; [destruct drop; lia|].
  pose proof full_kept_max. rewrite lookup_take_lt in Hs, E by lia. done.
Qed.

Lemma full_hit_ok : hit_ok cache nb hs gids (kind spec) bs align max_length rows.
Proof.
  pose proof full_row_at as Hrow. destruct (round_blocks_spec bs align kept) as (Ha & Hle & _).
  pose proof full_kept_max. split.
  - rewrite full_rows_length. pose proof (Z.mul_div_le max_length bs Hbs). nia.
  - by rewrite full_rows_length.
  - intros j row Hj. right. pose proof (lookup_lt_Some _ _ _ Hj) as Hlt.
    apply Hrow in Hlt as [_ <-]. done.
  - intros j Hj _. by apply Hrow.
Qed.

Lemma full_hit_drop : drop = true → length rows = 0%nat ∨ (len rows + 1) * bs ≤ max_length.
Proof.
  intros Hd. rewrite full_rows_length. pose proof (round_blocks_spec bs align kept) as (_ & Hle & _).
  pose proof full_kept_max as Hk. rewrite Hd in *.
  pose proof (hit_prefix_length cache gids (take maxb hs)) as Hl. rewrite length_take in Hl.
  pose proof (Z.mul_div_le max_length bs Hbs).
  destruct (length hits) as [|n] eqn:E; [left; simpl in *; lia|right]. simpl in *. nia.
Qed.

Lemma full_longest n :
  drop = false → (n ≤ length hs)%nat → Z.of_nat n * bs ≤ max_length → aligned bs align n →
  (∀ j, (j < n)%nat → is_Some (row_at cache hs gids j)) → (n ≤ length rows)%nat.
Proof.
  intros Hd Hn Hm Ha Hall. rewrite full_rows_length. apply round_blocks_spec; [|done].
  assert (Hnm : (n ≤ maxb)%nat).
  { pose proof (Z.div_le_lower_bound max_length bs (Z.of_nat n) Hbs). lia. }
  rewrite Hd. apply hit_prefix_longest.
  - rewrite length_take. lia.
  - intros j Hj. rewrite lookup_take_lt by lia. by apply Hall.
Qed.
End full.

(** ** Sliding window *)
Section sliding.
Context (cache : gmap bytes cache_entry) (nb : loc) (hs : list bytes) (gids : list Z).
Context (Hg : groups_ok gids) (bs align need : Z) (drop : bool) (maxb : nat).
Context (Hhs : (maxb ≤ length hs)%nat).
Abbreviation G := (length gids).
Abbreviation rowat := (row_at cache hs gids).
Abbreviation nulls := (null_row nb gids).

(** [r] blocks may end a run: the length left after the drop is aligned. *)
Definition edge_ok (r : nat) : Prop :=
  bs = align ∨ (if drop then Z.of_nat r - 1 else Z.of_nat r) * bs mod align = 0.

(** The window that ends after [r] blocks is cached. *)
Definition valid_edge (r : nat) : Prop :=
  (1 ≤ r)%nat ∧ edge_ok r ∧
  ∀ j, Z.of_nat r - need ≤ Z.of_nat j → (j < r)%nat → is_Some (rowat j).

Abbreviation hit_in rows j := (is_Some (rowat j) ∧ rows !! (j : nat) = rowat j).

(** With [n] indices left and a current run of [nc] blocks. *)
Record run_inv (n nc : nat) (rows : list (list loc)) : Prop := {
  ri_len : length rows = maxb;
  ri_bound : (n + nc ≤ maxb)%nat;
  ri_rows j : (j < n)%nat → rows !! j = Some nulls;
  ri_hit j : (n ≤ j < n + nc)%nat → hit_in rows j;
  ri_edge : (0 < nc)%nat → edge_ok (n + nc);
  ri_need : (0 < nc)%nat → Z.of_nat nc < need;
  ri_max r : 1 ≤ need → (r ≤ maxb)%nat → valid_edge r → (r ≤ n + nc)%nat;
}.

(** The result: the rows up to the end of the run found. *)
Record run_res (found : bool) (rows : list (list loc)) : Prop := {
  rr_bound : (length rows ≤ maxb)%nat;
  rr_rows j row : rows !! j = Some row → row = nulls ∨ rowat j = Some row;
  rr_tail j : Z.of_nat (length rows) - need ≤ Z.of_nat j → (j < length rows)%nat → hit_in rows j;
  rr_edge : (0 < length rows)%nat → edge_ok (length rows);
  rr_found : if found then (0 < length rows)%nat else ∀ j, (j < length rows)%nat → hit_in rows j;
  rr_max r : 1 ≤ need → (r ≤ maxb)%nat → valid_edge r → (r ≤ length rows)%nat;
}.

Lemma run_skip n rows : run_inv (S n) 0 rows → ¬ edge_ok (S n) → run_inv n 0 rows.
Proof.
  intros [H1 H2 H3 H4 H5 H6 H7] He. split; [done|lia|intros; apply H3; lia|lia|lia|lia|].
  intros r Hn Hr Hv. specialize (H7 r Hn Hr Hv).
  destruct (decide (r = S n)) as [->|]; [by destruct Hv as (_ & ? & _)|lia].
Qed.

Lemma run_miss n nc rows : run_inv (S n) nc rows → rowat n = None → run_inv n 0 rows.
Proof.
  intros [H1 H2 H3 H4 H5 H6 H7] He. split; [done|lia|intros; apply H3; lia|lia|lia|lia|].
  intros r Hn Hr Hv. specialize (H7 r Hn Hr Hv). destruct (decide (r ≤ n)%nat); [lia|exfalso].
  destruct Hv as (_ & _ & Hall). destruct (Hall n) as [x Hx]; [|lia|congruence].
  destruct (decide (0 < nc)%nat) as [Hc|]; [specialize (H6 Hc); lia|lia].
Qed.

Section extend.
Context (n nc : nat) (rows : list (list loc)) (row : list loc).
Context (Hinv : run_inv (S n) nc rows) (Hrow : rowat n = Some row).
Context (Hedge : nc = 0%nat → edge_ok (S n)).

Lemma run_extend_hit j : (n ≤ j < n + S nc)%nat → hit_in (<[n := row]> rows) j.
Proof.
  destruct Hinv as [H1 H2 H3 H4 H5 H6 H7]. intros Hj. destruct (decide (j = n)) as [->|].
  - rewrite list_lookup_insert_eq by lia. rewrite Hrow. eauto.
  - rewrite list_lookup_insert_ne by done. apply H4. lia.
Qed.

Lemma run_extend_edge : edge_ok (n + S nc).
Proof.
  destruct Hinv as [H1 H2 H3 H4 H5 H6 H7]. replace (n + S nc)%nat with (S n + nc)%nat by lia.
  destruct (decide (nc = 0%nat)) as [E|]; [|apply H5; lia].
  rewrite E, Nat.add_0_r. by apply Hedge.
Qed.

Lemma run_extend : Z.of_nat (S nc) < need → run_inv n (S nc) (<[n := row]> rows).
Proof.
  intros Hlt. pose proof run_extend_hit as Hh. pose proof run_extend_edge as He.
  destruct Hinv as [H1 H2 H3 H4 H5 H6 H7].
  split; [by rewrite length_insert|lia| |done|done|done|].
  - intros j Hj. rewrite list_lookup_insert_ne by lia. apply H3. lia.
  - intros r Hn Hr Hv. specialize (H7 r Hn Hr Hv). lia.
Qed.

Lemma run_found :
  need ≤ Z.of_nat (S nc) → run_res true (take (n + S nc) (<[n := row]> rows)).
Proof.
  intros Hge. pose proof run_extend_hit as Hh. pose proof run_extend_edge as He.
  destruct Hinv as [H1 H2 H3 H4 H5 H6 H7].
  assert (Hl : length (take (n + S nc) (<[n := row]> rows)) = (n + S nc)%nat).
  { rewrite length_take, length_insert. lia. }
  assert (Hhit : ∀ j, (n ≤ j < n + S nc)%nat → hit_in (take (n + S nc) (<[n := row]> rows)) j).
  { intros j Hj. rewrite lookup_take_lt by lia. by apply Hh. }
  split; rewrite ?Hl; [lia| | |done|lia|].
  - intros j row' Hj. pose proof (lookup_lt_Some _ _ _ Hj) as Hlt. rewrite Hl in Hlt.
    destruct (decide (n ≤ j)%nat); [right; by rewrite <- (proj2 (Hhit j ltac:(lia)))|left].
    rewrite lookup_take_lt, list_lookup_insert_ne, H3 in Hj by lia. naive_solver.
  - intros j Hj Hlt. apply Hhit. lia.
  - intros r Hn Hr Hv. specialize (H7 r Hn Hr Hv). lia.
Qed.
End extend.

Lemma run_not_found nc rows : run_inv 0 nc rows → run_res false (take nc rows).
Proof.
  intros [H1 H2 H3 H4 H5 H6 H7].
  assert (Hl : length (take nc rows) = nc) by (rewrite length_take; lia).
  assert (Hhit : ∀ j, (j < nc)%nat → hit_in (take nc rows) j).
  { intros j Hj. rewrite lookup_take_lt by lia. apply H4. lia. }
  split; rewrite ?Hl; [lia| |intros j _ Hj; by apply Hhit|done|done|done].
  intros j row Hj. pose proof (lookup_lt_Some _ _ _ Hj) as Hlt. rewrite Hl in Hlt. right.
  by rewrite <- (proj2 (Hhit j Hlt)).
Qed.

(** The loop ends, with a result that satisfies [run_res]. *)
Lemma sliding_loop_ok n : ∀ nc rows, run_inv n nc rows →
  ∃ rows' nc' found,
    sliding_loop cache hs gids bs align need drop n (cols G rows) (Z.of_nat nc)
      = Ok (cols G rows', nc', found) ∧
    run_res found (if found then rows' else take (Z.to_nat nc') rows').
Proof.
  induction n as [|n IH]; intros nc rows Hinv.
  { exists rows, (Z.of_nat nc), false. split; [done|]. rewrite Nat2Z.id. by apply run_not_found. }
  cbn [sliding_loop]. rewrite hash_hit by (done || (destruct Hinv; lia)).
  destruct (rowat n) as [row|] eqn:Erow.
  2: { apply (IH 0%nat). by eapply run_miss. }
  set (post := (if drop then _ else _)).
  assert (Hpost : post = if drop then Z.of_nat (S n) - 1 else Z.of_nat (S n)) by (subst post; destruct drop; lia).
  destruct ((Z.of_nat nc =? 0) && negb (bs =? align) && negb (post * bs mod align =? 0)) eqn:Eskip.
  - rewrite !andb_true_iff, !negb_true_iff, Z.eqb_eq, !Z.eqb_neq in Eskip.
    destruct Eskip as [[E1 E2] E3]. assert (nc = 0%nat) as -> by lia.
    apply (IH 0%nat). apply run_skip; [done|]. unfold edge_ok. rewrite <- Hpost. naive_solver.
  - assert (Hedge : nc = 0%nat → edge_ok (S n)).
    { intros ->. unfold edge_ok. rewrite <- Hpost. simpl in Eskip.
      destruct (Z.eqb_spec bs align); [by left|right]. simpl in Eskip.
      by destruct (Z.eqb_spec (post * bs mod align) 0). }
    rewrite set_each_cols by (by eapply row_at_length).
    replace (Z.of_nat nc + 1) with (Z.of_nat (S nc)) by lia.
    destruct (Z.leb_spec need (Z.of_nat (S nc))) as [Hle|Hgt].
    + rewrite take_cols. eexists _, _, true. split; [done|].
      replace (Z.to_nat (Z.of_nat n + Z.of_nat (S nc))) with (n + S nc)%nat by lia.
      by apply run_found.
    + apply IH. by apply run_extend.
Qed.

Lemma run_inv_init : run_inv maxb 0 (replicate maxb nulls).
Proof.
  split; [apply length_replicate|lia| |lia|lia|lia|lia].
  intros j Hj. by apply lookup_replicate_2.
Qed.
End sliding.

Section sliding_find.
Context (cache : gmap bytes cache_entry) (nb : loc) (hs : list bytes) (gids : list Z).
Context (Hg : groups_ok gids) (spec : KVCacheSpec) (max_length align : Z) (drop : bool).
Context (w : Z) (mla : bool) (Hkind : kind spec = SlidingWindow w mla).
Abbreviation bs := (block_size spec).
Abbreviation G := (length gids).
Abbreviation maxb := (Z.to_nat (max_length / bs)).
Abbreviation need := (contiguous_blocks_for_hit w bs drop).
Context (Hbs : 0 < bs) (Hmax : 0 ≤ max_length) (Hhs : (maxb ≤ length hs)%nat).

(** Cutting off blocks of a run of hits that starts at the beginning. *)
Lemma all_hit_ok (rows : list (list loc)) m :
  (length rows ≤ maxb)%nat →
  (∀ j, (j < length rows)%nat → is_Some (row_at cache hs gids j) ∧ rows !! j = row_at cache hs gids j) →
  hit_ok cache nb hs gids (kind spec) bs align max_length
    (take (round_blocks bs align m) rows) ∨ (length rows < round_blocks bs align m)%nat.
Proof.
  intros Hb Hall. destruct (decide (round_blocks bs align m ≤ length rows)%nat) as [Hle|]; [left|right; lia].
  assert (Hl : length (take (round_blocks bs align m) rows) = round_blocks bs align m)
    by (rewrite length_take; lia).
  assert (Hj : ∀ j, (j < round_blocks bs align m)%nat → is_Some (row_at cache hs gids j) ∧
            take (round_blocks bs align m) rows !! j = row_at cache hs gids j).
  { intros j Hj. rewrite lookup_take_lt by done. apply Hall. lia. }
  split; rewrite ?Hl.
  - pose proof (Z.mul_div_le max_length bs Hbs). nia.
  - apply round_blocks_spec.
  - intros j row Hrow. right. pose proof (lookup_lt_Some _ _ _ Hrow) as Hlt. rewrite Hl in Hlt.
    by rewrite <- (proj2 (Hj j Hlt)).
  - intros j Hlt _. by apply Hj.
Qed.

Lemma edge_aligned r :
  (0 < r)%nat → edge_ok bs align drop r → aligned bs align (if drop then pred r else r).
Proof.
  intros Hr [E|E]; [rewrite <- E; apply aligned_same; lia|].
  unfold aligned. destruct drop; [|done]. by replace (Z.of_nat (pred r)) with (Z.of_nat r - 1) by lia.
Qed.

(** A run that covers the window, with the lookahead block dropped. *)
Lemma run_hit_ok rows :
  run_res cache nb hs gids bs align need drop maxb true rows →
  hit_ok cache nb hs gids (kind spec) bs align max_length
    (take (if drop then pred (length rows) else length rows) rows).
Proof.
  intros [Hb Hrows Htail Hedge Hfound _]. specialize (Hedge Hfound).
  apply edge_aligned in Hedge; [|done]. set (m := (if drop then _ else _)) in *.
  assert (Hm : (m ≤ length rows)%nat) by (subst m; destruct drop; lia).
  assert (Hl : length (take m rows) = m) by (rewrite length_take; lia).
  pose proof (Z.mul_div_le max_length bs Hbs).
  split; rewrite ?Hl; [nia|done| |].
  - intros j row. rewrite lookup_take_Some. intros [Hj _]. by eapply Hrows.
  - intros j Hj Hskip. rewrite lookup_take_lt by done. apply Htail; [|lia].
    rewrite Hkind in Hskip. simpl in Hskip. unfold sliding_skipped in Hskip. pose proof (cdiv_spec (w - 1) bs Hbs).
    unfold contiguous_blocks_for_hit. subst m. destruct drop; nia.
Qed.

(** The end of the method: the last block is dropped, and the rest aligned. *)
Definition sliding_end (rows : list (list loc)) : res (list (list loc)) :=
  if drop
  then c ← first_list (cols G rows);
       match c with
       | [] => Ok (cols G rows)
       | _ => computed ← pop_each (cols G rows); align_down bs align computed
       end
  else Ok (cols G rows).

Lemma sliding_end_rows rows :
  sliding_end rows = Ok (cols G (if drop then take (round_blocks bs align (pred (length rows))) rows else rows)).
Proof.
  unfold sliding_end. destruct drop; [|done]. rewrite first_list_cols by apply Hg.
  unfold mbind, res_bind. destruct rows as [|row rows _] using rev_ind; [done|].
  rewrite fmap_app. destruct ((_ <$> rows) ++ _) eqn:E; [by apply app_nil in E as [_ ?]|].
  rewrite pop_each_cols, align_down_cols by (apply Hg || lia).
  rewrite length_app, Nat.add_1_r. cbn [length pred].
  rewrite take_app_le by apply round_blocks_le. done.
Qed.

(** The result of the method: all hits from the left ([found] is false), or
    a run that covers the window. *)
Definition sliding_result (found : bool) (run : list (list loc)) : list (list loc) :=
  let kept := if found then run else take (round_blocks bs align (length run)) run in
  if drop then take (round_blocks bs align (pred (length kept))) kept else kept.

Lemma sliding_result_ok found run :
  run_res cache nb hs gids bs align need drop maxb found run →
  hit_ok cache nb hs gids (kind spec) bs align max_length (sliding_result found run) ∧
  (drop = true → length (sliding_result found run) = 0%nat ∨
     (len (sliding_result found run) + 1) * bs ≤ max_length) ∧
  (drop = false → sliding_result found run = run).
Proof.
  intros Hres. pose proof (rr_bound _ _ _ _ _ _ _ _ _ _ _ Hres) as Hb.
  pose proof (Z.mul_div_le max_length bs Hbs) as Hdiv. unfold sliding_result. destruct found.
  - pose proof (run_hit_ok _ Hres) as Hok. destruct drop; [|by rewrite firstn_all in Hok].
    pose proof (ho_aligned _ _ _ _ _ _ _ _ _ Hok) as Ha. rewrite length_take, Nat.min_l in Ha by lia.
    rewrite round_blocks_aligned by done. split_and!; [done| |done]. intros _. right.
    pose proof (rr_found _ _ _ _ _ _ _ _ _ _ _ Hres) as Hpos. simpl in Hpos.
    rewrite length_take. nia.
  - pose proof (rr_found _ _ _ _ _ _ _ _ _ _ _ Hres) as Hall. simpl in Hall.
    pose proof (round_blocks_le bs align (length run)) as Hle. destruct drop eqn:Ed.
    + rewrite length_take, Nat.min_l by done. set (m := pred _).
      pose proof (round_blocks_le bs align m) as Hm.
      rewrite take_take, Nat.min_l by (subst m; lia). split_and!; [| |done].
      * by destruct (all_hit_ok run m Hb Hall) as [Hok|]; [|subst m; lia].
      * intros _. rewrite length_take. destruct (decide (m = 0%nat)); [left; lia|right].
        subst m. nia.
    + assert (Er : round_blocks bs align (length run) = length run).
      { destruct (decide (length run = 0%nat)) as [->|]; [done|].
        pose proof (edge_aligned (length run)) as Hea. rewrite Ed in Hea.
        apply round_blocks_aligned, Hea; [lia|]. apply (rr_edge _ _ _ _ _ _ _ _ _ _ _ Hres). lia. }
      rewrite Er, firstn_all. split_and!; [|done|done].
      destruct (all_hit_ok run (length run) Hb Hall) as [Hok|]; [|lia].
      by rewrite Er, firstn_all in Hok.
Qed.

Lemma sliding_find_ok :
  ∃ found run, sliding_find cache nb hs max_length gids spec drop align 1 1
      = Ok (cols G (sliding_result found run)) ∧
    run_res cache nb hs gids bs align need drop maxb found run.
Proof.
  unfold sliding_find. rewrite Hkind. simpl negb. cbn [orb].
  rewrite null_blocks_cols. fold (null_row nb gids).
  destruct (sliding_loop_ok cache nb hs gids Hg bs align need drop maxb Hhs maxb 0 _
    (run_inv_init _ _ _ _ _ _ _ _ _ Hhs)) as (rows & nc & found & E & Hres).
  change (Z.of_nat 0) with 0 in E. rewrite E. unfold mbind at 1, res_bind at 1.
  exists found, (if found then rows else take (Z.to_nat nc) rows). split; [|done].
  unfold sliding_result. destruct found.
  - exact (sliding_end_rows rows).
  - rewrite take_cols, align_down_cols by (apply Hg || lia). exact (sliding_end_rows _).
Qed.
End sliding_find.

(** ** Chunked local attention *)
Section chunked.
Context (cache : gmap bytes cache_entry) (nb : loc) (hs : list bytes) (gids : list Z).
Context (Hg : groups_ok gids) (spec : KVCacheSpec) (max_length : Z).
Context (c : Z) (Hkind : kind spec = ChunkedLocal c).
Abbreviation bs := (block_size spec).
Abbreviation G := (length gids).
Abbreviation maxb := (Z.to_nat (max_length / bs)).
Context (Hbs : 0 < bs) (Hmax : 0 ≤ max_length) (Hhs : (maxb ≤ length hs)%nat).
Context (Hc : 0 < c) (Hcb : c mod bs = 0).

(** The first block of the chunk of the next token. *)
Abbreviation start := (Z.to_nat (max_length / c * c / bs)).
Abbreviation hits := (hit_prefix cache gids (take (maxb - start) (drop start hs))).

Lemma chunked_loop_rows n : ∀ i rows, (i + n ≤ length hs)%nat →
  chunked_loop cache hs gids (seq i n) (cols G rows)
  = Ok (cols G (rows ++ hit_prefix cache gids (take n (drop i hs)))).
Proof.
  induction n as [|n IH]; intros i rows Hi; [by rewrite take_0, app_nil_r|].
  cbn [seq chunked_loop]. rewrite hash_hit by (done || lia). unfold row_at.
  destruct (lookup_lt_is_Some_2 hs i) as [h Hh]; [lia|].
  rewrite (drop_S hs h i Hh), Hh. simpl. destruct (row_of cache gids h) as [row|] eqn:E.
  - rewrite append_each_cols by (by eapply row_of_length). rewrite IH by lia.
    by rewrite <- app_assoc.
  - by rewrite app_nil_r.
Qed.

Lemma chunk_start : Z.of_nat start * bs = max_length / c * c ∧ max_length / c * c ≤ max_length.
Proof.
  pose proof (Z.mul_div_le max_length c Hc). assert (0 ≤ max_length / c) by (apply Z.div_pos; lia).
  split; [|lia]. assert (0 ≤ max_length / c * c / bs) by (apply Z.div_pos; nia).
  rewrite Z2Nat.id by done. rewrite Z.mul_comm. symmetry. apply Z.div_exact; [lia|].
  rewrite Z.mul_mod, Hcb, Z.mul_0_r, Z.mod_0_l by lia. done.
Qed.

Lemma chunk_start_le : (start ≤ maxb)%nat.
Proof.
  destruct chunk_start as [Hs Hle]. pose proof (Z.div_le_lower_bound max_length bs (Z.of_nat start) Hbs). lia.
Qed.

Lemma chunked_find_rows :
  chunked_find cache nb hs max_length gids spec false bs 1 1
  = Ok (cols G (replicate start (null_row nb gids) ++ hits)).
Proof.
  unfold chunked_find. rewrite Hkind. simpl negb. cbn [orb]. rewrite Z.eqb_refl. cbn [negb].
  assert (E : (if 0 <? max_length then max_length / c * c else 0) = max_length / c * c).
  { destruct (Z.ltb_spec 0 max_length); [done|]. by assert (max_length = 0) as -> by lia. }
  rewrite E, null_blocks_cols. fold (null_row nb gids). apply chunked_loop_rows.
  pose proof chunk_start_le. lia.
Qed.

Lemma chunked_hit_ok :
  hit_ok cache nb hs gids (kind spec) bs bs max_length (replicate start (null_row nb gids) ++ hits).
Proof.
  destruct chunk_start as [Hs Hle]. pose proof chunk_start_le as Hsm.
  pose proof (Z.mul_div_le max_length bs Hbs) as Hdiv.
  pose proof (hit_prefix_length cache gids (take (maxb - start) (drop start hs))) as Hlen.
  rewrite length_take in Hlen.
  assert (El : length (replicate start (null_row nb gids) ++ hits) = (start + length hits)%nat).
  { by rewrite length_app, length_replicate. }
  assert (Hhit : ∀ j, (start ≤ j < start + length hits)%nat →
    is_Some (row_at cache hs gids j) ∧
    (replicate start (null_row nb gids) ++ hits) !! j = row_at cache hs gids j).
  { intros j Hj. rewrite lookup_app_r by (rewrite length_replicate; lia). rewrite length_replicate.
    destruct (hit_prefix_lookup cache gids (take (maxb - start) (drop start hs)) (j - start)) as [H1 H2]; [lia|].
    rewrite lookup_take_lt, lookup_drop in H1, H2 by lia.
    replace (start + (j - start))%nat with j in * by lia. done. }
  split; rewrite ?El; [nia|apply aligned_same; lia| |].
  - intros j row Hj. destruct (decide (j < start)%nat).
    + rewrite lookup_app_l in Hj by (by rewrite length_replicate). left.
      by apply lookup_replicate in Hj as [-> _].
    + right. pose proof (lookup_lt_Some _ _ _ Hj) as Hlt. rewrite El in Hlt.
      by rewrite <- (proj2 (Hhit j ltac:(lia))).
  - intros j Hj Hskip. apply Hhit. split; [|done]. rewrite Hkind in Hskip. simpl in Hskip. unfold chunked_skipped in Hskip.
    assert (Ediv : Z.of_nat (start + length hits) * bs / c = max_length / c).
    { symmetry. apply (Z.div_unique _ _ _ (Z.of_nat (start + length hits) * bs - max_length / c * c)).
      - left. pose proof (Z.mod_pos_bound max_length c Hc). pose proof (Z.div_mod max_length c). nia.
      - lia. }
    rewrite Ediv in Hskip. nia.
Qed.
End chunked.

(** ** Mamba *)
Section mamba.
Context (cache : gmap bytes cache_entry) (nb : loc) (hs : list bytes) (gids : list Z).
Context (Hg : groups_ok gids) (bs align : Z) (Hbs : 0 < bs).
Abbreviation G := (length gids).
Abbreviation rowat := (row_at cache hs gids).

(** The longest aligned prefix, of at most [n] blocks, whose last block is a
    hit. *)
Fixpoint last_hit (n : nat) : nat :=
  match n with
  | O => O
  | S i => if decide (is_Some (rowat i) ∧ aligned bs align (S i)) then S i else last_hit i
  end.

Definition mamba_rows (n : nat) : list (list loc) :=
  match last_hit n with
  | O => []
  | S i => replicate i (null_row nb gids) ++ [default [] (rowat i)]
  end.

Lemma last_hit_spec n :
  (last_hit n ≤ n)%nat ∧ aligned bs align (last_hit n) ∧
  (∀ i, last_hit n = S i → is_Some (rowat i)) ∧
  (∀ m, (S m ≤ n)%nat → is_Some (rowat m) → aligned bs align (S m) → (S m ≤ last_hit n)%nat).
Proof.
  induction n as [|i (IH1 & IH2 & IH3 & IH4)]; cbn [last_hit]; [by split_and!; [lia|done..|lia]|].
  case_decide as E; [naive_solver|]. split_and!; [lia|done|done|].
  intros m Hm Hs Ha. destruct (decide (m = i)) as [->|]; [naive_solver|]. apply IH4; [lia|done|done].
Qed.

Lemma mamba_loop_rows n : (n ≤ length hs)%nat →
  mamba_loop cache nb hs gids bs align n = Ok (cols G (mamba_rows n)).
Proof.
  unfold mamba_rows. induction n as [|i IH]; intros Hn; cbn [mamba_loop last_hit].
  { by rewrite no_blocks_cols. }
  rewrite hash_hit by (done || lia). destruct (rowat i) as [row|] eqn:E.
  - assert (Eb : negb (bs =? align) && negb ((Z.of_nat i + 1) * bs mod align =? 0)
                 = negb (bool_decide (aligned bs align (S i)))).
    { replace (Z.of_nat i + 1) with (Z.of_nat (S i)) by lia. case_bool_decide as Ha; simpl.
      - unfold aligned in Ha. rewrite Ha. by rewrite andb_false_r.
      - rewrite andb_true_iff, !negb_true_iff, !Z.eqb_neq. split; [|done].
        intros ->. apply Ha, aligned_same. lia. }
    rewrite Eb. case_bool_decide as Ha; simpl.
    + rewrite decide_True by (split; [eauto|done]). rewrite E. simpl.
      rewrite null_blocks_cols, append_each_cols by (by eapply row_at_length). done.
    + rewrite decide_False by naive_solver. apply IH. lia.
  - rewrite decide_False by (intros [[? ?] _]; congruence). apply IH. lia.
Qed.

Lemma mamba_rows_length n : length (mamba_rows n) = last_hit n.
Proof.
  unfold mamba_rows. destruct (last_hit n) as [|i]; [done|].
  rewrite length_app, length_replicate. simpl. lia.
Qed.

Lemma mamba_hit_ok mode ns n max_length :
  0 ≤ max_length → n = Z.to_nat (max_length / bs) →
  hit_ok cache nb hs gids (Mamba mode ns) bs align max_length (mamba_rows n).
Proof.
  intros Hm Hn. destruct (last_hit_spec n) as (H1 & H2 & H3 & _).
  pose proof (Z.mul_div_le max_length bs Hbs).
  assert (0 ≤ max_length / bs) by (apply Z.div_pos; lia).
  pose proof (mamba_rows_length n) as El.
  assert (Hlast : ∀ i, last_hit n = S i → is_Some (rowat i) ∧ mamba_rows n !! i = rowat i).
  { intros i Ei. destruct (H3 i Ei) as [row Hrow]. unfold mamba_rows. rewrite Ei, Hrow.
    split; [eauto|]. by rewrite lookup_app_r, length_replicate, Nat.sub_diag by (rewrite length_replicate; lia). }
  split; rewrite ?El; [nia|done| |].
  - intros j row Hj. pose proof (lookup_lt_Some _ _ _ Hj) as Hlt. rewrite El in Hlt.
    destruct (last_hit n) as [|i] eqn:Ei; [lia|]. destruct (decide (j = i)) as [->|].
    + right. by rewrite <- (proj2 (Hlast i eq_refl)).
    + left. unfold mamba_rows in Hj. rewrite Ei, lookup_app_l in Hj by (rewrite length_replicate; lia).
      by apply lookup_replicate in Hj as [-> _].
  - intros j Hj Hskip. simpl in Hskip. unfold mamba_skipped in Hskip. apply Hlast. nia.
Qed.
End mamba.

(** ** The interface of a search *)

(** What each kind of attention asks of a call. *)
Definition spec_valid (spec : KVCacheSpec) (align : Z) (drop : bool) : Prop :=
  0 < block_size spec ∧
  match kind spec with
  | FullAttention _ | SlidingWindow _ _ | Mamba _ _ => True
  | ChunkedLocal c => 0 < c ∧ c mod block_size spec = 0 ∧ align = block_size spec ∧ drop = false
  | CrossAttention => False
  end.

Definition finder : Type :=
  gmap bytes cache_entry → loc → list bytes → Z → list Z → KVCacheSpec → bool → Z → Z → Z →
  res (list (list loc)).

Class HitFinder (spec : KVCacheSpec) (find : finder) : Prop := {
  find_ok cache nb hs max_length gids drop align :
    groups_ok gids → spec_valid spec align drop → 0 ≤ max_length →
    (Z.to_nat (max_length / block_size spec) ≤ length hs)%nat →
    ∃ rows, find cache nb hs max_length gids spec drop align 1 1 = Ok (cols (length gids) rows) ∧
      hit_ok cache nb hs gids (kind spec) (block_size spec) align max_length rows;
  (** The last matched block is dropped when asked for; the Mamba search
      ignores the flag. *)
  find_drops cache nb hs max_length gids align rows :
    (∀ m n, kind spec ≠ Mamba m n) →
    groups_ok gids → spec_valid spec align true → 0 ≤ max_length →
    (Z.to_nat (max_length / block_size spec) ≤ length hs)%nat →
    find cache nb hs max_length gids spec true align 1 1 = Ok (cols (length gids) rows) →
    length rows = 0%nat ∨ (len rows + 1) * block_size spec ≤ max_length;
}.

Lemma cols_inj_length G rows rows' : (0 < G)%nat → cols G rows = cols G rows' → length rows = length rows'.
Proof.
  intros HG E. apply (f_equal first_list) in E. rewrite !first_list_cols in E by done.
  injection E as E. apply (f_equal length) in E. by rewrite !length_fmap in E.
Qed.

Lemma full_finder spec k : kind spec = FullAttention k →
  HitFinder spec (λ cache nb, full_find cache).
Proof.
  intros Hk. split.
  - intros cache nb hs max_length gids drop align Hg [Hbs _] Hmax Hhs.
    eexists. split; [by eapply (full_find_rows cache hs gids Hg spec max_length align 1 1 drop)|].
    by apply (full_hit_ok cache nb hs gids spec max_length align 1 1 drop).
  - intros cache nb hs max_length gids align rows _ Hg [Hbs _] Hmax Hhs E.
    pose proof (full_find_rows cache hs gids Hg spec max_length align 1 1 true Hbs Hmax k Hk) as E'.
    rewrite E' in E. apply Ok_inj, cols_inj_length in E; [|apply Hg]. rewrite <- E.
    by apply (full_hit_drop cache hs gids spec max_length align 1 1 true).
Qed.

Lemma sliding_finder spec w mla : kind spec = SlidingWindow w mla → HitFinder spec sliding_find.
Proof.
  intros Hk. split.
  - intros cache nb hs max_length gids drop align Hg [Hbs _] Hmax Hhs.
    destruct (sliding_find_ok cache nb hs gids Hg spec max_length align drop w mla) as (found & run & E & Hr); [done..|].
    eexists. split; [exact E|]. by eapply sliding_result_ok.
  - intros cache nb hs max_length gids align rows _ Hg [Hbs _] Hmax Hhs E.
    destruct (sliding_find_ok cache nb hs gids Hg spec max_length align true w mla) as (found & run & E' & Hr); [done..|].
    rewrite E' in E. apply Ok_inj, cols_inj_length in E; [|apply Hg]. rewrite <- E.
    eapply (sliding_result_ok cache nb hs gids spec max_length align true w mla); done.
Qed.

Lemma chunked_finder spec c : kind spec = ChunkedLocal c → HitFinder spec chunked_find.
Proof.
  intros Hk. split.
  - intros cache nb hs max_length gids drop align Hg Hv Hmax Hhs.
    unfold spec_valid in Hv. rewrite Hk in Hv. destruct Hv as (Hbs & Hc & Hcb & -> & ->).
    eexists. split; [by apply chunked_find_rows|by eapply chunked_hit_ok].
  - intros cache nb hs max_length gids align rows _ _ Hv. unfold spec_valid in Hv.
    rewrite Hk in Hv. naive_solver.
Qed.

Lemma mamba_finder spec m n : kind spec = Mamba m n → HitFinder spec mamba_find.
Proof.
  intros Hk. split.
  - intros cache nb hs max_length gids drop align Hg [Hbs _] Hmax Hhs. unfold mamba_find. rewrite Hk.
    eexists. split; [by apply mamba_loop_rows|by apply mamba_hit_ok].
  - intros cache nb hs max_length gids align rows Hno. by destruct (Hno m n).
Qed.

(** The method of every registered manager meets the contract. *)
#[export] Instance registered_finder spec : HitFinder spec find_longest_cache_hit.
Proof.
  destruct (kind spec) as [k|w mla|c|m n|] eqn:E.
  - destruct (full_finder spec k E) as [H1 H2]. split; intros; unfold find_longest_cache_hit in *; rewrite E in *; eauto.
  - destruct (sliding_finder spec w mla E) as [H1 H2]. split; intros; unfold find_longest_cache_hit in *; rewrite E in *; eauto.
  - destruct (chunked_finder spec c E) as [H1 H2]. split; intros; unfold find_longest_cache_hit in *; rewrite E in *; eauto.
  - destruct (mamba_finder spec m n E) as [H1 H2]. split; intros; unfold find_longest_cache_hit in *; rewrite E in *; eauto.
  - split; intros; unfold spec_valid in *; rewrite E in *; naive_solver.
Qed.

(** ** The mask of the sliding-window manager

    A boundary is a number of blocks at which a later request may resume; the
    blocks a hit at the boundary [L] reads are the [need] blocks that end at
    [L], or one block past it with the lookahead of EAGLE. *)
Definition kept_boundary (align bs : Z) (retention num_prompt : option Z) (L : Z) : Prop :=
  match retention with
  | None => 0 < L ∧ L mod (align / bs) = 0
  | Some r =>
      (r ≠ 0 ∧ 0 < L ∧ L mod (r / bs) = 0) ∨
      (∃ np, num_prompt = Some np ∧ L = (np - 1) / align * align / bs)
  end.

Definition read_at (need : Z) (use_eagle : bool) (L i : Z) : Prop :=
  let shift := if use_eagle then 1 else 0 in L + shift - need ≤ i < L + shift.

(** A tail of a segment of [per] blocks. *)
Lemma segment_tail per need shift i :
  0 < per → 0 ≤ need < per → 0 ≤ i →
  (shift ≤ i ∧ per - need ≤ (i - shift) mod per) ↔
  shift ≤ i ∧ ∃ L, 0 < L ∧ L mod per = 0 ∧ L + shift - need ≤ i < L + shift.
Proof.
  intros Hper Hneed Hi. split; intros [Hs H]; (split; [done|]).
  - exists (((i - shift) / per + 1) * per). pose proof (Z.div_mod (i - shift) per).
    pose proof (Z.mod_pos_bound (i - shift) per Hper).
    assert (0 ≤ (i - shift) / per) by (apply Z.div_pos; lia).
    split; [nia|]. split; [apply Z.mod_mul; lia|]. lia.
  - destruct H as (L & HL & Hm & Hr).
    assert (E : (i - shift) mod per = i - shift - (L - per)); [|lia].
    symmetry. apply (Z.mod_unique_pos _ _ (L / per - 1)); [lia|].
    pose proof (Z.div_mod L per). lia.
Qed.

(** The mask of [SlidingWindowManager.reachable_block_mask] is exact: when
    some block is masked out at all, block [i] is kept if and only if a hit at
    one of the boundaries that are kept reads it.  Without a retention interval
    the boundaries are the multiples of the alignment; with one, its multiples
    and the last aligned boundary of the prompt. *)
Theorem sliding_mask_exact (start stop align bs w : Z) (use_eagle : bool)
    (retention num_prompt : option Z) (mask : list bool) (i : Z) :
  0 < bs → 2 ≤ w → align mod bs = 0 →
  match retention with None => 0 < align | Some r => 0 ≤ r ∧ 0 < align end →
  sliding_mask start stop align bs w use_eagle retention num_prompt = Ok (Some mask) →
  0 ≤ start ≤ i → i < stop →
  mask !! Z.to_nat (i - start) = Some true ↔
  ∃ L, kept_boundary align bs retention num_prompt L ∧
       read_at (contiguous_blocks_for_hit w bs use_eagle) use_eagle L i.
Proof.
  intros Hbs Hw Hal Hret. unfold sliding_mask. rewrite Hal. simpl negb. cbn iota.
  set (need := contiguous_blocks_for_hit w bs use_eagle).
  assert (Hneed : (if use_eagle then 1 else 0) < need).
  { unfold need, contiguous_blocks_for_hit. pose proof (cdiv_spec (w - 1) bs Hbs). destruct use_eagle; nia. }
  intros Hmask Hi1 Hi2.
  assert (Htail : ∀ per, need < per →
    ((if use_eagle then 1 else 0) <=? i) && (per - need <=? (i - (if use_eagle then 1 else 0)) mod per) = true
    ↔ ∃ L, 0 < L ∧ L mod per = 0 ∧ read_at need use_eagle L i).
  { intros per Hper. unfold read_at. cbv zeta.
    rewrite andb_true_iff, !Z.leb_le, segment_tail by (destruct use_eagle; lia).
    split; [by intros [_ H]|]. intros (L & H1 & H2 & H3). split; [|by exists L].
    pose proof (Z.div_mod L per). assert (1 ≤ L / per) by nia. destruct use_eagle; nia. }
  assert (Hlook : ∀ f : Z → bool, (f <$> py_range start stop) !! Z.to_nat (i - start) = Some (f i)).
  { intros f. unfold py_range. rewrite list_lookup_fmap, lookup_seqZ_lt by lia. simpl. do 2 f_equal. lia. }
  destruct retention as [r|]; [destruct (Z.eqb_spec r 0) as [Er|Er]|].
  - apply Ok_inj, (inj Some) in Hmask as <-. rewrite Hlook. simpl orb. unfold kept_boundary.
    destruct num_prompt as [np|]; [|naive_solver].
    rewrite (inj_iff Some), andb_true_iff, Z.leb_le, Z.ltb_lt. unfold read_at. cbv zeta.
    split; [intros H; eexists; split; [right; by eexists|lia]|]. naive_solver lia.
  - destruct (Z.leb_spec (r / bs) need) as [|Hlt]; [done|]. apply Ok_inj, (inj Some) in Hmask as <-.
    rewrite Hlook. cbv beta. rewrite (inj_iff Some), orb_true_iff, Htail by done. unfold kept_boundary.
    destruct num_prompt as [np|]; [|naive_solver].
    rewrite andb_true_iff, Z.leb_le, Z.ltb_lt. unfold read_at. cbv zeta. split.
    + intros [(L & H1 & H2 & H3)|H]; [exists L; split; [by left|done]|]. eexists. split; [right; by eexists|lia].
    + intros (L & [(_ & H1 & H2)|(np' & [= <-] & ->)] & H3); [left; by exists L|right; lia].
  - destruct (Z.leb_spec (align / bs) need) as [|Hlt]; [done|]. apply Ok_inj, (inj Some) in Hmask as <-.
    rewrite Hlook. cbv beta. rewrite (inj_iff Some), orb_false_r, Htail by done. unfold kept_boundary. naive_solver.
Qed.

(** ** The searches return the longest hit *)
Section longest.
Context (cache : gmap bytes cache_entry) (nb : loc) (hs : list bytes) (gids : list Z).
Context (Hg : groups_ok gids) (spec : KVCacheSpec) (max_length align : Z).
Abbreviation bs := (block_size spec).
Abbreviation rowat := (row_at cache hs gids).

(** [n] blocks would be a hit. *)
Definition is_hit (n : nat) : Prop :=
  Z.of_nat n * bs ≤ max_length ∧ aligned bs align n ∧
  ∀ j, (j < n)%nat → num_skipped_tokens (kind spec) (Z.of_nat n * bs) < (Z.of_nat j + 1) * bs →
    is_Some (rowat j).

Context (Hbs : 0 < bs) (Hmax : 0 ≤ max_length).
Abbreviation maxb := (Z.to_nat (max_length / bs)).
Context (Hhs : (maxb ≤ length hs)%nat).

Lemma is_hit_maxb n : is_hit n → (n ≤ maxb)%nat.
Proof.
  intros (Hn & _ & _). pose proof (Z.div_le_lower_bound max_length bs (Z.of_nat n) Hbs). lia.
Qed.

Lemma full_is_longest k n :
  kind spec = FullAttention k → is_hit n →
  ∃ rows, full_find cache hs max_length gids spec false align 1 1 = Ok (cols (length gids) rows) ∧
    (n ≤ length rows)%nat.
Proof.
  intros Hk Hn. pose proof (is_hit_maxb n Hn) as Hnm. destruct Hn as (Hn & Ha & Hall).
  eexists. split; [by eapply (full_find_rows cache hs gids Hg spec max_length align 1 1 false)|].
  apply (full_longest cache hs gids spec max_length align 1 1 false); [done|done|lia|done|done|].
  intros j Hj. apply Hall; [done|]. rewrite Hk. simpl. lia.
Qed.

Lemma sliding_is_longest w mla n :
  kind spec = SlidingWindow w mla → 2 ≤ w → is_hit n →
  ∃ rows, sliding_find cache nb hs max_length gids spec false align 1 1 = Ok (cols (length gids) rows) ∧
    (n ≤ length rows)%nat.
Proof.
  intros Hk Hw Hn. pose proof (is_hit_maxb n Hn) as Hnm. destruct Hn as (Hn & Ha & Hall).
  destruct (sliding_find_ok cache nb hs gids Hg spec max_length align false w mla) as (found & run & E & Hr); [done..|].
  eexists. split; [exact E|].
  rewrite (proj2 (proj2 (sliding_result_ok cache nb hs gids spec max_length align false w mla Hk Hbs Hmax Hhs found run Hr))) by done.
  destruct (decide (n = 0%nat)); [lia|]. pose proof (cdiv_spec (w - 1) bs Hbs) as Hc.
  apply (rr_max _ _ _ _ _ _ _ _ _ _ _ Hr); [unfold contiguous_blocks_for_hit; nia|done|].
  split; [lia|]. split; [by right|]. intros j Hj Hlt. apply Hall; [done|].
  rewrite Hk. unfold contiguous_blocks_for_hit in Hj. simpl. unfold sliding_skipped. nia.
Qed.

Lemma chunked_is_longest c n :
  kind spec = ChunkedLocal c → 0 < c → c mod bs = 0 → align = bs → is_hit n →
  ∃ rows, chunked_find cache nb hs max_length gids spec false align 1 1 = Ok (cols (length gids) rows) ∧
    (n ≤ length rows)%nat.
Proof.
  intros Hk Hc Hcb -> Hn. pose proof (is_hit_maxb n Hn) as Hnm. destruct Hn as (Hn & Ha & Hall).
  eexists. split; [by apply (chunked_find_rows cache nb hs gids Hg spec max_length c)|].
  rewrite length_app, length_replicate. set (start := Z.to_nat (max_length / c * c / bs)) in *.
  destruct (decide (n ≤ start)%nat); [lia|].
  destruct (chunk_start hs spec max_length c Hbs Hmax Hhs Hc Hcb) as [Hs Hle]. fold start in Hs.
  assert (n - start ≤ length (hit_prefix cache gids (take (maxb - start) (drop start hs))))%nat; [|lia].
  apply hit_prefix_longest.
  - rewrite length_take, length_drop. lia.
  - intros j Hj. rewrite lookup_take_lt, lookup_drop by lia.
    apply (Hall (start + j)%nat); [lia|]. rewrite Hk. simpl. unfold chunked_skipped.
    assert (Ediv : Z.of_nat n * bs / c ≤ max_length / c) by (apply Z.div_le_mono; lia). nia.
Qed.

Lemma mamba_is_longest m ns n :
  kind spec = Mamba m ns → is_hit n →
  ∃ rows, mamba_find cache nb hs max_length gids spec false align 1 1 = Ok (cols (length gids) rows) ∧
    (n ≤ length rows)%nat.
Proof.
  intros Hk Hn. pose proof (is_hit_maxb n Hn) as Hnm. destruct Hn as (Hn & Ha & Hall).
  unfold mamba_find. rewrite Hk. eexists. split; [by apply mamba_loop_rows|].
  rewrite mamba_rows_length. destruct n as [|n]; [lia|].
  apply (last_hit_spec cache hs gids bs align maxb); [done| |done].
  apply Hall; [lia|]. rewrite Hk. simpl. unfold mamba_skipped. lia.
Qed.
End longest.

(** C26. The searches of full attention, sliding windows and Mamba, and that of
    chunked local attention when the chunk is a multiple of the block, the alignment
    is the block and no lookahead block is dropped, meet the contract, without
    context parallelism (cross attention has no search: it raises
    [NotImplementedError]): the search returns (it does not raise, and its loops
    end) one list per group, of the same length, not longer than asked and aligned;
    each entry is the null block or the block cached under the hash of its own
    position; and every block that the computation of the next token reads
    ([num_skipped_tokens]) is such a hit. *)
Theorem find_meets_contract cache nb hs max_length gids spec (drop : bool) align :
  groups_ok gids → spec_valid spec align drop → 0 ≤ max_length →
  (Z.to_nat (max_length / block_size spec) ≤ length hs)%nat →
  ∃ rows, find_longest_cache_hit cache nb hs max_length gids spec drop align 1 1
      = Ok (cols (length gids) rows) ∧
    len rows * block_size spec ≤ max_length ∧ aligned (block_size spec) align (length rows) ∧
    (∀ j row, rows !! j = Some row →
       row = replicate (length gids) nb ∨ row_at cache hs gids j = Some row) ∧
    (∀ j, (j < length rows)%nat →
       num_skipped_tokens (kind spec) (len rows * block_size spec) < (Z.of_nat j + 1) * block_size spec →
       is_Some (row_at cache hs gids j) ∧ rows !! j = row_at cache hs gids j).
Proof.
  intros Hg Hv Hmax Hhs. destruct (find_ok cache nb hs max_length gids drop align Hg Hv Hmax Hhs)
    as (rows & E & [H1 H2 H3 H4]).
  exists rows. split_and!; [exact E|done|done|exact H3|done].
Qed.


(** ** Witnesses *)

(** A table with the block [b] under the hash [[b]] of group 0. *)
Definition demo_cache (bs : list loc) : gmap bytes cache_entry :=
  list_to_map ((λ b, ([Z.of_nat b; 0; 0; 0; 0], ESingle b)) <$> bs).
Definition demo_hashes (n : nat) : list bytes := (λ b, [Z.of_nat b]) <$> seq 1 n.

Definition sliding_spec (bs w : Z) : KVCacheSpec := mkSpec bs 0 (SlidingWindow w false).
Definition full_spec (bs : Z) : KVCacheSpec := mkSpec bs 0 (FullAttention FKFull).

Example demo_full :
  find_longest_cache_hit (demo_cache [1; 2; 4]%nat) 0 (demo_hashes 5) 20 [0] (full_spec 4) false 4 1 1
  = Ok [[1; 2]%nat].
Proof. vm_compute. reflexivity. Qed.

Example demo_sliding :
  find_longest_cache_hit (demo_cache [1; 3; 4]%nat) 0 (demo_hashes 5) 20 [0] (sliding_spec 4 8) false 4 1 1
  = Ok [[0; 0; 3; 4]%nat].
Proof. vm_compute. reflexivity. Qed.

Lemma demo_groups : groups_ok [0].
Proof. split; [repeat constructor; lia|simpl; lia]. Qed.

Lemma sliding_mask_exact_witness :
  sliding_mask 0 8 16 4 5 false None None = Ok (Some [false; false; false; true; false; false; false; true]) ∧
  ([false; false; false; true; false; false; false; true] !! Z.to_nat (7 - 0) = Some true ↔
   ∃ L, kept_boundary 16 4 None None L ∧ read_at (contiguous_blocks_for_hit 5 4 false) false L 7).
Proof.
  split; [vm_compute; reflexivity|].
  apply (sliding_mask_exact 0 8 16 4 5 false None None); try lia; reflexivity.
Defined.

Lemma find_meets_contract_witness :
  ∃ rows, find_longest_cache_hit (demo_cache [1; 3; 4]%nat) 0 (demo_hashes 5) 20 [0] (sliding_spec 4 8) false 4 1 1
      = Ok (cols 1 rows) ∧
    len rows * 4 ≤ 20 ∧ aligned 4 4 (length rows) ∧
    (∀ j row, rows !! j = Some row →
       row = [0%nat] ∨ row_at (demo_cache [1; 3; 4]%nat) (demo_hashes 5) [0] j = Some row) ∧
    (∀ j, (j < length rows)%nat →
       num_skipped_tokens (SlidingWindow 8 false) (len rows * 4) < (Z.of_nat j + 1) * 4 →
       is_Some (row_at (demo_cache [1; 3; 4]%nat) (demo_hashes 5) [0] j) ∧
       rows !! j = row_at (demo_cache [1; 3; 4]%nat) (demo_hashes 5) [0] j).
Proof.
  apply (find_meets_contract (demo_cache [1; 3; 4]%nat) 0 (demo_hashes 5) 20 [0] (sliding_spec 4 8) false 4).
  - apply demo_groups.
  - split; [simpl; lia|exact I].
  - lia.
  - vm_compute. lia.
Defined.


(** With the lookahead block of EAGLE and an alignment coarser than the
    block size, the sliding-window search aligns a run that reaches the beginning
    before it drops the lookahead block, and again after: five cached blocks, of
    which four aligned ones and the lookahead block would do, give a hit of two
    blocks, where the search of full attention over the same cache gives four. *)
Theorem sliding_eagle_loses_segment :
  find_longest_cache_hit (demo_cache [1; 2; 3; 4; 5]%nat) 0 (demo_hashes 5) 5 [0] (sliding_spec 1 10) true 2 1 1
    = Ok [[1; 2]%nat] ∧
  find_longest_cache_hit (demo_cache [1; 2; 3; 4; 5]%nat) 0 (demo_hashes 5) 5 [0] (full_spec 1) true 2 1 1
    = Ok [[1; 2; 3; 4]%nat].
Proof. split; vm_compute; reflexivity. Qed.
