(* ===== verification/SingleType.v ===== *)
(** * Managers of one kind of attention

    The stateful methods of [SingleTypeKVCacheManager] and its subclasses in
    [vllm/v1/core/single_type_kv_cache_manager.py].  A manager holds, for every
    request, the list of its blocks; the blocks live in the pool it shares with
    the managers of the other groups.  A method runs on the pair of both.

    One record carries the attributes of all subclasses; a method that a
    subclass overrides dispatches on the kind of the specification.  A
    [defaultdict] access [self.req_to_blocks[rid]] that creates the entry is
    written out ([req_blocks_of]). *)
From S2P Require Import Prelude FreeQueue Request BlockHash BlockPool KVSpec CacheHit.

Record Manager := mkManager {
  m_scheduler_block_size : Z;
  m_block_size : Z;
  m_spec : KVCacheSpec;
  m_enable_caching : bool;
  m_max_admission : option Z;   (* _max_admission_blocks_per_request *)
  new_block_ids : list Z;
  req_to_blocks : gmap string (list loc);
  num_cached_block : gmap string Z;
  m_group_id : Z;
  m_null : loc;   (* _null_block *)
  m_use_eagle : bool;
  cached_blocks_this_step : gset bytes;   (* Mamba only *)
  last_state_block_idx : gmap string Z;   (* Mamba only *)
  allocated_block_reqs : gset string;   (* Mamba only *)
}.

Definition set_new_block_ids (v : list Z) (m : Manager) : Manager :=
  mkManager (m_scheduler_block_size m) (m_block_size m) (m_spec m) (m_enable_caching m)
    (m_max_admission m) v (req_to_blocks m) (num_cached_block m) (m_group_id m) (m_null m)
    (m_use_eagle m) (cached_blocks_this_step m) (last_state_block_idx m)
    (allocated_block_reqs m).
Definition set_req_to_blocks (v : gmap string (list loc)) (m : Manager) : Manager :=
  mkManager (m_scheduler_block_size m) (m_block_size m) (m_spec m) (m_enable_caching m)
    (m_max_admission m) (new_block_ids m) v (num_cached_block m) (m_group_id m) (m_null m)
    (m_use_eagle m) (cached_blocks_this_step m) (last_state_block_idx m)
    (allocated_block_reqs m).
Definition set_num_cached_block (v : gmap string Z) (m : Manager) : Manager :=
  mkManager (m_scheduler_block_size m) (m_block_size m) (m_spec m) (m_enable_caching m)
    (m_max_admission m) (new_block_ids m) (req_to_blocks m) v (m_group_id m) (m_null m)
    (m_use_eagle m) (cached_blocks_this_step m) (last_state_block_idx m)
    (allocated_block_reqs m).
Definition set_use_eagle (v : bool) (m : Manager) : Manager :=
  mkManager (m_scheduler_block_size m) (m_block_size m) (m_spec m) (m_enable_caching m)
    (m_max_admission m) (new_block_ids m) (req_to_blocks m) (num_cached_block m) (m_group_id m)
    (m_null m) v (cached_blocks_this_step m) (last_state_block_idx m) (allocated_block_reqs m).
Definition set_cached_blocks_this_step (v : gset bytes) (m : Manager) : Manager :=
  mkManager (m_scheduler_block_size m) (m_block_size m) (m_spec m) (m_enable_caching m)
    (m_max_admission m) (new_block_ids m) (req_to_blocks m) (num_cached_block m) (m_group_id m)
    (m_null m) (m_use_eagle m) v (last_state_block_idx m) (allocated_block_reqs m).
Definition set_last_state_block_idx (v : gmap string Z) (m : Manager) : Manager :=
  mkManager (m_scheduler_block_size m) (m_block_size m) (m_spec m) (m_enable_caching m)
    (m_max_admission m) (new_block_ids m) (req_to_blocks m) (num_cached_block m) (m_group_id m)
    (m_null m) (m_use_eagle m) (cached_blocks_this_step m) v (allocated_block_reqs m).
Definition set_allocated_block_reqs (v : gset string) (m : Manager) : Manager :=
  mkManager (m_scheduler_block_size m) (m_block_size m) (m_spec m) (m_enable_caching m)
    (m_max_admission m) (new_block_ids m) (req_to_blocks m) (num_cached_block m) (m_group_id m)
    (m_null m) (m_use_eagle m) (cached_blocks_this_step m) (last_state_block_idx m) v.

(** A manager and the pool. *)
Record mstate := mkMS { ms_pool : BlockPool; ms_mgr : Manager }.

Definition on_pool {A} (m : M BlockPool A) : M mstate A :=
  zoom ms_pool (λ p s, mkMS p (ms_mgr s)) m.
Definition upd_mgr (f : Manager → Manager) : M mstate () :=
  modify (λ s, mkMS (ms_pool s) (f (ms_mgr s))).

(** [self.req_to_blocks[request_id]] on a [defaultdict(list)] *)
Definition req_blocks_of (rid : string) : M mstate (list loc) :=
  s ← get;
  match req_to_blocks (ms_mgr s) !! rid with
  | Some l => mret l
  | None => _ ← upd_mgr (λ m, set_req_to_blocks (<[rid := []]> (req_to_blocks m)) m); mret []
  end.

(** The list object of the request becomes [l]. *)
Definition put_req_blocks (rid : string) (l : list loc) : M mstate () :=
  upd_mgr (λ m, set_req_to_blocks (<[rid := l]> (req_to_blocks m)) m).

Module SingleType.

(** [get_manager_for_kv_cache_spec] and the constructors.  The constructor of
    [SinkFullAttentionManager] has no [scheduler_block_size] parameter, which
    the coordinator passes by name. *)
Definition get_manager_for_kv_cache_spec (spec : KVCacheSpec)
    (max_num_batched_tokens max_model_len : Z) (null_block : loc) (enable_caching : bool)
    (kv_cache_group_id dcp_world_size pcp_world_size scheduler_block_size : Z) : res Manager :=
  match kind spec with
  | FullAttention (FKSink _) => Raise TypeError
  | _ =>
      Ok (mkManager scheduler_block_size (eff_block_size spec dcp_world_size pcp_world_size) spec
            enable_caching
            (max_admission_blocks_per_request spec max_num_batched_tokens max_model_len)
            [] ∅ ∅ kv_cache_group_id null_block false ∅ ∅ ∅)
  end.

Definition get_num_skipped_tokens (m : Manager) (num_computed_tokens : Z) : Z :=
  num_skipped_tokens (kind (m_spec m)) num_computed_tokens.

(** [sum(blk.ref_cnt == 0 and not blk.is_null for blk in blocks)] *)
Definition get_num_evictable_blocks (p : BlockPool) (blocks : list loc) : Z :=
  len (Pool.freed_of (pool_heap p) blocks).

Definition base_num_blocks_to_allocate (s : mstate) (rid : string) (num_tokens : Z)
    (new_computed_blocks : list loc) (total_computed_tokens : Z) (apply_admission_cap : bool) : res Z :=
  let m := ms_mgr s in
  let num_required_blocks := cdiv num_tokens (m_block_size m) in
  let num_required_blocks :=
    match m_max_admission m with
    | Some cap => if apply_admission_cap then Z.min num_required_blocks cap else num_required_blocks
    | None => num_required_blocks
    end in
  let num_req_blocks := len (default [] (req_to_blocks m !! rid)) in
  match num_cached_block m !! rid with
  | Some _ =>
      if len new_computed_blocks =? 0
      then Ok (Z.max (num_required_blocks - num_req_blocks) 0)
      else Raise AssertionError
  | None =>
      let num_skipped := get_num_skipped_tokens m total_computed_tokens in
      let num_local_computed_blocks := len new_computed_blocks + num_req_blocks in
      let num_skipped_blocks := num_skipped / m_block_size m in
      let num_new_blocks :=
        Z.max (num_required_blocks - Z.max num_skipped_blocks num_local_computed_blocks) 0 in
      let num_skipped_new_computed_blocks := Z.max 0 (num_skipped_blocks - num_req_blocks) in
      let num_evictable_blocks :=
        get_num_evictable_blocks (ms_pool s) (py_from new_computed_blocks num_skipped_new_computed_blocks) in
      Ok (num_new_blocks + num_evictable_blocks)
  end.

Definition last_hash (p : BlockPool) (blocks : list loc) : option bytes :=
  match last blocks with
  | Some b => hash_of (pool_heap p) b
  | None => None
  end.

Definition mamba_num_blocks_to_allocate (mode : mamba_cache_mode) (nspec : Z) (rid : string)
    (num_tokens : Z) (new_computed_blocks : list loc) (total_computed_tokens num_tokens_main_model : Z)
    (apply_admission_cap : bool) : M mstate Z :=
  s ← get;
  if (match last_hash (ms_pool s) new_computed_blocks with
      | Some h => bool_decide (h ∈ cached_blocks_this_step (ms_mgr s))
      | None => false
      end)
  then mret (num_gpu_blocks (ms_pool s) + 1)
  else
    match mode with
    | ModeNone | ModeAll =>
        let num_tokens :=
          if 0 <? nspec then num_tokens + block_size (m_spec (ms_mgr s)) * nspec else num_tokens in
        of_res (base_num_blocks_to_allocate s rid num_tokens new_computed_blocks
                  total_computed_tokens apply_admission_cap)
    | ModeAlign =>
        req_blocks ← req_blocks_of rid;
        let num_required_blocks := cdiv num_tokens_main_model (m_block_size (ms_mgr s)) + nspec in
        let num_new_blocks := num_required_blocks - len new_computed_blocks - len req_blocks in
        let num_new_blocks :=
          if 0 <? num_new_blocks
          then (if bool_decide (rid ∈ allocated_block_reqs (ms_mgr s)) then 1 else 1 + nspec)
          else num_new_blocks in
        mret (num_new_blocks + get_num_evictable_blocks (ms_pool s) new_computed_blocks)
    end.

Definition get_num_blocks_to_allocate (rid : string) (num_tokens : Z) (new_computed_blocks : list loc)
    (total_computed_tokens num_tokens_main_model : Z) (apply_admission_cap : bool) : M mstate Z :=
  s ← get;
  match kind (m_spec (ms_mgr s)) with
  | Mamba mode nspec =>
      mamba_num_blocks_to_allocate mode nspec rid num_tokens new_computed_blocks
        total_computed_tokens num_tokens_main_model apply_admission_cap
  | _ =>
      of_res (base_num_blocks_to_allocate s rid num_tokens new_computed_blocks
                total_computed_tokens apply_admission_cap)
  end.

(** [req_blocks.extend(self.block_pool.get_new_blocks(n))], with the ids
    recorded for the kinds whose new blocks are zeroed. *)
Definition extend_with_new (rid : string) (req_blocks : list loc) (n : Z) : M mstate (list loc) :=
  new_blocks ← on_pool (Pool.get_new_blocks n);
  _ ← put_req_blocks rid (req_blocks ++ new_blocks);
  s ← get;
  _ ← (if tracks_new_blocks (m_spec (ms_mgr s))
       then upd_mgr (λ m, set_new_block_ids (new_block_ids m ++ (id_of (pool_heap (ms_pool s)) <$> new_blocks)) m)
       else mret tt);
  mret new_blocks.

Definition base_allocate_new_computed_blocks (rid : string) (new_computed_blocks : list loc)
    (num_local_computed_tokens num_external_computed_tokens : Z) : M mstate () :=
  s ← get;
  match num_cached_block (ms_mgr s) !! rid with
  | Some _ => massert (len new_computed_blocks =? 0)
  | None =>
      req_blocks ← req_blocks_of rid;
      _ ← massert (len req_blocks =? 0);
      let m := ms_mgr s in
      let num_total_computed_tokens := num_local_computed_tokens + num_external_computed_tokens in
      let num_skipped := get_num_skipped_tokens m num_total_computed_tokens in
      let num_skipped_blocks := num_skipped / m_block_size m in
      let '(new_computed_blocks, num_external_computed_tokens) :=
        if 0 <? num_skipped_blocks
        then (py_from new_computed_blocks num_skipped_blocks,
              Z.min (num_total_computed_tokens - num_skipped) num_external_computed_tokens)
        else (new_computed_blocks, num_external_computed_tokens) in
      _ ← (if m_enable_caching m then on_pool (Pool.touch new_computed_blocks)
           else massert (len new_computed_blocks =? 0));
      let req_blocks := req_blocks ++ replicate (Z.to_nat num_skipped_blocks) (m_null m)
                                   ++ new_computed_blocks in
      _ ← put_req_blocks rid req_blocks;
      _ ← upd_mgr (λ m, set_num_cached_block (<[rid := len req_blocks]> (num_cached_block m)) m);
      if 0 <? num_external_computed_tokens
      then _ ← extend_with_new rid req_blocks
                 (cdiv num_total_computed_tokens (m_block_size m) - len req_blocks);
           mret tt
      else mret tt
  end.

Definition allocate_new_computed_blocks (rid : string) (new_computed_blocks : list loc)
    (num_local_computed_tokens num_external_computed_tokens : Z) : M mstate () :=
  s ← get;
  match kind (m_spec (ms_mgr s)) with
  | CrossAttention => massert (len new_computed_blocks =? 0)
  | _ => base_allocate_new_computed_blocks rid new_computed_blocks
           num_local_computed_tokens num_external_computed_tokens
  end.

Definition base_allocate_new_blocks (rid : string) (num_tokens : Z) : M mstate (list loc) :=
  req_blocks ← req_blocks_of rid;
  s ← get;
  let num_new_blocks := cdiv num_tokens (m_block_size (ms_mgr s)) - len req_blocks in
  if num_new_blocks <=? 0 then mret []
  else extend_with_new rid req_blocks num_new_blocks.

(** The loop that moves the speculative blocks of the previous step. *)
Fixpoint reuse_speculative (nb : loc) (num_skipped_blocks : Z) (idxs : list Z) (req_blocks : list loc)
    : res (list loc) :=
  match idxs with
  | [] => Ok req_blocks
  | i :: idxs' =>
      if i <? num_skipped_blocks
      then match py_get req_blocks i with
           | None => Raise IndexError
           | Some b =>
               match py_set (req_blocks ++ [b]) i nb with
               | None => Raise IndexError
               | Some l => reuse_speculative nb num_skipped_blocks idxs' l
               end
           end
      else Ok req_blocks
  end.

Definition mamba_align_allocate (nspec : Z) (rid : string) (num_tokens : Z) : M mstate (list loc) :=
  req_blocks ← req_blocks_of rid;
  s ← get;
  let m := ms_mgr s in
  let num_required_blocks := cdiv num_tokens (m_block_size m) + nspec in
  if num_required_blocks <=? len req_blocks then mret []
  else
    let prev_block_len := len req_blocks in
    let blocks_allocated := bool_decide (rid ∈ allocated_block_reqs m) in
    _ ← (if blocks_allocated
         then upd_mgr (λ m, set_last_state_block_idx
                              (<[rid := prev_block_len - 1 - nspec]> (last_state_block_idx m)) m)
         else if 0 <? prev_block_len
         then upd_mgr (λ m, set_last_state_block_idx (<[rid := prev_block_len - 1]> (last_state_block_idx m)) m)
         else mret tt);
    let num_skipped_blocks := num_required_blocks - nspec - 1 in
    let req_blocks1 := req_blocks ++ replicate (Z.to_nat (num_skipped_blocks - prev_block_len)) (m_null m) in
    req_blocks2 ← of_res (if blocks_allocated
                          then reuse_speculative (m_null m) num_skipped_blocks
                                 (py_range (prev_block_len - nspec) prev_block_len) req_blocks1
                          else Ok req_blocks1);
    let num_new_blocks := num_required_blocks - len req_blocks2 in
    _ ← put_req_blocks rid req_blocks2;
    _ ← massert (if blocks_allocated then num_new_blocks <=? 1 else num_new_blocks <=? nspec + 1);
    new_blocks ← on_pool (Pool.get_new_blocks num_new_blocks);
    let req_blocks3 := req_blocks2 ++ new_blocks in
    _ ← put_req_blocks rid req_blocks3;
    _ ← upd_mgr (λ m, set_allocated_block_reqs ({[ rid ]} ∪ allocated_block_reqs m) m);
    mret (py_from req_blocks3 prev_block_len).

Definition allocate_new_blocks (rid : string) (num_tokens num_tokens_main_model : Z) : M mstate (list loc) :=
  s ← get;
  match kind (m_spec (ms_mgr s)) with
  | Mamba ModeAlign nspec => mamba_align_allocate nspec rid num_tokens_main_model
  | Mamba _ nspec =>
      base_allocate_new_blocks rid
        (if 0 <? nspec then num_tokens + m_block_size (ms_mgr s) * nspec else num_tokens)
  | _ => base_allocate_new_blocks rid num_tokens
  end.

Definition take_new_block_ids : M mstate (list Z) :=
  s ← get;
  _ ← upd_mgr (set_new_block_ids []);
  mret (new_block_ids (ms_mgr s)).

Definition base_cache_blocks (request : Request) (num_tokens : Z) (retention_interval : option Z)
    : M mstate Request :=
  s ← get;
  let m := ms_mgr s in
  let rid := request_id request in
  let num_cached_blocks := default 0 (num_cached_block m !! rid) in
  let num_full_blocks := num_tokens / m_block_size m in
  if num_full_blocks <=? num_cached_blocks then mret request
  else
    block_mask ← of_res (reachable_block_mask (m_spec m) num_cached_blocks num_full_blocks
                           (m_scheduler_block_size m) (m_use_eagle m) retention_interval
                           (Some (num_prompt_tokens request)));
    blocks ← req_blocks_of rid;
    request' ← on_pool (Pool.cache_full_blocks request blocks num_cached_blocks num_full_blocks
                          (m_block_size m) (m_group_id m) block_mask);
    _ ← upd_mgr (λ m, set_num_cached_block (<[rid := num_full_blocks]> (num_cached_block m)) m);
    mret request'.

(** The blocks a Mamba manager cached in the current step. *)
Definition record_cached (blocks : list loc) : M mstate () :=
  for_each blocks (λ b,
    blk ← on_pool (read_block b);
    if is_null blk then mret tt
    else
      _ ← massert (match block_hash blk with Some _ => true | None => false end);
      match block_hash blk with
      | Some h => upd_mgr (λ m, set_cached_blocks_this_step ({[ h ]} ∪ cached_blocks_this_step m) m)
      | None => mret tt
      end).

Definition mamba_cache_blocks (request : Request) (num_tokens : Z) (retention_interval : option Z)
    : M mstate Request :=
  s ← get;
  let rid := request_id request in
  let before := default 0 (num_cached_block (ms_mgr s) !! rid) in
  request' ← base_cache_blocks request num_tokens retention_interval;
  s ← get;
  let after := default 0 (num_cached_block (ms_mgr s) !! rid) in
  if before <? after
  then blocks ← req_blocks_of rid;
       _ ← record_cached (py_slice blocks before after);
       mret request'
  else mret request'.

Definition cache_blocks (request : Request) (num_tokens : Z) (retention_interval : option Z)
    : M mstate Request :=
  s ← get;
  match kind (m_spec (ms_mgr s)) with
  | CrossAttention => raise ValueError
  | Mamba _ _ => mamba_cache_blocks request num_tokens retention_interval
  | _ => base_cache_blocks request num_tokens retention_interval
  end.

(** [self.req_to_blocks.pop(request_id, [])] *)
Definition pop_req_blocks (rid : string) : M mstate (list loc) :=
  s ← get;
  _ ← upd_mgr (λ m, set_req_to_blocks (delete rid (req_to_blocks m)) m);
  mret (default [] (req_to_blocks (ms_mgr s) !! rid)).

Definition base_free (rid : string) : M mstate () :=
  req_blocks ← pop_req_blocks rid;
  _ ← on_pool (Pool.free_blocks (rev req_blocks) false);
  upd_mgr (λ m, set_num_cached_block (delete rid (num_cached_block m)) m).

(** The blocks with and without a hash, in the order of the list. *)
Definition hashed (h : heap) (l : list loc) : list loc := filter (λ b, hash_of h b ≠ None) l.
Definition unhashed_blocks (h : heap) (l : list loc) : list loc := filter (λ b, hash_of h b = None) l.

Definition sliding_free (rid : string) : M mstate () :=
  req_blocks ← pop_req_blocks rid;
  s ← get;
  let h := pool_heap (ms_pool s) in
  _ ← (match req_blocks with
       | [] => mret tt
       | _ =>
           _ ← on_pool (Pool.free_blocks (hashed h (rev req_blocks)) false);
           on_pool (Pool.free_blocks (unhashed_blocks h (rev req_blocks)) true)
       end);
  upd_mgr (λ m, set_num_cached_block (delete rid (num_cached_block m)) m).

Definition free (rid : string) : M mstate () :=
  s ← get;
  match kind (m_spec (ms_mgr s)) with
  | SlidingWindow _ _ => sliding_free rid
  | Mamba ModeAlign _ =>
      _ ← upd_mgr (λ m, set_allocated_block_reqs (allocated_block_reqs m ∖ {[ rid ]}) m);
      _ ← upd_mgr (λ m, set_last_state_block_idx (delete rid (last_state_block_idx m)) m);
      base_free rid
  | _ => base_free rid
  end.

(** The loop [for i in range(n - 1, -1, -1)] of [remove_skipped_blocks]: the
    request's blocks, and the removed ones in the order they are met. *)
Fixpoint skip_loop (nb : loc) (n : nat) (blocks removed : list loc) : list loc * list loc :=
  match n with
  | O => (blocks, removed)
  | S i =>
      match blocks !! i with
      | Some b =>
          if decide (b = nb) then (blocks, removed)
          else skip_loop nb i (<[i := nb]> blocks) (removed ++ [b])
      | None => (blocks, removed)
      end
  end.

Definition base_remove_skipped_blocks (rid : string) (total_computed_tokens : Z) : M mstate () :=
  s ← get;
  let num_skipped := get_num_skipped_tokens (ms_mgr s) total_computed_tokens in
  if num_skipped <=? 0 then mret tt
  else
    blocks ← req_blocks_of rid;
    s ← get;
    let num_skipped_blocks := Z.min (num_skipped / m_block_size (ms_mgr s)) (len blocks) in
    let '(blocks', removed) := skip_loop (m_null (ms_mgr s)) (Z.to_nat num_skipped_blocks) blocks [] in
    let h := pool_heap (ms_pool s) in
    _ ← put_req_blocks rid blocks';
    _ ← on_pool (Pool.free_blocks (hashed h removed) false);
    on_pool (Pool.free_blocks (unhashed_blocks h removed) true).

Definition mamba_remove_skipped_blocks (mode : mamba_cache_mode) (nspec : Z) (rid : string)
    (num_computed_tokens : Z) : M mstate () :=
  let num_computed_tokens := Z.max 0 (num_computed_tokens - nspec) in
  _ ← base_remove_skipped_blocks rid num_computed_tokens;
  s ← get;
  let m := ms_mgr s in
  match mode, last_state_block_idx m !! rid with
  | ModeAlign, Some idx =>
      if idx <? cdiv num_computed_tokens (m_block_size m) - 1
      then
        blocks ← req_blocks_of rid;
        b ← of_opt IndexError (py_get blocks idx);
        if decide (b = m_null m) then mret tt
        else
          _ ← on_pool (Pool.free_blocks [b] false);
          blocks' ← of_opt IndexError (py_set blocks idx (m_null m));
          put_req_blocks rid blocks'
      else mret tt
  | _, _ => mret tt
  end.

Definition remove_skipped_blocks (rid : string) (total_computed_tokens : Z) : M mstate () :=
  s ← get;
  match kind (m_spec (ms_mgr s)) with
  | Mamba mode nspec => mamba_remove_skipped_blocks mode nspec rid total_computed_tokens
  | _ => base_remove_skipped_blocks rid total_computed_tokens
  end.

(** The longest prefix of [blocks] that every request shares. *)
Fixpoint common_prefix (p : BlockPool) (num_reqs : Z) (blocks : list loc) : Z :=
  match blocks with
  | [] => 0
  | b :: blocks' => if ref_of (pool_heap p) b =? num_reqs then 1 + common_prefix p num_reqs blocks' else 0
  end.

Definition get_num_common_prefix_blocks (rid : string) : M mstate Z :=
  s ← get;
  match kind (m_spec (ms_mgr s)) with
  | FullAttention _ =>
      blocks ← req_blocks_of rid;
      s ← get;
      mret (common_prefix (ms_pool s) (Z.of_nat (size (req_to_blocks (ms_mgr s)))) blocks)
  | _ => mret 0
  end.

Definition new_step_starts : M mstate () :=
  s ← get;
  match kind (m_spec (ms_mgr s)) with
  | Mamba _ _ => upd_mgr (set_cached_blocks_this_step ∅)
  | _ => mret tt
  end.

End SingleType.

(** ** References held by a manager *)
Section refs.
Implicit Types (t : gmap string (list loc)) (b : loc).

(** The number of times the lists of the requests mention a block. *)
Definition refs t b : Z := map_fold (λ _ l acc, occ b l + acc) 0 t.

Lemma refs_empty b : refs ∅ b = 0.
Proof. apply map_fold_empty. Qed.

Lemma refs_insert_new t rid l b : t !! rid = None → refs (<[rid := l]> t) b = occ b l + refs t b.
Proof. intros H. unfold refs. rewrite map_fold_insert_L; [done| |done]. intros. lia. Qed.

Lemma refs_delete t rid b : refs (delete rid t) b = refs t b - occ b (default [] (t !! rid)).
Proof.
  destruct (t !! rid) as [l|] eqn:E; simpl.
  - rewrite <- (insert_delete_id t rid l E) at 2.
    rewrite refs_insert_new by (by apply lookup_delete_eq). lia.
  - rewrite delete_id by done. rewrite occ_nil. lia.
Qed.

Lemma refs_insert t rid l b :
  refs (<[rid := l]> t) b = refs t b - occ b (default [] (t !! rid)) + occ b l.
Proof.
  rewrite <- insert_delete_eq, refs_insert_new by (by apply lookup_delete_eq).
  rewrite refs_delete. lia.
Qed.

Lemma refs_nonneg t b : 0 ≤ refs t b.
Proof.
  induction t as [|rid l t H IH] using map_ind; [by rewrite refs_empty|].
  rewrite refs_insert_new by done. pose proof (occ_nonneg b l). lia.
Qed.

Lemma refs_none t b : (∀ rid, default [] (t !! rid) = []) → refs t b = 0.
Proof.
  induction t as [|rid l t H IH] using map_ind; intros Hnil; [by rewrite refs_empty|].
  rewrite refs_insert_new by done. pose proof (Hnil rid) as E. rewrite lookup_insert_eq in E. simpl in E. subst l.
  rewrite occ_nil, IH; [done|]. intros r. specialize (Hnil r). destruct (decide (r = rid)) as [->|]; [by rewrite H|].
  by rewrite lookup_insert_ne in Hnil.
Qed.

Lemma refs_lookup t rid l b : t !! rid = Some l → occ b l ≤ refs t b.
Proof.
  intros H. pose proof (refs_delete t rid b) as E. rewrite H in E. simpl in E.
  pose proof (refs_nonneg (delete rid t) b). lia.
Qed.
End refs.

(** ** The invariant of a manager

    [rest] counts the references the other managers hold.  The pool's count of
    a block is the number of references of all of them. *)
Definition num_cached (m : Manager) (rid : string) : Z := default 0 (num_cached_block m !! rid).
Definition blocks_of (m : Manager) (rid : string) : list loc := default [] (req_to_blocks m !! rid).

(** A block no one else holds, and that is not in the cache. *)
Definition private (p : BlockPool) (b : loc) : Prop :=
  b ≠ null_block p ∧ phash p b = None ∧ pref p b = 1.

Record mgr_inv (p : BlockPool) (m : Manager) (rest : loc → Z) : Prop := {
  mi_null : m_null m = null_block p;
  mi_bs : 0 < m_block_size m;
  mi_in rid b : b ∈ blocks_of m rid → (b < nblk p)%nat;
  mi_nodup rid : NoDup (filter (λ b, b ≠ null_block p) (blocks_of m rid));
  mi_rest b : 0 ≤ rest b;
  mi_refs b : (b < nblk p)%nat → b ≠ null_block p → pref p b = refs (req_to_blocks m) b + rest b;
  (** The blocks that are not cached yet are private to the request. *)
  mi_private rid j b : blocks_of m rid !! j = Some b → b ≠ null_block p →
    num_cached m rid ≤ Z.of_nat j → private p b;
  mi_cached_nonneg rid : 0 ≤ num_cached m rid;
}.

(** What an operation leaves to the other managers: the blocks they hold
    privately stay as they are. *)
Record op_frame (p p' : BlockPool) (rest : loc → Z) : Prop := {
  of_pool : pool_frame p p';
  of_private b : 0 < rest b → private p b → private p' b;
}.

Lemma op_frame_refl p rest : op_frame p p rest.
Proof. by split. Qed.

Lemma op_frame_trans p1 p2 p3 rest : op_frame p1 p2 rest → op_frame p2 p3 rest → op_frame p1 p3 rest.
Proof. intros [H1 H2] [H3 H4]. split; [by etrans|eauto]. Qed.

(** Without prefix caching no block has a hash. *)
Definition no_stray (p : BlockPool) : Prop := enable_caching p = false → ∀ b, phash p b = None.

(** A state of a manager with its pool. *)
Record ms_inv (s : mstate) (fr : list loc) (rest : loc → Z) : Prop := {
  msi_pool : pool_inv (ms_pool s) fr;
  msi_mgr : mgr_inv (ms_pool s) (ms_mgr s) rest;
  msi_stray : no_stray (ms_pool s);
  msi_caching : m_enable_caching (ms_mgr s) = enable_caching (ms_pool s);
}.

(** The attributes only the constructor sets. *)
Definition same_config (m m' : Manager) : Prop :=
  m_scheduler_block_size m' = m_scheduler_block_size m ∧ m_block_size m' = m_block_size m ∧
  m_spec m' = m_spec m ∧ m_enable_caching m' = m_enable_caching m ∧
  m_max_admission m' = m_max_admission m ∧ m_group_id m' = m_group_id m ∧ m_null m' = m_null m ∧
  m_use_eagle m' = m_use_eagle m.

#[export] Instance same_config_preorder : PreOrder same_config.
Proof.
  split; [done|]. intros m1 m2 m3 H1 H2. unfold same_config in *. intuition congruence.
Qed.

Section owned.
Context (s : mstate) (fr : list loc) (rest : loc → Z) (H : ms_inv s fr rest).
Abbreviation p := (ms_pool s).
Abbreviation m := (ms_mgr s).

Lemma occ_refs rid b : occ b (blocks_of m rid) ≤ refs (req_to_blocks m) b.
Proof.
  unfold blocks_of. destruct (req_to_blocks m !! rid) as [l|] eqn:E; simpl.
  - by eapply refs_lookup.
  - rewrite occ_nil. apply refs_nonneg.
Qed.

Lemma owned_ref rid b : b ∈ blocks_of m rid → b ≠ null_block p → 1 ≤ pref p b.
Proof.
  intros Hb Hn. rewrite (mi_refs _ _ _ (msi_mgr _ _ _ H) b) by (done || by eapply (mi_in _ _ _ (msi_mgr _ _ _ H))).
  pose proof (occ_refs rid b). apply occ_pos in Hb.
  pose proof (mi_rest _ _ _ (msi_mgr _ _ _ H) b). lia.
Qed.

Lemma owned_not_free rid b : b ∈ blocks_of m rid → b ∉ fr.
Proof.
  intros Hb Hf. apply (di_free _ _ _ _ _ (pi_data _ _ (msi_pool _ _ _ H))) in Hf as (_ & Hn & Hr).
  pose proof (owned_ref rid b Hb Hn). lia.
Qed.

(** The blocks of a request may be given back, in any order, and so may some
    of them. *)
Lemma owned_can_free rid l :
  (∀ b, b ∈ l → b ∈ blocks_of m rid) → NoDup (filter (λ b, b ≠ null_block p) l) → can_free p l.
Proof.
  intros Hsub Hnd. split; [done|]. intros b Hb. specialize (Hsub b Hb). split.
  - by eapply (mi_in _ _ _ (msi_mgr _ _ _ H)).
  - by eapply owned_ref.
Qed.
End owned.

(** ** Updating the entry of one request *)

(** [m'] is [m] with the list [l'] and the number of cached blocks [nc] for the
    request [rid]. *)
Record table_upd (m m' : Manager) (rid : string) (l' : list loc) (nc : Z) : Prop := {
  tu_config : same_config m m';
  tu_blocks r : blocks_of m' r = if decide (r = rid) then l' else blocks_of m r;
  tu_refs b : refs (req_to_blocks m') b = refs (req_to_blocks m) b - occ b (blocks_of m rid) + occ b l';
  tu_cached r : num_cached m' r = if decide (r = rid) then nc else num_cached m r;
}.

Lemma upd_lookup {A} (t : gmap string A) rid v r d :
  default d (<[rid := v]> t !! r) = if decide (r = rid) then v else default d (t !! r).
Proof. rewrite lookup_insert. destruct (decide (rid = r)), (decide (r = rid)); simpl; congruence. Qed.

Lemma del_lookup {A} (t : gmap string A) rid r d :
  default d (delete rid t !! r) = if decide (r = rid) then d else default d (t !! r).
Proof. rewrite lookup_delete. destruct (decide (rid = r)), (decide (r = rid)); simpl; congruence. Qed.

Lemma upd_put m rid l' :
  table_upd m (set_req_to_blocks (<[rid := l']> (req_to_blocks m)) m) rid l' (num_cached m rid).
Proof.
  split; [done|intros r; apply upd_lookup|intros b; apply refs_insert|].
  intros r. change (num_cached m r = if decide (r = rid) then num_cached m rid else num_cached m r).
  by case_decide; subst.
Qed.

Lemma upd_cached m rid nc :
  table_upd m (set_num_cached_block (<[rid := nc]> (num_cached_block m)) m) rid (blocks_of m rid) nc.
Proof.
  split; [done|intros r|intros b; simpl; lia|intros r; apply upd_lookup].
  change (blocks_of m r = if decide (r = rid) then blocks_of m rid else blocks_of m r).
  by case_decide; subst.
Qed.

Lemma upd_delete m rid :
  table_upd m (set_num_cached_block (delete rid (num_cached_block m))
                 (set_req_to_blocks (delete rid (req_to_blocks m)) m)) rid [] 0.
Proof.
  split; [done|intros r; apply del_lookup| |intros r; apply del_lookup].
  intros b. rewrite occ_nil. simpl. rewrite refs_delete. unfold blocks_of. lia.
Qed.

Lemma table_upd_trans m1 m2 m3 rid l1 l2 n1 n2 :
  table_upd m1 m2 rid l1 n1 → table_upd m2 m3 rid l2 n2 → table_upd m1 m3 rid l2 n2.
Proof.
  intros [H1 H2 H3 H4] [H5 H6 H7 H8]. split; [by etrans|intros r..|intros r].
  - rewrite H6, H2. by case_decide.
  - rewrite H7, H3, H2, decide_True by done. lia.
  - rewrite H8, H4. by case_decide.
Qed.

(** The pool changes from [p] to [p'] and the entry of [rid] to [l']: what has
    to be shown. *)
Lemma mgr_inv_upd p p' m m' rest rid l' nc :
  mgr_inv p m rest → pool_frame p p' → table_upd m m' rid l' nc → 0 ≤ nc →
  (∀ b, b ∈ l' → (b < nblk p)%nat) →
  NoDup (filter (λ b, b ≠ null_block p) l') →
  (∀ b, (b < nblk p)%nat → b ≠ null_block p →
     pref p' b = pref p b - occ b (blocks_of m rid) + occ b l') →
  (∀ j b, l' !! j = Some b → b ≠ null_block p → nc ≤ Z.of_nat j → private p' b) →
  (∀ r b, r ≠ rid → b ∈ blocks_of m r → private p b → private p' b) →
  mgr_inv p' m' rest.
Proof.
  intros [Hnull Hbs Hin Hnd Hrest Hrefs Hpriv Hcn] Hf [Hcfg Hbl Hrf Hca] Hnc Hin' Hnd' Hrefs' Hpriv' Hoth.
  assert (En : nblk p' = nblk p) by (unfold nblk; by rewrite (pf_num _ _ Hf)).
  pose proof (pf_null _ _ Hf) as Enull. destruct Hcfg as (_ & Ebs & _ & _ & _ & _ & Emn & _).
  split; rewrite ?En, ?Enull, ?Emn, ?Ebs; try done.
  - intros r b. rewrite Hbl. case_decide; [apply Hin'|apply Hin].
  - intros r. rewrite Hbl. case_decide; [done|apply Hnd].
  - intros b Hb Hn. rewrite Hrefs', Hrf, Hrefs by done. lia.
  - intros r j b. rewrite Hbl, Hca. case_decide; [apply Hpriv'|].
    intros Hj Hn Hle. apply (Hoth r); [done|by eapply list_elem_of_lookup_2|]. by eapply Hpriv.
  - intros r. rewrite Hca. by case_decide.
Qed.

Import SingleType.

(** One operation on the request [rid]: the invariant is kept with [fr'] as the
    free queue, the other managers' private blocks are left alone, and the entry
    of the request becomes [l'] and [nc]. *)
Record step (s : mstate) (rest : loc → Z) (rid : string) (fr' l' : list loc) (nc : Z) (s' : mstate)
    : Prop := {
  st_inv : ms_inv s' fr' rest;
  st_frame : op_frame (ms_pool s) (ms_pool s') rest;
  st_upd : table_upd (ms_mgr s) (ms_mgr s') rid l' nc;
}.

Lemma step_trans s1 s2 s3 rest rid fr1 fr2 l1 l2 n1 n2 :
  step s1 rest rid fr1 l1 n1 s2 → step s2 rest rid fr2 l2 n2 s3 → step s1 rest rid fr2 l2 n2 s3.
Proof.
  intros [_ H2 H3] [H4 H5 H6]. split; [done|by eapply op_frame_trans|by eapply table_upd_trans].
Qed.

Lemma upd_ids m rid v l nc :
  blocks_of m rid = l → num_cached m rid = nc → table_upd m (set_new_block_ids v m) rid l nc.
Proof.
  intros <- <-.
  split; [done|intros r|intros b; simpl; lia|intros r].
  - change (blocks_of m r = if decide (r = rid) then blocks_of m rid else blocks_of m r).
    by case_decide; subst.
  - change (num_cached m r = if decide (r = rid) then num_cached m rid else num_cached m r).
    by case_decide; subst.
Qed.

(** The pool is unchanged and the entry of the request is the same. *)
Lemma ms_inv_upd_same s m' fr rest rid :
  ms_inv s fr rest → table_upd (ms_mgr s) m' rid (blocks_of (ms_mgr s) rid) (num_cached (ms_mgr s) rid) →
  step s rest rid fr (blocks_of (ms_mgr s) rid) (num_cached (ms_mgr s) rid) (mkMS (ms_pool s) m').
Proof.
  intros [Hp Hm Hs Hc] Hu. split; [|apply op_frame_refl|done]. split; [done| |done|].
  - eapply mgr_inv_upd; [done|reflexivity|done|apply Hm|apply Hm|apply Hm|intros; simpl; lia| |done].
    intros j b. apply (mi_private _ _ _ Hm).
  - destruct (tu_config _ _ _ _ _ Hu) as (_ & _ & _ & E & _). simpl. congruence.
Qed.

Lemma req_blocks_of_spec s fr rest rid :
  ms_inv s fr rest →
  wp (req_blocks_of rid) (λ r s', r = blocks_of (ms_mgr s) rid ∧ ms_pool s' = ms_pool s ∧
    blocks_of (ms_mgr s') rid = r ∧ num_cached_block (ms_mgr s') = num_cached_block (ms_mgr s) ∧
    step s rest rid fr (blocks_of (ms_mgr s) rid) (num_cached (ms_mgr s) rid) s') s.
Proof.
  intros H. unfold req_blocks_of. wp_step. unfold blocks_of at 1.
  destruct (req_to_blocks (ms_mgr s) !! rid) as [l|] eqn:E; unfold upd_mgr; wp_step.
  - split_and!; [done|done|unfold blocks_of; by rewrite E|done|].
    pose proof (ms_inv_upd_same s (ms_mgr s) fr rest rid H) as Hs.
    destruct s; apply Hs. split; [done|intros r; by case_decide; subst|intros b; lia|intros r; by case_decide; subst].
  - split_and!; [done|done| |done|].
    + unfold blocks_of. simpl. by rewrite lookup_insert_eq.
    + apply ms_inv_upd_same; [done|]. pose proof (upd_put (ms_mgr s) rid []) as Hu.
      unfold blocks_of at 1. rewrite E. exact Hu.
Qed.

(** Taking blocks from the free queue for a request. *)
Lemma extend_spec s new fr rest rid :
  ms_inv s (new ++ fr) rest →
  wp (extend_with_new rid (blocks_of (ms_mgr s) rid) (len new))
    (λ r s', r = new ∧
       step s rest rid fr (blocks_of (ms_mgr s) rid ++ new) (num_cached (ms_mgr s) rid) s' ∧
       (∀ b, b ∉ new → phash (ms_pool s') b = phash (ms_pool s) b ∧ pref (ms_pool s') b = pref (ms_pool s) b) ∧
       (∀ b, b ∈ new → private (ms_pool s') b) ∧
       num_cached_block (ms_mgr s') = num_cached_block (ms_mgr s)) s.
Proof.
  intros [Hp Hm Hs Hc].
  unfold extend_with_new, on_pool. wp_step.
  eapply wp_mono; [by apply get_new_blocks_spec|]. intros r p' (-> & Hp' & Hf & Hh & Hr).
  pose proof (pool_inv_NoDup _ _ Hp) as Hnd. pose proof (pi_data _ _ Hp) as Hd.
  assert (Hnew : ∀ b, b ∈ new → (b < nblk (ms_pool s))%nat ∧ b ≠ null_block (ms_pool s) ∧ pref (ms_pool s) b = 0).
  { intros b Hb. apply (di_free _ _ _ _ _ Hd). set_solver. }
  assert (Hout : ∀ b, b ∉ new → phash p' b = phash (ms_pool s) b ∧ pref p' b = pref (ms_pool s) b).
  { intros b Hb. rewrite Hh, Hr, !decide_False by done. split; [done|lia]. }
  assert (Hpriv : ∀ b, b ∈ new → private p' b).
  { intros b Hb. unfold private. rewrite Hh, Hr, (pf_null _ _ Hf), !decide_True by done.
    destruct (Hnew b Hb) as (_ & Hn & ->). split_and!; [done| |done].
    destruct (enable_caching (ms_pool s)) eqn:E; [done|by apply Hs]. }
  assert (Hkeep : ∀ b, private (ms_pool s) b → private p' b).
  { intros b (Hb0 & Hb1 & Hb2). assert (b ∉ new) as Hb by (intros (_ & _ & ?)%Hnew; lia).
    unfold private. rewrite (pf_null _ _ Hf). destruct (Hout b Hb) as [-> ->]. done. }
  set (m := ms_mgr s) in *.
  assert (Hstep : ∀ m', table_upd m m' rid (blocks_of m rid ++ new) (num_cached m rid) →
    step s rest rid fr (blocks_of m rid ++ new) (num_cached m rid) (mkMS p' m')).
  { intros m' Hu. split; [|split; [done|by auto]|done].
    split; simpl; [done| | |].
    - eapply mgr_inv_upd; [exact Hm|done|exact Hu|apply Hm|..|by auto].
      + intros b [Hb|Hb]%elem_of_app; [by eapply (mi_in _ _ _ Hm)|by apply Hnew].
      + rewrite filter_app. rewrite (filter_id _ new) by (intros; by apply Hnew).
        apply NoDup_app. split_and!; [apply Hm| |by apply NoDup_app in Hnd as [? _]].
        intros b [_ Hb]%list_elem_of_filter Hb'.
        eapply (owned_not_free s (new ++ fr) rest); [by split|exact Hb|set_solver].
      + intros b Hb Hn. rewrite Hr, occ_app, (occ_NoDup b new) by (by apply NoDup_app in Hnd as [? _]). lia.
      + intros j b Hj Hn Hle. apply lookup_app_Some in Hj as [Hj|[_ Hj]].
        * apply Hkeep. by eapply (mi_private _ _ _ Hm).
        * apply Hpriv. by eapply list_elem_of_lookup_2.
    - unfold no_stray. intros E b. rewrite Hh. rewrite (pf_caching _ _ Hf) in E. rewrite E.
      case_decide; by apply Hs.
    - destruct (tu_config _ _ _ _ _ Hu) as (_ & _ & _ & -> & _). by rewrite (pf_caching _ _ Hf). }
  unfold put_req_blocks, upd_mgr. wp_step. simpl.
  destruct (tracks_new_blocks _); wp_step; (split_and!; [done| |exact Hout|exact Hpriv|done]).
  - apply Hstep. eapply table_upd_trans; [apply upd_put|].
    apply upd_ids; [|done]. unfold blocks_of at 1. simpl. by rewrite lookup_insert_eq.
  - apply Hstep, upd_put.
Qed.

(** *** [allocate_new_blocks] *)
Definition missing_blocks (m : Manager) (rid : string) (num_tokens : Z) : Z :=
  Z.max 0 (cdiv num_tokens (m_block_size m) - len (blocks_of m rid)).

Lemma base_allocate_spec s fr rest rid num_tokens :
  ms_inv s fr rest → missing_blocks (ms_mgr s) rid num_tokens ≤ len fr →
  wp (base_allocate_new_blocks rid num_tokens)
    (λ r s', let k := Z.to_nat (missing_blocks (ms_mgr s) rid num_tokens) in
       r = take k fr ∧
       step s rest rid (drop k fr) (blocks_of (ms_mgr s) rid ++ r) (num_cached (ms_mgr s) rid) s' ∧
       (∀ b, b ∉ r → phash (ms_pool s') b = phash (ms_pool s) b ∧ pref (ms_pool s') b = pref (ms_pool s) b) ∧
       (∀ b, b ∈ r → private (ms_pool s') b) ∧
       num_cached_block (ms_mgr s') = num_cached_block (ms_mgr s)) s.
Proof.
  intros H Hk. unfold base_allocate_new_blocks. wp_step.
  eapply wp_mono; [by eapply req_blocks_of_spec|].
  intros bl s1 (-> & Ep & Ebl & Enc & Hs1). wp_step.
  pose proof (tu_config _ _ _ _ _ (st_upd _ _ _ _ _ _ _ Hs1)) as (_ & Ebs & _).
  rewrite Ebs. unfold missing_blocks in *.
  destruct (Z.leb_spec (cdiv num_tokens (m_block_size (ms_mgr s)) - len (blocks_of (ms_mgr s) rid)) 0) as [Hle|Hgt].
  - wp_step. rewrite Z.max_l by lia. simpl. rewrite app_nil_r, Ep. split_and!; [done|done|done|set_solver|done].
  - rewrite Z.max_r in * by lia. set (k := cdiv _ _ - _) in *.
    pose proof (st_inv _ _ _ _ _ _ _ Hs1) as Hi.
    rewrite <- (take_drop (Z.to_nat k) fr) in Hi.
    pose proof (extend_spec _ _ _ _ rid Hi) as Hext. rewrite Ebl in Hext.
    replace (len (take (Z.to_nat k) fr)) with k in Hext by (rewrite length_take; lia).
    eapply wp_mono; [exact Hext|]. intros r s2 (-> & Hs2 & Hout & Hnew & Enc2). rewrite Ep in Hout.
    split_and!; [done| |done|done|congruence].
    assert (En : num_cached (ms_mgr s1) rid = num_cached (ms_mgr s) rid) by (unfold num_cached; by rewrite Enc).
    rewrite En in Hs2. by eapply step_trans.
Qed.

(** *** Giving blocks back *)
Lemma give_back_step s fr rest rid X p' m' fr' l' nc :
  ms_inv s fr rest → 0 ≤ nc →
  (∀ b, b ∈ X → b ∈ blocks_of (ms_mgr s) rid) →
  pool_inv p' fr' → counted (ms_pool s) (λ a, - occ a X) p' →
  table_upd (ms_mgr s) m' rid l' nc →
  (∀ b, b ∈ l' → b = null_block (ms_pool s) ∨ b ∈ blocks_of (ms_mgr s) rid) →
  NoDup (filter (λ b, b ≠ null_block (ms_pool s)) l') →
  (∀ b, b ≠ null_block (ms_pool s) → occ b l' = occ b (blocks_of (ms_mgr s) rid) - occ b X) →
  (∀ j b, l' !! j = Some b → b ≠ null_block (ms_pool s) → nc ≤ Z.of_nat j →
     private (ms_pool s) b) →
  step s rest rid fr' l' nc (mkMS p' m').
Proof.
  intros H Hnc HX Hp' Hc Hu Hin Hnd Hocc Hpr. pose proof H as [Hp Hm Hs Hca].
  pose proof (cn_frame _ _ _ Hc) as Hf. pose proof (pi_data _ _ Hp) as Hd.
  assert (Hkeep : ∀ b, private (ms_pool s) b → b ∉ X → private p' b).
  { intros b (H0 & H1 & H2) Hb. unfold private.
    rewrite (cn_hash _ _ _ Hc), (cn_ref _ _ _ Hc), (pf_null _ _ Hf).
    rewrite occ_not_elem by done. split_and!; [done|done|lia]. }
  assert (Hone : ∀ b, private (ms_pool s) b → b ∈ X →
            refs (req_to_blocks (ms_mgr s)) b + rest b = 1 ∧ 1 ≤ occ b (blocks_of (ms_mgr s) rid)).
  { intros b (H0 & _ & H2) Hb. rewrite <- (mi_refs _ _ _ Hm) by (done || by eapply (mi_in _ _ _ Hm), HX).
    split; [done|]. apply HX, occ_pos in Hb. lia. }
  split; simpl; [|split; [done|]|done].
  - split; simpl; [done| | |].
    + eapply mgr_inv_upd; [exact Hm|done|exact Hu|done| |done|..].
      * intros b [->|Hb]%Hin; [apply (di_nb _ _ _ _ _ Hd)|by eapply (mi_in _ _ _ Hm)].
      * intros b Hb Hn. rewrite (cn_ref _ _ _ Hc), Hocc by done. lia.
      * intros j b Hj Hn Hle. apply Hkeep; [by eapply Hpr|]. intros HbX.
        destruct (Hone b ltac:(by eapply Hpr) HbX) as [Hsum _].
        pose proof (occ_refs s rid b). pose proof (mi_rest _ _ _ Hm b).
        assert (0 < occ b l') by (apply occ_pos; by eapply list_elem_of_lookup_2).
        apply occ_pos in HbX. rewrite Hocc in * by done. lia.
      * intros r b Hr Hb Hpb. apply Hkeep; [done|]. intros HbX.
        destruct (Hone b Hpb HbX) as [Hsum Hocc1].
        pose proof (refs_delete (req_to_blocks (ms_mgr s)) rid b) as Hdel. fold (blocks_of (ms_mgr s) rid) in Hdel.
        assert (Hr2 : occ b (blocks_of (ms_mgr s) r) ≤ refs (delete rid (req_to_blocks (ms_mgr s))) b).
        { unfold blocks_of. rewrite <- (lookup_delete_ne _ rid r) by done.
          destruct (delete rid (req_to_blocks (ms_mgr s)) !! r) eqn:E; simpl;
            [by eapply refs_lookup|rewrite occ_nil; apply refs_nonneg]. }
        apply occ_pos in Hb. pose proof (mi_rest _ _ _ Hm b). lia.
    + unfold no_stray. intros E b. rewrite (cn_hash _ _ _ Hc). apply Hs. by rewrite <- (pf_caching _ _ Hf).
    + destruct (tu_config _ _ _ _ _ Hu) as (_ & _ & _ & -> & _). by rewrite (pf_caching _ _ Hf).
  - intros b Hrb Hpb. apply Hkeep; [done|]. intros HbX.
    destruct (Hone b Hpb HbX) as [Hsum Hocc1]. pose proof (occ_refs s rid b). lia.
Qed.

(** The free queue after giving back the cached blocks of [X] at its end and
    the others at its front. *)
Definition given_back (p : BlockPool) (X fr : list loc) : list loc :=
  released p (unhashed_blocks (pool_heap p) X) ++ fr ++ released p (hashed (pool_heap p) X).

Lemma occ_split h X b : occ b (hashed h X) + occ b (unhashed_blocks h X) = occ b X.
Proof.
  unfold hashed, unhashed_blocks. induction X as [|x X IH]; [done|].
  rewrite !filter_cons, occ_cons. destruct (decide (hash_of h x = None)) as [E|E].
  - rewrite decide_False, occ_cons by naive_solver. lia.
  - rewrite decide_True, occ_cons by done. lia.
Qed.

Lemma can_free_sublist p l l' : l' `sublist_of` l → can_free p l → can_free p l'.
Proof.
  intros Hs [Hnd Hb]. split.
  - eapply sublist_NoDup; [exact Hnd|]. clear -Hs. induction Hs as [|x l l' Hs IH|x l l' Hs IH]; [done|..];
      rewrite ?filter_cons; repeat case_decide; by constructor || done.
  - intros b Hin. apply Hb. by eapply elem_of_submseteq, sublist_submseteq.
Qed.

Lemma give_back_spec p fr X :
  pool_inv p fr → can_free p X →
  wp (_ ← Pool.free_blocks (hashed (pool_heap p) X) false;
      Pool.free_blocks (unhashed_blocks (pool_heap p) X) true)
    (λ _ p', pool_inv p' (given_back p X fr) ∧ counted p (λ a, - occ a X) p') p.
Proof.
  intros Hp HX. set (A := hashed _ X). set (B := unhashed_blocks _ X).
  assert (HA : can_free p A) by (eapply can_free_sublist; [apply sublist_filter|done]).
  assert (HB : can_free p B) by (eapply can_free_sublist; [apply sublist_filter|done]).
  assert (Hdisj : ∀ b, b ∈ B → b ∉ A).
  { intros b [H1 _]%list_elem_of_filter [H2 _]%list_elem_of_filter. done. }
  wp_step. eapply wp_mono; [by apply free_blocks_spec|]. intros _ p1 [Hp1 Hc1].
  assert (Eref : ∀ b, b ∈ B → pref p1 b = pref p b).
  { intros b Hb. rewrite (cn_ref _ _ _ Hc1), (occ_not_elem b A) by auto. lia. }
  pose proof (pf_null _ _ (cn_frame _ _ _ Hc1)) as En.
  assert (HB1 : can_free p1 B).
  { destruct HB as [Hnd Hb]. split; [by rewrite En|]. intros b Hin.
    rewrite (counted_nblk _ _ _ Hc1), En, Eref by done. by apply Hb. }
  eapply wp_mono; [by apply free_blocks_spec|]. intros _ p2 [Hp2 Hc2]. split.
  - unfold given_back. fold A B.
    replace (released p B) with (released p1 B); [done|].
    apply filter_ext_in. intros b Hb. by rewrite En, Eref.
  - eapply counted_trans; [done..|]. intros a. simpl. pose proof (occ_split (pool_heap p) X a) as E.
    fold A B in E. lia.
Qed.

Lemma elem_of_rev (b : loc) l : b ∈ rev l ↔ b ∈ l.
Proof. by rewrite <- Permutation_rev. Qed.

Lemma filter_nonnull_rev nb l :
  NoDup (filter (λ b : loc, b ≠ nb) l) → NoDup (filter (λ b : loc, b ≠ nb) (rev l)).
Proof. apply NoDup_Permutation_proper, filter_Permutation. symmetry. apply Permutation_rev. Qed.

Lemma filter_nonnull_replicate (nb : loc) k : filter (λ b, b ≠ nb) (replicate k nb) = [].
Proof.
  induction k as [|k IH]; [done|]. cbn [replicate]. rewrite filter_cons_False by naive_solver. exact IH.
Qed.

Lemma occ_rev a l : occ a (rev l) = occ a l.
Proof.
  induction l as [|x l IH]; [done|]. simpl. rewrite occ_app, !occ_cons, occ_nil, IH. lia.
Qed.

Section free_spec.
Context (s : mstate) (fr : list loc) (rest : loc → Z) (rid : string) (H : ms_inv s fr rest).
Abbreviation L := (blocks_of (ms_mgr s) rid).

Lemma free_can_free : can_free (ms_pool s) (rev L).
Proof.
  eapply (owned_can_free s fr rest H rid).
  - intros b. by rewrite elem_of_rev.
  - apply filter_nonnull_rev, (mi_nodup _ _ _ (msi_mgr _ _ _ H)).
Qed.

(** The entry is gone and the blocks are given back. *)
Lemma free_step p' fr' :
  pool_inv p' fr' → counted (ms_pool s) (λ a, - occ a (rev L)) p' →
  step s rest rid fr' [] 0
    (mkMS p' (set_num_cached_block (delete rid (num_cached_block (ms_mgr s)))
               (set_req_to_blocks (delete rid (req_to_blocks (ms_mgr s))) (ms_mgr s)))).
Proof.
  intros Hp' Hc. eapply give_back_step; [done|lia| |done|exact Hc|apply upd_delete|set_solver|constructor| |done].
  - intros b. by rewrite elem_of_rev.
  - intros b _. rewrite occ_rev, occ_nil. lia.
Qed.

Lemma base_free_spec :
  wp (base_free rid) (λ _ s', step s rest rid (fr ++ released (ms_pool s) (rev L)) [] 0 s') s.
Proof.
  unfold base_free, pop_req_blocks, on_pool, upd_mgr. wp_step. simpl. fold L.
  eapply wp_mono; [apply free_blocks_spec; [apply H|apply free_can_free]|].
  intros _ p' [Hp' Hc]. wp_step. by apply free_step.
Qed.

Lemma sliding_free_spec :
  wp (sliding_free rid) (λ _ s', step s rest rid (given_back (ms_pool s) (rev L) fr) [] 0 s') s.
Proof.
  unfold sliding_free, pop_req_blocks, upd_mgr. wp_step. simpl. fold L.
  destruct L as [|b l] eqn:E.
  - wp_step. rewrite <- E. pose proof (free_step (ms_pool s) (given_back (ms_pool s) (rev L) fr)) as Hs.
    rewrite E in *. unfold given_back in *. simpl in *. rewrite app_nil_r in *.
    apply Hs; [apply H|by apply counted_refl].
  - rewrite <- E. unfold on_pool. wp_step. simpl.
    pose proof (give_back_spec (ms_pool s) fr (rev L) (msi_pool _ _ _ H) free_can_free) as Hg.
    rewrite wp_bind in Hg. eapply wp_mono; [exact Hg|]. intros ? p1 Hg1. wp_step. simpl.
    eapply wp_mono; [exact Hg1|]. intros _ p2 [Hp2 Hc2]. wp_step. by apply free_step.
Qed.
End free_spec.

(** *** [remove_skipped_blocks] *)

(** The loop stops at the first null block below [n]: the blocks in [i, n) are
    removed, in descending order, and replaced by the null block. *)
Lemma skip_loop_spec nb n : ∀ blocks removed, (n ≤ length blocks)%nat →
  ∃ i, (i ≤ n)%nat ∧
    skip_loop nb n blocks removed =
      (take i blocks ++ replicate (n - i) nb ++ drop n blocks,
       removed ++ rev (take (n - i) (drop i blocks))) ∧
    (∀ b, b ∈ take (n - i) (drop i blocks) → b ≠ nb) ∧
    (i = 0%nat ∨ blocks !! pred i = Some nb).
Proof.
  induction n as [|n IH]; intros blocks removed Hn; simpl.
  { exists 0%nat. rewrite take_0, drop_0, app_nil_r. split_and!; [done|done|set_solver|by left]. }
  destruct (lookup_lt_is_Some_2 blocks n) as [b Hb]; [lia|]. rewrite Hb.
  destruct (decide (b = nb)) as [->|Hne].
  - exists (S n). rewrite Nat.sub_diag, take_0, app_nil_r, app_nil_l, take_drop.
    split_and!; [done|done|set_solver|by right].
  - destruct (IH (<[n := nb]> blocks) (removed ++ [b])) as (i & Hi & E & Hall & Hstop).
    { rewrite length_insert. lia. }
    exists i. rewrite take_insert_ge in E by lia.
    assert (Eseg : take (n - i) (drop i (<[n:=nb]> blocks)) = take (n - i) (drop i blocks)).
    { apply list_eq. intros j. destruct (decide (j < n - i)%nat).
      - rewrite !lookup_take_lt, !lookup_drop, list_lookup_insert_ne by lia. done.
      - rewrite !lookup_take_ge by lia. done. }
    assert (Eseg' : take (S n - i) (drop i blocks) = take (n - i) (drop i blocks) ++ [b]).
    { replace (S n - i)%nat with (S (n - i)) by lia. apply take_S_r.
      rewrite lookup_drop. by replace (i + (n - i))%nat with n by lia. }
    rewrite Eseg in *. split_and!; [lia| | |].
    + assert (Edrop : drop n (<[n := nb]> blocks) = nb :: drop (S n) blocks).
      { rewrite drop_insert_ge, Nat.sub_diag by lia. by rewrite (drop_S blocks b n Hb). }
      assert (Erep : replicate (S n - i) nb = replicate (n - i) nb ++ [nb]).
      { replace (S n - i)%nat with ((n - i) + 1)%nat by lia. by rewrite replicate_add. }
      rewrite E, Edrop, Erep, Eseg', rev_app_distr, <- !app_assoc. done.
    + rewrite Eseg'. intros x [Hx|Hx%list_elem_of_singleton]%elem_of_app; [by apply Hall|by subst].
    + destruct Hstop as [|Hs]; [by left|]. destruct (decide (i = 0%nat)) as [|Hi0]; [by left|right].
      rewrite list_lookup_insert_ne in Hs by lia. done.
Qed.

Section skip_facts.
Context (nb : loc) (L : list loc) (i n : nat) (Hi : (i ≤ n)%nat) (Hn : (n ≤ length L)%nat).
Abbreviation X := (rev (take (n - i) (drop i L))).
Abbreviation L' := (take i L ++ replicate (n - i) nb ++ drop n L).

Lemma skip_split : L = take i L ++ take (n - i) (drop i L) ++ drop n L.
Proof.
  rewrite <- (take_drop i L) at 1. f_equal. rewrite <- (take_drop (n - i) (drop i L)) at 1. f_equal.
  rewrite drop_drop. f_equal. lia.
Qed.

Lemma skip_lookup j b : L' !! j = Some b → b ≠ nb → L !! j = Some b.
Proof.
  intros Hj Hne. rewrite lookup_app in Hj. destruct (take i L !! j) as [x|] eqn:E.
  { apply lookup_take_Some in E as [E _]. congruence. }
  rewrite lookup_app, length_take, Nat.min_l in Hj by lia.
  destruct (replicate (n - i) nb !! (j - i)%nat) as [x|] eqn:E2.
  { apply lookup_replicate in E2 as [-> _]. congruence. }
  apply lookup_ge_None in E, E2. rewrite length_take in E. rewrite length_replicate in E2, Hj.
  rewrite lookup_drop in Hj. rewrite <- Hj. f_equal. lia.
Qed.

Lemma skip_occ b : b ≠ nb → occ b L' = occ b L - occ b X.
Proof.
  intros Hne. pose proof (f_equal (occ b) skip_split) as E. rewrite !occ_app in E.
  rewrite !occ_app, occ_rev.
  rewrite (occ_not_elem b (replicate _ _)); [lia|]. intros [-> _]%elem_of_replicate. done.
Qed.

Lemma skip_in_X b : b ∈ X → b ∈ L.
Proof. rewrite elem_of_rev. intros Hb. rewrite skip_split, !elem_of_app. tauto. Qed.

Lemma skip_in b : b ∈ L' → b = nb ∨ b ∈ L.
Proof.
  intros [j Hj]%list_elem_of_lookup. destruct (decide (b = nb)); [by left|right].
  eapply list_elem_of_lookup_2, skip_lookup; done.
Qed.

Lemma skip_NoDup : NoDup (filter (λ b, b ≠ nb) L) →
  NoDup (filter (λ b, b ≠ nb) L') ∧ NoDup (filter (λ b, b ≠ nb) X).
Proof.
  intros Hnd. rewrite skip_split, !filter_app in Hnd. rewrite !filter_app. split.
  - rewrite filter_nonnull_replicate, app_nil_l, NoDup_app. rewrite !NoDup_app in Hnd.
    destruct Hnd as (H1 & H2 & H3 & H4 & H5). split_and!; [done| |done]. set_solver.
  - apply filter_nonnull_rev. rewrite !NoDup_app in Hnd. tauto.
Qed.
End skip_facts.

(** The number of blocks of a request that lie before the window. *)
Definition num_skipped_blocks (m : Manager) (rid : string) (total_computed_tokens : Z) : nat :=
  Z.to_nat (Z.min (get_num_skipped_tokens m total_computed_tokens / m_block_size m)
                  (len (blocks_of m rid))).

Lemma step_refl s fr rest rid :
  ms_inv s fr rest → step s rest rid fr (blocks_of (ms_mgr s) rid) (num_cached (ms_mgr s) rid) s.
Proof.
  intros H. destruct s as [p m]. apply (ms_inv_upd_same (mkMS p m)); [done|].
  split; [done|intros r|intros b; simpl; lia|intros r]; by case_decide; subst.
Qed.

Lemma base_remove_skipped_spec s fr rest rid t :
  ms_inv s fr rest →
  wp (base_remove_skipped_blocks rid t)
    (λ _ s', let L := blocks_of (ms_mgr s) rid in let n := num_skipped_blocks (ms_mgr s) rid t in
       ∃ i, (i ≤ n)%nat ∧ (i = 0%nat ∨ L !! pred i = Some (null_block (ms_pool s))) ∧
         step s rest rid (given_back (ms_pool s) (rev (take (n - i) (drop i L))) fr)
           (take i L ++ replicate (n - i) (null_block (ms_pool s)) ++ drop n L)
           (num_cached (ms_mgr s) rid) s') s.
Proof.
  intros H. pose proof (mi_null _ _ _ (msi_mgr _ _ _ H)) as Enull.
  unfold base_remove_skipped_blocks. wp_step. unfold num_skipped_blocks.
  set (sk := get_num_skipped_tokens _ _). pose proof (mi_bs _ _ _ (msi_mgr _ _ _ H)) as Hbs.
  destruct (Z.leb_spec sk 0) as [Hsk|Hsk].
  { wp_step. exists 0%nat.
    assert (sk / m_block_size (ms_mgr s) ≤ 0) by (apply Z.div_le_upper_bound; lia).
    replace (Z.to_nat _) with 0%nat by lia. split; [done|]. split; [by left|].
    unfold given_back. simpl. rewrite app_nil_r. by apply step_refl. }
  wp_step. eapply wp_mono; [by eapply req_blocks_of_spec|].
  intros bl s1 (-> & Ep & Ebl & Enc & Hs1). wp_step.
  pose proof (tu_config _ _ _ _ _ (st_upd _ _ _ _ _ _ _ Hs1)) as (_ & Ebs & _ & _ & _ & _ & Emn & _).
  rewrite Ebs, Emn, Enull. set (L := blocks_of (ms_mgr s) rid) in *.
  set (n := Z.to_nat (Z.min _ _)). assert (Hn : (n ≤ length L)%nat) by lia.
  destruct (skip_loop_spec (null_block (ms_pool s)) n L [] Hn) as (i & Hi & E & Hall & Hstop).
  rewrite E. rewrite app_nil_l. unfold put_req_blocks, upd_mgr, on_pool. wp_step. simpl. rewrite Ep.
  destruct (skip_NoDup (null_block (ms_pool s)) L i n Hi Hn) as [Hnd1 Hnd2].
  { apply (mi_nodup _ _ _ (msi_mgr _ _ _ H)). }
  set (X := rev _) in *.
  assert (HXin : ∀ b, b ∈ X → b ∈ L) by (apply skip_in_X; done).
  assert (HX : can_free (ms_pool s) X) by (by eapply (owned_can_free s fr rest H rid)).
  pose proof (give_back_spec (ms_pool s) fr X (msi_pool _ _ _ H) HX) as Hg. rewrite wp_bind in Hg.
  eapply wp_mono; [exact Hg|]. intros ? p1 Hg1. wp_step. simpl.
  eapply wp_mono; [exact Hg1|]. intros _ p2 [Hp2 Hc2]. exists i. split; [done|]. split; [done|].
  pose proof (st_upd _ _ _ _ _ _ _ Hs1) as Hu1.
  apply (give_back_step s fr rest rid X); [done| |done|done|done| | |done| |].
  - apply (mi_cached_nonneg _ _ _ (msi_mgr _ _ _ H)).
  - eapply table_upd_trans; [exact Hu1|].
    replace (num_cached (ms_mgr s) rid) with (num_cached (ms_mgr s1) rid) by (unfold num_cached; by rewrite Enc).
    apply upd_put.
  - apply skip_in; done.
  - intros b Hb. by apply skip_occ.
  - intros j b Hj Hb Hle. apply skip_lookup in Hj; [|done..].
    by eapply (mi_private _ _ _ (msi_mgr _ _ _ H)).
Qed.

(** Nothing is given back for a request without blocks. *)
Lemma free_no_blocks p b : wp (Pool.free_blocks [] b) (λ _ p', p' = p) p.
Proof.
  unfold Pool.free_blocks. cbn [for_each]. wp_step. unfold on_queue.
  destruct b; wp_step; unfold FreeKVCacheBlockQueue.prepend_n, FreeKVCacheBlockQueue.append_n; simpl; wp_step;
    by destruct p.
Qed.

Lemma base_remove_skipped_new s fr rest rid t :
  ms_inv s fr rest → blocks_of (ms_mgr s) rid = [] →
  wp (base_remove_skipped_blocks rid t)
    (λ _ s', ms_pool s' = ms_pool s ∧ num_cached_block (ms_mgr s') = num_cached_block (ms_mgr s) ∧
       step s rest rid fr [] (num_cached (ms_mgr s) rid) s') s.
Proof.
  intros H Hempty. pose proof (step_refl s fr rest rid H) as Hr. rewrite Hempty in Hr.
  unfold base_remove_skipped_blocks. wp_step. destruct (_ <=? 0); [by wp_step|].
  wp_step. eapply wp_mono; [by eapply req_blocks_of_spec|].
  intros bl s1 (-> & Ep & Ebl & Enc & Hs1). rewrite Hempty in *. wp_step.
  replace (Z.to_nat _) with 0%nat by (simpl; lia). simpl. unfold put_req_blocks, upd_mgr, on_pool. wp_step. simpl.
  eapply wp_mono; [apply free_no_blocks|]. intros ? p1 ->. wp_step.
  eapply wp_mono; [apply free_no_blocks|]. intros ? p2 ->. simpl. split; [done|]. split; [done|].
  eapply step_trans; [exact Hs1|].
  set (m' := set_req_to_blocks _ _).
  assert (E1 : num_cached (ms_mgr s1) rid = num_cached (ms_mgr s) rid) by (unfold num_cached; by rewrite Enc).
  pose proof (ms_inv_upd_same s1 m' fr rest rid (st_inv _ _ _ _ _ _ _ Hs1)) as Hsame.
  rewrite Ebl, E1 in Hsame. apply Hsame. rewrite <- E1. apply upd_put.
Qed.

(** *** [allocate_new_computed_blocks] *)

(** The blocks of a prefix-cache hit: blocks of the pool, distinct but for the
    null block, and each in the cache. *)
Record hits_ok (p : BlockPool) (hits : list loc) : Prop := {
  hk_in b : b ∈ hits → (b < nblk p)%nat;
  hk_nodup : NoDup (filter (λ b, b ≠ null_block p) hits);
  hk_hashed b : b ∈ hits → b ≠ null_block p → is_Some (phash p b);
}.

Lemma hits_ok_drop p hits n : hits_ok p hits → hits_ok p (drop n hits).
Proof.
  intros [H1 H2 H3].
  assert (Hsub : ∀ b, b ∈ drop n hits → b ∈ hits).
  { intros b [i Hi]%list_elem_of_lookup. rewrite lookup_drop in Hi. by eapply list_elem_of_lookup_2. }
  split; [by auto| |by auto]. rewrite <- (take_drop n hits), filter_app, NoDup_app in H2. tauto.
Qed.

(** Touching the hits of a new request and entering them in its list. *)
Lemma enter_hits_step s fr rest rid hits nulls p' m' :
  ms_inv s fr rest → blocks_of (ms_mgr s) rid = [] → hits_ok (ms_pool s) hits →
  pool_inv p' (without hits fr) → counted (ms_pool s) (λ a, occ a hits) p' →
  let L := replicate nulls (null_block (ms_pool s)) ++ hits in
  table_upd (ms_mgr s) m' rid L (len L) →
  step s rest rid (without hits fr) L (len L) (mkMS p' m').
Proof.
  intros [Hp Hm Hs Hca] Hempty [Hin Hnd Hhash] Hp' Hc L Hu. pose proof (cn_frame _ _ _ Hc) as Hf.
  assert (Hkeep : ∀ b, private (ms_pool s) b → private p' b).
  { intros b (H0 & H1 & H2). unfold private.
    rewrite (cn_hash _ _ _ Hc), (cn_ref _ _ _ Hc), (pf_null _ _ Hf).
    rewrite occ_not_elem; [split_and!; [done|done|lia]|].
    intros Hb. destruct (Hhash b Hb H0). congruence. }
  split; simpl; [|split; [done|by auto]|done]. split; simpl; [done| | |].
  - eapply mgr_inv_upd; [exact Hm|done|exact Hu|lia|..|by auto].
    + intros b [[-> _]%elem_of_replicate|Hb]%elem_of_app; [|by apply Hin].
      apply (di_nb _ _ _ _ _ (pi_data _ _ Hp)).
    + unfold L. by rewrite filter_app, filter_nonnull_replicate.
    + intros b Hb Hn. rewrite (cn_ref _ _ _ Hc), Hempty, occ_nil. unfold L. rewrite occ_app.
      rewrite (occ_not_elem b (replicate _ _)); [lia|]. intros [-> _]%elem_of_replicate. done.
    + intros j b Hj _ Hle. apply lookup_lt_Some in Hj. lia.
  - unfold no_stray. intros E b. rewrite (cn_hash _ _ _ Hc). apply Hs. by rewrite <- (pf_caching _ _ Hf).
  - destruct (tu_config _ _ _ _ _ Hu) as (_ & _ & _ & -> & _). by rewrite (pf_caching _ _ Hf).
Qed.

(** The number of hit blocks before the window, and the list a new request
    starts with: null blocks for them, then the remaining hits. *)
Definition skipped_hits (m : Manager) (t : Z) : nat :=
  Z.to_nat (get_num_skipped_tokens m t / m_block_size m).
Definition entered (m : Manager) (nb : loc) (hits : list loc) (t : Z) : list loc :=
  replicate (skipped_hits m t) nb ++ drop (skipped_hits m t) hits.

(** The number of blocks allocated for external tokens. *)
Definition external_blocks (m : Manager) (nb : loc) (hits : list loc) (local ext : Z) : Z :=
  let t := local + ext in
  let sk := get_num_skipped_tokens m t in
  if 0 <? (if 0 <? sk / m_block_size m then Z.min (t - sk) ext else ext)
  then cdiv t (m_block_size m) - len (entered m nb hits t) else 0.

Definition hits_pre (s : mstate) (hits : list loc) : Prop :=
  if m_enable_caching (ms_mgr s) then hits_ok (ms_pool s) hits else hits = [].

Lemma hits_pre_ok s hits : hits_pre s hits → hits_ok (ms_pool s) hits.
Proof.
  unfold hits_pre. destruct (m_enable_caching _); [done|]. intros ->.
  split; [set_solver|constructor|set_solver].
Qed.

Lemma base_allocate_computed_spec s fr rest rid hits local ext :
  ms_inv s fr rest → num_cached_block (ms_mgr s) !! rid = None → blocks_of (ms_mgr s) rid = [] →
  hits_pre s hits →
  let nb := null_block (ms_pool s) in
  let E := external_blocks (ms_mgr s) nb hits local ext in
  let L := entered (ms_mgr s) nb hits (local + ext) in
  let fr1 := without (drop (skipped_hits (ms_mgr s) (local + ext)) hits) fr in
  0 ≤ E ≤ len fr1 →
  wp (base_allocate_new_computed_blocks rid hits local ext)
    (λ _ s', step s rest rid (drop (Z.to_nat E) fr1) (L ++ take (Z.to_nat E) fr1) (len L) s' ∧
       num_cached_block (ms_mgr s') !! rid = Some (len L) ∧
       (∀ b, b ∉ take (Z.to_nat E) fr1 → phash (ms_pool s') b = phash (ms_pool s) b)) s.
Proof.
  intros H Hnone Hempty Hhits nb E L fr1 HE. pose proof (mi_null _ _ _ (msi_mgr _ _ _ H)) as Enull.
  unfold base_allocate_new_computed_blocks. wp_step. rewrite Hnone. wp_step.
  eapply wp_mono; [by eapply req_blocks_of_spec|].
  intros bl s1 (-> & Ep & Ebl & Enc & Hs1). rewrite Hempty. wp_step. split; [done|].
  set (m := ms_mgr s) in *. set (sk := get_num_skipped_tokens m (local + ext)).
  set (k := skipped_hits m (local + ext)) in *.
  assert (Ehits : (if 0 <? sk / m_block_size m
            then (py_from hits (sk / m_block_size m), Z.min (local + ext - sk) ext) else (hits, ext))
          = (drop k hits, if 0 <? sk / m_block_size m then Z.min (local + ext - sk) ext else ext)).
  { unfold k, skipped_hits, py_from. fold sk. destruct (Z.ltb_spec 0 (sk / m_block_size m)); [done|].
    by replace (Z.to_nat (sk / m_block_size m)) with 0%nat by lia. }
  rewrite Ehits, app_nil_l. change (Z.to_nat (sk / m_block_size m)) with k.
  rewrite Enull. change (replicate k nb ++ drop k hits) with L.
  apply wp_bind, wp_mono with (P := λ _ s2, ms_mgr s2 = ms_mgr s1 ∧ pool_inv (ms_pool s2) fr1 ∧
    counted (ms_pool s) (λ a, occ a (drop k hits)) (ms_pool s2)).
  { pose proof (hits_pre_ok s hits Hhits) as Hok. unfold hits_pre in Hhits. fold m in Hhits.
    destruct (m_enable_caching m).
    - unfold on_pool. rewrite wp_zoom. simpl. rewrite Ep.
      eapply wp_mono; [apply touch_spec; [apply H|apply hits_ok_drop, Hok]|].
      intros _ p' [Hp' Hc]. done.
    - subst hits. rewrite drop_nil in *. wp_step. rewrite Ep. split; [done|]. split; [done|].
      split; [|by apply counted_refl]. unfold fr1. unfold without. rewrite drop_nil, filter_id by set_solver. apply H. }
  intros _ s2 (Em2 & Hp2 & Hc2). unfold put_req_blocks, upd_mgr. wp_step. simpl. rewrite Em2.
  set (m3 := set_num_cached_block _ _).
  assert (Hu : table_upd m m3 rid L (len L)).
  { eapply table_upd_trans; [apply (st_upd _ _ _ _ _ _ _ Hs1)|].
    eapply table_upd_trans; [apply upd_put|]. unfold m3.
    set (m2 := set_req_to_blocks (<[rid:=L]> (req_to_blocks (ms_mgr s1))) (ms_mgr s1)).
    assert (E2 : blocks_of m2 rid = L) by (unfold blocks_of; simpl; by rewrite lookup_insert_eq).
    rewrite <- E2 at 1. apply (upd_cached m2). }
  assert (Hstep : step s rest rid fr1 L (len L) (mkMS (ms_pool s2) m3)).
  { eapply (enter_hits_step s fr rest rid (drop k hits) k); [done|done| |done|done|done].
    by apply hits_ok_drop, hits_pre_ok. }
  assert (Hnc3 : num_cached_block m3 !! rid = Some (len L)) by (simpl; by rewrite lookup_insert_eq).
  unfold E, external_blocks in HE. fold m sk L in HE.
  unfold E, external_blocks. fold m sk L. destruct (0 <? (if _ <? _ then _ else _)).
  2: { wp_step. simpl. rewrite drop_0, take_0, app_nil_r. split_and!; [done|done|]. intros b _. apply Hc2. }
  set (e := cdiv _ _ - len L) in *. wp_step.
  pose proof (st_inv _ _ _ _ _ _ _ Hstep) as Hi3. rewrite <- (take_drop (Z.to_nat e) fr1) in Hi3.
  pose proof (extend_spec _ _ _ _ rid Hi3) as Hext.
  assert (Eb3 : blocks_of m3 rid = L) by (rewrite (tu_blocks _ _ _ _ _ Hu); by rewrite decide_True).
  assert (En3 : num_cached m3 rid = len L) by (unfold num_cached; by rewrite Hnc3).
  simpl in Hext. rewrite Eb3, En3 in Hext.
  replace (len (take (Z.to_nat e) fr1)) with e in Hext by (rewrite length_take; lia).
  eapply wp_mono; [exact Hext|]. intros r s4 (-> & Hs4 & Hout & _ & Enc4). wp_step.
  split_and!; [by eapply step_trans|by rewrite Enc4|].
  intros b Hb. destruct (Hout b Hb) as [-> _]. apply Hc2.
Qed.

(** *** [cache_blocks] *)

(** What a call relies on: the request's hashes reach the last full block, its
    list holds the tokens, and the sizes are those the constructor checked. *)
Record cacheable (s : mstate) (r : Request) (num_tokens : Z) : Prop := {
  ch_caching : enable_caching (ms_pool s) = true;
  ch_group : 0 ≤ m_group_id (ms_mgr s) < 2 ^ 32;
  ch_hbs : 0 < hash_block_size (ms_pool s);
  ch_mod : m_block_size (ms_mgr s) mod hash_block_size (ms_pool s) = 0;
  ch_sched : is_sliding (m_spec (ms_mgr s)) = true →
    m_scheduler_block_size (ms_mgr s) mod block_size (m_spec (ms_mgr s)) = 0;
  ch_blocks : num_tokens / m_block_size (ms_mgr s) ≤ len (blocks_of (ms_mgr s) (request_id r));
  ch_hashes : num_tokens / m_block_size (ms_mgr s) ≤
    len (group_hashes (block_hashes r) (hash_block_size (ms_pool s)) (m_block_size (ms_mgr s)));
  ch_sorted : mm_sorted (mm_features r);
  ch_memo : memo_ok r;
}.

Lemma mask_length spec start stop align eagle ret np :
  0 ≤ start ≤ stop → (is_sliding spec = true → align mod block_size spec = 0) →
  ∃ mask, reachable_block_mask spec start stop align eagle ret np = Ok mask ∧
    ∀ l, mask = Some l → len l = stop - start.
Proof.
  intros Hr Hal. unfold reachable_block_mask, is_sliding in *.
  destruct (kind spec); try (by exists None).
  unfold sliding_mask. rewrite Hal by done. simpl negb. cbn iota.
  assert (Hl : ∀ f : Z → bool, len (f <$> py_range start stop) = stop - start).
  { intros f. unfold py_range. rewrite length_fmap, length_seqZ. lia. }
  destruct ret as [r|]; [destruct (r =? 0)|].
  - eexists. split; [done|]. intros l [= <-]. apply Hl.
  - destruct (_ <=? _); [by exists None|]. eexists. split; [done|]. intros l [= <-]. apply Hl.
  - destruct (_ <=? _); [by exists None|]. eexists. split; [done|]. intros l [= <-]. apply Hl.
Qed.

Lemma to_cache_nonnull nb hs mask blks : ∀ i,
  (to_cache nb hs mask i blks).*1 `sublist_of` filter (λ b, b ≠ nb) blks.
Proof.
  induction blks as [|x blks IH]; intros i; cbn [to_cache]; [done|]. rewrite filter_cons.
  destruct (bool_decide (x = nb)) eqn:E; simpl.
  - apply bool_decide_eq_true in E. rewrite decide_False by naive_solver. apply IH.
  - apply bool_decide_eq_false in E. rewrite decide_True by done.
    destruct (Pool.masked_out mask i); simpl; by constructor.
Qed.

(** A block other than the null block has one position in a list. *)
Lemma NoDup_nonnull_inj (nb : loc) l i j b :
  NoDup (filter (λ b, b ≠ nb) l) → l !! i = Some b → l !! j = Some b → b ≠ nb → i = j.
Proof.
  revert i j. induction l as [|x l IH]; intros [|i] [|j]; rewrite ?filter_cons; simpl; try done.
  - intros Hnd [= ->] Hj Hb. rewrite decide_True in Hnd by done. apply NoDup_cons in Hnd as [Hx _].
    destruct Hx. apply list_elem_of_filter. split; [done|]. by eapply list_elem_of_lookup_2.
  - intros Hnd Hi [= ->] Hb. rewrite decide_True in Hnd by done. apply NoDup_cons in Hnd as [Hx _].
    destruct Hx. apply list_elem_of_filter. split; [done|]. by eapply list_elem_of_lookup_2.
  - intros Hnd Hi Hj Hb. f_equal. apply IH; [|done..]. case_decide; [by apply NoDup_cons in Hnd as [_ ?]|done].
Qed.

Lemma filter_sublist_mono (P : loc → Prop) `{∀ x, Decision (P x)} l l' :
  l `sublist_of` l' → filter P l `sublist_of` filter P l'.
Proof.
  induction 1 as [|x l l' Hs IH|x l l' Hs IH]; [done|..];
    rewrite ?filter_cons; repeat case_decide; by constructor || done.
Qed.

Section cache_spec.
Context (s : mstate) (fr : list loc) (rest : loc → Z) (r : Request) (num_tokens : Z).
Context (H : ms_inv s fr rest) (Hc : cacheable s r num_tokens).
Abbreviation m := (ms_mgr s).
Abbreviation p := (ms_pool s).
Abbreviation rid := (request_id r).
Abbreviation L := (blocks_of m rid).
Abbreviation nc := (num_cached m rid).
Abbreviation nf := (num_tokens / m_block_size m).
Context (Hlt : nc < nf) (mask : option (list bool)).
Abbreviation new := (call_cached p r L nc nf (m_block_size m) mask).

Lemma new_sublist : new.*1 `sublist_of` filter (λ b, b ≠ null_block p) L.
Proof. etrans; [apply to_cache_nonnull|]. apply filter_sublist_mono, py_slice_sublist. Qed.

Lemma new_NoDup : NoDup new.*1.
Proof. eapply sublist_NoDup; [apply (mi_nodup _ _ _ (msi_mgr _ _ _ H) rid)|apply new_sublist]. Qed.

(** A new block stands at a position between the two numbers. *)
Lemma new_position b : b ∈ new.*1 → b ≠ null_block p ∧ ∃ j, nc ≤ Z.of_nat j < nf ∧ L !! j = Some b.
Proof.
  intros Hb. pose proof (mi_cached_nonneg _ _ _ (msi_mgr _ _ _ H) rid). split.
  - eapply elem_of_submseteq in Hb; [|apply sublist_submseteq, new_sublist].
    by apply list_elem_of_filter in Hb as [? _].
  - apply list_elem_of_fmap in Hb as ([b' h] & -> & Hb). apply to_cache_elem in Hb.
    apply list_elem_of_lookup in Hb as [i Hi]. unfold py_slice in Hi.
    apply lookup_take_Some in Hi as [Hi Hlt']. rewrite lookup_drop in Hi.
    exists (Z.to_nat nc + i)%nat. split; [lia|done].
Qed.

Lemma new_private b : b ∈ new.*1 → private p b.
Proof.
  intros (Hn & j & Hj & E)%new_position. eapply (mi_private _ _ _ (msi_mgr _ _ _ H)); [exact E|done|lia].
Qed.

(** A private block of another owner is not among the new ones. *)
Lemma new_exclusive b : b ∈ new.*1 → refs (delete rid (req_to_blocks m)) b + rest b = 0.
Proof.
  intros Hb. destruct (new_private b Hb) as (Hn & _ & Href). destruct (new_position b Hb) as (_ & j & _ & Hj).
  apply list_elem_of_lookup_2 in Hj. pose proof (mi_in _ _ _ (msi_mgr _ _ _ H) rid b Hj) as Hlt'.
  rewrite (mi_refs _ _ _ (msi_mgr _ _ _ H)) in Href by done.
  rewrite refs_delete. fold L. apply occ_pos in Hj.
  pose proof (refs_nonneg (delete rid (req_to_blocks m)) b) as Hr0. rewrite refs_delete in Hr0. fold L in Hr0.
  pose proof (mi_rest _ _ _ (msi_mgr _ _ _ H) b). lia.
Qed.

Lemma cache_step p' m' :
  pool_inv p' fr → cached_as p (m_group_id m) new p' → table_upd m m' rid L nf →
  step s rest rid fr L nf (mkMS p' m').
Proof.
  intros Hp' [Hf Href _ Hout] Hu. destruct H as [Hp Hm Hs Hca].
  assert (Hkeep : ∀ b, private p b → b ∉ new.*1 → private p' b).
  { intros b (H0 & H1 & H2) Hb. unfold private. rewrite (pf_null _ _ Hf), Href, Hout by done. done. }
  split; simpl; [|split; [done|]|done].
  - split; simpl; [done| |unfold no_stray; rewrite (pf_caching _ _ Hf), (ch_caching _ _ _ Hc); done|].
    + eapply mgr_inv_upd; [exact Hm|done|exact Hu| |apply Hm|apply Hm| | |].
      * pose proof (mi_cached_nonneg _ _ _ Hm rid). lia.
      * intros b Hb Hn. rewrite Href. lia.
      * intros j b Hj Hn Hle. apply Hkeep; [eapply (mi_private _ _ _ Hm); [exact Hj|done|lia]|].
        intros (_ & j' & Hj' & E)%new_position.
        assert (j = j') as ->; [|lia]. eapply (NoDup_nonnull_inj (null_block p) L); [apply Hm|done|done|done].
      * intros r' b Hr Hb Hpb. apply Hkeep; [done|]. intros Hnew. pose proof (new_exclusive b Hnew) as Hx.
        pose proof (mi_rest _ _ _ Hm b). apply occ_pos in Hb.
        assert (occ b (blocks_of m r') ≤ refs (delete rid (req_to_blocks m)) b); [|lia].
        unfold blocks_of. rewrite <- (lookup_delete_ne _ rid r') by done.
        destruct (delete rid (req_to_blocks m) !! r') eqn:E; simpl;
          [by eapply refs_lookup|rewrite occ_nil; apply refs_nonneg].
    + destruct (tu_config _ _ _ _ _ Hu) as (_ & _ & _ & -> & _). by rewrite (pf_caching _ _ Hf).
  - intros b Hrb Hpb. apply Hkeep; [done|]. intros Hnew. pose proof (new_exclusive b Hnew).
    pose proof (refs_nonneg (delete rid (req_to_blocks m)) b). lia.
Qed.
End cache_spec.

Lemma base_cache_blocks_spec s fr rest r num_tokens ret :
  ms_inv s fr rest → cacheable s r num_tokens →
  wp (base_cache_blocks r num_tokens ret)
    (λ r' s', let rid := request_id r in let L := blocks_of (ms_mgr s) rid in
       let nc := num_cached (ms_mgr s) rid in let nf := num_tokens / m_block_size (ms_mgr s) in
       memo_frame r r' ∧ step s rest rid fr L (Z.max nc nf) s' ∧
       (nc < nf → ∃ mask,
          reachable_block_mask (m_spec (ms_mgr s)) nc nf (m_scheduler_block_size (ms_mgr s))
            (m_use_eagle (ms_mgr s)) ret (Some (num_prompt_tokens r)) = Ok mask ∧
          cached_as (ms_pool s) (m_group_id (ms_mgr s))
            (call_cached (ms_pool s) r L nc nf (m_block_size (ms_mgr s)) mask) (ms_pool s'))) s.
Proof.
  intros H Hc. unfold base_cache_blocks. wp_step. fold (num_cached (ms_mgr s) (request_id r)).
  pose proof (mi_cached_nonneg _ _ _ (msi_mgr _ _ _ H) (request_id r)) as Hnc.
  destruct (Z.leb_spec (num_tokens / m_block_size (ms_mgr s)) (num_cached (ms_mgr s) (request_id r))) as [Hle|Hlt].
  { wp_step. rewrite Z.max_l by done.
    split_and!; [apply memo_frame_refl, Hc|by apply step_refl|lia]. }
  rewrite Z.max_r by lia.
  destruct (mask_length (m_spec (ms_mgr s)) (num_cached (ms_mgr s) (request_id r))
    (num_tokens / m_block_size (ms_mgr s)) (m_scheduler_block_size (ms_mgr s)) (m_use_eagle (ms_mgr s)) ret
    (Some (num_prompt_tokens r))) as (mask & Emask & Hmask); [lia|apply Hc|].
  wp_step. rewrite Emask. unfold of_res at 1, wp at 1. wp_step.
  eapply wp_mono; [by eapply req_blocks_of_spec|].
  intros bl s1 (-> & Ep & Ebl & Enc & Hs1). unfold on_pool. wp_step. rewrite Ep.
  assert (Hcall : cache_call (ms_pool s) r (blocks_of (ms_mgr s) (request_id r))
    (num_cached (ms_mgr s) (request_id r)) (num_tokens / m_block_size (ms_mgr s))
    (m_block_size (ms_mgr s)) (m_group_id (ms_mgr s)) mask).
  { destruct Hc. split; try done.
    - apply (mi_bs _ _ _ (msi_mgr _ _ _ H)).
    - apply (mi_in _ _ _ (msi_mgr _ _ _ H)). }
  eapply wp_mono.
  { apply (cache_full_blocks_spec (ms_pool s) fr); [apply H|exact Hcall| |].
    - by eapply new_NoDup.
    - intros b Hb. eapply new_private in Hb as (_ & Hh & _); done. }
  intros r' p' (Hp' & Hca & Hmemo & _). unfold upd_mgr. wp_step. simpl.
  split_and!; [done| |intros _; exists mask; done].
  eapply cache_step; [done..|].
  eapply table_upd_trans; [apply (st_upd _ _ _ _ _ _ _ Hs1)|].
  rewrite <- Ebl. apply upd_cached.
Qed.

(** ** The prediction of [get_num_blocks_to_allocate] *)
Lemma length_without (l fr : list loc) :
  NoDup fr → NoDup (filter (λ b, b ∈ fr) l) →
  len (without l fr) = len fr - len (filter (λ b, b ∈ fr) l).
Proof.
  intros Hfr Hl.
  assert (E : filter (λ b, b ∈ fr) l ≡ₚ filter (λ b, b ∈ l) fr).
  { apply NoDup_Permutation; [done|by apply NoDup_filter|]. intros x. rewrite !list_elem_of_filter. tauto. }
  rewrite E. unfold without. clear. induction fr as [|x fr IH]; [done|].
  rewrite !filter_cons. destruct (decide (x ∈ l)).
  - rewrite decide_False by naive_solver. cbn [length]. lia.
  - rewrite decide_True by done. cbn [length]. lia.
Qed.

(** The evictable hits are those that stand in the free queue. *)
Lemma evictable_spec p fr l :
  pool_inv p fr → hits_ok p l →
  get_num_evictable_blocks p l = len fr - len (without l fr).
Proof.
  intros Hp [Hin Hnd _]. unfold get_num_evictable_blocks, Pool.freed_of.
  assert (E : filter (λ b, Pool.is_freed (pool_heap p) b = true) l = filter (λ b, b ∈ fr) l).
  { apply filter_ext_in. intros b Hb. specialize (Hin b Hb).
    destruct (di_lookup _ _ _ _ _ _ (pi_data _ _ Hp) Hin) as (x & Hx & _ & Hn & Hr & _).
    unfold Pool.is_freed. rewrite Hx, Hn, Hr, andb_true_iff, negb_true_iff, bool_decide_eq_false, Z.eqb_eq.
    rewrite (di_free _ _ _ _ _ (pi_data _ _ Hp)). tauto. }
  rewrite E, length_without; [lia|by eapply pool_inv_NoDup|].
  eapply sublist_NoDup; [exact Hnd|].
  assert (filter (λ b, b ∈ fr) l = filter (λ b, b ∈ fr) (filter (λ b, b ≠ null_block p) l)) as ->.
  { rewrite list_filter_filter. apply filter_ext_in. intros b _. split; [|tauto]. intros Hb. split; [done|].
    intros ->. apply (di_free _ _ _ _ _ (pi_data _ _ Hp)) in Hb. naive_solver. }
  apply sublist_filter.
Qed.

Section predict.
Context (s : mstate) (fr : list loc) (rest : loc → Z) (rid : string).
Context (hits : list loc) (local ext num_tokens : Z).
Context (H : ms_inv s fr rest).
Abbreviation m := (ms_mgr s).
Abbreviation nb := (null_block (ms_pool s)).
Context (Hnone : num_cached_block m !! rid = None) (Hempty : blocks_of m rid = []).
Context (Hhits : hits_pre s hits).
(** The hits and the skipped tokens lie within the computed tokens, which
    are within the tokens to hold. *)
Context (Hlen : len hits * m_block_size m ≤ local + ext).
Context (Hsk : 0 ≤ get_num_skipped_tokens m (local + ext) ≤ local + ext).
Context (Hnt : local + ext ≤ num_tokens).
Abbreviation L := (entered m nb hits (local + ext)).
Abbreviation fr1 := (without (drop (skipped_hits m (local + ext)) hits) fr).
Abbreviation N := (Z.max (cdiv num_tokens (m_block_size m) - len L) 0 + (len fr - len fr1)).

Lemma entered_length :
  len L = Z.max (get_num_skipped_tokens m (local + ext) / m_block_size m) (len hits).
Proof.
  unfold entered. rewrite length_app, length_replicate, length_drop. unfold skipped_hits. lia.
Qed.

Lemma base_num_blocks_new :
  base_num_blocks_to_allocate s rid num_tokens hits (local + ext) false = Ok N.
Proof.
  unfold base_num_blocks_to_allocate. rewrite Hnone. fold (blocks_of m rid). rewrite Hempty.
  assert (Ecap : (match m_max_admission m with
    | Some cap => if false then Z.min (cdiv num_tokens (m_block_size m)) cap else cdiv num_tokens (m_block_size m)
    | None => cdiv num_tokens (m_block_size m) end) = cdiv num_tokens (m_block_size m))
    by (by destruct (m_max_admission m)).
  rewrite Ecap. f_equal. rewrite entered_length. simpl (len []). rewrite Z.add_0_r, Z.sub_0_r. f_equal.
  unfold py_from. rewrite (evictable_spec _ fr); [|apply H|by apply hits_ok_drop, hits_pre_ok].
  unfold skipped_hits.
  by replace (Z.to_nat (Z.max 0 (get_num_skipped_tokens m (local + ext) / m_block_size m)))
    with (Z.to_nat (get_num_skipped_tokens m (local + ext) / m_block_size m)) by lia.
Qed.

Lemma external_bounds :
  0 ≤ external_blocks m nb hits local ext ≤ Z.max (cdiv num_tokens (m_block_size m) - len L) 0.
Proof.
  pose proof (mi_bs _ _ _ (msi_mgr _ _ _ H)) as Hbs.
  pose proof (cdiv_spec (local + ext) _ Hbs) as Hc.
  pose proof (cdiv_mono _ _ (m_block_size m) Hbs Hnt) as Hmono.
  pose proof (Z.mul_div_le (get_num_skipped_tokens m (local + ext)) _ Hbs) as Hd.
  unfold external_blocks. rewrite entered_length in *. destruct (0 <? _); [|lia]. nia.
Qed.

Lemma allocate_new_request_spec :
  N ≤ len fr →
  wp (_ ← (base_allocate_new_computed_blocks rid hits local ext);
      base_allocate_new_blocks rid num_tokens)
    (λ _ s', ∃ fr' fresh, fr1 = fresh ++ fr' ∧
       step s rest rid fr' (L ++ fresh) (len L) s' ∧
       len fr' = len fr - N ∧ len (L ++ fresh) = Z.max (cdiv num_tokens (m_block_size m)) (len L)) s.
Proof.
  intros HN. pose proof external_bounds as HE. set (E := external_blocks m nb hits local ext) in *.
  wp_step. eapply wp_mono; [by apply (base_allocate_computed_spec s fr); [done..|lia]|].
  fold E. intros _ s1 (Hs1 & Hnc1 & _).
  pose proof (st_upd _ _ _ _ _ _ _ Hs1) as Hu.
  destruct (tu_config _ _ _ _ _ Hu) as (_ & Ebs & _).
  assert (Eb1 : blocks_of (ms_mgr s1) rid = L ++ take (Z.to_nat E) fr1).
  { rewrite (tu_blocks _ _ _ _ _ Hu). by rewrite decide_True. }
  assert (En1 : num_cached (ms_mgr s1) rid = len L) by (unfold num_cached; by rewrite Hnc1).
  assert (Emiss : missing_blocks (ms_mgr s1) rid num_tokens
      = Z.max (cdiv num_tokens (m_block_size m) - len L) 0 - E).
  { unfold missing_blocks. rewrite Ebs, Eb1, length_app, length_take. lia. }
  eapply wp_mono; [apply (base_allocate_spec s1 (drop (Z.to_nat E) fr1) rest rid num_tokens); [apply Hs1|]|].
  { rewrite Emiss, length_drop. lia. }
  intros r s2 (-> & Hs2 & _). rewrite Emiss in *. set (M := Z.max _ 0 - E) in *.
  rewrite Eb1, En1, <- app_assoc in Hs2.
  exists (drop (Z.to_nat M) (drop (Z.to_nat E) fr1)),
    (take (Z.to_nat E) fr1 ++ take (Z.to_nat M) (drop (Z.to_nat E) fr1)).
  split_and!; [by rewrite <- app_assoc, !take_drop|by eapply step_trans|..].
  - rewrite !length_drop. lia.
  - rewrite !length_app, !length_take, length_drop. lia.
Qed.
End predict.

(** ** Skipping keeps the window *)

(** The null blocks of a table stand at its start. *)
Definition null_prefix (nb : loc) (L : list loc) : Prop :=
  ∀ j j', (j ≤ j')%nat → L !! j' = Some nb → L !! j = Some nb.

Section skip_window.
Context (nb : loc) (L : list loc) (i n : nat) (Hi : (i ≤ n)%nat) (Hn : (n ≤ length L)%nat).
Context (Hpre : null_prefix nb L) (Hstop : i = 0%nat ∨ L !! pred i = Some nb).
Abbreviation L' := (take i L ++ replicate (n - i) nb ++ drop n L).

Lemma skip_window_length : length L' = length L.
Proof. rewrite !length_app, length_take, length_replicate, length_drop. lia. Qed.

Lemma skip_window_lookup j b : L !! j = Some b → L' !! j = Some (if decide (j < n)%nat then nb else b).
Proof.
  intros Hj. pose proof (lookup_lt_Some _ _ _ Hj) as Hlt. destruct (decide (j < i)%nat).
  - rewrite lookup_app_l by (rewrite length_take; lia). rewrite lookup_take_lt by done.
    rewrite decide_True by lia. destruct Hstop as [|Hs]; [lia|]. apply (Hpre j (pred i)); [lia|done].
  - rewrite lookup_app_r by (rewrite length_take; lia). rewrite length_take, Nat.min_l by lia.
    destruct (decide (j < n)%nat).
    + rewrite lookup_app_l by (rewrite length_replicate; lia). apply lookup_replicate_2. lia.
    + rewrite lookup_app_r by (rewrite length_replicate; lia). rewrite length_replicate, lookup_drop, <- Hj.
      f_equal. lia.
Qed.

Lemma skip_window_prefix : null_prefix nb L'.
Proof.
  intros j j' Hle Hj'. pose proof (lookup_lt_Some _ _ _ Hj') as Hlt. rewrite skip_window_length in Hlt.
  destruct (lookup_lt_is_Some_2 L j ltac:(lia)) as [b Hb]. rewrite (skip_window_lookup j b Hb). case_decide; [done|].
  destruct (lookup_lt_is_Some_2 L j' Hlt) as [b' Hb']. rewrite (skip_window_lookup j' b' Hb') in Hj'.
  rewrite decide_False in Hj' by lia. injection Hj' as ->. rewrite (Hpre j j' Hle Hb') in Hb. congruence.
Qed.
End skip_window.

(** C34. For full attention, sliding windows and chunked local attention (not for
    Mamba, whose override steps back over draft tokens and may give back a further
    block, nor for cross attention): [remove_skipped_blocks] gives back exactly the
    blocks that the computation no longer reads. In a table whose null blocks stand
    at the start, a position becomes the null block when all tokens of its block are
    skipped, and keeps its block otherwise; the table keeps its length and its
    shape; other requests keep theirs; the call does not raise and keeps the
    invariant. *)
Theorem remove_skipped_keeps_window (s : mstate) (fr : list loc) (rest : loc → Z) (rid : string) (t : Z) :
  ms_inv s fr rest →
  match kind (m_spec (ms_mgr s)) with Mamba _ _ | CrossAttention => False | _ => True end →
  null_prefix (null_block (ms_pool s)) (blocks_of (ms_mgr s) rid) →
  wp (SingleType.remove_skipped_blocks rid t)
    (λ _ s', (∃ fr', ms_inv s' fr' rest ∧ len fr ≤ len fr') ∧
       length (blocks_of (ms_mgr s') rid) = length (blocks_of (ms_mgr s) rid) ∧
       null_prefix (null_block (ms_pool s)) (blocks_of (ms_mgr s') rid) ∧
       (∀ r, r ≠ rid → blocks_of (ms_mgr s') r = blocks_of (ms_mgr s) r) ∧
       ∀ j b, blocks_of (ms_mgr s) rid !! j = Some b →
         blocks_of (ms_mgr s') rid !! j = Some
           (if decide ((Z.of_nat j + 1) * m_block_size (ms_mgr s) ≤ SingleType.get_num_skipped_tokens (ms_mgr s) t)
            then null_block (ms_pool s) else b)) s.
Proof.
  intros H Hk Hpre. pose proof (mi_bs _ _ _ (msi_mgr _ _ _ H)) as Hbs.
  unfold SingleType.remove_skipped_blocks. wp_step.
  assert (W : wp (SingleType.base_remove_skipped_blocks rid t) (λ _ s', _) s) by (by apply (base_remove_skipped_spec s fr rest)).
  destruct (kind (m_spec (ms_mgr s))) eqn:Ek; try done;
    (eapply wp_mono; [exact W|]; clear W Ek Hk; intros ? s' (i & Hi & Hstop & Hst);
     set (L := blocks_of (ms_mgr s) rid) in *; set (n := num_skipped_blocks _ _ _) in *;
     assert (Hn : (n ≤ length L)%nat) by (unfold n, num_skipped_blocks; fold L; lia);
     pose proof (st_upd _ _ _ _ _ _ _ Hst) as Hu; pose proof (tu_blocks _ _ _ _ _ Hu rid) as Eb;
     rewrite decide_True in Eb by done; rewrite Eb; split_and!;
     [eexists; split; [apply Hst|unfold given_back; rewrite !length_app; lia]
     |by apply skip_window_length|by apply skip_window_prefix
     |intros r Hr; rewrite (tu_blocks _ _ _ _ _ Hu); by rewrite decide_False
     |intros j b Hj; rewrite (skip_window_lookup _ _ i n Hi Hn Hpre Hstop j b Hj); f_equal;
      apply decide_ext; unfold n, num_skipped_blocks; fold L; pose proof (lookup_lt_Some _ _ _ Hj);
      set (sk := SingleType.get_num_skipped_tokens _ _);
      pose proof (Z.mul_div_le sk _ Hbs); pose proof (Z.mul_succ_div_gt sk _ Hbs); split; intros; nia]).
Qed.

(** ** Witness *)

(** A manager of sliding-window layers in which the request ["r"] holds the
    blocks 1 and 2 of a pool of five. *)
Definition demo_manager : Manager :=
  mkManager 2 2 (mkSpec 2 0 (SlidingWindow 2 false)) true None [] {[ "r"%string := [1; 2]%nat ]} ∅ 0 0 false ∅ ∅ ∅.

Lemma demo_manager_blocks rid :
  blocks_of demo_manager rid = if decide (rid = "r"%string) then [1; 2]%nat else [].
Proof. unfold blocks_of. simpl. case_decide; [by subst|by rewrite lookup_singleton_ne]. Qed.

Lemma demo_manager_inv : ms_inv (mkMS demo_pool2 demo_manager) [3; 4]%nat (λ _, 0).
Proof.
  split; simpl; [apply demo_pool2_inv| |by intros E|done].
  assert (En : null_block demo_pool2 = 0%nat) by done. assert (Em : nblk demo_pool2 = 5%nat) by done.
  assert (Hin : ∀ rid j b, blocks_of demo_manager rid !! j = Some b → b = 1%nat ∨ b = 2%nat).
  { intros rid j b. rewrite demo_manager_blocks. case_decide; [|done].
    destruct j as [|[|j]]; simpl; [intros [= <-]; by left|intros [= <-]; by right|done]. }
  split; rewrite ?En, ?Em; [done|done|..].
  - intros rid b [j Hj]%list_elem_of_lookup. destruct (Hin _ _ _ Hj); lia.
  - intros rid. rewrite demo_manager_blocks. case_decide; [|constructor].
    change (NoDup [1; 2]%nat). repeat constructor; set_solver.
  - done.
  - intros b Hb Hn. unfold refs. simpl. rewrite map_fold_singleton.
    destruct b as [|[|[|[|[|b]]]]]; try done; lia.
  - intros rid j b Hj _ _. destruct (Hin _ _ _ Hj) as [-> | ->]; done.
  - done.
Qed.

Lemma remove_skipped_keeps_window_witness :
  wp (SingleType.remove_skipped_blocks "r" 4)
    (λ _ s', (∃ fr', ms_inv s' fr' (λ _, 0) ∧ len [3; 4]%nat ≤ len fr') ∧
       length (blocks_of (ms_mgr s') "r") = 2%nat ∧
       null_prefix 0%nat (blocks_of (ms_mgr s') "r") ∧
       (∀ r, r ≠ "r"%string → blocks_of (ms_mgr s') r = blocks_of demo_manager r) ∧
       ∀ j b, blocks_of demo_manager "r" !! j = Some b →
         blocks_of (ms_mgr s') "r" !! j = Some
           (if decide ((Z.of_nat j + 1) * 2 ≤ SingleType.get_num_skipped_tokens demo_manager 4)
            then 0%nat else b)) (mkMS demo_pool2 demo_manager).
Proof.
  apply (remove_skipped_keeps_window (mkMS demo_pool2 demo_manager) [3; 4]%nat (λ _, 0) "r" 4).
  - apply demo_manager_inv.
  - exact I.
  - intros j j' _. change (null_block demo_pool2) with 0%nat. rewrite demo_manager_blocks. simpl.
    destruct j' as [|[|j']]; done.
Defined.
