(* ===== verification/Coordinator.v ===== *)
(** * Coordinating the groups

    [vllm/v1/core/kv_cache_coordinator.py]: one pool, one manager per KV-cache
    group, and the search for a cache hit that suits all groups.  The three
    subclasses differ in that search and in [cache_blocks]; the constructor
    [c_kind] says which one an object is. *)
From S2P Require Import Prelude FreeQueue Request BlockHash BlockPool KVSpec CacheHit SingleType.

(** [SpecGroup]: the groups that share a specification. *)
Record SpecGroup := mkSG { sg_spec : KVCacheSpec; sg_group_ids : list nat; sg_use_eagle : bool }.

Inductive coordinator_kind :=
  | NoPrefixCache
  | Unitary (dcp_world_size pcp_world_size : Z)
  | Hybrid (attention_groups : list SpecGroup).

Record Coordinator := mkCoord {
  c_kind : coordinator_kind;
  c_config : KVCacheConfig;
  c_enable_caching : bool;
  c_scheduler_block_size : Z;
  c_hash_block_size : Z;
  c_eagle_group_ids : list nat;
  c_retention_interval : option Z;
  c_pool : BlockPool;
  c_managers : list Manager;            (* single_type_managers *)
}.

Definition set_pool_mgrs (p : BlockPool) (ms : list Manager) (c : Coordinator) : Coordinator :=
  mkCoord (c_kind c) (c_config c) (c_enable_caching c) (c_scheduler_block_size c)
    (c_hash_block_size c) (c_eagle_group_ids c) (c_retention_interval c) p ms.

(** A method of the [i]-th manager. *)
Definition on_mgr {A} (i : nat) (op : M mstate A) : M Coordinator A := λ c,
  match c_managers c !! i with
  | None => (Raise IndexError, c)
  | Some m =>
      let '(r, s) := op (mkMS (c_pool c) m) in
      (r, set_pool_mgrs (ms_pool s) (<[i := ms_mgr s]> (c_managers c)) c)
  end.

Definition on_cpool {A} (op : M BlockPool A) : M Coordinator A :=
  zoom c_pool (λ p c, set_pool_mgrs p (c_managers c) c) op.

Module Coord.

Definition num_managers (c : Coordinator) : nat := length (c_managers c).

Definition is_cross (c : Coordinator) (i : nat) : bool :=
  match c_managers c !! i with
  | Some m => match kind (m_spec m) with CrossAttention => true | _ => false end
  | None => false
  end.

(** *** Construction *)
Definition validate_retention (retention_interval : option Z) (scheduler_block_size : Z)
    (config : KVCacheConfig) : res () :=
  match retention_interval with
  | None => Ok tt
  | Some r =>
      if negb (existsb (λ g, is_sliding (kv_cache_spec g)) (kv_cache_groups config))
      then Raise ValueError
      else if (r <? 0) || negb (r mod scheduler_block_size =? 0) then Raise ValueError
      else Ok tt
  end.

(** The groups flagged for EAGLE; all groups when none is flagged. *)
Definition eagle_groups (use_eagle : bool) (config : KVCacheConfig) : list nat :=
  let flagged := filter (λ i, (is_eagle_group <$> kv_cache_groups config !! i) = Some true)
                        (seq 0 (length (kv_cache_groups config))) in
  match flagged with
  | [] => if use_eagle then seq 0 (length (kv_cache_groups config)) else []
  | _ => flagged
  end.

Fixpoint make_managers (i : nat) (groups : list KVCacheGroupSpec)
    (mk : KVCacheSpec → Z → res Manager) : res (list Manager) :=
  match groups with
  | [] => Ok []
  | g :: gs => m ← mk (kv_cache_spec g) (Z.of_nat i); ms ← make_managers (S i) gs mk; Ok (m :: ms)
  end.

(** [verify_and_split_kv_cache_groups]: the group of a specification, or a new
    group at the end; then full attention first (a stable sort). *)
Fixpoint add_to_groups (spec : KVCacheSpec) (i : nat) (use_eagle : bool) (groups : list SpecGroup)
    : list SpecGroup :=
  match groups with
  | [] => [mkSG spec [i] use_eagle]
  | g :: gs =>
      if decide (sg_spec g = spec)
      then mkSG (sg_spec g) (sg_group_ids g ++ [i]) (sg_use_eagle g || use_eagle) :: gs
      else g :: add_to_groups spec i use_eagle gs
  end.

Fixpoint split_groups (i : nat) (groups : list KVCacheGroupSpec) (eagle : list nat)
    (acc : list SpecGroup) : list SpecGroup :=
  match groups with
  | [] => acc
  | g :: gs =>
      split_groups (S i) gs eagle (add_to_groups (kv_cache_spec g) i (bool_decide (i ∈ eagle)) acc)
  end.

Definition full_first (groups : list SpecGroup) : list SpecGroup :=
  filter (λ g, is_full (sg_spec g) = true) groups ++ filter (λ g, is_full (sg_spec g) = false) groups.

(** [self.single_type_managers[gid].use_eagle = True] *)
Definition flag_eagle (ids : list nat) (ms : list Manager) : list Manager :=
  foldl (λ ms i, alter (set_use_eagle true) i ms) ms ids.

Definition init (config : KVCacheConfig) (max_model_len max_num_batched_tokens : Z)
    (use_eagle enable_caching enable_kv_cache_events use_int : bool)
    (dcp_world_size pcp_world_size scheduler_block_size hash_block_size : Z)
    (retention_interval : option Z) : res Coordinator :=
  let groups := kv_cache_groups config in
  let n := length groups in
  let eagle := eagle_groups use_eagle config in
  if negb (scheduler_block_size mod hash_block_size =? 0) ||
     negb (forallb (λ g, scheduler_block_size mod block_size (kv_cache_spec g) =? 0) groups)
  then Raise AssertionError
  else
    pool ← Pool.init (num_blocks config) enable_caching hash_block_size enable_kv_cache_events use_int;
    ms ← make_managers 0 groups (λ spec i,
      SingleType.get_manager_for_kv_cache_spec spec max_num_batched_tokens max_model_len
        (null_block pool) enable_caching i dcp_world_size pcp_world_size scheduler_block_size);
    _ ← validate_retention retention_interval scheduler_block_size config;
    let mk kd ms := mkCoord kd config enable_caching scheduler_block_size hash_block_size eagle
                      retention_interval pool ms in
    if negb enable_caching then Ok (mk NoPrefixCache ms)
    else
      match groups with
      | [g] =>
          let bs := block_size (kv_cache_spec g) in
          let bs := if 1 <? dcp_world_size then bs * dcp_world_size else bs in
          let bs := if 1 <? pcp_world_size then bs * pcp_world_size else bs in
          if hash_block_size =? bs
          then Ok (mk (Unitary dcp_world_size pcp_world_size)
                     (alter (set_use_eagle (bool_decide (0%nat ∈ eagle))) 0%nat ms))
          else Raise AssertionError
      | _ =>
          if negb (forallb (λ g, block_size (kv_cache_spec g) mod hash_block_size =? 0) groups)
             || negb (dcp_world_size =? 1) || negb (pcp_world_size =? 1)
          then Raise AssertionError
          else
            let ags := split_groups 0 groups eagle [] in
            if (2 <=? length ags)%nat
            then let ags := full_first ags in
                 Ok (mk (Hybrid ags)
                       (flag_eagle (concat (sg_group_ids <$> filter (λ g, sg_use_eagle g = true) ags)) ms))
            else Raise AssertionError
      end.

(** *** Operations on all managers *)
Definition seq_mgrs (c : Coordinator) : list nat := seq 0 (num_managers c).

(** [new_computed_blocks[i]] of a tuple *)
Definition group_blocks (new_computed_blocks : list (list loc)) (i : nat) : M Coordinator (list loc) :=
  of_opt IndexError (new_computed_blocks !! i).

Fixpoint sum_over (idxs : list nat) (f : nat → M Coordinator Z) : M Coordinator Z :=
  match idxs with
  | [] => mret 0
  | i :: idxs' => a ← f i; b ← sum_over idxs' f; mret (a + b)
  end.

Definition get_num_blocks_to_allocate (rid : string) (num_tokens : Z)
    (new_computed_blocks : list (list loc))
    (num_encoder_tokens total_computed_tokens num_tokens_main_model : Z) (apply_admission_cap : bool)
    : M Coordinator Z :=
  c ← get;
  sum_over (seq_mgrs c) (λ i,
    if is_cross c i
    then on_mgr i (SingleType.get_num_blocks_to_allocate rid num_encoder_tokens [] 0 num_encoder_tokens
                     apply_admission_cap)
    else blks ← group_blocks new_computed_blocks i;
         on_mgr i (SingleType.get_num_blocks_to_allocate rid num_tokens blks total_computed_tokens
                     num_tokens_main_model apply_admission_cap)).

Definition allocate_new_computed_blocks (rid : string) (new_computed_blocks : list (list loc))
    (num_local_computed_tokens num_external_computed_tokens : Z) : M Coordinator () :=
  c ← get;
  for_each (seq_mgrs c) (λ i,
    blks ← group_blocks new_computed_blocks i;
    on_mgr i (SingleType.allocate_new_computed_blocks rid blks num_local_computed_tokens
                num_external_computed_tokens)).

Definition allocate_new_blocks (rid : string) (num_tokens num_tokens_main_model num_encoder_tokens : Z)
    : M Coordinator (list (list loc)) :=
  c ← get;
  mapM_ (λ i, on_mgr i (SingleType.allocate_new_blocks rid
                          (if is_cross c i then num_encoder_tokens else num_tokens)
                          num_tokens_main_model)) (seq_mgrs c).

(** Caching the blocks of one manager; the request is threaded through. *)
Fixpoint cache_over (idxs : list nat) (tokens : Manager → Z) (retention_interval : option Z)
    (request : Request) : M Coordinator Request :=
  match idxs with
  | [] => mret request
  | i :: idxs' =>
      c ← get;
      m ← of_opt IndexError (c_managers c !! i);
      request' ← on_mgr i (SingleType.cache_blocks request (tokens m) retention_interval);
      cache_over idxs' tokens retention_interval request'
  end.

(** The number of tokens a manager of the hybrid coordinator caches: whole
    segments, and the lookahead block of EAGLE. *)
Definition hybrid_tokens_to_cache (scheduler_block_size num_computed_tokens : Z) (m : Manager) : Z :=
  let aligned := num_computed_tokens / scheduler_block_size * scheduler_block_size in
  if m_use_eagle m && (0 <? aligned)
  then Z.min num_computed_tokens (aligned + m_block_size m)
  else aligned.

Definition cache_blocks (request : Request) (num_computed_tokens : Z) : M Coordinator Request :=
  c ← get;
  cache_over (seq_mgrs c)
    (match c_kind c with
     | Hybrid _ => hybrid_tokens_to_cache (c_scheduler_block_size c) num_computed_tokens
     | _ => λ _, num_computed_tokens
     end)
    (c_retention_interval c) request.

Definition free (rid : string) : M Coordinator () :=
  c ← get;
  for_each (seq_mgrs c) (λ i, on_mgr i (SingleType.free rid)).

Definition get_num_common_prefix_blocks (rid : string) : M Coordinator (list Z) :=
  c ← get;
  match c_kind c with
  | NoPrefixCache => mret (replicate (num_managers c) 0)
  | _ => mapM_ (λ i, on_mgr i (SingleType.get_num_common_prefix_blocks rid)) (seq_mgrs c)
  end.

Definition remove_skipped_blocks (rid : string) (total_computed_tokens : Z) : M Coordinator () :=
  c ← get;
  for_each (seq_mgrs c) (λ i, on_mgr i (SingleType.remove_skipped_blocks rid total_computed_tokens)).

(** [manager.req_to_blocks.get(request_id) or []]: no entry is created. *)
Definition get_blocks (c : Coordinator) (rid : string) : list (list loc) :=
  (λ m, blocks_of m rid) <$> c_managers c.

Definition new_step_starts : M Coordinator () :=
  c ← get;
  for_each (seq_mgrs c) (λ i, on_mgr i SingleType.new_step_starts).

(** *** The search for a hit *)
Definition unitary_find (cache : gmap bytes cache_entry) (nb : loc) (spec : KVCacheSpec)
    (drop : bool) (dcp pcp : Z) (block_hashes : list bytes) (max_cache_hit_length : Z)
    : res (list (list loc) * Z) :=
  let bs := block_size spec in
  let bs := if 1 <? dcp then bs * dcp else bs in
  let bs := if 1 <? pcp then bs * pcp else bs in
  hit ← find_longest_cache_hit cache nb block_hashes max_cache_hit_length [0] spec drop bs dcp pcp;
  c0 ← first_list hit;
  Ok (hit, len c0 * bs).

Section hybrid.
Context (cache : gmap bytes cache_entry) (nb : loc) (hash_block_size scheduler_block_size : Z).
Context (attention_groups : list SpecGroup) (block_hashes : list bytes) (max_cache_hit_length : Z).

(** [hit_blocks_by_group]; [None] until the group was looked up. *)
Abbreviation by_group := (list (option (list loc))).

(** [for group_id, blocks in zip(group_ids, hit_blocks)] *)
Fixpoint put_groups (ids : list nat) (blocks : list (list loc)) (hits : by_group) : by_group :=
  match ids, blocks with
  | i :: ids', b :: blocks' => put_groups ids' blocks' (<[i := Some b]> hits)
  | _, _ => hits
  end.

Record hybrid_state := mkHS { hs_curr : Z; hs_hits : by_group; hs_verified : gset nat }.

(** The body of the [for] loop over the attention groups. *)
Definition hybrid_group (idx : nat) (g : SpecGroup) (s : hybrid_state) : res hybrid_state :=
  let spec := sg_spec g in
  let bs := block_size spec in
  first_id ← (match sg_group_ids g with [] => Raise IndexError | i :: _ => Ok i end);
  cached ← (match hs_hits s !! first_id with None => Raise IndexError | Some o => Ok o end);
  if is_full spec && (match cached with Some _ => true | None => false end)
  then Ok (mkHS (hs_curr s / bs * bs) (hs_hits s) (hs_verified s))
  else
    let drop := sg_use_eagle g && bool_decide (idx ∉ hs_verified s) in
    let max_length := if drop then Z.min (hs_curr s + bs) max_cache_hit_length else hs_curr s in
    hit ← find_longest_cache_hit cache nb (group_hashes block_hashes hash_block_size bs) max_length
            (Z.of_nat <$> sg_group_ids g) spec drop scheduler_block_size 1 1;
    c0 ← first_list hit;
    let new_len := len c0 * bs in
    let verified := if drop then {[ idx ]} ∪ hs_verified s
                    else if new_len <? hs_curr s then ∅ else hs_verified s in
    Ok (mkHS new_len (put_groups (sg_group_ids g) hit (hs_hits s)) verified).

Fixpoint hybrid_pass (idx : nat) (groups : list SpecGroup) (s : hybrid_state) : res hybrid_state :=
  match groups with
  | [] => Ok s
  | g :: gs => s' ← hybrid_group idx g s; hybrid_pass (S idx) gs s'
  end.

Definition is_simple_hybrid : bool :=
  (length attention_groups =? 2)%nat &&
  (match attention_groups with g :: _ => is_full (sg_spec g) | [] => false end).

(** The [while True] loop.  A turn that does not end the loop shortens
    [hit_length], a natural number, so [hit_length + 1] turns are enough. *)
Fixpoint hybrid_loop (fuel : nat) (hit_length : Z) (hits : by_group) (verified : gset nat)
    : res (Z * by_group) :=
  match fuel with
  | O => Raise OutOfFuel
  | S fuel' =>
      s ← hybrid_pass 0 attention_groups (mkHS hit_length hits verified);
      if hit_length <=? hs_curr s then Ok (hit_length, hs_hits s)
      else if is_simple_hybrid then Ok (hs_curr s, hs_hits s)
      else hybrid_loop fuel' (hs_curr s) (hs_hits s) (hs_verified s)
  end.

(** [del blks[num_blocks:]] for the groups of full attention. *)
Definition truncate_full (hit_length : Z) (hits : by_group) : by_group :=
  match attention_groups with
  | g :: _ =>
      if is_full (sg_spec g)
      then foldl (λ hs i, alter (fmap (take (Z.to_nat (hit_length / block_size (sg_spec g))))) i hs)
                 hits (sg_group_ids g)
      else hits
  | [] => hits
  end.

Definition hybrid_find (num_groups : nat) : res (list (list loc) * Z) :=
  '(hit_length, hits) ←
    hybrid_loop (S (Z.to_nat max_cache_hit_length)) max_cache_hit_length
      (replicate num_groups None) ∅;
  Ok (default [] <$> truncate_full hit_length hits, hit_length).
End hybrid.

Definition find_longest_cache_hit (c : Coordinator) (block_hashes : list bytes)
    (max_cache_hit_length : Z) : res (list (list loc) * Z) :=
  let cache := cached_block_hash_to_block (c_pool c) in
  let nb := null_block (c_pool c) in
  match c_kind c with
  | NoPrefixCache => Ok (replicate (num_managers c) [], 0)
  | Unitary dcp pcp =>
      match kv_cache_groups (c_config c) with
      | g :: _ => unitary_find cache nb (kv_cache_spec g) (bool_decide (0%nat ∈ c_eagle_group_ids c)) dcp pcp
                    block_hashes max_cache_hit_length
      | [] => Raise IndexError
      end
  | Hybrid ags =>
      hybrid_find cache nb (c_hash_block_size c) (c_scheduler_block_size c) ags block_hashes
        max_cache_hit_length (length (kv_cache_groups (c_config c)))
  end.

End Coord.

(** ** The invariant of the system

    All managers share the pool: the reference count of a block is the number of
    times the lists of all managers mention it. *)
Definition total_refs (ms : list Manager) (b : loc) : Z :=
  foldr (λ m acc, refs (req_to_blocks m) b + acc) 0 ms.

Lemma total_refs_insert ms i m m' b :
  ms !! i = Some m →
  total_refs (<[i := m']> ms) b = total_refs ms b - refs (req_to_blocks m) b + refs (req_to_blocks m') b.
Proof.
  revert i. induction ms as [|m0 ms IH]; intros [|i] Hi; simpl in *; simplify_eq; [lia|].
  rewrite (IH i Hi). lia.
Qed.

Lemma total_refs_two ms i j m m' b :
  ms !! i = Some m → ms !! j = Some m' → i ≠ j →
  refs (req_to_blocks m) b + refs (req_to_blocks m') b ≤ total_refs ms b.
Proof.
  assert (Hone : ∀ l k x, l !! k = Some x → refs (req_to_blocks x) b ≤ total_refs l b).
  { induction l as [|y l IH]; intros [|k] x Hk; simpl in *; simplify_eq.
    - assert (0 ≤ total_refs l b); [|lia]. clear. induction l as [|z l IH]; simpl; [done|].
      pose proof (refs_nonneg (req_to_blocks z) b). lia.
    - specialize (IH k x Hk). pose proof (refs_nonneg (req_to_blocks y) b). lia. }
  revert i j. induction ms as [|m0 ms IH]; intros [|i] [|j] Hi Hj Hne; simpl in *; simplify_eq.
  - specialize (Hone _ _ _ Hj). lia.
  - specialize (Hone _ _ _ Hi). lia.
  - specialize (IH i j Hi Hj ltac:(lia)). pose proof (refs_nonneg (req_to_blocks m0) b). lia.
Qed.

Lemma total_refs_one ms i m b : ms !! i = Some m → refs (req_to_blocks m) b ≤ total_refs ms b.
Proof.
  revert i. induction ms as [|y l IH]; intros [|k] Hk; simpl in *; simplify_eq.
  - assert (0 ≤ total_refs l b); [|lia]. clear. induction l as [|z l IH]; simpl; [done|].
    pose proof (refs_nonneg (req_to_blocks z) b). lia.
  - specialize (IH k Hk). pose proof (refs_nonneg (req_to_blocks y) b). lia.
Qed.

(** The references the other managers hold. *)
Definition rest_of (ms : list Manager) (m : Manager) (b : loc) : Z :=
  total_refs ms b - refs (req_to_blocks m) b.

Record sys_inv (c : Coordinator) (fr : list loc) : Prop := {
  si_pool : pool_inv (c_pool c) fr;
  si_stray : no_stray (c_pool c);
  si_mgr i m : c_managers c !! i = Some m →
    mgr_inv (c_pool c) m (rest_of (c_managers c) m) ∧ m_enable_caching m = enable_caching (c_pool c);
}.

Lemma sys_ms_inv c fr i m :
  sys_inv c fr → c_managers c !! i = Some m →
  ms_inv (mkMS (c_pool c) m) fr (rest_of (c_managers c) m).
Proof. intros [Hp Hs Hm] Hi. destruct (Hm i m Hi). by split. Qed.

(** The constructor's attributes of the coordinator *)
Definition same_coord (c c' : Coordinator) : Prop :=
  c_kind c' = c_kind c ∧ c_config c' = c_config c ∧ c_enable_caching c' = c_enable_caching c ∧
  c_scheduler_block_size c' = c_scheduler_block_size c ∧ c_hash_block_size c' = c_hash_block_size c ∧
  c_eagle_group_ids c' = c_eagle_group_ids c ∧ c_retention_interval c' = c_retention_interval c ∧
  pool_frame (c_pool c) (c_pool c') ∧ Forall2 same_config (c_managers c) (c_managers c').

#[export] Instance same_coord_preorder : PreOrder same_coord.
Proof.
  split.
  - intros c. unfold same_coord. split_and!; try done.
  - intros c1 c2 c3 (H1&H2&H3&H4&H5&H6&H7&H8&H9) (G1&G2&G3&G4&G5&G6&G7&G8&G9).
    unfold same_coord. split_and!; try congruence; [by etrans|]. by etrans.
Qed.

(** One step of a manager is a step of the system. *)
Lemma sys_step c fr i m rid fr' l' nc s' :
  sys_inv c fr → c_managers c !! i = Some m →
  step (mkMS (c_pool c) m) (rest_of (c_managers c) m) rid fr' l' nc s' →
  let c' := set_pool_mgrs (ms_pool s') (<[i := ms_mgr s']> (c_managers c)) c in
  sys_inv c' fr' ∧ same_coord c c'.
Proof.
  intros [Hp Hs Hm] Hi [[Hp' Hm' Hs' Hc'] Hfr Hu] c'. simpl in *.
  set (ms := c_managers c) in *. set (m' := ms_mgr s') in *. set (p' := ms_pool s') in *.
  pose proof (of_pool _ _ _ Hfr) as Hf. pose proof (tu_config _ _ _ _ _ Hu) as Hcfg.
  assert (Elen : nblk p' = nblk (c_pool c)) by (unfold nblk; by rewrite (pf_num _ _ Hf)).
  assert (Hrest : ∀ b, rest_of (<[i:=m']> ms) m' b = rest_of ms m b).
  { intros b. unfold rest_of. rewrite (total_refs_insert _ _ _ _ _ Hi). lia. }
  split.
  - split; simpl; [done|done|]. intros j mj Hj. destruct (decide (j = i)) as [->|Hne].
    + rewrite list_lookup_insert_eq in Hj by (by eapply lookup_lt_Some). apply (inj Some) in Hj as <-.
      split; [|done]. destruct Hm' as [G1 G2 G3 G4 G5 G6 G7 G8]. split; try done.
      * intros b. rewrite Hrest. apply G5.
      * intros b Hb Hn. rewrite Hrest. by apply G6.
    + rewrite list_lookup_insert_ne in Hj by done. destruct (Hm j mj Hj) as [[G1 G2 G3 G4 G5 G6 G7 G8] Gc].
      split; [|rewrite (pf_caching _ _ Hf); done].
      assert (Hrj : ∀ b, rest_of (<[i:=m']> ms) mj b = rest_of ms mj b - refs (req_to_blocks m) b + refs (req_to_blocks m') b).
      { intros b. unfold rest_of. rewrite (total_refs_insert _ _ _ _ _ Hi). lia. }
      split; rewrite ?Elen, ?(pf_null _ _ Hf); try done.
      * intros b. pose proof (total_refs_two (<[i:=m']> ms) i j m' mj b) as Ht.
        rewrite list_lookup_insert_eq, list_lookup_insert_ne in Ht by (done || by eapply lookup_lt_Some).
        specialize (Ht eq_refl Hj ltac:(done)). pose proof (refs_nonneg (req_to_blocks m') b). unfold rest_of. lia.
      * intros b Hb Hn. rewrite Hrj.
        pose proof (mi_refs _ _ _ Hm' b) as E'. rewrite Elen, (pf_null _ _ Hf) in E'. rewrite E' by done.
        unfold rest_of. lia.
      * intros r k b Hk Hn Hle. apply (of_private _ _ _ Hfr); [|by eapply G7].
        assert (occ b (blocks_of mj r) ≤ refs (req_to_blocks mj) b).
        { unfold blocks_of in *. destruct (req_to_blocks mj !! r) eqn:E; simpl in *; [by eapply refs_lookup|].
          rewrite occ_nil. apply refs_nonneg. }
        assert (0 < occ b (blocks_of mj r)) by (apply occ_pos; by eapply list_elem_of_lookup_2).
        pose proof (total_refs_two ms i j m mj b Hi Hj ltac:(done)). unfold rest_of. lia.
  - unfold same_coord, c'. simpl. split_and!; try done. fold ms.
    apply Forall2_same_length_lookup_2; [by rewrite length_insert|].
    intros k x y Hx Hy. destruct (decide (k = i)) as [->|Hne].
    + rewrite list_lookup_insert_eq in Hy by (by eapply lookup_lt_Some).
      apply (inj Some) in Hy as <-. by simplify_eq.
    + rewrite list_lookup_insert_ne in Hy by done. by simplify_eq.
Qed.

Lemma wp_on_mgr {A} i (op : M mstate A) Q c m :
  c_managers c !! i = Some m →
  wp op (λ a s', Q a (set_pool_mgrs (ms_pool s') (<[i := ms_mgr s']> (c_managers c)) c)) (mkMS (c_pool c) m) →
  wp (on_mgr i op) Q c.
Proof.
  intros Hi. unfold wp, on_mgr. rewrite Hi. destruct (op _) as [[a|e] s']; done.
Qed.

(** The kinds that allocate and cache like [SingleTypeKVCacheManager]: all but
    Mamba and cross-attention. *)
Definition plain (m : Manager) : Prop :=
  match kind (m_spec m) with Mamba _ _ | CrossAttention => False | _ => True end.

Lemma plain_config m m' : same_config m m' → plain m → plain m'.
Proof. intros (_ & _ & E & _). unfold plain. by rewrite E. Qed.

Definition all_plain (c : Coordinator) : Prop := Forall plain (c_managers c).

Lemma same_coord_length c c' : same_coord c c' → length (c_managers c') = length (c_managers c).
Proof. intros (_&_&_&_&_&_&_&_&H). by apply Forall2_length in H. Qed.

Lemma same_coord_mgr c c' i m' :
  same_coord c c' → c_managers c' !! i = Some m' → ∃ m, c_managers c !! i = Some m ∧ same_config m m'.
Proof.
  intros (_&_&_&_&_&_&_&_&H) Hi. destruct (Forall2_lookup_r _ _ _ _ _ H Hi) as (m & ? & ?). eauto.
Qed.

Lemma same_coord_plain c c' : same_coord c c' → all_plain c → all_plain c'.
Proof.
  intros H Hp. apply Forall_lookup. intros i m' Hi. destruct (same_coord_mgr _ _ _ _ H Hi) as (m & Hm & Hc).
  eapply plain_config; [done|]. eapply Forall_lookup in Hp; done.
Qed.

(** *** Loops over the managers

    A loop visits every manager once and in order: managers below [k] have been
    visited.  [P i m m'] says what the visit of the [i]-th manager [m] makes of
    it, [R] accounts for the free queue. *)
Section manager_loop.
Context (c : Coordinator) (fr : list loc) (Hc : sys_inv c fr).

Record visited (P : nat → Manager → Manager → Prop) (R : list loc → Prop) (k : nat) (c' : Coordinator)
    : Prop := {
  vi_coord : same_coord c c';
  vi_sys : ∃ fr', sys_inv c' fr' ∧ R fr';
  vi_done i m m' : (i < k)%nat → c_managers c !! i = Some m → c_managers c' !! i = Some m' → P i m m';
  vi_todo i : (k ≤ i)%nat → c_managers c' !! i = c_managers c !! i;
}.

Lemma visited_0 P (R : list loc → Prop) : R fr → visited P R 0 c.
Proof. intros HR. split; [done|by exists fr|lia|done]. Qed.

Lemma visit_step (P P' : nat → Manager → Manager → Prop) (R R' : list loc → Prop) k c1 m s' fr1 fr' rid l' nc :
  visited P R k c1 → c_managers c !! k = Some m → sys_inv c1 fr1 →
  step (mkMS (c_pool c1) m) (rest_of (c_managers c1) m) rid fr' l' nc s' →
  (∀ i mi mi', (i < k)%nat → P i mi mi' → P' i mi mi') → P' k m (ms_mgr s') → R' fr' →
  visited P' R' (S k) (set_pool_mgrs (ms_pool s') (<[k := ms_mgr s']> (c_managers c1)) c1).
Proof.
  intros [V1 V2 V3 V4] Hk Hs1 Hst HPP HP HR. assert (Hk1 : c_managers c1 !! k = Some m) by (by rewrite V4).
  destruct (sys_step c1 fr1 k m rid fr' l' nc s' Hs1 Hk1 Hst) as [Hs2 Hco]. split.
  - by etrans.
  - by exists fr'.
  - intros i mi mi' Hi Hmi. simpl. destruct (decide (i = k)) as [->|Hne].
    + rewrite list_lookup_insert_eq by (by eapply lookup_lt_Some). intros [= <-]. by simplify_eq.
    + rewrite list_lookup_insert_ne by done. intros Hmi'. apply HPP; [lia|]. eapply V3; [lia|done|done].
  - intros i Hi. simpl. rewrite list_lookup_insert_ne by lia. apply V4. lia.
Qed.
End manager_loop.

Lemma wp_for_managers (body : nat → M Coordinator ()) n (I : nat → Coordinator → Prop) c :
  I 0%nat c → (∀ k c', (k < n)%nat → I k c' → wp (body k) (λ _ c'', I (S k) c'') c') →
  wp (for_each (seq 0 n) body) (λ _ c', I n c') c.
Proof.
  intros H0 Hstep. eapply wp_mono.
  - apply (wp_for_each (λ pre c', I (length pre) c')); [done|].
    intros pre x suf c' E HI. assert (Hlt : (length pre < n)%nat).
    { apply (f_equal length) in E. rewrite length_seq, length_app in E. simpl in E. lia. }
    assert (x = length pre) as ->.
    { apply (f_equal (λ l, l !! length pre)) in E. rewrite lookup_seq_lt, lookup_app_r, Nat.sub_diag in E by lia.
      simpl in E. congruence. }
    rewrite length_app. simpl. rewrite Nat.add_1_r. by apply Hstep.
  - intros ? c'. simpl. by rewrite length_seq.
Qed.

Lemma wp_mapM_managers {A} (body : nat → M Coordinator A) n (I : nat → list A → Coordinator → Prop) c :
  I 0%nat [] c →
  (∀ k l c', (k < n)%nat → I k l c' → wp (body k) (λ a c'', I (S k) (l ++ [a]) c'') c') →
  wp (mapM_ body (seq 0 n)) (λ l c', I n l c') c.
Proof.
  intros H0 Hstep.
  cut (∀ k j l c', (j + k = n)%nat → I j l c' → wp (mapM_ body (seq j k)) (λ l' c'', I n (l ++ l') c'') c').
  { intros H. by apply (H n 0%nat []). }
  induction k as [|k IH]; intros j l c' Hj HI; cbn [seq mapM_].
  - wp_step. rewrite app_nil_r. by replace n with j by lia.
  - wp_step. eapply wp_mono; [apply (Hstep j l); [lia|done]|]. intros a c'' HI'. wp_step.
    eapply wp_mono; [apply (IH (S j)); [lia|exact HI']|]. intros l' c3 Hl. wp_step. rewrite (cons_middle a l l'), (assoc_L app). exact Hl.
Qed.

(** A sum over the managers that leaves the state as it is. *)
Lemma sum_over_list (f : nat → M Coordinator Z) (g : list Z) c :
  (∀ i a, g !! i = Some a → wp (f i) (λ a' c', a' = a ∧ c' = c) c) →
  wp (Coord.sum_over (seq 0 (length g)) f) (λ a c', a = foldr Z.add 0 g ∧ c' = c) c.
Proof.
  intros Hf. cut (∀ l k, drop k g = l → wp (Coord.sum_over (seq k (length l)) f)
    (λ a c', a = foldr Z.add 0 l ∧ c' = c) c); [intros H; by apply H|].
  induction l as [|x l IH]; intros k E; cbn [length seq Coord.sum_over]; [by wp_step|].
  assert (Hk : g !! k = Some x) by (rewrite <- (Nat.add_0_r k), <- lookup_drop, E; done).
  wp_step. eapply wp_mono; [by apply Hf|]. intros a c1 [-> ->]. wp_step.
  eapply wp_mono; [apply (IH (S k)); by rewrite <- Nat.add_1_r, <- drop_drop, E|].
  intros b c2 [-> ->]. by wp_step.
Qed.

Section coord_ops.
Context (c : Coordinator) (fr : list loc) (Hc : sys_inv c fr) (Hplain : all_plain c).

Lemma visited_next P R k c1 :
  visited c P R k c1 → (k < Coord.num_managers c)%nat →
  ∃ m fr1, c_managers c !! k = Some m ∧ c_managers c1 !! k = Some m ∧ sys_inv c1 fr1 ∧ R fr1 ∧ plain m ∧
    ms_inv (mkMS (c_pool c1) m) fr1 (rest_of (c_managers c1) m).
Proof.
  intros [_ (fr1 & Hs & HR) _ V4] Hk. destruct (lookup_lt_is_Some_2 (c_managers c) k Hk) as [m Hm].
  assert (Hm1 : c_managers c1 !! k = Some m) by (by rewrite V4).
  exists m, fr1. split_and!; try done; [by eapply Forall_lookup in Hplain|by eapply sys_ms_inv].
Qed.

(** [remove_skipped_blocks]: the blocks before the window are given back. *)
Definition skipped_from (rid : string) (t : Z) (nb : loc) (m m' : Manager) : Prop :=
  ∃ i n, n = num_skipped_blocks m rid t ∧ (i ≤ n)%nat ∧
    (∀ r, r ≠ rid → blocks_of m' r = blocks_of m r) ∧ (∀ r, num_cached m' r = num_cached m r) ∧
    blocks_of m' rid = take i (blocks_of m rid) ++ replicate (n - i) nb ++ drop n (blocks_of m rid).

Lemma remove_skipped_all rid t :
  wp (Coord.remove_skipped_blocks rid t) (λ _ c', ∃ fr',
    visited c (λ _, skipped_from rid t (null_block (c_pool c))) (λ f, f = fr') (Coord.num_managers c) c' ∧
    len fr ≤ len fr') c.
Proof.
  unfold Coord.remove_skipped_blocks. wp_step. unfold Coord.seq_mgrs.
  eapply wp_mono.
  - apply (wp_for_managers _ _ (visited c (λ _, skipped_from rid t (null_block (c_pool c))) (λ f, len fr ≤ len f))).
    { by apply (visited_0 c fr). }
    intros k c1 Hk V. destruct (visited_next _ _ _ _ V Hk) as (m & fr1 & Hm & Hm1 & Hs1 & HR & Hp & Hms).
    eapply wp_on_mgr; [done|]. unfold SingleType.remove_skipped_blocks. wp_step. simpl.
    pose proof (base_remove_skipped_spec _ _ _ rid t Hms) as W.
    assert (E : null_block (c_pool c1) = null_block (c_pool c)) by apply (pf_null _ _ ltac:(apply V)).
    unfold plain in Hp. destruct (kind (m_spec m)) eqn:Ek; try done;
      (eapply wp_mono; [exact W|]; intros ? s' (i & Hi & _ & Hst); simpl in *;
       eapply visit_step; [done|done|done|exact Hst|done| |];
       [rewrite E in Hst; pose proof (st_upd _ _ _ _ _ _ _ Hst) as Hu; simpl in Hu;
        exists i, (num_skipped_blocks m rid t); split_and!; [done|done|..];
        [intros r Hr; rewrite (tu_blocks _ _ _ _ _ Hu); by rewrite decide_False
        |intros r; rewrite (tu_cached _ _ _ _ _ Hu); case_decide; by subst
        |rewrite (tu_blocks _ _ _ _ _ Hu); by rewrite decide_True]
       |unfold given_back; rewrite !length_app; lia]).
  - intros ? c' [V1 (fr' & Hs & HR) V3 V4]. exists fr'. split; [|done]. split; try done. by exists fr'.
Qed.

(** [free]: the entry of the request is gone from every manager. *)
Definition forgets (rid : string) (m m' : Manager) : Prop :=
  ∀ r, blocks_of m' r = (if decide (r = rid) then [] else blocks_of m r) ∧
       num_cached m' r = (if decide (r = rid) then 0 else num_cached m r).

Lemma free_all rid :
  wp (Coord.free rid) (λ _ c', visited c (λ _, forgets rid) (λ _, True) (Coord.num_managers c) c') c.
Proof.
  unfold Coord.free. wp_step. unfold Coord.seq_mgrs.
  apply (wp_for_managers _ _ (visited c (λ _, forgets rid) (λ _, True))); [by apply (visited_0 c fr)|].
  intros k c1 Hk V. destruct (visited_next _ _ _ _ V Hk) as (m & fr1 & Hm & Hm1 & Hs1 & _ & Hp & Hms).
  eapply wp_on_mgr; [done|]. unfold SingleType.free. wp_step. simpl.
  assert (Hfree : ∀ fr' s', step (mkMS (c_pool c1) m) (rest_of (c_managers c1) m) rid fr' [] 0 s' →
    visited c (λ _, forgets rid) (λ _, True) (S k)
      (set_pool_mgrs (ms_pool s') (<[k:=ms_mgr s']> (c_managers c1)) c1)).
  { intros fr' s' Hst. eapply visit_step; [done|done|done|exact Hst|done| |done].
    intros r. pose proof (st_upd _ _ _ _ _ _ _ Hst) as Hu. simpl in Hu.
    by rewrite (tu_blocks _ _ _ _ _ Hu), (tu_cached _ _ _ _ _ Hu). }
  unfold plain in Hp.
  destruct (kind (m_spec m)) eqn:Ek; try done;
    (eapply wp_mono; [first [by eapply sliding_free_spec|by eapply base_free_spec]|]; intros ? s' Hst; exact (Hfree _ _ Hst)).
Qed.

(** *** The number of blocks of a request that has no new hits *)
Definition continuing (rid : string) (t : Z) (m : Manager) : Prop :=
  SingleType.get_num_skipped_tokens m t / m_block_size m ≤ len (blocks_of m rid).

Definition all_missing (ms : list Manager) (rid : string) (num_tokens : Z) : Z :=
  foldr (λ m acc, missing_blocks m rid num_tokens + acc) 0 ms.

Lemma missing_nonneg ms rid n : 0 ≤ all_missing ms rid n.
Proof. induction ms as [|m ms IH]; simpl; [done|]. unfold missing_blocks. lia. Qed.

Lemma base_count_continuing s rid n t cap :
  ∃ a, SingleType.base_num_blocks_to_allocate s rid n [] t cap = Ok a ∧
    (cap = false → continuing rid t (ms_mgr s) → a = missing_blocks (ms_mgr s) rid n).
Proof.
  unfold continuing, SingleType.base_num_blocks_to_allocate, missing_blocks, blocks_of.
  set (q := _ / _). set (l := default [] _). set (R := cdiv n _).
  assert (Ecap : cap = false → match m_max_admission (ms_mgr s) with
                 | Some v => if cap then Z.min R v else R | None => R end = R)
    by (intros ->; by destruct (m_max_admission _)).
  set (R' := match m_max_admission _ with Some _ => _ | None => _ end) in *.
  destruct (num_cached_block (ms_mgr s) !! rid); simpl; eexists; (split; [done|]); intros Hcap Hle;
    rewrite (Ecap Hcap); [lia|].
  unfold SingleType.get_num_evictable_blocks, py_from. rewrite drop_nil. simpl. fold q. lia.
Qed.

(** The count of the coordinator is the sum of the counts of its managers. *)
Lemma count_plain rid n enc t main cap hits (g : list Z) :
  length hits = Coord.num_managers c → length g = Coord.num_managers c →
  (∀ i m h, c_managers c !! i = Some m → hits !! i = Some h → ∃ a, g !! i = Some a ∧
     SingleType.base_num_blocks_to_allocate (mkMS (c_pool c) m) rid n h t cap = Ok a) →
  wp (Coord.get_num_blocks_to_allocate rid n hits enc t main cap)
    (λ a c', a = foldr Z.add 0 g ∧ c' = c) c.
Proof.
  intros Hlen Hgl Hpt.
  unfold Coord.get_num_blocks_to_allocate. wp_step. unfold Coord.seq_mgrs. rewrite <- Hgl.
  apply sum_over_list. intros i a Ha. pose proof (lookup_lt_Some _ _ _ Ha) as Hi. rewrite Hgl in Hi.
  destruct (lookup_lt_is_Some_2 (c_managers c) i Hi) as [m Hm].
  destruct (lookup_lt_is_Some_2 hits i ltac:(lia)) as [h Hh].
  destruct (Hpt i m h Hm Hh) as (a' & Ha' & E). rewrite Ha in Ha'. injection Ha' as <-.
  pose proof (Forall_lookup_1 _ _ _ _ Hplain Hm) as Hp. unfold plain in Hp.
  assert (Hx : Coord.is_cross c i = false) by (unfold Coord.is_cross; rewrite Hm; by destruct (kind (m_spec m))).
  rewrite Hx. unfold Coord.group_blocks. wp_step. rewrite Hh.
  change (of_opt IndexError (Some h)) with (@mret (M Coordinator) _ _ h). wp_step.
  eapply wp_on_mgr; [done|]. unfold SingleType.get_num_blocks_to_allocate. wp_step. simpl.
  assert (Hsame : set_pool_mgrs (c_pool c) (<[i:=m]> (c_managers c)) c = c).
  { rewrite list_insert_id by done. by destruct c. }
  destruct (kind (m_spec m)); try done; rewrite E;
    change (of_res (Ok ?x)) with (@mret (M mstate) _ _ x); wp_step; done.
Qed.

Lemma count_continuing rid n enc t main cap :
  wp (Coord.get_num_blocks_to_allocate rid n (replicate (Coord.num_managers c) []) enc t main cap)
    (λ a c', c' = c ∧ (cap = false → Forall (continuing rid t) (c_managers c) →
                       a = all_missing (c_managers c) rid n)) c.
Proof.
  set (f := λ m, match SingleType.base_num_blocks_to_allocate (mkMS (c_pool c) m) rid n [] t cap with
                 Ok a => a | Raise _ => 0 end).
  eapply wp_mono; [apply (count_plain rid n enc t main cap _ (f <$> c_managers c))|].
  - by rewrite length_replicate.
  - by rewrite length_fmap.
  - intros i m h Hm [-> _]%lookup_replicate_1.
    destruct (base_count_continuing (mkMS (c_pool c) m) rid n t cap) as (a & E & _).
    exists a. rewrite list_lookup_fmap, Hm. simpl. unfold f. by rewrite E.
  - intros a c' [-> ->]. split; [done|]. intros Hcap Hcont. unfold all_missing.
    induction Hcont as [|m ms Hm _ IH]; simpl; [done|]. unfold all_missing in IH. f_equal; [|exact IH]. unfold f.
    destruct (base_count_continuing (mkMS (c_pool c) m) rid n t cap) as (a & E & Ha). rewrite E. by apply Ha.
Qed.

(** *** [allocate_new_blocks] *)
Definition extended (rid : string) (n : Z) (fresh : list loc) (m m' : Manager) : Prop :=
  (∀ r, blocks_of m' r = if decide (r = rid) then blocks_of m rid ++ fresh else blocks_of m r) ∧
  (∀ r, num_cached m' r = num_cached m r) ∧ len fresh = missing_blocks m rid n.

Lemma all_missing_split ms k m rid n :
  ms !! k = Some m →
  all_missing ms rid n = all_missing (take k ms) rid n + missing_blocks m rid n + all_missing (drop (S k) ms) rid n.
Proof.
  intros Hm. rewrite <- (take_drop_middle _ _ _ Hm) at 1. unfold all_missing. rewrite foldr_app. simpl.
  generalize (take k ms) as l. induction l as [|x l IH]; simpl; lia.
Qed.

Lemma all_missing_take_S ms k m rid n :
  ms !! k = Some m → all_missing (take (S k) ms) rid n = all_missing (take k ms) rid n + missing_blocks m rid n.
Proof.
  intros Hm. rewrite (take_S_r _ _ _ Hm). unfold all_missing. rewrite foldr_app. simpl.
  generalize (take k ms) as l. induction l as [|x l IH]; simpl; lia.
Qed.

Definition allocated_until (rid : string) (n : Z) (r : list (list loc)) (k : nat) (c' : Coordinator) : Prop :=
  length r = k ∧
  visited c (λ i m m', ∃ new, r !! i = Some new ∧ extended rid n new m m')
    (λ f, fr = concat r ++ f ∧ len (concat r) = all_missing (take k (c_managers c)) rid n) k c'.

Lemma allocate_all rid n main enc :
  all_missing (c_managers c) rid n ≤ len fr →
  wp (Coord.allocate_new_blocks rid n main enc)
    (λ r c', allocated_until rid n r (Coord.num_managers c) c') c.
Proof.
  intros Hfit. unfold Coord.allocate_new_blocks. wp_step. unfold Coord.seq_mgrs.
  apply (wp_mapM_managers _ _ (λ k r c', allocated_until rid n r k c')).
  { split; [done|]. by apply (visited_0 c fr). }
  intros k r c1 Hk [Hlen V].
  destruct (visited_next _ _ _ _ V Hk) as (m & fr1 & Hm & Hm1 & Hs1 & [Hfr Hsum] & Hp & Hms).
  pose proof (all_missing_split _ _ _ rid n Hm) as Htot.
  pose proof (missing_nonneg (drop (S k) (c_managers c)) rid n).
  set (q := missing_blocks m rid n) in *.
  assert (Hfr1 : 0 ≤ q ≤ len fr1).
  { apply (f_equal length) in Hfr. rewrite length_app in Hfr. unfold q, missing_blocks in *. lia. }
  assert (Hx : Coord.is_cross c k = false).
  { unfold Coord.is_cross. rewrite Hm. unfold plain in Hp. by destruct (kind (m_spec m)). }
  rewrite Hx. eapply wp_on_mgr; [done|]. unfold SingleType.allocate_new_blocks. wp_step. simpl.
  pose proof (base_allocate_spec _ _ _ rid n Hms ltac:(simpl; fold q; lia)) as W. simpl in W. fold q in W.
  assert (Hgoal : ∀ new s', new = take (Z.to_nat q) fr1 →
    step (mkMS (c_pool c1) m) (rest_of (c_managers c1) m) rid (drop (Z.to_nat q) fr1)
      (blocks_of m rid ++ new) (num_cached m rid) s' →
    allocated_until rid n (r ++ [new]) (S k)
      (set_pool_mgrs (ms_pool s') (<[k:=ms_mgr s']> (c_managers c1)) c1)).
  { intros new s' Enew Hst. split; [rewrite length_app; simpl; lia|].
    assert (Hln : len new = q) by (rewrite Enew, length_take; lia).
    eapply visit_step; [exact V|done|done|exact Hst| | |].
    - intros i mi mi' Hi (x & Hx' & He). exists x. split; [|done]. by rewrite lookup_app_l by lia.
    - exists new. split; [by rewrite lookup_app_r, Hlen, Nat.sub_diag by lia|].
      pose proof (st_upd _ _ _ _ _ _ _ Hst) as Hu. simpl in Hu.
      split_and!; [apply Hu| |done]. intros r'. rewrite (tu_cached _ _ _ _ _ Hu). case_decide; by subst.
    - rewrite concat_app. simpl. rewrite app_nil_r. split.
      + rewrite <- app_assoc, Enew, take_drop. done.
      + rewrite length_app, (all_missing_take_S _ _ _ _ _ Hm). fold q. lia. }
  unfold plain in Hp. destruct (kind (m_spec m)) eqn:Ek; try done;
    (eapply wp_mono; [exact W|]; intros ? s' (Er & Hst & _); rewrite Er in Hst |- *; by apply Hgoal).
Qed.

(** *** [cache_blocks] *)
Definition cached_up (rid : string) (tokens : Z) (m m' : Manager) : Prop :=
  (∀ r, blocks_of m' r = blocks_of m r) ∧
  ∀ r, num_cached m' r = if decide (r = rid) then Z.max (num_cached m rid) (tokens / m_block_size m)
                         else num_cached m r.

Lemma cacheable_transport p p' m r r' n :
  pool_frame p p' → memo_frame r r' → cacheable (mkMS p m) r n → cacheable (mkMS p' m) r' n.
Proof.
  intros Hf [Hmemo E] [H1 H2 H3 H4 H5 H6 H7 H8 H9]. simpl in *.
  split; simpl; rewrite ?(pf_caching _ _ Hf), ?(pf_hbs _ _ Hf); try done; by rewrite E.
Qed.

Lemma cache_over_spec (tokens : Manager → Z) ret r :
  (∀ i m, c_managers c !! i = Some m → cacheable (mkMS (c_pool c) m) r (tokens m)) →
  memo_ok r →
  wp (Coord.cache_over (seq 0 (Coord.num_managers c)) tokens ret r)
    (λ r' c', memo_frame r r' ∧
       visited c (λ _ m m', cached_up (request_id r) (tokens m) m m') (λ f, f = fr) (Coord.num_managers c) c') c.
Proof.
  intros Hca Hmemo.
  cut (∀ d k r1 c1, (k + d = Coord.num_managers c)%nat → memo_frame r r1 →
    visited c (λ _ m m', cached_up (request_id r) (tokens m) m m') (λ f, f = fr) k c1 →
    wp (Coord.cache_over (seq k d) tokens ret r1)
      (λ r' c', memo_frame r r' ∧ visited c (λ _ m m', cached_up (request_id r) (tokens m) m m') (λ f, f = fr)
        (Coord.num_managers c) c') c1).
  { intros Hcut. apply Hcut; [done|by apply memo_frame_refl|by apply (visited_0 c fr)]. }
  induction d as [|d IH]; intros k r1 c1 Hk Hr1 V; cbn [seq Coord.cache_over].
  { wp_step. split; [done|]. by replace (Coord.num_managers c) with k by lia. }
  destruct (visited_next _ _ _ _ V ltac:(lia)) as (m & fr1 & Hm & Hm1 & Hs1 & -> & Hp & Hms).
  wp_step. rewrite Hm1. change (of_opt IndexError (Some m)) with (@mret (M Coordinator) _ _ m). wp_step.
  assert (Hc1 : cacheable (mkMS (c_pool c1) m) r1 (tokens m)).
  { eapply cacheable_transport; [apply V|exact Hr1|]. by eapply Hca. }
  assert (Erid : request_id r1 = request_id r) by (destruct Hr1 as [_ ->]; done).
  eapply (wp_on_mgr _ _ _ _ m); [done|]. unfold SingleType.cache_blocks. wp_step. simpl.
  pose proof (base_cache_blocks_spec _ _ _ r1 (tokens m) ret Hms Hc1) as W. simpl in W. rewrite Erid in W.
  assert (Hgoal : ∀ r2 s', memo_frame r1 r2 →
    step (mkMS (c_pool c1) m) (rest_of (c_managers c1) m) (request_id r) fr (blocks_of m (request_id r))
      (Z.max (num_cached m (request_id r)) (tokens m / m_block_size m)) s' →
    wp (Coord.cache_over (seq (S k) d) tokens ret r2)
      (λ r' c', memo_frame r r' ∧ visited c (λ _ m m', cached_up (request_id r) (tokens m) m m') (λ f, f = fr)
        (Coord.num_managers c) c') (set_pool_mgrs (ms_pool s') (<[k:=ms_mgr s']> (c_managers c1)) c1)).
  { intros r2 s' Hr2 Hst. apply IH; [lia|by eapply memo_frame_trans|].
    eapply visit_step; [exact V|done|done|exact Hst|done| |done].
    pose proof (st_upd _ _ _ _ _ _ _ Hst) as Hu. simpl in Hu. split; [|apply Hu].
    intros r3. rewrite (tu_blocks _ _ _ _ _ Hu). case_decide; by subst. }
  unfold plain in Hp. destruct (kind (m_spec m)) eqn:Ek; try done;
    (eapply wp_mono; [exact W|]; intros r2 s' (Hr2 & Hst & _); by apply Hgoal).
Qed.

(** *** The hits of a new request *)
Definition new_to (rid : string) (m : Manager) : Prop :=
  num_cached_block m !! rid = None ∧ blocks_of m rid = [].

(** The hits of the groups that lie in the window. *)
Fixpoint kept_hits (t : Z) (ms : list Manager) (hits : list (list loc)) : list (list loc) :=
  match ms, hits with
  | m :: ms', h :: hits' => drop (skipped_hits m t) h :: kept_hits t ms' hits'
  | _, _ => []
  end.

Lemma kept_hits_lookup t ms hits k m h :
  ms !! k = Some m → hits !! k = Some h → kept_hits t ms hits !! k = Some (drop (skipped_hits m t) h).
Proof.
  revert hits k. induction ms as [|m0 ms IH]; intros [|h0 hits] [|k] Hm Hh; simpl in *; simplify_eq; [done|].
  by apply IH.
Qed.

Definition has_entered (rid : string) (t : Z) (nb : loc) (hits : list (list loc)) (i : nat) (m m' : Manager) : Prop :=
  ∃ h, hits !! i = Some h ∧
    (∀ r, blocks_of m' r = if decide (r = rid) then entered m nb h t else blocks_of m r) ∧
    ∀ r, num_cached m' r = if decide (r = rid) then len (entered m nb h t) else num_cached m r.

Lemma without_app l1 l2 f : without (l1 ++ l2) f = without l2 (without l1 f).
Proof. unfold without. rewrite list_filter_filter. apply filter_ext_in. intros x _. set_solver. Qed.

Lemma hits_pre_transport p p' m h :
  pool_frame p p' → (∀ b, phash p' b = phash p b) → hits_pre (mkMS p m) h → hits_pre (mkMS p' m) h.
Proof.
  intros Hf Hh. unfold hits_pre. simpl. destruct (m_enable_caching m); [|done].
  intros [H1 H2 H3]. split; rewrite ?(pf_null _ _ Hf); [|done|].
  - intros b Hb. unfold nblk. rewrite (pf_num _ _ Hf). by apply H1.
  - intros b. rewrite Hh. apply H3.
Qed.

Lemma enter_all rid hits t :
  length hits = Coord.num_managers c → Forall (new_to rid) (c_managers c) →
  (∀ i m h, c_managers c !! i = Some m → hits !! i = Some h → hits_pre (mkMS (c_pool c) m) h) →
  wp (Coord.allocate_new_computed_blocks rid hits t 0)
    (λ _ c', visited c (has_entered rid t (null_block (c_pool c)) hits)
               (λ f, f = without (concat (kept_hits t (c_managers c) hits)) fr) (Coord.num_managers c) c' ∧
             ∀ b, phash (c_pool c') b = phash (c_pool c) b) c.
Proof.
  intros Hlen Hnew Hhits. unfold Coord.allocate_new_computed_blocks. wp_step. unfold Coord.seq_mgrs.
  set (K := kept_hits t (c_managers c) hits).
  assert (HlenK : length K = Coord.num_managers c).
  { unfold K. clear -Hlen. unfold Coord.num_managers in *. revert hits Hlen.
    induction (c_managers c) as [|m ms IH]; intros [|h hits] Hl; simpl in *; try done. rewrite IH; lia. }
  eapply wp_mono.
  - apply (wp_for_managers _ _ (λ k c', visited c (has_entered rid t (null_block (c_pool c)) hits)
      (λ f, f = without (concat (take k K)) fr) k c' ∧ ∀ b, phash (c_pool c') b = phash (c_pool c) b)).
    { split; [|done]. apply (visited_0 c fr Hc). simpl. unfold without. rewrite filter_id; [done|set_solver]. }
    intros k c1 Hk [V Hh]. destruct (visited_next _ _ _ _ V Hk) as (m & fr1 & Hm & Hm1 & Hs1 & -> & Hp & Hms).
    destruct (lookup_lt_is_Some_2 hits k ltac:(lia)) as [h Hhk].
    destruct (Forall_lookup_1 _ _ _ _ Hnew Hm) as [Hnone Hempty].
    unfold Coord.group_blocks. wp_step. rewrite Hhk.
    change (of_opt IndexError (Some h)) with (@mret (M Coordinator) _ _ h). wp_step.
    eapply wp_on_mgr; [done|]. unfold SingleType.allocate_new_computed_blocks. wp_step. simpl.
    assert (HE : external_blocks m (null_block (c_pool c1)) h t 0 = 0).
    { unfold external_blocks. destruct (Z.ltb_spec 0 (SingleType.get_num_skipped_tokens m (t + 0) / m_block_size m));
        simpl; [|done]. by rewrite (proj2 (Z.ltb_ge _ _)) by lia. }
    assert (Hpre : hits_pre (mkMS (c_pool c1) m) h).
    { eapply hits_pre_transport; [apply V|exact Hh|]. by eapply Hhits. }
    pose proof (base_allocate_computed_spec _ _ _ rid h t 0 Hms Hnone Hempty Hpre) as W.
    simpl in W. rewrite HE in W. specialize (W ltac:(lia)). rewrite Z.add_0_r in W.
    change (Z.to_nat 0) with 0%nat in W. rewrite drop_0, take_0, app_nil_r in W.
    assert (En : null_block (c_pool c1) = null_block (c_pool c)) by apply (pf_null _ _ ltac:(apply V)).
    rewrite En in W.
    assert (HK : K !! k = Some (drop (skipped_hits m t) h)) by (by apply kept_hits_lookup).
    assert (Hgoal : ∀ s', step (mkMS (c_pool c1) m) (rest_of (c_managers c1) m) rid
        (without (drop (skipped_hits m t) h) (without (concat (take k K)) fr))
        (entered m (null_block (c_pool c)) h t) (len (entered m (null_block (c_pool c)) h t)) s' →
      (∀ b, phash (ms_pool s') b = phash (c_pool c1) b) →
      visited c (has_entered rid t (null_block (c_pool c)) hits) (λ f, f = without (concat (take (S k) K)) fr) (S k)
        (set_pool_mgrs (ms_pool s') (<[k:=ms_mgr s']> (c_managers c1)) c1) ∧
      ∀ b, phash (ms_pool s') b = phash (c_pool c) b).
    { intros s' Hst Hh'. split; [|intros b; by rewrite Hh', Hh].
      eapply visit_step; [exact V|done|done|exact Hst|done| |].
      - exists h. split; [done|]. split; apply (st_upd _ _ _ _ _ _ _ Hst).
      - rewrite (take_S_r _ _ _ HK), concat_app. simpl. by rewrite app_nil_r, without_app. }
    unfold plain in Hp. destruct (kind (m_spec m)) eqn:Ek; try done;
      (eapply wp_mono; [exact W|]; intros ? s' (Hst & _ & Hh'); apply Hgoal; [exact Hst|];
       intros b; apply Hh'; apply not_elem_of_nil).
  - intros ? c' [V Hh]. split; [|done]. rewrite take_ge in V by (rewrite HlenK; done). exact V.
Qed.
End coord_ops.

(** ** The admission of a new request

    Its hits are counted, entered, and the missing blocks allocated. *)
Lemma length_without_app l1 l2 (f : list loc) :
  len (without l1 f) + len (without l2 f) ≤ len (without (l1 ++ l2) f) + len f.
Proof.
  unfold without. induction f as [|x f IH]; [done|]. rewrite !filter_cons.
  destruct (decide (x ∉ l1)), (decide (x ∉ l2)), (decide (x ∉ l1 ++ l2)); cbn [length];
    rewrite ?elem_of_app in *; try lia; tauto.
Qed.

Section new_request.
Context (c : Coordinator) (fr : list loc) (Hc : sys_inv c fr) (Hplain : all_plain c).
Context (rid : string) (Hnew : Forall (new_to rid) (c_managers c)).

Definition untouched (m m' : Manager) : Prop :=
  (∀ r, blocks_of m' r = blocks_of m r) ∧ ∀ r, num_cached m' r = num_cached m r.

Lemma remove_skipped_new_all t :
  wp (Coord.remove_skipped_blocks rid t)
    (λ _ c', visited c (λ _ m m', new_to rid m' ∧ untouched m m') (λ f, f = fr) (Coord.num_managers c) c' ∧
       c_pool c' = c_pool c) c.
Proof.
  unfold Coord.remove_skipped_blocks. wp_step. unfold Coord.seq_mgrs.
  apply (wp_for_managers _ _ (λ k c', visited c (λ _ m m', new_to rid m' ∧ untouched m m') (λ f, f = fr) k c' ∧
       c_pool c' = c_pool c)); [split; [by apply (visited_0 c fr Hc)|done]|].
  intros k c1 Hk [V Ep]. destruct (visited_next _ Hplain _ _ _ _ V Hk) as (m & fr1 & Hm & Hm1 & Hs1 & -> & Hp & Hms).
  destruct (Forall_lookup_1 _ _ _ _ Hnew Hm) as [Hnone Hempty].
  eapply wp_on_mgr; [done|]. unfold SingleType.remove_skipped_blocks. wp_step. simpl.
  pose proof (base_remove_skipped_new _ _ _ rid t Hms Hempty) as W. simpl in W.
  unfold plain in Hp. destruct (kind (m_spec m)) eqn:Ek; try done;
    (eapply wp_mono; [exact W|]; intros ? s' (Ep' & En' & Hst); simpl; split; [|congruence];
     eapply visit_step; [done|done|done|exact Hst|done| |done];
     pose proof (st_upd _ _ _ _ _ _ _ Hst) as Hu; simpl in Hu; split; [split|split; intros r];
     [by rewrite En'|rewrite (tu_blocks _ _ _ _ _ Hu); by rewrite decide_True
     |rewrite (tu_blocks _ _ _ _ _ Hu); case_decide; by subst
     |rewrite (tu_cached _ _ _ _ _ Hu); case_decide; by subst]).
Qed.

(** What [get_num_blocks_to_allocate] counts for a manager: the blocks to
    allocate, and the hits to take from the free queue. *)
Definition need (n t : Z) (m : Manager) (h : list loc) : Z :=
  Z.max (cdiv n (m_block_size m) - len (entered m (null_block (c_pool c)) h t)) 0
  + (len fr - len (without (drop (skipped_hits m t) h) fr)).
Definition total_need (n t : Z) (hits : list (list loc)) : Z :=
  foldr Z.add 0 (zip_with (need n t) (c_managers c) hits).

Lemma base_count_new s rid' n h t cap rest :
  ms_inv s fr rest → ms_pool s = c_pool c → new_to rid' (ms_mgr s) → hits_pre s h →
  ∃ a, SingleType.base_num_blocks_to_allocate s rid' n h t cap = Ok a ∧
    (cap = false → a = need n t (ms_mgr s) h).
Proof.
  intros Hs Ep [Hnone Hempty] Hh. destruct cap.
  - unfold SingleType.base_num_blocks_to_allocate. rewrite Hnone. by eexists.
  - exists (need n t (ms_mgr s) h). split; [|done].
    pose proof (base_num_blocks_new s fr rest rid' h t 0 n Hs Hnone Hempty Hh) as E.
    rewrite Z.add_0_r in E. rewrite E. unfold need. by rewrite Ep.
Qed.

Lemma count_new n enc t main hits cap :
  length hits = Coord.num_managers c →
  (∀ i m h, c_managers c !! i = Some m → hits !! i = Some h → hits_pre (mkMS (c_pool c) m) h) →
  wp (Coord.get_num_blocks_to_allocate rid n hits enc t main cap)
    (λ a c', c' = c ∧ (cap = false → a = total_need n t hits)) c.
Proof.
  intros Hlen Hhits.
  assert (Hpt : ∀ i m h, c_managers c !! i = Some m → hits !! i = Some h → ∃ a,
    SingleType.base_num_blocks_to_allocate (mkMS (c_pool c) m) rid n h t cap = Ok a ∧ (cap = false → a = need n t m h)).
  { intros i m h Hi Hh. eapply (base_count_new (mkMS (c_pool c) m)); [by eapply sys_ms_inv|done| |by eapply Hhits].
    by apply (Forall_lookup_1 _ _ _ _ Hnew Hi). }
  set (g := zip_with (λ m h, match SingleType.base_num_blocks_to_allocate (mkMS (c_pool c) m) rid n h t cap with
                             Ok a => a | Raise _ => 0 end) (c_managers c) hits).
  assert (Hg : cap = false → foldr Z.add 0 g = total_need n t hits).
  { intros Hcap. unfold g, total_need. f_equal. apply list_eq. intros i. rewrite !lookup_zip_with.
    destruct (c_managers c !! i) as [m|] eqn:Hi, (hits !! i) as [h|] eqn:Hh; simpl; try done.
    destruct (Hpt i m h Hi Hh) as (a & -> & Ha). by rewrite Ha. }
  eapply wp_mono; [apply (count_plain c fr Hc Hplain rid n enc t main cap hits g Hlen)|intros a c' [-> ->]; by split].
  - unfold g. rewrite length_zip_with, Hlen. unfold Coord.num_managers. lia.
  - intros i m h Hi Hh. destruct (Hpt i m h Hi Hh) as (a & E & _). exists a. unfold g.
    rewrite lookup_zip_with, Hi, Hh. simpl. by rewrite E.
Qed.

Lemma need_nonneg n t m h : 0 ≤ need n t m h.
Proof. unfold need, without. pose proof (length_filter (λ x, x ∉ drop (skipped_hits m t) h) fr). lia. Qed.

(** After the hits are entered, the free queue still holds the blocks to
    allocate when it held all that was counted. *)
Lemma need_leaves_enough n t hits :
  length hits = Coord.num_managers c →
  foldr Z.add 0 (zip_with (λ m h, Z.max (cdiv n (m_block_size m) - len (entered m (null_block (c_pool c)) h t)) 0)
                   (c_managers c) hits)
  + (len fr - len (without (concat (kept_hits t (c_managers c) hits)) fr)) ≤ total_need n t hits.
Proof.
  unfold total_need, Coord.num_managers. generalize (c_managers c) as ms. clear. intros ms. revert hits.
  induction ms as [|m ms IH]; intros [|h hits] Hl; simpl in *; try done.
  - unfold without. rewrite filter_id by set_solver. lia.
  - specialize (IH hits ltac:(lia)).
    pose proof (length_without_app (drop (skipped_hits m t) h) (concat (kept_hits t ms hits)) fr).
    unfold need at 1. lia.
Qed.
End new_request.

(** All managers have been visited. *)
Lemma visited_mgr c P R c' i m' :
  visited c P R (Coord.num_managers c) c' → c_managers c' !! i = Some m' →
  ∃ m, c_managers c !! i = Some m ∧ same_config m m' ∧ P i m m'.
Proof.
  intros V Hi. destruct (same_coord_mgr _ _ _ _ (vi_coord _ _ _ _ _ V) Hi) as (m & Hm & Hcfg).
  exists m. split_and!; [done|done|]. eapply V; [|done|done]. by eapply lookup_lt_Some.
Qed.

(** ** Construction *)

(** What the constructor establishes besides the invariant: the managers are
    plain, and the sizes are compatible. *)
Record coord_ok (c : Coordinator) : Prop := {
  ok_plain : all_plain c;
  ok_hbs : 0 < hash_block_size (c_pool c);
  ok_sbs : 0 < c_scheduler_block_size c;
  ok_group i m : c_managers c !! i = Some m → 0 ≤ m_group_id m < 2 ^ 32;
  ok_mod i m : enable_caching (c_pool c) = true → c_managers c !! i = Some m →
    m_block_size m mod hash_block_size (c_pool c) = 0;
  ok_sched i m : c_managers c !! i = Some m → is_sliding (m_spec m) = true →
    m_scheduler_block_size m mod block_size (m_spec m) = 0;
}.

Lemma same_coord_ok c c' : same_coord c c' → coord_ok c → coord_ok c'.
Proof.
  intros Hs [H1 H2 Hsbs H3 H4 H5]. pose proof Hs as (_&_&_&Esbs&_&_&_&Hf&_).
  split; rewrite ?(pf_hbs _ _ Hf), ?(pf_caching _ _ Hf), ?Esbs; [by eapply same_coord_plain|done|done|..];
    intros i m'; [intros Hi|intros Hca Hi|intros Hi];
    destruct (same_coord_mgr _ _ _ _ Hs Hi) as (m & Hm & E1 & E2 & E3 & E4 & E5 & E6 & _);
    rewrite ?E1, ?E2, ?E3, ?E6; eauto.
Qed.

(** A configuration the coordinator is meant for. *)
Record valid_config (config : KVCacheConfig) (hash_block_size scheduler_block_size dcp pcp : Z) : Prop := {
  vc_blocks : 0 < num_blocks config;
  vc_hbs : 0 < hash_block_size;
  vc_sbs : 0 < scheduler_block_size;
  vc_dcp : 1 ≤ dcp;
  vc_pcp : 1 ≤ pcp;
  vc_groups : len (kv_cache_groups config) ≤ 2 ^ 32;
  vc_bs g : g ∈ kv_cache_groups config → 0 < block_size (kv_cache_spec g);
  vc_plain g : g ∈ kv_cache_groups config →
    match kind (kv_cache_spec g) with Mamba _ _ | CrossAttention => False | _ => True end;
}.

Section construction.
Context (max_batched max_len : Z) (nb : loc) (caching : bool) (dcp pcp sbs : Z).
Abbreviation mk spec i :=
  (SingleType.get_manager_for_kv_cache_spec spec max_batched max_len nb caching i dcp pcp sbs).

(** A manager as constructed, up to the flag for EAGLE. *)
Definition fresh_manager (spec : KVCacheSpec) (i : nat) (m : Manager) : Prop :=
  m_scheduler_block_size m = sbs ∧ m_block_size m = eff_block_size spec dcp pcp ∧ m_spec m = spec ∧
  m_enable_caching m = caching ∧ m_group_id m = Z.of_nat i ∧ m_null m = nb ∧
  req_to_blocks m = ∅ ∧ num_cached_block m = ∅.

Lemma make_one_spec spec i m : mk spec (Z.of_nat i) = Ok m → fresh_manager spec i m.
Proof.
  unfold SingleType.get_manager_for_kv_cache_spec.
  destruct (kind spec) as [[]| | | |]; intros E; (discriminate E || (apply Ok_inj in E as <-; by repeat split)).
Qed.

Lemma make_managers_spec groups k ms :
  Coord.make_managers k groups (λ spec i, mk spec i) = Ok ms →
  length ms = length groups ∧
  ∀ i m, ms !! i = Some m → ∃ g, groups !! i = Some g ∧ fresh_manager (kv_cache_spec g) (k + i) m.
Proof.
  revert k ms. induction groups as [|g gs IH]; intros k ms E; cbn [Coord.make_managers] in E.
  { apply Ok_inj in E as <-. done. }
  destruct (mk (kv_cache_spec g) (Z.of_nat k)) as [m0|] eqn:Em0; [|done].
  unfold mbind at 1, res_bind at 1 in E.
  destruct (Coord.make_managers (S k) gs _) as [ms'|] eqn:Ems; [|done].
  apply Ok_inj in E as <-. destruct (IH _ _ Ems) as [El Hms]. split; [simpl; lia|].
  intros [|i] m Hm; simpl in Hm.
  - injection Hm as <-. exists g. rewrite Nat.add_0_r. split; [done|]. by apply make_one_spec.
  - destruct (Hms i m Hm) as (g' & Hg' & Hf). exists g'. split; [done|]. by rewrite <- Nat.add_succ_comm.
Qed.

Definition fresh_managers (groups : list KVCacheGroupSpec) (ms : list Manager) : Prop :=
  ∀ i m, ms !! i = Some m → ∃ g, groups !! i = Some g ∧ fresh_manager (kv_cache_spec g) i m.

Lemma flag_one_fresh groups b i ms :
  fresh_managers groups ms → fresh_managers groups (alter (set_use_eagle b) i ms).
Proof.
  intros H j m Hj. destruct (decide (i = j)) as [->|Hne].
  - rewrite list_lookup_alter_eq in Hj. destruct (ms !! j) as [m0|] eqn:E; simpl in Hj; [|done].
    injection Hj as <-. destruct (H j m0 E) as (g & Hg & Hf). by exists g.
  - rewrite list_lookup_alter_ne in Hj by done. by apply H.
Qed.

Lemma flag_eagle_fresh groups ids ms :
  fresh_managers groups ms → fresh_managers groups (Coord.flag_eagle ids ms).
Proof.
  revert ms. induction ids as [|i ids IH]; intros ms H; simpl; [done|]. by apply IH, flag_one_fresh.
Qed.

Lemma fresh_total groups ms b : fresh_managers groups ms → total_refs ms b = 0.
Proof.
  intros H. assert (Hall : Forall (λ m, req_to_blocks m = ∅) ms).
  { apply Forall_lookup. intros i m Hm. destruct (H i m Hm) as (g & _ & Hf). apply Hf. }
  clear H. induction Hall as [|m ms E _ IH]; simpl; [done|]. by rewrite E, refs_empty, IH.
Qed.
End construction.

Section initial.
Context (config : KVCacheConfig) (hbs sbs dcp pcp : Z) (Hv : valid_config config hbs sbs dcp pcp).
Context (caching : bool) (p : BlockPool) (ms : list Manager).
Abbreviation groups := (kv_cache_groups config).
Context (fr : list loc) (Hp : pool_inv p fr) (Hca : enable_caching p = caching) (Hhbs : hash_block_size p = hbs).
Context (Hzero : ∀ b, pref p b = 0 ∧ phash p b = None).
Context (Hms : fresh_managers (null_block p) caching dcp pcp sbs groups ms).

Lemma fresh_sys_inv kd ec eagle ret :
  sys_inv (mkCoord kd config ec sbs hbs eagle ret p ms) fr.
Proof.
  split; simpl; [done|intros _ b; apply Hzero|]. intros i m Hi.
  destruct (Hms i m Hi) as (g & Hg & E1 & E2 & E3 & E4 & E5 & E6 & E7 & E8). split; [|congruence].
  assert (Eb : ∀ r, blocks_of m r = []) by (intros r; unfold blocks_of; by rewrite E7, lookup_empty).
  assert (Hrest : ∀ b, rest_of ms m b = 0).
  { intros b. unfold rest_of. rewrite (fresh_total _ _ _ _ _ _ _ b Hms), E7, refs_empty. lia. }
  split; [done| |intros r b; rewrite Eb; set_solver|intros r; rewrite Eb; constructor|..].
  - rewrite E2. unfold eff_block_size. pose proof (vc_bs _ _ _ _ _ Hv g ltac:(by eapply list_elem_of_lookup_2)).
    pose proof (vc_dcp _ _ _ _ _ Hv). pose proof (vc_pcp _ _ _ _ _ Hv). destruct (1 <? dcp * pcp); nia.
  - intros b. rewrite Hrest. lia.
  - intros b _ _. rewrite Hrest, E7, refs_empty. rewrite (proj1 (Hzero b)). lia.
  - intros r j b Hb. by rewrite Eb in Hb.
  - intros r. unfold num_cached. by rewrite E8, lookup_empty.
Qed.

Lemma fresh_coord_ok kd ec eagle ret :
  (∀ g, g ∈ groups → sbs mod block_size (kv_cache_spec g) = 0) →
  (caching = true → ∀ g, g ∈ groups → eff_block_size (kv_cache_spec g) dcp pcp mod hbs = 0) →
  length ms = length groups →
  coord_ok (mkCoord kd config ec sbs hbs eagle ret p ms).
Proof.
  intros Hsbs Hmod Hlen.
  assert (Hg : ∀ i m, ms !! i = Some m → ∃ g, g ∈ groups ∧ fresh_manager (null_block p) caching dcp pcp sbs (kv_cache_spec g) i m).
  { intros i m Hi. destruct (Hms i m Hi) as (g & Hg & Hf). exists g. split; [by eapply list_elem_of_lookup_2|done]. }
  split; simpl; rewrite ?Hhbs, ?Hca; [|apply Hv|apply Hv|..].
  - apply Forall_lookup. intros i m Hi. destruct (Hg i m Hi) as (g & Hin & _ & _ & E & _).
    unfold plain. rewrite E. by apply (vc_plain _ _ _ _ _ Hv).
  - intros i m Hi. destruct (Hg i m Hi) as (g & Hin & _ & _ & _ & _ & E & _). rewrite E.
    apply lookup_lt_Some in Hi. pose proof (vc_groups _ _ _ _ _ Hv). lia.
  - intros i m Hc Hi. destruct (Hg i m Hi) as (g & Hin & _ & E & _). rewrite E. by apply Hmod.
  - intros i m Hi _. destruct (Hg i m Hi) as (g & Hin & E & _ & E' & _). rewrite E, E'. by apply Hsbs.
Qed.
End initial.

Lemma init_ok config max_len max_batched use_eagle caching events use_int dcp pcp sbs hbs ret c :
  valid_config config hbs sbs dcp pcp →
  Coord.init config max_len max_batched use_eagle caching events use_int dcp pcp sbs hbs ret = Ok c →
  sys_inv c (seq 1 (Z.to_nat (num_blocks config) - 1)) ∧ coord_ok c ∧
  c_config c = config ∧ length (c_managers c) = length (kv_cache_groups config) ∧
  enable_caching (c_pool c) = caching ∧ hash_block_size (c_pool c) = hbs.
Proof.
  intros Hv. unfold Coord.init.
  destruct (init_spec (num_blocks config) caching hbs events use_int (vc_blocks _ _ _ _ _ Hv))
    as (p & -> & Hp & Hnull & _ & Eh & Ec & _ & _ & _ & Hzero).
  destruct (_ || _) eqn:Eg; [done|]. apply orb_false_iff in Eg as [_ Eg%negb_false_iff].
  rewrite forallb_forall in Eg.
  assert (Hsbs : ∀ g, g ∈ kv_cache_groups config → sbs mod block_size (kv_cache_spec g) = 0).
  { intros g Hg%list_elem_of_In. by apply Z.eqb_eq, Eg. }
  unfold mbind at 1, res_bind at 1. unfold mbind at 1, res_bind at 1.
  destruct (Coord.make_managers 0 _ _) as [ms|] eqn:Ems; [|done].
  apply make_managers_spec in Ems as [Hlen Hms].
  change (fresh_managers (null_block p) caching dcp pcp sbs (kv_cache_groups config) ms) in Hms.
  unfold mbind at 1, res_bind at 1. destruct (Coord.validate_retention _ _ _); [|done].
  set (mk kd ms0 := mkCoord kd config caching sbs hbs (Coord.eagle_groups use_eagle config) ret p ms0).
  assert (Hgoal : ∀ kd ms', fresh_managers (null_block p) caching dcp pcp sbs (kv_cache_groups config) ms' →
    length ms' = length (kv_cache_groups config) →
    (caching = true → ∀ g, g ∈ kv_cache_groups config →
       eff_block_size (kv_cache_spec g) dcp pcp mod hbs = 0) →
    sys_inv (mk kd ms') (seq 1 (Z.to_nat (num_blocks config) - 1)) ∧ coord_ok (mk kd ms') ∧
    c_config (mk kd ms') = config ∧ length (c_managers (mk kd ms')) = length (kv_cache_groups config) ∧
    enable_caching (c_pool (mk kd ms')) = caching ∧ hash_block_size (c_pool (mk kd ms')) = hbs).
  { intros kd ms' Hms' Hlen' Hmod. unfold mk. split_and!; [by eapply fresh_sys_inv|by eapply fresh_coord_ok|done..]. }
  destruct caching; cbn [negb]; [|intros [= <-]; by apply Hgoal].
  assert (Hmany : negb (forallb (λ g, block_size (kv_cache_spec g) mod hbs =? 0) (kv_cache_groups config))
    || negb (dcp =? 1) || negb (pcp =? 1) = false →
    ∀ g, g ∈ kv_cache_groups config → eff_block_size (kv_cache_spec g) dcp pcp mod hbs = 0).
  { rewrite !orb_false_iff, !negb_false_iff, !Z.eqb_eq, forallb_forall.
    intros [[Hf ->] ->] g Hg%list_elem_of_In. by apply Z.eqb_eq, Hf. }
  assert (Hfl : ∀ ids ms', length (Coord.flag_eagle ids ms') = length ms').
  { intros ids. induction ids as [|i ids IH]; intros ms'; simpl; [done|]. by rewrite IH, length_alter. }
  destruct (kv_cache_groups config) as [|g [|g2 gs]] eqn:Egs.
  - by destruct (_ || _).
  - destruct (Z.eqb_spec hbs (if 1 <? pcp then (if 1 <? dcp then block_size (kv_cache_spec g) * dcp
      else block_size (kv_cache_spec g)) * pcp else (if 1 <? dcp then block_size (kv_cache_spec g) * dcp
      else block_size (kv_cache_spec g)))) as [E|]; [|done]. intros [= <-].
    apply Hgoal; [by apply flag_one_fresh|by rewrite length_alter|]. intros _ g' ->%list_elem_of_singleton.
    pose proof (vc_dcp _ _ _ _ _ Hv). pose proof (vc_pcp _ _ _ _ _ Hv). pose proof (vc_hbs _ _ _ _ _ Hv).
    assert (eff_block_size (kv_cache_spec g) dcp pcp = hbs) as ->; [|apply Z.mod_same; lia].
    unfold eff_block_size. destruct (Z.ltb_spec 1 dcp), (Z.ltb_spec 1 pcp), (Z.ltb_spec 1 (dcp * pcp)); nia.
  - destruct (_ || _) eqn:E; [done|]. destruct (_ <=? _)%nat; [|done]. intros [= <-].
    apply Hgoal; [by apply flag_eagle_fresh|by rewrite Hfl|auto].
Qed.

(** ** Operations of the pool that the managers do not see *)

(** The pool changes, but no reference count does, and hashes only disappear. *)
Lemma sys_pool_step c fr p' :
  sys_inv c fr → pool_inv p' fr → pool_frame (c_pool c) p' →
  (∀ b, pref p' b = pref (c_pool c) b) →
  (∀ b, phash p' b = None ∨ phash p' b = phash (c_pool c) b) →
  let c' := set_pool_mgrs p' (c_managers c) c in sys_inv c' fr ∧ same_coord c c'.
Proof.
  intros [Hp Hs Hm] Hp' Hf Hr Hh c'. split; [|unfold same_coord, c'; split_and!; done].
  assert (En : nblk p' = nblk (c_pool c)) by (unfold nblk; by rewrite (pf_num _ _ Hf)).
  split; simpl; [done| |].
  - intros E b. rewrite (pf_caching _ _ Hf) in E. destruct (Hh b) as [->| ->]; [done|by apply Hs].
  - intros i m Hi. destruct (Hm i m Hi) as [[G1 G2 G3 G4 G5 G6 G7 G8] Gc].
    split; [|by rewrite (pf_caching _ _ Hf)].
    split; rewrite ?En, ?(pf_null _ _ Hf); try done.
    + intros b Hb Hn. rewrite Hr. by apply G6.
    + intros r j b Hj Hn Hle. destruct (G7 r j b Hj Hn Hle) as (P1 & P2 & P3). unfold private.
      rewrite (pf_null _ _ Hf), Hr. split_and!; [done| |done]. destruct (Hh b) as [->| ->]; done.
Qed.

Lemma unhashed_drops p ids p' : unhashed p ids p' → ∀ b, phash p' b = None ∨ phash p' b = phash p b.
Proof. intros H b. rewrite H. case_decide; auto. Qed.

(** [new_step_starts] concerns Mamba managers only. *)
Lemma new_step_all c fr :
  sys_inv c fr → all_plain c →
  wp Coord.new_step_starts (λ _ c', c' = c) c.
Proof.
  intros Hs Hp. unfold Coord.new_step_starts. wp_step. unfold Coord.seq_mgrs.
  apply (wp_for_managers _ _ (λ _ c', c' = c)); [done|]. intros k c' Hk ->.
  destruct (lookup_lt_is_Some_2 (c_managers c) k Hk) as [m Hm].
  pose proof (Forall_lookup_1 _ _ _ _ Hp Hm) as Hpm. unfold plain in Hpm.
  eapply wp_on_mgr; [done|]. unfold SingleType.new_step_starts. wp_step. simpl.
  assert (Hsame : set_pool_mgrs (c_pool c) (<[k:=m]> (c_managers c)) c = c).
  { rewrite list_insert_id by done. by destruct c. }
  by destruct (kind (m_spec m)); wp_step.
Qed.
