(* ===== verification/HybridHit.v ===== *)
(** * The hybrid search for a cache hit

    [HybridKVCacheCoordinator.find_longest_cache_hit] (the definitions are in
    the file of the coordinators): the fixed-point loop over the attention
    groups ends, and its result is a hit for every group.  The proof uses the
    searches of the managers only through their interface [HitFinder]. *)
From S2P Require Import Prelude FreeQueue Request BlockHash BlockPool KVSpec CacheHit SingleType Coordinator.

Section hybrid_spec.
Context (cache : gmap bytes cache_entry) (nb : loc) (hbs align : Z).
Context (ags : list SpecGroup) (hashes : list bytes) (max_length : Z) (N : nat).
Abbreviation bs g := (block_size (sg_spec g)).
Abbreviation gids g := (fmap (M := list) Z.of_nat (sg_group_ids g)).
Abbreviation hs g := (group_hashes hashes hbs (bs g)).

(** What the constructor checks of the groups, and what the searches need. *)
Record groups_valid : Prop := {
  gv_align : 0 < align;
  gv_max : 0 ≤ max_length;
  gv_ok g : g ∈ ags → groups_ok (gids g);
  gv_spec g : g ∈ ags → spec_valid (sg_spec g) align (sg_use_eagle g);
  gv_bs g : g ∈ ags → align mod bs g = 0;
  gv_hashes g : g ∈ ags → (Z.to_nat (max_length / bs g) ≤ length (hs g))%nat;
  gv_eagle g m n : g ∈ ags → sg_use_eagle g = true → kind (sg_spec g) ≠ Mamba m n;
  (** full attention comes first, and in one group *)
  gv_head i g : ags !! S i = Some g → is_full (sg_spec g) = false;
  gv_ids g i : g ∈ ags → i ∈ sg_group_ids g → (i < N)%nat;
  gv_nodup g : g ∈ ags → NoDup (sg_group_ids g);
  gv_disjoint i j g g' x : ags !! i = Some g → ags !! j = Some g' → i ≠ j →
    x ∈ sg_group_ids g → x ∉ sg_group_ids g';
}.
Context (Hv : groups_valid).

(** The lists stored for the ids of a group are the columns of [rows]. *)
Definition stored (hits : list (option (list loc))) (g : SpecGroup) (rows : list (list loc)) : Prop :=
  ∀ k id, sg_group_ids g !! k = Some id → hits !! id = Some (Some ((λ row, row !!! k) <$> rows)).

(** A hit of exactly the length of [rows]. *)
Definition good (g : SpecGroup) (rows : list (list loc)) : Prop :=
  hit_ok cache nb (hs g) (gids g) (kind (sg_spec g)) (bs g) align (len rows * bs g) rows.

Lemma put_groups_spec ids blocks hits :
  NoDup ids → length ids = length blocks → (∀ i, i ∈ ids → (i < length hits)%nat) →
  length (Coord.put_groups ids blocks hits) = length hits ∧
  (∀ k i, ids !! k = Some i → Coord.put_groups ids blocks hits !! i = Some (blocks !! k)) ∧
  ∀ i, i ∉ ids → Coord.put_groups ids blocks hits !! i = hits !! i.
Proof.
  revert blocks hits. induction ids as [|x ids IH]; intros [|b blocks] hits Hnd Hl Hin; try done.
  apply NoDup_cons in Hnd as [Hx Hnd]. cbn [Coord.put_groups].
  destruct (IH blocks (<[x:=Some b]> hits)) as (H1 & H2 & H3); [done|simpl in Hl; lia| |].
  { intros i Hi. rewrite length_insert. apply Hin. set_solver. }
  split_and!.
  - by rewrite H1, length_insert.
  - intros [|k] i Hk; simpl in Hk.
    + injection Hk as <-. rewrite H3 by done. rewrite list_lookup_insert_eq; [done|]. apply Hin. set_solver.
    + rewrite (H2 k i Hk). done.
  - intros i Hi. rewrite H3 by set_solver. apply list_lookup_insert_ne. set_solver.
Qed.

Lemma spec_valid_nodrop s a d : spec_valid s a d → spec_valid s a false.
Proof. unfold spec_valid. destruct (kind s); intuition. Qed.

(** The group is not skipped: the search is run for it. *)
Definition looked_up (g : SpecGroup) (hits : list (option (list loc))) : Prop :=
  is_full (sg_spec g) = false ∨ ∀ i, i ∈ sg_group_ids g → hits !! i = Some None.

(** One turn of the [for] loop that runs the search. *)
Lemma group_search idx g s :
  ags !! idx = Some g → length (Coord.hs_hits s) = N → 0 ≤ Coord.hs_curr s ≤ max_length →
  looked_up g (Coord.hs_hits s) →
  ∃ s' rows, Coord.hybrid_group cache nb hbs align hashes max_length idx g s = Ok s' ∧
    length (Coord.hs_hits s') = N ∧ good g rows ∧ stored (Coord.hs_hits s') g rows ∧
    Coord.hs_curr s' = len rows * bs g ∧ 0 ≤ Coord.hs_curr s' ≤ Coord.hs_curr s ∧
    Coord.hs_curr s' mod align = 0 ∧
    ∀ i, i ∉ sg_group_ids g → Coord.hs_hits s' !! i = Coord.hs_hits s !! i.
Proof.
  intros Hg HN Hcurr Hlook. assert (Hin : g ∈ ags) by (by eapply list_elem_of_lookup_2).
  pose proof (gv_ok Hv g Hin) as Hok. pose proof (gv_spec Hv g Hin) as Hsp.
  destruct (sg_group_ids g) as [|i0 ids] eqn:Eids.
  { exfalso. pose proof (go_pos _ Hok) as Hpos. rewrite length_fmap in Hpos. simpl in Hpos. rewrite ?Eids in Hpos.
    simpl in Hpos. lia. }
  assert (Hi0 : (i0 < N)%nat) by (apply (gv_ids Hv g); [done|rewrite Eids; set_solver]).
  unfold Coord.hybrid_group. rewrite Eids. cbn [mbind res_bind].
  destruct (lookup_lt_is_Some_2 (Coord.hs_hits s) i0 ltac:(lia)) as [o Ho]. rewrite Ho. cbn [mbind res_bind].
  assert (Ec : is_full (sg_spec g) && (match o with Some _ => true | None => false end) = false).
  { destruct Hlook as [->|Hnone]; [done|]. rewrite Hnone in Ho by (rewrite Eids; set_solver).
    injection Ho as <-. by rewrite andb_false_r. }
  rewrite Ec. set (drop := sg_use_eagle g && bool_decide (idx ∉ Coord.hs_verified s)).
  set (L := if drop then Z.min (Coord.hs_curr s + bs g) max_length else Coord.hs_curr s).
  pose proof (proj1 Hsp) as Hbs.
  assert (HL : 0 ≤ L ≤ max_length) by (unfold L; destruct drop; lia).
  assert (Hspd : spec_valid (sg_spec g) align drop).
  { unfold drop. destruct (sg_use_eagle g), (bool_decide _); simpl; try done; by eapply spec_valid_nodrop. }
  assert (Hh : (Z.to_nat (L / bs g) ≤ length (hs g))%nat).
  { pose proof (gv_hashes Hv g Hin). assert (L / bs g ≤ max_length / bs g) by (apply Z.div_le_mono; lia). lia. }
  rewrite <- Eids in *.
  destruct (find_ok (HitFinder := registered_finder (sg_spec g)) cache nb (hs g) L (gids g) drop align Hok Hspd
    (proj1 HL) Hh) as (rows & E & Hrows).
  rewrite E. cbn [mbind res_bind]. rewrite first_list_cols by apply Hok. cbn [mbind res_bind].
  rewrite length_fmap.
  assert (Hle : len rows * bs g ≤ Coord.hs_curr s).
  { pose proof (ho_max _ _ _ _ _ _ _ _ _ Hrows) as Hm. unfold L in *. destruct drop eqn:Ed; [|done].
    apply andb_true_iff in Ed as [Eu _].
    destruct (find_drops (HitFinder := registered_finder (sg_spec g)) cache nb (hs g) _ (gids g) align rows
      (λ m n, gv_eagle Hv g m n Hin Eu) Hok Hspd (proj1 HL) Hh E) as [->|Hd]; simpl; lia. }
  destruct (put_groups_spec (sg_group_ids g) (cols (length (gids g)) rows) (Coord.hs_hits s)) as (P1 & P2 & P3).
  { by apply (gv_nodup Hv). }
  { unfold cols. by rewrite !length_fmap, length_seq. }
  { intros i Hi. rewrite HN. by apply (gv_ids Hv g). }
  eexists _, rows. split; [done|]. simpl. rewrite length_fmap in *. split_and!.
  - by rewrite P1.
  - destruct Hrows as [R1 R2 R3 R4]. by split.
  - intros k i Hk. rewrite (P2 k i Hk), cols_lookup, decide_True; [done|].
    apply lookup_lt_Some in Hk. done.
  - done.
  - lia.
  - done.
  - apply (ho_aligned _ _ _ _ _ _ _ _ _ Hrows).
  - intros i Hi. by apply P3.
Qed.
(** *** One pass over the groups

    [pass_inv first H j s]: the pass started with length [H]; the groups before
    [j] have been visited.  In every pass but the first, the lists of full
    attention are there already. *)
Record pass_inv (first : bool) (H : Z) (j : nat) (s : Coord.hybrid_state) : Prop := {
  pa_len : length (Coord.hs_hits s) = N;
  pa_curr : 0 ≤ Coord.hs_curr s ≤ H;
  pa_aligned : (0 < j)%nat ∨ first = false → Coord.hs_curr s mod align = 0;
  pa_done i g : ags !! i = Some g → (i < j)%nat ∨ (is_full (sg_spec g) = true ∧ first = false) →
    ∃ rows, stored (Coord.hs_hits s) g rows ∧ good g rows ∧ Coord.hs_curr s ≤ len rows * bs g ∧
      (is_full (sg_spec g) = false → len rows * bs g ≤ H ∧ (S i = j → len rows * bs g = Coord.hs_curr s));
  pa_none : first = true → j = 0%nat → ∀ i, (i < N)%nat → Coord.hs_hits s !! i = Some None;
}.

Lemma stored_frame g hits hits' rows :
  (∀ i, i ∈ sg_group_ids g → hits' !! i = hits !! i) → stored hits g rows → stored hits' g rows.
Proof. intros Hf Hs k id Hk. rewrite Hf; [by apply Hs|]. by eapply list_elem_of_lookup_2. Qed.

(** A turn for a group of full attention that was looked up before. *)
Lemma group_cached idx g s rows :
  ags !! idx = Some g → is_full (sg_spec g) = true → stored (Coord.hs_hits s) g rows →
  Coord.hs_curr s mod align = 0 →
  Coord.hybrid_group cache nb hbs align hashes max_length idx g s = Ok s.
Proof.
  intros Hg Hfull Hst Hal. assert (Hin : g ∈ ags) by (by eapply list_elem_of_lookup_2).
  pose proof (gv_ok Hv g Hin) as Hok. pose proof (proj1 (gv_spec Hv g Hin)) as Hbs.
  unfold Coord.hybrid_group. destruct (sg_group_ids g) as [|i0 ids] eqn:Eids.
  { exfalso. pose proof (go_pos _ Hok) as Hpos. rewrite length_fmap in Hpos. simpl in Hpos. lia. }
  cbn [mbind res_bind]. rewrite (Hst 0%nat i0) by (by rewrite Eids). cbn [mbind res_bind]. rewrite Hfull. simpl.
  assert (Hd : Coord.hs_curr s mod bs g = 0).
  { apply Z.mod_divide; [lia|]. etrans; [apply Z.mod_divide; [lia|by apply (gv_bs Hv)]|].
    apply Z.mod_divide; [|done]. pose proof (gv_align Hv). lia. }
  pose proof (Z.div_mod (Coord.hs_curr s) (bs g) ltac:(lia)).
  replace (Coord.hs_curr s / bs g * bs g) with (Coord.hs_curr s) by lia. by destruct s.
Qed.

Lemma pass_step first H idx g s :
  H ≤ max_length → pass_inv first H idx s → ags !! idx = Some g →
  ∃ s', Coord.hybrid_group cache nb hbs align hashes max_length idx g s = Ok s' ∧ pass_inv first H (S idx) s'.
Proof.
  intros HH [P1 P2 P3 P4 P5] Hg.
  destruct (decide (is_full (sg_spec g) = true ∧ first = false)) as [[Hfull Hf]|Hn].
  { destruct (P4 idx g Hg (or_intror (conj Hfull Hf))) as (rows & Hst & Hgood & Hle & _).
    specialize (P3 (or_intror Hf)). exists s. split; [by eapply group_cached|].
    split; [done|done|done| |done]. intros i g' Hi Hcase.
    destruct (decide (i = idx)) as [->|Hne].
    { simplify_eq. exists rows. split_and!; [done|done|done|congruence]. }
    destruct (P4 i g' Hi) as (rows' & R1 & R2 & R3 & R4); [destruct Hcase; [left; lia|by right]|].
    exists rows'. split_and!; [done|done|done|]. intros E. destruct (R4 E) as [R5 _]. split; [done|lia]. }
  destruct (group_search idx g s Hg P1) as (s' & rows & E & Q1 & Q2 & Q3 & Q4 & Q5 & Q6 & Q7); [lia| |].
  { destruct (is_full (sg_spec g)) eqn:Ef; [right|by left]. destruct first; [|naive_solver].
    destruct idx as [|idx]; [|by rewrite (gv_head Hv idx g Hg) in Ef].
    intros i Hi. apply P5; [done|done|]. apply (gv_ids Hv g); [by eapply list_elem_of_lookup_2|done]. }
  exists s'. split; [done|]. split; [done|lia|done| |done]. intros i g' Hi Hcase.
  destruct (decide (i = idx)) as [->|Hne].
  - simplify_eq. exists rows. split_and!; [done|done|lia|intros _; split; lia].
  - destruct (P4 i g' Hi) as (rows' & R1 & R2 & R3 & R4); [destruct Hcase; [left; lia|by right]|].
    exists rows'. split_and!; [|done|lia|intros Ef; destruct (R4 Ef); split; lia].
    eapply stored_frame; [|exact R1]. intros x Hx. apply Q7. by eapply (gv_disjoint Hv i idx g' g).
Qed.

Lemma pass_all first H s :
  H ≤ max_length → pass_inv first H 0 s →
  ∃ s', Coord.hybrid_pass cache nb hbs align hashes max_length 0 ags s = Ok s' ∧
    pass_inv first H (length ags) s'.
Proof.
  intros HH. cut (∀ gs idx s, drop idx ags = gs → pass_inv first H idx s →
    ∃ s', Coord.hybrid_pass cache nb hbs align hashes max_length idx gs s = Ok s' ∧
      pass_inv first H (idx + length gs) s'); [intros Hc Hp; by apply (Hc ags 0%nat)|].
  induction gs as [|g gs IH]; intros idx s0 Ed Hp; cbn [Coord.hybrid_pass].
  { exists s0. split; [done|]. by rewrite Nat.add_0_r. }
  assert (Hg : ags !! idx = Some g) by (rewrite <- (Nat.add_0_r idx), <- lookup_drop, Ed; done).
  destruct (pass_step first H idx g s0 HH Hp Hg) as (s1 & -> & Hp1). cbn [mbind res_bind].
  destruct (IH (S idx) s1) as (s' & E & Hp'); [by rewrite <- Nat.add_1_r, <- drop_drop, Ed|done|].
  exists s'. split; [done|]. simpl. by rewrite <- Nat.add_succ_comm.
Qed.

(** *** The loop *)
Definition fits (hl : Z) (hits : list (option (list loc))) : Prop :=
  length hits = N ∧ ∀ i g, ags !! i = Some g → ∃ rows, stored hits g rows ∧ good g rows ∧
    hl ≤ len rows * bs g ∧ (is_full (sg_spec g) = false → len rows * bs g = hl).

Lemma loop_ends fuel first H hits verified :
  ags ≠ [] → H ≤ max_length → (Z.to_nat H < fuel)%nat → pass_inv first H 0 (Coord.mkHS H hits verified) →
  ∃ hl hits', Coord.hybrid_loop cache nb hbs align ags hashes max_length fuel H hits verified = Ok (hl, hits') ∧
    0 ≤ hl ≤ H ∧ hl mod align = 0 ∧ fits hl hits'.
Proof.
  intros Hne. revert first H hits verified.
  induction fuel as [|fuel IH]; intros first H hits verified HH Hfuel Hp; [lia|]. cbn [Coord.hybrid_loop].
  destruct (pass_all first H _ HH Hp) as (s & -> & [P1 P2 P3 P4 P5]). cbn [mbind res_bind].
  assert (Hpos : (0 < length ags)%nat) by (destruct ags; [done|simpl; lia]).
  specialize (P3 (or_introl Hpos)).
  destruct (Z.leb_spec H (Coord.hs_curr s)) as [Hle|Hlt].
  { exists H, (Coord.hs_hits s). assert (Ecurr : Coord.hs_curr s = H) by lia. rewrite Ecurr in *.
    split_and!; [done|lia|lia|done|]. split; [done|]. intros i g Hg.
    destruct (P4 i g Hg) as (rows & R1 & R2 & R3 & R4); [left; by eapply lookup_lt_Some|].
    exists rows. split_and!; [done|done|done|]. intros Ef. destruct (R4 Ef). lia. }
  destruct (Coord.is_simple_hybrid ags) eqn:Esimple.
  { exists (Coord.hs_curr s), (Coord.hs_hits s). split_and!; [done|lia|lia|done|]. split; [done|]. intros i g Hg.
    destruct (P4 i g Hg) as (rows & R1 & R2 & R3 & R4); [left; by eapply lookup_lt_Some|].
    exists rows. split_and!; [done|done|done|]. intros Ef. destruct (R4 Ef) as [_ R5]. apply R5.
    unfold Coord.is_simple_hybrid in Esimple. apply andb_true_iff in Esimple as [El%Nat.eqb_eq Eh].
    rewrite El. destruct i as [|i]; [|apply lookup_lt_Some in Hg; lia].
    destruct ags as [|g0 gs]; [done|]. simpl in Hg. injection Hg as ->. congruence. }
  destruct (IH false (Coord.hs_curr s) (Coord.hs_hits s) (Coord.hs_verified s)) as (hl & hits' & E & Hhl & Hr);
    [lia|lia| |by exists hl, hits'; split; [done|split; [lia|done]]].
  split; simpl; [done|lia|done| |done]. intros i g Hg [Hi|[Hfull _]]; [lia|].
  destruct (P4 i g Hg) as (rows & R1 & R2 & R3 & R4); [left; by eapply lookup_lt_Some|].
  exists rows. split_and!; [done|done|done|congruence].
Qed.
(** *** Truncation *)
Lemma foldl_alter_lookup {A} (f : A → A) ids (l : list A) i :
  NoDup ids → foldl (λ l i, alter f i l) l ids !! i = if decide (i ∈ ids) then f <$> l !! i else l !! i.
Proof.
  revert l. induction ids as [|x ids IH]; intros l Hnd; cbn [foldl]; [by rewrite decide_False by set_solver|].
  apply NoDup_cons in Hnd as [Hx Hnd]. rewrite IH by done.
  destruct (decide (i = x)) as [->|Hne].
  - rewrite decide_False, decide_True by set_solver. by rewrite list_lookup_alter_eq.
  - rewrite list_lookup_alter_ne by done. repeat case_decide; set_solver.
Qed.

(** A prefix of a hit of full attention is a hit. *)
Lemma good_take g rows hl :
  g ∈ ags → is_full (sg_spec g) = true → good g rows → 0 ≤ hl ≤ len rows * bs g → hl mod align = 0 →
  good g (take (Z.to_nat (hl / bs g)) rows) ∧ len (take (Z.to_nat (hl / bs g)) rows) * bs g = hl.
Proof.
  intros Hin Hfull [G1 G2 G3 G4] Hhl Hal. pose proof (proj1 (gv_spec Hv g Hin)) as Hbs.
  assert (Hd : (bs g | hl)).
  { etrans; [apply Z.mod_divide; [lia|by apply (gv_bs Hv)]|].
    apply Z.mod_divide; [|done]. pose proof (gv_align Hv). lia. }
  destruct Hd as [q ->]. rewrite Z.div_mul by lia.
  assert (Hq : 0 ≤ q ≤ len rows) by nia.
  assert (El : len (take (Z.to_nat q) rows) = q) by (rewrite length_take; lia).
  unfold good. rewrite El. split; [|done]. unfold is_full in Hfull. destruct (kind (sg_spec g)) as [k| | | |] eqn:Ek; try done.
  split; rewrite ?El; [done|unfold aligned; by rewrite El| |].
  - intros j row Hj. apply lookup_take_Some in Hj as [Hj _]. by apply G3.
  - intros j Hj Hskip. rewrite length_take in Hj. simpl in Hskip.
    destruct (G4 j) as [R1 R2]; [lia|simpl; nia|]. split; [done|]. rewrite lookup_take_lt by lia. done.
Qed.

(** What the result says of a group: its lists are the columns of a hit of
    exactly [hl] tokens. *)
Definition group_hit (hl : Z) (res : list (list loc)) (g : SpecGroup) : Prop :=
  ∃ rows, len rows * bs g = hl ∧
    hit_ok cache nb (hs g) (gids g) (kind (sg_spec g)) (bs g) align hl rows ∧
    ∀ k id, sg_group_ids g !! k = Some id → res !! id = Some ((λ row, row !!! k) <$> rows).

Lemma truncate_fits hl hits :
  0 ≤ hl → hl mod align = 0 → fits hl hits →
  length (Coord.truncate_full ags hl hits) = N ∧
  ∀ g, g ∈ ags → group_hit hl (default [] <$> Coord.truncate_full ags hl hits) g.
Proof.
  intros Hhl Hal [Hlen Hf].
  assert (Hl : ∀ f ids (l : list (option (list loc))), length (foldl (λ l i, alter f i l) l ids) = length l).
  { intros f ids. induction ids as [|x ids IH]; intros l; simpl; [done|]. by rewrite IH, length_alter. }
  assert (Hplain : ∀ i g hits', ags !! i = Some g → (∀ x, x ∈ sg_group_ids g → hits' !! x = hits !! x) →
    is_full (sg_spec g) = false → group_hit hl (default [] <$> hits') g).
  { intros i g hits' Hg Hx Ef. destruct (Hf i g Hg) as (rows & R1 & R2 & R3 & R4). specialize (R4 Ef).
    exists rows. split; [done|]. split; [by rewrite <- R4|]. intros k id Hk.
    rewrite list_lookup_fmap, Hx by (by eapply list_elem_of_lookup_2). by rewrite (R1 k id Hk). }
  unfold Coord.truncate_full. destruct ags as [|g0 gs] eqn:Eags; [split; [done|set_solver]|].
  destruct (is_full (sg_spec g0)) eqn:Ef0.
  2: { split; [done|]. intros g [i Hg]%list_elem_of_lookup. eapply Hplain; [done|done|].
       destruct i as [|i]; simpl in Hg; [by injection Hg as <-|]. apply (gv_head Hv i g). by rewrite Eags. }
  split; [by rewrite Hl|]. intros g Hin. pose proof Hin as [i Hg]%list_elem_of_lookup.
  assert (Hnd : NoDup (sg_group_ids g0)) by (apply (gv_nodup Hv); rewrite Eags; set_solver).
  destruct i as [|i].
  - simpl in Hg. injection Hg as <-. destruct (Hf 0%nat g0 eq_refl) as (rows & R1 & R2 & R3 & _).
    destruct (good_take g0 rows hl) as [G1 G2]; [by rewrite Eags; set_solver|done|done|lia|done|].
    exists (take (Z.to_nat (hl / bs g0)) rows). split; [done|]. split; [unfold good in G1; by rewrite G2 in G1|].
    intros k id Hk. rewrite list_lookup_fmap, foldl_alter_lookup, decide_True, (R1 k id Hk);
      [simpl; by rewrite fmap_take|by eapply list_elem_of_lookup_2|done].
  - eapply (Hplain (S i)); [done| |by apply (gv_head Hv i g); rewrite Eags].
    intros x Hx. rewrite foldl_alter_lookup, decide_False; [done| |done].
    apply (gv_disjoint Hv (S i) 0%nat g g0 x); rewrite ?Eags; done.
Qed.
End hybrid_spec.

(** The search, with all that is known of its result *)
Lemma hybrid_find_ok cache nb hbs align ags hashes max_length N :
  groups_valid hbs align ags hashes max_length N → ags ≠ [] →
  ∃ res hl, Coord.hybrid_find cache nb hbs align ags hashes max_length N = Ok (res, hl) ∧
    0 ≤ hl ≤ max_length ∧ hl mod align = 0 ∧ length res = N ∧
    ∀ g, g ∈ ags → group_hit cache nb hbs align hashes hl res g.
Proof.
  intros Hv Hne. unfold Coord.hybrid_find.
  destruct (loop_ends cache nb hbs align ags hashes max_length N Hv (S (Z.to_nat max_length)) true max_length
    (replicate N None) ∅ Hne) as (hl & hits & -> & Hhl & Hal & Hf); [lia|lia| |].
  - pose proof (gv_max _ _ _ _ _ _ Hv). split; simpl; [by rewrite length_replicate|lia|by intros [|]; lia| |].
    + intros i g _ [|[_ ?]]; [lia|done].
    + intros _ _ i Hi. by apply lookup_replicate_2.
  - cbn [mbind res_bind]. destruct (truncate_fits cache nb hbs align ags hashes max_length N Hv hl hits) as [T1 T2];
      [lia|done|done|].
    eexists _, hl. split; [done|]. rewrite length_fmap. done.
Qed.


(** ** Witness, and two inputs outside the conditions *)

(** Blocks [b] of group [g] under the hash [[b mod 100]]. *)
Definition group_cache (g : Z) (bs : list loc) : gmap bytes cache_entry :=
  list_to_map ((λ b, ([Z.of_nat (b mod 100); 0; 0; 0; g], ESingle b)) <$> bs).
Definition full_spec (layout : Z) (k : full_kind) : KVCacheSpec := mkSpec 16 layout (FullAttention k).
Definition window_spec : KVCacheSpec := mkSpec 16 2 (SlidingWindow 32 false).

Definition demo_ags : list SpecGroup := [mkSG (full_spec 0 FKFull) [0%nat] true; mkSG window_spec [1%nat] true].


(** With a Mamba group under EAGLE the result is not a hit of every group.
    The Mamba search does not drop the lookahead block, so it returns a length
    above the candidate, and the loop accepts it: of 96 tokens said to be cached,
    the group of full attention has 80. *)
Theorem mamba_eagle_overshoots :
  let mamba := mkSpec 16 2 (Mamba ModeAll 0) in
  Coord.hybrid_find (group_cache 0 (seq 1 6) ∪ group_cache 1 [106%nat]) 0 16 16
    [mkSG (full_spec 0 FKFull) [0%nat] true; mkSG mamba [1%nat] true] (demo_hashes 7) 96 2
  = Ok ([[1; 2; 3; 4; 5]; [0; 0; 0; 0; 0; 106]]%nat, 96).
Proof. vm_compute. reflexivity. Qed.

(** Only the first group of full attention is cut to the final length.  With
    two specifications of full attention and a sliding window that shortens the
    hit to 64 tokens, the second keeps its list of 96 tokens. *)
Theorem second_full_not_truncated :
  Coord.hybrid_find
    (group_cache 0 (seq 1 6) ∪ group_cache 1 (seq 101 6) ∪ group_cache 2 (seq 201 4)) 0 16 16
    [mkSG (full_spec 0 FKFull) [0%nat] false; mkSG (full_spec 1 FKTQ) [1%nat] false;
     mkSG window_spec [2%nat] false] (demo_hashes 7) 112 3
  = Ok ([[1; 2; 3; 4]; [101; 102; 103; 104; 105; 106]; [0; 0; 203; 204]]%nat, 64).
Proof. vm_compute. reflexivity. Qed.
