(* ===== verification/KVCacheManager.v ===== *)
(** * The KV-cache manager

    [KVCacheManager] and [KVCacheBlocks] of [vllm/v1/core/kv_cache_manager.py]:
    what the scheduler calls.  A method runs on the record of the manager, which
    contains the coordinator, its managers and the pool. *)
From S2P Require Import Prelude FreeQueue Request BlockHash BlockPool KVSpec CacheHit SingleType Coordinator.

(** [KVCacheBlocks]; the code compares with the pre-built empty object by
    identity, so it is a constructor of its own. *)
Inductive KVCacheBlocks := EmptyBlocks (num_groups : nat) | Blocks (bs : list (list loc)).

Definition kb_blocks (k : KVCacheBlocks) : list (list loc) :=
  match k with EmptyBlocks n => replicate n [] | Blocks bs => bs end.

(** [__add__] *)
Definition kb_add (a b : KVCacheBlocks) : KVCacheBlocks :=
  Blocks (zip_with app (kb_blocks a) (kb_blocks b)).

Definition kb_get_block_ids (h : heap) (k : KVCacheBlocks) (allow_none : bool) : option (list (list Z)) :=
  if allow_none && forallb (λ g, len g =? 0) (kb_blocks k) then None
  else Some (map (λ g, map (id_of h) g) (kb_blocks k)).

Definition kb_get_unhashed_block_ids (h : heap) (k : KVCacheBlocks) : res (list Z) :=
  match kb_blocks k with
  | [g] => Ok (map (id_of h) (filter (λ b, hash_of h b = None) g))
  | _ => Raise AssertionError
  end.

Definition kb_get_unhashed_block_ids_all_groups (h : heap) (k : KVCacheBlocks) : list (list Z) :=
  map (λ g, map (id_of h) (filter (λ b, hash_of h b = None ∧ null_of h b = false) g)) (kb_blocks k).

Definition kb_new_empty (k : KVCacheBlocks) : KVCacheBlocks :=
  Blocks (replicate (length (kb_blocks k)) []).

(** *** Statistics *)
Record PrefixCacheStats := mkStats {
  st_reset : bool; st_requests : Z; st_queries : Z; st_hits : Z;
  st_preempted_requests : Z; st_preempted_queries : Z; st_preempted_hits : Z;
}.
Definition new_stats : PrefixCacheStats := mkStats false 0 0 0 0 0 0.

Definition stats_record (num_tokens num_hits : Z) (preempted : bool) (s : PrefixCacheStats) : PrefixCacheStats :=
  if preempted
  then mkStats (st_reset s) (st_requests s) (st_queries s) (st_hits s)
         (st_preempted_requests s + 1) (st_preempted_queries s + num_tokens) (st_preempted_hits s + num_hits)
  else mkStats (st_reset s) (st_requests s + 1) (st_queries s + num_tokens) (st_hits s + num_hits)
         (st_preempted_requests s) (st_preempted_queries s) (st_preempted_hits s).

Definition stats_set_reset (s : PrefixCacheStats) : PrefixCacheStats :=
  mkStats true (st_requests s) (st_queries s) (st_hits s)
    (st_preempted_requests s) (st_preempted_queries s) (st_preempted_hits s).

(** *** The metadata attached to events *)
Inductive KVCacheSpecKind :=
  | KIND_FULL | KIND_MLA | KIND_SLIDING | KIND_SLIDING_MLA | KIND_MAMBA | KIND_CHUNKED | KIND_SINK | KIND_CROSS.

Definition get_kv_cache_spec_kind (s : KVCacheSpec) : KVCacheSpecKind :=
  match kind s with
  | SlidingWindow _ true => KIND_SLIDING_MLA
  | FullAttention (FKMLA | FKHiddenState) => KIND_MLA
  | FullAttention (FKSink _) => KIND_SINK
  | FullAttention _ => KIND_FULL
  | ChunkedLocal _ => KIND_CHUNKED
  | SlidingWindow _ false => KIND_SLIDING
  | Mamba _ _ => KIND_MAMBA
  | CrossAttention => KIND_CROSS
  end.

Definition get_kv_cache_spec_sliding_window (s : KVCacheSpec) : option Z :=
  match kind s with SlidingWindow w _ => Some w | _ => None end.

Record KVCacheManager := mkKM {
  km_coord : Coordinator;
  km_max_model_len : Z;
  km_enable_caching : bool;
  km_log_stats : bool;
  km_stats : option PrefixCacheStats;
}.

Definition km_set_coord (c : Coordinator) (k : KVCacheManager) : KVCacheManager :=
  mkKM c (km_max_model_len k) (km_enable_caching k) (km_log_stats k) (km_stats k).
Definition km_set_stats (s : option PrefixCacheStats) (k : KVCacheManager) : KVCacheManager :=
  mkKM (km_coord k) (km_max_model_len k) (km_enable_caching k) (km_log_stats k) s.

Definition on_coord {A} (op : M Coordinator A) : M KVCacheManager A := zoom km_coord km_set_coord op.

Module KVManager.

Definition num_kv_cache_groups (k : KVCacheManager) : nat := length (kv_cache_groups (c_config (km_coord k))).

Definition init (config : KVCacheConfig) (max_model_len scheduler_block_size hash_block_size : Z)
    (max_num_batched_tokens : option Z) (enable_caching use_eagle log_stats enable_kv_cache_events use_int : bool)
    (dcp_world_size pcp_world_size : Z) (retention_interval : option Z) : res KVCacheManager :=
  c ← Coord.init config max_model_len (default max_model_len max_num_batched_tokens) use_eagle
        enable_caching enable_kv_cache_events use_int dcp_world_size pcp_world_size
        scheduler_block_size hash_block_size retention_interval;
  Ok (mkKM c max_model_len enable_caching log_stats (if log_stats then Some new_stats else None)).

(** [create_kv_cache_blocks] *)
Definition create_kv_cache_blocks (k : KVCacheManager) (bs : list (list loc)) : KVCacheBlocks :=
  if existsb (λ g, negb (len g =? 0)) bs then Blocks bs else EmptyBlocks (num_kv_cache_groups k).

Definition usage (k : KVCacheManager) : Z * Z := Pool.get_usage (c_pool (km_coord k)).

Definition make_prefix_cache_stats : M KVCacheManager (option PrefixCacheStats) :=
  k ← get;
  if negb (km_log_stats k) then mret None
  else _ ← modify (km_set_stats (Some new_stats)); mret (km_stats k).

Definition get_computed_blocks (request : Request) : M KVCacheManager (KVCacheBlocks * Z) :=
  k ← get;
  if negb (km_enable_caching k) || skip_reading_prefix_cache request
  then mret (EmptyBlocks (num_kv_cache_groups k), 0)
  else
    '(computed, num_new_computed_tokens) ←
      of_res (Coord.find_longest_cache_hit (km_coord k) (block_hashes request) (num_tokens request - 1));
    _ ← (if km_log_stats k
         then st ← of_opt AssertionError (km_stats k);
              modify (km_set_stats (Some (stats_record (num_tokens request) num_new_computed_tokens
                                            (0 <? num_preemptions request) st)))
         else mret tt);
    mret (create_kv_cache_blocks k computed, num_new_computed_tokens).

(** [new_computed_block_list is not self.empty_kv_cache_blocks.blocks] *)
Definition is_empty_object (k : KVCacheBlocks) : bool :=
  match k with EmptyBlocks _ => true | Blocks _ => false end.

(** The admission gate: the whole sequence must fit. *)
Definition full_sequence_fits (request : Request) (new_blocks : list (list loc))
    (num_encoder_tokens total_computed_tokens : Z) : M KVCacheManager bool :=
  k ← get;
  let full_num_tokens := Z.min (num_tokens request) (km_max_model_len k) in
  n ← on_coord (Coord.get_num_blocks_to_allocate (request_id request) full_num_tokens new_blocks
                  num_encoder_tokens total_computed_tokens full_num_tokens true);
  free ← on_coord (on_cpool Pool.get_num_free_blocks);
  mret (n <=? free).

(** The new blocks are allocated and the full blocks cached. *)
Definition grow_slots (request : Request)
    (num_new_tokens total_computed_tokens num_tokens_need_slot num_tokens_main_model
     num_encoder_tokens : Z) (delay_cache_blocks : bool)
    : M KVCacheManager (option KVCacheBlocks * Request) :=
  k ← get;
  new_blocks ← on_coord (Coord.allocate_new_blocks (request_id request) num_tokens_need_slot
                           num_tokens_main_model num_encoder_tokens);
  if negb (km_enable_caching k) || delay_cache_blocks
  then mret (Some (create_kv_cache_blocks k new_blocks), request)
  else
    let num_tokens_to_cache := Z.min (total_computed_tokens + num_new_tokens) (num_tokens request) in
    request' ← on_coord (Coord.cache_blocks request num_tokens_to_cache);
    mret (Some (create_kv_cache_blocks k new_blocks), request').

(** What [allocate_slots] does once the blocks are known to fit: the hits are
    entered first. *)
Definition commit_slots (request : Request) (new_computed : KVCacheBlocks)
    (num_new_tokens num_local_computed_tokens num_external_computed_tokens total_computed_tokens
     num_tokens_need_slot num_tokens_main_model num_encoder_tokens : Z) (delay_cache_blocks : bool)
    : M KVCacheManager (option KVCacheBlocks * Request) :=
  _ ← (if negb (is_empty_object new_computed) || (0 <? num_external_computed_tokens)
       then on_coord (Coord.allocate_new_computed_blocks (request_id request) (kb_blocks new_computed)
                        num_local_computed_tokens num_external_computed_tokens)
       else mret tt);
  grow_slots request num_new_tokens total_computed_tokens num_tokens_need_slot num_tokens_main_model
    num_encoder_tokens delay_cache_blocks.

(** Returns the new blocks, or [None] when there are not enough free blocks;
    and the request, whose memo of digests may be filled. *)
Definition allocate_slots (request : Request) (num_new_tokens num_new_computed_tokens : Z)
    (new_computed_blocks : option KVCacheBlocks)
    (num_lookahead_tokens num_external_computed_tokens : Z) (delay_cache_blocks : bool)
    (num_encoder_tokens : Z) (full_sequence_must_fit : bool) (reserved_blocks : Z)
    : M KVCacheManager (option KVCacheBlocks * Request) :=
  if (num_new_tokens =? 0) && (num_external_computed_tokens =? 0) then raise ValueError
  else
    k ← get;
    let new_computed := default (EmptyBlocks (num_kv_cache_groups k)) new_computed_blocks in
    let blocks := kb_blocks new_computed in
    let rid := request_id request in
    let num_local_computed_tokens := num_computed_tokens request + num_new_computed_tokens in
    let total_computed_tokens :=
      Z.min (num_local_computed_tokens + num_external_computed_tokens) (km_max_model_len k) in
    fits ← (if full_sequence_must_fit
            then full_sequence_fits request blocks num_encoder_tokens total_computed_tokens
            else mret true);
    if negb fits then mret (None, request)
    else
      let num_tokens_main_model := total_computed_tokens + num_new_tokens in
      let num_tokens_need_slot := Z.min (num_tokens_main_model + num_lookahead_tokens) (km_max_model_len k) in
      _ ← on_coord (Coord.remove_skipped_blocks rid total_computed_tokens);
      n ← on_coord (Coord.get_num_blocks_to_allocate rid num_tokens_need_slot blocks num_encoder_tokens
                      (num_local_computed_tokens + num_external_computed_tokens) num_tokens_main_model false);
      free ← on_coord (on_cpool Pool.get_num_free_blocks);
      if free - reserved_blocks <? n then mret (None, request)
      else
        commit_slots request new_computed num_new_tokens num_local_computed_tokens
          num_external_computed_tokens total_computed_tokens num_tokens_need_slot num_tokens_main_model
          num_encoder_tokens delay_cache_blocks.

Definition free (request : Request) : M KVCacheManager () :=
  on_coord (Coord.free (request_id request)).

Definition remove_skipped_blocks (rid : string) (total_computed_tokens : Z) : M KVCacheManager () :=
  on_coord (Coord.remove_skipped_blocks rid total_computed_tokens).

Definition evict_blocks (block_ids : list loc) : M KVCacheManager () :=
  on_coord (on_cpool (Pool.evict_blocks block_ids)).

Definition reset_prefix_cache : M KVCacheManager bool :=
  ok ← on_coord (on_cpool Pool.reset_prefix_cache);
  if negb ok then mret false
  else
    k ← get;
    _ ← (if km_log_stats k
         then st ← of_opt AssertionError (km_stats k);
              modify (km_set_stats (Some (stats_set_reset st)))
         else mret tt);
    mret true.

Definition get_num_common_prefix_blocks (rid : string) : M KVCacheManager (list Z) :=
  on_coord (Coord.get_num_common_prefix_blocks rid).

(** A stored event with the kind and the window of its group; [None] for an
    event that is not annotated. *)
Definition annotate (config : KVCacheConfig) (e : KVCacheEvent)
    : KVCacheEvent * option (KVCacheSpecKind * option Z) :=
  (e, match e with
      | BlockStored _ _ _ _ _ _ _ g =>
          if (g <? 0) || (len (kv_cache_groups config) <=? g) then None
          else (λ s, (get_kv_cache_spec_kind (kv_cache_spec s), get_kv_cache_spec_sliding_window (kv_cache_spec s)))
                 <$> kv_cache_groups config !! Z.to_nat g
      | _ => None
      end).

Definition take_events : M KVCacheManager (list (KVCacheEvent * option (KVCacheSpecKind * option Z))) :=
  k ← get;
  events ← on_coord (on_cpool Pool.take_events);
  mret (annotate (c_config (km_coord k)) <$> events).

Definition get_blocks (k : KVCacheManager) (rid : string) : KVCacheBlocks :=
  create_kv_cache_blocks k (Coord.get_blocks (km_coord k) rid).

Definition get_block_ids (k : KVCacheManager) (rid : string) : option (list (list Z)) :=
  kb_get_block_ids (pool_heap (c_pool (km_coord k))) (get_blocks k rid) false.

Definition cache_blocks (request : Request) (num_computed_tokens : Z) : M KVCacheManager Request :=
  k ← get;
  if km_enable_caching k then on_coord (Coord.cache_blocks request num_computed_tokens) else mret request.

Definition take_new_block_ids : M KVCacheManager (list Z) :=
  k ← get;
  ids ← on_coord (mapM_ (λ i, on_mgr i SingleType.take_new_block_ids) (Coord.seq_mgrs (km_coord k)));
  mret (concat ids).

Definition new_step_starts : M KVCacheManager () := on_coord Coord.new_step_starts.

End KVManager.

(** ** Invariant

    [kv_inv k fr]: the system's invariant with free queue [fr], and what the
    constructor establishes. *)
Record kv_inv (k : KVCacheManager) (fr : list loc) : Prop := {
  ki_sys : sys_inv (km_coord k) fr;
  ki_ok : coord_ok (km_coord k);
  ki_caching : km_enable_caching k = enable_caching (c_pool (km_coord k));
  ki_groups : KVManager.num_kv_cache_groups k = Coord.num_managers (km_coord k);
}.

(** A request as the scheduler keeps it: one hash per full hash block. *)
Record request_ok (r : Request) (hbs : Z) : Prop := {
  rk_hashes : len (block_hashes r) = num_tokens r / hbs;
  rk_sorted : mm_sorted (mm_features r);
  rk_memo : memo_ok r;
}.

Lemma kv_inv_coord k c fr fr' :
  kv_inv k fr → same_coord (km_coord k) c → sys_inv c fr' → kv_inv (km_set_coord c k) fr'.
Proof.
  intros [H1 H2 H3 H4] Hs Hc. split; simpl; [done|by eapply same_coord_ok| |].
  - destruct Hs as (_&_&_&_&_&_&_&Hf&_). by rewrite (pf_caching _ _ Hf).
  - unfold KVManager.num_kv_cache_groups in *. simpl. pose proof (same_coord_length _ _ Hs).
    destruct Hs as (_&->&_). rewrite H4. unfold Coord.num_managers. lia.
Qed.

(** The number of tokens that [Coord.cache_blocks] caches of [n] in a manager. *)
Definition tokens_cached (c : Coordinator) (n : Z) (m : Manager) : Z :=
  match c_kind c with
  | Hybrid _ => Coord.hybrid_tokens_to_cache (c_scheduler_block_size c) n m
  | _ => n
  end.

Lemma tokens_cached_le c n m : 0 < c_scheduler_block_size c → tokens_cached c n m ≤ n.
Proof.
  intros Hs. unfold tokens_cached, Coord.hybrid_tokens_to_cache. destruct (c_kind c); [lia..|].
  pose proof (Z.mul_div_le n _ Hs). destruct (_ && _); lia.
Qed.

(** Hashes and blocks reach the tokens to cache. *)
Lemma cacheable_all c fr r n i m :
  sys_inv c fr → coord_ok c → enable_caching (c_pool c) = true → request_ok r (hash_block_size (c_pool c)) →
  n ≤ num_tokens r → c_managers c !! i = Some m → n / m_block_size m ≤ len (blocks_of m (request_id r)) →
  cacheable (mkMS (c_pool c) m) r (tokens_cached c n m).
Proof.
  intros Hs Ho Hca [R1 R2 R3] Hn Hi Hlen.
  destruct (si_mgr _ _ Hs i m Hi) as [Hm _]. pose proof (mi_bs _ _ _ Hm) as Hbs. pose proof (ok_hbs _ Ho) as Hhbs.
  pose proof (tokens_cached_le c n m (ok_sbs _ Ho)) as Hle.
  assert (tokens_cached c n m / m_block_size m ≤ n / m_block_size m) by (apply Z.div_le_mono; lia).
  pose proof (ok_mod _ Ho i m Hca Hi) as Hmod.
  split; simpl; try done; [by eapply ok_group|by eapply ok_sched|lia|].
  rewrite group_hashes_length by done. rewrite R1, Z.div_div; [|lia|].
  - apply Z.mod_divide in Hmod as [q Hq]; [|lia]. rewrite Hq, Z.div_mul, (Z.mul_comm _ q), <- Hq by lia.
    etrans; [done|]. apply Z.div_le_mono; lia.
  - apply Z.mod_divide in Hmod as [q Hq]; [|lia]. rewrite Hq, Z.div_mul by lia. nia.
Qed.

(** *** [grow_slots] *)

(** What growing makes of a manager: the request gets [fresh] blocks up to [n]
    tokens; [cached] is the number of tokens to cache, when there is caching. *)
Definition grown (c : Coordinator) (rid : string) (n : Z) (cached : option Z) (fresh : list loc)
    (m m' : Manager) : Prop :=
  len fresh = missing_blocks m rid n ∧
  (∀ r, blocks_of m' r = if decide (r = rid) then blocks_of m rid ++ fresh else blocks_of m r) ∧
  ∀ r, num_cached m' r =
    if decide (r = rid)
    then match cached with
         | Some t => Z.max (num_cached m rid) (tokens_cached c t m / m_block_size m)
         | None => num_cached m rid
         end
    else num_cached m r.

(** All managers have grown: [new] are the new blocks of each, and they come
    from the head of the free queue. *)
Record all_grown (k : KVCacheManager) (fr : list loc) (rid : string) (n : Z) (cached : option Z)
    (new : list (list loc)) (k' : KVCacheManager) (fr' : list loc) : Prop := {
  ag_coord : same_coord (km_coord k) (km_coord k');
  ag_inv : kv_inv k' fr';
  ag_free : fr = concat new ++ fr';
  ag_count : len (concat new) = all_missing (c_managers (km_coord k)) rid n;
  ag_length : length new = Coord.num_managers (km_coord k);
  ag_mgr i m m' : c_managers (km_coord k) !! i = Some m → c_managers (km_coord k') !! i = Some m' →
    ∃ f, new !! i = Some f ∧ grown (km_coord k) rid n cached f m m';
}.

Lemma missing_total m rid n f :
  0 < m_block_size m → len f = missing_blocks m rid n → n / m_block_size m ≤ len (blocks_of m rid ++ f).
Proof.
  intros Hbs Hf. rewrite length_app. unfold missing_blocks in Hf. pose proof (div_le_cdiv n _ Hbs). lia.
Qed.

Section grow.
Context (k : KVCacheManager) (fr : list loc) (r : Request).
Context (Hk : kv_inv k fr) (Hr : request_ok r (hash_block_size (c_pool (km_coord k)))).
Abbreviation c := (km_coord k).
Abbreviation rid := (request_id r).

Lemma allocated_all n new c1 :
  allocated_until c fr rid n new (Coord.num_managers c) c1 →
  ∃ fr1, sys_inv c1 fr1 ∧ same_coord c c1 ∧ fr = concat new ++ fr1 ∧ length new = Coord.num_managers c ∧
    len (concat new) = all_missing (c_managers c) rid n ∧
    ∀ i m', c_managers c1 !! i = Some m' → ∃ m f, c_managers c !! i = Some m ∧ same_config m m' ∧
      new !! i = Some f ∧ extended rid n f m m'.
Proof.
  intros [Hlen V]. destruct (vi_sys _ _ _ _ _ V) as (fr1 & Hs1 & Hfr & Hsum).
  rewrite take_ge in Hsum by done. exists fr1. split_and!; [done|apply V|done..|].
  intros i m' Hi. destruct (visited_mgr _ _ _ _ _ _ V Hi) as (m & Hm & Hcfg & f & Hf & Hext). eauto 10.
Qed.

Lemma grow_slots_spec num_new total n main enc delay :
  all_missing (c_managers c) rid n ≤ len fr → Z.min (total + num_new) (num_tokens r) ≤ n →
  let cached := if negb (km_enable_caching k) || delay then None
                else Some (Z.min (total + num_new) (num_tokens r)) in
  wp (KVManager.grow_slots r num_new total n main enc delay)
    (λ '(o, r') k', memo_frame r r' ∧ ∃ new fr', o = Some (KVManager.create_kv_cache_blocks k new) ∧
       all_grown k fr rid n cached new k' fr') k.
Proof.
  intros Hfit Hn cached. pose proof (ki_sys _ _ Hk) as Hs. pose proof (ki_ok _ _ Hk) as Ho.
  unfold KVManager.grow_slots, on_coord. wp_step.
  eapply wp_mono; [apply (allocate_all c fr Hs (ok_plain _ Ho) rid n main enc Hfit)|].
  intros new c1 (fr1 & Hs1 & Hco & Hfr & Hlen & Hsum & Hmgr)%allocated_all.
  assert (Hbs : ∀ i m, c_managers c !! i = Some m → 0 < m_block_size m).
  { intros i m Hi. apply (mi_bs _ _ _ (proj1 (si_mgr _ _ Hs i m Hi))). }
  assert (Hmf : memo_frame r r) by apply memo_frame_refl, Hr.
  assert (Hdone : ∀ c' r', sys_inv c' fr1 → same_coord c c' → memo_frame r r' →
    (∀ i m m', c_managers c !! i = Some m → c_managers c' !! i = Some m' → ∃ f, new !! i = Some f ∧ grown c rid n cached f m m') →
    memo_frame r r' ∧ ∃ new0 fr', Some (KVManager.create_kv_cache_blocks k new) = Some (KVManager.create_kv_cache_blocks k new0) ∧
      all_grown k fr rid n cached new0 (km_set_coord c' k) fr').
  { intros c' r' Hs' Hco' Hr' Hg. split; [done|]. exists new, fr1. split; [done|].
    split; simpl; try done. by eapply kv_inv_coord. }
  subst cached. destruct (negb (km_enable_caching k) || delay) eqn:Ed; wp_step.
  { apply Hdone; [done..|]. intros i m m' Hm Hm'.
    destruct (Hmgr i m' Hm') as (m0 & f & Hm0 & _ & Hf & E1 & E2 & E3). simplify_eq. exists f.
    split; [done|]. split_and!; [done|done|]. intros q. rewrite E2. case_decide; by subst. }
  apply orb_false_iff in Ed as [Eca%negb_false_iff _]. rewrite (ki_caching _ _ Hk) in Eca.
  set (t := Z.min _ _) in *. simpl. unfold Coord.cache_blocks. wp_step.
  pose proof Hco as (Ek&_&_&Esbs&_&_&_&Hpf&_). rewrite Ek, Esbs.
  set (T := match c_kind c with Hybrid _ => _ | _ => _ end).
  assert (HT : ∀ m, T m = tokens_cached c t m) by (intros m; unfold T, tokens_cached; by destruct (c_kind c)).
  clearbody T.
  assert (Ho1 : coord_ok c1) by (by eapply same_coord_ok).
  assert (Etc : ∀ m, tokens_cached c1 t m = tokens_cached c t m).
  { intros m. unfold tokens_cached. by rewrite Ek, Esbs. }
  eapply wp_mono.
  - apply (cache_over_spec c1 fr1 Hs1 (ok_plain _ Ho1) T _ r); [|apply Hr].
    intros i m' Hi. rewrite HT, <- Etc. destruct (Hmgr i m' Hi) as (m & f & Hm & Hcfg & Hf & E1 & E2 & E3).
    eapply (cacheable_all c1); [done|done| | | |exact Hi|].
    + by rewrite (pf_caching _ _ Hpf).
    + by rewrite (pf_hbs _ _ Hpf).
    + lia.
    + destruct Hcfg as (_ & Eb & _). rewrite E1, decide_True, Eb by done.
      etrans; [|exact (missing_total m rid n f (Hbs i m Hm) E3)].
      apply Z.div_le_mono; [by eapply Hbs|lia].
  - intros r' c2 [Hr' V]. wp_step. simpl. destruct (vi_sys _ _ _ _ _ V) as (? & Hs2 & ->).
    pose proof (vi_coord _ _ _ _ _ V) as Hco2. apply Hdone; [done|by etrans|done|].
    intros i m m2 Hm Hm2. destruct (visited_mgr _ _ _ _ _ _ V Hm2) as (m1 & Hm1 & Hcfg2 & G1 & G2).
    destruct (Hmgr i m1 Hm1) as (m0 & f & Hm0 & Hcfg & Hf & E1 & E2 & E3). simplify_eq. exists f.
    split; [done|]. split_and!; [done|intros q; by rewrite G1, E1|]. intros q. rewrite G2, !E2.
    destruct Hcfg as (_ & Eb & _ & _ & _ & _ & _ & Eu).
    rewrite HT. assert (tokens_cached c t m1 = tokens_cached c t m) as ->; [|by rewrite Eb].
    unfold tokens_cached, Coord.hybrid_tokens_to_cache. by rewrite Eb, Eu.
Qed.
End grow.

(** *** Skipping, counting and growing *)

(** The part of [allocate_slots] before the commit, given what each step makes
    of the coordinator. *)
Lemma all_missing_ext rid n ms ms' :
  length ms = length ms' →
  (∀ i m m', ms !! i = Some m → ms' !! i = Some m' → missing_blocks m' rid n = missing_blocks m rid n) →
  all_missing ms' rid n = all_missing ms rid n.
Proof.
  revert ms'. induction ms as [|m ms IH]; intros [|m' ms'] Hl H; simpl in *; try done.
  rewrite (IH ms'); [|lia|intros i x x'; apply (H (S i))]. by rewrite (H 0%nat m m').
Qed.

Lemma skipped_length rid t nb m m' :
  skipped_from rid t nb m m' → len (blocks_of m' rid) = len (blocks_of m rid).
Proof.
  intros (i & s & -> & Hi & _ & _ & E). rewrite E, !length_app, length_take, length_replicate, length_drop.
  unfold num_skipped_blocks in *. lia.
Qed.

Section allocate.
Context (k : KVCacheManager) (fr : list loc) (r : Request).
Context (Hk : kv_inv k fr) (Hr : request_ok r (hash_block_size (c_pool (km_coord k)))).
Abbreviation c := (km_coord k).
Abbreviation rid := (request_id r).

Lemma gate_spec (gate : bool) blocks enc t :
  (∀ n main, wp (Coord.get_num_blocks_to_allocate rid n blocks enc t main true) (λ _ c', c' = c) c) →
  wp (if gate then KVManager.full_sequence_fits r blocks enc t else mret true)
    (λ fits k', k' = k ∧ (gate = false → fits = true)) k.
Proof.
  intros Hcount. destruct gate; [|by wp_step]. unfold KVManager.full_sequence_fits, on_coord, on_cpool. wp_step.
  eapply wp_mono; [apply Hcount|]. intros a c' ->. wp_step. unfold Pool.get_num_free_blocks. wp_step. simpl.
  split; [|done]. destruct k; by destruct km_coord0.
Qed.

Lemma free_count_spec c1 fr1 Q :
  sys_inv c1 fr1 → Q (len fr1) c1 → wp (on_cpool Pool.get_num_free_blocks) Q c1.
Proof.
  intros Hs HQ. unfold on_cpool, Pool.get_num_free_blocks. wp_step.
  rewrite (pool_inv_free _ _ (si_pool _ _ Hs)). by destruct c1.
Qed.

(** What a call makes of the table of a running request: the blocks before the
    window become null blocks, and the new blocks follow. *)
Definition resumed (t n : Z) (f : list loc) (m m' : Manager) : Prop :=
  len f = missing_blocks m rid n ∧
  (∀ q, q ≠ rid → blocks_of m' q = blocks_of m q ∧ num_cached m' q = num_cached m q) ∧
  ∃ i s, s = num_skipped_blocks m rid t ∧ (i ≤ s)%nat ∧
    blocks_of m' rid =
      take i (blocks_of m rid) ++ replicate (s - i) (null_block (c_pool c)) ++ drop s (blocks_of m rid) ++ f.

Lemma skip_then_grow t n cached new c1 fr1 k' fr' :
  visited c (λ _, skipped_from rid t (null_block (c_pool c))) (λ f, f = fr1) (Coord.num_managers c) c1 →
  all_grown (km_set_coord c1 k) fr1 rid n cached new k' fr' →
  ∀ i m m', c_managers c !! i = Some m → c_managers (km_coord k') !! i = Some m' →
    ∃ f, new !! i = Some f ∧ resumed t n f m m'.
Proof.
  intros V [G1 _ _ _ _ G] i m m' Hm Hm'. simpl in *.
  destruct (same_coord_mgr _ _ _ _ G1 Hm') as (m1 & Hm1 & _).
  destruct (visited_mgr _ _ _ _ _ _ V Hm1) as (m0 & Hm0 & Hcfg & Hsk). simplify_eq.
  destruct (G i m1 m' Hm1 Hm') as (f & Hf & E1 & E2 & E3). exists f. split; [done|].
  pose proof (skipped_length _ _ _ _ _ Hsk) as El. destruct Hsk as (j & s & Es & Hj & S1 & S2 & S3).
  destruct Hcfg as (_ & Eb & _). split_and!.
  - rewrite E1. unfold missing_blocks. by rewrite Eb, El.
  - intros q Hq. rewrite E2, E3, !decide_False, S1, S2 by done. done.
  - exists j, s. split_and!; [done|done|]. by rewrite E2, decide_True, S3, <- !(assoc_L app) by done.
Qed.

(** What the skip leaves of the conditions for the steps after it. *)
Lemma after_skip t n c1 fr1 :
  visited c (λ _, skipped_from rid t (null_block (c_pool c))) (λ f, f = fr1) (Coord.num_managers c) c1 →
  sys_inv c1 fr1 ∧ kv_inv (km_set_coord c1 k) fr1 ∧
  (request_ok r (hash_block_size (c_pool c)) → request_ok r (hash_block_size (c_pool c1))) ∧
  (Forall (continuing rid t) (c_managers c) → Forall (continuing rid t) (c_managers c1)) ∧
  all_missing (c_managers c1) rid n = all_missing (c_managers c) rid n.
Proof.
  intros V. destruct (vi_sys _ _ _ _ _ V) as (? & Hs1 & ->). pose proof (vi_coord _ _ _ _ _ V) as Hco1.
  split_and!; [done|by eapply kv_inv_coord| | |].
  - by rewrite (pf_hbs _ _ ltac:(apply Hco1)).
  - intros Hcont. apply Forall_lookup. intros i m' Hm'.
    destruct (visited_mgr _ _ _ _ _ _ V Hm') as (m & Hm & Hcfg & Hsk).
    pose proof (Forall_lookup_1 _ _ _ _ Hcont Hm) as Hc. unfold continuing in *.
    rewrite (skipped_length _ _ _ _ _ Hsk). unfold SingleType.get_num_skipped_tokens in *.
    destruct Hcfg as (_ & -> & -> & _). done.
  - apply all_missing_ext; [symmetry; by apply same_coord_length|]. intros i m m' Hm Hm'.
    destruct (visited_mgr _ _ _ _ _ _ V Hm') as (m0 & Hm0 & (_ & Eb & _) & Hsk). simplify_eq.
    unfold missing_blocks. by rewrite (skipped_length _ _ _ _ _ Hsk), Eb.
Qed.
End allocate.

(** The outcome of [allocate_slots] for a request without new hits; [t] tokens
    are computed and [n] need a slot. *)
Definition running_post (k : KVCacheManager) (fr : list loc) (r : Request) (t n reserved : Z) (gate : bool)
    (o : option KVCacheBlocks) (r' : Request) (k' : KVCacheManager) : Prop :=
  let ms := c_managers (km_coord k) in
  let q := all_missing ms (request_id r) n in
  memo_frame r r' ∧
  ((gate = true ∧ o = None ∧ k' = k) ∨
   ∃ fr1 fr', len fr ≤ len fr1 ∧ kv_inv k' fr' ∧ same_coord (km_coord k) (km_coord k') ∧
     if decide (q ≤ len fr1 - reserved)
     then ∃ new, o = Some (KVManager.create_kv_cache_blocks k new) ∧ fr1 = concat new ++ fr' ∧
       len (concat new) = q ∧
       ∀ i m m', ms !! i = Some m → c_managers (km_coord k') !! i = Some m' →
         ∃ f, new !! i = Some f ∧ resumed k r t n f m m'
     else o = None ∧ fr' = fr1 ∧
       ∀ i m m', ms !! i = Some m → c_managers (km_coord k') !! i = Some m' →
         skipped_from (request_id r) t (null_block (c_pool (km_coord k))) m m').

Lemma run_slots_spec k fr r ncb num_new lookahead enc reserved delay gate :
  let c := km_coord k in
  let rid := request_id r in
  let t := num_computed_tokens r in
  let n := Z.min (t + num_new + lookahead) (km_max_model_len k) in
  kv_inv k fr → request_ok r (hash_block_size (c_pool c)) →
  default (EmptyBlocks (KVManager.num_kv_cache_groups k)) ncb = EmptyBlocks (KVManager.num_kv_cache_groups k) →
  num_new ≠ 0 → 0 ≤ lookahead → num_tokens r ≤ km_max_model_len k → t ≤ km_max_model_len k →
  0 ≤ reserved → Forall (continuing rid t) (c_managers c) →
  wp (KVManager.allocate_slots r num_new 0 ncb lookahead 0 delay enc gate reserved)
    (λ '(o, r') k', running_post k fr r t n reserved gate o r' k') k.
Proof.
  intros c rid t n Hk Hr Hncb Hnew Hla Hnt Ht Hres Hcont. subst c.
  pose proof (ki_sys _ _ Hk) as Hs. pose proof (ki_ok _ _ Hk) as Ho.
  unfold KVManager.allocate_slots. rewrite (proj2 (Z.eqb_neq _ _) Hnew). simpl. wp_step. rewrite Hncb. simpl.
  rewrite !Z.add_0_r, Z.min_l by done. fold rid t. fold n.
  rewrite (ki_groups _ _ Hk).
  assert (Hmf : memo_frame r r) by apply memo_frame_refl, Hr.
  eapply wp_mono; [apply (gate_spec k fr r Hk Hr); intros n' main|].
  { eapply wp_mono; [apply (count_continuing _ fr Hs (ok_plain _ Ho))|]. by intros a c' [-> _]. }
  intros fits ? [-> Hgate]. destruct fits; simpl; [|wp_step; split; [done|]; left; destruct gate; naive_solver].
  unfold on_coord. wp_step.
  eapply wp_mono; [apply (remove_skipped_all _ fr Hs (ok_plain _ Ho) rid t)|]. intros _ c1 (fr1 & V & Hfr1).
  destruct (after_skip k fr r Hk t n c1 fr1 V) as (Hs1 & Hk1 & Hr1 & Hcont1 & Emiss).
  specialize (Hr1 Hr). specialize (Hcont1 Hcont).
  pose proof (vi_coord _ _ _ _ _ V) as Hco1. pose proof (ki_ok _ _ Hk1) as Ho1. simpl in Ho1.
  simpl. replace (Coord.num_managers (km_coord k)) with (Coord.num_managers c1)
    by (by apply same_coord_length). wp_step.
  eapply wp_mono; [apply (count_continuing _ fr1 Hs1 (ok_plain _ Ho1) rid n enc t (t + num_new) false)|].
  intros a ? [-> Ha]. specialize (Ha eq_refl Hcont1). fold rid in Emiss. rewrite Emiss in Ha. wp_step. simpl.
  eapply free_count_spec; [exact Hs1|]. simpl.
  destruct (Z.ltb_spec (len fr1 - reserved) a) as [Hlt|Hge].
  - wp_step. split; [done|]. right. exists fr1, fr1. split; [done|]. split; [done|].
    split; [done|]. fold rid. rewrite decide_False by lia. split; [done|]. split; [done|]. intros i m m' Hm Hm'.
    destruct (visited_mgr _ _ _ _ _ _ V Hm') as (m0 & Hm0 & _ & Hsk). by simplify_eq.
  - unfold KVManager.commit_slots. simpl. wp_step.
    eapply wp_mono; [apply (grow_slots_spec (km_set_coord c1 k) fr1 r Hk1 Hr1 num_new t n (t + num_new) enc delay)|].
    + simpl. fold rid. rewrite Emiss. lia.
    + lia.
    + intros [o r'] k' (Hr' & new & fr' & -> & Hg). split; [done|]. right. exists fr1, fr'.
      split; [done|]. split; [apply Hg|]. split; [etrans; [exact Hco1|exact (ag_coord _ _ _ _ _ _ _ _ Hg)]|].
      fold rid. rewrite decide_True by lia. exists new. simpl.
      pose proof (ag_count _ _ _ _ _ _ _ _ Hg) as Hc. simpl in Hc. fold rid in Hc. rewrite Emiss in Hc.
      split_and!; [|apply Hg|done|by eapply (skip_then_grow k r t n)].
      unfold KVManager.create_kv_cache_blocks, KVManager.num_kv_cache_groups. simpl.
      destruct Hco1 as (_ & -> & _). done.
Qed.

(** *** A new request with hits *)
Lemma same_config_hits m m' t nb h :
  same_config m m' → skipped_hits m' t = skipped_hits m t ∧ entered m' nb h t = entered m nb h t ∧
    m_block_size m' = m_block_size m.
Proof.
  intros (_ & Eb & Es & _). unfold entered, skipped_hits, SingleType.get_num_skipped_tokens. by rewrite Eb, Es.
Qed.

Lemma kept_hits_same t ms ms' hits :
  Forall2 same_config ms ms' → kept_hits t ms' hits = kept_hits t ms hits.
Proof.
  intros H. revert hits. induction H as [|m m' ms ms' Hm _ IH]; intros [|h hits]; simpl; try done.
  destruct (same_config_hits m m' t 0%nat h Hm) as (-> & _). by rewrite IH.
Qed.

Lemma total_need_same c c1 fr n t hits :
  same_coord c c1 → total_need c1 fr n t hits = total_need c fr n t hits.
Proof.
  intros (_&_&_&_&_&_&_&Hf&Hms). unfold total_need, need. rewrite (pf_null _ _ Hf). f_equal.
  revert hits. induction Hms as [|m m' ms ms' Hm _ IH]; intros [|h hits]; simpl; try done.
  destruct (same_config_hits m m' t (null_block (c_pool c)) h Hm) as (-> & -> & ->). by rewrite IH.
Qed.

Lemma missing_entered rid n t nb ms ms' hits :
  length hits = length ms → length ms' = length ms →
  (∀ i m m', ms !! i = Some m → ms' !! i = Some m' → same_config m m' ∧ has_entered rid t nb hits i m m') →
  all_missing ms' rid n =
    foldr Z.add 0 (zip_with (λ m h, Z.max (cdiv n (m_block_size m) - len (entered m nb h t)) 0) ms hits).
Proof.
  revert ms' hits. induction ms as [|m ms IH]; intros [|m' ms'] [|h hits] Hl Hl' H; simpl in *; try done.
  destruct (H 0%nat m m' eq_refl eq_refl) as ((_ & Eb & _) & h' & Hh & Hbl & _). simpl in Hh. injection Hh as <-.
  rewrite (IH ms' hits); [|lia|lia|intros i; apply (H (S i))].
  unfold missing_blocks. rewrite Eb, Hbl, decide_True by done. lia.
Qed.

Section entering.
Context (k : KVCacheManager) (fr : list loc) (r : Request).
Context (Hk : kv_inv k fr) (Hr : request_ok r (hash_block_size (c_pool (km_coord k)))).
Abbreviation c := (km_coord k).
Abbreviation rid := (request_id r).
Abbreviation nb := (null_block (c_pool c)).

(** What the admission makes of the table: null blocks for the hits before the
    window, the other hits, and the new blocks. *)
Definition admitted (t n : Z) (h f : list loc) (m m' : Manager) : Prop :=
  len f = Z.max 0 (cdiv n (m_block_size m) - len (entered m nb h t)) ∧
  (∀ q, q ≠ rid → blocks_of m' q = blocks_of m q ∧ num_cached m' q = num_cached m q) ∧
  blocks_of m' rid = entered m nb h t ++ f.

Lemma enter_then_grow t n hits cached new c1 c2 fr2 k' fr' :
  visited c (λ _ m m', new_to rid m' ∧ untouched m m') (λ f, f = fr) (Coord.num_managers c) c1 →
  visited c1 (has_entered rid t nb hits) (λ f, f = fr2) (Coord.num_managers c1) c2 →
  all_grown (km_set_coord c2 k) fr2 rid n cached new k' fr' →
  ∀ i m m', c_managers c !! i = Some m → c_managers (km_coord k') !! i = Some m' →
    ∃ h f, hits !! i = Some h ∧ new !! i = Some f ∧ admitted t n h f m m'.
Proof.
  intros V1 V2 [G1 _ _ _ _ G] i m m' Hm Hm'. simpl in *.
  destruct (same_coord_mgr _ _ _ _ G1 Hm') as (m2 & Hm2 & _).
  destruct (visited_mgr _ _ _ _ _ _ V2 Hm2) as (m1 & Hm1 & Hcfg2 & h & Hh & B2 & N2).
  destruct (visited_mgr _ _ _ _ _ _ V1 Hm1) as (m0 & Hm0 & Hcfg1 & _ & B1 & N1). simplify_eq.
  destruct (G i m2 m' Hm2 Hm') as (f & Hf & E1 & E2 & E3). exists h, f. split; [done|]. split; [done|].
  destruct (same_config_hits m m1 t nb h Hcfg1) as (_ & Een & Eb1).
  destruct (same_config_hits m1 m2 t nb h Hcfg2) as (_ & _ & Eb2).
  split_and!.
  - rewrite E1. unfold missing_blocks. by rewrite Eb2, Eb1, B2, decide_True, Een by done.
  - intros q Hq. by rewrite E2, E3, !decide_False, B2, N2, !decide_False, B1, N1 by done.
  - by rewrite E2, decide_True, B2, decide_True, Een by done.
Qed.

Context (Hnew : Forall (new_to rid) (c_managers c)) (hits : list (list loc)).
Context (Hlen : length hits = Coord.num_managers c).
Context (Hhits : ∀ i m h, c_managers c !! i = Some m → hits !! i = Some h → hits_pre (mkMS (c_pool c) m) h).
Context (c1 : Coordinator) (Ep1 : c_pool c1 = c_pool c).
Context (V1 : visited c (λ _ m m', new_to rid m' ∧ untouched m m') (λ f, f = fr) (Coord.num_managers c) c1).

(** The skip does nothing to a new request: the conditions hold after it. *)
Lemma after_skip_new :
  kv_inv (km_set_coord c1 k) fr ∧ Forall (new_to rid) (c_managers c1) ∧
  length hits = Coord.num_managers c1 ∧
  ∀ i m h, c_managers c1 !! i = Some m → hits !! i = Some h → hits_pre (mkMS (c_pool c1) m) h.
Proof.
  destruct (vi_sys _ _ _ _ _ V1) as (? & Hs1 & ->). pose proof (vi_coord _ _ _ _ _ V1) as Hco1.
  split_and!.
  - by eapply kv_inv_coord.
  - apply Forall_lookup. intros i m' Hm'. by destruct (visited_mgr _ _ _ _ _ _ V1 Hm') as (m & _ & _ & ? & _).
  - rewrite Hlen. symmetry. by apply same_coord_length.
  - intros i m' h Hm' Hh. destruct (visited_mgr _ _ _ _ _ _ V1 Hm') as (m & Hm & (_&_&_&Eca&_) & _).
    specialize (Hhits i m h Hm Hh). unfold hits_pre in *. simpl in *. by rewrite Eca, Ep1.
Qed.

(** When the hits are entered, what was counted and is not a hit is still free. *)
Lemma after_enter t n c2 fr2 :
  visited c1 (has_entered rid t nb hits) (λ f, f = fr2) (Coord.num_managers c1) c2 →
  fr2 = without (concat (kept_hits t (c_managers c) hits)) fr →
  kv_inv (km_set_coord c2 (km_set_coord c1 k)) fr2 ∧
  request_ok r (hash_block_size (c_pool c2)) ∧
  all_missing (c_managers c2) rid n + (len fr - len fr2) ≤ total_need c fr n t hits.
Proof.
  intros V2 Efr2. destruct (vi_sys _ _ _ _ _ V2) as (? & Hs2 & ->).
  destruct after_skip_new as (Hk1 & _ & Hlen1 & _).
  pose proof (vi_coord _ _ _ _ _ V1) as Hco1. pose proof (vi_coord _ _ _ _ _ V2) as Hco2. split_and!.
  - by eapply kv_inv_coord.
  - by rewrite (pf_hbs _ _ ltac:(apply Hco2)), (pf_hbs _ _ ltac:(apply Hco1)).
  - pose proof (need_leaves_enough c1 fr n t hits Hlen1) as Hen.
    rewrite (total_need_same _ _ _ _ _ _ Hco1), Ep1, (kept_hits_same _ _ _ _ ltac:(apply Hco1)), <- Efr2 in Hen.
    rewrite <- (missing_entered rid n t _ _ (c_managers c2) hits) in Hen; [done|done|by apply same_coord_length|].
    intros i m m' Hm Hm'. destruct (visited_mgr _ _ _ _ _ _ V2 Hm') as (m0 & Hm0 & ? & ?). by simplify_eq.
Qed.
End entering.

(** The outcome of [allocate_slots] for a new request with hits. *)
Definition entering_post (k : KVCacheManager) (fr : list loc) (r : Request) (hits : list (list loc))
    (t n reserved : Z) (gate : bool) (o : option KVCacheBlocks) (r' : Request) (k' : KVCacheManager) : Prop :=
  let ms := c_managers (km_coord k) in
  memo_frame r r' ∧
  ((gate = true ∧ o = None ∧ k' = k) ∨
   ∃ fr', kv_inv k' fr' ∧ same_coord (km_coord k) (km_coord k') ∧
     if decide (total_need (km_coord k) fr n t hits ≤ len fr - reserved)
     then ∃ new, o = Some (KVManager.create_kv_cache_blocks k new) ∧
       without (concat (kept_hits t ms hits)) fr = concat new ++ fr' ∧
       ∀ i m m', ms !! i = Some m → c_managers (km_coord k') !! i = Some m' →
         ∃ h f, hits !! i = Some h ∧ new !! i = Some f ∧ admitted k r t n h f m m'
     else o = None ∧ fr' = fr ∧
       ∀ i m m', ms !! i = Some m → c_managers (km_coord k') !! i = Some m' → untouched m m').

Lemma enter_slots_spec k fr r hits num_new num_hit lookahead enc reserved delay gate :
  let c := km_coord k in
  let rid := request_id r in
  let t := num_computed_tokens r + num_hit in
  let n := Z.min (t + num_new + lookahead) (km_max_model_len k) in
  kv_inv k fr → request_ok r (hash_block_size (c_pool c)) →
  Forall (new_to rid) (c_managers c) → length hits = Coord.num_managers c →
  (∀ i m h, c_managers c !! i = Some m → hits !! i = Some h → hits_pre (mkMS (c_pool c) m) h) →
  num_new ≠ 0 → 0 ≤ lookahead → num_tokens r ≤ km_max_model_len k → t ≤ km_max_model_len k → 0 ≤ reserved →
  wp (KVManager.allocate_slots r num_new num_hit (Some (Blocks hits)) lookahead 0 delay enc gate reserved)
    (λ '(o, r') k', entering_post k fr r hits t n reserved gate o r' k') k.
Proof.
  intros c rid t n Hk Hr Hnew Hlen Hhits Hn0 Hla Hnt Ht Hres. subst c.
  pose proof (ki_sys _ _ Hk) as Hs. pose proof (ki_ok _ _ Hk) as Ho.
  unfold KVManager.allocate_slots. rewrite (proj2 (Z.eqb_neq _ _) Hn0). simpl. wp_step. simpl.
  fold t. rewrite !Z.add_0_r, Z.min_l by done. fold rid. fold n.
  assert (Hmf : memo_frame r r) by apply memo_frame_refl, Hr.
  eapply wp_mono; [apply (gate_spec k fr r Hk Hr); intros n' main|].
  { eapply wp_mono; [by apply (count_new _ fr Hs (ok_plain _ Ho) rid Hnew)|]. by intros a c' [-> _]. }
  intros fits ? [-> Hgate]. destruct fits; simpl; [|wp_step; split; [done|]; left; destruct gate; naive_solver].
  unfold on_coord. wp_step.
  eapply wp_mono; [apply (remove_skipped_new_all _ fr Hs (ok_plain _ Ho) rid Hnew t)|]. intros _ c1 [V1 Ep1].
  destruct (after_skip_new k fr r Hk hits Hlen Hhits c1 Ep1 V1) as (Hk1 & Hnew1 & Hlen1 & Hhits1).
  pose proof (vi_coord _ _ _ _ _ V1) as Hco1. pose proof (ki_sys _ _ Hk1) as Hs1. pose proof (ki_ok _ _ Hk1) as Ho1.
  simpl. wp_step.
  eapply wp_mono; [by apply (count_new c1 fr Hs1 (ok_plain _ Ho1) rid Hnew1)|].
  intros a ? [-> Ha]. specialize (Ha eq_refl). rewrite (total_need_same _ _ _ _ _ _ Hco1) in Ha. wp_step. simpl.
  eapply free_count_spec; [exact Hs1|]. simpl. subst a.
  destruct (Z.ltb_spec (len fr - reserved) (total_need (km_coord k) fr n t hits)) as [Hlt|Hge].
  { wp_step. split; [done|]. right. exists fr. split; [done|]. split; [done|]. rewrite decide_False by lia.
    split; [done|]. split; [done|]. intros i m m' Hm Hm'.
    destruct (visited_mgr _ _ _ _ _ _ V1 Hm') as (m0 & Hm0 & _ & _ & Hu). by simplify_eq. }
  unfold KVManager.commit_slots. simpl. unfold on_coord. wp_step. fold rid.
  eapply wp_mono; [by apply (enter_all c1 fr Hs1 (ok_plain _ Ho1) rid hits t)|]. intros _ c2 [V2 _]. simpl.
  pose proof (vi_coord _ _ _ _ _ V2) as Hco2.
  rewrite Ep1, (kept_hits_same _ _ _ _ ltac:(apply Hco1)) in V2. set (fr2 := without _ fr) in *.
  destruct (after_enter k fr r Hk Hr hits Hlen Hhits c1 Ep1 V1 t n c2 fr2 V2 eq_refl) as (Hk2 & Hr2 & Hen).
  eapply wp_mono; [apply (grow_slots_spec _ fr2 r Hk2 Hr2 num_new t n (t + num_new) enc delay)|].
  - simpl. fold rid in Hen |- *. lia.
  - lia.
  - intros [o r'] k' (Hr' & new & fr' & -> & Hg). split; [done|]. right. exists fr'.
    split; [apply Hg|]. split; [etrans; [exact Hco1|etrans; [exact Hco2|exact (ag_coord _ _ _ _ _ _ _ _ Hg)]]|].
    rewrite decide_True by lia. exists new. split_and!.
    + unfold KVManager.create_kv_cache_blocks, KVManager.num_kv_cache_groups. simpl.
      destruct Hco2 as (_ & -> & _). destruct Hco1 as (_ & -> & _). done.
    + apply (ag_free _ _ _ _ _ _ _ _ Hg).
    + eapply enter_then_grow; [exact V1|exact V2|exact Hg].
Qed.

(** ** All calls together *)

(** The calls of the scheduler; the tokens of an allocation are all local, as
    they are without a connector. *)
Inductive kv_op :=
  | KRun (r : Request) (num_new lookahead enc reserved : Z) (delay gate : bool)
  | KEnter (r : Request) (hits : list (list loc)) (num_new num_hit lookahead enc reserved : Z) (delay gate : bool)
  | KCache (r : Request) (n : Z)
  | KFree (r : Request)
  | KSkip (rid : string) (t : Z)
  | KEvict (block_ids : list loc)
  | KReset
  | KTakeEvents
  | KNewStep.

Definition run_kv_op (o : kv_op) : M KVCacheManager () :=
  match o with
  | KRun r num_new lookahead enc reserved delay gate =>
      _ ← KVManager.allocate_slots r num_new 0 None lookahead 0 delay enc gate reserved; mret tt
  | KEnter r hits num_new num_hit lookahead enc reserved delay gate =>
      _ ← KVManager.allocate_slots r num_new num_hit (Some (Blocks hits)) lookahead 0 delay enc gate reserved;
      mret tt
  | KCache r n => _ ← KVManager.cache_blocks r n; mret tt
  | KFree r => KVManager.free r
  | KSkip rid t => KVManager.remove_skipped_blocks rid t
  | KEvict ids => KVManager.evict_blocks ids
  | KReset => _ ← KVManager.reset_prefix_cache; mret tt
  | KTakeEvents => _ ← KVManager.take_events; mret tt
  | KNewStep => KVManager.new_step_starts
  end.

(** What the scheduler owes the manager. *)
Definition kv_op_ok (k : KVCacheManager) (o : kv_op) : Prop :=
  let c := km_coord k in
  match o with
  | KRun r num_new lookahead enc reserved delay gate =>
      let t := num_computed_tokens r in
      request_ok r (hash_block_size (c_pool c)) ∧ num_new ≠ 0 ∧ 0 ≤ lookahead ∧
      num_tokens r ≤ km_max_model_len k ∧ t ≤ km_max_model_len k ∧ 0 ≤ reserved ∧
      Forall (continuing (request_id r) t) (c_managers c)
  | KEnter r hits num_new num_hit lookahead enc reserved delay gate =>
      request_ok r (hash_block_size (c_pool c)) ∧ Forall (new_to (request_id r)) (c_managers c) ∧
      length hits = Coord.num_managers c ∧
      (∀ i m h, c_managers c !! i = Some m → hits !! i = Some h → hits_pre (mkMS (c_pool c) m) h) ∧
      num_new ≠ 0 ∧ 0 ≤ lookahead ∧ num_tokens r ≤ km_max_model_len k ∧
      num_computed_tokens r + num_hit ≤ km_max_model_len k ∧ 0 ≤ reserved
  | KCache r n =>
      request_ok r (hash_block_size (c_pool c)) ∧ n ≤ num_tokens r ∧
      ∀ i m, c_managers c !! i = Some m → n / m_block_size m ≤ len (blocks_of m (request_id r))
  | KEvict ids => ∀ b, b ∈ ids → (b < nblk (c_pool c))%nat
  | KReset => km_log_stats k = true → is_Some (km_stats k)
  | _ => True
  end.

Lemma kv_cache_blocks_spec k fr r n :
  kv_inv k fr → kv_op_ok k (KCache r n) →
  wp (KVManager.cache_blocks r n) (λ r' k', memo_frame r r' ∧ kv_inv k' fr) k.
Proof.
  intros Hk (Hr & Hn & Hlen). pose proof (ki_sys _ _ Hk) as Hs. pose proof (ki_ok _ _ Hk) as Ho.
  unfold KVManager.cache_blocks. wp_step. destruct (km_enable_caching k) eqn:Eca; wp_step.
  2: { split; [apply memo_frame_refl, Hr|done]. }
  rewrite (ki_caching _ _ Hk) in Eca. unfold on_coord. wp_step. unfold Coord.cache_blocks. wp_step.
  set (T := match c_kind _ with Hybrid _ => _ | _ => _ end).
  assert (HT : ∀ m, T m = tokens_cached (km_coord k) n m)
    by (intros m; unfold T, tokens_cached; by destruct (c_kind _)).
  clearbody T.
  eapply wp_mono.
  - apply (cache_over_spec (km_coord k) fr Hs (ok_plain _ Ho) T _ r); [|apply Hr].
    intros i m Hi. rewrite HT. by eapply cacheable_all; [..|by eapply Hlen].
  - intros r' c2 [Hr' V]. split; [done|]. destruct (vi_sys _ _ _ _ _ V) as (? & Hs2 & ->).
    eapply kv_inv_coord; [done|apply V|done].
Qed.

Lemma kv_pool_step k fr p' :
  kv_inv k fr → pool_inv p' fr → pool_frame (c_pool (km_coord k)) p' →
  (∀ b, pref p' b = pref (c_pool (km_coord k)) b) →
  (∀ b, phash p' b = None ∨ phash p' b = phash (c_pool (km_coord k)) b) →
  kv_inv (km_set_coord (set_pool_mgrs p' (c_managers (km_coord k)) (km_coord k)) k) fr.
Proof.
  intros Hk Hp' Hf Hr Hh. destruct (sys_pool_step _ _ _ (ki_sys _ _ Hk) Hp' Hf Hr Hh). by eapply kv_inv_coord.
Qed.

(** The reference counts are the mentions in the tables. *)
Lemma kv_refs k fr b :
  kv_inv k fr → c_managers (km_coord k) ≠ [] → (b < nblk (c_pool (km_coord k)))%nat →
  b ≠ null_block (c_pool (km_coord k)) → pref (c_pool (km_coord k)) b = total_refs (c_managers (km_coord k)) b.
Proof.
  intros Hk Hne Hb Hn. destruct (lookup_lt_is_Some_2 (c_managers (km_coord k)) 0) as [m Hm0].
  { destruct (c_managers _); simpl; [done|lia]. }
  destruct (si_mgr _ _ (ki_sys _ _ Hk) _ _ Hm0) as [Hmi _]. rewrite (mi_refs _ _ _ Hmi b Hb Hn). unfold rest_of. lia.
Qed.

(** Nobody holds a block. *)
Definition unused (k : KVCacheManager) : Prop :=
  c_managers (km_coord k) ≠ [] ∧ ∀ q, Forall (λ m, blocks_of m q = []) (c_managers (km_coord k)).

Lemma unused_free k fr a :
  kv_inv k fr → unused k → (a < nblk (c_pool (km_coord k)))%nat → a ≠ null_block (c_pool (km_coord k)) →
  pref (c_pool (km_coord k)) a = 0.
Proof.
  intros Hk [Hne Hnone] Ha Hn. rewrite (kv_refs k fr a Hk Hne Ha Hn). unfold total_refs.
  induction (c_managers (km_coord k)) as [|m' ms IH] in Hnone |- *; simpl; [done|].
  rewrite IH by (intros q; by destruct (proj1 (Forall_cons _ _ _) (Hnone q))).
  rewrite refs_none; [done|]. intros q. by destruct (proj1 (Forall_cons _ _ _) (Hnone q)).
Qed.

Lemma kv_reset_spec k fr :
  kv_inv k fr → kv_op_ok k KReset →
  wp KVManager.reset_prefix_cache (λ b k', kv_inv k' fr ∧ same_coord (km_coord k) (km_coord k') ∧
    (unused k → b = true)) k.
Proof.
  intros Hk Hst. unfold KVManager.reset_prefix_cache, on_coord, on_cpool. wp_step.
  eapply wp_mono; [apply (reset_prefix_cache_spec _ fr (si_pool _ _ (ki_sys _ _ Hk)))|].
  intros b p' (Hp' & Hf & Hr & Hb & Hh). simpl.
  assert (Hidle : unused k → b = true).
  { intros Hu. rewrite Hb. apply bool_decide_eq_true, (all_free_iff _ _ (si_pool _ _ (ki_sys _ _ Hk))).
    intros a. by apply (unused_free k fr). }
  assert (Hk' : kv_inv (km_set_coord (set_pool_mgrs p' (c_managers (km_coord k)) (km_coord k)) k) fr).
  { apply kv_pool_step; [done..|]. destruct b; [destruct Hh as [_ Hh]; by eapply unhashed_drops|].
    intros b. right. by rewrite Hh. }
  assert (Hco : same_coord (km_coord k) (set_pool_mgrs p' (c_managers (km_coord k)) (km_coord k))) by (by split_and!).
  destruct b; simpl; wp_step; [|done]. simpl.
  destruct (km_log_stats k) eqn:El; wp_step; [|done].
  destruct (Hst El) as [st ->].
  change (of_opt AssertionError (Some st)) with (@mret (M KVCacheManager) _ _ st). wp_step.
  split; [destruct Hk'; by split|done].
Qed.

(** Every admissible call succeeds and keeps the invariant. *)
Lemma run_kv_op_inv k fr o :
  kv_inv k fr → kv_op_ok k o → wp (run_kv_op o) (λ _ k', ∃ fr', kv_inv k' fr') k.
Proof.
  intros Hk Hok. pose proof (ki_sys _ _ Hk) as Hs. pose proof (ki_ok _ _ Hk) as Ho.
  destruct o as [r nn la enc res delay gate|r hits nn nh la enc res delay gate|r n|r|rid t|ids| | |]; simpl.
  - destruct Hok as (H1 & H2 & H3 & H4 & H5 & H6 & H7). wp_step.
    eapply wp_mono; [by apply (run_slots_spec k fr r)|].
    intros [o r'] k' [_ [(_ & _ & ->)|(fr1 & fr' & _ & Hk' & _ & _)]]; wp_step; eauto.
  - destruct Hok as (H1 & H2 & H3 & H4 & H5 & H6 & H7 & H8 & H9). wp_step.
    eapply wp_mono; [by apply (enter_slots_spec k fr r hits)|].
    intros [o r'] k' [_ [(_ & _ & ->)|(fr' & Hk' & _)]]; wp_step; eauto.
  - wp_step. eapply wp_mono; [by apply (kv_cache_blocks_spec k fr)|]. intros r' k' [_ H]. wp_step. eauto.
  - unfold KVManager.free, on_coord. wp_step. eapply wp_mono; [apply (free_all _ fr Hs (ok_plain _ Ho))|].
    intros ? c' V. destruct (vi_sys _ _ _ _ _ V) as (fr' & Hs' & _). exists fr'.
    eapply kv_inv_coord; [done|apply V|done].
  - unfold KVManager.remove_skipped_blocks, on_coord. wp_step.
    eapply wp_mono; [apply (remove_skipped_all _ fr Hs (ok_plain _ Ho))|].
    intros ? c' (fr1 & V & _). destruct (vi_sys _ _ _ _ _ V) as (? & Hs' & ->). exists fr1.
    eapply kv_inv_coord; [done|apply V|done].
  - unfold KVManager.evict_blocks, on_coord, on_cpool. wp_step.
    eapply wp_mono; [apply (evict_blocks_spec _ fr ids (si_pool _ _ Hs) Hok)|].
    intros ? p' (Hp' & Hf & Hr & Hh). exists fr. apply kv_pool_step; [done..|by eapply unhashed_drops].
  - wp_step. eapply wp_mono; [by apply (kv_reset_spec k fr)|]. intros ? k' (H & _). wp_step. by exists fr.
  - unfold KVManager.take_events, on_coord, on_cpool, Pool.take_events. wp_step.
    destruct (enable_kv_cache_events _); simpl; wp_step; exists fr; simpl;
      apply kv_pool_step; try done; try (by right); try apply Hs; by destruct (si_pool _ _ Hs); split.
  - unfold KVManager.new_step_starts, on_coord. wp_step.
    eapply wp_mono; [by apply (new_step_all _ fr Hs (ok_plain _ Ho))|]. intros ? c' ->. exists fr.
    by eapply kv_inv_coord.
Qed.

Lemma kv_init_ok config max_len sbs hbs mnb caching ue ls ev ui dcp pcp ret k :
  valid_config config hbs sbs dcp pcp →
  KVManager.init config max_len sbs hbs mnb caching ue ls ev ui dcp pcp ret = Ok k →
  kv_inv k (seq 1 (Z.to_nat (num_blocks config) - 1)).
Proof.
  intros Hv. unfold KVManager.init. unfold mbind, res_bind.
  destruct (Coord.init _ _ _ _ _ _ _ _ _ _ _ _) as [c|] eqn:E; [|done]. intros [= <-].
  destruct (init_ok _ _ _ _ _ _ _ _ _ _ _ _ _ Hv E) as (Hs & Ho & Ec & Hl & Eca & _).
  split; simpl; [done|done|done|]. unfold KVManager.num_kv_cache_groups. simpl. by rewrite Ec, <- Hl.
Qed.

(** The states the scheduler can bring the manager to. *)
Inductive kv_reach : KVCacheManager → Prop :=
  | kreach_init config max_len sbs hbs mnb caching ue ls ev ui dcp pcp ret k :
      valid_config config hbs sbs dcp pcp →
      KVManager.init config max_len sbs hbs mnb caching ue ls ev ui dcp pcp ret = Ok k → kv_reach k
  | kreach_step k o : kv_reach k → kv_op_ok k o → kv_reach (run_kv_op o k).2.

Lemma kv_reach_inv k : kv_reach k → ∃ fr, kv_inv k fr.
Proof.
  induction 1 as [config max_len sbs hbs mnb caching ue ls ev ui dcp pcp ret k Hv E|k o _ [fr IH] Hok].
  - eexists. by eapply kv_init_ok.
  - destruct (wp_snd _ _ _ (run_kv_op_inv k fr o IH Hok)) as [_ Hk']. exact Hk'.
Qed.

(** C2. The safety of the KV-cache manager without tokens from a KV connector, for
    groups of full attention, sliding windows and chunked local attention (no Mamba
    or cross attention, whose tables grow otherwise). After any sequence of calls
    with the arguments that [kv_op_ok] asks for (allocation for running and for new
    requests, caching, freeing, skipping, eviction, reset) a block's reference count
    is the number of times the tables of all groups mention it; the free queue
    holds, without duplicates, exactly the blocks that no table mentions; a block
    that is not yet cached, into which a request may still write, stands in no other
    table and nowhere else in its own; and no such call that may come next raises.
    With tokens from a connector the third part fails: [external_tokens_steal_hits]. *)
Theorem kv_reach_safe (k : KVCacheManager) :
  kv_reach k → c_managers (km_coord k) ≠ [] →
  let p := c_pool (km_coord k) in
  let ms := c_managers (km_coord k) in
  ∃ fr, NoDup fr ∧ num_free_blocks (pool_queue p) = len fr ∧
    (∀ b, (b < nblk p)%nat → b ≠ null_block p → pref p b = total_refs ms b) ∧
    (∀ b, b ∈ fr ↔ (b < nblk p)%nat ∧ b ≠ null_block p ∧ total_refs ms b = 0) ∧
    (∀ i m rid j b, ms !! i = Some m → blocks_of m rid !! j = Some b → b ≠ null_block p →
       num_cached m rid ≤ Z.of_nat j → total_refs ms b = 1) ∧
    ∀ o, kv_op_ok k o → ∃ k', run_kv_op o k = (Ok tt, k').
Proof.
  intros [fr Hk]%kv_reach_inv Hne p ms. exists fr. pose proof (ki_sys _ _ Hk) as [Hp _ Hm].
  assert (Hrefs : ∀ b, (b < nblk p)%nat → b ≠ null_block p → pref p b = total_refs ms b)
    by (intros b; by apply (kv_refs k fr)).
  split_and!; [by eapply pool_inv_NoDup|by apply pool_inv_free|done|..].
  - intros b. rewrite (di_free _ _ _ _ _ (pi_data _ _ Hp)). fold p.
    split; intros (H1 & H2 & H3); (split_and!; [done|done|]); [rewrite <- Hrefs|rewrite Hrefs]; done.
  - intros i m rid j b Hi Hj Hn Hle. destruct (Hm _ _ Hi) as [Hmi _].
    destruct (mi_private _ _ _ Hmi rid j b Hj Hn Hle) as (_ & _ & <-). symmetry. apply Hrefs; [|done].
    eapply (mi_in _ _ _ Hmi). by eapply list_elem_of_lookup_2.
  - intros o Hok. destruct (wp_elim _ _ _ (run_kv_op_inv k fr o Hk Hok)) as ([] & k' & E & _). by exists k'.
Qed.


(** C3. [allocate_slots] for a request that enters with prefix-cache hits, with no
    tokens from a KV connector (with them it can evict hits:
    [external_tokens_steal_hits]), for groups of full attention, sliding windows and
    chunked local attention only. It does not raise. Unless the admission gate
    refuses the request, the count is exact: the blocks still to allocate of every
    group and the hits that stand in the free queue. When that many blocks (and
    [reserved] more) are free, every group's table becomes null blocks for the hits
    before the window, the other hits, and new blocks up to the tokens that need a
    slot; the new blocks come from what the free queue holds besides the hits, so no
    hit of any group is evicted for them. Otherwise the call returns [None] and no
    block is taken. Other requests keep their blocks, and the invariant is kept. *)
Theorem allocate_slots_new (k : KVCacheManager) (fr : list loc) (r : Request) (hits : list (list loc))
    (num_new num_hit lookahead enc reserved : Z) (delay gate : bool) :
  let t := num_computed_tokens r + num_hit in
  let n := Z.min (t + num_new + lookahead) (km_max_model_len k) in
  kv_inv k fr → kv_op_ok k (KEnter r hits num_new num_hit lookahead enc reserved delay gate) →
  wp (KVManager.allocate_slots r num_new num_hit (Some (Blocks hits)) lookahead 0 delay enc gate reserved)
    (λ '(o, r') k', entering_post k fr r hits t n reserved gate o r' k') k.
Proof. intros t n Hk (H1 & H2 & H3 & H4 & H5 & H6 & H7 & H8 & H9). by apply enter_slots_spec. Qed.

(** ** Witnesses, and what goes wrong with external tokens *)

(** Two groups, full attention and a sliding window of 16 tokens, over blocks of
    four tokens; ten usable blocks. *)
Definition demo_config : KVCacheConfig :=
  mkConfig 11 [mkGroup (mkSpec 4 0 (FullAttention FKFull)) false;
               mkGroup (mkSpec 4 1 (SlidingWindow 16 false)) false].
Definition demo_init : res KVCacheManager :=
  KVManager.init demo_config 64 4 4 None true false false false false 1 1 None.
Definition demo_km : KVCacheManager :=
  match demo_init with
  | Ok k => k
  | Raise _ => mkKM (mkCoord NoPrefixCache demo_config true 4 4 [] None empty_pool []) 0 true false None
  end.
Definition demo_req (rid : string) (hashes : list bytes) : Request :=
  mkRequest rid 0 0 0 0 WAITING 16 false (Some (replicate (4 * length hashes) 7)) None ∅
    (4 * len hashes) [] (replicate (4 * length hashes) 7) 0 [] 0 None [] None false 0 hashes false false
    (new_ext None None).

(** [demo_a] and [demo_c] have run and are finished; [demo_b] continues the
    prompt of [demo_a]. *)
Definition demo_a : Request := demo_req "a" [[1]; [2]].
Definition demo_c : Request := demo_req "c" [[3]; [4]; [5]].
Definition demo_b : Request := demo_req "b" [[1]; [2]; [6]; [7]; [8]].
Definition demo_ran_a : KVCacheManager := (run_kv_op (KRun demo_a 8 0 0 0 false false) demo_km).2.
Definition demo_ran_c : KVCacheManager := (run_kv_op (KRun demo_c 12 0 0 0 false false) demo_ran_a).2.
Definition demo_idle : KVCacheManager :=
  (run_kv_op (KFree demo_c) (run_kv_op (KFree demo_a) demo_ran_c).2).2.

Lemma demo_valid : valid_config demo_config 4 4 1 1.
Proof. split; try lia; try done; intros g; simpl; rewrite !elem_of_cons, elem_of_nil; intros [->|[->|[]]]; simpl; done || lia. Qed.

Lemma demo_init_eq : demo_init = Ok demo_km.
Proof. vm_compute. reflexivity. Qed.

Lemma demo_inv : kv_inv demo_km (seq 1 10).
Proof. exact (kv_init_ok _ _ _ _ _ _ _ _ _ _ _ _ _ _ demo_valid demo_init_eq). Qed.

Lemma demo_request_ok rid hashes : request_ok (demo_req rid hashes) 4.
Proof.
  split.
  - change (len hashes = len (replicate (4 * length hashes) 7) / 4).
    rewrite length_replicate, Nat2Z.inj_mul, Z.mul_comm. by rewrite Z.div_mul.
  - split; [set_solver|]. intros i j f g _ Hf. done.
  - intros pe s e d Hpe. done.
Qed.

Ltac demo_ok k :=
  let E := fresh in
  assert (E : hash_block_size (c_pool (km_coord k)) = 4) by (vm_compute; reflexivity);
  split; [rewrite E; exact (demo_request_ok _ _)|clear E];
  repeat (split; [vm_compute; congruence|]); vm_compute; repeat constructor; congruence.

Lemma demo_run_a_ok : kv_op_ok demo_km (KRun demo_a 8 0 0 0 false false).
Proof. demo_ok demo_km. Qed.

Lemma demo_run_c_ok : kv_op_ok demo_ran_a (KRun demo_c 12 0 0 0 false false).
Proof. demo_ok demo_ran_a. Qed.

Lemma demo_idle_reach : kv_reach demo_idle.
Proof.
  apply kreach_step; [|done]. apply kreach_step; [|done].
  apply kreach_step; [|apply demo_run_c_ok]. apply kreach_step; [|apply demo_run_a_ok].
  eapply kreach_init; [apply demo_valid|apply demo_init_eq].
Qed.

Lemma kv_reach_safe_witness :
  let p := c_pool (km_coord demo_idle) in
  let ms := c_managers (km_coord demo_idle) in
  ∃ fr, NoDup fr ∧ num_free_blocks (pool_queue p) = len fr ∧
    (∀ b, (b < nblk p)%nat → b ≠ null_block p → pref p b = total_refs ms b) ∧
    (∀ b, b ∈ fr ↔ (b < nblk p)%nat ∧ b ≠ null_block p ∧ total_refs ms b = 0) ∧
    (∀ i m rid j b, ms !! i = Some m → blocks_of m rid !! j = Some b → b ≠ null_block p →
       num_cached m rid ≤ Z.of_nat j → total_refs ms b = 1) ∧
    ∀ o, kv_op_ok demo_idle o → ∃ k', run_kv_op o demo_idle = (Ok tt, k').
Proof. apply (kv_reach_safe demo_idle); [apply demo_idle_reach|vm_compute; congruence]. Defined.


(** The hits of [demo_b] in the two groups. *)
Definition demo_hits : list (list loc) := [[1; 2]; [3; 4]]%nat.

Lemma demo_hits_found :
  (KVManager.get_computed_blocks demo_b demo_idle).1 = Ok (Blocks demo_hits, 8).
Proof. vm_compute. reflexivity. Qed.

(** A check by computation that blocks are possible hits. *)
Definition hits_check (p : BlockPool) (l : list loc) : bool :=
  bool_decide (NoDup l) &&
  forallb (λ b, bool_decide ((b < nblk p)%nat) && negb (b =? null_block p)%nat
                && bool_decide (is_Some (phash p b))) l.

Lemma hits_check_ok p l : hits_check p l = true → hits_ok p l.
Proof.
  unfold hits_check. rewrite andb_true_iff, bool_decide_eq_true, forallb_forall. intros [Hnd Hall].
  assert (Hb : ∀ b, b ∈ l → (b < nblk p)%nat ∧ is_Some (phash p b)).
  { intros b Hb%list_elem_of_In. apply Hall in Hb.
    rewrite !andb_true_iff, !bool_decide_eq_true in Hb. tauto. }
  split; [intros b; apply Hb|by apply NoDup_filter|intros b H _; by apply Hb].
Qed.

Lemma demo_enter_ok : kv_op_ok demo_idle (KEnter demo_b demo_hits 12 8 0 0 0 false false).
Proof.
  assert (E : hash_block_size (c_pool (km_coord demo_idle)) = 4) by (vm_compute; reflexivity).
  assert (Eca : m_enable_caching <$> c_managers (km_coord demo_idle) = [true; true]) by (vm_compute; reflexivity).
  assert (Eh : hits_ok (c_pool (km_coord demo_idle)) [1; 2]%nat ∧ hits_ok (c_pool (km_coord demo_idle)) [3; 4]%nat)
    by (split; apply hits_check_ok; vm_compute; reflexivity).
  split; [rewrite E; exact (demo_request_ok _ _)|]. split; [vm_compute; repeat constructor|].
  split; [vm_compute; reflexivity|]. split; [|clear; repeat (split; [vm_compute; congruence|]); vm_compute; congruence].
  intros i m h Hm Hh. apply (f_equal (fmap m_enable_caching)) in Hm. rewrite <- list_lookup_fmap, Eca in Hm.
  unfold hits_pre. cbn [ms_pool ms_mgr]. destruct Eh as [Eh1 Eh2].
  destruct i as [|[|i]]; cbn in Hm, Hh; [| |discriminate Hh]; injection Hm as Em; injection Hh as <-;
    rewrite <- Em; [exact Eh1|exact Eh2].
Qed.

Lemma demo_idle_inv : ∃ fr, kv_inv demo_idle fr.
Proof. apply kv_reach_inv, demo_idle_reach. Qed.

Lemma allocate_slots_new_witness :
  ∃ fr, wp (KVManager.allocate_slots demo_b 12 8 (Some (Blocks demo_hits)) 0 0 false 0 false 0)
    (λ '(o, r') k', entering_post demo_idle fr demo_b demo_hits 8 20 0 false o r' k') demo_idle.
Proof.
  destruct demo_idle_inv as [fr Hk]. exists fr.
  apply (allocate_slots_new demo_idle fr demo_b demo_hits 12 8 0 0 0 false false Hk).
  apply demo_enter_ok.
Defined.

(** With tokens computed elsewhere (a KV connector) and more than one group,
    the groups are served one after the other, and the blocks for the external
    tokens of the first group are taken while the hits of the second are still
    in the free queue.  In a reachable state, where the request's hits are the
    blocks 1, 2 and 3, 4, the call succeeds and leaves block 3 in the tables of
    both groups: two groups of layers write the same memory. *)
Theorem external_tokens_steal_hits :
  kv_reach demo_idle ∧
  (KVManager.get_computed_blocks demo_b demo_idle).1 = Ok (Blocks demo_hits, 8) ∧
  let '(res, k') := KVManager.allocate_slots demo_b 4 8 (Some (Blocks demo_hits)) 0 8 false 0 false 0 demo_idle in
  match res with Ok (Some _, _) => True | _ => False end ∧
  null_block (c_pool (km_coord k')) ≠ 3%nat ∧
  (λ m, bool_decide (3%nat ∈ blocks_of m "b")) <$> c_managers (km_coord k') = [true; true].
Proof.
  split; [apply demo_idle_reach|]. split; [apply demo_hits_found|].
  vm_compute. split; [exact I|]. split; [congruence|reflexivity].
Qed.
