(* ===== verification/EncoderCache.v ===== *)
(** * The encoder cache

    [EncoderCacheManager], [EncoderDecoderCacheManager] and
    [compute_mm_encoder_budget] of [vllm/v1/core/encoder_cache_manager.py]:
    which outputs of the vision encoder are kept, who references them, and
    which are evicted.  An [OrderedDict] is an association list in insertion
    order; the order in which Python iterates over a set is a parameter. *)
From S2P Require Import Prelude FreeQueue Request BlockHash BlockPool.

Record EncoderCacheManager := mkEC {
  ec_cache_size : Z;
  num_free_slots : Z;
  num_freeable_slots : Z;
  ec_cached : gmap string (gset string);            (* mm_hash => request ids *)
  request_cached_ids : gmap string (gset nat);      (* request id => input ids *)
  freeable : list (string * Z);                     (* mm_hash => embeddings, oldest first *)
  freed : list string;
}.

Definition ec_set_slots (f a : Z) (c : EncoderCacheManager) : EncoderCacheManager :=
  mkEC (ec_cache_size c) f a (ec_cached c) (request_cached_ids c) (freeable c) (freed c).
Definition ec_set_cached (x : gmap string (gset string)) (c : EncoderCacheManager) : EncoderCacheManager :=
  mkEC (ec_cache_size c) (num_free_slots c) (num_freeable_slots c) x (request_cached_ids c) (freeable c) (freed c).
Definition ec_set_ids (x : gmap string (gset nat)) (c : EncoderCacheManager) : EncoderCacheManager :=
  mkEC (ec_cache_size c) (num_free_slots c) (num_freeable_slots c) (ec_cached c) x (freeable c) (freed c).
Definition ec_set_freeable (x : list (string * Z)) (c : EncoderCacheManager) : EncoderCacheManager :=
  mkEC (ec_cache_size c) (num_free_slots c) (num_freeable_slots c) (ec_cached c) (request_cached_ids c) x (freed c).
Definition ec_set_freed (x : list string) (c : EncoderCacheManager) : EncoderCacheManager :=
  mkEC (ec_cache_size c) (num_free_slots c) (num_freeable_slots c) (ec_cached c) (request_cached_ids c) (freeable c) x.

(** [request.mm_features[input_id].identifier] *)
Definition mm_hash_of (request : Request) (input_id : nat) : res string :=
  match mm_features request !! input_id with
  | None => Raise IndexError
  | Some f => Ok (identifier f)
  end.

Module Encoder.

Abbreviation E := (M EncoderCacheManager).

Definition init (cache_size : Z) : EncoderCacheManager :=
  mkEC cache_size cache_size cache_size ∅ ∅ [] [].

Definition reset : E () :=
  modify (λ c, mkEC (ec_cache_size c) (ec_cache_size c) (ec_cache_size c) ∅ ∅ [] []).

(** [self.request_cached_ids.setdefault(request_id, set()).add(input_id)] *)
Definition note_cached (rid : string) (input_id : nat) (c : EncoderCacheManager) : EncoderCacheManager :=
  ec_set_ids (<[rid := {[ input_id ]} ∪ default ∅ (request_cached_ids c !! rid)]> (request_cached_ids c)) c.

(** [self.cached[mm_hash].add(request_id)] for a key that is present *)
Definition add_ref (mm_hash rid : string) (c : EncoderCacheManager) : EncoderCacheManager :=
  ec_set_cached (alter (union {[ rid ]}) mm_hash (ec_cached c)) c.

Definition check_and_update_cache (request : Request) (input_id : nat) : E bool :=
  mm_hash ← of_res (mm_hash_of request input_id);
  c ← get;
  match ec_cached c !! mm_hash with
  | None => mret false
  | Some refs =>
      _ ← (if decide (refs = ∅)
           then n ← of_opt KeyError (dict_get mm_hash (freeable c));
                modify (λ c, ec_set_slots (num_free_slots c) (num_freeable_slots c - n)
                               (ec_set_freeable (dict_del mm_hash (freeable c)) c))
           else mret tt);
      _ ← modify (add_ref mm_hash (request_id request));
      _ ← modify (note_cached (request_id request) input_id);
      mret true
  end.

(** [while num_embeds > self.num_free_slots: ...]: every turn removes an entry
    of [freeable], so its length is enough fuel; the loop pops an empty
    dictionary only if the slots do not add up. *)
Fixpoint evict_loop (fuel : nat) (num_embeds : Z) : E () :=
  match fuel with
  | O => raise OutOfFuel
  | S fuel' =>
      c ← get;
      if num_free_slots c <? num_embeds
      then
        match freeable c with
        | [] => raise KeyError
        | (mm_hash, num_free_embeds) :: rest =>
            _ ← modify (ec_set_freeable rest);
            _ ← of_opt KeyError (ec_cached c !! mm_hash);
            _ ← modify (λ c, ec_set_cached (delete mm_hash (ec_cached c)) c);
            _ ← modify (λ c, ec_set_freed (freed c ++ [mm_hash]) c);
            _ ← modify (λ c, ec_set_slots (num_free_slots c + num_free_embeds) (num_freeable_slots c) c);
            evict_loop fuel' num_embeds
        end
      else mret tt
  end.

Definition can_allocate (request : Request) (input_id : nat)
    (encoder_compute_budget num_embeds_to_schedule : Z) : E bool :=
  num_embeds ← of_res (get_num_encoder_embeds request input_id);
  if encoder_compute_budget <? num_embeds then mret false
  else
    let num_embeds := num_embeds + num_embeds_to_schedule in
    c ← get;
    if num_embeds <=? num_free_slots c then mret true
    else if num_freeable_slots c <? num_embeds then mret false
    else _ ← evict_loop (S (length (freeable c))) num_embeds; mret true.

Definition allocate (request : Request) (input_id : nat) : E () :=
  mm_hash ← of_res (mm_hash_of request input_id);
  _ ← modify (λ c, if decide (mm_hash ∈ dom (ec_cached c)) then c
                   else ec_set_cached (<[mm_hash := ∅]> (ec_cached c)) c);
  num_encoder_embeds ← of_res (get_num_encoder_embeds request input_id);
  c ← get;
  _ ← massert (num_encoder_embeds <=? num_free_slots c);
  _ ← massert (num_encoder_embeds <=? num_freeable_slots c);
  _ ← modify (add_ref mm_hash (request_id request));
  _ ← modify (note_cached (request_id request) input_id);
  modify (λ c, ec_set_slots (num_free_slots c - num_encoder_embeds)
                 (num_freeable_slots c - num_encoder_embeds) c).

Definition get_cached_input_ids (request : Request) (c : EncoderCacheManager) : gset nat :=
  default ∅ (request_cached_ids c !! request_id request).

(** [discard] the id, and the set when it becomes empty. *)
Definition forget_cached (rid : string) (input_id : nat) (c : EncoderCacheManager) : EncoderCacheManager :=
  match request_cached_ids c !! rid with
  | None => c
  | Some ids =>
      let ids' := ids ∖ {[ input_id ]} in
      ec_set_ids (if decide (ids' = ∅) then delete rid (request_cached_ids c)
                  else <[rid := ids']> (request_cached_ids c)) c
  end.

Definition free_encoder_input (request : Request) (input_id : nat) : E () :=
  let rid := request_id request in
  mm_hash ← of_res (mm_hash_of request input_id);
  _ ← modify (forget_cached rid input_id);
  c ← get;
  match ec_cached c !! mm_hash with
  | None => mret tt
  | Some refs =>
      if decide (refs = ∅) then mret tt
      else
        let refs' := refs ∖ {[ rid ]} in
        _ ← modify (ec_set_cached (<[mm_hash := refs']> (ec_cached c)));
        if decide (refs' = ∅)
        then n ← of_res (get_num_encoder_embeds request input_id);
             modify (λ c, ec_set_slots (num_free_slots c) (num_freeable_slots c + n)
                            (ec_set_freeable (dict_set mm_hash n (freeable c)) c))
        else mret tt
  end.

(** [list(...)] of a set comes in some order. *)
Definition free (set_iter : gset nat → list nat) (request : Request) : E () :=
  ids ← gets (get_cached_input_ids request);
  for_each (set_iter ids) (free_encoder_input request).

Definition get_freed_mm_hashes : E (list string) :=
  l ← gets freed; _ ← modify (ec_set_freed []); mret l.

End Encoder.

(** ** The budget *)
Record SchedulerConfig := mkSchedConf {
  disable_chunked_mm_input : bool;
  max_num_batched_tokens : Z;
  max_num_encoder_input_tokens : Z;
  encoder_cache_size : Z;
}.

(** [max(d.values())] of a dictionary that is not empty *)
Definition max_value (v : Z) (vs : list Z) : Z := foldl Z.max v vs.

Definition compute_mm_encoder_budget (conf : SchedulerConfig)
    (mm_max_toks_per_item : list (string * Z)) : res (Z * Z) :=
  match snd <$> mm_max_toks_per_item with
  | [] => Ok (0, 0)
  | v :: vs =>
      let max_tokens_per_mm_item := max_value v vs in
      if disable_chunked_mm_input conf && (max_num_batched_tokens conf <? max_tokens_per_mm_item)
      then Raise ValueError
      else Ok (Z.max (max_num_encoder_input_tokens conf) max_tokens_per_mm_item,
               Z.max (encoder_cache_size conf) max_tokens_per_mm_item)
  end.

(** ** Encoder-decoder models *)
Record EncoderDecoderCacheManager := mkED {
  ed_cache_size : Z; ed_num_free_slots : Z; allocated : list string; to_free : list string;
}.

Module EncDec.

Abbreviation ED := (M EncoderDecoderCacheManager).

Definition init (cache_size : Z) : EncoderDecoderCacheManager := mkED cache_size cache_size [] [].
Definition reset : ED () := modify (λ c, mkED (ed_cache_size c) (ed_cache_size c) [] []).

Definition check_and_update_cache (request : Request) (input_id : nat) : ED bool := mret false.

Definition can_allocate (request : Request) (input_id : nat)
    (encoder_compute_budget num_embeds_to_schedule : Z) : ED bool :=
  n ← of_res (get_num_encoder_embeds request input_id);
  if encoder_compute_budget <? n then mret false
  else c ← get; mret (n + num_embeds_to_schedule <=? ed_num_free_slots c).

Definition allocate (request : Request) (input_id : nat) : ED () :=
  n ← of_res (get_num_encoder_embeds request input_id);
  _ ← modify (λ c, mkED (ed_cache_size c) (ed_num_free_slots c - n) (allocated c) (to_free c));
  mm_hash ← of_res (mm_hash_of request input_id);
  modify (λ c, mkED (ed_cache_size c) (ed_num_free_slots c) (allocated c ++ [mm_hash]) (to_free c)).

Definition free_encoder_input (request : Request) (input_id : nat) : ED () :=
  n ← of_res (get_num_encoder_embeds request input_id);
  modify (λ c, mkED (ed_cache_size c) (ed_num_free_slots c + n) (allocated c) (to_free c)).

Definition free (request : Request) : ED () :=
  for_each (seq 0 (length (mm_features request))) (free_encoder_input request).

Definition get_cached_input_ids (request : Request) : gset nat :=
  list_to_set (seq 0 (length (mm_features request))).

Definition get_freed_mm_hashes : ED (list string) :=
  c ← get;
  _ ← modify (λ c, mkED (ed_cache_size c) (ed_num_free_slots c) [] (allocated c));
  mret (to_free c).

End EncDec.

(** ** Dictionaries with sizes *)
Section dict_facts.
Context {K : Type} `{EqDecision K}.
Implicit Types (d : list (K * Z)).

Definition total d : Z := foldr (λ kv acc, snd kv + acc) 0 d.

Lemma total_app d1 d2 : total (d1 ++ d2) = total d1 + total d2.
Proof. induction d1 as [|kv d1 IH]; simpl; [done|]. unfold total in *. simpl. lia. Qed.

Lemma dict_del_elem k d k' v : (k', v) ∈ dict_del k d ↔ k' ≠ k ∧ (k', v) ∈ d.
Proof. unfold dict_del. rewrite list_elem_of_filter. done. Qed.

Lemma dict_del_NoDup k d : NoDup (fst <$> d) → NoDup (fst <$> dict_del k d).
Proof.
  intros H. unfold dict_del. eapply sublist_NoDup; [apply H|]. apply fmap_sublist, sublist_filter.
Qed.

Lemma dict_del_total k v d :
  NoDup (fst <$> d) → (k, v) ∈ d → total (dict_del k d) = total d - v.
Proof.
  induction d as [|[k' v'] d IH]; simpl; [set_solver|].
  rewrite NoDup_cons, elem_of_cons. intros [Hk' Hd] Hin. unfold dict_del in *.
  rewrite filter_cons. simpl. destruct (decide (k' ≠ k)) as [Hne|Heq].
  - destruct Hin as [|Hin]; [congruence|]. unfold total in *. simpl. rewrite IH by done. lia.
  - apply dec_stable in Heq. subst k'.
    assert (v' = v) as ->.
    { destruct Hin as [|Hin]; [congruence|]. destruct Hk'. apply list_elem_of_fmap. by exists (k, v). }
    rewrite filter_id; [unfold total; simpl; lia|].
    intros [k'' v''] Hin'' E. simpl in E. subst k''. destruct Hk'. apply list_elem_of_fmap. by exists (k, v'').
Qed.

Lemma total_nonneg d : (∀ k v, (k, v) ∈ d → 0 ≤ v) → 0 ≤ total d.
Proof.
  induction d as [|[k v] d IH]; [done|]. intros H.
  pose proof (H k v ltac:(set_solver)). assert (0 ≤ total d) by (apply IH; set_solver).
  unfold total in *. simpl. lia.
Qed.
End dict_facts.

(** ** The invariant

    The features of a request do not change, and inputs with the same
    identifier have the same number of embeddings: the identifier is the hash
    of the data. *)
Section encoder.
Context (feats : string → list MultiModalFeatureSpec) (size : string → Z).
Hypothesis size_nonneg : ∀ h, 0 ≤ size h.
Hypothesis size_of_feature : ∀ rid f, f ∈ feats rid → get_num_embeds (mm_position f) = size (identifier f).

(** An input of a request, and its identifier. *)
Definition input_of (r : Request) (i : nat) (h : string) : Prop :=
  mm_features r = feats (request_id r) ∧ identifier <$> mm_features r !! i = Some h.

Definition weight (m : gmap string (gset string)) : Z := map_fold (λ h _ acc, size h + acc) 0 m.

Lemma weight_empty : weight ∅ = 0.
Proof. apply map_fold_empty. Qed.

Lemma weight_insert_new m h x : m !! h = None → weight (<[h := x]> m) = size h + weight m.
Proof. intros H. unfold weight. rewrite map_fold_insert_L; [done| |done]. intros. lia. Qed.

Lemma weight_delete m h x : m !! h = Some x → weight (delete h m) = weight m - size h.
Proof.
  intros H. rewrite <- (insert_delete_id m h x H) at 2.
  rewrite weight_insert_new by (by apply lookup_delete_eq). lia.
Qed.

Lemma weight_insert m h x y : m !! h = Some x → weight (<[h := y]> m) = weight m.
Proof.
  intros H. rewrite <- insert_delete_eq, weight_insert_new by (by apply lookup_delete_eq).
  rewrite (weight_delete _ _ _ H). lia.
Qed.

Lemma weight_nonneg m : 0 ≤ weight m.
Proof.
  induction m as [|h x m Hh IH] using map_ind; [by rewrite weight_empty|].
  rewrite weight_insert_new by done. pose proof (size_nonneg h). lia.
Qed.

(** The input ids noted for a request. *)
Definition ids_of (c : EncoderCacheManager) (rid : string) : gset nat :=
  default ∅ (request_cached_ids c !! rid).

Record ec_inv (c : EncoderCacheManager) : Prop := {
  ei_free : num_free_slots c = ec_cache_size c - weight (ec_cached c);
  ei_freeable : num_freeable_slots c = num_free_slots c + total (freeable c);
  ei_nonneg : 0 ≤ num_free_slots c;
  ei_nodup : NoDup (fst <$> freeable c);
  ei_keys h n : (h, n) ∈ freeable c ↔ ec_cached c !! h = Some ∅ ∧ n = size h;
  (** A reference is known to the request it is of. *)
  ei_refs h refs rid : ec_cached c !! h = Some refs → rid ∈ refs →
    ∃ i, i ∈ ids_of c rid ∧ identifier <$> feats rid !! i = Some h;
  ei_ids rid i : i ∈ ids_of c rid → (i < length (feats rid))%nat;
}.

Lemma input_hash r i h : input_of r i h → mm_hash_of r i = Ok h.
Proof.
  intros [_ H]. unfold mm_hash_of. destruct (mm_features r !! i); simpl in *; [|done]. by simplify_eq.
Qed.

Lemma input_size r i h : input_of r i h → get_num_encoder_embeds r i = Ok (size h).
Proof.
  intros [Hr H]. unfold get_num_encoder_embeds. destruct (mm_features r !! i) as [f|] eqn:E; simpl in *; [|done].
  simplify_eq. f_equal. eapply size_of_feature. rewrite <- Hr. by eapply list_elem_of_lookup_2.
Qed.

Lemma init_inv n : 0 ≤ n → ec_inv (Encoder.init n).
Proof.
  intros Hn. split; simpl; try done.
  - rewrite weight_empty. lia.
  - unfold total. simpl. lia.
  - constructor.
  - intros h k. rewrite elem_of_nil, lookup_empty. naive_solver.
Qed.

Lemma freeable_nonneg c : ec_inv c → 0 ≤ total (freeable c).
Proof. intros I. apply total_nonneg. intros h n Hin. apply (ei_keys _ I) in Hin as [_ ->]. apply size_nonneg. Qed.

(** *** References *)
(** [h] gains a reference of the request. *)
Definition gained (r : Request) (i : nat) (h : string) (old : gset string) (c c' : EncoderCacheManager) : Prop :=
  ec_cached c' = <[h := {[ request_id r ]} ∪ old]> (ec_cached c) ∧
  request_cached_ids c' =
    <[request_id r := {[ i ]} ∪ default ∅ (request_cached_ids c !! request_id r)]> (request_cached_ids c).

Lemma ids_of_note rid i c rid' :
  ids_of (Encoder.note_cached rid i c) rid' =
    (if decide (rid' = rid) then {[ i ]} ∪ ids_of c rid else ids_of c rid').
Proof.
  unfold ids_of. simpl. case_decide as E; [by rewrite E, lookup_insert_eq|by rewrite lookup_insert_ne].
Qed.

Lemma gained_refs r i h old c c' :
  ec_inv c → input_of r i h → gained r i h old c c' →
  (∀ rid, rid ∈ old → ec_cached c !! h = Some old) →
  (∀ h' refs rid, ec_cached c' !! h' = Some refs → rid ∈ refs →
    ∃ j, j ∈ ids_of c' rid ∧ identifier <$> feats rid !! j = Some h') ∧
  (∀ rid j, j ∈ ids_of c' rid → (j < length (feats rid))%nat).
Proof.
  intros I [Hr Hi] [Hc Hids] Hold. rewrite Hr in Hi.
  assert (Hlt : (i < length (feats (request_id r)))%nat).
  { apply lookup_lt_is_Some. destruct (feats (request_id r) !! i); [by eexists|done]. }
  assert (Hof : ∀ rid, ids_of c' rid = ids_of (Encoder.note_cached (request_id r) i c) rid).
  { intros rid. unfold ids_of. by rewrite Hids. }
  setoid_rewrite Hof. setoid_rewrite ids_of_note. rewrite Hc. split.
  - intros h' refs rid Hl Hin.
    assert (Hcase : (rid = request_id r ∧ h' = h) ∨
              ∃ j, j ∈ ids_of c rid ∧ identifier <$> feats rid !! j = Some h').
    { destruct (decide (h' = h)) as [->|Hne].
      - rewrite lookup_insert_eq in Hl. simplify_eq.
        apply elem_of_union in Hin as [Hin|Hin]; [set_solver|]. right. eapply (ei_refs _ I); eauto.
      - rewrite lookup_insert_ne in Hl by done. right. eapply (ei_refs _ I); eauto. }
    destruct Hcase as [[-> ->]|(j & Hj & Hf)].
    + exists i. rewrite decide_True by done. set_solver.
    + exists j. split; [|done]. case_decide as E; [rewrite E in Hj|]; set_solver.
  - intros rid j. case_decide as E; [rewrite E|]; intros Hj; [|by apply (ei_ids _ I)].
    apply elem_of_union in Hj as [Hj|Hj]; [set_solver|]. by apply (ei_ids _ I).
Qed.

Lemma gained_inv r i h refs c c' :
  ec_inv c → input_of r i h → ec_cached c !! h = Some refs → gained r i h refs c c' →
  ec_cache_size c' = ec_cache_size c → num_free_slots c' = num_free_slots c →
  freeable c' = (if decide (refs = ∅) then dict_del h (freeable c) else freeable c) →
  num_freeable_slots c' = num_free_slots c' + total (freeable c') → ec_inv c'.
Proof.
  intros I Hin El Hg Hsz Hfree Hfr Hfs.
  destruct (gained_refs _ _ _ _ _ _ I Hin Hg ltac:(done)) as [G1 G2]. destruct Hg as [Hg _].
  split; try done.
  - by rewrite Hfree, (ei_free _ I), Hsz, Hg, (weight_insert _ _ _ _ El).
  - rewrite Hfree. apply (ei_nonneg _ I).
  - rewrite Hfr. case_decide; [apply dict_del_NoDup|]; apply (ei_nodup _ I).
  - intros h' n. rewrite Hfr, Hg. destruct (decide (h' = h)) as [->|Hne].
    + rewrite lookup_insert_eq. case_decide as Hr; rewrite ?dict_del_elem, (ei_keys _ I), ?El; [naive_solver set_solver|].
      split; [naive_solver|]. intros [HE%(inj Some) _]. set_solver.
    + rewrite lookup_insert_ne by done. case_decide; rewrite ?dict_del_elem, (ei_keys _ I); naive_solver.
Qed.

Lemma add_ref_gained r i h refs c c1 :
  ec_cached c !! h = Some refs → ec_cached c1 = ec_cached c → request_cached_ids c1 = request_cached_ids c →
  gained r i h refs c (Encoder.note_cached (request_id r) i (Encoder.add_ref h (request_id r) c1)).
Proof.
  intros El Hc Hids. split; simpl; rewrite ?Hc, ?Hids; [|done].
  apply map_eq. intros h'. destruct (decide (h' = h)) as [->|].
  - by rewrite lookup_alter_eq, El, lookup_insert_eq.
  - by rewrite lookup_alter_ne, lookup_insert_ne by done.
Qed.

(** *** The operations *)
Lemma check_spec r i h c :
  ec_inv c → input_of r i h →
  wp (Encoder.check_and_update_cache r i) (λ b c',
    ec_inv c' ∧ num_free_slots c' = num_free_slots c ∧ ec_cache_size c' = ec_cache_size c ∧
    freed c' = freed c ∧
    match ec_cached c !! h with
    | None => b = false ∧ c' = c
    | Some refs =>
        b = true ∧ gained r i h refs c c' ∧
        freeable c' = (if decide (refs = ∅) then dict_del h (freeable c) else freeable c)
    end) c.
Proof.
  intros I Hin. unfold Encoder.check_and_update_cache. rewrite (input_hash _ _ _ Hin).
  wp_step. change (of_res (Ok h)) with (@mret (M EncoderCacheManager) _ _ h). wp_step.
  destruct (ec_cached c !! h) as [refs|] eqn:El; wp_step; [|done].
  pose proof (ei_freeable _ I) as Hfs.
  destruct (decide (refs = ∅)) as [Hr|Hr].
  - assert (Hd : (h, size h) ∈ freeable c) by (apply (ei_keys _ I); by rewrite El, Hr).
    rewrite (proj2 (dict_get_elem _ _ _ (ei_nodup _ I)) Hd). wp_step. simpl.
    pose proof (dict_del_total _ _ _ (ei_nodup _ I) Hd) as Ht.
    split_and!; try done; [|by apply add_ref_gained].
    eapply (gained_inv r i h refs c); try done; [by apply add_ref_gained|by rewrite decide_True|simpl; lia].
  - wp_step. split_and!; try done; [|by apply add_ref_gained].
    eapply (gained_inv r i h refs c); try done; [by apply add_ref_gained|by rewrite decide_False].
Qed.

(** What evicting the [k] oldest unreferenced entries does. *)
Record evicted (k : nat) (c c' : EncoderCacheManager) : Prop := {
  ev_freeable : freeable c' = drop k (freeable c);
  ev_freed : freed c' = freed c ++ (fst <$> take k (freeable c));
  ev_cached h : ec_cached c' !! h = (if decide (h ∈ fst <$> take k (freeable c)) then None else ec_cached c !! h);
  ev_ids : request_cached_ids c' = request_cached_ids c;
  ev_size : ec_cache_size c' = ec_cache_size c;
  ev_slots : num_free_slots c' = num_free_slots c + total (take k (freeable c));
  ev_freeable_slots : num_freeable_slots c' = num_freeable_slots c;
}.

Lemma evicted_0 c : evicted 0 c c.
Proof.
  split; simpl; try done; [by rewrite app_nil_r|unfold total; simpl; lia].
Qed.

Definition evict_one (h : string) (n : Z) (rest : list (string * Z)) (c : EncoderCacheManager) :=
  mkEC (ec_cache_size c) (num_free_slots c + n) (num_freeable_slots c) (delete h (ec_cached c))
    (request_cached_ids c) rest (freed c ++ [h]).

Lemma evict_one_inv h n rest c :
  ec_inv c → freeable c = (h, n) :: rest → ec_cached c !! h = Some ∅ ∧ ec_inv (evict_one h n rest c).
Proof.
  intros I Hf. pose proof (ei_keys _ I) as Hk. pose proof (ei_nodup _ I) as Hnd.
  rewrite Hf in Hk, Hnd. apply NoDup_cons in Hnd as [Hh Hnd].
  destruct (proj1 (Hk h n) ltac:(set_solver)) as [Hc ->]. split; [done|].
  split; simpl; try done.
  - rewrite (weight_delete _ _ _ Hc), (ei_free _ I). lia.
  - rewrite (ei_freeable _ I), Hf. unfold total. simpl. lia.
  - pose proof (ei_nonneg _ I). pose proof (size_nonneg h). lia.
  - intros h' n. destruct (decide (h' = h)) as [->|Hne].
    + rewrite lookup_delete_eq. split; [|naive_solver]. intros Hin. destruct Hh.
      apply list_elem_of_fmap. by exists (h, n).
    + rewrite lookup_delete_ne by done. rewrite <- Hk, elem_of_cons. naive_solver.
  - intros h' refs rid Hl. destruct (decide (h' = h)) as [->|Hne].
    + by rewrite lookup_delete_eq in Hl.
    + rewrite lookup_delete_ne in Hl by done. by apply (ei_refs _ I).
  - apply (ei_ids _ I).
Qed.

Lemma evict_one_evicted h n rest c k c' :
  freeable c = (h, n) :: rest → evicted k (evict_one h n rest c) c' → evicted (S k) c c'.
Proof.
  intros Hf [H1 H2 H3 H4 H5 H6 H7]. split; rewrite ?Hf; simpl in *; try done.
  - rewrite H2, <- app_assoc. done.
  - intros h'. rewrite H3. destruct (decide (h' = h)) as [->|Hne].
    + rewrite lookup_delete_eq. repeat case_decide; set_solver.
    + rewrite lookup_delete_ne by done. repeat case_decide; set_solver.
  - rewrite H6. unfold total. simpl. lia.
Qed.

Lemma evict_loop_spec fuel n : ∀ c,
  ec_inv c → n ≤ num_freeable_slots c → (length (freeable c) < fuel)%nat →
  wp (Encoder.evict_loop fuel n) (λ _ c', ec_inv c' ∧ n ≤ num_free_slots c' ∧
    ∃ k, evicted k c c' ∧
         (k = 0%nat ∨ num_free_slots c + total (take (pred k) (freeable c)) < n)) c.
Proof.
  induction fuel as [|fuel IH]; intros c I Hn Hfuel; [lia|]. simpl. wp_step.
  destruct (Z.ltb_spec (num_free_slots c) n) as [Hlt|Hge].
  - pose proof (ei_freeable _ I) as Hfs.
    destruct (freeable c) as [|[h x] rest] eqn:Hf; [unfold total in Hfs; simpl in *; lia|].
    destruct (evict_one_inv _ _ _ _ I Hf) as [Hc I']. wp_step. simpl. rewrite Hc.
    change (of_opt KeyError (Some ∅)) with (@mret (M EncoderCacheManager) _ _ (∅ : gset string)).
    wp_step. simpl in *.
    eapply wp_mono; [apply (IH (evict_one h x rest c)); [done|done|simpl; lia]|].
    intros _ c' (HI & Hle & k & Hk & Hmin). split; [done|]. split; [done|].
    exists (S k). split; [by eapply evict_one_evicted|]. right.
    destruct Hmin as [->|Hmin]; [unfold total; simpl; lia|].
    simpl in *. destruct k; [simpl; unfold total in *; simpl in *; lia|].
    simpl in *. unfold total in *. simpl. lia.
  - wp_step. split; [done|]. split; [done|]. exists 0%nat. split; [apply evicted_0|by left].
Qed.

Lemma can_allocate_spec r i h budget sched c :
  ec_inv c → input_of r i h →
  wp (Encoder.can_allocate r i budget sched) (λ b c',
    b = bool_decide (size h ≤ budget ∧ size h + sched ≤ num_freeable_slots c) ∧ ec_inv c' ∧
    (b = true → size h + sched ≤ num_free_slots c') ∧
    ∃ k, evicted k c c' ∧
      (k = 0%nat ∨ num_free_slots c + total (take (pred k) (freeable c)) < size h + sched)) c.
Proof.
  intros I Hin. unfold Encoder.can_allocate. rewrite (input_size _ _ _ Hin).
  change (of_res (Ok (size h))) with (@mret (M EncoderCacheManager) _ _ (size h)). wp_step.
  pose proof (ei_freeable _ I) as Hfs. pose proof (freeable_nonneg _ I).
  pose proof (evicted_0 c). apply wp_if; rewrite ?Z.ltb_lt, ?Z.ltb_ge; intros Hb.
  { wp_step. rewrite bool_decide_false by lia. split_and!; try done. exists 0%nat. split; [done|by left]. }
  wp_step. apply wp_if; rewrite ?Z.leb_le, ?Z.leb_gt; intros Hf.
  { wp_step. rewrite bool_decide_true by lia. split_and!; try done. exists 0%nat. split; [done|by left]. }
  apply wp_if; rewrite ?Z.ltb_lt, ?Z.ltb_ge; intros Ha; wp_step.
  { rewrite bool_decide_false by lia. split_and!; try done. exists 0%nat. split; [done|by left]. }
  eapply wp_mono; [apply evict_loop_spec; [done|lia|lia]|].
  intros _ c' (I' & Hle & Hk). wp_step. rewrite bool_decide_true by lia. done.
Qed.

Lemma allocate_spec r i h c :
  ec_inv c → input_of r i h → ec_cached c !! h = None → size h ≤ num_free_slots c →
  wp (Encoder.allocate r i) (λ _ c',
    ec_inv c' ∧ gained r i h ∅ c c' ∧ num_free_slots c' = num_free_slots c - size h ∧
    freeable c' = freeable c ∧ freed c' = freed c ∧ ec_cache_size c' = ec_cache_size c) c.
Proof.
  intros I Hin El Hle. unfold Encoder.allocate. rewrite (input_hash _ _ _ Hin), (input_size _ _ _ Hin).
  change (of_res (Ok h)) with (@mret (M EncoderCacheManager) _ _ h). wp_step.
  change (of_res (Ok (size h))) with (@mret (M EncoderCacheManager) _ _ (size h)). wp_step.
  rewrite decide_False by (by apply not_elem_of_dom). simpl.
  pose proof (ei_freeable _ I) as Hfs. pose proof (freeable_nonneg _ I).
  rewrite !Z.leb_le. split; [lia|]. split; [lia|].
  match goal with |- ec_inv ?c' ∧ _ => set (c1 := c') end.
  assert (Hg : gained r i h ∅ c c1).
  { split; simpl; [|done]. apply map_eq. intros h'. destruct (decide (h' = h)) as [->|].
    - by rewrite lookup_alter_eq, !lookup_insert_eq.
    - by rewrite lookup_alter_ne, !lookup_insert_ne by done. }
  split_and!; try done.
  destruct (gained_refs _ _ _ _ _ _ I Hin Hg ltac:(set_solver)) as [G1 G2]. destruct Hg as [Hg _].
  split; try done; simpl.
  - simpl in Hg. rewrite Hg, weight_insert_new, (ei_free _ I) by done. lia.
  - lia.
  - lia.
  - apply (ei_nodup _ I).
  - intros h' n. rewrite (ei_keys _ I). simpl in Hg. rewrite Hg.
    destruct (decide (h' = h)) as [->|]; [|by rewrite lookup_insert_ne].
    rewrite lookup_insert_eq, El. split; [naive_solver|]. intros [HE%(inj Some) _]. set_solver.
Qed.

(** *** Giving references back *)
(** [h] loses the reference of the request. *)
Record released (r : Request) (i : nat) (h : string) (c c' : EncoderCacheManager) : Prop := {
  rl_cached h' : ec_cached c' !! h' =
    (if decide (h' = h) then (.∖ {[ request_id r ]}) <$> ec_cached c !! h' else ec_cached c !! h');
  rl_ids rid : ids_of c' rid = (if decide (rid = request_id r) then ids_of c rid ∖ {[ i ]} else ids_of c rid);
  rl_freeable : freeable c' = freeable c ++
    (if decide (ec_cached c !! h = Some {[ request_id r ]}) then [(h, size h)] else []);
  rl_free : num_free_slots c' = num_free_slots c;
  rl_size : ec_cache_size c' = ec_cache_size c;
  rl_freed : freed c' = freed c;
  rl_slots : num_freeable_slots c' = num_free_slots c + total (freeable c');
}.

Lemma ids_of_forget rid i c rid' :
  ids_of (Encoder.forget_cached rid i c) rid' =
    (if decide (rid' = rid) then ids_of c rid' ∖ {[ i ]} else ids_of c rid').
Proof.
  unfold ids_of, Encoder.forget_cached. destruct (request_cached_ids c !! rid) as [ids|] eqn:E; simpl.
  - destruct (decide (ids ∖ {[i]} = ∅)) as [Hi|Hi]; case_decide as Er; subst;
      rewrite ?lookup_delete_eq, ?lookup_insert_eq, ?lookup_delete_ne, ?lookup_insert_ne by done;
      rewrite ?E; simpl; done.
  - case_decide as Er; subst; [|done]. rewrite E. set_solver.
Qed.

Lemma last_reference (refs : gset string) rid : refs ∖ {[ rid ]} = ∅ → refs = ∅ ∨ refs = {[ rid ]}.
Proof.
  intros H. assert (Hall : ∀ x, x ∈ refs → x = rid).
  { intros x Hx. destruct (decide (x = rid)); [done|]. set_solver. }
  destruct (decide (rid ∈ refs)); [right|left]; set_solver.
Qed.

Lemma released_inv r i h c c' : ec_inv c → input_of r i h → released r i h c c' → ec_inv c'.
Proof.
  intros I [Hr Hi] R. rewrite Hr in Hi.
  assert (Hw : weight (ec_cached c') = weight (ec_cached c)).
  { destruct (ec_cached c !! h) as [refs|] eqn:E.
    - replace (ec_cached c') with (<[h := refs ∖ {[request_id r]}]> (ec_cached c)); [by eapply weight_insert|].
      apply map_eq. intros h'. rewrite (rl_cached _ _ _ _ _ R). case_decide as Eh; subst.
      + by rewrite E, lookup_insert_eq.
      + by rewrite lookup_insert_ne.
    - f_equal. apply map_eq. intros h'. rewrite (rl_cached _ _ _ _ _ R). case_decide as Eh; subst; by rewrite ?E. }
  split.
  - rewrite (rl_free _ _ _ _ _ R), (rl_size _ _ _ _ _ R), Hw. apply (ei_free _ I).
  - rewrite (rl_slots _ _ _ _ _ R), (rl_free _ _ _ _ _ R). done.
  - rewrite (rl_free _ _ _ _ _ R). apply (ei_nonneg _ I).
  - rewrite (rl_freeable _ _ _ _ _ R). case_decide as E; [|rewrite app_nil_r; apply (ei_nodup _ I)].
    rewrite fmap_app. apply NoDup_app. split; [apply (ei_nodup _ I)|]. split; [|apply NoDup_singleton].
    simpl. intros h' [[h'' n] [Eh [Hin _]%(ei_keys _ I)]]%list_elem_of_fmap Eh'%list_elem_of_singleton.
    simpl in *. subst h' h''. rewrite E in Hin. apply (inj Some) in Hin. set_solver.
  - intros h' n. rewrite (rl_freeable _ _ _ _ _ R), (rl_cached _ _ _ _ _ R), elem_of_app, (ei_keys _ I).
    destruct (decide (h' = h)) as [->|Hne].
    + case_decide as E.
      * rewrite E, list_elem_of_singleton. simpl. rewrite difference_diag_L. naive_solver.
      * rewrite elem_of_nil. destruct (ec_cached c !! h) as [refs|] eqn:E'; simpl; [|naive_solver].
        split; [intros [[Hx%(inj Some) ?]|?]; [|done]; split; [f_equal; set_solver|done]|].
        intros [Hx%(inj Some) ?]. left. split; [|done]. f_equal.
        destruct (last_reference _ _ Hx) as [->| ->]; done.
    + case_decide; rewrite ?list_elem_of_singleton, ?elem_of_nil; naive_solver.
  - intros h' refs rid. rewrite (rl_cached _ _ _ _ _ R). intros Hl Hin.
    assert (Hold : ∃ old, ec_cached c !! h' = Some old ∧ rid ∈ old ∧ (rid = request_id r → h' ≠ h)).
    { case_decide as E; [|naive_solver]. apply fmap_Some in Hl as (old & Ho & ->). exists old. set_solver. }
    destruct Hold as (old & Ho & Hin' & Hne). destruct (ei_refs _ I _ _ _ Ho Hin') as (j & Hj & Hf).
    exists j. split; [|done]. rewrite (rl_ids _ _ _ _ _ R). destruct (decide (rid = request_id r)) as [E|]; [|done].
    assert (j ≠ i) by (intros ->; subst rid; apply Hne; congruence). set_solver.
  - intros rid j. rewrite (rl_ids _ _ _ _ _ R). intros Hj. apply (ei_ids _ I). case_decide; set_solver.
Qed.

Lemma free_encoder_input_spec r i h c :
  ec_inv c → input_of r i h → wp (Encoder.free_encoder_input r i) (λ _ c', released r i h c c') c.
Proof.
  intros I Hin. unfold Encoder.free_encoder_input. rewrite (input_hash _ _ _ Hin).
  change (of_res (Ok h)) with (@mret (M EncoderCacheManager) _ _ h). wp_step.
  set (c1 := Encoder.forget_cached (request_id r) i c).
  assert (H1 : ec_cached c1 = ec_cached c ∧ freeable c1 = freeable c ∧ num_free_slots c1 = num_free_slots c ∧
               num_freeable_slots c1 = num_freeable_slots c ∧ ec_cache_size c1 = ec_cache_size c ∧ freed c1 = freed c).
  { unfold c1, Encoder.forget_cached. by destruct (request_cached_ids c !! _). }
  destruct H1 as (Hc & Hf & Hn & Hn' & Hs & Hd).
  pose proof (λ rid, ids_of_forget (request_id r) i c rid) as Hids. fold c1 in Hids.
  pose proof (ei_freeable _ I) as Hfs. rewrite Hc.
  assert (Hnone : ∀ x, ec_cached c !! h = x → (∀ refs, x = Some refs → refs = ∅) → released r i h c c1).
  { intros x Hx Hempty. split; rewrite ?Hc, ?Hf, ?Hn, ?Hn'; try done.
    - intros h'. case_decide as E; [|done]. subst h'. rewrite Hx.
      destruct x as [refs|]; simpl; [|done]. f_equal. rewrite (Hempty refs) by done. set_solver.
    - rewrite decide_False; [by rewrite app_nil_r|]. rewrite Hx. intros ->. specialize (Hempty _ eq_refl). set_solver. }
  destruct (ec_cached c !! h) as [refs|] eqn:El; [|wp_step; eapply Hnone; [done|naive_solver]].
  destruct (decide (refs = ∅)) as [->|Hne]; [wp_step; eapply Hnone; [done|naive_solver]|]. wp_step.
  clear Hnone.
  assert (Hlook : ∀ h', <[h := refs ∖ {[request_id r]}]> (ec_cached c) !! h' =
    (if decide (h' = h) then (.∖ {[ request_id r ]}) <$> ec_cached c !! h' else ec_cached c !! h')).
  { intros h'. case_decide as E; [|by rewrite lookup_insert_ne]. subst h'. by rewrite lookup_insert_eq, El. }
  destruct (decide (refs ∖ {[request_id r]} = ∅)) as [Hl|Hl].
  - destruct (last_reference _ _ Hl) as [|Hrefs]; [done|].
    rewrite (input_size _ _ _ Hin). change (of_res (Ok (size h))) with (@mret (M EncoderCacheManager) _ _ (size h)).
    wp_step. assert (Hfresh : h ∉ fst <$> freeable c).
    { intros ([h' n] & Eh & Hh')%list_elem_of_fmap. simpl in Eh. subst h'.
      apply (ei_keys _ I) in Hh' as [Hh' _]. congruence. }
    split; simpl; rewrite ?Hf, ?Hn, ?Hn', ?dict_set_fresh by done; try done.
    + rewrite El, decide_True by congruence. done.
    + rewrite total_app, Hfs. unfold total at 3. simpl. lia.
  - wp_step. split; simpl; rewrite ?Hf, ?Hn, ?Hn'; try done.
    rewrite El, decide_False; [by rewrite app_nil_r|]. intros [= ->]. apply Hl. set_solver.
Qed.

Definition hashes_of (r : Request) (ids : list nat) : list string :=
  omap (λ i, identifier <$> mm_features r !! i) ids.

(** What giving back a list of inputs does. *)
Record released_all (r : Request) (ids : list nat) (c c' : EncoderCacheManager) : Prop := {
  ra_inv : ec_inv c';
  ra_cached h : ec_cached c' !! h =
    (if decide (h ∈ hashes_of r ids)
     then (.∖ {[ request_id r ]}) <$> ec_cached c !! h else ec_cached c !! h);
  ra_ids rid : ids_of c' rid = (if decide (rid = request_id r) then ids_of c rid ∖ list_to_set ids else ids_of c rid);
  ra_free : num_free_slots c' = num_free_slots c;
  ra_size : ec_cache_size c' = ec_cache_size c;
  ra_freed : freed c' = freed c;
  ra_freeable : freeable c `prefix_of` freeable c';
}.

Lemma released_all_nil r c : ec_inv c → released_all r [] c c.
Proof.
  intros I. split; simpl; try done. intros rid. case_decide; [|done]. set_solver.
Qed.

Lemma released_all_snoc r ids i h c c1 c2 :
  input_of r i h → released_all r ids c c1 → released r i h c1 c2 → released_all r (ids ++ [i]) c c2.
Proof.
  intros Hin R1 R2. assert (Hh : hashes_of r (ids ++ [i]) = hashes_of r ids ++ [h]).
  { unfold hashes_of. rewrite omap_app. simpl. by rewrite (proj2 Hin). }
  split.
  - eapply released_inv; [apply R1|done|done].
  - intros h'. rewrite Hh, (rl_cached _ _ _ _ _ R2), (ra_cached _ _ _ _ R1).
    assert (Hidem : ∀ o : option (gset string),
      (.∖ {[request_id r]}) <$> ((.∖ {[request_id r]}) <$> o) = (.∖ {[request_id r]}) <$> o).
    { intros [x|]; simpl; [|done]. f_equal. set_solver. }
    destruct (decide (h' = h)) as [->|Hne].
    + rewrite (decide_True (P := h ∈ hashes_of r ids ++ [h])) by set_solver. case_decide; [apply Hidem|done].
    + repeat case_decide; set_solver.
  - intros rid. rewrite (rl_ids _ _ _ _ _ R2), (ra_ids _ _ _ _ R1). case_decide as E; [|done].
    rewrite list_to_set_app_L. simpl. set_solver.
  - rewrite (rl_free _ _ _ _ _ R2). apply R1.
  - rewrite (rl_size _ _ _ _ _ R2). apply R1.
  - rewrite (rl_freed _ _ _ _ _ R2). apply R1.
  - rewrite (rl_freeable _ _ _ _ _ R2). etrans; [apply R1|]. by eexists.
Qed.

Lemma free_spec set_iter r c :
  ec_inv c → mm_features r = feats (request_id r) →
  (∀ s : gset nat, set_iter s ≡ₚ elements s) →
  wp (Encoder.free set_iter r) (λ _ c',
    released_all r (set_iter (ids_of c (request_id r))) c c') c.
Proof.
  intros I Hr Hiter. unfold Encoder.free. wp_step. change (Encoder.get_cached_input_ids r c) with (ids_of c (request_id r)).
  apply (wp_for_each (λ pre c', released_all r pre c c')); [by apply released_all_nil|].
  intros pre i suf c1 Hl HI.
  assert (Hlt : (i < length (feats (request_id r)))%nat).
  { apply (ei_ids _ I). apply elem_of_elements. rewrite <- Hiter, Hl. set_solver. }
  apply lookup_lt_is_Some in Hlt as [f Hf].
  assert (Hin : input_of r i (identifier f)) by (split; [done|by rewrite Hr, Hf]).
  eapply wp_mono; [apply (free_encoder_input_spec r i (identifier f)); [apply HI|done]|].
  intros ? c2 R. by eapply released_all_snoc.
Qed.

(** After [free] no entry refers to the request. *)
Lemma free_forgets set_iter r c c' h refs :
  ec_inv c → mm_features r = feats (request_id r) → (∀ s : gset nat, set_iter s ≡ₚ elements s) →
  released_all r (set_iter (ids_of c (request_id r))) c c' →
  ec_cached c' !! h = Some refs → request_id r ∉ refs.
Proof.
  intros I Hr Hiter R. rewrite (ra_cached _ _ _ _ R).
  destruct (decide (h ∈ hashes_of r _)) as [Hin|Hin].
  - intros (old & _ & ->)%fmap_Some. set_solver.
  - intros Hl Hrid. destruct (ei_refs _ I _ _ _ Hl Hrid) as (i & Hi & Hf).
    apply Hin. unfold hashes_of. apply list_elem_of_omap. exists i. rewrite Hr. split; [|done].
    rewrite Hiter. by apply elem_of_elements.
Qed.

(** *** Histories *)
Inductive ec_op :=
  | OpCheck (r : Request) (i : nat)
  | OpCan (r : Request) (i : nat) (budget sched : Z)
  | OpAllocate (r : Request) (i : nat)
  | OpFreeInput (r : Request) (i : nat)
  | OpFree (r : Request)
  | OpGetFreed
  | OpReset.

Context (set_iter : gset nat → list nat).
Hypothesis set_iter_elements : ∀ s, set_iter s ≡ₚ elements s.

Definition run_ec_op (op : ec_op) : M EncoderCacheManager () :=
  match op with
  | OpCheck r i => _ ← Encoder.check_and_update_cache r i; mret tt
  | OpCan r i budget sched => _ ← Encoder.can_allocate r i budget sched; mret tt
  | OpAllocate r i => Encoder.allocate r i
  | OpFreeInput r i => Encoder.free_encoder_input r i
  | OpFree r => Encoder.free set_iter r
  | OpGetFreed => _ ← Encoder.get_freed_mm_hashes; mret tt
  | OpReset => Encoder.reset
  end.

(** What a caller owes: inputs of its requests, and an [allocate] only of an
    entry that is not cached and fits. *)
Definition ec_op_ok (c : EncoderCacheManager) (op : ec_op) : Prop :=
  match op with
  | OpCheck r i | OpCan r i _ _ | OpFreeInput r i => ∃ h, input_of r i h
  | OpAllocate r i => ∃ h, input_of r i h ∧ ec_cached c !! h = None ∧ size h ≤ num_free_slots c
  | OpFree r => mm_features r = feats (request_id r)
  | OpGetFreed | OpReset => True
  end.

Inductive ec_reach : EncoderCacheManager → Prop :=
  | ec_reach_init n : 0 ≤ n → ec_reach (Encoder.init n)
  | ec_reach_step c op c' : ec_reach c → ec_op_ok c op → run_ec_op op c = (Ok tt, c') → ec_reach c'.

Lemma evicted_0_inv c : ec_inv c → ec_inv (ec_set_freed [] c).
Proof. intros [H1 H2 H3 H4 H5 H6 H7]. by split. Qed.

Lemma run_ec_op_inv c op :
  ec_inv c → ec_op_ok c op → wp (run_ec_op op) (λ _ c', ec_inv c' ∧ ec_cache_size c' = ec_cache_size c) c.
Proof.
  intros I Hok. destruct op as [r i|r i bg sd|r i|r i|r| |]; simpl in *.
  - destruct Hok as [h Hin]. wp_step. eapply wp_mono; [by apply (check_spec r i h)|].
    intros b c' (HI & ? & ? & _). by wp_step.
  - destruct Hok as [h Hin]. wp_step. eapply wp_mono; [by apply (can_allocate_spec r i h)|].
    intros b c' (_ & HI & _ & k & Hk & _). wp_step. split; [done|apply Hk].
  - destruct Hok as (h & Hin & Hn & Hs). eapply wp_mono; [by apply (allocate_spec r i h)|]. naive_solver.
  - destruct Hok as [h Hin]. eapply wp_mono; [by apply (free_encoder_input_spec r i h)|].
    intros ? c' R. split; [by eapply released_inv|apply R].
  - eapply wp_mono; [by apply free_spec|]. intros ? c' R. split; apply R.
  - wp_step. split; [by apply evicted_0_inv|done].
  - wp_step. split; [|done]. apply init_inv.
    pose proof (ei_free _ I). pose proof (ei_nonneg _ I).
    pose proof (weight_nonneg (ec_cached c)). lia.
Qed.

Lemma ec_reach_inv c : ec_reach c → ec_inv c.
Proof.
  induction 1 as [n Hn|c op c' Hr IH Hok Hrun]; [by apply init_inv|].
  pose proof (run_ec_op_inv _ _ IH Hok) as W. unfold wp in W. rewrite Hrun in W. apply W.
Qed.

(** The slots in use, when every entry is referenced or can be evicted. *)
Lemma total_unreferenced c : ec_inv c →
  (∀ h refs, ec_cached c !! h = Some refs → refs = ∅) → num_freeable_slots c = ec_cache_size c.
Proof.
  intros I Hall. rewrite (ei_freeable _ I), (ei_free _ I).
  cut (total (freeable c) = weight (ec_cached c)); [lia|].
  assert (Hk : ∀ h n, (h, n) ∈ freeable c ↔ is_Some (ec_cached c !! h) ∧ n = size h).
  { intros h n. rewrite (ei_keys _ I). split; [naive_solver|]. intros [[refs Hr] ->].
    rewrite Hr, (Hall _ _ Hr). done. }
  pose proof (ei_nodup _ I) as Hnd. clear Hall I. revert Hk Hnd.
  generalize (ec_cached c) as m. induction (freeable c) as [|[h n] d IH]; intros m Hk Hnd.
  - replace m with (∅ : gmap string (gset string)); [by rewrite weight_empty|].
    symmetry. apply map_eq. intros h. rewrite lookup_empty. destruct (m !! h) eqn:E; [|done].
    exfalso. eapply (not_elem_of_nil (h, size h)), Hk. by rewrite E.
  - apply NoDup_cons in Hnd as [Hh Hnd]. destruct (proj1 (Hk h n) ltac:(set_solver)) as [[x Hx] ->].
    rewrite <- (insert_delete_id m h x Hx), weight_insert_new by (by apply lookup_delete_eq).
    rewrite <- (IH (delete h m)); [done| |done].
    intros h' n'. destruct (decide (h' = h)) as [->|Hne].
    + rewrite lookup_delete_eq. split; [|intros [[] ?]; done]. intros Hin. destruct Hh.
      apply list_elem_of_fmap. by exists (h, n').
    + rewrite lookup_delete_ne by done. rewrite <- Hk, elem_of_cons. naive_solver.
Qed.

(** ** Properties *)
(** C30. Safety of the encoder cache. Every state the manager reaches accounts
    for its slots: the free slots and the sizes of the cached entries add up to
    the capacity and neither is negative; [num_freeable_slots] counts in
    addition exactly the entries no request refers to, each once in the
    [freeable] dictionary under its own size. No operation raises: in
    particular no lookup of an unreferenced entry in [freeable], no eviction
    from an empty dictionary and neither assertion of [allocate] fails. *)
Theorem encoder_cache_safe c op :
  ec_reach c → ec_op_ok c op →
  (0 ≤ num_free_slots c ∧ num_free_slots c + weight (ec_cached c) = ec_cache_size c ∧
   num_freeable_slots c = num_free_slots c + total (freeable c) ∧ NoDup (fst <$> freeable c) ∧
   (∀ h n, (h, n) ∈ freeable c ↔ ec_cached c !! h = Some ∅ ∧ n = size h)) ∧
  ∃ c', run_ec_op op c = (Ok tt, c') ∧ ec_reach c' ∧ ec_cache_size c' = ec_cache_size c.
Proof.
  intros Hr Hok. pose proof (ec_reach_inv _ Hr) as I. split.
  - pose proof (ei_free _ I). split_and!; try apply I. lia.
  - destruct (wp_elim _ _ _ (run_ec_op_inv _ _ I Hok)) as ([] & c' & Hrun & _ & Hs).
    exists c'. split_and!; try done. by eapply ec_reach_step.
Qed.

(** C31. [can_allocate] decides exactly: it returns true if and only if the
    input fits the compute budget and, with the embeddings already scheduled,
    the slots that are free or can be reclaimed. When it returns true the free
    slots are enough afterwards. It evicts the oldest unreferenced entries and
    no more of them than it has to, tells their hashes to the workers through
    [freed], and keeps every entry that a request refers to. *)
Theorem can_allocate_exact c r i h budget sched :
  ec_reach c → input_of r i h →
  ∃ b c' k, Encoder.can_allocate r i budget sched c = (Ok b, c') ∧
    (b = true ↔ size h ≤ budget ∧ size h + sched ≤ num_freeable_slots c) ∧
    (b = true → size h + sched ≤ num_free_slots c') ∧
    freeable c' = drop k (freeable c) ∧
    freed c' = freed c ++ (fst <$> take k (freeable c)) ∧
    (k = 0%nat ∨ num_free_slots c + total (take (pred k) (freeable c)) < size h + sched) ∧
    (∀ h' refs, ec_cached c !! h' = Some refs → refs ≠ ∅ → ec_cached c' !! h' = Some refs).
Proof.
  intros Hr Hin. pose proof (ec_reach_inv _ Hr) as I.
  destruct (wp_elim _ _ _ (can_allocate_spec r i h budget sched c I Hin))
    as (b & c' & Hrun & -> & _ & Hfit & k & Hk & Hmin).
  exists (bool_decide (size h ≤ budget ∧ size h + sched ≤ num_freeable_slots c)), c', k.
  split; [done|]. split; [apply bool_decide_eq_true|]. split; [done|]. split; [apply Hk|].
  split; [apply Hk|]. split; [done|]. intros h' refs Hl Hne. rewrite (ev_cached _ _ _ Hk), decide_False; [done|].
  intros ([h'' n] & -> & Hin')%list_elem_of_fmap. apply elem_of_take in Hin' as (j & Hj & _).
  apply list_elem_of_lookup_2, (ei_keys _ I) in Hj as [Hj _]. simpl in *. congruence.
Qed.

(** The inputs a step schedules are all allocated: when they have distinct
    identifiers, none of them cached, and together they fit the free slots
    (which [can_allocate] ensured), then no [allocate] of the loop fails its
    assertions, the free slots shrink by exactly their sizes, and every one of
    them is referenced by the request. *)
Theorem scheduled_inputs_allocated c r ids hs :
  ec_reach c → Forall2 (input_of r) ids hs → NoDup hs →
  (∀ h, h ∈ hs → ec_cached c !! h = None) →
  foldr (λ h acc, size h + acc) 0 hs ≤ num_free_slots c →
  wp (for_each ids (Encoder.allocate r)) (λ _ c',
    num_free_slots c' = num_free_slots c - foldr (λ h acc, size h + acc) 0 hs ∧
    freeable c' = freeable c ∧
    (∀ h, h ∈ hs → ec_cached c' !! h = Some {[ request_id r ]}) ∧
    (∀ h, h ∉ hs → ec_cached c' !! h = ec_cached c !! h)) c.
Proof.
  intros Hr%ec_reach_inv H. revert c Hr.
  induction H as [|i h ids hs Hin H IH]; intros c I Hnd Hnone Hfit; simpl in *.
  { wp_step. split; [lia|]. split; [done|]. split; [set_solver|done]. }
  apply NoDup_cons in Hnd as [Hh Hnd]. wp_step.
  assert (0 ≤ foldr (λ h acc, size h + acc) 0 hs).
  { clear -size_nonneg. induction hs as [|h hs IH]; simpl; [done|]. pose proof (size_nonneg h). lia. }
  eapply wp_mono; [apply (allocate_spec r i h); [done|done|apply Hnone; set_solver|lia]|].
  intros ? c1 (I1 & [Hc1 _] & Hf1 & Hfr1 & _).
  assert (Hne : ∀ h', h' ≠ h → ec_cached c1 !! h' = ec_cached c !! h').
  { intros h' Hn. by rewrite Hc1, lookup_insert_ne. }
  eapply wp_mono; [apply (IH c1); [done|done| |lia]|].
  { intros h' Hh'. rewrite Hne by congruence. apply Hnone. set_solver. }
  intros ? c2 (Hf2 & Hfr2 & Hin2 & Hout2). split; [lia|]. split; [congruence|]. split.
  - intros h' [->|Hh']%elem_of_cons; [|by apply Hin2].
    rewrite Hout2, Hc1, lookup_insert_eq by done. f_equal. set_solver.
  - intros h' Hh'. rewrite Hout2, Hne by set_solver. done.
Qed.

(** [free] gives back every reference of a request, in whatever order the
    set of its inputs is iterated: afterwards no entry refers to it and no
    input is noted for it, the other requests keep theirs, and every entry
    stays cached, with the free slots unchanged; the entries nobody refers to
    any more are added behind the older ones. *)
Theorem free_request_references c r :
  ec_reach c → mm_features r = feats (request_id r) →
  wp (Encoder.free set_iter r) (λ _ c',
    dom (ec_cached c') = dom (ec_cached c) ∧
    (∀ h refs refs', ec_cached c !! h = Some refs → ec_cached c' !! h = Some refs' →
       refs' = refs ∖ {[ request_id r ]}) ∧
    Encoder.get_cached_input_ids r c' = ∅ ∧
    num_free_slots c' = num_free_slots c ∧ freeable c `prefix_of` freeable c') c.
Proof.
  intros I%ec_reach_inv Hr. eapply wp_mono; [by apply free_spec|]. intros ? c' R. simpl in R.
  split; [|split; [|split; [|split; [apply R|apply R]]]].
  - apply set_eq. intros h. rewrite !elem_of_dom, (ra_cached _ _ _ _ R). case_decide; [|done].
    by rewrite fmap_is_Some.
  - intros h refs refs' Hl Hl'.
    pose proof (free_forgets _ _ _ _ _ _ I Hr set_iter_elements R Hl') as Hno.
    rewrite (ra_cached _ _ _ _ R), Hl in Hl'. case_decide; simpl in Hl'; simplify_eq; [done|]. set_solver.
  - change (ids_of c' (request_id r) = ∅). rewrite (ra_ids _ _ _ _ R), decide_True by done.
    apply set_eq. intros i. rewrite elem_of_difference, elem_of_list_to_set, set_iter_elements, elem_of_elements.
    set_solver.
Qed.

Lemma max_value_ge v vs n : n ∈ v :: vs → n ≤ max_value v vs.
Proof.
  unfold max_value. revert v n. induction vs as [|x vs IH]; intros v n; simpl.
  - rewrite list_elem_of_singleton. lia.
  - intros [->|[->|Hn]%elem_of_cons]%elem_of_cons.
    + transitivity (Z.max v x); [lia|]. apply (IH (Z.max v x) (Z.max v x)). by left.
    + transitivity (Z.max v x); [lia|]. apply (IH (Z.max v x) (Z.max v x)). by left.
    + apply (IH (Z.max v x) n). by right.
Qed.

(** C37. The budgets never starve an input: with the compute budget and the
    cache size that [compute_mm_encoder_budget] returns, an input whose size
    is at most the maximum of its modality is admitted as soon as no entry of
    the cache is referenced, whatever the cache contains. *)
Theorem budget_admits_every_item conf items compute_budget cache_size c r i h modality n :
  compute_mm_encoder_budget conf items = Ok (compute_budget, cache_size) →
  (modality, n) ∈ items → size h ≤ n → input_of r i h →
  ec_reach c → ec_cache_size c = cache_size →
  (∀ h' refs, ec_cached c !! h' = Some refs → refs = ∅) →
  ∃ c', Encoder.can_allocate r i compute_budget 0 c = (Ok true, c') ∧ size h ≤ num_free_slots c'.
Proof.
  intros Hb Hitem Hsize Hin Hr Hcs Hall. pose proof (ec_reach_inv _ Hr) as I.
  unfold compute_mm_encoder_budget in Hb.
  assert (Hn : n ∈ snd <$> items) by (apply list_elem_of_fmap; by exists (modality, n)).
  destruct (snd <$> items) as [|v vs]; [by apply not_elem_of_nil in Hn|].
  apply max_value_ge in Hn. destruct (_ && _) in Hb; [done|]. simplify_eq.
  destruct (wp_elim _ _ _ (can_allocate_spec r i h
    (Z.max (max_num_encoder_input_tokens conf) (max_value v vs)) 0 c I Hin))
    as (b & c' & Hrun & -> & _ & Hfit & _).
  rewrite (total_unreferenced _ I Hall) in *. rewrite bool_decide_true in * by lia.
  exists c'. split; [done|]. specialize (Hfit eq_refl). lia.
Qed.

(** The references are per request, not per input: when two inputs of a
    request have the same identifier and the request is the only one that
    refers to the entry, then [free_encoder_input] of one of them makes the
    entry evictable although the other input is still noted as cached for the
    request. The scheduler has to look the other input up again before it uses
    it. *)
Theorem repeated_input_loses_reference c r i j h :
  ec_reach c → input_of r i h → input_of r j h → i ≠ j →
  j ∈ Encoder.get_cached_input_ids r c → ec_cached c !! h = Some {[ request_id r ]} →
  wp (Encoder.free_encoder_input r i) (λ _ c',
    j ∈ Encoder.get_cached_input_ids r c' ∧ (h, size h) ∈ freeable c' ∧ ec_cached c' !! h = Some ∅) c.
Proof.
  intros I%ec_reach_inv Hi Hj Hne Hids Hc. eapply wp_mono; [by apply (free_encoder_input_spec r i h)|].
  intros ? c' R. simpl in R.
  change (j ∈ ids_of c' (request_id r) ∧ (h, size h) ∈ freeable c' ∧ ec_cached c' !! h = Some ∅).
  change (j ∈ ids_of c (request_id r)) in Hids.
  rewrite (rl_ids _ _ _ _ _ R), decide_True by done.
  assert (I' : ec_inv c') by exact (released_inv _ _ _ _ _ I Hi R).
  assert (Hc' : ec_cached c' !! h = Some ∅).
  { rewrite (rl_cached _ _ _ _ _ R), decide_True, Hc by done. simpl. f_equal. set_solver. }
  split; [|split; [by apply (ei_keys _ I')|done]].
  apply elem_of_difference. split; [done|]. rewrite elem_of_singleton. congruence.
Qed.
End encoder.

(** ** Encoder-decoder models *)
Definition embeds_of (r : Request) (ids : list nat) : Z :=
  foldr (λ i acc, match get_num_encoder_embeds r i with Ok n => n + acc | Raise _ => acc end) 0 ids.

Lemma encdec_allocate_all r ids c :
  Forall (λ i, (i < length (mm_features r))%nat) ids →
  wp (for_each ids (EncDec.allocate r)) (λ _ c',
    ed_num_free_slots c' = ed_num_free_slots c - embeds_of r ids ∧
    allocated c' = allocated c ++ hashes_of r ids ∧ to_free c' = to_free c ∧
    ed_cache_size c' = ed_cache_size c) c.
Proof.
  intros H. revert c. induction H as [|i ids Hi H IH]; intros c; simpl.
  { wp_step. rewrite app_nil_r. split_and!; [lia|done..]. }
  apply lookup_lt_is_Some in Hi as [f Hf].
  unfold EncDec.allocate, mm_hash_of, get_num_encoder_embeds, hashes_of. simpl. rewrite Hf. simpl.
  set (k := get_num_embeds _). change (of_res (Ok k)) with (@mret (M EncoderDecoderCacheManager) _ _ k). wp_step.
  change (of_res (Ok (identifier f))) with (@mret (M EncoderDecoderCacheManager) _ _ (identifier f)). wp_step.
  eapply wp_mono; [apply IH|]. simpl. intros ? c' (H1 & H2 & H3 & H4). unfold hashes_of in *.
  rewrite H2, <- app_assoc. split_and!; try done. lia.
Qed.

Lemma encdec_free_all r ids c :
  Forall (λ i, (i < length (mm_features r))%nat) ids →
  wp (for_each ids (EncDec.free_encoder_input r)) (λ _ c',
    ed_num_free_slots c' = ed_num_free_slots c + embeds_of r ids ∧
    allocated c' = allocated c ∧ to_free c' = to_free c ∧ ed_cache_size c' = ed_cache_size c) c.
Proof.
  intros H. revert c. induction H as [|i ids Hi H IH]; intros c; simpl.
  { wp_step. split_and!; [lia|done..]. }
  apply lookup_lt_is_Some in Hi as [f Hf].
  unfold EncDec.free_encoder_input, get_num_encoder_embeds. simpl. rewrite Hf. simpl.
  set (k := get_num_embeds _). change (of_res (Ok k)) with (@mret (M EncoderDecoderCacheManager) _ _ k). wp_step.
  eapply wp_mono; [apply IH|]. simpl. intros ? c' (H1 & H2 & H3 & H4). split_and!; try done. lia.
Qed.

Lemma hashes_of_all r : hashes_of r (seq 0 (length (mm_features r))) = identifier <$> mm_features r.
Proof.
  unfold hashes_of.
  assert (H : ∀ l pre, omap (λ i, identifier <$> (pre ++ l) !! i) (seq (length pre) (length l)) = identifier <$> l).
  { induction l as [|f l IH]; intros pre; [done|]. simpl.
    rewrite lookup_app_r, Nat.sub_diag by lia. simpl. f_equal.
    specialize (IH (pre ++ [f])). rewrite <- app_assoc, length_app in IH. simpl in IH.
    by rewrite Nat.add_1_r in IH. }
  apply (H _ []).
Qed.

(** Two steps of the scheduler: the inputs of [r1], then those of [r2]; [r1]
    finishes in between. *)
Definition encdec_steps (r1 r2 : Request) : M EncoderDecoderCacheManager (list string * list string) :=
  _ ← for_each (seq 0 (length (mm_features r1))) (EncDec.allocate r1);
  l1 ← EncDec.get_freed_mm_hashes;
  _ ← EncDec.free r1;
  _ ← for_each (seq 0 (length (mm_features r2))) (EncDec.allocate r2);
  l2 ← EncDec.get_freed_mm_hashes;
  mret (l1, l2).

(** The encoder-decoder manager hands every entry to the workers exactly one
    step after it was allocated: the hashes of the inputs of a step are not in
    the list of that step but are the list of the next one, and [free] returns
    to the capacity exactly what the allocations of the request took. *)
Theorem encdec_freed_one_step_later r1 r2 c :
  allocated c = [] →
  wp (encdec_steps r1 r2) (λ l c',
    l = (to_free c, identifier <$> mm_features r1) ∧
    to_free c' = identifier <$> mm_features r2 ∧ allocated c' = [] ∧
    ed_num_free_slots c' = ed_num_free_slots c - embeds_of r2 (seq 0 (length (mm_features r2)))) c.
Proof.
  intros Ha. unfold encdec_steps, EncDec.free.
  assert (Hall : ∀ r, Forall (λ i, (i < length (mm_features r))%nat) (seq 0 (length (mm_features r)))).
  { intros r. apply Forall_forall. intros i Hi%elem_of_seq. lia. }
  wp_step. eapply wp_mono; [by apply encdec_allocate_all|].
  simpl. intros ? c1 (H1 & H2 & H3 & _). rewrite Ha, hashes_of_all in H2. simpl in H2.
  unfold EncDec.get_freed_mm_hashes. wp_step.
  eapply wp_mono; [by apply encdec_free_all|]. simpl. intros ? c2 (H4 & H5 & H6 & _). simpl in *.
  wp_step. eapply wp_mono; [by apply encdec_allocate_all|]. simpl. intros ? c3 (H7 & H8 & H9 & _).
  wp_step. simpl. rewrite hashes_of_all in H8. split_and!; try congruence; [|lia].
  rewrite H8, H5. done.
Qed.

(** ** Witnesses *)
Definition demo_item (h : string) (n : Z) : MultiModalFeatureSpec := mkFeature h (mkRange 0 n None).
Definition demo_size (h : string) : Z :=
  if String.eqb h "x" then 4 else if String.eqb h "y" then 3 else if String.eqb h "z" then 8 else 0.
Definition demo_feats (rid : string) : list MultiModalFeatureSpec :=
  if String.eqb rid "a" then [demo_item "x" 4; demo_item "y" 3; demo_item "x" 4]
  else if String.eqb rid "b" then [demo_item "z" 8] else [].
Definition demo_mm_request (rid : string) : Request :=
  mkRequest rid 0 0 0 0 RUNNING 1 false None None ∅ 0 [] [] 0 [] 0 None (demo_feats rid) None
    false 0 [] false false (new_ext None None).

Lemma demo_size_nonneg h : 0 ≤ demo_size h.
Proof. unfold demo_size. repeat case_match; lia. Qed.

Lemma demo_size_ok rid f : f ∈ demo_feats rid → get_num_embeds (mm_position f) = demo_size (identifier f).
Proof.
  unfold demo_feats. repeat case_match; rewrite ?elem_of_cons, ?elem_of_nil; naive_solver.
Qed.

Abbreviation demo_reach := (ec_reach demo_feats demo_size elements).

Lemma demo_input rid i h : identifier <$> demo_feats rid !! i = Some h → input_of demo_feats (demo_mm_request rid) i h.
Proof. by split. Qed.

Definition after (ops : list ec_op) (c : EncoderCacheManager) : EncoderCacheManager :=
  (for_each ops (run_ec_op elements) c).2.

Lemma demo_reach_alloc c rid i h :
  demo_reach c → identifier <$> demo_feats rid !! i = Some h → ec_cached c !! h = None →
  demo_size h ≤ num_free_slots c → demo_reach (Encoder.allocate (demo_mm_request rid) i c).2.
Proof.
  intros Hr Hi Hc Hs. pose proof (demo_input _ _ _ Hi) as Hin.
  destruct (wp_elim _ _ _ (allocate_spec demo_feats demo_size demo_size_nonneg demo_size_ok _ _ _ c
    (ec_reach_inv _ _ demo_size_nonneg demo_size_ok elements (λ s, reflexivity _) _ Hr) Hin Hc Hs)) as ([] & c' & E & _).
  rewrite E. simpl. eapply (ec_reach_step _ _ _ c (OpAllocate (demo_mm_request rid) i)); [done| |done].
  by exists h.
Qed.

(** The items [x] and [y] of request [a] are cached; then [a] has gone. *)
Definition demo_c1 : EncoderCacheManager := (Encoder.allocate (demo_mm_request "a") 0 (Encoder.init 10)).2.
Definition demo_c2 : EncoderCacheManager := (Encoder.allocate (demo_mm_request "a") 1 demo_c1).2.
Definition demo_c3 : EncoderCacheManager := (Encoder.free elements (demo_mm_request "a") demo_c2).2.

Lemma demo_c1_reach : demo_reach demo_c1.
Proof. apply (demo_reach_alloc _ "a" 0 "x"); [by apply ec_reach_init|done|done|vm_compute; congruence]. Qed.
Lemma demo_c2_reach : demo_reach demo_c2.
Proof. apply (demo_reach_alloc _ "a" 1 "y"); [apply demo_c1_reach|done|by vm_compute|vm_compute; congruence]. Qed.
Lemma demo_c3_reach : demo_reach demo_c3.
Proof.
  eapply (ec_reach_step _ _ _ demo_c2 (OpFree (demo_mm_request "a"))); [apply demo_c2_reach|done|by vm_compute].
Qed.

Lemma encoder_cache_safe_witness :
  ∃ c', run_ec_op elements (OpCan (demo_mm_request "b") 0 100 0) demo_c3 = (Ok tt, c') ∧ demo_reach c' ∧
    ec_cache_size c' = 10.
Proof.
  destruct (encoder_cache_safe demo_feats demo_size demo_size_nonneg demo_size_ok elements
    (λ s, reflexivity _) demo_c3 (OpCan (demo_mm_request "b") 0 100 0)) as [_ (c' & H1 & H2 & H3)].
  - apply demo_c3_reach.
  - exists "z"%string. by apply demo_input.
  - exists c'. split; [done|]. split; [done|]. rewrite H3. by vm_compute.
Defined.

(** The item [z] of size 8 does not fit the 3 free slots; the older of the two
    unreferenced entries is not enough, both are evicted. *)
Lemma can_allocate_exact_witness :
  ∃ b c' k, Encoder.can_allocate (demo_mm_request "b") 0 100 0 demo_c3 = (Ok b, c') ∧
    (b = true ↔ 8 ≤ 100 ∧ 8 + 0 ≤ num_freeable_slots demo_c3) ∧
    freed c' = freed demo_c3 ++ (fst <$> take k (freeable demo_c3)).
Proof.
  destruct (can_allocate_exact demo_feats demo_size demo_size_nonneg demo_size_ok elements
    (λ s, reflexivity _) demo_c3 (demo_mm_request "b") 0 "z" 100 0)
    as (b & c' & k & H1 & H2 & _ & _ & H3 & _).
  - apply demo_c3_reach.
  - by apply demo_input.
  - exists b, c', k. done.
Defined.

Example demo_evicts : freed (Encoder.can_allocate (demo_mm_request "b") 0 100 0 demo_c3).2 = ["y"; "x"]%string.
Proof. by vm_compute. Qed.

Lemma scheduled_inputs_allocated_witness :
  wp (for_each [0%nat; 1%nat] (Encoder.allocate (demo_mm_request "a"))) (λ _ c', num_free_slots c' = 3) (Encoder.init 10).
Proof.
  eapply wp_mono.
  - apply (scheduled_inputs_allocated demo_feats demo_size demo_size_nonneg demo_size_ok elements
      (λ s, reflexivity _) (Encoder.init 10) (demo_mm_request "a") [0%nat; 1%nat] ["x"; "y"]%string).
    + by apply ec_reach_init.
    + repeat constructor.
    + by apply (bool_decide_unpack (NoDup _)).
    + done.
    + by vm_compute.
  - by intros ? c' (-> & _).
Defined.

Lemma free_request_references_witness :
  wp (Encoder.free elements (demo_mm_request "a")) (λ _ c',
    Encoder.get_cached_input_ids (demo_mm_request "a") c' = ∅ ∧
    num_free_slots c' = num_free_slots demo_c2) demo_c2.
Proof.
  eapply wp_mono.
  - apply (free_request_references demo_feats demo_size demo_size_nonneg demo_size_ok elements (λ s, reflexivity _)
      demo_c2 (demo_mm_request "a")); [apply demo_c2_reach|done].
  - by intros ? c' (_ & _ & H1 & H2 & _).
Defined.

Definition demo_conf : SchedulerConfig := mkSchedConf false 64 6 5.

Lemma budget_admits_every_item_witness :
  ∃ c', Encoder.can_allocate (demo_mm_request "b") 0 10 0 demo_c3 = (Ok true, c') ∧ demo_size "z" ≤ num_free_slots c'.
Proof.
  eapply (budget_admits_every_item demo_feats demo_size demo_size_nonneg demo_size_ok elements (λ s, reflexivity _)
    demo_conf [("image", 10); ("audio", 7)]%string 10 10 demo_c3 (demo_mm_request "b") 0 "z" "image" 10).
  - done.
  - by left.
  - done.
  - by apply demo_input.
  - apply demo_c3_reach.
  - by vm_compute.
  - intros h' refs. replace (ec_cached demo_c3) with ({["x" := ∅; "y" := ∅]}%string : gmap string (gset string)) by (by vm_compute).
    intros [[_ <-]|[_ [_ <-]%lookup_singleton_Some]]%lookup_insert_Some; done.
Defined.

(** The first and the third input of request [a] are the same item. *)
Definition demo_c4 : EncoderCacheManager := (Encoder.check_and_update_cache (demo_mm_request "a") 2 demo_c1).2.

Lemma demo_c4_reach : demo_reach demo_c4.
Proof.
  eapply (ec_reach_step _ _ _ demo_c1 (OpCheck (demo_mm_request "a") 2)); [apply demo_c1_reach| |by vm_compute].
  exists "x"%string. by apply demo_input.
Qed.

Lemma repeated_input_loses_reference_witness :
  wp (Encoder.free_encoder_input (demo_mm_request "a") 0) (λ _ c',
    2%nat ∈ Encoder.get_cached_input_ids (demo_mm_request "a") c' ∧ ("x"%string, demo_size "x") ∈ freeable c' ∧
    ec_cached c' !! "x"%string = Some ∅) demo_c4.
Proof.
  apply (repeated_input_loses_reference demo_feats demo_size demo_size_nonneg demo_size_ok elements (λ s, reflexivity _)
    demo_c4 (demo_mm_request "a") 0 2 "x").
  - apply demo_c4_reach.
  - by apply demo_input.
  - by apply demo_input.
  - done.
  - by apply (bool_decide_unpack (2%nat ∈ _)).
  - by vm_compute.
Defined.

Lemma encdec_freed_one_step_later_witness :
  wp (encdec_steps (demo_mm_request "a") (demo_mm_request "b")) (λ l c', l = ([], ["x"; "y"; "x"]%string)) (EncDec.init 20).
Proof.
  eapply wp_mono; [by apply (encdec_freed_one_step_later (demo_mm_request "a") (demo_mm_request "b") (EncDec.init 20))|].
  by intros ? c' [-> _].
Defined.
