(* ===== verification/RequestQueue.v ===== *)
(** * The waiting queues

    [vllm/v1/core/sched/request_queue.py]: the first-come-first-served queue, a
    [deque], and the priority queue, a list kept as a heap by Python's [heapq].
    The functions of [heapq] are modelled as the standard library defines them,
    over any element type with a [<]; requests compare with [Request.__lt__] and
    are equal when they are the same object. *)
From S2P Require Import Prelude FreeQueue Request.

(** ** heapq *)
Module Heapq.
Section heapq.
Context {A : Type} (lt : A → A → bool).

Definition parent (i : nat) : nat := ((i - 1) / 2)%nat.

(** [_siftdown(heap, startpos, pos)]: [newitem] rises towards [startpos]. *)
Fixpoint siftdown_loop (fuel : nat) (heap : list A) (newitem : A) (startpos pos : nat) : res (list A) :=
  match fuel with
  | O => Raise OutOfFuel
  | S fuel' =>
      if (startpos <? pos)%nat
      then
        match heap !! parent pos with
        | None => Raise IndexError
        | Some p =>
            if lt newitem p then siftdown_loop fuel' (<[pos := p]> heap) newitem startpos (parent pos)
            else Ok (<[pos := newitem]> heap)
        end
      else Ok (<[pos := newitem]> heap)
  end.

Definition siftdown (heap : list A) (startpos pos : nat) : res (list A) :=
  match heap !! pos with
  | None => Raise IndexError
  | Some newitem => siftdown_loop (S pos) heap newitem startpos pos
  end.

(** The smaller child of [pos], if it has children. *)
Definition small_child (heap : list A) (pos : nat) : option (nat * A) :=
  let l := (2 * pos + 1)%nat in
  match heap !! l, heap !! S l with
  | None, _ => None
  | Some a, None => Some (l, a)
  | Some a, Some b => if lt a b then Some (l, a) else Some (S l, b)
  end.

(** [_siftup(heap, pos)]: the smaller child moves up until a leaf is hit, and
    the item rises from there. *)
Fixpoint siftup_loop (fuel : nat) (heap : list A) (newitem : A) (startpos pos : nat) : res (list A) :=
  match fuel with
  | O => Raise OutOfFuel
  | S fuel' =>
      match small_child heap pos with
      | Some (c, x) => siftup_loop fuel' (<[pos := x]> heap) newitem startpos c
      | None => siftdown (<[pos := newitem]> heap) startpos pos
      end
  end.

Definition siftup (heap : list A) (pos : nat) : res (list A) :=
  match heap !! pos with
  | None => Raise IndexError
  | Some newitem => siftup_loop (S (length heap)) heap newitem pos pos
  end.

Definition heappush (heap : list A) (x : A) : res (list A) := siftdown (heap ++ [x]) 0 (length heap).

Definition heappop (heap : list A) : res (A * list A) :=
  match last heap with
  | None => Raise IndexError
  | Some lastelt =>
      match take (length heap - 1) heap with
      | [] => Ok (lastelt, [])
      | returnitem :: rest => h ← siftup (lastelt :: rest) 0; Ok (returnitem, h)
      end
  end.

(** [for i in reversed(range(n)): _siftup(x, i)] *)
Fixpoint heapify_loop (n : nat) (heap : list A) : res (list A) :=
  match n with
  | O => Ok heap
  | S i => h ← siftup heap i; heapify_loop i h
  end.

Definition heapify (heap : list A) : res (list A) := heapify_loop (length heap / 2) heap.

(** [while heap_copy: yield heappop(heap_copy)] *)
Fixpoint pop_all (fuel : nat) (heap : list A) : res (list A) :=
  match fuel with
  | O => Raise OutOfFuel
  | S fuel' =>
      match heap with
      | [] => Ok []
      | _ => '(x, h) ← heappop heap; xs ← pop_all fuel' h; Ok (x :: xs)
      end
  end.
End heapq.
End Heapq.

(** ** The queues *)
Inductive SchedulingPolicy := FCFS | PRIORITY.

Inductive RequestQueue (A : Type) :=
  | FCFSRequestQueue (q : list A)
  | PriorityRequestQueue (heap : list A).
Arguments FCFSRequestQueue {A} q.
Arguments PriorityRequestQueue {A} heap.

(** Objects without an [__eq__] are compared by identity. *)
Definition same_object (a b : Request) : bool := py_id a =? py_id b.

(** The elements are the requests, or references to requests that change: [lt] is
    [Request.__lt__] on what they stand for, [same] is identity. *)
Section element.
Context {A : Type} (same : A → A → bool).

(** [l.remove(x)] *)
Fixpoint list_remove (x : A) (l : list A) : res (list A) :=
  match l with
  | [] => Raise ValueError
  | y :: l' => if same x y then Ok l' else l'' ← list_remove x l'; Ok (y :: l'')
  end.

(** [[r for r in l if r not in xs]] *)
Definition without (xs l : list A) : list A :=
  filter (λ r, existsb (same r) xs = false) l.
End element.

Module Queue.
Section queue.
Context {A : Type} (lt same : A → A → bool).
Implicit Types q : RequestQueue A.

Definition items q : list A :=
  match q with FCFSRequestQueue l | PriorityRequestQueue l => l end.

Definition create_request_queue (policy : SchedulingPolicy) : RequestQueue A :=
  match policy with PRIORITY => PriorityRequestQueue [] | FCFS => FCFSRequestQueue [] end.

Definition to_bool q : bool := 0 <? len (items q).
Definition queue_len q : Z := len (items q).

Definition add_request q (r : A) : res (RequestQueue A) :=
  match q with
  | FCFSRequestQueue l => Ok (FCFSRequestQueue (l ++ [r]))
  | PriorityRequestQueue h => h' ← Heapq.heappush lt h r; Ok (PriorityRequestQueue h')
  end.

Definition pop_request q : res (A * RequestQueue A) :=
  match q with
  | FCFSRequestQueue [] => Raise IndexError
  | FCFSRequestQueue (r :: l) => Ok (r, FCFSRequestQueue l)
  | PriorityRequestQueue [] => Raise IndexError
  | PriorityRequestQueue h => '(r, h') ← Heapq.heappop lt h; Ok (r, PriorityRequestQueue h')
  end.

Definition peek_request q : res A :=
  match items q with [] => Raise IndexError | r :: _ => Ok r end.

Definition prepend_request q (r : A) : res (RequestQueue A) :=
  match q with
  | FCFSRequestQueue l => Ok (FCFSRequestQueue (r :: l))
  | PriorityRequestQueue _ => add_request q r
  end.

(** [__iter__] *)
Definition iter q : res (list A) :=
  match q with
  | FCFSRequestQueue l => Ok l
  | PriorityRequestQueue h => Heapq.pop_all lt (S (length h)) h
  end.

Fixpoint add_all q (rs : list A) : res (RequestQueue A) :=
  match rs with
  | [] => Ok q
  | r :: rs' => q' ← add_request q r; add_all q' rs'
  end.

(** [extendleft] adds one element after the other at the left end. *)
Definition prepend_requests q (requests : RequestQueue A) : res (RequestQueue A) :=
  rs ← iter requests;
  match q with
  | FCFSRequestQueue l => Ok (FCFSRequestQueue (rev rs ++ l))
  | PriorityRequestQueue _ => add_all q rs
  end.

Definition remove_request q (r : A) : res (RequestQueue A) :=
  match q with
  | FCFSRequestQueue l => l' ← list_remove same r l; Ok (FCFSRequestQueue l')
  | PriorityRequestQueue h =>
      h' ← list_remove same r h; h'' ← Heapq.heapify lt h'; Ok (PriorityRequestQueue h'')
  end.

Definition remove_requests q (rs : list A) : res (RequestQueue A) :=
  match q with
  | FCFSRequestQueue l => Ok (FCFSRequestQueue (without same rs l))
  | PriorityRequestQueue h =>
      h' ← Heapq.heapify lt (without same rs h); Ok (PriorityRequestQueue h')
  end.
End queue.
End Queue.

(** ** heapq is correct *)
Lemma insert_exchange {A} (l : list A) i x y : l !! i = Some x → x :: <[i := y]> l ≡ₚ y :: l.
Proof.
  intros H. rewrite insert_take_drop by (by eapply lookup_lt_Some).
  rewrite <- (take_drop_middle l i x H) at 3. rewrite <- !Permutation_middle. apply Permutation_swap.
Qed.

(** Moving the element at [j] to the hole [i] and the item of the hole to [j]. *)
Lemma move_hole {A} (l : list A) i j x y :
  i ≠ j → (i < length l)%nat → l !! j = Some y → <[j := x]> (<[i := y]> l) ≡ₚ <[i := x]> l.
Proof.
  intros Hne Hi Hj. apply (Permutation_cons_inv (a := y)).
  rewrite (insert_exchange (<[i:=y]> l) j y x) by (by rewrite list_lookup_insert_ne).
  rewrite <- (list_insert_insert_eq l i x y).
  by rewrite (insert_exchange (<[i:=y]> l) i y x) by (by apply list_lookup_insert_eq).
Qed.

Section heap_proofs.
Context {A : Type} (lt : A → A → bool).
Hypothesis lt_asym : ∀ a b, lt a b = true → lt b a = false.
Hypothesis ge_trans : ∀ a b c, lt b a = false → lt c b = false → lt c a = false.
Abbreviation le a b := (lt b a = false).
Import Heapq.
Implicit Types (h v : list A) (s i pos : nat).

Lemma le_refl a : le a a.
Proof. destruct (lt a a) eqn:E; [|done]. by rewrite <- (lt_asym _ _ E), E. Qed.

Lemma parent_spec i : (0 < i)%nat → i = (2 * parent i + 1)%nat ∨ i = (2 * parent i + 2)%nat.
Proof.
  intros Hi. unfold parent. pose proof (Nat.div_mod_eq (i - 1) 2). pose proof (Nat.mod_upper_bound (i - 1) 2). lia.
Qed.

Lemma parent_child i p : i = (2 * p + 1)%nat ∨ i = (2 * p + 2)%nat → parent i = p.
Proof. intros H. pose proof (parent_spec i). lia. Qed.

Definition edge_ok v i : Prop := ∀ a b, v !! parent i = Some a → v !! i = Some b → le a b.

(** Every element whose parent is at [s] or later is not before its parent. *)
Definition heap_from s v : Prop := ∀ i, (0 < i)%nat → (s ≤ parent i)%nat → edge_ok v i.

(** A position in the subtree of [s] *)
Inductive below s : nat → Prop :=
  | below_refl : below s s
  | below_child pos : (0 < pos)%nat → below s (parent pos) → below s pos.

Lemma below_le s pos : below s pos → (s ≤ pos)%nat.
Proof. induction 1 as [|pos Hp _ IH]; [done|]. pose proof (parent_spec pos Hp). lia. Qed.

Lemma below_parent s pos : below s pos → (s < pos)%nat → below s (parent pos) ∧ (s ≤ parent pos)%nat.
Proof. intros [|? ? H]; [lia|]. split; [done|by apply below_le]. Qed.

(** The children of the hole are not before its parent. *)
Definition grand_ok s pos v : Prop := ∀ c a b, (0 < c)%nat → parent c = pos → (s < pos)%nat →
  v !! parent pos = Some a → v !! c = Some b → le a b.

Definition rising s pos v : Prop :=
  (∀ i, (0 < i)%nat → (s ≤ parent i)%nat → i ≠ pos → edge_ok v i) ∧ grand_ok s pos v.
Definition sinking s pos v : Prop :=
  (∀ i, (0 < i)%nat → (s ≤ parent i)%nat → i ≠ pos → parent i ≠ pos → edge_ok v i) ∧ grand_ok s pos v.

(** One turn of [_siftdown]: the item changes places with its parent. *)
Lemma rise_step s pos h x p a v :
  below s pos → (s < pos)%nat → (pos < length h)%nat → p = parent pos → v = <[pos := x]> h →
  h !! p = Some a → lt x a = true → rising s pos v → rising s p (<[p := x]> (<[pos := a]> h)).
Proof.
  intros Hb Hs Hpos -> -> Ha Hlt [He Hg]. destruct (below_parent _ _ Hb Hs) as [Hb' Hs'].
  pose proof (parent_spec pos ltac:(lia)) as Hp. set (p := parent pos) in *.
  assert (Hold : ∀ i a b, (0 < i)%nat → (s ≤ parent i)%nat → i ≠ pos → parent i ≠ pos →
    h !! parent i = Some a → h !! i = Some b → le a b).
  { intros i u w Hi Hpi H1 H2 Hu Hw. apply (He i Hi Hpi H1); by rewrite list_lookup_insert_ne. }
  split.
  - intros i Hi Hpi Hne u w Hu Hw. pose proof (parent_spec i Hi) as Hpar.
    destruct (decide (i = pos)) as [->|Hip].
    + rewrite list_lookup_insert_eq in Hu by (rewrite length_insert; lia).
      rewrite list_lookup_insert_ne, list_lookup_insert_eq in Hw by lia. simplify_eq. by apply lt_asym.
    + rewrite !list_lookup_insert_ne in Hw by lia.
      destruct (decide (parent i = p)) as [Epi|Hnp].
      * rewrite Epi, list_lookup_insert_eq in Hu by (rewrite length_insert; lia). simplify_eq.
        eapply ge_trans; [by apply lt_asym|]. eapply (Hold i); rewrite ?Epi; try done. lia.
      * rewrite list_lookup_insert_ne in Hu by done. destruct (decide (parent i = pos)) as [Epi|Hnp'].
        -- rewrite Epi, list_lookup_insert_eq in Hu by lia. simplify_eq.
           apply (Hg i); [done|done|done| |]; rewrite list_lookup_insert_ne; done.
        -- rewrite list_lookup_insert_ne in Hu by done. by apply (Hold i).
  - intros c u w Hc Hcp Hsp Hu Hw. pose proof (parent_spec p ltac:(lia)). pose proof (parent_spec c Hc).
    destruct (below_parent _ _ Hb' Hsp) as [_ Hspp].
    rewrite !list_lookup_insert_ne in Hu by lia.
    assert (Hua : le u a) by (apply (Hold p); try done; lia).
    destruct (decide (c = pos)) as [->|Hcpos].
    + rewrite list_lookup_insert_ne, list_lookup_insert_eq in Hw by lia. by simplify_eq.
    + rewrite !list_lookup_insert_ne in Hw by lia.
      eapply ge_trans; [exact Hua|]. apply (Hold c); try done; rewrite ?Hcp; try done. lia.
Qed.

Lemma siftdown_loop_spec fuel s x : ∀ h pos,
  below s pos → (pos < length h)%nat → (pos < fuel)%nat → rising s pos (<[pos := x]> h) →
  ∃ h', siftdown_loop lt fuel h x s pos = Ok h' ∧ heap_from s h' ∧ h' ≡ₚ <[pos := x]> h.
Proof.
  induction fuel as [|fuel IH]; intros h pos Hb Hpos Hfuel Hr; [lia|]. simpl.
  destruct (Nat.ltb_spec s pos) as [Hs|Hs].
  - pose proof (parent_spec pos ltac:(lia)). destruct (below_parent _ _ Hb Hs) as [Hb' Hs'].
    destruct (lookup_lt_is_Some_2 h (parent pos) ltac:(lia)) as [a Ha]. rewrite Ha.
    destruct (lt x a) eqn:Hlt.
    + destruct (IH (<[pos := a]> h) (parent pos)) as (h' & -> & Hh & Hperm);
        [done|rewrite length_insert; lia|lia|by eapply rise_step|].
      exists h'. split; [done|]. split; [done|]. rewrite Hperm. apply move_hole; [lia|done|done].
    + eexists. split; [done|]. split; [|done]. intros i Hi Hpi. destruct (decide (i = pos)) as [->|]; [|by apply Hr].
      intros u w. rewrite list_lookup_insert_ne, list_lookup_insert_eq by lia. naive_solver.
  - eexists. split; [done|]. split; [|done]. intros i Hi Hpi. apply Hr; try done.
    pose proof (below_le _ _ Hb). pose proof (parent_spec i Hi). lia.
Qed.

Lemma siftdown_spec h s pos x :
  below s pos → h !! pos = Some x → rising s pos h →
  ∃ h', siftdown lt h s pos = Ok h' ∧ heap_from s h' ∧ h' ≡ₚ h.
Proof.
  intros Hb Hx Hr. unfold siftdown. rewrite Hx. pose proof (lookup_lt_Some _ _ _ Hx).
  rewrite <- (list_insert_id h pos x) in Hr by done.
  destruct (siftdown_loop_spec (S pos) s x h pos) as (h' & ? & ? & Hp); [done|done|lia|done|].
  exists h'. split_and!; try done. by rewrite list_insert_id in Hp.
Qed.

Lemma small_child_spec h pos c y :
  small_child lt h pos = Some (c, y) →
  (0 < c)%nat ∧ parent c = pos ∧ (pos < c)%nat ∧ h !! c = Some y ∧
  ∀ c' b, (0 < c')%nat → parent c' = pos → h !! c' = Some b → le y b.
Proof.
  unfold small_child. replace (S (2 * pos + 1)) with (2 * pos + 2)%nat by lia.
  intros Hc. assert (Hall : (c = 2 * pos + 1 ∨ c = 2 * pos + 2)%nat ∧ h !! c = Some y ∧
    (∀ b, h !! (2 * pos + 1)%nat = Some b → le y b) ∧ (∀ b, h !! (2 * pos + 2)%nat = Some b → le y b)).
  { destruct (h !! (2 * pos + 1)%nat) as [a|] eqn:Ea; [|done].
    destruct (h !! (2 * pos + 2)%nat) as [b|] eqn:Eb; [destruct (lt a b) eqn:El|]; simplify_eq;
      (split; [auto|]; split; [done|]; split; intros ? [= <-]); auto using le_refl. }
  destruct Hall as (Hor & Hy & H1 & H2). split_and!; [lia|by apply parent_child|lia|done|].
  intros c' b Hc' Hp Hb. pose proof (parent_spec c' Hc') as Hs. rewrite Hp in Hs.
  destruct Hs as [->| ->]; auto.
Qed.

Lemma small_child_none h pos i : small_child lt h pos = None → (0 < i)%nat → parent i = pos → h !! i = None.
Proof.
  unfold small_child. intros Hn Hi Hp. pose proof (parent_spec i Hi) as Hs. rewrite Hp in Hs.
  destruct (h !! (2 * pos + 1)%nat) as [a|] eqn:Ea; [repeat case_match; done|].
  apply lookup_ge_None in Ea. apply lookup_ge_None. lia.
Qed.

(** One turn of [_siftup]: the hole changes places with its smaller child. *)
Lemma sink_step s pos h x c y :
  below s pos → (pos < length h)%nat → small_child lt h pos = Some (c, y) →
  sinking s pos (<[pos := x]> h) → sinking s c (<[c := x]> (<[pos := y]> h)).
Proof.
  intros Hb Hpos (Hc0 & Hcp & Hlt & Hy & Hmin)%small_child_spec [He Hg]. pose proof (below_le _ _ Hb).
  split.
  - intros i Hi Hpi Hne Hnp u w Hu Hw. pose proof (parent_spec i Hi).
    rewrite list_lookup_insert_ne in Hu, Hw by done.
    destruct (decide (i = pos)) as [->|Hip].
    + rewrite list_lookup_insert_ne in Hu by lia. rewrite list_lookup_insert_eq in Hw by done. simplify_eq.
      apply (Hg c); [done|done|lia| |]; rewrite list_lookup_insert_ne; try done; lia.
    + rewrite list_lookup_insert_ne in Hw by done. destruct (decide (parent i = pos)) as [Epi|].
      * rewrite Epi, list_lookup_insert_eq in Hu by done. simplify_eq. by apply (Hmin i).
      * rewrite list_lookup_insert_ne in Hu by done. apply (He i); try done; by rewrite list_lookup_insert_ne.
  - intros d u w Hd Hdp Hsc Hu Hw. pose proof (parent_spec d Hd). rewrite Hcp in Hu.
    rewrite list_lookup_insert_ne, list_lookup_insert_eq in Hu by lia. simplify_eq.
    rewrite !list_lookup_insert_ne in Hw by lia.
    apply (He d); [done|lia|lia|lia| |]; by rewrite list_lookup_insert_ne by lia.
Qed.

Lemma siftup_loop_spec fuel s x : ∀ h pos,
  below s pos → (pos < length h)%nat → (length h < fuel + pos)%nat → sinking s pos (<[pos := x]> h) →
  ∃ h', siftup_loop lt fuel h x s pos = Ok h' ∧ heap_from s h' ∧ h' ≡ₚ <[pos := x]> h.
Proof.
  induction fuel as [|fuel IH]; intros h pos Hb Hpos Hfuel Hr; [lia|]. simpl.
  destruct (small_child lt h pos) as [[c y]|] eqn:Hc.
  - destruct (small_child_spec _ _ _ _ Hc) as (Hc0 & Hcp & Hlt & Hy & _).
    pose proof (lookup_lt_Some _ _ _ Hy).
    destruct (IH (<[pos := y]> h) c) as (h' & -> & Hh & Hperm);
      [apply below_child; [done|by rewrite Hcp]|by rewrite length_insert|rewrite length_insert; lia|by apply sink_step|].
    exists h'. split; [done|]. split; [done|]. rewrite Hperm. apply move_hole; [lia|done|done].
  - apply (siftdown_spec _ _ _ x); [done|by apply list_lookup_insert_eq|]. destruct Hr as [He Hg]. split; [|done].
    intros i Hi Hpi Hne. destruct (decide (parent i = pos)) as [Ep|]; [|by apply He].
    intros u w _. rewrite list_lookup_insert_ne, (small_child_none _ _ _ Hc Hi Ep) by done. done.
Qed.

Lemma siftup_spec h s :
  (s < length h)%nat → heap_from (S s) h → ∃ h', siftup lt h s = Ok h' ∧ heap_from s h' ∧ h' ≡ₚ h.
Proof.
  intros Hs Hh. destruct (lookup_lt_is_Some_2 h s Hs) as [x Hx]. unfold siftup. rewrite Hx.
  destruct (siftup_loop_spec (S (length h)) s x h s) as (h' & ? & ? & Hp);
    [constructor|done|lia| |by exists h'; rewrite list_insert_id in Hp].
  rewrite list_insert_id by done. split; [|intros c a b; lia].
  intros i Hi Hpi _ Hnp. apply Hh; [done|lia].
Qed.

Lemma heappush_spec h x :
  heap_from 0 h → ∃ h', heappush lt h x = Ok h' ∧ heap_from 0 h' ∧ h' ≡ₚ x :: h.
Proof.
  intros Hh. unfold heappush.
  destruct (siftdown_spec (h ++ [x]) 0 (length h) x) as (h' & ? & ? & Hp).
  - generalize (length h) as n. induction n as [n IH] using lt_wf_ind.
    destruct n as [|n]; [constructor|]. apply below_child; [lia|]. apply IH. pose proof (parent_spec (S n)). lia.
  - by rewrite lookup_app_r, Nat.sub_diag.
  - split.
    + intros i Hi _ Hne u w Hu Hw. pose proof (parent_spec i Hi). pose proof (lookup_lt_Some _ _ _ Hw) as Hlt.
      rewrite length_app in Hlt. simpl in Hlt. rewrite lookup_app_l in Hu, Hw by lia. by apply (Hh i Hi ltac:(lia)).
    + intros c u w Hc Hcp _ _ Hw%lookup_lt_Some. pose proof (parent_spec c Hc).
      rewrite length_app in Hw. simpl in Hw. lia.
  - exists h'. split_and!; try done. rewrite Hp. by rewrite Permutation_app_comm.
Qed.

(** The root of a heap is not after any element. *)
Lemma heap_root h r i x : heap_from 0 h → h !! 0%nat = Some r → h !! i = Some x → le r x.
Proof.
  intros Hh Hr. revert x. induction i as [i IH] using lt_wf_ind. intros x Hx.
  destruct (decide (i = 0%nat)) as [->|Hi]; [simplify_eq; apply le_refl|].
  pose proof (parent_spec i ltac:(lia)). pose proof (lookup_lt_Some _ _ _ Hx).
  destruct (lookup_lt_is_Some_2 h (parent i) ltac:(lia)) as [p Hp].
  eapply ge_trans; [apply (IH (parent i)); [lia|done]|]. by apply (Hh i ltac:(lia) ltac:(lia)).
Qed.

Lemma heappop_spec h : h ≠ [] → heap_from 0 h →
  ∃ x h', heappop lt h = Ok (x, h') ∧ heap_from 0 h' ∧ h ≡ₚ x :: h' ∧ head h = Some x ∧
    ∀ y, y ∈ h → le x y.
Proof.
  intros Hne Hh. unfold heappop.
  destruct (exists_last Hne) as (h0 & lst & ->). rewrite last_snoc, length_app. simpl.
  rewrite Nat.add_sub, take_app_length.
  assert (Hmin : ∀ x, head (h0 ++ [lst]) = Some x → ∀ y, y ∈ h0 ++ [lst] → le x y).
  { intros x Hx y (i & Hi)%list_elem_of_lookup. eapply heap_root; [done| |done]. by rewrite <- head_lookup. }
  destruct h0 as [|r rest]; simpl.
  { exists lst, []. split_and!; try done. by apply Hmin. }
  destruct (siftup_spec (lst :: rest) 0) as (h' & E & Hh' & Hp).
  - simpl. lia.
  - intros i Hi Hpi u w Hu Hw. apply (Hh i Hi ltac:(lia)); [destruct (parent i)|destruct i]; try lia; simpl in *;
      by apply lookup_app_l_Some.
  - rewrite E. simpl. exists r, h'. split_and!; try done; [|by apply Hmin].
    rewrite Hp. constructor. rewrite Permutation_app_comm. done.
Qed.

Lemma heapify_loop_spec n : ∀ h, (n ≤ length h)%nat → heap_from n h →
  ∃ h', heapify_loop lt n h = Ok h' ∧ heap_from 0 h' ∧ h' ≡ₚ h.
Proof.
  induction n as [|n IH]; intros h Hn Hh; simpl; [by eexists|].
  destruct (siftup_spec h n) as (h1 & -> & Hh1 & Hp1); [lia|done|]. simpl.
  destruct (IH h1) as (h2 & -> & Hh2 & Hp2); [rewrite (Permutation_length Hp1); lia|done|].
  exists h2. split_and!; try done. by rewrite Hp2.
Qed.

Lemma heapify_spec h : ∃ h', heapify lt h = Ok h' ∧ heap_from 0 h' ∧ h' ≡ₚ h.
Proof.
  unfold heapify. pose proof (Nat.div_mod_eq (length h) 2). pose proof (Nat.mod_upper_bound (length h) 2).
  apply heapify_loop_spec; [lia|]. intros i Hi Hpi u w _ Hw%lookup_lt_Some. pose proof (parent_spec i Hi). lia.
Qed.

Lemma pop_all_spec fuel : ∀ h, (length h < fuel)%nat → heap_from 0 h →
  ∃ xs, pop_all lt fuel h = Ok xs ∧ StronglySorted (λ a b, le a b) xs ∧ xs ≡ₚ h.
Proof.
  induction fuel as [|fuel IH]; intros h Hf Hh; [lia|]. simpl.
  destruct h as [|y h0] eqn:E; [exists []; split_and!; try done; constructor|]. rewrite <- E in *.
  destruct (heappop_spec h) as (x & h' & -> & Hh' & Hp & _ & Hmin); [by subst|done|]. simpl.
  pose proof (Permutation_length Hp) as Hl. simpl in Hl.
  destruct (IH h') as (xs & -> & Hs & Hxs); [lia|done|]. simpl. exists (x :: xs).
  split_and!; [done| |by rewrite Hp, Hxs]. constructor; [done|]. apply Forall_forall.
  intros z Hz. apply Hmin. rewrite Hp, <- Hxs. by right.
Qed.
End heap_proofs.

(** ** The queues *)
Lemma request_lt_asym a b : request_lt a b = true → request_lt b a = false.
Proof.
  intros H. destruct (request_lt b a) eqn:E; [|done].
  pose proof (request_lt_trans _ _ _ H E) as Haa. by rewrite request_lt_irrefl in Haa.
Qed.

(** Requests that compare neither way have the same keys. *)
Lemma request_same_keys a b :
  request_lt a b = false → request_lt b a = false →
  priority a = priority b ∧ arrival_time a = arrival_time b ∧ request_id a = request_id b ∧ py_id a = py_id b.
Proof.
  intros H1 H2. apply not_true_iff_false in H1, H2. rewrite request_lt_spec in H1, H2.
  assert (Hp : priority a = priority b) by lia. assert (Ht : arrival_time a = arrival_time b) by lia.
  assert (Hr : request_id a = request_id b).
  { destruct (decide (request_id a = request_id b)) as [|Hne]; [done|].
    destruct (string_ltb_total _ _ Hne); naive_solver. }
  split_and!; [done..|]. destruct (Z.lt_trichotomy (py_id a) (py_id b)) as [?|[?|?]]; [|done|]; exfalso; naive_solver.
Qed.

Lemma request_ge_trans a b c : request_lt b a = false → request_lt c b = false → request_lt c a = false.
Proof.
  intros H1 H2. destruct (request_lt c a) eqn:H3; [|done].
  destruct (request_lt a b) eqn:H4; [by rewrite (request_lt_trans _ _ _ H3 H4) in H2|].
  destruct (request_same_keys _ _ H4 H1) as (E1 & E2 & E3 & E4).
  rewrite <- H2, <- H3. unfold request_lt. by rewrite E1, E2, E3, E4.
Qed.

(** A priority queue is a heap for [lt]. *)
Definition queue_ok {A} (lt : A → A → bool) (q : RequestQueue A) : Prop :=
  match q with FCFSRequestQueue _ => True | PriorityRequestQueue h => heap_from lt 0 h end.

Definition same_policy {A} (q q' : RequestQueue A) : Prop :=
  match q, q' with
  | FCFSRequestQueue _, FCFSRequestQueue _ | PriorityRequestQueue _, PriorityRequestQueue _ => True
  | _, _ => False
  end.

Section queue_proofs.
Context {A : Type} (lt same : A → A → bool).
Hypothesis lt_asym : ∀ a b, lt a b = true → lt b a = false.
Hypothesis ge_trans : ∀ a b c, lt b a = false → lt c b = false → lt c a = false.
Import Queue.
Implicit Types q : RequestQueue A.
Abbreviation queue_ok := (queue_ok lt).
Abbreviation add_request := (add_request lt).
Abbreviation add_all := (add_all lt).
Abbreviation prepend_request := (prepend_request lt).
Abbreviation prepend_requests := (prepend_requests lt).
Abbreviation pop_request := (pop_request lt).
Abbreviation iter := (iter lt).
Abbreviation remove_request := (remove_request lt same).
Abbreviation remove_requests := (remove_requests lt same).

Lemma add_request_spec q r :
  queue_ok q → ∃ q', add_request q r = Ok q' ∧ queue_ok q' ∧ same_policy q q' ∧ items q' ≡ₚ r :: items q.
Proof.
  destruct q as [l|h]; simpl; intros Hq.
  - eexists. split_and!; try done. simpl. by rewrite Permutation_app_comm.
  - destruct (heappush_spec lt lt_asym ge_trans h r Hq) as (h' & -> & Hh & Hp).
    by eexists.
Qed.

Lemma add_all_spec rs : ∀ q,
  queue_ok q → ∃ q', add_all q rs = Ok q' ∧ queue_ok q' ∧ same_policy q q' ∧ items q' ≡ₚ rs ++ items q.
Proof.
  induction rs as [|r rs IH]; intros q Hq; simpl; [exists q; by destruct q|].
  destruct (add_request_spec q r Hq) as (q1 & -> & Hq1 & Hs1 & Hp1). simpl.
  destruct (IH q1 Hq1) as (q2 & -> & Hq2 & Hs2 & Hp2). exists q2.
  split_and!; [done|done|by destruct q, q1, q2|]. rewrite Hp2, Hp1. by rewrite <- Permutation_middle.
Qed.

Lemma prepend_request_spec q r :
  queue_ok q → ∃ q', prepend_request q r = Ok q' ∧ queue_ok q' ∧ same_policy q q' ∧ items q' ≡ₚ r :: items q.
Proof. destruct q as [l|h]; [by eexists|apply add_request_spec]. Qed.

Lemma iter_spec q :
  queue_ok q → ∃ rs, iter q = Ok rs ∧ rs ≡ₚ items q ∧
    match q with
    | FCFSRequestQueue l => rs = l
    | PriorityRequestQueue _ => StronglySorted (λ a b, lt b a = false) rs
    end.
Proof.
  destruct q as [l|h]; simpl; intros Hq; [by exists l|].
  destruct (pop_all_spec lt lt_asym ge_trans (S (length h)) h) as (rs & ? & ? & ?);
    [lia|done|]. by exists rs.
Qed.

Lemma prepend_requests_spec q q2 :
  queue_ok q → queue_ok q2 →
  ∃ q', prepend_requests q q2 = Ok q' ∧ queue_ok q' ∧ same_policy q q' ∧ items q' ≡ₚ items q2 ++ items q.
Proof.
  intros Hq (rs & Hi & Hp & _)%iter_spec. unfold prepend_requests. rewrite Hi. simpl.
  destruct q as [l|h].
  - eexists. split_and!; try done. simpl.
    rewrite <- Hp. apply Permutation_app_tail. symmetry. apply Permutation_rev.
  - destruct (add_all_spec rs _ Hq) as (q' & E & ? & ? & Hp'). exists q'.
    split_and!; try done. by rewrite Hp', Hp.
Qed.

Lemma pop_request_spec q :
  queue_ok q → items q ≠ [] →
  ∃ r q', pop_request q = Ok (r, q') ∧ peek_request q = Ok r ∧ queue_ok q' ∧ same_policy q q' ∧
    items q ≡ₚ r :: items q' ∧
    match q with
    | FCFSRequestQueue _ => items q = r :: items q'
    | PriorityRequestQueue _ => ∀ r', r' ∈ items q' → lt r' r = false
    end.
Proof.
  destruct q as [l|h]; unfold peek_request; simpl; intros Hq Hne.
  - destruct l as [|r l]; [done|]. by eexists r, (FCFSRequestQueue l).
  - destruct (heappop_spec lt lt_asym ge_trans h Hne Hq)
      as (r & h' & Hpop & Hh' & Hp & Hhd & Hmin).
    exists r, (PriorityRequestQueue h'). destruct h as [|r0 h]; [done|]. simpl in Hhd. simplify_eq.
    rewrite Hpop. split_and!; try done. intros r' Hr'. apply Hmin. rewrite Hp. by right.
Qed.

Lemma list_remove_spec r l :
  match list_remove same r l with
  | Ok l' => ∃ pre x suf, l = pre ++ x :: suf ∧ l' = pre ++ suf ∧ same r x = true ∧
               ∀ y, y ∈ pre → same r y = false
  | Raise e => e = ValueError ∧ ∀ y, y ∈ l → same r y = false
  end.
Proof.
  induction l as [|y l IH]; simpl; [split; [done|]; set_solver|].
  destruct (same r y) eqn:E.
  - exists [], y, l. split_and!; try done. set_solver.
  - destruct (list_remove same r l) as [l'|e]; simpl.
    + destruct IH as (pre & x & suf & -> & -> & Hx & Hpre). exists (y :: pre), x, suf.
      split_and!; try done. intros z [->|Hz]%elem_of_cons; [congruence|by apply Hpre].
    + destruct IH as [-> IH]. split; [done|]. intros z [->|Hz]%elem_of_cons; [congruence|by apply IH].
Qed.

Lemma remove_requests_spec q rs :
  queue_ok q → ∃ q', remove_requests q rs = Ok q' ∧ queue_ok q' ∧ same_policy q q' ∧
    items q' ≡ₚ without same rs (items q) ∧
    match q with FCFSRequestQueue l => items q' = without same rs l | _ => True end.
Proof.
  destruct q as [l|h]; simpl; intros Hq; [by eexists|].
  destruct (heapify_spec lt lt_asym ge_trans (without same rs h)) as (h' & -> & ? & ?).
  by eexists.
Qed.

Lemma remove_request_spec q r :
  queue_ok q →
  match remove_request q r with
  | Ok q' => queue_ok q' ∧ same_policy q q' ∧
      ∃ x, same r x = true ∧ items q ≡ₚ x :: items q'
  | Raise e => e = ValueError ∧ ∀ y, y ∈ items q → same r y = false
  end.
Proof.
  intros Hq. pose proof (list_remove_spec r (items q)) as H. destruct q as [l|h]; simpl in *;
    destruct (list_remove same r _) as [l'|e]; simpl; try done.
  - destruct H as (pre & x & suf & -> & -> & Hx & _). split_and!; try done. exists x.
    split; [done|]. by rewrite <- Permutation_middle.
  - destruct H as (pre & x & suf & -> & -> & Hx & _).
    destruct (heapify_spec lt lt_asym ge_trans (pre ++ suf)) as (h' & -> & ? & Hp).
    split_and!; try done. exists x. split; [done|]. simpl. rewrite Hp. by rewrite <- Permutation_middle.
Qed.

(** *** The queues a scheduler can build *)
Inductive queue_reach : RequestQueue A → Prop :=
  | qr_create policy : queue_reach (create_request_queue policy)
  | qr_add q r q' : queue_reach q → add_request q r = Ok q' → queue_reach q'
  | qr_prepend q r q' : queue_reach q → prepend_request q r = Ok q' → queue_reach q'
  | qr_prepend_all q q2 q' : queue_reach q → queue_reach q2 → prepend_requests q q2 = Ok q' → queue_reach q'
  | qr_pop q r q' : queue_reach q → pop_request q = Ok (r, q') → queue_reach q'
  | qr_remove q r q' : queue_reach q → remove_request q r = Ok q' → queue_reach q'
  | qr_remove_all q rs q' : queue_reach q → remove_requests q rs = Ok q' → queue_reach q'.

Lemma queue_reach_ok q : queue_reach q → queue_ok q.
Proof.
  induction 1 as [p|q r q' _ IH E|q r q' _ IH E|q q2 q' _ IH _ IH2 E|q r q' _ IH E|q r q' _ IH E|q rs q' _ IH E].
  - by destruct p.
  - destruct (add_request_spec q r IH) as (q1 & E1 & ? & _). congruence.
  - destruct (prepend_request_spec q r IH) as (q1 & E1 & ? & _). congruence.
  - destruct (prepend_requests_spec q q2 IH IH2) as (q1 & E1 & ? & _). congruence.
  - destruct (decide (items q = [])) as [Hn|Hn]; [destruct q as [[]|[]]; simpl in *; done|].
    destruct (pop_request_spec q IH Hn) as (r1 & q1 & E1 & _ & ? & _). congruence.
  - pose proof (remove_request_spec q r IH) as H. rewrite E in H. apply H.
  - destruct (remove_requests_spec q rs IH) as (q1 & E1 & ? & _). congruence.
Qed.
End queue_proofs.

Lemma request_queue_ok q : queue_reach request_lt same_object q → queue_ok request_lt q.
Proof. apply queue_reach_ok; [exact request_lt_asym|exact request_ge_trans]. Qed.

(** C32. The priority queue serves the first request: [pop_request] on a queue
    that is not empty takes out exactly one request, the one [peek_request]
    shows, and none of the requests that remain is before it in the order of
    [Request.__lt__], whatever additions, removals and prependings led to the
    heap. *)
Theorem priority_pop_serves_first h :
  queue_reach request_lt same_object (PriorityRequestQueue h) → h ≠ [] →
  ∃ r h', Queue.pop_request request_lt (PriorityRequestQueue h) = Ok (r, PriorityRequestQueue h') ∧
    Queue.peek_request (PriorityRequestQueue h) = Ok r ∧ h ≡ₚ r :: h' ∧
    ∀ r', r' ∈ h' → request_lt r' r = false.
Proof.
  intros Hr%request_queue_ok Hne.
  destruct (pop_request_spec request_lt request_lt_asym request_ge_trans _ Hr Hne) as (r & q' & ? & ? & _ & Hs & Hp & Hmin).
  destruct q' as [|h']; [done|]. by exists r, h'.
Qed.

(** C38. The operations of both queues are total and lose nothing: adding and
    prepending always succeed and add exactly the given requests; popping and
    peeking raise [IndexError] exactly on an empty queue; [remove_request] raises
    [ValueError] exactly when the object is absent and takes out one occurrence
    otherwise; [remove_requests] keeps exactly the other requests. *)
Theorem queue_operations_total q q2 r rs :
  queue_reach request_lt same_object q → queue_reach request_lt same_object q2 →
  (∃ q', Queue.add_request request_lt q r = Ok q' ∧ Queue.items q' ≡ₚ r :: Queue.items q) ∧
  (∃ q', Queue.prepend_request request_lt q r = Ok q' ∧ Queue.items q' ≡ₚ r :: Queue.items q) ∧
  (∃ q', Queue.prepend_requests request_lt q q2 = Ok q' ∧ Queue.items q' ≡ₚ Queue.items q2 ++ Queue.items q) ∧
  (∃ q', Queue.remove_requests request_lt same_object q rs = Ok q' ∧ Queue.items q' ≡ₚ without same_object rs (Queue.items q)) ∧
  (if Queue.to_bool q
   then ∃ x q', Queue.pop_request request_lt q = Ok (x, q') ∧ Queue.items q ≡ₚ x :: Queue.items q'
   else Queue.pop_request request_lt q = Raise IndexError ∧ Queue.peek_request q = Raise IndexError) ∧
  match Queue.remove_request request_lt same_object q r with
  | Ok q' => ∃ x, same_object r x = true ∧ Queue.items q ≡ₚ x :: Queue.items q'
  | Raise e => e = ValueError ∧ ∀ y, y ∈ Queue.items q → same_object r y = false
  end.
Proof.
  intros Hq%request_queue_ok Hq2%request_queue_ok. split_and!.
  - destruct (add_request_spec request_lt request_lt_asym request_ge_trans q r Hq) as (q' & ? & _ & _ & ?). eauto.
  - destruct (prepend_request_spec request_lt request_lt_asym request_ge_trans q r Hq) as (q' & ? & _ & _ & ?). eauto.
  - destruct (prepend_requests_spec request_lt request_lt_asym request_ge_trans q q2 Hq Hq2) as (q' & ? & _ & _ & ?). eauto.
  - destruct (remove_requests_spec request_lt same_object request_lt_asym request_ge_trans q rs Hq) as (q' & ? & _ & _ & ? & _). eauto.
  - unfold Queue.to_bool. destruct (Queue.items q) eqn:E; simpl.
    + by destruct q as [[]|[]].
    + destruct (pop_request_spec request_lt request_lt_asym request_ge_trans q Hq ltac:(congruence)) as (x & q' & ? & _ & _ & _ & Hp & _).
      exists x, q'. by rewrite <- E.
  - pose proof (remove_request_spec request_lt same_object request_lt_asym request_ge_trans q r Hq) as Hrem. destruct (Queue.remove_request request_lt same_object q r); naive_solver.
Qed.

Lemma sorted_permutation_unique l1 l2 :
  NoDup (py_id <$> l1) → StronglySorted (λ a b, request_lt b a = false) l1 →
  StronglySorted (λ a b, request_lt b a = false) l2 → l1 ≡ₚ l2 → l1 = l2.
Proof.
  intros Hnd H1. revert l2. induction H1 as [|a l1 H1 IH Ha]; intros l2 H2 Hp.
  { by apply Permutation_nil in Hp. }
  destruct H2 as [|b l2 H2 Hb]; [by apply Permutation_nil_r in Hp|].
  apply NoDup_cons in Hnd as [Hnin Hnd].
  assert (a = b) as <-.
  { assert (Hin : b ∈ a :: l1) by (rewrite Hp; by left).
    assert (Hin' : a ∈ b :: l2) by (rewrite <- Hp; by left).
    apply elem_of_cons in Hin as [|Hin]; [done|]. apply elem_of_cons in Hin' as [|Hin']; [done|].
    rewrite Forall_forall in Ha. rewrite Forall_forall in Hb.
    destruct (request_same_keys a b) as (_ & _ & _ & E); [by apply Hb|by apply Ha|].
    destruct Hnin. apply list_elem_of_fmap. by exists b. }
  f_equal. apply IH; try done. by apply Permutation_cons_inv in Hp.
Qed.

(** C33. The order of service is deterministic: iterating over a priority queue
    yields all its requests in strictly increasing order of [Request.__lt__], and
    two queues that hold the same requests are iterated in the same order, however
    their heaps were built. *)
Theorem priority_iteration_deterministic h1 h2 :
  queue_reach request_lt same_object (PriorityRequestQueue h1) → queue_reach request_lt same_object (PriorityRequestQueue h2) →
  h1 ≡ₚ h2 → NoDup (py_id <$> h1) →
  ∃ rs, Queue.iter request_lt (PriorityRequestQueue h1) = Ok rs ∧ Queue.iter request_lt (PriorityRequestQueue h2) = Ok rs ∧
    rs ≡ₚ h1 ∧ StronglySorted (λ a b, request_lt a b = true) rs.
Proof.
  intros Hr1%request_queue_ok Hr2%request_queue_ok Hp Hnd.
  destruct (iter_spec request_lt request_lt_asym request_ge_trans _ Hr1) as (rs & E1 & Hp1 & Hs1). destruct (iter_spec request_lt request_lt_asym request_ge_trans _ Hr2) as (rs' & E2 & Hp2 & Hs2).
  simpl in Hp1, Hp2. assert (Hnd' : NoDup (py_id <$> rs)) by (by rewrite Hp1).
  assert (rs' = rs) as ->.
  { symmetry. apply sorted_permutation_unique; try done. by rewrite Hp1, Hp2. }
  exists rs. split_and!; try done. clear -Hs1 Hnd'.
  induction Hs1 as [|a l Hl IH Ha]; [constructor|]. apply NoDup_cons in Hnd' as [Hnin Hnd].
  constructor; [by apply IH|]. apply Forall_forall. intros b Hb. rewrite Forall_forall in Ha.
  destruct (request_lt_total a b) as [|Hlt]; [|done|].
  - intros E. apply Hnin, list_elem_of_fmap. eauto.
  - by rewrite (Ha _ Hb) in Hlt.
Qed.

(** [step_skipped_waiting.prepend_request(r)] for the requests a step skips *)
Fixpoint prepend_each (q : RequestQueue Request) (rs : list Request) : res (RequestQueue Request) :=
  match rs with
  | [] => Ok q
  | r :: rs' => q' ← Queue.prepend_request request_lt q r; prepend_each q' rs'
  end.

(** A step does not reorder the requests it skips: under first come, first
    served, the requests that a step pops and prepends one by one to its
    temporary queue come back, by one [prepend_requests], to the front of the
    queue in the order in which they were popped. *)
Theorem skipped_requests_keep_order skipped l :
  ∃ tmp, prepend_each (Queue.create_request_queue FCFS) skipped = Ok tmp ∧
    Queue.prepend_requests request_lt (FCFSRequestQueue l) tmp = Ok (FCFSRequestQueue (skipped ++ l)).
Proof.
  assert (H : ∀ rs q, prepend_each (FCFSRequestQueue q) rs = Ok (FCFSRequestQueue (rev rs ++ q))).
  { induction rs as [|r rs IH]; intros q; simpl; [done|]. by rewrite IH, <- app_assoc. }
  eexists. split; [apply H|]. unfold Queue.prepend_requests. simpl. by rewrite app_nil_r, rev_involutive.
Qed.

(** ** Witnesses *)
Definition demo_queued (rid : string) (prio arrival oid : Z) : Request :=
  mkRequest rid 0 prio arrival oid WAITING 1 false None None ∅ 0 [] [] 0 [] 0 None [] None
    false 0 [] false false (new_ext None None).
Definition demo_q1 : Request := demo_queued "r1" 5 10 1.
Definition demo_q2 : Request := demo_queued "r2" 1 12 2.
Definition demo_q3 : Request := demo_queued "r3" 1 11 3.

Definition demo_heap : list Request := [demo_q3; demo_q1; demo_q2].
Definition demo_heap' : list Request := [demo_q3; demo_q2; demo_q1].

Lemma demo_heap_reach : queue_reach request_lt same_object (PriorityRequestQueue demo_heap).
Proof.
  apply (qr_add _ _ (PriorityRequestQueue [demo_q2; demo_q1]) demo_q3); [|by vm_compute].
  apply (qr_add _ _ (PriorityRequestQueue [demo_q1]) demo_q2); [|by vm_compute].
  apply (qr_add _ _ (PriorityRequestQueue []) demo_q1); [|by vm_compute]. apply (qr_create _ _ PRIORITY).
Qed.

Lemma demo_heap'_reach : queue_reach request_lt same_object (PriorityRequestQueue demo_heap').
Proof.
  apply (qr_add _ _ (PriorityRequestQueue [demo_q3; demo_q2]) demo_q1); [|by vm_compute].
  apply (qr_add _ _ (PriorityRequestQueue [demo_q2]) demo_q3); [|by vm_compute].
  apply (qr_add _ _ (PriorityRequestQueue []) demo_q2); [|by vm_compute]. apply (qr_create _ _ PRIORITY).
Qed.

Lemma priority_pop_serves_first_witness :
  ∃ r h', Queue.pop_request request_lt (PriorityRequestQueue demo_heap) = Ok (r, PriorityRequestQueue h') ∧ demo_heap ≡ₚ r :: h'.
Proof.
  destruct (priority_pop_serves_first demo_heap demo_heap_reach ltac:(done)) as (r & h' & H1 & _ & H2 & _).
  by exists r, h'.
Defined.

Lemma queue_operations_total_witness :
  ∃ q', Queue.prepend_requests request_lt (PriorityRequestQueue demo_heap) (PriorityRequestQueue demo_heap') = Ok q' ∧
    Queue.items q' ≡ₚ demo_heap' ++ demo_heap.
Proof.
  apply (queue_operations_total (PriorityRequestQueue demo_heap) (PriorityRequestQueue demo_heap') demo_q1 []
    demo_heap_reach demo_heap'_reach).
Defined.

Lemma priority_iteration_deterministic_witness :
  ∃ rs, Queue.iter request_lt (PriorityRequestQueue demo_heap) = Ok rs ∧ Queue.iter request_lt (PriorityRequestQueue demo_heap') = Ok rs.
Proof.
  destruct (priority_iteration_deterministic demo_heap demo_heap' demo_heap_reach demo_heap'_reach)
    as (rs & H1 & H2 & _).
  - unfold demo_heap, demo_heap'. constructor. constructor.
  - by apply (bool_decide_unpack (NoDup _)).
  - by exists rs.
Defined.

Example demo_served_in_order : Queue.iter request_lt (PriorityRequestQueue demo_heap) = Ok [demo_q3; demo_q2; demo_q1].
Proof. by vm_compute. Qed.
