(* ===== verification/SchedUtils.v ===== *)
(** * When a request stops

    [vllm/v1/core/sched/utils.py]: the detection of repetitions at the end of an
    output, the conditions under which a request stops, and the removal of
    requests from a list. *)
From S2P Require Import Prelude FreeQueue Request.

(** ** Repetition *)

(** A nest of [for] loops that returns [False] from its body: [all] with early
    exit, where the body may raise. *)
Fixpoint all_in (l : list Z) (f : Z → res bool) : res bool :=
  match l with
  | [] => Ok true
  | x :: l' => b ← f x; if (b : bool) then all_in l' f else Ok false
  end.

(** [token_ids[i]] *)
Definition token_at (token_ids : list Z) (i : Z) : res Z :=
  match py_get token_ids i with Some t => Ok t | None => Raise IndexError end.

Definition _has_repeating_pattern (token_ids : list Z) (pattern_len repetition_min_count : Z) : res bool :=
  all_in (py_range 1 (pattern_len + 1)) (λ n,
    target_token ← token_at token_ids (- n);
    all_in (py_range 1 repetition_min_count) (λ m,
      t ← token_at token_ids (- (pattern_len * m + n)); Ok (t =? target_token))).

(** The [for] loop over the pattern lengths. *)
Fixpoint repetition_loop (pattern_lens : list Z) (token_ids : list Z) (min_count : Z) : res bool :=
  match pattern_lens with
  | [] => Ok false
  | pattern_len :: rest =>
      if len token_ids <? pattern_len * min_count then Ok false
      else
        b ← _has_repeating_pattern token_ids pattern_len min_count;
        if (b : bool) then Ok true else repetition_loop rest token_ids min_count
  end.

Definition check_sequence_repetition (token_ids : list Z) (params : RepetitionDetectionParams) : res bool :=
  let min_pattern_size := if min_pattern_size params <=? 0 then 1 else min_pattern_size params in
  if (max_pattern_size params <=? 0) || (min_count params <? 2)
     || (max_pattern_size params <? min_pattern_size)
  then Ok false
  else repetition_loop (py_range min_pattern_size (max_pattern_size params + 1)) token_ids (min_count params).

(** ** Stopping *)
Definition check_stop (max_model_len : Z) : M Request bool :=
  r ← get;
  _ ← massert (match pooling_params (ext r) with None => true | Some _ => false end);
  sp ← of_opt AssertionError (sampling_params (ext r));
  if num_output_tokens r <? sp_min_tokens sp then mret false
  else
    last_token_id ← of_res (token_at (output_token_ids r) (-1));
    if bool_decide (sp_eos_token_id sp = Some last_token_id)
    then _ ← modify (set_status FINISHED_STOPPED); mret true
    else if bool_decide (last_token_id ∈ default [] (sp_stop_token_ids sp))
    then
      _ ← modify (set_status FINISHED_STOPPED);
      _ ← modify (set_stop_reason (Some (StopToken last_token_id)));
      mret true
    else if (max_model_len <=? num_tokens r) || (max_tokens r <=? num_output_tokens r)
    then _ ← modify (set_status FINISHED_LENGTH_CAPPED); mret true
    else
      match sp_repetition_detection sp with
      | None => mret false
      | Some params =>
          b ← of_res (check_sequence_repetition (output_token_ids r) params);
          if (b : bool)
          then
            _ ← modify (set_status FINISHED_REPETITION);
            _ ← modify (set_stop_reason (Some RepetitionDetected));
            mret true
          else mret false
      end.

(** ** Removing from a list *)

(** [lst.remove(item)]; [None] stands for the [ValueError] that the caller
    suppresses. *)
Fixpoint remove_first (item : Z) (lst : list Z) : option (list Z) :=
  match lst with
  | [] => None
  | x :: lst' => if x =? item then Some lst' else cons x <$> remove_first item lst'
  end.

(** The references to remove; one is taken out in place. *)
Definition remove_all (lst : list Z) (items_to_remove : gset Z) : list Z :=
  match elements items_to_remove with
  | [] => lst
  | [item] => default lst (remove_first item lst)
  | _ => filter (λ item, item ∉ items_to_remove) lst
  end.

(** ** Correctness of the detection *)
Lemma all_in_spec l f :
  (∀ x, x ∈ l → ∃ b, f x = Ok b) →
  ∃ b, all_in l f = Ok b ∧ (b = true ↔ ∀ x, x ∈ l → f x = Ok true).
Proof.
  induction l as [|x l IH]; intros Hf; simpl; [exists true; set_solver|].
  destruct (Hf x ltac:(set_solver)) as [b Hb]. rewrite Hb. simpl.
  destruct IH as (b' & E & Hb'); [intros y Hy; apply Hf; set_solver|]. destruct b.
  - exists b'. split; [done|]. rewrite Hb'. setoid_rewrite elem_of_cons. naive_solver.
  - exists false. split; [done|]. split; [done|]. intros H. specialize (H x ltac:(set_solver)). congruence.
Qed.

Lemma elem_of_py_range i j x : x ∈ py_range i j ↔ i ≤ x < j.
Proof. unfold py_range. rewrite elem_of_seqZ. lia. Qed.

(** Subscripts from the end *)
Lemma token_at_back toks k :
  1 ≤ k ≤ len toks → ∃ t, token_at toks (- k) = Ok t ∧ toks !! (length toks - Z.to_nat k)%nat = Some t.
Proof.
  intros Hk. unfold token_at, py_get. destruct (Z.ltb_spec (- k) 0); [|lia].
  destruct (Z.ltb_spec (len toks + - k) 0); [lia|].
  replace (Z.to_nat (len toks + - k)) with (length toks - Z.to_nat k)%nat by lia.
  destruct (lookup_lt_is_Some_2 toks (length toks - Z.to_nat k)) as [t Ht]; [lia|]. rewrite Ht. eauto.
Qed.

(** The list ends with [count] copies of one pattern of [L] tokens. *)
Definition ends_repeating (toks : list Z) (L count : nat) : Prop :=
  ∃ pre pat, length pat = L ∧ toks = pre ++ concat (replicate count pat).

(** The same by subscripts, as the loops compare them. *)
Definition tail_periodic (toks : list Z) (L count : nat) : Prop :=
  ∀ n m, (1 ≤ n ≤ L)%nat → (1 ≤ m < count)%nat →
    toks !! (length toks - n)%nat = toks !! (length toks - (L * m + n))%nat.

Lemma length_concat_replicate {A} c (p : list A) : length (concat (replicate c p)) = (c * length p)%nat.
Proof. induction c as [|c IH]; simpl; [done|]. by rewrite length_app, IH. Qed.

Lemma concat_replicate_lookup {A} c (p : list A) i :
  (i < c * length p)%nat → concat (replicate c p) !! i = p !! (i mod length p)%nat.
Proof.
  revert i. induction c as [|c IH]; intros i Hi; simpl in *; [lia|].
  destruct (decide (i < length p)%nat) as [Hl|Hl].
  - by rewrite lookup_app_l, Nat.mod_small by done.
  - rewrite lookup_app_r, IH by lia. f_equal.
    rewrite <- (Nat.Div0.mod_add (i - length p) 1 (length p)). f_equal. lia.
Qed.

Lemma ends_repeating_periodic toks L count :
  (0 < L)%nat → (0 < count)%nat → (L * count ≤ length toks)%nat →
  ends_repeating toks L count ↔ tail_periodic toks L count.
Proof.
  intros HL Hc Hlen. split.
  - intros (pre & pat & Hpat & ->) n m Hn Hm. pose proof (length_concat_replicate count pat) as El.
    rewrite Hpat in El. assert (L * m + n ≤ count * L)%nat by nia.
    rewrite !length_app, El, !lookup_app_r, !concat_replicate_lookup by lia. rewrite Hpat. f_equal.
    replace (length pre + count * L - n - length pre)%nat
      with (length pre + count * L - (L * m + n) - length pre + m * L)%nat by lia.
    by rewrite Nat.Div0.mod_add.
  - intros Hp. unfold tail_periodic in Hp. set (N := length toks) in *. assert (L ≤ N)%nat by nia.
    exists (take (N - L * count) toks), (drop (N - L) toks). split; [rewrite length_drop; lia|].
    rewrite <- (take_drop (N - L * count) toks) at 1. f_equal. apply list_eq. intros i.
    pose proof (length_concat_replicate count (drop (N - L) toks)) as El.
    rewrite length_drop in El. fold N in El. replace (N - (N - L))%nat with L in El by lia.
    destruct (decide (i < L * count)%nat) as [Hi|Hi].
    2: { rewrite !lookup_ge_None_2; [done|lia|rewrite length_drop; lia]. }
    assert (Edrop : length (drop (N - L) toks) = L) by (rewrite length_drop; lia).
    rewrite concat_replicate_lookup, Edrop by lia. rewrite !lookup_drop.
    pose proof (Nat.div_mod_eq i L) as Ei. pose proof (Nat.mod_upper_bound i L ltac:(lia)) as Hr.
    set (q := (i / L)%nat) in *. set (r := (i mod L)%nat) in *.
    assert (Hq : (q < count)%nat) by nia.
    clearbody q r. destruct (decide (S q = count)) as [<-|Eq]; [f_equal; lia|].
    destruct (Nat.le_exists_sub (S q) count) as (k & -> & _); [lia|].
    specialize (Hp (L - r)%nat k ltac:(lia) ltac:(lia)).
    replace (N - (L - r))%nat with (N - L + r)%nat in Hp by lia. rewrite Hp. f_equal. lia.
Qed.

Lemma repeating_pattern_spec toks (L count : Z) :
  0 < L → 2 ≤ count → L * count ≤ len toks →
  ∃ b, _has_repeating_pattern toks L count = Ok b ∧
    (b = true ↔ ends_repeating toks (Z.to_nat L) (Z.to_nat count)).
Proof.
  intros HL Hc Hlen. setoid_rewrite (ends_repeating_periodic toks (Z.to_nat L) (Z.to_nat count)); [|lia|lia|nia].
  unfold _has_repeating_pattern.
  assert (Hinner : ∀ n, n ∈ py_range 1 (L + 1) → ∃ b,
    (target_token ← token_at toks (- n);
     all_in (py_range 1 count) (λ m, t ← token_at toks (- (L * m + n)); Ok (t =? target_token))) = Ok b ∧
    (b = true ↔ ∀ m, 1 ≤ m < count →
       toks !! (length toks - Z.to_nat n)%nat = toks !! (length toks - Z.to_nat (L * m + n))%nat)).
  { intros n Hn%elem_of_py_range. destruct (token_at_back toks n) as (t & -> & Ht); [nia|]. simpl.
    assert (Hat : ∀ m, m ∈ py_range 1 count → ∃ t', token_at toks (- (L * m + n)) = Ok t' ∧
      toks !! (length toks - Z.to_nat (L * m + n))%nat = Some t').
    { intros m Hm%elem_of_py_range. apply token_at_back. nia. }
    destruct (all_in_spec (py_range 1 count) (λ m, t0 ← token_at toks (- (L * m + n)); Ok (t0 =? t)))
      as (b & E & Hb).
    { intros m Hm. destruct (Hat m Hm) as (t' & -> & _). simpl. eauto. }
    exists b. split; [done|]. rewrite Hb, Ht. split.
    - intros H m Hm. specialize (H m). rewrite elem_of_py_range in H. specialize (H Hm).
      destruct (Hat m) as (t' & E' & ->); [by apply elem_of_py_range|]. rewrite E' in H. simpl in H.
      injection H as H%Z.eqb_eq. by rewrite H.
    - intros H m Hm. destruct (Hat m Hm) as (t' & -> & Et'). simpl. apply elem_of_py_range in Hm.
      rewrite <- (H m Hm) in Et'. injection Et' as ->. by rewrite Z.eqb_refl. }
  destruct (all_in_spec (py_range 1 (L + 1)) (λ n,
    target_token ← token_at toks (- n);
     all_in (py_range 1 count) (λ m, t ← token_at toks (- (L * m + n)); Ok (t =? target_token))))
    as (b & E & Hb).
  { intros n Hn. destruct (Hinner n Hn) as (b & E & _). eauto. }
  exists b. split; [exact E|]. rewrite Hb. split.
  - intros H n m Hn Hm. specialize (H (Z.of_nat n)). rewrite elem_of_py_range in H.
    destruct (Hinner (Z.of_nat n)) as (b' & E' & Hb'); [apply elem_of_py_range; lia|].
    rewrite H in E' by lia. injection E' as <-. destruct Hb' as [Hb' _].
    specialize (Hb' eq_refl (Z.of_nat m) ltac:(lia)). rewrite Nat2Z.id in Hb'. rewrite Hb'. f_equal. nia.
  - intros H n Hn. destruct (Hinner n Hn) as (b' & E' & Hb'). rewrite E'. f_equal. apply Hb'.
    apply elem_of_py_range in Hn. intros m Hm.
    rewrite (H (Z.to_nat n) (Z.to_nat m)) by lia. f_equal. nia.
Qed.

Lemma repetition_spec (toks : list Z) (p : RepetitionDetectionParams) :
  ∃ b, check_sequence_repetition toks p = Ok b ∧
    (b = true ↔
       2 ≤ min_count p ∧ ∃ L, (0 < L)%nat ∧ min_pattern_size p ≤ Z.of_nat L ≤ max_pattern_size p ∧
         Z.of_nat L * min_count p ≤ len toks ∧ ends_repeating toks L (Z.to_nat (min_count p))).
Proof.
  unfold check_sequence_repetition.
  set (lo := if min_pattern_size p <=? 0 then 1 else min_pattern_size p).
  assert (Hlo : 0 < lo ∧ min_pattern_size p ≤ lo ∧ (lo = 1 ∨ lo = min_pattern_size p)).
  { unfold lo. destruct (Z.leb_spec (min_pattern_size p) 0); lia. }
  destruct (_ || _ || _) eqn:Eg.
  { exists false. split; [done|]. split; [done|]. intros (H1 & L & H2 & H3 & _). exfalso.
    rewrite !orb_true_iff, Z.leb_le, !Z.ltb_lt in Eg. lia. }
  rewrite !orb_false_iff, Z.leb_gt, !Z.ltb_ge in Eg. destruct Eg as [[_ Hc] _].
  assert (Hloop : ∀ k a, 0 < a → ∃ b, repetition_loop (seqZ a (Z.of_nat k)) toks (min_count p) = Ok b ∧
    (b = true ↔ ∃ L, a ≤ Z.of_nat L < a + Z.of_nat k ∧ Z.of_nat L * min_count p ≤ len toks ∧
       ends_repeating toks L (Z.to_nat (min_count p)))).
  { intros k. induction k as [|k IH]; intros a Ha.
    { exists false. split; [done|]. split; [done|]. intros (L & ? & _). lia. }
    rewrite seqZ_cons by lia. cbn [repetition_loop]. replace (Z.pred (Z.of_nat (S k))) with (Z.of_nat k) by lia.
    destruct (Z.ltb_spec (len toks) (a * min_count p)) as [Hlt|Hle].
    { exists false. split; [done|]. split; [done|]. intros (L & ? & ? & _). nia. }
    destruct (repeating_pattern_spec toks a (min_count p)) as (b & -> & Hb); [done|lia|done|]. simpl. destruct b.
    - exists true. split; [done|]. split; [|done]. intros _. exists (Z.to_nat a). rewrite Z2Nat.id by lia.
      split; [lia|]. split; [done|]. by apply Hb.
    - destruct (IH (Z.succ a)) as (b & E & Hb'); [lia|]. exists b. split; [done|]. rewrite Hb'. split.
      + intros (L & ? & ? & ?). exists L. split; [lia|done].
      + intros (L & HL & ? & Hrep). exists L. split; [|done].
        destruct (decide (Z.of_nat L = a)) as [<-|]; [|lia]. rewrite Nat2Z.id in Hb. by apply Hb in Hrep. }
  destruct (Hloop (Z.to_nat (max_pattern_size p + 1 - lo)) lo) as (b & E & Hb); [lia|].
  unfold py_range. destruct (Z.le_gt_cases 0 (max_pattern_size p + 1 - lo)) as [Hn|Hn].
  - rewrite Z2Nat.id in E, Hb by lia. exists b. split; [done|]. rewrite Hb. split.
    + intros (L & ? & ? & ?). split; [done|]. exists L. split_and!; [lia..|done|done].
    + intros (_ & L & ? & ? & ? & ?). exists L. split_and!; [lia..|done|done].
  - replace (Z.to_nat (max_pattern_size p + 1 - lo)) with 0%nat in E, Hb by lia.
    exists b. split; [|rewrite Hb; split; [intros (L & ? & _); lia|intros (_ & L & ? & ? & _); lia]].
    rewrite <- E. f_equal. unfold seqZ. by replace (Z.to_nat (max_pattern_size p + 1 - lo)) with 0%nat by lia.
Qed.

Lemma repetition_total toks p : ∃ b, check_sequence_repetition toks p = Ok b.
Proof. destruct (repetition_spec toks p) as (b & E & _). eauto. Qed.

(** C40. [check_sequence_repetition] never raises, and decides exactly whether the
    tokens end with [min_count] or more copies of a pattern whose length is within
    the configured sizes (at least 1). *)
Theorem repetition_exact (toks : list Z) (p : RepetitionDetectionParams) :
  ∃ b, check_sequence_repetition toks p = Ok b ∧
    (b = true ↔
       2 ≤ min_count p ∧ ∃ L, (0 < L)%nat ∧ min_pattern_size p ≤ Z.of_nat L ≤ max_pattern_size p ∧
         Z.of_nat L * min_count p ≤ len toks ∧ ends_repeating toks L (Z.to_nat (min_count p))).
Proof. apply repetition_spec. Qed.

(** ** Correctness of stopping *)

(** The output ends with a repetition that the parameters ask to stop at. *)
Definition repeats (sp : SamplingParams) (toks : list Z) : Prop :=
  ∃ p, sp_repetition_detection sp = Some p ∧ check_sequence_repetition toks p = Ok true.

Definition stop_token (sp : SamplingParams) (t : Z) : Prop :=
  sp_eos_token_id sp = Some t ∨ t ∈ default [] (sp_stop_token_ids sp).

(** All that stopping changes of a request *)
Definition stopped_as (st : RequestStatus) (reason : option StopReason) (r : Request) : Request :=
  set_stop_reason reason (set_status st r).

Lemma stopped_as_same st r : stopped_as st (stop_reason (ext r)) r = set_status st r.
Proof. unfold stopped_as. by destruct r as [? ? ? ? ? ? ? ? ? ? ? ? ? ? ? ? ? ? ? ? ? ? ? ? ? []]. Qed.

Lemma check_stop_spec (mml : Z) (r : Request) (sp : SamplingParams) (t : Z) :
  pooling_params (ext r) = None → sampling_params (ext r) = Some sp → last (output_token_ids r) = Some t →
  let stops := sp_min_tokens sp ≤ num_output_tokens r ∧
    (stop_token sp t ∨ mml ≤ num_tokens r ∨ max_tokens r ≤ num_output_tokens r ∨ repeats sp (output_token_ids r)) in
  ∃ b r', check_stop mml r = (Ok b, r') ∧ (b = true ↔ stops) ∧ (b = false → r' = r) ∧
    (b = true → ∃ st reason, r' = stopped_as st reason r ∧ status_is_finished st = true ∧
       (get_finished_reason st = Some STOP ↔ stop_token sp t)).
Proof.
  intros Hpool Hsp Hlast stops. subst stops. unfold stop_token, repeats.
  assert (Hat : token_at (output_token_ids r) (-1) = Ok t).
  { rewrite last_lookup in Hlast. unfold token_at, py_get. simpl.
    pose proof (lookup_lt_Some _ _ _ Hlast).
    destruct (Z.ltb_spec (len (output_token_ids r) + -1) 0); [lia|].
    replace (Z.to_nat (len (output_token_ids r) + -1)) with (pred (length (output_token_ids r))) by lia.
    by rewrite Hlast. }
  unfold check_stop, get, massert, of_opt, of_res, modify, mbind, M_bind. rewrite Hpool, Hsp. simpl. rewrite Hat.
  destruct (Z.ltb_spec (num_output_tokens r) (sp_min_tokens sp)) as [Hmin|Hmin].
  { exists false, r. split; [done|]. split; [|done]. split; [done|]. lia. }
  destruct (bool_decide _) eqn:Eeos; [apply bool_decide_eq_true in Eeos|apply bool_decide_eq_false in Eeos].
  { eexists true, _. split; [done|]. split; [naive_solver|]. split; [done|]. intros _.
    eexists FINISHED_STOPPED, _. split; [symmetry; apply stopped_as_same|]. naive_solver. }
  destruct (bool_decide _) eqn:Estop in |- *;
    [apply bool_decide_eq_true in Estop|apply bool_decide_eq_false in Estop].
  { eexists true, _. split; [done|]. split; [naive_solver|]. split; [done|]. intros _.
    eexists FINISHED_STOPPED, _. split; [reflexivity|]. naive_solver. }
  destruct (_ || _) eqn:Elen.
  { rewrite orb_true_iff, !Z.leb_le in Elen. eexists true, _. split; [done|]. split; [naive_solver|].
    split; [done|]. intros _. eexists FINISHED_LENGTH_CAPPED, _.
    split; [symmetry; apply stopped_as_same|]. naive_solver. }
  rewrite orb_false_iff, !Z.leb_gt in Elen.
  destruct (sp_repetition_detection sp) as [p|].
  - destruct (repetition_total (output_token_ids r) p) as [b E]. rewrite E. destruct b.
    + eexists true, _. split; [done|]. split; [naive_solver|]. split; [done|]. intros _.
      eexists FINISHED_REPETITION, _. split; [reflexivity|]. naive_solver.
    + exists false, r. split; [done|]. split; [|done]. split; [done|].
      intros (_ & [Ht|[Hm|[Hm|(p' & [= <-] & Hp)]]]); [naive_solver|lia|lia|congruence].
  - exists false, r. split; [done|]. split; [|done]. split; [done|].
    intros (_ & [Ht|[Hm|[Hm|(p' & ? & Hp)]]]); [naive_solver|lia|lia|congruence].
Qed.

(** C39. [check_stop] on a generating request with an output token: it does not
    raise; with fewer output tokens than [min_tokens] it never stops, otherwise it
    stops exactly at an end-of-sequence or stop token, at the length limits, or at
    a repetition.  A request that does not stop is unchanged; one that stops gets a
    finished status (reason "stop" exactly for the tokens) and nothing else of it
    changes. *)
Theorem check_stop_exact (mml : Z) (r : Request) (sp : SamplingParams) (t : Z) :
  pooling_params (ext r) = None → sampling_params (ext r) = Some sp → last (output_token_ids r) = Some t →
  ∃ b r', check_stop mml r = (Ok b, r') ∧
    (b = true ↔ sp_min_tokens sp ≤ num_output_tokens r ∧
      (stop_token sp t ∨ mml ≤ num_tokens r ∨ max_tokens r ≤ num_output_tokens r ∨
       repeats sp (output_token_ids r))) ∧
    (b = false → r' = r) ∧
    (b = true → ∃ st reason, r' = stopped_as st reason r ∧ status_is_finished st = true ∧
       (get_finished_reason st = Some STOP ↔ stop_token sp t)).
Proof. apply check_stop_spec. Qed.

(** ** Correctness of the removal *)
Lemma remove_first_filter x l :
  NoDup l → default l (remove_first x l) = filter (λ y, y ≠ x) l.
Proof.
  induction l as [|y l IH]; [done|]. intros [Hy Hnd]%NoDup_cons. simpl. rewrite filter_cons.
  destruct (Z.eqb_spec y x) as [->|Hne].
  - rewrite decide_False by (intros []; done). simpl. symmetry. apply filter_id. intros z Hz ->. done.
  - rewrite decide_True by done. rewrite <- IH by done. by destruct (remove_first x l).
Qed.

Lemma remove_all_spec lst (items : gset Z) :
  NoDup lst → remove_all lst items = filter (λ x, x ∉ items) lst.
Proof.
  intros Hnd. unfold remove_all. destruct (elements items) as [|x [|y l]] eqn:E.
  - apply elements_empty_inv in E. symmetry. apply filter_id. set_solver.
  - rewrite remove_first_filter by done. apply filter_ext_in. intros z _.
    assert (Hx : ∀ z, z ∈ items ↔ z = x) by (intros z'; rewrite <- elem_of_elements, E; set_solver).
    by rewrite Hx.
  - done.
Qed.

(** The fast path of [remove_all] agrees with the general one: on a list without
    duplicates the result is the list of the items not to be removed, in order,
    whatever the number of items to remove and whether or not they occur. *)
Theorem remove_all_is_filter (lst : list Z) (items : gset Z) :
  NoDup lst → remove_all lst items = filter (λ x, x ∉ items) lst.
Proof. apply remove_all_spec. Qed.

(** ** Witnesses *)
Definition demo_stop_params : SamplingParams :=
  mkSampling (Some 8) false None 2 (Some 0) (Some [9]) (Some (mkRepetition 2 1 3)).
Definition demo_output (toks : list Z) : Request :=
  mkRequest "r" 0 0 0 1 RUNNING 8 false (Some [5]) None ∅ 1 toks ([5] ++ toks) 0 [] 0 None [] None
    false 0 [] false false (new_ext (Some demo_stop_params) None).

Lemma check_stop_exact_witness :
  ∃ b r', check_stop 16 (demo_output [1; 7; 9]) = (Ok b, r') ∧
    (b = true → ∃ st reason, r' = stopped_as st reason (demo_output [1; 7; 9]) ∧ status_is_finished st = true).
Proof.
  destruct (check_stop_exact 16 (demo_output [1; 7; 9]) demo_stop_params 9) as (b & r' & H1 & _ & _ & H4);
    [reflexivity..|].
  exists b, r'. split; [exact H1|]. intros Hb. destruct (H4 Hb) as (st & reason & E1 & E2 & _). eauto.
Defined.

Lemma remove_all_is_filter_witness : remove_all [3; 1; 2] {[ 1 ]} = filter (λ x, x ∉ ({[ 1 ]} : gset Z)) [3; 1; 2].
Proof. apply remove_all_is_filter. apply (bool_decide_unpack (NoDup [3; 1; 2])). exact I. Defined.

Example demo_repeats : check_sequence_repetition [4; 1; 2; 1; 2; 1; 2] (mkRepetition 2 1 3) = Ok true.
Proof. reflexivity. Qed.

Example demo_repeats_not : check_sequence_repetition [1; 2; 1; 2; 1; 3] (mkRepetition 2 1 3) = Ok false.
Proof. reflexivity. Qed.
