(* ===== verification/SchedState.v ===== *)
(** * The state of the scheduler

    The data of [vllm/v1/core/sched/scheduler.py], [interface.py] and [output.py]:
    the configuration, the scheduler object, what one call of [schedule] collects
    and what it returns; and access to the request objects, the queues and the
    managers.  Requests are objects in a store, referred to by identity from the
    table of requests, the running list and both queues, as in the program: an
    attribute changed through one reference is changed for all. *)
From S2P Require Import Prelude FreeQueue Request BlockHash BlockPool.
From S2P Require Import KVSpec Coordinator KVCacheManager EncoderCache RequestQueue.

Inductive PauseState := UNPAUSED | PAUSED_NEW | PAUSED_ALL.

#[global] Instance PauseState_eq_dec : EqDecision PauseState.
Proof. solve_decision. Defined.
#[global] Instance SchedulingPolicy_eq_dec : EqDecision SchedulingPolicy.
Proof. solve_decision. Defined.

(** [speculative_config] *)
Record SpeculativeConfig := mkSpeculative {
  num_speculative_tokens : Z;
  spec_use_eagle : bool; spec_uses_draft_model : bool; spec_use_dflash : bool;
}.

(** The options of [VllmConfig] that the scheduler reads; [lora] is
    [lora_config.max_loras]. *)
Record Config := mkConf {
  cf_policy : SchedulingPolicy;
  cf_max_num_seqs : Z;
  cf_max_num_scheduled_tokens : option Z;
  cf_max_num_batched_tokens : Z;
  cf_max_model_len : Z;
  cf_long_prefill_token_threshold : Z;
  cf_enable_chunked_prefill : bool;
  cf_disable_chunked_mm_input : bool;
  cf_is_encoder_decoder : bool;
  cf_mm_budget : option (Z * Z);             (* compute budget, cache size *)
  cf_speculative : option SpeculativeConfig;
  cf_mamba_align : bool;                     (* Mamba layers, and mamba_cache_mode is "align" *)
  cf_cache_block_size : Z;
  cf_reserve_full_isl : bool;
  cf_use_v2_model_runner : bool;
  cf_pp_size : Z;
  cf_async_scheduling : bool;
  cf_lora : option Z;
  cf_needs_kv_cache_zeroing : bool;
  cf_block_size : Z;                         (* the argument [block_size] *)
  cf_recompute_kv_load_failures : bool;
}.

Section derived.
Context (cf : Config).

Definition max_num_scheduled_tokens : Z :=
  default (cf_max_num_batched_tokens cf) (cf_max_num_scheduled_tokens cf).

Definition use_eagle : bool :=
  match cf_speculative cf with Some s => spec_use_eagle s | None => false end.

Definition num_spec_tokens : Z :=
  match cf_speculative cf with Some s => num_speculative_tokens s | None => 0 end.

Definition num_lookahead_tokens : Z :=
  match cf_speculative cf with
  | None => 0
  | Some s =>
      let n := num_speculative_tokens s in
      let l := if spec_use_eagle s then n else 0 in
      let l := if spec_uses_draft_model s then n else l in
      if spec_use_dflash s then n + 1 else l
  end.

Definition max_num_encoder_input_tokens : Z := default 0 (fst <$> cf_mm_budget cf).
Definition encoder_cache_size : Z := default 0 (snd <$> cf_mm_budget cf).
Definition use_pp : bool := 1 <? cf_pp_size cf.
End derived.

(** A KV connector, as far as its answers go: they may depend on the step. *)
Record Connector := mkConnector {
  cn_get_num_new_matched_tokens : Z → Request → Z → option Z * bool;
  cn_supports_hma : bool;
  cn_request_finished : Z → Request → list (list Z) → bool;   (* delay the freeing of blocks *)
  cn_reset_cache : Z → bool;
}.

(** The structured-output manager and the grammar of a request: third-party
    back ends decide. *)
Record GrammarOps := mkGrammar {
  gr_ready : Z → Request → bool;                (* [structured_output_request.grammar] is there *)
  gr_should_advance : Request → bool;
  gr_accept_tokens : Request → list Z → bool;
  gr_validate_tokens : Request → list Z → list Z;
}.

(** [EncoderDecoderCacheManager] for encoder-decoder models *)
Inductive EncoderManager :=
  | EncoderOnly (c : EncoderCacheManager)
  | EncoderDecoder (c : EncoderDecoderCacheManager).

Record Scheduler := mkSched {
  sc_objs : gmap Z Request;   (* the request objects, by identity *)
  sc_requests : list (string * Z);   (* a dict: request id => object *)
  sc_waiting : RequestQueue Z;
  sc_skipped_waiting : RequestQueue Z;
  sc_running : list Z;
  sc_kv : KVCacheManager;
  sc_enc : EncoderManager;
  sc_finished_req_ids : gset string;
  sc_finished_req_ids_dict : option (list (Z * gset string));
  sc_prev_step_scheduled_req_ids : gset string;
  sc_num_waiting_for_streaming_input : Z;
  sc_finished_recving : gset string;
  sc_failed_recving : gset string;
  sc_inflight_prefills : gset Z;
  sc_pause_state : PauseState;
  sc_current_step : Z;
}.
Definition sc_set_objs (v : gmap Z Request) (s : Scheduler) : Scheduler :=
  mkSched v (sc_requests s) (sc_waiting s) (sc_skipped_waiting s) (sc_running s) (sc_kv s)
    (sc_enc s) (sc_finished_req_ids s) (sc_finished_req_ids_dict s)
    (sc_prev_step_scheduled_req_ids s) (sc_num_waiting_for_streaming_input s)
    (sc_finished_recving s) (sc_failed_recving s) (sc_inflight_prefills s) (sc_pause_state s)
    (sc_current_step s).
Definition sc_set_requests (v : list (string * Z)) (s : Scheduler) : Scheduler :=
  mkSched (sc_objs s) v (sc_waiting s) (sc_skipped_waiting s) (sc_running s) (sc_kv s) (sc_enc s)
    (sc_finished_req_ids s) (sc_finished_req_ids_dict s) (sc_prev_step_scheduled_req_ids s)
    (sc_num_waiting_for_streaming_input s) (sc_finished_recving s) (sc_failed_recving s)
    (sc_inflight_prefills s) (sc_pause_state s) (sc_current_step s).
Definition sc_set_waiting (v : RequestQueue Z) (s : Scheduler) : Scheduler :=
  mkSched (sc_objs s) (sc_requests s) v (sc_skipped_waiting s) (sc_running s) (sc_kv s) (sc_enc s)
    (sc_finished_req_ids s) (sc_finished_req_ids_dict s) (sc_prev_step_scheduled_req_ids s)
    (sc_num_waiting_for_streaming_input s) (sc_finished_recving s) (sc_failed_recving s)
    (sc_inflight_prefills s) (sc_pause_state s) (sc_current_step s).
Definition sc_set_skipped_waiting (v : RequestQueue Z) (s : Scheduler) : Scheduler :=
  mkSched (sc_objs s) (sc_requests s) (sc_waiting s) v (sc_running s) (sc_kv s) (sc_enc s)
    (sc_finished_req_ids s) (sc_finished_req_ids_dict s) (sc_prev_step_scheduled_req_ids s)
    (sc_num_waiting_for_streaming_input s) (sc_finished_recving s) (sc_failed_recving s)
    (sc_inflight_prefills s) (sc_pause_state s) (sc_current_step s).
Definition sc_set_running (v : list Z) (s : Scheduler) : Scheduler :=
  mkSched (sc_objs s) (sc_requests s) (sc_waiting s) (sc_skipped_waiting s) v (sc_kv s) (sc_enc s)
    (sc_finished_req_ids s) (sc_finished_req_ids_dict s) (sc_prev_step_scheduled_req_ids s)
    (sc_num_waiting_for_streaming_input s) (sc_finished_recving s) (sc_failed_recving s)
    (sc_inflight_prefills s) (sc_pause_state s) (sc_current_step s).
Definition sc_set_kv (v : KVCacheManager) (s : Scheduler) : Scheduler :=
  mkSched (sc_objs s) (sc_requests s) (sc_waiting s) (sc_skipped_waiting s) (sc_running s) v
    (sc_enc s) (sc_finished_req_ids s) (sc_finished_req_ids_dict s)
    (sc_prev_step_scheduled_req_ids s) (sc_num_waiting_for_streaming_input s)
    (sc_finished_recving s) (sc_failed_recving s) (sc_inflight_prefills s) (sc_pause_state s)
    (sc_current_step s).
Definition sc_set_enc (v : EncoderManager) (s : Scheduler) : Scheduler :=
  mkSched (sc_objs s) (sc_requests s) (sc_waiting s) (sc_skipped_waiting s) (sc_running s)
    (sc_kv s) v (sc_finished_req_ids s) (sc_finished_req_ids_dict s)
    (sc_prev_step_scheduled_req_ids s) (sc_num_waiting_for_streaming_input s)
    (sc_finished_recving s) (sc_failed_recving s) (sc_inflight_prefills s) (sc_pause_state s)
    (sc_current_step s).
Definition sc_set_finished_req_ids (v : gset string) (s : Scheduler) : Scheduler :=
  mkSched (sc_objs s) (sc_requests s) (sc_waiting s) (sc_skipped_waiting s) (sc_running s)
    (sc_kv s) (sc_enc s) v (sc_finished_req_ids_dict s) (sc_prev_step_scheduled_req_ids s)
    (sc_num_waiting_for_streaming_input s) (sc_finished_recving s) (sc_failed_recving s)
    (sc_inflight_prefills s) (sc_pause_state s) (sc_current_step s).
Definition sc_set_finished_req_ids_dict (v : option (list (Z * gset string))) (s : Scheduler) : Scheduler :=
  mkSched (sc_objs s) (sc_requests s) (sc_waiting s) (sc_skipped_waiting s) (sc_running s)
    (sc_kv s) (sc_enc s) (sc_finished_req_ids s) v (sc_prev_step_scheduled_req_ids s)
    (sc_num_waiting_for_streaming_input s) (sc_finished_recving s) (sc_failed_recving s)
    (sc_inflight_prefills s) (sc_pause_state s) (sc_current_step s).
Definition sc_set_prev_step_scheduled_req_ids (v : gset string) (s : Scheduler) : Scheduler :=
  mkSched (sc_objs s) (sc_requests s) (sc_waiting s) (sc_skipped_waiting s) (sc_running s)
    (sc_kv s) (sc_enc s) (sc_finished_req_ids s) (sc_finished_req_ids_dict s) v
    (sc_num_waiting_for_streaming_input s) (sc_finished_recving s) (sc_failed_recving s)
    (sc_inflight_prefills s) (sc_pause_state s) (sc_current_step s).
Definition sc_set_num_waiting_for_streaming_input (v : Z) (s : Scheduler) : Scheduler :=
  mkSched (sc_objs s) (sc_requests s) (sc_waiting s) (sc_skipped_waiting s) (sc_running s)
    (sc_kv s) (sc_enc s) (sc_finished_req_ids s) (sc_finished_req_ids_dict s)
    (sc_prev_step_scheduled_req_ids s) v (sc_finished_recving s) (sc_failed_recving s)
    (sc_inflight_prefills s) (sc_pause_state s) (sc_current_step s).
Definition sc_set_finished_recving (v : gset string) (s : Scheduler) : Scheduler :=
  mkSched (sc_objs s) (sc_requests s) (sc_waiting s) (sc_skipped_waiting s) (sc_running s)
    (sc_kv s) (sc_enc s) (sc_finished_req_ids s) (sc_finished_req_ids_dict s)
    (sc_prev_step_scheduled_req_ids s) (sc_num_waiting_for_streaming_input s) v
    (sc_failed_recving s) (sc_inflight_prefills s) (sc_pause_state s) (sc_current_step s).
Definition sc_set_failed_recving (v : gset string) (s : Scheduler) : Scheduler :=
  mkSched (sc_objs s) (sc_requests s) (sc_waiting s) (sc_skipped_waiting s) (sc_running s)
    (sc_kv s) (sc_enc s) (sc_finished_req_ids s) (sc_finished_req_ids_dict s)
    (sc_prev_step_scheduled_req_ids s) (sc_num_waiting_for_streaming_input s)
    (sc_finished_recving s) v (sc_inflight_prefills s) (sc_pause_state s) (sc_current_step s).
Definition sc_set_inflight_prefills (v : gset Z) (s : Scheduler) : Scheduler :=
  mkSched (sc_objs s) (sc_requests s) (sc_waiting s) (sc_skipped_waiting s) (sc_running s)
    (sc_kv s) (sc_enc s) (sc_finished_req_ids s) (sc_finished_req_ids_dict s)
    (sc_prev_step_scheduled_req_ids s) (sc_num_waiting_for_streaming_input s)
    (sc_finished_recving s) (sc_failed_recving s) v (sc_pause_state s) (sc_current_step s).
Definition sc_set_pause_state (v : PauseState) (s : Scheduler) : Scheduler :=
  mkSched (sc_objs s) (sc_requests s) (sc_waiting s) (sc_skipped_waiting s) (sc_running s)
    (sc_kv s) (sc_enc s) (sc_finished_req_ids s) (sc_finished_req_ids_dict s)
    (sc_prev_step_scheduled_req_ids s) (sc_num_waiting_for_streaming_input s)
    (sc_finished_recving s) (sc_failed_recving s) (sc_inflight_prefills s) v (sc_current_step s).
Definition sc_set_current_step (v : Z) (s : Scheduler) : Scheduler :=
  mkSched (sc_objs s) (sc_requests s) (sc_waiting s) (sc_skipped_waiting s) (sc_running s)
    (sc_kv s) (sc_enc s) (sc_finished_req_ids s) (sc_finished_req_ids_dict s)
    (sc_prev_step_scheduled_req_ids s) (sc_num_waiting_for_streaming_input s)
    (sc_finished_recving s) (sc_failed_recving s) (sc_inflight_prefills s) (sc_pause_state s) v.

(** What a call of [schedule] collects *)
Record StepState := mkStep {
  st_new : list Z;   (* scheduled_new_reqs *)
  st_resumed : list Z;
  st_running : list Z;
  st_preempted : list Z;
  st_blocks : list (string * KVCacheBlocks);   (* req_to_new_blocks *)
  st_num : list (string * Z);   (* num_scheduled_tokens *)
  st_budget : Z;   (* token_budget *)
  st_enc_inputs : list (string * list nat);
  st_enc_budget : Z;
  st_spec : list (string * list Z);   (* scheduled_spec_decode_tokens *)
  st_index : Z;   (* req_index *)
  st_loras : gset Z;
}.
Definition st_set_new (v : list Z) (s : StepState) : StepState :=
  mkStep v (st_resumed s) (st_running s) (st_preempted s) (st_blocks s) (st_num s) (st_budget s)
    (st_enc_inputs s) (st_enc_budget s) (st_spec s) (st_index s) (st_loras s).
Definition st_set_resumed (v : list Z) (s : StepState) : StepState :=
  mkStep (st_new s) v (st_running s) (st_preempted s) (st_blocks s) (st_num s) (st_budget s)
    (st_enc_inputs s) (st_enc_budget s) (st_spec s) (st_index s) (st_loras s).
Definition st_set_running (v : list Z) (s : StepState) : StepState :=
  mkStep (st_new s) (st_resumed s) v (st_preempted s) (st_blocks s) (st_num s) (st_budget s)
    (st_enc_inputs s) (st_enc_budget s) (st_spec s) (st_index s) (st_loras s).
Definition st_set_preempted (v : list Z) (s : StepState) : StepState :=
  mkStep (st_new s) (st_resumed s) (st_running s) v (st_blocks s) (st_num s) (st_budget s)
    (st_enc_inputs s) (st_enc_budget s) (st_spec s) (st_index s) (st_loras s).
Definition st_set_blocks (v : list (string * KVCacheBlocks)) (s : StepState) : StepState :=
  mkStep (st_new s) (st_resumed s) (st_running s) (st_preempted s) v (st_num s) (st_budget s)
    (st_enc_inputs s) (st_enc_budget s) (st_spec s) (st_index s) (st_loras s).
Definition st_set_num (v : list (string * Z)) (s : StepState) : StepState :=
  mkStep (st_new s) (st_resumed s) (st_running s) (st_preempted s) (st_blocks s) v (st_budget s)
    (st_enc_inputs s) (st_enc_budget s) (st_spec s) (st_index s) (st_loras s).
Definition st_set_budget (v : Z) (s : StepState) : StepState :=
  mkStep (st_new s) (st_resumed s) (st_running s) (st_preempted s) (st_blocks s) (st_num s) v
    (st_enc_inputs s) (st_enc_budget s) (st_spec s) (st_index s) (st_loras s).
Definition st_set_enc_inputs (v : list (string * list nat)) (s : StepState) : StepState :=
  mkStep (st_new s) (st_resumed s) (st_running s) (st_preempted s) (st_blocks s) (st_num s)
    (st_budget s) v (st_enc_budget s) (st_spec s) (st_index s) (st_loras s).
Definition st_set_enc_budget (v : Z) (s : StepState) : StepState :=
  mkStep (st_new s) (st_resumed s) (st_running s) (st_preempted s) (st_blocks s) (st_num s)
    (st_budget s) (st_enc_inputs s) v (st_spec s) (st_index s) (st_loras s).
Definition st_set_spec (v : list (string * list Z)) (s : StepState) : StepState :=
  mkStep (st_new s) (st_resumed s) (st_running s) (st_preempted s) (st_blocks s) (st_num s)
    (st_budget s) (st_enc_inputs s) (st_enc_budget s) v (st_index s) (st_loras s).
Definition st_set_index (v : Z) (s : StepState) : StepState :=
  mkStep (st_new s) (st_resumed s) (st_running s) (st_preempted s) (st_blocks s) (st_num s)
    (st_budget s) (st_enc_inputs s) (st_enc_budget s) (st_spec s) v (st_loras s).
Definition st_set_loras (v : gset Z) (s : StepState) : StepState :=
  mkStep (st_new s) (st_resumed s) (st_running s) (st_preempted s) (st_blocks s) (st_num s)
    (st_budget s) (st_enc_inputs s) (st_enc_budget s) (st_spec s) (st_index s) v.

(** ** Output *)
Record NewRequestData := mkNewData {
  nd_req_id : string;
  nd_prompt_token_ids : option (list Z);
  nd_mm_features : list MultiModalFeatureSpec;
  nd_sampling_params : option SamplingParams;
  nd_pooling_params : option PoolingParams;
  nd_block_ids : list (list Z);
  nd_num_computed_tokens : Z;
  nd_lora_request : option LoRARequest;
  nd_prompt_embeds : option PromptEmbeds;
  nd_prefill_token_ids : option (list Z);
}.

Definition new_data_from_request (r : Request) (block_ids : list (list Z))
    (prefill_token_ids : option (list Z)) : NewRequestData :=
  mkNewData (request_id r) (prompt_token_ids r) (mm_features r) (sampling_params (ext r))
    (pooling_params (ext r)) block_ids (num_computed_tokens r) (lora_request r) (prompt_embeds r)
    prefill_token_ids.

Record CachedRequestData := mkCachedData {
  cd_req_ids : list string;
  cd_resumed_req_ids : gset string;
  cd_new_token_ids : list (list Z);
  cd_all_token_ids : list (string * list Z);
  cd_new_block_ids : list (option (list (list Z)));
  cd_num_computed_tokens : list Z;
  cd_num_output_tokens : list Z;
}.

Definition cached_make_empty : CachedRequestData := mkCachedData [] ∅ [] [] [] [] [].

(** [is_context_phase]: a scheduled request without output tokens *)
Definition is_context_phase (cd : CachedRequestData) (req_id : string) : bool :=
  bool_decide (dict_get req_id (rev (zip (cd_req_ids cd) (cd_num_output_tokens cd))) = Some 0).

Record SchedulerOutput := mkOutput {
  so_scheduled_new_reqs : list NewRequestData;
  so_scheduled_cached_reqs : CachedRequestData;
  so_num_scheduled_tokens : list (string * Z);
  so_total_num_scheduled_tokens : Z;
  so_scheduled_spec_decode_tokens : list (string * list Z);
  so_scheduled_encoder_inputs : list (string * list nat);
  so_num_common_prefix_blocks : list Z;
  so_finished_req_ids : gset string;
  so_free_encoder_mm_hashes : list string;
  so_preempted_req_ids : gset string;
  so_has_structured_output_requests : bool;
  so_pending_structured_output_tokens : bool;
  so_num_invalid_spec_tokens : option (list (string * Z));
  so_new_block_ids_to_zero : option (list Z);
}.

(** ** Access *)
Abbreviation Sch := (M Scheduler).

(** The object behind a reference; a reference is never dangling in Python, so
    the error is only of the model (and does not occur). *)
Definition obj (i : Z) : Sch Request := s ← get; of_opt KeyError (sc_objs s !! i).

Definition set_obj (i : Z) (r : Request) : Sch () := modify (λ s, sc_set_objs (<[i := r]> (sc_objs s)) s).

(** [request.attr = ...] *)
Definition upd (i : Z) (f : Request → Request) : Sch () := r ← obj i; set_obj i (f r).

(** A method of the request *)
Definition on_request {A} (i : Z) (m : M Request A) : Sch A := λ s,
  match sc_objs s !! i with
  | None => (Raise KeyError, s)
  | Some r => let '(x, r') := m r in (x, sc_set_objs (<[i := r']> (sc_objs s)) s)
  end.

Definition on_kv {A} (op : M KVCacheManager A) : Sch A := zoom sc_kv sc_set_kv op.

Definition on_enc {A} (e : M EncoderCacheManager A) (d : M EncoderDecoderCacheManager A) : Sch A := λ s,
  match sc_enc s with
  | EncoderOnly c => let '(x, c') := e c in (x, sc_set_enc (EncoderOnly c') s)
  | EncoderDecoder c => let '(x, c') := d c in (x, sc_set_enc (EncoderDecoder c') s)
  end.

(** *** The encoder cache manager, of either class *)
Section encoder_ops.
Context (set_iter : gset nat → list nat).

Definition enc_check_and_update_cache (r : Request) (i : nat) : Sch bool :=
  on_enc (Encoder.check_and_update_cache r i) (EncDec.check_and_update_cache r i).
Definition enc_can_allocate (r : Request) (i : nat) (budget embeds : Z) : Sch bool :=
  on_enc (Encoder.can_allocate r i budget embeds) (EncDec.can_allocate r i budget embeds).
Definition enc_allocate (r : Request) (i : nat) : Sch () :=
  on_enc (Encoder.allocate r i) (EncDec.allocate r i).
Definition enc_free (r : Request) : Sch () :=
  on_enc (Encoder.free set_iter r) (EncDec.free r).
Definition enc_free_encoder_input (r : Request) (i : nat) : Sch () :=
  on_enc (Encoder.free_encoder_input r i) (EncDec.free_encoder_input r i).
Definition enc_get_cached_input_ids (r : Request) : Sch (gset nat) :=
  on_enc (gets (Encoder.get_cached_input_ids r)) (mret (EncDec.get_cached_input_ids r)).
Definition enc_get_freed_mm_hashes : Sch (list string) :=
  on_enc Encoder.get_freed_mm_hashes EncDec.get_freed_mm_hashes.
Definition enc_reset : Sch () := on_enc Encoder.reset EncDec.reset.
End encoder_ops.

(** *** The queues *)

(** [Request.__lt__] on the objects as they are now; references do not dangle,
    and the other cases only make it an order on all numbers. *)
Definition obj_lt (objs : gmap Z Request) (a b : Z) : bool :=
  match objs !! a, objs !! b with
  | Some x, Some y => request_lt x y
  | None, Some _ => true
  | _, None => false
  end.

(** [self.waiting] or [self.skipped_waiting] *)
Inductive queue_name := Waiting | Skipped.

Definition get_queue (w : queue_name) (s : Scheduler) : RequestQueue Z :=
  match w with Waiting => sc_waiting s | Skipped => sc_skipped_waiting s end.
Definition set_queue (w : queue_name) (q : RequestQueue Z) (s : Scheduler) : Scheduler :=
  match w with Waiting => sc_set_waiting q s | Skipped => sc_set_skipped_waiting q s end.

Definition q_add (w : queue_name) (i : Z) : Sch () :=
  s ← get;
  q ← of_res (Queue.add_request (obj_lt (sc_objs s)) (get_queue w s) i);
  modify (set_queue w q).
Definition q_prepend (w : queue_name) (i : Z) : Sch () :=
  s ← get;
  q ← of_res (Queue.prepend_request (obj_lt (sc_objs s)) (get_queue w s) i);
  modify (set_queue w q).
Definition q_pop (w : queue_name) : Sch Z :=
  s ← get;
  '(i, q) ← of_res (Queue.pop_request (obj_lt (sc_objs s)) (get_queue w s));
  _ ← modify (set_queue w q); mret i.
Definition q_remove_all (w : queue_name) (l : list Z) : Sch () :=
  s ← get;
  q ← of_res (Queue.remove_requests (obj_lt (sc_objs s)) Z.eqb (get_queue w s) l);
  modify (set_queue w q).
