(* ===== verification/Schedule.v ===== *)
(** * One scheduling step

    [Scheduler.schedule] of [vllm/v1/core/sched/scheduler.py] and what it calls:
    running requests first, preempting when blocks run out, then waiting requests;
    and the override of [AsyncScheduler].  Time stamps, events and statistics are
    left out; no encoder-cache connector is configured. *)
From S2P Require Import Prelude FreeQueue Request BlockHash BlockPool.
From S2P Require Import KVSpec Coordinator KVCacheManager EncoderCache RequestQueue SchedState.

(** ** [get_mm_features_in_window] ([vllm/multimodal/utils.py]) *)

(** [bisect.bisect_left(a, x, key=key)] *)
Fixpoint bisect_left_loop {A} (fuel : nat) (key : A → Z) (a : list A) (x : Z) (lo hi : nat) : res nat :=
  match fuel with
  | O => Raise OutOfFuel
  | S fuel' =>
      if (lo <? hi)%nat
      then
        let mid := ((lo + hi) / 2)%nat in
        match a !! mid with
        | None => Raise IndexError
        | Some y => if key y <? x then bisect_left_loop fuel' key a x (S mid) hi
                    else bisect_left_loop fuel' key a x lo mid
        end
      else Ok lo
  end.

Definition bisect_left {A} (key : A → Z) (a : list A) (x : Z) : res nat :=
  bisect_left_loop (S (length a)) key a x 0 (length a).

Definition get_mm_features_in_window (mm_features : list MultiModalFeatureSpec) (start end_ : Z)
    : res (nat * nat) :=
  lo ← bisect_left (λ f, offset (mm_position f) + pr_length (mm_position f)) mm_features (start + 1);
  hi ← bisect_left (λ f, offset (mm_position f)) mm_features end_;
  Ok (lo, hi).

Module Sched.
Section schedule.
Context (cf : Config) (conn : option Connector) (gr : GrammarOps) (hasher : option block_hasher).
Context (set_iter : gset nat → list nat).

(** ** Splitting for Mamba *)
Definition _mamba_block_aligned_split (request : Request)
    (num_new_tokens num_new_local_computed_tokens num_external_computed_tokens : Z) : Z :=
  let num_computed_tokens :=
    num_computed_tokens request + num_new_local_computed_tokens + num_external_computed_tokens in
  if num_computed_tokens <? Z.max (num_prompt_tokens request) (num_tokens request - 1)
  then
    let block_size := cf_cache_block_size cf in
    let last_cache_position := num_tokens request - num_tokens request mod block_size in
    let last_cache_position :=
      if use_eagle cf then Z.max (last_cache_position - block_size) 0 else last_cache_position in
    let num_computed_tokens_after_sched := num_computed_tokens + num_new_tokens in
    if num_computed_tokens_after_sched <? last_cache_position
    then num_new_tokens / block_size * block_size
    else if (num_computed_tokens <? last_cache_position)
            && (last_cache_position <? num_computed_tokens_after_sched)
    then last_cache_position - num_computed_tokens
    else num_new_tokens
  else num_new_tokens.

(** ** Encoder inputs *)

(** The [for] loop over the inputs in the window; [hashes] and [embeds] are the
    trackers of this request, [acc] the inputs to schedule. *)
Fixpoint encoder_loop (idxs : list nat) (request : Request) (num_computed_tokens shift : Z)
    (num_new_tokens budget embeds : Z) (hashes : gset string) (acc : list nat)
    : Sch (list nat * Z * Z) :=
  match idxs with
  | [] => mret (acc, num_new_tokens, budget)
  | i :: rest =>
      f ← of_opt IndexError (mm_features request !! i);
      let start_pos := offset (mm_position f) in
      let num_encoder_tokens := pr_length (mm_position f) in
      let num_encoder_embeds := get_num_embeds (mm_position f) in
      let continue :=
        encoder_loop rest request num_computed_tokens shift num_new_tokens budget embeds hashes acc in
      if cf_is_encoder_decoder cf && (0 <? num_computed_tokens)
      then _ ← massert (start_pos =? 0); continue
      else
        present ← (if cf_is_encoder_decoder cf then mret false
                   else if bool_decide (identifier f ∈ hashes) then mret true
                   else enc_check_and_update_cache request i);
        if (present : bool) then continue
        else if cf_disable_chunked_mm_input cf && (num_computed_tokens <? start_pos)
                && (num_computed_tokens + num_new_tokens <? start_pos + num_encoder_tokens)
        then mret (acc, Z.max 0 (start_pos - (num_computed_tokens + shift)), budget)
        else
          fits ← enc_can_allocate request i budget embeds;
          if negb fits
          then mret (acc, (if num_computed_tokens + shift <? start_pos
                           then start_pos - (num_computed_tokens + shift) else 0), budget)
          else
            let start_idx_rel := Z.max 0 (num_computed_tokens - start_pos) in
            let end_idx_rel := Z.min num_encoder_tokens (num_computed_tokens + num_new_tokens - start_pos) in
            '(curr_start, curr_end) ←
              of_res (get_embeds_indices_in_range (mm_position f) start_idx_rel end_idx_rel);
            if curr_end - curr_start =? 0 then continue
            else
              encoder_loop rest request num_computed_tokens shift num_new_tokens
                (budget - num_encoder_embeds) (embeds + num_encoder_embeds)
                ({[ identifier f ]} ∪ hashes) (acc ++ [i])
  end.

(** The inputs to schedule, the number of tokens that remain possible, and the
    compute budget left. *)
Definition _try_schedule_encoder_inputs (request : Request)
    (num_computed_tokens num_new_tokens encoder_compute_budget shift_computed_tokens : Z)
    : Sch (list nat * Z * Z) :=
  if (num_new_tokens =? 0) || negb (has_encoder_inputs request)
  then mret ([], num_new_tokens, encoder_compute_budget)
  else
    '(lo, hi) ← of_res (get_mm_features_in_window (mm_features request) num_computed_tokens
                          (num_computed_tokens + num_new_tokens + shift_computed_tokens));
    let lo := if cf_is_encoder_decoder cf then 0%nat else lo in
    encoder_loop (seq lo (hi - lo)) request num_computed_tokens shift_computed_tokens
      num_new_tokens encoder_compute_budget 0 ∅ [].

(** [shift_computed_tokens=1 if self.use_eagle else 0], when there are inputs *)
Definition encoder_inputs (request : Request) (num_computed_tokens num_new_tokens budget : Z)
    : Sch (list nat * Z * Z) :=
  if has_encoder_inputs request
  then _try_schedule_encoder_inputs request num_computed_tokens num_new_tokens budget
         (if use_eagle cf then 1 else 0)
  else mret ([], num_new_tokens, budget).

(** [for i in inputs: self.encoder_cache_manager.allocate(request, i)] *)
Definition allocate_encoder_inputs (i : Z) (inputs : list nat) (new_budget : Z) (st : StepState)
    : Sch StepState :=
  match inputs with
  | [] => mret st
  | _ =>
      r ← obj i;
      _ ← for_each inputs (enc_allocate r);
      mret (st_set_enc_budget new_budget
              (st_set_enc_inputs (dict_set (request_id r) inputs (st_enc_inputs st)) st))
  end.

(** ** Blocks *)

(** [self.kv_cache_manager.allocate_slots(request, ...)] *)
Definition allocate_slots (i : Z) (num_new_tokens num_new_computed_tokens : Z)
    (new_computed_blocks : option KVCacheBlocks) (lookahead ext : Z) (delay : bool)
    (num_encoder_tokens : Z) (full_sequence_must_fit : bool) (reserved_blocks : Z)
    : Sch (option KVCacheBlocks) :=
  r ← obj i;
  '(o, r') ← on_kv (KVManager.allocate_slots r num_new_tokens num_new_computed_tokens new_computed_blocks
                      lookahead ext delay num_encoder_tokens full_sequence_must_fit reserved_blocks);
  _ ← set_obj i r'; mret o.

(** ** Preemption *)
Definition _preempt_request (i : Z) : Sch () :=
  r ← obj i;
  _ ← massert (bool_decide (status r = RUNNING));
  _ ← on_kv (KVManager.free r);
  _ ← enc_free set_iter r;
  _ ← modify (λ s, sc_set_inflight_prefills (sc_inflight_prefills s ∖ {[ i ]}) s);
  _ ← upd i (set_status PREEMPTED);
  _ ← upd i (set_num_computed_tokens 0);
  _ ← upd i (set_spec_token_ids []);
  _ ← upd i (λ r, set_num_preemptions (num_preemptions r + 1) r);
  q_prepend Waiting i.

(** [max(l, key=...)]: the first of the greatest elements. *)
Fixpoint max_by (gt : Z → Z → bool) (best : Z) (l : list Z) : Z :=
  match l with
  | [] => best
  | x :: l' => max_by gt (if gt x best then x else best) l'
  end.

(** [(r.priority, r.arrival_time)] of the one is greater. *)
Definition victim_gt (objs : gmap Z Request) (a b : Z) : bool :=
  match objs !! a, objs !! b with
  | Some x, Some y =>
      (priority y <? priority x) || ((priority y =? priority x) && (arrival_time y <? arrival_time x))
  | _, _ => false
  end.

(** What a scheduled request had been given in this step is given back. *)
Definition unschedule (p : Z) (st : StepState) : Sch StepState :=
  r ← obj p;
  let rid := request_id r in
  l ← of_res (list_remove Z.eqb p (st_running st));
  n ← of_opt KeyError (dict_get rid (st_num st));
  _ ← of_opt KeyError (dict_get rid (st_blocks st));
  embeds ← mapM_ (λ i, of_res (get_num_encoder_embeds r i)) (default [] (dict_get rid (st_enc_inputs st)));
  mret (mkStep (st_new st) (st_resumed st) l (st_preempted st)
          (dict_del rid (st_blocks st)) (dict_del rid (st_num st)) (st_budget st + n)
          (dict_del rid (st_enc_inputs st)) (st_enc_budget st + foldr Z.add 0 embeds)
          (dict_del rid (st_spec st)) (st_index st - 1) (st_loras st)).

(** The request to preempt, taken from the running list. *)
Definition take_victim (st : StepState) : Sch (Z * StepState) :=
  s ← get;
  match cf_policy cf with
  | PRIORITY =>
      p ← of_opt ValueError (match sc_running s with
                             | [] => None
                             | x :: l => Some (max_by (victim_gt (sc_objs s)) x l)
                             end);
      running' ← of_res (list_remove Z.eqb p (sc_running s));
      _ ← modify (sc_set_running running');
      st' ← (if bool_decide (p ∈ st_running st) then unschedule p st else mret st);
      mret (p, st')
  | FCFS =>
      p ← of_opt IndexError (last (sc_running s));
      _ ← modify (sc_set_running (take (length (sc_running s) - 1) (sc_running s)));
      mret (p, st)
  end.

(** [while True: ...]: every turn but the last takes a request from the running
    list, so its length is enough fuel. *)
Fixpoint allocate_or_preempt (fuel : nat) (i num_new_tokens : Z) (st : StepState)
    : Sch (option KVCacheBlocks * StepState) :=
  match fuel with
  | O => raise OutOfFuel
  | S fuel' =>
      new_blocks ← allocate_slots i num_new_tokens 0 None (num_lookahead_tokens cf) 0 false 0 false 0;
      match new_blocks with
      | Some b => mret (Some b, st)
      | None =>
          '(p, st) ← take_victim st;
          _ ← _preempt_request p;
          let st := st_set_preempted (st_preempted st ++ [p]) st in
          if p =? i then mret (None, st) else allocate_or_preempt fuel' i num_new_tokens st
      end
  end.

(** ** Running requests *)

(** The request is not scheduled in this step: its last tokens are in flight, or
    its turn among the pipeline stages has not come. *)
Definition skip_running (current_step : Z) (r : Request) : bool :=
  ((0 <? num_output_placeholders r)
   && (num_prompt_tokens r + max_tokens r <=? num_computed_tokens r + 2 - num_output_placeholders r))
  || (current_step <? next_decode_eligible_step (ext r)).

Definition running_num_new_tokens (r : Request) (token_budget : Z) : Z :=
  let n := num_tokens_with_spec r + num_output_placeholders r - num_computed_tokens r in
  let t := cf_long_prefill_token_threshold cf in
  let n := if (0 <? t) && (t <? n) then t else n in
  let n := Z.min n token_budget in
  Z.min n (cf_max_model_len cf - 1 - num_computed_tokens r).

Definition next_index (st : StepState) : StepState := st_set_index (st_index st + 1) st.

(** The draft tokens that are scheduled. *)
Definition schedule_spec_tokens (i num_new_tokens : Z) (st : StepState) : Sch StepState :=
  r ← obj i;
  match spec_token_ids r with
  | [] => mret st
  | spec =>
      let k := num_new_tokens + num_computed_tokens r - num_tokens r - num_output_placeholders r in
      let st' :=
        if 0 <? k
        then st_set_spec (dict_set (request_id r) (if k <? len spec then take (Z.to_nat k) spec else spec)
                            (st_spec st)) st
        else st in
      _ ← upd i (set_spec_token_ids []); mret st'
  end.

Definition commit_running (i num_new_tokens : Z) (new_blocks : KVCacheBlocks) (inputs : list nat)
    (new_encoder_budget : Z) (st : StepState) : Sch StepState :=
  r ← obj i;
  let rid := request_id r in
  let st := mkStep (st_new st) (st_resumed st) (st_running st ++ [i]) (st_preempted st)
              (dict_set rid new_blocks (st_blocks st)) (dict_set rid num_new_tokens (st_num st))
              (st_budget st - num_new_tokens) (st_enc_inputs st) (st_enc_budget st) (st_spec st)
              (st_index st + 1) (st_loras st) in
  st ← schedule_spec_tokens i num_new_tokens st;
  allocate_encoder_inputs i inputs new_encoder_budget st.

(** One turn; [false]: [break]. *)
Definition schedule_running_request (i : Z) (st : StepState) : Sch (bool * StepState) :=
  s ← get;
  r ← obj i;
  if skip_running (sc_current_step s) r then mret (true, next_index st)
  else
    '(inputs, num_new_tokens, new_encoder_budget) ←
      encoder_inputs r (num_computed_tokens r) (running_num_new_tokens r (st_budget st)) (st_enc_budget st);
    let num_new_tokens :=
      if cf_mamba_align cf then _mamba_block_aligned_split r num_new_tokens 0 0 else num_new_tokens in
    if num_new_tokens =? 0 then mret (true, next_index st)
    else
      '(new_blocks, st) ← allocate_or_preempt (S (length (sc_running s))) i num_new_tokens st;
      match new_blocks with
      | None => mret (false, st)
      | Some b => st ← commit_running i num_new_tokens b inputs new_encoder_budget st; mret (true, st)
      end.

(** [while req_index < len(self.running) and token_budget > 0] *)
Fixpoint running_loop (fuel : nat) (st : StepState) : Sch StepState :=
  match fuel with
  | O => raise OutOfFuel
  | S fuel' =>
      s ← get;
      if (st_index st <? len (sc_running s)) && (0 <? st_budget st)
      then
        i ← of_opt IndexError (py_get (sc_running s) (st_index st));
        '(continue, st) ← schedule_running_request i st;
        if (continue : bool) then running_loop fuel' st else mret st
      else mret st
  end.

(** The LoRAs of the scheduled running requests *)
Definition record_loras (st : StepState) : Sch StepState :=
  match cf_lora cf with
  | None => mret st
  | Some max_loras =>
      ids ← mapM_ (λ i, r ← obj i; mret (adapter_id <$> lora_request r)) (st_running st);
      let loras : gset Z := list_to_set (filter (λ l, 0 < l) (omap id ids)) in
      _ ← massert (Z.of_nat (size loras) <=? max_loras);
      mret (st_set_loras loras st)
  end.

(** ** Waiting requests *)
Definition _is_blocked_waiting_status (s : RequestStatus) : bool :=
  bool_decide (s = WAITING_FOR_STRUCTURED_OUTPUT_GRAMMAR) || bool_decide (s = WAITING_FOR_REMOTE_KVS)
  || bool_decide (s = WAITING_FOR_STREAMING_REQ).

Definition _select_waiting_queue_for_scheduling : Sch (option queue_name) :=
  s ← get;
  let w := Queue.to_bool (sc_waiting s) in
  let k := Queue.to_bool (sc_skipped_waiting s) in
  match cf_policy cf with
  | FCFS => mret (if k then Some Skipped else if w then Some Waiting else None)
  | PRIORITY =>
      if w && k
      then
        waiting_req ← of_res (Queue.peek_request (sc_waiting s));
        skipped_req ← of_res (Queue.peek_request (sc_skipped_waiting s));
        mret (Some (if obj_lt (sc_objs s) waiting_req skipped_req then Waiting else Skipped))
      else mret (if w then Some Waiting else if k then Some Skipped else None)
  end.

Definition _update_waiting_for_remote_kv (i : Z) : Sch () :=
  _ ← massert (match conn with Some _ => true | None => false end);
  s ← get;
  r ← obj i;
  let rid := request_id r in
  _ ← (if bool_decide (rid ∈ sc_failed_recving s)
       then
         _ ← (if negb (num_computed_tokens r =? 0)
              then r' ← on_kv (KVManager.cache_blocks r (num_computed_tokens r)); set_obj i r'
              else on_kv (KVManager.free r));
         modify (λ s, sc_set_failed_recving (sc_failed_recving s ∖ {[ rid ]}) s)
       else
         r' ← on_kv (KVManager.cache_blocks r (num_computed_tokens r));
         _ ← set_obj i r';
         if num_computed_tokens r =? num_tokens r
         then upd i (λ r, set_num_computed_tokens (num_tokens r - 1) r)
         else mret tt);
  s ← get;
  _ ← of_opt KeyError (if bool_decide (rid ∈ sc_finished_recving s) then Some tt else None);
  modify (λ s, sc_set_finished_recving (sc_finished_recving s ∖ {[ rid ]}) s).

Definition _try_promote_blocked_waiting_request (i : Z) : Sch bool :=
  s ← get;
  r ← obj i;
  match status r with
  | WAITING_FOR_REMOTE_KVS =>
      if bool_decide (request_id r ∈ sc_finished_recving s)
      then
        _ ← _update_waiting_for_remote_kv i;
        _ ← upd i (λ r, set_status (if negb (num_preemptions r =? 0) then PREEMPTED else WAITING) r);
        mret true
      else mret false
  | WAITING_FOR_STRUCTURED_OUTPUT_GRAMMAR =>
      if use_structured_output r && gr_ready gr (sc_current_step s) r
      then _ ← upd i (set_status WAITING); mret true
      else mret false
  | WAITING_FOR_STREAMING_REQ =>
      _ ← massert (match streaming_queue (ext r) with Some (_ :: _) => false | _ => true end);
      mret false
  | _ => raise AssertionError
  end.

(** [request_queue.pop_request(); step_skipped_waiting.prepend_request(request)] *)
Definition skip_waiting (w : queue_name) (i : Z) (skipped : RequestQueue Z) : Sch (RequestQueue Z) :=
  _ ← q_pop w;
  s ← get;
  of_res (Queue.prepend_request (obj_lt (sc_objs s)) skipped i).

(** Scheduling the request would exceed the number of LoRAs. *)
Definition exceeds_loras (r : Request) (loras : gset Z) : bool :=
  match cf_lora cf, lora_request r with
  | Some max_loras, Some l =>
      (Z.of_nat (size loras) =? max_loras) && bool_decide (adapter_id l ∉ loras)
  | _, _ => false
  end.

(** What is already computed of a waiting request: the blocks found, the local and
    the external tokens, all computed tokens, and whether they are loaded
    asynchronously; [None]: the connector cannot tell yet. *)
Record Computed := mkComputed {
  cp_blocks : KVCacheBlocks; cp_local : Z; cp_external : Z; cp_total : Z; cp_async : bool
}.

Definition find_computed (i : Z) : Sch (option Computed) :=
  s ← get;
  r ← obj i;
  if num_computed_tokens r =? 0
  then
    '(new_computed_blocks, local) ← on_kv (KVManager.get_computed_blocks r);
    let '(external, load_kv_async) :=
      match conn with
      | None => (Some 0, false)
      | Some c => cn_get_num_new_matched_tokens c (sc_current_step s) r local
      end in
    match external with
    | None => mret None
    | Some external =>
        let total := local + external in
        _ ← massert (total <=? num_tokens r);
        _ ← match prefill_stats (ext r) with
            | None => mret tt
            | Some _ =>
                _ ← massert (total <=? num_prompt_tokens r);
                upd i (set_prefill_stats (Some (mkPrefillStats (num_prompt_tokens r) local external)))
            end;
        mret (Some (mkComputed new_computed_blocks local external total load_kv_async))
    end
  else
    k ← gets sc_kv;
    mret (Some (mkComputed (EmptyBlocks (KVManager.num_kv_cache_groups k)) 0 0 (num_computed_tokens r) false)).

Definition _request_remaining_blocks (i : Z) : Sch Z :=
  r ← obj i;
  k ← gets sc_kv;
  let full_num_tokens := Z.min (num_tokens r) (cf_max_model_len cf) in
  on_kv (on_coord (Coord.get_num_blocks_to_allocate (request_id r) full_num_tokens
                     (kb_blocks (EmptyBlocks (KVManager.num_kv_cache_groups k))) 0 (num_computed_tokens r)
                     full_num_tokens true)).

Definition _inflight_prefill_reserved_blocks : Sch Z :=
  s ← get;
  ns ← mapM_ _request_remaining_blocks (elements (sc_inflight_prefills s));
  mret (foldr Z.add 0 ns).

(** The number of tokens to schedule of a waiting request; [None]: [break]. *)
Definition waiting_num_new_tokens (r : Request) (cp : Computed) (st : StepState)
    : Sch (option (list nat * Z * Z)) :=
  if cp_async cp
  then _ ← massert (0 <? cp_external cp); mret (Some ([], 0, st_enc_budget st))
  else
    let n := num_tokens r - cp_total cp in
    let t := cf_long_prefill_token_threshold cf in
    let n := if (0 <? t) && (t <? n) then t else n in
    if negb (cf_enable_chunked_prefill cf) && (st_budget st <? n) then mret None
    else
      let n := Z.min n (st_budget st) in
      _ ← massert (0 <? n);
      '(inputs, n, new_encoder_budget) ← encoder_inputs r (cp_total cp) n (st_enc_budget st);
      if has_encoder_inputs r && (n =? 0) then mret None
      else
        let n := if cf_mamba_align cf
                 then _mamba_block_aligned_split r n (cp_local cp) (cp_external cp) else n in
        if cf_mamba_align cf && (n =? 0) then mret None
        else mret (Some (inputs, n, new_encoder_budget)).

(** The request enters the running list. *)
Definition enter_running (i : Z) (cp : Computed) (num_new_tokens : Z) (inputs : list nat)
    (new_encoder_budget : Z) (st : StepState) : Sch StepState :=
  r ← obj i;
  let rid := request_id r in
  _ ← modify (λ s, sc_set_running (sc_running s ++ [i]) s);
  st ← match status r with
       | WAITING => mret (st_set_new (st_new st ++ [i]) st)
       | PREEMPTED => mret (st_set_resumed (st_resumed st ++ [i]) st)
       | _ => raise RuntimeError
       end;
  let st := match cf_lora cf, lora_request r with
            | Some _, Some l => st_set_loras ({[ adapter_id l ]} ∪ st_loras st) st
            | _, _ => st
            end in
  k ← gets sc_kv;
  let st := st_set_blocks (dict_set rid (KVManager.get_blocks k rid) (st_blocks st)) st in
  let st := st_set_num (dict_set rid num_new_tokens (st_num st)) st in
  let st := st_set_budget (st_budget st - num_new_tokens) st in
  _ ← upd i (set_status RUNNING);
  _ ← upd i (set_num_computed_tokens (cp_total cp));
  _ ← (if cp_total cp + num_new_tokens <? num_tokens r
       then modify (λ s, sc_set_inflight_prefills ({[ i ]} ∪ sc_inflight_prefills s) s) else mret tt);
  allocate_encoder_inputs i inputs new_encoder_budget st.

(** The request waits for its KV cache to be loaded. *)
Definition wait_for_remote_kvs (i : Z) (cp : Computed) (skipped : RequestQueue Z) : Sch (RequestQueue Z) :=
  _ ← upd i (set_status WAITING_FOR_REMOTE_KVS);
  s ← get;
  skipped' ← of_res (Queue.prepend_request (obj_lt (sc_objs s)) skipped i);
  _ ← upd i (set_num_computed_tokens (cp_total cp));
  _ ← modify (λ s, sc_set_inflight_prefills ({[ i ]} ∪ sc_inflight_prefills s) s);
  mret skipped'.

(** [sum(request.get_num_encoder_embeds(i) for i in ...)], for cross-attention blocks *)
Definition encoder_tokens (r : Request) (inputs : list nat) : Sch Z :=
  if cf_is_encoder_decoder cf && has_encoder_inputs r
  then ns ← mapM_ (λ i, of_res (get_num_encoder_embeds r i)) inputs; mret (foldr Z.add 0 ns)
  else mret 0.

(** The request may be scheduled: blocks are allocated; [false]: [break]. *)
Definition schedule_unblocked (w : queue_name) (i : Z) (cp : Computed) (st : StepState)
    (skipped : RequestQueue Z) : Sch (bool * StepState * RequestQueue Z) :=
  r ← obj i;
  o ← waiting_num_new_tokens r cp st;
  match o with
  | None => mret (false, st, skipped)
  | Some (inputs, num_new_tokens, new_encoder_budget) =>
      num_encoder_tokens ← encoder_tokens r inputs;
      reserved_blocks ← (if cp_async cp then _inflight_prefill_reserved_blocks else mret 0);
      let lookahead := if cp_async cp && use_eagle cf then 0 else num_lookahead_tokens cf in
      new_blocks ← allocate_slots i num_new_tokens (cp_local cp) (Some (cp_blocks cp)) lookahead
                     (cp_external cp) (cp_async cp) num_encoder_tokens (cf_reserve_full_isl cf)
                     reserved_blocks;
      match new_blocks with
      | None =>
          _ ← (if has_encoder_inputs r then enc_free set_iter r else mret tt);
          mret (false, st, skipped)
      | Some _ =>
          i' ← q_pop w;
          if cp_async cp
          then skipped' ← wait_for_remote_kvs i' cp skipped; mret (true, st, skipped')
          else st' ← enter_running i' cp num_new_tokens inputs new_encoder_budget st; mret (true, st', skipped)
      end
  end.

Definition schedule_waiting_request (w : queue_name) (i : Z) (st : StepState) (skipped : RequestQueue Z)
    : Sch (bool * StepState * RequestQueue Z) :=
  r ← obj i;
  schedulable ← (if _is_blocked_waiting_status (status r)
                 then _try_promote_blocked_waiting_request i else mret true);
  r ← obj i;
  if negb schedulable || exceeds_loras r (st_loras st)
  then skipped' ← skip_waiting w i skipped; mret (true, st, skipped')
  else
    o ← find_computed i;
    match o with
    | None => skipped' ← skip_waiting w i skipped; mret (true, st, skipped')
    | Some cp => schedule_unblocked w i cp st skipped
    end.

(** [while (self.waiting or self.skipped_waiting) and token_budget > 0]: every turn
    but the last takes a request from a queue. *)
Fixpoint waiting_loop (fuel : nat) (st : StepState) (skipped : RequestQueue Z)
    : Sch (StepState * RequestQueue Z) :=
  match fuel with
  | O => raise OutOfFuel
  | S fuel' =>
      s ← get;
      if (Queue.to_bool (sc_waiting s) || Queue.to_bool (sc_skipped_waiting s)) && (0 <? st_budget st)
         && negb (len (sc_running s) =? cf_max_num_seqs cf)
      then
        o ← _select_waiting_queue_for_scheduling;
        w ← of_opt AssertionError o;
        i ← of_res (Queue.peek_request (get_queue w s));
        '(continue, st, skipped) ← schedule_waiting_request w i st skipped;
        if (continue : bool) then waiting_loop fuel' st skipped else mret (st, skipped)
      else mret (st, skipped)
  end.

Definition schedule_waiting (st : StepState) : Sch StepState :=
  s ← get;
  if bool_decide (st_preempted st = []) && bool_decide (sc_pause_state s = UNPAUSED)
  then
    let fuel := S (length (Queue.items (sc_waiting s)) + length (Queue.items (sc_skipped_waiting s))) in
    '(st, skipped) ← waiting_loop fuel st (Queue.create_request_queue (cf_policy cf));
    s ← get;
    _ ← (if Queue.to_bool skipped
         then q ← of_res (Queue.prepend_requests (obj_lt (sc_objs s)) (sc_skipped_waiting s) skipped);
              modify (sc_set_skipped_waiting q)
         else mret tt);
    mret st
  else mret st.

(** ** The output *)

(** One entry of [_make_cached_request_data]. *)
Definition cached_entry (resumed : bool) (st : StepState) (cd : CachedRequestData) (i : Z)
    : Sch CachedRequestData :=
  s ← get;
  r ← obj i;
  let req_id := request_id r in
  new_token_ids ← (if use_pp cf && negb (cf_async_scheduling cf)
                   then n ← of_opt KeyError (dict_get req_id (st_num st));
                        let num_tokens := n - len (default [] (dict_get req_id (st_spec st))) in
                        mret [py_slice (all_token_ids r) (num_computed_tokens r)
                                (num_computed_tokens r + num_tokens)]
                   else mret []);
  let scheduled_in_prev_step := bool_decide (req_id ∈ sc_prev_step_scheduled_req_ids s) in
  _ ← massert (negb (resumed && scheduled_in_prev_step));
  blocks ← of_opt KeyError (dict_get req_id (st_blocks st));
  let heap := pool_heap (c_pool (km_coord (sc_kv s))) in
  mret (mkCachedData (cd_req_ids cd ++ [req_id])
          (if resumed then {[ req_id ]} ∪ cd_resumed_req_ids cd else cd_resumed_req_ids cd)
          (cd_new_token_ids cd ++ new_token_ids)
          (if scheduled_in_prev_step then cd_all_token_ids cd
           else dict_set req_id (all_token_ids r) (cd_all_token_ids cd))
          (cd_new_block_ids cd ++ [kb_get_block_ids heap blocks true])
          (cd_num_computed_tokens cd ++ [num_computed_tokens r])
          (cd_num_output_tokens cd ++ [num_output_tokens r + num_output_placeholders r])).

Fixpoint cached_entries (resumed : bool) (st : StepState) (cd : CachedRequestData) (l : list Z)
    : Sch CachedRequestData :=
  match l with
  | [] => mret cd
  | i :: l' => cd ← cached_entry resumed st cd i; cached_entries resumed st cd l'
  end.

Definition _make_cached_request_data (st : StepState) (running_reqs resumed_reqs : list Z)
    : Sch CachedRequestData :=
  cd ← cached_entries false st cached_make_empty running_reqs;
  cached_entries true st cd resumed_reqs.

Definition new_entry (st : StepState) (i : Z) : Sch NewRequestData :=
  s ← get;
  r ← obj i;
  blocks ← of_opt KeyError (dict_get (request_id r) (st_blocks st));
  let heap := pool_heap (c_pool (km_coord (sc_kv s))) in
  mret (new_data_from_request r (default [] (kb_get_block_ids heap blocks false))
          (if cf_use_v2_model_runner cf then Some (all_token_ids r) else None)).

(** *** [_update_after_schedule] *)
Definition advance_request (flag : bool) (kv : string * Z) : Sch bool :=
  s ← get;
  i ← of_opt KeyError (dict_get (fst kv) (sc_requests s));
  _ ← upd i (λ r, set_num_computed_tokens (num_computed_tokens r + snd kv) r);
  _ ← upd i (λ r, set_is_prefill_chunk (num_computed_tokens r <? num_tokens r + num_output_placeholders r) r);
  r ← obj i;
  _ ← (if negb (is_prefill_chunk r)
       then modify (λ s, sc_set_inflight_prefills (sc_inflight_prefills s ∖ {[ i ]}) s) else mret tt);
  mret (flag || (use_structured_output r && negb (is_prefill_chunk r))).

Fixpoint fold_items (f : bool → string * Z → Sch bool) (flag : bool) (l : list (string * Z)) : Sch bool :=
  match l with
  | [] => mret flag
  | kv :: l' => flag' ← f flag kv; fold_items f flag' l'
  end.

(** The base class; returns [has_structured_output_requests]. *)
Definition base_update_after_schedule (num_scheduled_tokens : list (string * Z)) : Sch bool :=
  flag ← fold_items advance_request false num_scheduled_tokens;
  _ ← modify (sc_set_finished_req_ids ∅);
  mret flag.

(** The override of [AsyncScheduler]: placeholders for the tokens in flight. *)
Definition async_request (spec : list (string * list Z)) (flag : bool) (kv : string * Z) : Sch bool :=
  s ← get;
  i ← of_opt KeyError (dict_get (fst kv) (sc_requests s));
  r ← obj i;
  if is_prefill_chunk r then mret flag
  else
    let flag' := flag || (use_structured_output r && (0 <? num_output_placeholders r)) in
    let cur_num_spec_tokens := len (default [] (dict_get (fst kv) spec)) in
    _ ← upd i (λ r, set_num_output_placeholders (num_output_placeholders r + (1 + cur_num_spec_tokens)) r);
    _ ← upd i (set_spec_token_ids (replicate (Z.to_nat (num_spec_tokens cf)) (-1)));
    _ ← (if cf_use_v2_model_runner cf
         then upd i (set_next_decode_eligible_step (sc_current_step s + cf_pp_size cf)) else mret tt);
    mret flag'.

(** Returns [has_structured_output_requests] and [pending_structured_output_tokens]. *)
Definition _update_after_schedule (num_scheduled_tokens : list (string * Z)) (spec : list (string * list Z))
    : Sch (bool * bool) :=
  has ← base_update_after_schedule num_scheduled_tokens;
  if cf_async_scheduling cf
  then pending ← fold_items (async_request spec) false num_scheduled_tokens; mret (has, pending)
  else mret (has, false).

Definition sum_values (d : list (string * Z)) : Z := foldr (λ kv acc, snd kv + acc) 0 d.

(** The request ids of objects *)
Definition ids_of (l : list Z) : Sch (list string) := mapM_ (λ i, r ← obj i; mret (request_id r)) l.

(** The checks after the loops, and the output. *)
Definition finish_schedule (st : StepState) : Sch SchedulerOutput :=
  s ← get;
  let total_num_scheduled_tokens := sum_values (st_num st) in
  _ ← massert (total_num_scheduled_tokens <=? max_num_scheduled_tokens cf);
  _ ← massert (0 <=? st_budget st);
  _ ← massert (len (sc_running s) <=? cf_max_num_seqs cf);
  _ ← massert (len (st_new st) + len (st_resumed st) + len (st_running st) <=? len (sc_running s));
  num_common_prefix_blocks ←
    match sc_running s with
    | [] => mret (replicate (KVManager.num_kv_cache_groups (sc_kv s)) 0)
    | i :: _ => r ← obj i; on_kv (KVManager.get_num_common_prefix_blocks (request_id r))
    end;
  let '(new_reqs, resumed_reqs) :=
    if cf_use_v2_model_runner cf then (st_new st ++ st_resumed st, []) else (st_new st, st_resumed st) in
  new_reqs_data ← mapM_ (new_entry st) new_reqs;
  cached_reqs_data ← _make_cached_request_data st (st_running st) resumed_reqs;
  _ ← modify (sc_set_prev_step_scheduled_req_ids (list_to_set (fst <$> st_num st)));
  new_block_ids_to_zero ←
    (if cf_needs_kv_cache_zeroing cf
     then l ← on_kv KVManager.take_new_block_ids; mret (match l with [] => None | _ => Some l end)
     else mret None);
  preempted_req_ids ← ids_of (st_preempted st);
  free_encoder_mm_hashes ← enc_get_freed_mm_hashes;
  '(has, pending) ← _update_after_schedule (st_num st) (st_spec st);
  mret (mkOutput new_reqs_data cached_reqs_data (st_num st) total_num_scheduled_tokens (st_spec st)
          (st_enc_inputs st) num_common_prefix_blocks (sc_finished_req_ids s) free_encoder_mm_hashes
          (list_to_set preempted_req_ids) has pending None new_block_ids_to_zero).

Definition initial_step (s : Scheduler) : StepState :=
  mkStep [] [] [] [] [] []
    (if bool_decide (sc_pause_state s = PAUSED_ALL) then 0 else max_num_scheduled_tokens cf)
    [] (max_num_encoder_input_tokens cf) [] 0 ∅.

Definition schedule : Sch SchedulerOutput :=
  _ ← modify (λ s, sc_set_current_step (sc_current_step s + 1) s);
  s ← get;
  _ ← on_kv KVManager.new_step_starts;
  st ← running_loop (S (length (sc_running s))) (initial_step s);
  st ← record_loras st;
  st ← schedule_waiting st;
  finish_schedule st.

End schedule.
End Sched.
