(* ===== verification/SchedUpdate.v ===== *)
(** * What happens between two steps

    The rest of [Scheduler] ([vllm/v1/core/sched/scheduler.py]) and of
    [AsyncScheduler]: taking in the output of the model, stopping, streaming
    sessions, adding and aborting requests, resets, and failed KV loads.  Routed
    experts, log-probabilities and statistics are left out. *)
From S2P Require Import Prelude FreeQueue Request BlockHash BlockPool KVSpec.
From S2P Require Import Coordinator KVCacheManager EncoderCache RequestQueue SchedUtils SchedState Schedule.

(** [ModelRunnerOutput] and the part of [KVConnectorOutput] the scheduler reads *)
Record KVConnectorOutput := mkKVOut {
  ko_finished_sending : list string;
  ko_finished_recving : list string;
  ko_invalid_block_ids : gset Z;
}.

Record ModelRunnerOutput := mkMRO {
  mro_req_id_to_index : list (string * Z);
  mro_sampled_token_ids : list (list Z);
  mro_pooler_output : list (option Z);           (* handles of the pooled tensors *)
  mro_kv_connector_output : option KVConnectorOutput;
}.

Record EngineCoreOutput := mkECO {
  eo_request_id : string;
  eo_new_token_ids : list Z;
  eo_finish_reason : option FinishReason;
  eo_stop_reason : option StopReason;
  eo_pooling_output : option Z;
  eo_prefill_stats : option PrefillStats;
}.

Record EngineCoreOutputs := mkECOs {
  eos_outputs : list EngineCoreOutput;
  eos_finished_requests : option (gset string);
}.

Record DraftTokenIds := mkDrafts { dt_req_ids : list string; dt_draft_token_ids : list (list Z) }.

(** The argument [request_ids] of [finish_requests] *)
Inductive request_ids := OneId (id : string) | Ids (ids : list string) | AllIds.

(** [outputs[client_index].append(...)] on a [defaultdict(list)] *)
Definition append_output {A} (k : Z) (x : A) (d : list (Z * list A)) : list (Z * list A) :=
  dict_set k (default [] (dict_get k d) ++ [x]) d.

(** A test of the object behind a reference *)
Definition obj_is (f : Request → bool) (objs : gmap Z Request) (i : Z) : bool :=
  match objs !! i with Some r => f r | None => false end.

Definition has_status (st : RequestStatus) (r : Request) : bool := bool_decide (status r = st).

Module Update.
Section update.
Context (cf : Config) (conn : option Connector) (gr : GrammarOps) (hasher : option block_hasher).
Context (set_iter : gset nat → list nat) (ids_iter : gset string → list string).

Abbreviation enc_free := (enc_free set_iter).
Abbreviation is_blocked := (Sched._is_blocked_waiting_status).

(** ** Freeing *)
Definition _connector_finished (i : Z) : Sch bool :=
  match conn with
  | None => mret false
  | Some c =>
      s ← get;
      r ← obj i;
      _ ← on_kv (KVManager.remove_skipped_blocks (request_id r) (num_computed_tokens r));
      k ← gets sc_kv;
      let block_ids := default [] (KVManager.get_block_ids k (request_id r)) in
      _ ← massert (cn_supports_hma c || (KVManager.num_kv_cache_groups k =? 1)%nat);
      mret (cn_request_finished c (sc_current_step s) r block_ids)
  end.

Definition _free_blocks (i : Z) : Sch () :=
  r ← obj i;
  _ ← massert (is_finished r);
  _ ← on_kv (KVManager.free r);
  s ← get;
  _ ← of_opt KeyError (dict_get (request_id r) (sc_requests s));
  modify (λ s, sc_set_requests (dict_del (request_id r) (sc_requests s)) s).

Definition _free_request (i : Z) (delay_free_blocks : bool) : Sch () :=
  r ← obj i;
  _ ← massert (is_finished r);
  _ ← modify (λ s, sc_set_inflight_prefills (sc_inflight_prefills s ∖ {[ i ]}) s);
  connector_delay ← _connector_finished i;
  _ ← enc_free r;
  _ ← modify (λ s, sc_set_finished_req_ids ({[ request_id r ]} ∪ sc_finished_req_ids s) s);
  _ ← modify (λ s, sc_set_finished_req_ids_dict
         ((λ d, dict_set (client_index r)
                  ({[ request_id r ]} ∪ default ∅ (dict_get (client_index r) d)) d)
            <$> sc_finished_req_ids_dict s) s);
  if delay_free_blocks || connector_delay then mret tt else _free_blocks i.

(** ** Requests enter and leave *)
Definition _enqueue_waiting_request (i : Z) : Sch () :=
  r ← obj i;
  q_add (if is_blocked (status r) then Skipped else Waiting) i.

Definition finish_requests (ids : request_ids) (finished_status : RequestStatus)
    : Sch (list (string * Z)) :=
  _ ← massert (status_is_finished finished_status);
  s ← get;
  let ids := match ids with
             | OneId id => [id]
             | Ids l => ids_iter (list_to_set l)
             | AllIds => fst <$> sc_requests s
             end in
  (** first pass: what is valid, by the queue it is in *)
  let valid := filter (λ i, obj_is (λ r, negb (is_finished r)) (sc_objs s) i = true)
                 (omap (λ id, dict_get id (sc_requests s)) ids) in
  let to_remove_running := filter (λ i, obj_is (has_status RUNNING) (sc_objs s) i = true) valid in
  let to_remove_waiting := filter (λ i, obj_is (has_status RUNNING) (sc_objs s) i = false) valid in
  _ ← modify (sc_set_num_waiting_for_streaming_input
         (sc_num_waiting_for_streaming_input s
          - len (filter (λ i, obj_is (has_status WAITING_FOR_STREAMING_REQ) (sc_objs s) i = true)
                 to_remove_waiting)));
  _ ← modify (λ s, sc_set_running (remove_all (sc_running s) (list_to_set to_remove_running)) s);
  _ ← (match to_remove_waiting with
       | [] => mret tt
       | _ => _ ← q_remove_all Waiting to_remove_waiting; q_remove_all Skipped to_remove_waiting
       end);
  (** second pass *)
  _ ← for_each valid (λ i,
        r ← obj i;
        s ← get;
        let remote := bool_decide (status r = WAITING_FOR_REMOTE_KVS) in
        let delay := remote && bool_decide (request_id r ∉ sc_finished_recving s) in
        _ ← modify (λ s, if remote
                         then sc_set_finished_recving (sc_finished_recving s ∖ {[ request_id r ]})
                                (sc_set_failed_recving (sc_failed_recving s ∖ {[ request_id r ]}) s)
                         else s);
        _ ← upd i (set_status finished_status);
        _free_request i delay);
  mapM_ (λ i, r ← obj i; mret (request_id r, client_index r)) valid.

(** ** Streaming sessions *)
Definition streaming_update_from_request (r : Request) : option StreamingUpdate :=
  if resumable r
  then Some (mkUpdate (mm_features r) (prompt_token_ids r) (max_tokens r) (arrival_time r)
               (sampling_params (ext r)))
  else None.

Definition shift_feature (base : Z) (f : MultiModalFeatureSpec) : MultiModalFeatureSpec :=
  let p := mm_position f in
  mkFeature (identifier f) (mkRange (offset p + base) (pr_length p) (is_embed p)).

(** The session's tokens after an update, before the hashes. *)
Definition session_tokens (update : StreamingUpdate) : M Request () :=
  session ← get;
  let num_computed := num_computed_tokens session in
  let kept_output_tokens := py_slice (all_token_ids session) (num_prompt_tokens session) num_computed in
  _ ← modify (set_all_token_ids (take (Z.to_nat num_computed) (all_token_ids session)));
  _ ← modify (set_output_token_ids []);
  prompt ← of_opt AssertionError (prompt_token_ids session);
  _ ← modify (set_prompt_token_ids (Some (prompt ++ kept_output_tokens)));
  _ ← modify (λ r, set_mm_features (mm_features r ++ (shift_feature (num_tokens r) <$> su_mm_features update)) r);
  let new := default [] (su_prompt_token_ids update) in
  _ ← modify (λ r, set_all_token_ids (all_token_ids r ++ new) r);
  modify (set_prompt_token_ids (Some (prompt ++ kept_output_tokens ++ new))).

Definition session_update (update : StreamingUpdate) : M Request () :=
  _ ← session_tokens update;
  _ ← update_block_hashes hasher;
  _ ← modify (λ r, set_num_prompt_tokens (len (default [] (prompt_token_ids r))) r);
  _ ← modify (set_arrival_time (su_arrival_time update));
  modify (set_sampling_params (su_sampling_params update)).

Definition _update_request_as_session (i : Z) (update : StreamingUpdate) : Sch () :=
  _ ← on_request i (session_update update);
  r ← obj i;
  _ ← modify (λ s, if bool_decide (status r = WAITING_FOR_STREAMING_REQ)
                   then sc_set_num_waiting_for_streaming_input (sc_num_waiting_for_streaming_input s - 1) s
                   else s);
  upd i (set_status WAITING).

(** Returns true when the request is finished. *)
Definition _handle_stopped_request (i : Z) : Sch bool :=
  r ← obj i;
  if negb (resumable r) then mret true
  else
    match streaming_queue (ext r) with
    | Some (None :: rest) => _ ← upd i (set_streaming_queue (Some rest)); mret true
    | Some (Some update :: rest) =>
        _ ← upd i (set_streaming_queue (Some rest));
        _ ← _update_request_as_session i update;
        _ ← _enqueue_waiting_request i; mret false
    | _ =>
        _ ← upd i (set_status WAITING_FOR_STREAMING_REQ);
        _ ← modify (λ s, sc_set_num_waiting_for_streaming_input (sc_num_waiting_for_streaming_input s + 1) s);
        _ ← _enqueue_waiting_request i; mret false
    end.

(** [add_request(request)] for the object [i] with the attributes [request]. *)
Definition add_request (i : Z) (request : Request) : Sch () :=
  s ← get;
  match dict_get (request_id request) (sc_requests s) with
  | Some existing =>
      let update := streaming_update_from_request request in
      e ← obj existing;
      if negb (bool_decide (status e = WAITING_FOR_STREAMING_REQ))
      then
        q ← of_opt AssertionError (streaming_queue (ext e));
        upd existing (set_streaming_queue (Some (q ++ [update])))
      else
        match update with
        | Some u => _update_request_as_session existing u
        | None => _ ← finish_requests (OneId (request_id request)) FINISHED_ABORTED; mret tt
        end
  | None =>
      _ ← set_obj i (if resumable request then set_streaming_queue (Some []) request else request);
      _ ← _enqueue_waiting_request i;
      modify (λ s, sc_set_requests (dict_set (request_id request) i (sc_requests s)) s)
  end.

(** ** The output of the model *)

(** Tokens are appended one by one until the request stops. *)
Fixpoint append_until_stop (i : Z) (tokens done_ : list Z) : Sch (list Z * bool) :=
  match tokens with
  | [] => mret (done_, false)
  | t :: rest =>
      _ ← on_request i (append_output_token_ids hasher [t]);
      stopped ← on_request i (check_stop (cf_max_model_len cf));
      if (stopped : bool) then mret (done_ ++ [t], true) else append_until_stop i rest (done_ ++ [t])
  end.

Definition base_update_request_with_output (i : Z) (new_token_ids : list Z) : Sch (list Z * bool) :=
  append_until_stop i new_token_ids [].

Definition async_update_request_with_output (i : Z) (new_token_ids : list Z) : Sch (list Z * bool) :=
  r ← obj i;
  if 0 <? async_tokens_to_discard (ext r)
  then
    _ ← upd i (set_async_tokens_to_discard (async_tokens_to_discard (ext r) - 1));
    mret ([], false)
  else
    let status_before_update := status r in
    '(new_token_ids, stopped) ← base_update_request_with_output i new_token_ids;
    _ ← upd i (λ r, set_num_output_placeholders (num_output_placeholders r - len new_token_ids) r);
    r ← obj i;
    _ ← massert (0 <=? num_output_placeholders r);
    _ ← (if bool_decide (status_before_update = RUNNING)
         then r' ← on_kv (KVManager.cache_blocks r (num_computed_tokens r - num_output_placeholders r));
              set_obj i r'
         else mret tt);
    mret (new_token_ids, stopped).

Definition _update_request_with_output (i : Z) (new_token_ids : list Z) : Sch (list Z * bool) :=
  if cf_async_scheduling cf then async_update_request_with_output i new_token_ids
  else base_update_request_with_output i new_token_ids.

Definition _free_encoder_inputs (i : Z) : Sch () :=
  r ← obj i;
  cached ← enc_get_cached_input_ids r;
  for_each (set_iter cached) (λ input_id,
    f ← of_opt IndexError (mm_features r !! input_id);
    if cf_is_encoder_decoder cf && (0 <? num_computed_tokens r)
    then enc_free_encoder_input r input_id
    else if offset (mm_position f) + pr_length (mm_position f) <=? num_computed_tokens r
    then enc_free_encoder_input r input_id
    else mret tt).

(** Rejected draft tokens are taken back. *)
Definition reject_drafts (i : Z) (scheduled_spec generated : list Z) : Sch () :=
  match scheduled_spec, generated with
  | _ :: _, _ :: _ =>
      let num_rejected := len scheduled_spec - (len generated - 1) in
      _ ← upd i (λ r, if 0 <? num_computed_tokens r
                      then set_num_computed_tokens (num_computed_tokens r - num_rejected) r else r);
      upd i (λ r, if 0 <? num_output_placeholders r
                  then set_num_output_placeholders (num_output_placeholders r - num_rejected) r else r)
  | _, _ => mret tt
  end.

(** What the loop over the scheduled requests collects. *)
Record UpdateState := mkUpd {
  us_outputs : list (Z * list EngineCoreOutput);
  us_stopped_running : gset Z;
  us_stopped_preempted : gset Z;
}.

(** The tokens of the request enter it; returns the tokens kept and whether it stops. *)
Definition take_output (i : Z) (generated : list Z) (pooler_output : option Z) : Sch (list Z * bool) :=
  r ← obj i;
  match generated with
  | _ :: _ => _update_request_with_output i generated
  | [] =>
      if bool_decide (is_Some (pooling_params (ext r))) && bool_decide (is_Some pooler_output)
      then _ ← upd i (set_status FINISHED_STOPPED); mret ([], true)
      else mret ([], false)
  end.

(** The grammar advances; a rejection stops the request. *)
Definition advance_grammar (i : Z) (new_token_ids : list Z) (stopped : bool) : Sch bool :=
  r ← obj i;
  if negb (bool_decide (new_token_ids = [])) && gr_should_advance gr r
  then
    _ ← massert (use_structured_output r);
    if gr_accept_tokens gr r new_token_ids then mret stopped
    else
      _ ← upd i (set_status FINISHED_ERROR);
      _ ← upd i (set_resumable false);
      mret true
  else mret stopped.

(** A stopped request is freed, or waits for more input. *)
Definition settle_stopped (i : Z) (was_running : bool) (us : UpdateState)
    : Sch (option FinishReason * UpdateState) :=
  r ← obj i;
  let finish_reason := get_finished_reason (status r) in
  finished ← _handle_stopped_request i;
  _ ← (if (finished : bool) then _free_request i false else mret tt);
  mret (finish_reason,
        if was_running then mkUpd (us_outputs us) ({[ i ]} ∪ us_stopped_running us) (us_stopped_preempted us)
        else mkUpd (us_outputs us) (us_stopped_running us) ({[ i ]} ∪ us_stopped_preempted us)).

(** One scheduled request that is still alive. *)
Definition update_live_request (i : Z) (scheduled_spec generated : list Z) (pooler_output : option Z)
    (us : UpdateState) : Sch UpdateState :=
  _ ← reject_drafts i scheduled_spec generated;
  r ← obj i;
  _ ← (if has_encoder_inputs r then _free_encoder_inputs i else mret tt);
  let was_running := bool_decide (status r = RUNNING) in
  '(new_token_ids, stopped) ← take_output i generated pooler_output;
  stopped ← advance_grammar i new_token_ids stopped;
  '(finish_reason, us) ← (if (stopped : bool) then settle_stopped i was_running us else mret (None, us));
  r ← obj i;
  if negb (bool_decide (new_token_ids = [])) || bool_decide (is_Some pooler_output) || stopped
  then
    _ ← upd i (set_prefill_stats None);
    mret (mkUpd (append_output (client_index r)
                   (mkECO (request_id r) new_token_ids finish_reason (stop_reason (ext r)) pooler_output
                      (prefill_stats (ext r))) (us_outputs us))
            (us_stopped_running us) (us_stopped_preempted us))
  else mret us.

Definition update_request (out : SchedulerOutput) (mro : ModelRunnerOutput) (failed : gset string)
    (kv : string * Z) (us : UpdateState) : Sch UpdateState :=
  let req_id := fst kv in
  _ ← massert (0 <? snd kv);
  if bool_decide (req_id ∈ failed) then mret us
  else
    s ← get;
    match dict_get req_id (sc_requests s) with
    | None => mret us
    | Some i =>
        r ← obj i;
        if is_finished r then mret us
        else
          req_index ← of_opt KeyError (dict_get req_id (mro_req_id_to_index mro));
          generated ← match mro_sampled_token_ids mro with
                      | [] => mret []
                      | l => of_opt IndexError (py_get l req_index)
                      end;
          pooler_output ← match mro_pooler_output mro with
                          | [] => mret None
                          | l => of_opt IndexError (py_get l req_index)
                          end;
          update_live_request i (default [] (dict_get req_id (so_scheduled_spec_decode_tokens out)))
            generated pooler_output us
    end.

Fixpoint update_requests (out : SchedulerOutput) (mro : ModelRunnerOutput) (failed : gset string)
    (l : list (string * Z)) (us : UpdateState) : Sch UpdateState :=
  match l with
  | [] => mret us
  | kv :: l' => us ← update_request out mro failed kv us; update_requests out mro failed l' us
  end.

(** *** Failed KV loads *)

(** The blocks of one request: [affected]: an invalid block was seen; [marked]: the
    request has marked one for recomputation; the set of marked blocks is shared. *)
Fixpoint invalid_blocks_loop (i : Z) (idx : nat) (block_ids all_ids : list Z) (invalid : gset Z)
    (req_num_computed : Z) (evict : bool) (affected marked : bool) (marked_ids to_evict : gset Z) (total : Z)
    : Sch (bool * bool * gset Z * gset Z * Z) :=
  match block_ids with
  | [] => mret (affected, marked, marked_ids, to_evict, total)
  | b :: rest =>
      let next := invalid_blocks_loop i (S idx) rest all_ids invalid req_num_computed evict in
      if negb (bool_decide (b ∈ invalid)) then next affected marked marked_ids to_evict total
      else if bool_decide (b ∈ marked_ids) then next true marked marked_ids to_evict total
      else if marked then next true true ({[ b ]} ∪ marked_ids) to_evict total
      else
        let computed := Z.of_nat idx * cf_block_size cf in
        _ ← upd i (set_num_computed_tokens computed);
        next true true ({[ b ]} ∪ marked_ids)
          (if evict then list_to_set (drop idx all_ids) ∪ to_evict else to_evict)
          (total + (req_num_computed - computed))
  end.

Fixpoint _update_requests_with_invalid_blocks (reqs : list Z) (invalid : gset Z)
    (num_scheduled_tokens : list (string * Z)) (evict : bool)
    (affected : gset string) (marked_ids to_evict : gset Z) (total : Z)
    : Sch (gset string * Z * gset Z) :=
  match reqs with
  | [] => mret (affected, total, to_evict)
  | i :: rest =>
      r ← obj i;
      k ← gets sc_kv;
      req_block_ids ← of_opt ValueError (match KVManager.get_block_ids k (request_id r) with
                                         | Some [ids] => Some ids
                                         | _ => None
                                         end);
      let req_num_computed := num_computed_tokens r - default 0 (dict_get (request_id r) num_scheduled_tokens) in
      let n := (req_num_computed + cf_block_size cf - 1) / cf_block_size cf in
      '(is_affected, marked, marked_ids, to_evict, total) ←
        invalid_blocks_loop i 0 (take (Z.to_nat n) req_block_ids) req_block_ids invalid req_num_computed
          evict false false marked_ids to_evict total;
      r ← obj i;
      let reverted := is_affected && negb marked in
      _ ← (if reverted then upd i (set_num_computed_tokens req_num_computed) else mret tt);
      _update_requests_with_invalid_blocks rest invalid num_scheduled_tokens evict
        (if (is_affected : bool) then {[ request_id r ]} ∪ affected else affected) marked_ids to_evict
        (if reverted then total + (num_computed_tokens r - req_num_computed) else total)
  end.

Definition _handle_invalid_blocks (invalid : gset Z) (num_scheduled_tokens : list (string * Z))
    : Sch (gset string) :=
  s ← get;
  skipped ← of_res (Queue.iter (obj_lt (sc_objs s)) (sc_skipped_waiting s));
  let async_load := filter (λ i, obj_is (has_status WAITING_FOR_REMOTE_KVS) (sc_objs s) i = true) skipped in
  '(async_failed, _, _) ←
    _update_requests_with_invalid_blocks async_load invalid num_scheduled_tokens false ∅ ∅ ∅ 0;
  '(sync_failed, _, to_evict) ←
    _update_requests_with_invalid_blocks (sc_running s) invalid num_scheduled_tokens true ∅ ∅ ∅ 0;
  if bool_decide (async_failed = ∅) && bool_decide (sync_failed = ∅) then mret ∅
  else
    _ ← (if negb (bool_decide (to_evict = ∅)) && negb (cf_recompute_kv_load_failures cf)
         then on_kv (KVManager.evict_blocks (Z.to_nat <$> elements to_evict)) else mret tt);
    if negb (cf_recompute_kv_load_failures cf) then mret (async_failed ∪ sync_failed)
    else
      _ ← modify (λ s, sc_set_failed_recving (async_failed ∪ sc_failed_recving s) s);
      mret sync_failed.

Definition transfer_received (req_id : string) : Sch () :=
  s ← get;
  i ← of_opt AssertionError (dict_get req_id (sc_requests s));
  r ← obj i;
  if bool_decide (status r = WAITING_FOR_REMOTE_KVS)
  then modify (λ s, sc_set_finished_recving ({[ req_id ]} ∪ sc_finished_recving s) s)
  else _ ← massert (is_finished r); _free_blocks i.

Definition transfer_sent (req_id : string) : Sch () :=
  s ← get;
  i ← of_opt AssertionError (dict_get req_id (sc_requests s));
  _free_blocks i.

Definition _update_from_kv_xfer_finished (ko : KVConnectorOutput) : Sch () :=
  _ ← for_each (ko_finished_recving ko) transfer_received;
  for_each (ko_finished_sending ko) transfer_sent.

(** The requests whose KV load failed are aborted with an error. *)
Definition fail_requests (failed : gset string) (outputs : list (Z * list EngineCoreOutput))
    : Sch (list (Z * list EngineCoreOutput)) :=
  s ← get;
  reqs ← mapM_ (λ id, of_opt KeyError (dict_get id (sc_requests s))) (ids_iter failed);
  _ ← finish_requests (Ids (elements failed)) FINISHED_ERROR;
  rs ← mapM_ obj reqs;
  mret (foldl (λ d r, append_output (client_index r)
                        (mkECO (request_id r) [] (get_finished_reason (status r)) None None None) d) outputs rs).

(** The outputs per client; the finished requests are reported when asked for. *)
Definition client_outputs (outputs : list (Z * list EngineCoreOutput)) : Sch (list (Z * EngineCoreOutputs)) :=
  s ← get;
  let base := (λ '(c, l), (c, mkECOs l None)) <$> outputs in
  match sc_finished_req_ids_dict s with
  | Some ((_ :: _) as d) =>
      _ ← modify (sc_set_finished_req_ids_dict (Some []));
      mret (foldl (λ acc '(c, ids),
                     dict_set c (mkECOs (from_option eos_outputs [] (dict_get c acc)) (Some ids)) acc) base d)
  | _ => mret base
  end.

Definition update_from_output (out : SchedulerOutput) (mro : ModelRunnerOutput)
    : Sch (list (Z * EngineCoreOutputs)) :=
  failed ← match mro_kv_connector_output mro with
           | Some ko => if bool_decide (ko_invalid_block_ids ko = ∅) then mret ∅
                        else _handle_invalid_blocks (ko_invalid_block_ids ko) (so_num_scheduled_tokens out)
           | None => mret ∅
           end;
  us ← update_requests out mro failed (so_num_scheduled_tokens out) (mkUpd [] ∅ ∅);
  _ ← modify (λ s, sc_set_running (remove_all (sc_running s) (us_stopped_running us)) s);
  _ ← (if bool_decide (us_stopped_preempted us = ∅) then mret tt
       else q_remove_all Waiting (elements (us_stopped_preempted us)));
  outputs ← (if negb (bool_decide (failed = ∅)) && negb (cf_recompute_kv_load_failures cf)
             then fail_requests failed (us_outputs us) else mret (us_outputs us));
  _ ← match mro_kv_connector_output mro with
      | Some ko => _update_from_kv_xfer_finished ko
      | None => mret tt
      end;
  _ ← on_kv KVManager.take_events;
  client_outputs outputs.

(** ** Draft tokens *)
Definition live_request (req_id : string) : Sch (option Z) :=
  s ← get;
  match dict_get req_id (sc_requests s) with
  | None => mret None
  | Some i => r ← obj i; mret (if is_finished r then None else Some i)
  end.

Definition update_drafts_of (kv : string * list Z) : Sch () :=
  o ← live_request (fst kv);
  match o with
  | None => mret tt
  | Some i =>
      r ← obj i;
      if is_prefill_chunk r then upd i (set_spec_token_ids [])
      else upd i (set_spec_token_ids (if gr_should_advance gr r then gr_validate_tokens gr r (snd kv) else snd kv))
  end.

Definition update_draft_token_ids (d : DraftTokenIds) : Sch () :=
  for_each (zip (dt_req_ids d) (dt_draft_token_ids d)) update_drafts_of.

Definition drafts_in_output (acc : list (string * list Z) * list (string * Z)) (kv : string * list Z)
    : Sch (list (string * list Z) * list (string * Z)) :=
  let '(spec, invalid) := acc in
  o ← live_request (fst kv);
  match o, dict_get (fst kv) spec with
  | Some i, Some ((_ :: _) as placeholders) =>
      r ← obj i;
      let tokens := take (length placeholders) (snd kv) in
      let tokens := if gr_should_advance gr r then gr_validate_tokens gr r tokens else tokens in
      let num_invalid := len placeholders - len tokens in
      let padded := tokens ++ replicate (Z.to_nat num_invalid) (-1) in
      mret (dict_set (fst kv) padded spec,
            if negb (num_invalid =? 0) then dict_set (fst kv) num_invalid invalid else invalid)
  | _, _ => mret acc
  end.

Fixpoint drafts_in_output_loop (acc : list (string * list Z) * list (string * Z)) (l : list (string * list Z))
    : Sch (list (string * list Z) * list (string * Z)) :=
  match l with
  | [] => mret acc
  | kv :: l' => acc ← drafts_in_output acc kv; drafts_in_output_loop acc l'
  end.

Definition update_draft_token_ids_in_output (d : DraftTokenIds) (out : SchedulerOutput) : Sch SchedulerOutput :=
  '(spec, invalid) ← drafts_in_output_loop (so_scheduled_spec_decode_tokens out, [])
                       (zip (dt_req_ids d) (dt_draft_token_ids d));
  mret (mkOutput (so_scheduled_new_reqs out) (so_scheduled_cached_reqs out) (so_num_scheduled_tokens out)
          (so_total_num_scheduled_tokens out) spec (so_scheduled_encoder_inputs out)
          (so_num_common_prefix_blocks out) (so_finished_req_ids out) (so_free_encoder_mm_hashes out)
          (so_preempted_req_ids out) (so_has_structured_output_requests out)
          (so_pending_structured_output_tokens out) (Some invalid) (so_new_block_ids_to_zero out)).

(** The requests whose rows the grammar bitmask has, in order. *)
Definition get_grammar_bitmask (out : SchedulerOutput) : Sch (option (list string)) :=
  if negb (so_has_structured_output_requests out) then mret None
  else
    s ← get;
    let needs_row r := use_structured_output r && negb (is_prefill_chunk r) in
    let ids := filter (λ id, from_option (obj_is needs_row (sc_objs s)) false (dict_get id (sc_requests s)) = true)
                 (fst <$> so_num_scheduled_tokens out) in
    mret (match ids with [] => None | _ => Some ids end).

(** ** Counts, pausing and resets *)
Definition get_request_counts (s : Scheduler) : Z * Z :=
  (len (sc_running s), Queue.queue_len (sc_waiting s) + Queue.queue_len (sc_skipped_waiting s)).

Definition set_pause_state (p : PauseState) : Sch () := modify (sc_set_pause_state p).

Definition get_num_unfinished_requests (s : Scheduler) : Z :=
  match sc_pause_state s with
  | PAUSED_ALL => 0
  | PAUSED_NEW => len (sc_running s)
  | UNPAUSED =>
      Queue.queue_len (sc_waiting s) + Queue.queue_len (sc_skipped_waiting s)
      - sc_num_waiting_for_streaming_input s + len (sc_running s)
  end.

Definition has_finished_requests (s : Scheduler) : bool :=
  negb (bool_decide (sc_finished_req_ids s = ∅)) ||
  match conn with
  | None => false
  | Some _ =>
      Queue.queue_len (sc_waiting s) + Queue.queue_len (sc_skipped_waiting s) + len (sc_running s)
        <? len (sc_requests s)
  end.

(** [while self.running: request = self.running.pop(); ...] *)
Fixpoint preempt_all (fuel : nat) : Sch () :=
  match fuel with
  | O => raise OutOfFuel
  | S fuel' =>
      s ← get;
      match last (sc_running s) with
      | None => mret tt
      | Some i =>
          _ ← modify (sc_set_running (take (length (sc_running s) - 1) (sc_running s)));
          _ ← Sched._preempt_request set_iter i;
          _ ← upd i (λ r, set_async_tokens_to_discard (num_output_placeholders r) r);
          _ ← upd i (set_num_output_placeholders 0);
          preempt_all fuel'
      end
  end.

Definition reset_connector_cache (s : Scheduler) : bool :=
  match conn with None => true | Some c => cn_reset_cache c (sc_current_step s) end.

Definition reset_prefix_cache (reset_running_requests reset_connector : bool) : Sch bool :=
  s ← get;
  _ ← (if reset_running_requests
       then _ ← preempt_all (S (length (sc_running s)));
            modify (sc_set_prev_step_scheduled_req_ids ∅)
       else mret tt);
  reset_successful ← on_kv KVManager.reset_prefix_cache;
  if reset_running_requests && negb reset_successful then raise RuntimeError
  else mret (if reset_connector then reset_connector_cache s && reset_successful else reset_successful).

Definition reset_encoder_cache : Sch () := enc_reset.

End update.

(** ** Construction *)
Definition init (cf : Config) (policy : string) (config : KVCacheConfig)
    (num_gpu_blocks : option Z) (hash_block_size : option Z) (enable_caching log_stats events use_int : bool)
    (dcp pcp : Z) (retention : option Z) (include_finished_set : bool) : res (Config * Scheduler) :=
  _ ← (match num_gpu_blocks with Some n => if 0 <? n then Ok tt else Raise AssertionError | None => Raise AssertionError end);
  policy ← (if String.eqb policy "fcfs" then Ok FCFS else if String.eqb policy "priority" then Ok PRIORITY
            else Raise ValueError);
  let cf := mkConf policy (cf_max_num_seqs cf) (cf_max_num_scheduled_tokens cf) (cf_max_num_batched_tokens cf)
              (cf_max_model_len cf) (cf_long_prefill_token_threshold cf) (cf_enable_chunked_prefill cf)
              (cf_disable_chunked_mm_input cf) (cf_is_encoder_decoder cf) (cf_mm_budget cf) (cf_speculative cf)
              (cf_mamba_align cf) (cf_cache_block_size cf) (cf_reserve_full_isl cf) (cf_use_v2_model_runner cf)
              (cf_pp_size cf) (cf_async_scheduling cf) (cf_lora cf) (cf_needs_kv_cache_zeroing cf)
              (cf_block_size cf) (cf_recompute_kv_load_failures cf) in
  kv ← KVManager.init config (cf_max_model_len cf) (cf_block_size cf) (default (cf_block_size cf) hash_block_size)
         (Some (cf_max_num_batched_tokens cf)) enable_caching (use_eagle cf) log_stats events use_int
         dcp pcp retention;
  Ok (cf, mkSched ∅ [] (Queue.create_request_queue policy) (Queue.create_request_queue policy) [] kv
            (if cf_is_encoder_decoder cf then EncoderDecoder (EncDec.init (encoder_cache_size cf))
             else EncoderOnly (Encoder.init (encoder_cache_size cf)))
            ∅ (if include_finished_set then Some [] else None) ∅ 0 ∅ ∅ ∅ UNPAUSED 0).
End Update.
