(* ===== verification/SchedDemo.v ===== *)
(** * The scheduler on concrete runs

    Small configurations on which the scheduler is executed, and runs where what
    it does is not what it is meant to do. *)
From S2P Require Import Prelude FreeQueue Request BlockHash BlockPool KVSpec CacheHit SingleType.
From S2P Require Import Coordinator KVCacheManager EncoderCache RequestQueue SchedUtils SchedState Schedule SchedUpdate.

(** ** A small scheduler *)

(** One group of full attention, ten usable blocks of four tokens. *)
Definition demo_kv_config : KVCacheConfig :=
  mkConfig 11 [mkGroup (mkSpec 4 0 (FullAttention FKFull)) false].

(** [seqs] running requests, [budget] tokens in a step, [mml] the model's length. *)
Definition demo_conf (policy : SchedulingPolicy) (seqs budget mml pp : Z) (lora : option Z) : Config :=
  mkConf policy seqs None budget mml 0 true false false None None false 4 false false pp false lora false 4 true.

Definition demo_grammar : GrammarOps := mkGrammar (λ _ _, true) (λ _, false) (λ _ _, true) (λ _ l, l).
Definition demo_empty : Scheduler :=
  mkSched ∅ [] (FCFSRequestQueue []) (FCFSRequestQueue []) []
    (mkKM (mkCoord NoPrefixCache demo_kv_config true 4 4 [] None empty_pool []) 0 true false None)
    (EncoderOnly (Encoder.init 0)) ∅ None ∅ 0 ∅ ∅ ∅ UNPAUSED 0.

Definition demo_start (cf : Config) (policy : string) : Scheduler :=
  match Update.init cf policy demo_kv_config (Some 11) None false false false false 1 1 None false with
  | Ok (_, s) => s
  | Raise _ => demo_empty
  end.

(** What the engine does with a scheduler; the outputs of the steps that are not
    taken in yet are kept in order. *)
Inductive demo_op :=
  | DAdd (i : Z) (r : Request)
  | DSchedule
  | DOutput (tokens : list (string * list Z)).

Section demo_runs.
Context (cf : Config) (hasher : option block_hasher).

Definition demo_mro (tokens : list (string * list Z)) : ModelRunnerOutput :=
  mkMRO (zip (fst <$> tokens) (seqZ 0 (len tokens))) (snd <$> tokens) [] None.

Definition demo_step (o : demo_op) (st : list SchedulerOutput * Scheduler)
    : res (list SchedulerOutput * Scheduler) :=
  let '(outs, s) := st in
  match o with
  | DAdd i r => match Update.add_request None hasher elements elements i r s with
                | (Ok _, s') => Ok (outs, s')
                | (Raise e, _) => Raise e
                end
  | DSchedule => match Sched.schedule cf None demo_grammar elements s with
                 | (Ok o, s') => Ok (outs ++ [o], s')
                 | (Raise e, _) => Raise e
                 end
  | DOutput tokens =>
      match outs with
      | [] => Raise IndexError
      | o :: outs' =>
          match Update.update_from_output cf None demo_grammar hasher elements elements o (demo_mro tokens) s with
          | (Ok _, s') => Ok (outs', s')
          | (Raise e, _) => Raise e
          end
      end
  end.

Fixpoint demo_run (ops : list demo_op) (st : list SchedulerOutput * Scheduler)
    : res (list SchedulerOutput * Scheduler) :=
  match ops with
  | [] => Ok st
  | o :: ops' => st' ← demo_step o st; demo_run ops' st'
  end.
End demo_runs.

(** A request as the front end builds it. *)
Definition demo_new (rid : string) (n : nat) (prio arrival oid : Z) (sp : option SamplingParams)
    (pp : option PoolingParams) (lora : option LoRARequest) (resum : bool) : Request :=
  match Request_init rid 0 prio arrival oid (Some (replicate n 7)) None sp pp None lora None None resum with
  | Ok r => r
  | Raise _ => mkRequest rid 0 0 0 0 WAITING 0 false None None ∅ 0 [] [] 0 [] 0 None [] None false 0 []
                 false false (new_ext None None)
  end.
Definition demo_sampling (mx mn : Z) : option SamplingParams :=
  Some (mkSampling (Some mx) false None mn (Some 0) None None).

(** What a step schedules *)
Definition scheduled (x : res (list SchedulerOutput * Scheduler)) : res (list (list (string * Z))) :=
  match x with Ok (outs, _) => Ok (so_num_scheduled_tokens <$> outs) | Raise e => Raise e end.

(** ** Runs that go wrong *)

(** *** LoRA *)
Definition lora_conf : Config := demo_conf FCFS 4 8 64 2 (Some 1).
Definition lora_a : Request := demo_new "a" 4 0 0 1 (demo_sampling 16 0) None (Some (mkLoRA "one" 1)) false.
Definition lora_b : Request := demo_new "b" 30 0 0 2 (demo_sampling 16 0) None (Some (mkLoRA "two" 2)) false.
Definition lora_start : list SchedulerOutput * Scheduler := ([], demo_start lora_conf "fcfs").

(** With pipeline parallelism the check that one more LoRA fits looks only at the
    running requests scheduled in this step.  At most one LoRA is allowed; while
    the only token of [a] is in flight, [b] with another LoRA is taken in, and when
    the output of [a] arrives the next step has both: the assertion after the
    running requests fails. *)
Theorem lora_limit_assertion_fails :
  scheduled (demo_run lora_conf None [DAdd 1 lora_a; DAdd 2 lora_b; DSchedule; DSchedule] lora_start)
    = Ok [[("a", 4)]; [("b", 8)]] ∧
  demo_run lora_conf None [DAdd 1 lora_a; DAdd 2 lora_b; DSchedule; DSchedule; DOutput [("a", [5])]; DSchedule]
    lora_start = Raise AssertionError.
Proof. split; vm_compute; reflexivity. Qed.

(** *** A negative number of tokens *)
Definition short_conf : Config := demo_conf FCFS 4 8 8 2 None.
Definition short_start : list SchedulerOutput * Scheduler := ([], demo_start short_conf "fcfs").
Definition full_prompt : Request := demo_new "p" 8 0 0 1 None (Some (mkPooling None)) None false.

(** A pooling request may have a prompt of the maximal model length.  When a second
    step is scheduled before its output has come back, the limit
    [max_model_len - 1 - num_computed_tokens] is -1, which is not 0: the request is
    scheduled with -1 tokens. *)
Theorem pooling_request_scheduled_negative :
  scheduled (demo_run short_conf None [DAdd 1 full_prompt; DSchedule; DSchedule] short_start)
    = Ok [[("p", 8)]; [("p", -1)]].
Proof. vm_compute. reflexivity. Qed.

(** *** A request that never ends *)
Definition greedy : Request := demo_new "m" 6 0 0 1 (demo_sampling 8 5) None None false.
Definition greedy_run : res (list SchedulerOutput * Scheduler) :=
  demo_run short_conf None
    [DAdd 1 greedy; DSchedule; DOutput [("m", [5])]; DSchedule; DOutput [("m", [5])]; DSchedule] short_start.

(** [check_stop] looks at [min_tokens] before the length limit.  A request whose
    prompt and [min_tokens] together exceed the model's length is not stopped when
    the length is reached, and no step schedules it again: it stays unfinished. *)
Theorem min_tokens_beyond_length_starves :
  scheduled greedy_run = Ok [[]] ∧
  match greedy_run with
  | Ok (_, s) => Update.get_num_unfinished_requests s = 1 ∧ num_tokens <$> sc_objs s !! 1 = Some 8 ∧
      status <$> sc_objs s !! 1 = Some RUNNING
  | Raise _ => False
  end.
Proof. split; [vm_compute; reflexivity|]. vm_compute. auto. Qed.

(** *** A request passed over *)
Definition prio_conf : Config := demo_conf PRIORITY 4 64 64 2 None.
Definition prio_start : list SchedulerOutput * Scheduler := ([], demo_start prio_conf "priority").
Definition prio_x : Request := demo_new "x" 13 9 1 1 (demo_sampling 16 0) None None false.
Definition prio_y : Request := demo_new "y" 12 1 2 2 (demo_sampling 16 0) None None false.
Definition prio_z : Request := demo_new "z" 12 1 3 3 (demo_sampling 16 0) None None false.
Definition prio_run : res (list SchedulerOutput * Scheduler) :=
  demo_run prio_conf None
    [DAdd 1 prio_x; DSchedule; DAdd 2 prio_y; DAdd 3 prio_z; DSchedule; DOutput [("x", [5])]; DSchedule;
     DOutput [("y", [5]); ("z", [5])]; DSchedule] prio_start.

(** Under the priority policy the request preempted may stand before the current
    one without having been scheduled (here [x], whose token is in flight).  It is
    removed from the running list, but the index is moved back only for scheduled
    requests: the next request ([z]) is passed over, although it is ready, the
    budget is 63 tokens and three blocks are free. *)
Theorem preemption_passes_over_request :
  match prio_run with
  | Ok ([_; o], s) =>
      so_num_scheduled_tokens o = [("y", 1)] ∧ so_preempted_req_ids o = {[ "x" ]} ∧
      sc_running s = [2; 3] ∧ num_free_blocks (pool_queue (c_pool (km_coord (sc_kv s)))) = 3 ∧
      (λ r, num_tokens r - num_computed_tokens r) <$> sc_objs s !! 3 = Some 1
  | _ => False
  end.
Proof. vm_compute. auto. Qed.

(** *** Streaming sessions *)
Definition session_of (rid : string) (arrival oid : Z) : Request :=
  demo_new rid 4 0 arrival oid (demo_sampling 1 0) None None true.
Definition session_run : res (list SchedulerOutput * Scheduler) :=
  demo_run prio_conf None
    [DAdd 1 (session_of "a" 1 1); DAdd 2 (session_of "b" 2 2); DSchedule; DOutput [("a", [5]); ("b", [5])];
     DAdd 3 (session_of "a" 10 3); DAdd 4 (session_of "b" 5 4)] prio_start.

(** A session that waits for input stands in the heap of skipped requests; its next
    chunk of input changes its arrival time in place, and the heap is not
    restored: the queue serves [a] first, although [b] compares less. *)
Theorem session_update_breaks_heap :
  match session_run with
  | Ok (_, s) =>
      Queue.peek_request (sc_skipped_waiting s) = Ok 1 ∧
      Queue.items (sc_skipped_waiting s) = [1; 2] ∧ obj_lt (sc_objs s) 2 1 = true
  | Raise _ => False
  end.
Proof. vm_compute. auto. Qed.

(** A session with three computed tokens and a fourth one just sampled, which the
    next chunk of input discards; blocks of two tokens. *)
Definition session_hasher : option block_hasher := Some (request_block_hasher demo_hash demo_none 2).
Definition session_before : res Request :=
  r ← Request_init "s" 0 0 0 1 (Some [1; 2; 3]) None (demo_sampling 1 0) None None None None session_hasher true;
  (append_output_token_ids session_hasher [4] (set_num_computed_tokens 3 r)).1;;
  Ok (append_output_token_ids session_hasher [4] (set_num_computed_tokens 3 r)).2.
Definition session_next : StreamingUpdate := mkUpdate [] (Some [9; 9]) 1 0 None.

(** The sampled token completed a block, which was hashed; the update takes the
    token back but not the hash, and the block, which now holds the tokens 3 and 9,
    is still known under the hash of 3 and 4. *)
Theorem session_update_keeps_stale_hash :
  match session_before with
  | Ok r =>
      let r' := (Update.session_update session_hasher session_next r).2 in
      (Update.session_update session_hasher session_next r).1 = Ok tt ∧
      hashes_ok demo_hash demo_none r 2 ∧ all_token_ids r' = [1; 2; 3; 9; 9] ∧
      block_hashes r' = block_hashes r ∧ ¬ hashes_ok demo_hash demo_none r' 2
  | Raise _ => False
  end.
Proof. vm_compute. repeat split. congruence. Qed.
