(* ===== verification/SchedInv.v ===== *)
(** * The scheduler's invariant

    What the scheduler relies on in the KV-cache manager, as a class of promises
    ([KVPromises]), and the invariant of its own state: the table of requests, the
    running list and the queue agree, and every request's blocks are what its
    status says.  The scheduler is proved against the promises ([ScheduleSafe],
    [UpdateSafe]); the KV-cache manager keeps them ([KVKeeps]). *)
From S2P Require Import Prelude FreeQueue Request BlockHash BlockPool KVSpec Coordinator KVCacheManager.
From S2P Require Import EncoderCache RequestQueue SchedUtils SchedState Schedule SchedUpdate.

(** ** Dictionaries and lists *)
Section dicts.
Context {K V : Type} `{EqDecision K}.
Implicit Types d : list (K * V).

Lemma dict_get_None k d : dict_get k d = None ↔ k ∉ d.*1.
Proof.
  induction d as [|[k' v'] d IH]; simpl; [set_solver|]. rewrite not_elem_of_cons.
  destruct (decide (k' = k)) as [->|]; [naive_solver|]. rewrite IH. naive_solver.
Qed.

Lemma dict_get_is_Some k d : is_Some (dict_get k d) ↔ k ∈ d.*1.
Proof.
  rewrite <- not_eq_None_Some, dict_get_None. split; [|tauto]. intros H. destruct (decide (k ∈ d.*1)); tauto.
Qed.

Lemma dict_set_new k v d : k ∉ d.*1 → dict_set k v d = d ++ [(k, v)].
Proof.
  induction d as [|[k' v'] d IH]; simpl; [done|]. rewrite not_elem_of_cons. intros [Hne Hk].
  rewrite decide_False by done. by rewrite IH.
Qed.

Lemma dict_get_app k d d' : k ∉ d.*1 → dict_get k (d ++ d') = dict_get k d'.
Proof.
  induction d as [|[k' v'] d IH]; simpl; [done|]. rewrite not_elem_of_cons. intros [Hne Hk].
  rewrite decide_False by done. by apply IH.
Qed.

Lemma dict_get_set k k' v d : dict_get k' (dict_set k v d) = if decide (k' = k) then Some v else dict_get k' d.
Proof.
  induction d as [|[k0 v0] d IH]; simpl; [repeat case_decide; congruence|].
  destruct (decide (k0 = k)) as [->|]; simpl; [repeat case_decide; congruence|].
  rewrite IH. repeat case_decide; congruence.
Qed.

Lemma dict_get_del k k' d : dict_get k' (dict_del k d) = if decide (k' = k) then None else dict_get k' d.
Proof.
  unfold dict_del. induction d as [|[k0 v0] d IH]; [by case_decide|]. rewrite filter_cons. simpl.
  destruct (decide (k0 = k)) as [->|]; simpl.
  - rewrite decide_False by tauto. rewrite IH. repeat case_decide; congruence.
  - rewrite decide_True by done. simpl. rewrite IH. repeat case_decide; congruence.
Qed.

Lemma dict_del_fst k d : (dict_del k d).*1 = filter (λ x, x ≠ k) d.*1.
Proof.
  unfold dict_del. induction d as [|[k0 v0] d IH]; [done|]. rewrite fmap_cons, !filter_cons. cbn [fst].
  destruct (decide (k0 ≠ k)); rewrite <- ?IH; done.
Qed.
End dicts.

Lemma take_without {A} `{EqDecision A} n (l : list A) x v :
  x ∈ take n l → x ≠ v → x ∈ take n (filter (λ y, y ≠ v) l).
Proof.
  revert n. induction l as [|y l IH]; intros [|n]; simpl; try set_solver. rewrite filter_cons.
  intros [->|Hx]%elem_of_cons Hne; [rewrite decide_True by done; by left|].
  case_decide; [right; by apply IH|]. apply (IH (S n)); [|done].
  apply list_elem_of_lookup in Hx as [k [Hk Hlt]%lookup_take_Some].
  apply list_elem_of_lookup. exists k. apply lookup_take_Some. split; [done|lia].
Qed.

(** When the element removed stands before the index, the index moves back. *)
Lemma take_without_before {A} `{EqDecision A} n (l : list A) x v :
  NoDup l → x ∈ take n l → v ∈ take n l → x ≠ v → x ∈ take (n - 1) (filter (λ y, y ≠ v) l).
Proof.
  revert n. induction l as [|y l IH]; intros [|n] Hnd; simpl; try set_solver. rewrite filter_cons, Nat.sub_0_r.
  apply NoDup_cons in Hnd as [Hy Hnd]. intros Hx Hv Hne. destruct (decide (y = v)) as [->|Hyv].
  - rewrite decide_False by tauto. apply elem_of_cons in Hx as [?|Hx]; [done|]. by apply take_without.
  - rewrite decide_True by done. apply elem_of_cons in Hv as [?|Hv]; [congruence|]. destruct n as [|n].
    { simpl in Hv. set_solver. }
    apply elem_of_cons in Hx as [->|Hx]; [by left|]. right. specialize (IH (S n) Hnd Hx Hv Hne).
    simpl in IH. by rewrite Nat.sub_0_r in IH.
Qed.

(** [l.remove(x)] and [l.pop()] on lists without duplicates *)
Lemma list_remove_filter x (l : list Z) :
  x ∈ l → NoDup l → list_remove Z.eqb x l = Ok (filter (λ y, y ≠ x) l).
Proof.
  induction l as [|y l IH]; [set_solver|]. intros Hx [Hy Hnd]%NoDup_cons. simpl. rewrite filter_cons.
  destruct (Z.eqb_spec x y) as [->|Hne].
  - rewrite decide_False by tauto. f_equal. symmetry. apply filter_id. intros z Hz ->. done.
  - rewrite decide_True by done. rewrite IH; [done| |done]. set_solver.
Qed.

Lemma pop_filter x (l : list Z) :
  last l = Some x → NoDup l → take (length l - 1) l = filter (λ y, y ≠ x) l.
Proof.
  intros (l' & ->)%last_Some Hnd. apply NoDup_app in Hnd as (Hnd & Hx & _).
  rewrite length_app, Nat.add_sub. rewrite take_app_le, take_ge, filter_app by done.
  rewrite filter_id, filter_cons_False, filter_nil, app_nil_r; [done|tauto|].
  intros y Hy ->. apply (Hx _ Hy). by left.
Qed.

(** ** What the scheduler relies on *)

(** What the KV-cache manager reads of a request *)
Definition same_tokens (r r' : Request) : Prop :=
  request_id r' = request_id r ∧ all_token_ids r' = all_token_ids r ∧ block_hashes r' = block_hashes r ∧
  mm_features r' = mm_features r ∧ prompt_embeds r' = prompt_embeds r ∧
  prompt_embeds_per_block_hashes r' = prompt_embeds_per_block_hashes r ∧
  num_prompt_tokens r' = num_prompt_tokens r ∧ cache_salt r' = cache_salt r ∧
  lora_request r' = lora_request r ∧ skip_reading_prefix_cache r' = skip_reading_prefix_cache r.

(** A token appended to a request *)
Definition appended (t : Z) (r r' : Request) : Prop :=
  ∃ bh memo, r' = set_block_hashes bh (set_prompt_embeds_per_block_hashes memo
    (set_all_token_ids (all_token_ids r ++ [t]) (set_output_token_ids (output_token_ids r ++ [t]) r))).

(** A state of the manager, and what it holds for each request id: nothing
    ([kv_fresh]), or the blocks of the first tokens ([kv_holds]). *)
Class KVState := {
  kv_good : KVCacheManager → Prop;
  kv_fresh : KVCacheManager → string → Prop;
  kv_holds : KVCacheManager → string → Z → Prop;
  kv_hits : KVCacheManager → Request → KVCacheBlocks → Z → Prop;
  kv_request : Request → Prop;
}.

(** All requests but those in [P] keep what they have. *)
Definition kv_keeps `{KVState} (P : string → Prop) (k k' : KVCacheManager) : Prop :=
  ∀ q, ¬ P q → (kv_fresh k q → kv_fresh k' q) ∧ ∀ t, kv_holds k q t → kv_holds k' q t.

Abbreviation only rid := (λ q : string, q = rid).
Abbreviation nobody := (λ _ : string, False).

Class KVPromises `{KVState} (mml : Z) (hasher : option block_hasher) : Prop := {
  kp_same r r' : same_tokens r r' → kv_request r → kv_request r';
  kp_memo r r' : memo_frame r r' → kv_request r → kv_request r';
  kp_hits_same k r r' b n : same_tokens r r' → kv_hits k r b n → kv_hits k r' b n;
  kp_append r t : kv_request r → mm_features r = [] →
    wp (append_output_token_ids hasher [t]) (λ _ r', appended t r r' ∧ kv_request r') r;
  (** The search for hits leaves at least one token to compute. *)
  kp_computed k r : kv_good k → kv_request r → kv_fresh k (request_id r) → 1 ≤ num_tokens r →
    wp (KVManager.get_computed_blocks r) (λ '(b, n) k', kv_good k' ∧ kv_keeps nobody k k' ∧
      kv_hits k' r b n ∧ 0 ≤ n < num_tokens r) k;
  (** A new request gets its hits and [m] tokens more, or nothing. *)
  kp_new k r b n m gate : kv_good k → kv_request r → kv_fresh k (request_id r) → kv_hits k r b n →
    num_computed_tokens r = 0 → 0 < m → 0 ≤ n → n + m ≤ num_tokens r → num_tokens r ≤ mml →
    wp (KVManager.allocate_slots r m n (Some b) 0 0 false 0 gate 0) (λ '(o, r') k',
      kv_good k' ∧ memo_frame r r' ∧ kv_keeps (only (request_id r)) k k' ∧
      match o with
      | Some _ => kv_holds k' (request_id r) (n + m)
      | None => kv_fresh k' (request_id r)
      end) k;
  (** A running request gets [m] tokens more, or keeps what it has. *)
  kp_running k r m : kv_good k → kv_request r → kv_holds k (request_id r) (num_computed_tokens r) →
    0 ≤ num_computed_tokens r → 0 < m → num_computed_tokens r + m ≤ num_tokens r → num_tokens r ≤ mml →
    wp (KVManager.allocate_slots r m 0 None 0 0 false 0 false 0) (λ '(o, r') k',
      kv_good k' ∧ memo_frame r r' ∧ kv_keeps (only (request_id r)) k k' ∧
      match o with
      | Some _ => kv_holds k' (request_id r) (num_computed_tokens r + m)
      | None => kv_holds k' (request_id r) (num_computed_tokens r)
      end) k;
  kp_free k r : kv_good k →
    wp (KVManager.free r) (λ _ k', kv_good k' ∧ kv_keeps (only (request_id r)) k k' ∧
      kv_fresh k' (request_id r)) k;
  kp_prefix k rid t : kv_good k → kv_holds k rid t →
    wp (KVManager.get_num_common_prefix_blocks rid) (λ _ k', kv_good k' ∧ kv_keeps nobody k k') k;
  kp_step k : kv_good k → wp KVManager.new_step_starts (λ _ k', kv_good k' ∧ kv_keeps nobody k k') k;
  kp_zero k : kv_good k → wp KVManager.take_new_block_ids (λ _ k', kv_good k' ∧ kv_keeps nobody k k') k;
  kp_events k : kv_good k → wp KVManager.take_events (λ _ k', kv_good k' ∧ kv_keeps nobody k k') k;
  (** When nobody holds blocks the cache can be reset. *)
  kp_reset k : kv_good k → wp KVManager.reset_prefix_cache (λ b k', kv_good k' ∧ kv_keeps nobody k k' ∧
    ((∀ q, kv_fresh k q) → b = true)) k;
}.

Section keeps.
Context `{KVState}.

Lemma kv_keeps_refl P k : kv_keeps P k k.
Proof. by intros q _. Qed.

Lemma kv_keeps_trans P k1 k2 k3 : kv_keeps P k1 k2 → kv_keeps P k2 k3 → kv_keeps P k1 k3.
Proof.
  intros H1 H2 q Hq. destruct (H1 q Hq) as [A1 B1], (H2 q Hq) as [A2 B2]. split; [tauto|]. intros t Ht. auto.
Qed.

Lemma kv_keeps_nobody P k k' : kv_keeps nobody k k' → kv_keeps P k k'.
Proof. intros Hk q _. apply Hk. tauto. Qed.
End keeps.

(** ** The order of the queue *)
Definition same_key (r r' : Request) : Prop :=
  priority r' = priority r ∧ arrival_time r' = arrival_time r ∧ request_id r' = request_id r ∧ py_id r' = py_id r.

Lemma request_lt_same_key a a' b b' : same_key a a' → same_key b b' → request_lt a' b' = request_lt a b.
Proof.
  intros (A1&A2&A3&A4) (B1&B2&B3&B4). unfold request_lt. by rewrite A1, A2, A3, A4, B1, B2, B3, B4.
Qed.

Lemma obj_lt_asym objs a b : obj_lt objs a b = true → obj_lt objs b a = false.
Proof.
  unfold obj_lt. destruct (objs !! a), (objs !! b); try done. apply request_lt_asym.
Qed.

Lemma obj_ge_trans objs a b c :
  obj_lt objs b a = false → obj_lt objs c b = false → obj_lt objs c a = false.
Proof.
  unfold obj_lt. destruct (objs !! a), (objs !! b), (objs !! c); try done. apply request_ge_trans.
Qed.

(** Attributes that do not enter the comparison may change. *)
Definition same_keys (objs objs' : gmap Z Request) (l : list Z) : Prop :=
  ∀ i, i ∈ l → ∃ r r', objs !! i = Some r ∧ objs' !! i = Some r' ∧ same_key r r'.

Lemma queue_ok_ext objs objs' q :
  same_keys objs objs' (Queue.items q) → queue_ok (obj_lt objs) q → queue_ok (obj_lt objs') q.
Proof.
  destruct q as [l|h]; simpl; [done|]. intros Hs Hq i Hi Hp a b Ha Hb. specialize (Hq i Hi Hp a b Ha Hb).
  destruct (Hs a) as (ra & ra' & Ea & Ea' & Ka); [by eapply list_elem_of_lookup_2|].
  destruct (Hs b) as (rb & rb' & Eb & Eb' & Kb); [by eapply list_elem_of_lookup_2|].
  unfold obj_lt in *. rewrite Ea, Eb in Hq. rewrite Ea', Eb'. by rewrite (request_lt_same_key _ _ _ _ Kb Ka).
Qed.

(** ** The configurations and requests covered

    Generation on text, without speculative decoding, LoRA adapters, a KV
    connector or asynchronous scheduling; either policy, chunked prefill or not,
    any number of pipeline stages. *)
Record basic_config (cf : Config) : Prop := {
  bc_lora : cf_lora cf = None;
  bc_spec : cf_speculative cf = None;
  bc_mamba : cf_mamba_align cf = false;
  bc_async : cf_async_scheduling cf = false;
  bc_budget : 0 ≤ max_num_scheduled_tokens cf;
  bc_seqs : 0 ≤ cf_max_num_seqs cf;
}.

(** The tokens of a request, its limits, and what it does not use.  The output
    can reach [min_tokens] before the model's length is reached. *)
Record req_inv `{KVState} (mml : Z) (r : Request) : Prop := {
  ri_text : mm_features r = [];
  ri_grammar : use_structured_output r = false;
  ri_session : resumable r = false;
  ri_pooling : pooling_params (ext r) = None;
  ri_sampling : ∃ sp, sampling_params (ext r) = Some sp ∧ num_prompt_tokens r + sp_min_tokens sp ≤ mml;
  ri_drafts : spec_token_ids r = [];
  ri_placeholders : num_output_placeholders r = 0;
  ri_tokens : num_tokens r = num_prompt_tokens r + num_output_tokens r;
  ri_prompt : 1 ≤ num_prompt_tokens r;
  ri_len : num_tokens r < mml;
  ri_kv : kv_request r;
  ri_stats : prefill_stats (ext r) ≠ None → num_tokens r = num_prompt_tokens r;
  ri_alive : status_is_finished (status r) = false;
}.

(** Attributes that [req_inv] reads *)
Definition same_static (r r' : Request) : Prop :=
  same_tokens r r' ∧ use_structured_output r' = use_structured_output r ∧ resumable r' = resumable r ∧
  pooling_params (ext r') = pooling_params (ext r) ∧ sampling_params (ext r') = sampling_params (ext r) ∧
  spec_token_ids r' = [] ∧ num_output_placeholders r' = num_output_placeholders r ∧
  output_token_ids r' = output_token_ids r ∧ (prefill_stats (ext r') ≠ None → prefill_stats (ext r) ≠ None) ∧
  status_is_finished (status r') = false.

Lemma req_inv_same `{KVPromises mml hasher} r r' : same_static r r' → req_inv mml r → req_inv mml r'.
Proof.
  intros (Ht & E1 & E2 & E3 & E4 & E5 & E6 & E7 & E8 & E9) []. pose proof Ht as (F1&F2&F3&F4&F5&F6&F7&F8&F9&F10).
  split; try congruence.
  - by rewrite E4, F7.
  - unfold num_tokens, num_output_tokens. rewrite F2, F7, E7. done.
  - unfold num_tokens. by rewrite F2.
  - by eapply kp_same.
  - unfold num_tokens. rewrite F2, F7. auto.
Qed.

(** ** The invariant *)
Section invariant.
Context `{KVState} (mml : Z).

(** [adv id]: the tokens scheduled in this step and not yet counted as computed. *)
Definition running_ok (adv : string → Z) (s : Scheduler) (i : Z) : Prop :=
  ∃ r, sc_objs s !! i = Some r ∧ status r = RUNNING ∧ 0 ≤ num_computed_tokens r ∧
    0 ≤ adv (request_id r) ∧ num_computed_tokens r + adv (request_id r) ≤ num_tokens r ∧
    kv_holds (sc_kv s) (request_id r) (num_computed_tokens r + adv (request_id r)).

Definition waiting_ok (s : Scheduler) (i : Z) : Prop :=
  ∃ r, sc_objs s !! i = Some r ∧ (status r = WAITING ∨ status r = PREEMPTED) ∧
    num_computed_tokens r = 0 ∧ kv_fresh (sc_kv s) (request_id r).

(** The encoder cache knows of no request: all are text. *)
Definition enc_unused (e : EncoderManager) : Prop :=
  match e with EncoderOnly c => request_cached_ids c = ∅ | EncoderDecoder _ => True end.

(** [D]: requests that have stopped and stand in the lists until the end of the
    loop; [X]: requests taken from one list and not yet put into another. *)
Record inv (adv : string → Z) (D : gset Z) (X : list Z) (s : Scheduler) : Prop := {
  iv_keys : NoDup (sc_requests s).*1;
  iv_obj id i : (id, i) ∈ sc_requests s →
    ∃ r, sc_objs s !! i = Some r ∧ request_id r = id ∧ req_inv mml r;
  iv_parts : filter (λ i, i ∉ D) (X ++ sc_running s ++ Queue.items (sc_waiting s)) ≡ₚ (sc_requests s).*2;
  iv_nodup : NoDup (X ++ sc_running s ++ Queue.items (sc_waiting s));
  iv_skipped : Queue.items (sc_skipped_waiting s) = [];
  iv_queue : queue_ok (obj_lt (sc_objs s)) (sc_waiting s);
  iv_exists i : i ∈ X ++ sc_running s ++ Queue.items (sc_waiting s) → is_Some (sc_objs s !! i);
  iv_running i : i ∈ sc_running s → i ∉ D → running_ok adv s i;
  iv_waiting i : i ∈ Queue.items (sc_waiting s) → i ∉ D → waiting_ok s i;
  iv_good : kv_good (sc_kv s);
  iv_enc : enc_unused (sc_enc s);
  iv_fresh q : q ∉ (sc_requests s).*1 → kv_fresh (sc_kv s) q;
  (** No request is lost: one that is not finished is in the table. *)
  iv_alive i r : sc_objs s !! i = Some r → status_is_finished (status r) = false → (request_id r, i) ∈ sc_requests s;
}.

(** A preempted request that waits was not scheduled in the last step. *)
Definition prev_ok (s : Scheduler) : Prop :=
  ∀ i r, i ∈ Queue.items (sc_waiting s) → sc_objs s !! i = Some r → status r = PREEMPTED →
    request_id r ∉ sc_prev_step_scheduled_req_ids s.
End invariant.

(** ** Reading and changing the state *)
Section changes.
Context `{KV : KVPromises mml hasher}.
Implicit Types (s : Scheduler) (adv : string → Z) (D : gset Z) (X : list Z).

Lemma inv_table adv D X s i :
  inv mml adv D X s → i ∈ X ++ sc_running s ++ Queue.items (sc_waiting s) → i ∉ D →
  ∃ r, sc_objs s !! i = Some r ∧ (request_id r, i) ∈ sc_requests s ∧ req_inv mml r.
Proof.
  intros I Hi HD. assert (Hin : i ∈ (sc_requests s).*2).
  { rewrite <- (iv_parts _ _ _ _ _ I). by apply list_elem_of_filter. }
  apply list_elem_of_fmap in Hin as ([id i'] & -> & Hin). simpl in *.
  destruct (iv_obj _ _ _ _ _ I id i' Hin) as (r & Hr & <- & Hri). by exists r.
Qed.

Lemma inv_same_id adv D X s id i j :
  inv mml adv D X s → (id, i) ∈ sc_requests s → (id, j) ∈ sc_requests s → i = j.
Proof.
  intros I Hi Hj. pose proof (iv_keys _ _ _ _ _ I) as Hnd.
  apply dict_get_elem in Hi, Hj; [congruence|done..].
Qed.

Lemma inv_obj_id adv D X s i j ri rj :
  inv mml adv D X s → (request_id ri, i) ∈ sc_requests s → (request_id rj, j) ∈ sc_requests s →
  request_id ri = request_id rj → i = j.
Proof. intros I Hi Hj E. rewrite E in Hi. by eapply inv_same_id. Qed.

(** An object changes. *)
Lemma inv_upd adv D X s i r r' :
  inv mml adv D X s → sc_objs s !! i = Some r → same_key r r' → (req_inv mml r → req_inv mml r') →
  (status_is_finished (status r') = false → (request_id r, i) ∈ sc_requests s) →
  let s' := sc_set_objs (<[i := r']> (sc_objs s)) s in
  (i ∈ sc_running s → i ∉ D → running_ok adv s i → running_ok adv s' i) →
  (i ∈ Queue.items (sc_waiting s) → i ∉ D → waiting_ok s i → waiting_ok s' i) →
  inv mml adv D X s'.
Proof.
  intros I Hi Hkey Hreq Halive s' Hrun Hwait. pose proof Hkey as (_ & _ & Eid & _). destruct I. split; simpl; try done.
  - intros id j Hj. destruct (iv_obj0 id j Hj) as (rj & Hrj & Hid & Hreqj).
    destruct (decide (j = i)) as [->|Hne].
    + rewrite Hi in Hrj. injection Hrj as <-. exists r'. rewrite lookup_insert_eq. split_and!; [done|congruence|auto].
    + exists rj. by rewrite lookup_insert_ne.
  - eapply queue_ok_ext; [|done]. intros j Hj. destruct (iv_exists0 j) as [rj Hrj]; [set_solver|].
    destruct (decide (j = i)) as [->|Hne].
    + rewrite Hi in Hrj. injection Hrj as <-. exists r, r'. by rewrite lookup_insert_eq.
    + exists rj, rj. by rewrite lookup_insert_ne.
  - intros j Hj. destruct (decide (j = i)) as [->|Hne]; [by rewrite lookup_insert_eq|].
    rewrite lookup_insert_ne by done. auto.
  - intros j Hj HD. destruct (decide (j = i)) as [->|Hne]; [auto|].
    destruct (iv_running0 j Hj HD) as (rj & Hrj & H'). exists rj. simpl. by rewrite lookup_insert_ne.
  - intros j Hj HD. destruct (decide (j = i)) as [->|Hne]; [auto|].
    destruct (iv_waiting0 j Hj HD) as (rj & Hrj & H'). exists rj. simpl. by rewrite lookup_insert_ne.
  - intros j rj. destruct (decide (j = i)) as [->|Hne]; [|rewrite lookup_insert_ne by done; apply iv_alive0].
    rewrite lookup_insert_eq. intros [= <-] Hal. rewrite Eid. by apply Halive.
Qed.

(** Only the tokens counted as scheduled change. *)
Lemma inv_adv adv adv' D X s :
  inv mml adv D X s →
  (∀ i r, i ∈ sc_running s → i ∉ D → sc_objs s !! i = Some r → adv' (request_id r) = adv (request_id r)) →
  inv mml adv' D X s.
Proof.
  intros [] He. split; try done. intros i Hi HD. destruct (iv_running0 i Hi HD) as (r & Hr & H').
  exists r. split; [done|]. by rewrite (He i r).
Qed.

(** The KV-cache manager changes what it holds for one request. *)
Lemma inv_kv adv adv' D X s k' rid :
  inv mml adv D X s → kv_good k' → kv_keeps (only rid) (sc_kv s) k' → (∀ q, q ≠ rid → adv' q = adv q) →
  (rid ∉ (sc_requests s).*1 → kv_fresh k' rid) →
  (∀ i r, i ∈ sc_running s → i ∉ D → sc_objs s !! i = Some r → request_id r = rid →
     running_ok adv s i → running_ok adv' (sc_set_kv k' s) i) →
  (∀ i r, i ∈ Queue.items (sc_waiting s) → i ∉ D → sc_objs s !! i = Some r → request_id r = rid →
     waiting_ok s i → kv_fresh k' rid) →
  inv mml adv' D X (sc_set_kv k' s).
Proof.
  intros I Hg Hk Hadv Hnot Hrun Hwait. destruct I. split; simpl; try done.
  - intros i Hi HD. pose proof (iv_running0 i Hi HD) as Hok. destruct Hok as (r & Hr & Hst & Hc & Ha & Hle & Hh).
    destruct (decide (request_id r = rid)) as [<-|Hne].
    + eapply Hrun; try done. by exists r.
    + exists r. simpl. rewrite Hadv by done. split_and!; try done. by apply Hk.
  - intros i Hi HD. pose proof (iv_waiting0 i Hi HD) as Hok. destruct Hok as (r & Hr & Hst & Hc & Hf).
    exists r. simpl. split_and!; try done. destruct (decide (request_id r = rid)) as [<-|Hne].
    + eapply Hwait; try done. by exists r.
    + by apply Hk.
  - intros q Hq. destruct (decide (q = rid)) as [->|Hne]; [auto|]. by apply Hk, iv_fresh0.
Qed.

Lemma inv_kv_nobody adv D X s k' :
  inv mml adv D X s → kv_good k' → kv_keeps nobody (sc_kv s) k' → inv mml adv D X (sc_set_kv k' s).
Proof.
  intros [] Hg Hk. split; simpl; try done.
  - intros i Hi HD. destruct (iv_running0 i Hi HD) as (r & Hr & Hst & Hc & Ha & Hle & Hh).
    exists r. split_and!; try done. by apply (Hk _ (λ f, f)).
  - intros i Hi HD. destruct (iv_waiting0 i Hi HD) as (r & Hr & Hst & Hc & Hf).
    exists r. split_and!; try done. by apply (Hk _ (λ f, f)).
  - intros q Hq. by apply (Hk _ (λ f, f)), iv_fresh0.
Qed.

(** A request leaves the running list, or enters it. *)
Lemma filter_out_cons (p : Z) (l : list Z) :
  p ∈ l → NoDup l → p :: filter (λ i, i ≠ p) l ≡ₚ l.
Proof.
  intros (l1 & l2 & ->)%list_elem_of_split Hnd. apply NoDup_app in Hnd as (Hnd1 & Hd & [Hp Hnd2]%NoDup_cons).
  rewrite filter_app, filter_cons_False by tauto.
  rewrite !filter_id; [by rewrite Permutation_middle|set_solver|set_solver].
Qed.

Lemma inv_leave_running adv D X s p :
  inv mml adv D X s → p ∈ sc_running s →
  inv mml adv D (p :: X) (sc_set_running (filter (λ i, i ≠ p) (sc_running s)) s).
Proof.
  intros I Hp. pose proof (iv_nodup _ _ _ _ _ I) as Hnd.
  assert (Hperm : p :: X ++ filter (λ i, i ≠ p) (sc_running s) ++ Queue.items (sc_waiting s) ≡ₚ
                  X ++ sc_running s ++ Queue.items (sc_waiting s)).
  { rewrite <- (filter_out_cons p (sc_running s)) at 2; [by rewrite Permutation_middle|done|].
    by apply NoDup_app in Hnd as (_ & _ & [? _]%NoDup_app). }
  destruct I. split; simpl; try done.
  - rewrite <- iv_parts0. apply filter_Permutation, Hperm.
  - by rewrite Hperm.
  - intros i Hi. apply iv_exists0. by rewrite <- Hperm.
  - intros i Hi HD. apply list_elem_of_filter in Hi as [_ Hi]. by apply iv_running0.
Qed.

Lemma inv_enter_running adv D X s i :
  inv mml adv D (i :: X) s → (i ∉ D → running_ok adv s i) →
  inv mml adv D X (sc_set_running (sc_running s ++ [i]) s).
Proof.
  intros I Hi.
  assert (Hperm : X ++ (sc_running s ++ [i]) ++ Queue.items (sc_waiting s) ≡ₚ
                  i :: X ++ sc_running s ++ Queue.items (sc_waiting s)).
  { rewrite (Permutation_app_comm (sc_running s) [i]). simpl. by rewrite <- Permutation_middle. }
  destruct I. split; simpl in *; try done.
  - rewrite <- iv_parts0. apply filter_Permutation, Hperm.
  - by rewrite Hperm.
  - intros j Hj. apply iv_exists0. by rewrite <- Hperm.
  - intros j Hj HD. apply elem_of_app in Hj as [Hj|Ej%list_elem_of_singleton]; [by apply iv_running0|subst j; by apply Hi].
Qed.

(** A request enters the queue, or leaves it. *)
Lemma inv_enter_waiting adv D X s p q' :
  inv mml adv D (p :: X) s → Queue.items q' ≡ₚ p :: Queue.items (sc_waiting s) →
  queue_ok (obj_lt (sc_objs s)) q' → (p ∉ D → waiting_ok s p) →
  inv mml adv D X (sc_set_waiting q' s).
Proof.
  intros I Hq Hok Hp.
  assert (Hperm : X ++ sc_running s ++ Queue.items q' ≡ₚ p :: X ++ sc_running s ++ Queue.items (sc_waiting s)).
  { rewrite Hq. rewrite <- Permutation_middle. by rewrite <- Permutation_middle. }
  destruct I. split; simpl in *; try done.
  - rewrite <- iv_parts0. apply filter_Permutation, Hperm.
  - by rewrite Hperm.
  - intros j Hj. apply iv_exists0. by rewrite <- Hperm.
  - intros j Hj HD. rewrite Hq in Hj. apply elem_of_cons in Hj as [->|Hj]; [by apply Hp|by apply iv_waiting0].
Qed.

Lemma inv_leave_waiting adv D X s p q' :
  inv mml adv D X s → Queue.items (sc_waiting s) ≡ₚ p :: Queue.items q' →
  queue_ok (obj_lt (sc_objs s)) q' →
  inv mml adv D (p :: X) (sc_set_waiting q' s).
Proof.
  intros I Hq Hok.
  assert (Hperm : p :: X ++ sc_running s ++ Queue.items q' ≡ₚ X ++ sc_running s ++ Queue.items (sc_waiting s)).
  { rewrite Hq. rewrite <- (Permutation_middle (sc_running s)). by rewrite <- Permutation_middle. }
  destruct I. split; simpl in *; try done.
  - rewrite <- iv_parts0. apply filter_Permutation, Hperm.
  - by rewrite Hperm.
  - intros j Hj. apply iv_exists0. by rewrite <- Hperm.
  - intros j Hj HD. apply iv_waiting0; [|done]. rewrite Hq. by right.
Qed.
End changes.
