(* ===== verification/ScheduleSafe.v ===== *)
(** * A scheduling step is safe

    [Scheduler.schedule] from a state that satisfies the invariant: it does not
    raise, keeps the invariant, and what it schedules is within the budgets. *)
From S2P Require Import Prelude FreeQueue Request BlockHash BlockPool KVSpec Coordinator KVCacheManager.
From S2P Require Import EncoderCache RequestQueue SchedUtils SchedState Schedule SchedUpdate SchedInv.

(** ** Symbolic execution of the scheduler's primitives *)
Section primitives.
Implicit Types s : Scheduler.

Lemma wp_obj i r (Q : Request → Scheduler → Prop) s :
  sc_objs s !! i = Some r → Q r s → wp (obj i) Q s.
Proof. intros Hr HQ. unfold obj. wp_step. apply wp_of_opt. by exists r. Qed.

Lemma wp_set_obj i r (Q : () → Scheduler → Prop) s :
  Q tt (sc_set_objs (<[i := r]> (sc_objs s)) s) → wp (set_obj i r) Q s.
Proof. done. Qed.

Lemma wp_upd i f r (Q : () → Scheduler → Prop) s :
  sc_objs s !! i = Some r → Q tt (sc_set_objs (<[i := f r]> (sc_objs s)) s) → wp (upd i f) Q s.
Proof. intros Hr HQ. unfold upd. wp_step. by eapply wp_obj. Qed.

(** Once more the same object *)
Lemma wp_upd_again i f r O (Q : () → Scheduler → Prop) s :
  Q tt (sc_set_objs (<[i := f r]> O) s) → wp (upd i f) Q (sc_set_objs (<[i := r]> O) s).
Proof.
  intros HQ. eapply wp_upd; [apply lookup_insert_eq|]. simpl. by rewrite insert_insert_eq.
Qed.

Lemma wp_of_res {A} (x : res A) a (Q : A → Scheduler → Prop) s : x = Ok a → Q a s → wp (of_res x) Q s.
Proof. by intros ->. Qed.

Lemma wp_some {A} e (o : option A) a (Q : A → Scheduler → Prop) s :
  o = Some a → Q a s → wp (of_opt e o) Q s.
Proof. by intros ->. Qed.

Lemma wp_on_kv {A} (op : M KVCacheManager A) (Q : A → Scheduler → Prop) s :
  wp op (λ a k, Q a (sc_set_kv k s)) (sc_kv s) → wp (on_kv op) Q s.
Proof. unfold on_kv. by rewrite wp_zoom. Qed.

Lemma q_prepend_spec w i s :
  queue_ok (obj_lt (sc_objs s)) (get_queue w s) →
  wp (q_prepend w i) (λ _ s', ∃ q', s' = set_queue w q' s ∧ queue_ok (obj_lt (sc_objs s)) q' ∧
    Queue.items q' ≡ₚ i :: Queue.items (get_queue w s)) s.
Proof.
  intros Hq. unfold q_prepend. wp_step.
  destruct (prepend_request_spec (obj_lt (sc_objs s)) (obj_lt_asym _) (obj_ge_trans _) _ i Hq)
    as (q' & E & Hq' & _ & Hp).
  eapply wp_of_res; [exact E|]. wp_step. by exists q'.
Qed.

Lemma q_add_spec w i s :
  queue_ok (obj_lt (sc_objs s)) (get_queue w s) →
  wp (q_add w i) (λ _ s', ∃ q', s' = set_queue w q' s ∧ queue_ok (obj_lt (sc_objs s)) q' ∧
    Queue.items q' ≡ₚ i :: Queue.items (get_queue w s)) s.
Proof.
  intros Hq. unfold q_add. wp_step.
  destruct (add_request_spec (obj_lt (sc_objs s)) (obj_lt_asym _) (obj_ge_trans _) _ i Hq)
    as (q' & E & Hq' & _ & Hp).
  eapply wp_of_res; [exact E|]. wp_step. by exists q'.
Qed.

Lemma q_pop_spec w i s :
  queue_ok (obj_lt (sc_objs s)) (get_queue w s) → Queue.peek_request (get_queue w s) = Ok i →
  wp (q_pop w) (λ j s', j = i ∧ ∃ q', s' = set_queue w q' s ∧ queue_ok (obj_lt (sc_objs s)) q' ∧
    Queue.items (get_queue w s) ≡ₚ i :: Queue.items q') s.
Proof.
  intros Hq Hpeek. unfold q_pop. wp_step.
  destruct (pop_request_spec (obj_lt (sc_objs s)) (obj_lt_asym _) (obj_ge_trans _) _ Hq)
    as (j & q' & E & Hj & Hq' & _ & Hp & _).
  { intros E. unfold Queue.peek_request in Hpeek. by rewrite E in Hpeek. }
  rewrite Hpeek in Hj. injection Hj as <-. eapply wp_of_res; [exact E|]. wp_step. split; [done|]. by exists q'.
Qed.
End primitives.

(** What a step leaves alone until its end *)
Definition same_env (s s' : Scheduler) : Prop :=
  sc_requests s' = sc_requests s ∧ sc_prev_step_scheduled_req_ids s' = sc_prev_step_scheduled_req_ids s ∧
  sc_pause_state s' = sc_pause_state s.

#[export] Instance same_env_preorder : PreOrder same_env.
Proof. split; [done|]. unfold same_env. intros s1 s2 s3. intuition congruence. Qed.

(** ** What a step has scheduled so far *)
Definition scheduled (st : StepState) : list Z := st_running st ++ st_new st ++ st_resumed st.

Definition adv_of (st : StepState) (id : string) : Z := default 0 (dict_get id (st_num st)).

(** [B] tokens were available at the start of the step. *)
Record step_inv (B : Z) (s : Scheduler) (st : StepState) : Prop := {
  sv_nodup : NoDup (scheduled st);
  sv_sub i : i ∈ scheduled st → i ∈ sc_running s;
  sv_keys : NoDup (st_num st).*1;
  sv_num id n : (id, n) ∈ st_num st → 0 < n ∧ ∃ i, (id, i) ∈ sc_requests s ∧ i ∈ scheduled st;
  sv_has i : i ∈ scheduled st →
    ∃ id, (id, i) ∈ sc_requests s ∧ id ∈ (st_num st).*1 ∧ id ∈ (st_blocks st).*1;
  sv_budget : Sched.sum_values (st_num st) + st_budget st = B ∧ 0 ≤ st_budget st;
  sv_enc : st_enc_inputs st = [];
  sv_spec : st_spec st = [];
  sv_preempted p : p ∈ st_preempted st → p ∈ Queue.items (sc_waiting s);
}.

Lemma sum_values_app d d' : Sched.sum_values (d ++ d') = Sched.sum_values d + Sched.sum_values d'.
Proof. unfold Sched.sum_values. induction d as [|kv d IH]; simpl; lia. Qed.

Lemma sum_values_set k v d : k ∉ d.*1 → Sched.sum_values (dict_set k v d) = Sched.sum_values d + v.
Proof. intros Hk. rewrite dict_set_new, sum_values_app by done. unfold Sched.sum_values. simpl. lia. Qed.

Lemma sum_values_del k v d :
  NoDup d.*1 → (k, v) ∈ d → Sched.sum_values (dict_del k d) = Sched.sum_values d - v.
Proof.
  unfold Sched.sum_values, dict_del. induction d as [|[k' v'] d IH]; [set_solver|].
  intros [Hk' Hnd]%NoDup_cons [[= -> ->]|Hin]%elem_of_cons; rewrite filter_cons; simpl.
  - rewrite decide_False by tauto. rewrite filter_id; [lia|]. intros [k0 v0] Hin. simpl. intros ->.
    apply Hk'. apply list_elem_of_fmap. by exists (k', v0).
  - rewrite decide_True by (intros ->; apply Hk', list_elem_of_fmap; by exists (k, v)).
    simpl. rewrite IH by done. lia.
Qed.

Lemma adv_of_elem st id n : NoDup (st_num st).*1 → (id, n) ∈ st_num st → adv_of st id = n.
Proof. intros Hnd Hin. unfold adv_of. by rewrite (proj2 (dict_get_elem _ _ _ Hnd) Hin). Qed.

Section safe.
Context (cf : Config) (Hcf : basic_config cf) (hasher : option block_hasher).
Abbreviation mml := (cf_max_model_len cf).
Context `{KVS : KVState} `{KV : !KVPromises mml hasher}.
Context (gr : GrammarOps) (set_iter : gset nat → list nat) (Hiter : ∀ X, set_iter X ≡ₚ elements X).
Implicit Types (s : Scheduler) (st : StepState).

Lemma no_lookahead : num_lookahead_tokens cf = 0.
Proof. unfold num_lookahead_tokens. by rewrite (bc_spec _ Hcf). Qed.

Lemma no_eagle : use_eagle cf = false.
Proof. unfold use_eagle. by rewrite (bc_spec _ Hcf). Qed.

(** ** Objects that stand in no list *)
Lemma inv_upd_detached adv D X s i r r' :
  inv mml adv D (i :: X) s → sc_objs s !! i = Some r → same_key r r' → (req_inv mml r → req_inv mml r') →
  (request_id r, i) ∈ sc_requests s → inv mml adv D (i :: X) (sc_set_objs (<[i := r']> (sc_objs s)) s).
Proof.
  intros I Hi Hk Hr Htab. pose proof (iv_nodup _ _ _ _ _ I) as Hnd. simpl in Hnd. apply NoDup_cons in Hnd as [Hn _].
  eapply inv_upd; [done..| |]; intros Hin; exfalso; apply Hn; set_solver.
Qed.

Lemma inv_obj adv D X s id i r :
  inv mml adv D X s → (id, i) ∈ sc_requests s → sc_objs s !! i = Some r → request_id r = id.
Proof. intros I Htab Hr. destruct (iv_obj _ _ _ _ _ I id i Htab) as (r' & Hr' & <- & _). by simplify_eq. Qed.

Lemma inv_inflight adv D X s v : inv mml adv D X s → inv mml adv D X (sc_set_inflight_prefills v s).
Proof. intros []. by split. Qed.

(** The encoder cache has nothing to give back. *)
Lemma enc_free_spec s r (Q : () → Scheduler → Prop) :
  enc_unused (sc_enc s) → mm_features r = [] → (∀ s', s' = sc_set_enc (sc_enc s) s → Q tt s') →
  wp (enc_free set_iter r) Q s.
Proof.
  intros He Hr HQ. unfold enc_free, on_enc, wp.
  destruct (sc_enc s) as [c|c] eqn:Ee; simpl in *.
  - assert (E : Encoder.free set_iter r c = (Ok tt, c)).
    { unfold Encoder.free, Encoder.get_cached_input_ids, gets, mbind, M_bind. rewrite He, lookup_empty. simpl.
      assert (set_iter ∅ = []) as ->; [|done]. apply Permutation_nil. by rewrite (Hiter ∅), elements_empty. }
    rewrite E. by apply HQ.
  - assert (E : EncDec.free r c = (Ok tt, c)) by (unfold EncDec.free; by rewrite Hr).
    rewrite E. by apply HQ.
Qed.

(** ** Preemption *)
Lemma preempt_spec adv adv' X s p r :
  inv mml adv ∅ (p :: X) s → sc_objs s !! p = Some r → status r = RUNNING →
  (∀ q, q ≠ request_id r → adv' q = adv q) →
  wp (Sched._preempt_request set_iter p) (λ _ s', inv mml adv' ∅ X s' ∧ same_env s s' ∧
    sc_running s' = sc_running s ∧ (∀ j, j ≠ p → sc_objs s' !! j = sc_objs s !! j) ∧
    Queue.items (sc_waiting s') ≡ₚ p :: Queue.items (sc_waiting s)) s.
Proof.
  intros I Hr Hst Hadv. unfold Sched._preempt_request. wp_step. eapply wp_obj; [done|]. wp_step.
  split; [by apply bool_decide_eq_true|].
  destruct (inv_table _ _ _ _ p I) as (r0 & Hr0 & Htab & Hreq); [set_solver|set_solver|]. simplify_eq.
  assert (Hin : request_id r ∈ (sc_requests s).*1) by (apply list_elem_of_fmap; by exists (request_id r, p)).
  eapply wp_on_kv, wp_mono; [by apply kp_free, (iv_good _ _ _ _ _ I)|]. intros [] k' (Hg & Hk & Hf).
  assert (I1 : inv mml adv' ∅ (p :: X) (sc_set_kv k' s)).
  { pose proof (iv_nodup _ _ _ _ _ I) as Hnd. simpl in Hnd. apply NoDup_cons in Hnd as [Hn _].
    eapply inv_kv; [done..| |]; intros i ri Hi _ Hri Eid; exfalso; apply Hn;
      (destruct (inv_table _ _ _ _ i I) as (? & ? & Hi' & _); [set_solver|set_solver|]; simplify_eq;
       rewrite <- (inv_obj_id _ _ _ _ i p _ _ I Hi' Htab Eid); set_solver). }
  wp_step. eapply enc_free_spec; [apply I1|apply Hreq|]. intros s2 ->. wp_step.
  set (s1 := sc_set_inflight_prefills _ _). assert (I2 : inv mml adv' ∅ (p :: X) s1) by by apply inv_inflight.
  assert (Hr1 : sc_objs s1 !! p = Some r) by done.
  eapply wp_upd; [done|]. wp_step. do 3 (apply wp_upd_again; wp_step). set (r' := set_num_preemptions _ _).
  assert (I3 : inv mml adv' ∅ (p :: X) (sc_set_objs (<[p := r']> (sc_objs s1)) s1)).
  { eapply inv_upd_detached; [done|done|done| |done]. apply req_inv_same. split; [by repeat split|]. by repeat split. }
  eapply wp_mono; [apply q_prepend_spec, (iv_queue _ _ _ _ _ I3)|]. intros [] s4 (q' & -> & Hq' & Hp).
  split_and!.
  - eapply inv_enter_waiting; [done|exact Hp|done|]. intros _. exists r'. simpl.
    split_and!; [apply lookup_insert_eq|by right|done|done].
  - done.
  - done.
  - intros j Hj. simpl. by rewrite lookup_insert_ne.
  - done.
Qed.

(** ** The choice of a victim *)
Lemma max_by_elem gt best l : Sched.max_by gt best l ∈ best :: l.
Proof.
  revert best. induction l as [|x l IH]; intros best; simpl; [by left|].
  destruct (proj1 (elem_of_cons _ _ _) (IH (if gt x best then x else best))) as [E|?]; [|set_solver].
  rewrite E. destruct (gt x best); set_solver.
Qed.

(** A scheduled request gives back what it was given. *)
Lemma unschedule_spec B s st p :
  inv mml (adv_of st) ∅ [] s → step_inv B s st → p ∈ st_running st → st_new st = [] → st_resumed st = [] →
  let s' := sc_set_running (filter (λ i, i ≠ p) (sc_running s)) s in
  wp (Sched.unschedule p st) (λ st' s'', s'' = s' ∧ step_inv B s' st' ∧
    (∀ r, sc_objs s !! p = Some r → ∀ q, q ≠ request_id r → adv_of st' q = adv_of st q) ∧
    st_new st' = [] ∧ st_resumed st' = [] ∧ st_preempted st' = st_preempted st ∧
    st_running st' = filter (λ i, i ≠ p) (st_running st) ∧ st_index st' = st_index st - 1 ∧
    st_budget st ≤ st_budget st') s'.
Proof.
  intros I [H1 H2 H3 H4 H5 [H6 H6'] H7 H8 H9] Hp En Er s'. unfold scheduled in *. rewrite En, Er, !app_nil_r in *.
  destruct (inv_table _ _ _ _ p I) as (r & Hr & Htab & Hreq); [|done|].
  { apply elem_of_app. right. apply elem_of_app. left. auto. }
  destruct (H5 p Hp) as (id & Hid & Hnum & Hblk).
  assert (id = request_id r) as ->.
  { destruct (iv_obj _ _ _ _ _ I id p Hid) as (r' & Hr' & <- & _). by simplify_eq. }
  unfold Sched.unschedule. wp_step. eapply wp_obj; [done|]. wp_step.
  eapply wp_of_res; [by apply list_remove_filter|]. wp_step.
  apply dict_get_is_Some in Hnum as [n Hn]. eapply wp_some; [done|]. wp_step.
  apply dict_get_is_Some in Hblk as [b Hb]. eapply wp_some; [done|]. wp_step.
  rewrite H7. simpl. wp_step. apply dict_get_elem in Hn as Hn'; [|done].
  split; [done|]. destruct (H4 _ _ Hn') as [Hpos _]. split_and!; try done; [| |simpl; lia].
  2: { unfold adv_of. intros r' Hr' q Hq. simpl in *. simplify_eq. by rewrite dict_get_del, decide_False. }
  split; unfold scheduled; simpl; rewrite ?En, ?Er, ?app_nil_r; try done.
  - by apply NoDup_filter.
  - intros i Hi. apply list_elem_of_filter in Hi as [? Hi]. apply list_elem_of_filter. auto.
  - rewrite dict_del_fst. by apply NoDup_filter.
  - intros id' n' Hin. apply list_elem_of_filter in Hin as [Hne Hin]. simpl in Hne.
    destruct (H4 _ _ Hin) as (Hpos' & i & Hi & Hsch). split; [done|]. exists i. split; [done|].
    apply list_elem_of_filter. split; [|done]. intros ->. apply Hne.
    destruct (iv_obj _ _ _ _ _ I id' p Hi) as (r' & Hr' & <- & _). by simplify_eq.
  - intros i Hi. apply list_elem_of_filter in Hi as [Hne Hi]. destruct (H5 i Hi) as (id' & Hid' & Hn1 & Hb1).
    exists id'. assert (id' ≠ request_id r) by (intros ->; apply Hne; by eapply inv_same_id).
    rewrite !dict_del_fst, !list_elem_of_filter. done.
  - rewrite (sum_values_del _ n) by done. lia.
  - by rewrite H8.
Qed.

Lemma take_victim_spec B s st :
  inv mml (adv_of st) ∅ [] s → step_inv B s st → st_new st = [] → st_resumed st = [] → sc_running s ≠ [] →
  (cf_policy cf = FCFS → ∀ x, last (sc_running s) = Some x → x ∉ st_running st) →
  wp (Sched.take_victim cf st) (λ '(p, st') s',
    p ∈ sc_running s ∧ s' = sc_set_running (filter (λ i, i ≠ p) (sc_running s)) s ∧ step_inv B s' st' ∧
    (∀ r, sc_objs s !! p = Some r → ∀ q, q ≠ request_id r → adv_of st' q = adv_of st q) ∧
    st_new st' = [] ∧ st_resumed st' = [] ∧ st_preempted st' = st_preempted st ∧
    (if decide (p ∈ st_running st)
     then cf_policy cf = PRIORITY ∧ st_running st' = filter (λ i, i ≠ p) (st_running st) ∧ st_index st' = st_index st - 1
     else st' = st) ∧
    (cf_policy cf = FCFS → last (sc_running s) = Some p) ∧ st_budget st ≤ st_budget st') s.
Proof.
  intros I Hsv En Er Hne Hlast. pose proof (iv_nodup _ _ _ _ _ I) as Hnd. simpl in Hnd. apply NoDup_app in Hnd as [Hnd _].
  assert (Hkeep : ∀ p, p ∉ st_running st → step_inv B (sc_set_running (filter (λ i, i ≠ p) (sc_running s)) s) st).
  { intros p Hp. destruct Hsv. split; simpl; try done. unfold scheduled in *. rewrite En, Er, !app_nil_r in *.
    intros i Hi. apply list_elem_of_filter. split; [by intros ->|auto]. }
  unfold Sched.take_victim. wp_step. destruct (cf_policy cf) eqn:Epol.
  - destruct (last (sc_running s)) as [p|] eqn:El; [|by apply last_None in El].
    wp_step. eapply wp_some; [done|]. wp_step. rewrite (pop_filter p) by done.
    specialize (Hlast eq_refl p eq_refl). rewrite decide_False by done.
    split_and!; try done; [by apply last_Some_elem_of|by apply Hkeep].
  - destruct (sc_running s) as [|x l] eqn:El; [done|]. rewrite <- El in *. wp_step. eapply wp_some; [reflexivity|].
    set (p := Sched.max_by _ x l). assert (Hp : p ∈ sc_running s) by (rewrite El; apply max_by_elem).
    wp_step. eapply wp_of_res; [by apply list_remove_filter|]. wp_step.
    destruct (bool_decide (p ∈ st_running st)) eqn:Eb;
      [apply bool_decide_eq_true in Eb|apply bool_decide_eq_false in Eb].
    + eapply wp_mono; [by apply (unschedule_spec B)|]. intros st' s' (-> & S1 & S2 & S3 & S4 & S5 & S6 & S7 & S8). wp_step.
      rewrite decide_True by done. split_and!; done.
    + wp_step. rewrite decide_False by done. split_and!; try done. by apply Hkeep.
Qed.

(** ** Blocks for a running request *)
Lemma memo_static r r' : memo_frame r r' → spec_token_ids r = [] → status_is_finished (status r) = false →
  same_key r r' ∧ (req_inv mml r → req_inv mml r') ∧ status r' = status r ∧
  num_computed_tokens r' = num_computed_tokens r ∧ num_tokens r' = num_tokens r ∧ request_id r' = request_id r.
Proof.
  intros Hm Hs Hf. pose proof Hm as [_ E]. rewrite E. split; [done|]. split; [|done]. rewrite <- E. intros Hr.
  pose proof (kp_memo r r' Hm (ri_kv _ _ Hr)). destruct Hr. rewrite E in *. by split.
Qed.

(** A running request's place in the lists *)
Lemma running_facts adv s i :
  inv mml adv ∅ [] s → i ∈ sc_running s →
  ∃ r, sc_objs s !! i = Some r ∧ (request_id r, i) ∈ sc_requests s ∧ req_inv mml r ∧ running_ok adv s i ∧
    i ∉ Queue.items (sc_waiting s) ∧ request_id r ∈ (sc_requests s).*1.
Proof.
  intros I Hi. destruct (inv_table _ _ _ _ i I) as (r & Hr & Htab & Hreq); [set_solver|set_solver|].
  exists r. split_and!; try done.
  - apply (iv_running _ _ _ _ _ I); [done|set_solver].
  - intros Hw. pose proof (iv_nodup _ _ _ _ _ I) as Hnd. simpl in Hnd. apply NoDup_app in Hnd as (_ & Hd & _).
    by apply (Hd i).
  - apply list_elem_of_fmap. by exists (request_id r, i).
Qed.

Lemma running_alloc_spec adv s i r m :
  inv mml adv ∅ [] s → i ∈ sc_running s → sc_objs s !! i = Some r → adv (request_id r) = 0 →
  0 < m → num_computed_tokens r + m ≤ num_tokens r →
  wp (Sched.allocate_slots i m 0 None (num_lookahead_tokens cf) 0 false 0 false 0) (λ o s',
    same_env s s' ∧ sc_running s' = sc_running s ∧ sc_waiting s' = sc_waiting s ∧
    (∀ j, j ≠ i → sc_objs s' !! j = sc_objs s !! j) ∧ (∃ r', sc_objs s' !! i = Some r' ∧ memo_frame r r') ∧
    inv mml (λ q, if decide (q = request_id r) then (if o then m else 0) else adv q) ∅ [] s') s.
Proof.
  intros I Hi Hr Hadv Hm Hle. destruct (running_facts _ _ _ I Hi) as (r0 & Hr0 & Htab & Hreq & Hok & Hnw & Hkey).
  simplify_eq. destruct Hok as (r0 & Hr0 & Hst & Hc & _ & _ & Hh). simplify_eq. rewrite Hadv, Z.add_0_r in Hh.
  pose proof (ri_len _ _ Hreq) as Hlen. rewrite no_lookahead.
  unfold Sched.allocate_slots. wp_step. eapply wp_obj; [done|]. wp_step. eapply wp_on_kv, wp_mono.
  { apply (kp_running (sc_kv s) r m); [apply (iv_good _ _ _ _ _ I)|apply Hreq|done..|lia]. }
  intros [o r'] k' (Hg & Hmemo & Hk & Ho). wp_step. apply wp_set_obj. wp_step.
  destruct (memo_static _ _ Hmemo (ri_drafts _ _ Hreq) (ri_alive _ _ Hreq)) as (Hkeys & Hreq' & Est & Ec & Et & Eid).
  split_and!; try done.
  { intros j Hj. simpl. by rewrite lookup_insert_ne. }
  { exists r'. split; [apply lookup_insert_eq|done]. }
  assert (I1 : inv mml (λ q, if decide (q = request_id r) then if o then m else 0 else adv q) ∅ [] (sc_set_kv k' s)).
  { eapply (inv_kv adv _ ∅ [] s k' (request_id r)); try done.
    - intros q Hq. by rewrite decide_False.
    - intros j rj Hj _ Hrj Eid' _. destruct (running_facts _ _ _ I Hj) as (rj' & Hrj' & Htabj & _). simplify_eq.
      assert (j = i) as -> by (by eapply inv_obj_id). simplify_eq. exists r. simpl. rewrite decide_True by done.
      split_and!; try done; destruct o; rewrite ?Z.add_0_r; try done; lia.
    - intros j rj Hj _ Hrj Eid'. exfalso. destruct (inv_table _ _ _ _ j I) as (? & ? & Htabj & _); [set_solver|set_solver|].
      simplify_eq. assert (j = i) as -> by (by eapply inv_obj_id). done. }
  apply (inv_upd _ ∅ [] (sc_set_kv k' s) i r r' I1); try done. simpl.
  intros _ _ (r0 & Hr0 & Hst0 & Hrest). simpl in *. simplify_eq. exists r'. simpl. rewrite lookup_insert_eq.
  rewrite Eid, Ec, Et, Est. done.
Qed.

(** ** Preempting until the blocks suffice *)

(** The scheduled requests stand before the index. *)
Record at_index (s : Scheduler) (st : StepState) : Prop := {
  ai_new : st_new st = []; ai_resumed : st_resumed st = [];
  ai_idx : 0 ≤ st_index st;
  ai_before x : x ∈ st_running st → x ∈ take (Z.to_nat (st_index st)) (sc_running s);
}.

(** [i] is the request being scheduled. *)
Definition current (s : Scheduler) (st : StepState) (i : Z) : Prop :=
  i ∈ take (S (Z.to_nat (st_index st))) (sc_running s) ∧ i ∉ st_running st ∧
  (cf_policy cf = FCFS → sc_running s !! Z.to_nat (st_index st) = Some i).

Lemma current_running s st i : current s st i → i ∈ sc_running s.
Proof.
  intros (Hi & _). apply list_elem_of_lookup in Hi as [k [Hk _]%lookup_take_Some].
  by eapply list_elem_of_lookup_2.
Qed.

Lemma unscheduled_adv B adv s st i r :
  inv mml adv ∅ [] s → step_inv B s st → i ∉ scheduled st → (request_id r, i) ∈ sc_requests s →
  adv_of st (request_id r) = 0.
Proof.
  intros I Hsv Hi Htab. unfold adv_of. destruct (dict_get _ _) as [n|] eqn:E; [|done].
  apply dict_get_elem in E; [|apply Hsv]. destruct (sv_num _ _ _ Hsv _ _ E) as (_ & j & Hj & Hsch).
  assert (j = i) as -> by (by eapply inv_same_id). done.
Qed.

(** Removing the victim moves the rest as the index does. *)
Lemma remove_victim s st st' i p :
  NoDup (sc_running s) → at_index s st → current s st i → p ∈ sc_running s → p ≠ i →
  st_new st' = [] → st_resumed st' = [] →
  (if decide (p ∈ st_running st)
   then cf_policy cf = PRIORITY ∧ st_running st' = filter (λ i, i ≠ p) (st_running st) ∧ st_index st' = st_index st - 1
   else st' = st) →
  (cf_policy cf = FCFS → last (sc_running s) = Some p) →
  let s' := sc_set_running (filter (λ i, i ≠ p) (sc_running s)) s in
  at_index s' st' ∧ current s' st' i ∧ len (sc_running s') - st_index st' ≤ len (sc_running s) - st_index st.
Proof.
  intros Hnd Hai (Hcur & Hnot & Hfc) Hp Hne En Er Hst Hlast s'.
  assert (Elen : (length (filter (λ i, i ≠ p) (sc_running s)) + 1 = length (sc_running s))%nat).
  { rewrite <- (filter_out_cons p (sc_running s) Hp Hnd) at 2. simpl. lia. }
  destruct Hai as [_ _ Hidx Hbef]. case_decide as Hsch.
  - destruct Hst as (Epol & Erun & Eidx). specialize (Hbef p Hsch) as Hpb.
    assert (1 ≤ st_index st).
    { destruct (decide (st_index st = 0)) as [E|]; [|lia]. rewrite E in Hpb. simpl in Hpb. set_solver. }
    split_and!.
    + split; [done|done|lia|]. intros x Hx. rewrite Erun in Hx. apply list_elem_of_filter in Hx as [Hxp Hx].
      rewrite Eidx, Z2Nat.inj_sub by lia. by apply take_without_before; auto.
    + split_and!; [|rewrite Erun; intros [_ ?]%list_elem_of_filter; done|by rewrite Epol].
      rewrite Eidx. replace (S (Z.to_nat (st_index st - 1))) with (S (Z.to_nat (st_index st)) - 1)%nat by lia.
      apply take_without_before; [done|done| |done].
      apply list_elem_of_lookup in Hpb as [k [Hk Hlt]%lookup_take_Some].
      apply list_elem_of_lookup. exists k. apply lookup_take_Some. split; [done|lia].
    + simpl. lia.
  - subst st'. split_and!.
    + split; [done|done|done|]. intros x Hx. apply take_without; [auto|by intros ->].
    + split_and!; [by apply take_without|done|]. intros Epol. specialize (Hfc Epol). specialize (Hlast Epol).
      simpl. rewrite <- (pop_filter p) by done. apply lookup_take_Some. split; [done|].
      apply lookup_lt_Some in Hfc as Hlt. destruct (decide (Z.to_nat (st_index st) = length (sc_running s) - 1)%nat) as [E|]; [|lia].
      rewrite last_lookup, <- Nat.sub_1_r, <- E, Hfc in Hlast. congruence.
    + simpl. lia.
Qed.

(** What [allocate_or_preempt] returns for the current request [i]. *)
Definition allocated_post (B : Z) (s : Scheduler) (st : StepState) (i m : Z) (r : Request)
    (o : option KVCacheBlocks) (st' : StepState) (s' : Scheduler) : Prop :=
  same_env s s' ∧ step_inv B s' st' ∧ at_index s' st' ∧
  len (sc_running s') - st_index st' ≤ len (sc_running s) - st_index st ∧ st_budget st ≤ st_budget st' ∧
  (length (sc_running s') ≤ length (sc_running s))%nat ∧
  (st_preempted st' = [] → prev_ok s') ∧
  if o
  then current s' st' i ∧ inv mml (λ q, if decide (q = request_id r) then m else adv_of st' q) ∅ [] s' ∧
       ∃ r', sc_objs s' !! i = Some r' ∧ memo_frame r r'
  else inv mml (adv_of st') ∅ [] s' ∧ st_preempted st' ≠ [].

Lemma step_inv_same B s s' st :
  step_inv B s st → sc_running s' = sc_running s → sc_requests s' = sc_requests s →
  (∀ p, p ∈ Queue.items (sc_waiting s) → p ∈ Queue.items (sc_waiting s')) → step_inv B s' st.
Proof. intros [] Er Eq Ew. split; rewrite ?Er, ?Eq; auto. Qed.

Lemma prev_ok_same s s' :
  prev_ok s → sc_prev_step_scheduled_req_ids s' = sc_prev_step_scheduled_req_ids s →
  sc_waiting s' = sc_waiting s →
  (∀ j, j ∈ Queue.items (sc_waiting s) → sc_objs s' !! j = sc_objs s !! j) → prev_ok s'.
Proof. intros Hp E1 E2 E3 j r. rewrite E1, E2. intros Hj. rewrite E3 by done. by apply Hp. Qed.

Lemma allocate_or_preempt_spec B m i fuel : ∀ s st r,
  inv mml (adv_of st) ∅ [] s → step_inv B s st → at_index s st → current s st i →
  sc_objs s !! i = Some r → 0 < m → num_computed_tokens r + m ≤ num_tokens r →
  (length (sc_running s) ≤ fuel)%nat → (st_preempted st = [] → prev_ok s) →
  wp (Sched.allocate_or_preempt cf set_iter fuel i m st)
    (λ '(o, st') s', allocated_post B s st i m r o st' s') s.
Proof.
  induction fuel as [|fuel IH]; intros s st r I Hsv Hai Hcur Hr Hm Hle Hfuel Hprev;
    pose proof (current_running _ _ _ Hcur) as Hrun.
  { apply list_elem_of_lookup in Hrun as [k Hk%lookup_lt_Some]. lia. }
  destruct (running_facts _ _ _ I Hrun) as (r0 & Hr0 & Htab & Hreq & _ & Hnw & _). simplify_eq.
  assert (Hunsch : i ∉ scheduled st).
  { unfold scheduled. rewrite (ai_new _ _ Hai), (ai_resumed _ _ Hai), !app_nil_r. apply Hcur. }
  cbn [Sched.allocate_or_preempt]. wp_step. eapply wp_mono.
  { by apply (running_alloc_spec _ s i r m I Hrun Hr (unscheduled_adv B _ s st i r I Hsv Hunsch Htab)). }
  intros o s1 (Henv & Er1 & Ew1 & Eo1 & (r1 & Hr1 & Hmemo) & I1).
  assert (Hsv1 : step_inv B s1 st) by (eapply step_inv_same; [done..|apply Henv|by rewrite Ew1]).
  assert (Hai1 : at_index s1 st) by (destruct Hai; split; rewrite ?Er1; done).
  assert (Hcur1 : current s1 st i) by (unfold current; by rewrite Er1).
  assert (Hprev1 : st_preempted st = [] → prev_ok s1).
  { intros Hp. eapply prev_ok_same; [by apply Hprev|apply Henv|done|]. intros j Hj. apply Eo1. by intros ->. }
  destruct o as [b|].
  { wp_step. split_and!; try done; [by rewrite Er1|by rewrite Er1|by exists r1]. }
  destruct (memo_static _ _ Hmemo (ri_drafts _ _ Hreq) (ri_alive _ _ Hreq)) as (_ & _ & Est & Ec & Et & Eid).
  assert (I2 : inv mml (adv_of st) ∅ [] s1).
  { eapply inv_adv; [exact I1|]. intros j rj Hj _ Hrj. simpl. case_decide as Ej; [|done].
    destruct (running_facts _ _ _ I1 Hj) as (rj' & Hrj' & Htabj & _). simplify_eq.
    assert (j = i) as ->. { eapply inv_obj_id; [exact I|rewrite <- (proj1 Henv); exact Htabj|exact Htab|done]. }
    simplify_eq. rewrite Eid. exact (unscheduled_adv B _ s st i r I Hsv Hunsch Htab). }
  wp_step. eapply wp_mono; [apply (take_victim_spec B s1 st I2 Hsv1)|].
  { apply Hai. } { apply Hai. } { rewrite Er1. intros E. rewrite E in Hrun. set_solver. }
  { intros Epol x Hx Hin. destruct Hcur1 as (Hcin & Hcn & Hcf'). specialize (Hcf' Epol).
    pose proof (ai_before _ _ Hai1 x Hin) as Hb. apply list_elem_of_lookup in Hb as [k [Hk Hlt]%lookup_take_Some].
    rewrite last_lookup in Hx. apply lookup_lt_Some in Hcf' as Hl.
    pose proof (iv_nodup _ _ _ _ _ I2) as Hnd. simpl in Hnd. apply NoDup_app in Hnd as [Hnd _].
    assert (k = pred (length (sc_running s1))) by (by eapply NoDup_lookup). lia. }
  intros [p st1] s2 (Hp & -> & Hsv2 & Hadv & En & Ere & Epre & Hst1 & Hlast & Hbud).
  destruct (running_facts _ _ _ I2 Hp) as (rp & Hrp & Htabp & Hreqp & (rp' & Hrp' & Hstp & _) & Hnwp & _). simplify_eq.
  pose proof (inv_leave_running _ _ _ _ _ I2 Hp) as I3.
  wp_step. eapply wp_mono; [by apply (preempt_spec _ (adv_of st1) [] _ p rp I3); [..|intros q Hq; eapply Hadv]|].
  intros [] s3 (I4 & Henv3 & Er3 & Eo3 & Ew3). simpl in *.
  set (st2 := st_set_preempted _ st1).
  assert (Hsv3 : step_inv B s3 st2).
  { destruct Hsv2. split; simpl in *; rewrite ?Er3, ?(proj1 Henv3); try done.
    intros q [Hq|Hq%list_elem_of_singleton]%elem_of_app; rewrite Ew3; [right; auto|subst q; by left]. }
  assert (Hpre2 : st_preempted st2 ≠ []) by (simpl; by destruct (st_preempted st1)).
  assert (Henv2 : same_env s s3) by (etrans; [exact Henv|exact Henv3]).
  pose proof (iv_nodup _ _ _ _ _ I2) as Hnd. simpl in Hnd. apply NoDup_app in Hnd as [Hnd _].
  assert (Hlen3 : (S (length (sc_running s3)) = length (sc_running s))%nat).
  { rewrite Er3, <- Er1, <- (Permutation_length (filter_out_cons p (sc_running s1) Hp Hnd)). done. }
  destruct (Z.eqb_spec p i) as [->|Hne].
  - rewrite decide_False in Hst1 by apply Hcur. subst st1.
    wp_step. split_and!; try done; simpl in *; try lia; try tauto.
    destruct Hai1 as [A1 A2 A3 A4]. split; simpl; rewrite ?Er3; try done.
    intros x Hx. apply take_without; [auto|]. intros ->. by apply Hcur.
  - destruct (remove_victim s1 st st1 i p Hnd Hai1 Hcur1 Hp Hne En Ere Hst1 Hlast) as (Hai2 & Hcur2 & Hmeas).
    assert (Hai3 : at_index s3 st2) by (destruct Hai2; split; simpl; rewrite ?Er3; done).
    assert (Hcur3 : current s3 st2 i) by (unfold current in *; simpl in *; by rewrite Er3).
    eapply wp_mono; [apply (IH s3 st2 r1 I4 Hsv3 Hai3 Hcur3)|]; try done; try lia.
    + rewrite Eo3; done.
    + intros [o st3] s4 (B1 & B2 & B3 & B4 & B5 & B6 & B7 & B8). simpl in Hmeas. rewrite <- Er3, Er1 in Hmeas.
      change (st_index st2) with (st_index st1) in B4. change (st_budget st2) with (st_budget st1) in B5.
      split_and!; try done; try lia; [by etrans|]. destruct o as [b|]; [|done]. rewrite Eid in B8.
      destruct B8 as (C1 & C2 & r2 & Hr2 & Hm2). split_and!; try done. exists r2. split; [done|]. by eapply memo_frame_trans.
Qed.

(** ** One running request *)
Lemma elem_take_le {A} n m (l : list A) x : (n ≤ m)%nat → x ∈ take n l → x ∈ take m l.
Proof.
  intros Hnm [k [Hk Hlt]%lookup_take_Some]%list_elem_of_lookup. apply list_elem_of_lookup.
  exists k. apply lookup_take_Some. split; [done|lia].
Qed.

Lemma no_encoder_inputs r : mm_features r = [] → has_encoder_inputs r = false.
Proof. unfold has_encoder_inputs, num_encoder_inputs. by intros ->. Qed.

Lemma running_num_ok r budget :
  req_inv mml r → 0 ≤ num_computed_tokens r ≤ num_tokens r → 0 < budget →
  let n := Sched.running_num_new_tokens cf r budget in
  0 ≤ n ∧ n ≤ budget ∧ num_computed_tokens r + n ≤ num_tokens r.
Proof.
  intros [] Hc Hb n. unfold n, Sched.running_num_new_tokens, num_tokens_with_spec.
  rewrite ri_drafts, ri_placeholders. simpl. unfold num_tokens in *.
  destruct (_ && _) eqn:E; [|lia]. rewrite andb_true_iff, !Z.ltb_lt in E. lia.
Qed.

Lemma step_inv_commit B s st i id n b :
  inv mml (λ q, if decide (q = id) then n else adv_of st q) ∅ [] s → step_inv B s st →
  (id, i) ∈ sc_requests s → i ∈ sc_running s → i ∉ scheduled st → 0 < n ≤ st_budget st →
  ∀ st', st_num st' = dict_set id n (st_num st) → st_blocks st' = dict_set id b (st_blocks st) →
  st_budget st' = st_budget st - n → scheduled st' ≡ₚ i :: scheduled st →
  st_enc_inputs st' = [] → st_spec st' = [] → st_preempted st' = st_preempted st →
  step_inv B s st' ∧ inv mml (adv_of st') ∅ [] s.
Proof.
  intros I Hsv Htab Hrun Hns Hn st' En Eb Ebud Esch Ee Esp Epre.
  assert (Hid : id ∉ (st_num st).*1).
  { intros ([id' n'] & -> & Hin)%list_elem_of_fmap. destruct (sv_num _ _ _ Hsv _ _ Hin) as (_ & j & Hj & Hsch).
    apply Hns. by rewrite (inv_same_id _ _ _ _ _ _ _ I Htab Hj). }
  split.
  - destruct Hsv. split; rewrite ?En, ?Eb, ?Ebud, ?Epre; try done.
    + rewrite Esch. by apply NoDup_cons.
    + intros j. rewrite Esch. intros [->|Hj]%elem_of_cons; auto.
    + by apply dict_set_NoDup.
    + intros id' n'. rewrite dict_set_elem by done. intros [[-> ->]|[Hne Hin]].
      * split; [lia|]. exists i. rewrite Esch. split; [done|by left].
      * destruct (sv_num0 _ _ Hin) as (? & j & ? & ?). split; [done|]. exists j. rewrite Esch. split; [done|by right].
    + intros j. rewrite Esch. intros [->|Hj]%elem_of_cons.
      * exists id. rewrite !dict_set_fst. auto.
      * destruct (sv_has0 _ Hj) as (id' & ? & ? & ?). exists id'. rewrite !dict_set_fst. auto.
    + rewrite sum_values_set by done. lia.
  - eapply inv_adv; [exact I|]. intros j r _ _ _. simpl. unfold adv_of. rewrite En, dict_get_set. by case_decide.
Qed.

(** What a turn of the loop over the running requests keeps. *)
Definition turn_post (B : Z) (s : Scheduler) (st' : StepState) (s' : Scheduler) : Prop :=
  same_env s s' ∧ step_inv B s' st' ∧ at_index s' st' ∧ inv mml (adv_of st') ∅ [] s' ∧
  (st_preempted st' = [] → prev_ok s') ∧ (length (sc_running s') ≤ length (sc_running s))%nat.

Lemma next_index_post B s st :
  inv mml (adv_of st) ∅ [] s → step_inv B s st → at_index s st → (st_preempted st = [] → prev_ok s) →
  turn_post B s (Sched.next_index st) s.
Proof.
  intros I Hsv Hai Hp. split_and!; try done.
  - by destruct Hsv.
  - destruct Hai. split; simpl; try done; [lia|]. intros x Hx. eapply elem_take_le; [|by apply ai_before0]. lia.
Qed.

Lemma schedule_running_spec B s st i :
  inv mml (adv_of st) ∅ [] s → step_inv B s st → at_index s st → current s st i → 0 < st_budget st →
  (st_preempted st = [] → prev_ok s) →
  wp (Sched.schedule_running_request cf set_iter i st) (λ '(continue, st') s', turn_post B s st' s' ∧
    (continue = true → len (sc_running s') - st_index st' < len (sc_running s) - st_index st)) s.
Proof.
  intros I Hsv Hai Hcur Hbud Hprev. pose proof (current_running _ _ _ Hcur) as Hrun.
  destruct (running_facts _ _ _ I Hrun) as (r & Hr & Htab & Hreq & Hok & _). destruct Hok as (r0 & Hr0 & _ & Hc & Ha & Hle & _).
  simplify_eq. unfold Sched.schedule_running_request. wp_step. eapply wp_obj; [done|].
  assert (Hskip : turn_post B s (Sched.next_index st) s ∧
    (true = true → len (sc_running s) - st_index (Sched.next_index st) < len (sc_running s) - st_index st)).
  { split; [by apply next_index_post|]. simpl. lia. }
  destruct (Sched.skip_running _ _); [by wp_step|]. wp_step.
  unfold Sched.encoder_inputs. rewrite no_encoder_inputs by apply Hreq. wp_step. rewrite (bc_mamba _ Hcf).
  assert (Hunsch : i ∉ scheduled st).
  { unfold scheduled. rewrite (ai_new _ _ Hai), (ai_resumed _ _ Hai), !app_nil_r. apply Hcur. }
  destruct (running_num_ok r (st_budget st) Hreq) as (Hn0 & Hnb & Hnt); [lia|done|].
  set (n := Sched.running_num_new_tokens cf r (st_budget st)) in *.
  destruct (Z.eqb_spec n 0) as [E|Hne]; [by wp_step|]. wp_step.
  eapply wp_mono; [apply (allocate_or_preempt_spec B n i _ s st r I Hsv Hai Hcur Hr); try done; lia|].
  intros [o st1] s1 (Henv & Hsv1 & Hai1 & Hmeas & Hb1 & Hl1 & Hp1 & Ho). destruct o as [b|].
  2: { wp_step. destruct Ho. by split_and!. }
  destruct Ho as (Hcur1 & I1 & r1 & Hr1 & Hmemo).
  destruct (memo_static _ _ Hmemo (ri_drafts _ _ Hreq) (ri_alive _ _ Hreq)) as (_ & _ & _ & _ & _ & Eid).
  assert (Hunsch1 : i ∉ scheduled st1).
  { unfold scheduled. rewrite (ai_new _ _ Hai1), (ai_resumed _ _ Hai1), !app_nil_r. apply Hcur1. }
  pose proof (current_running _ _ _ Hcur1) as Hrun1.
  destruct (running_facts _ _ _ I1 Hrun1) as (r1' & Hr1' & Htab1 & Hreq1 & _). simplify_eq.
  wp_step. unfold Sched.commit_running. wp_step. eapply wp_obj; [done|]. wp_step.
  unfold Sched.schedule_spec_tokens. wp_step. eapply wp_obj; [done|]. rewrite (ri_drafts _ _ Hreq1). wp_step.
  set (st2 := mkStep _ _ _ _ _ _ _ _ _ _ _ _).
  destruct (step_inv_commit B s1 st1 i (request_id r1) n b) with (st' := st2) as [Hsv2 I2]; try done.
  { by rewrite Eid. } { lia. }
  { unfold scheduled. simpl. rewrite <- (assoc_L app). symmetry. apply Permutation_middle. }
  { apply Hsv1. } { apply Hsv1. }
  unfold Sched.allocate_encoder_inputs. wp_step. split; [|simpl; lia].
  split_and!; try done. destruct Hai1 as [A1 A2 A3 A4]. split; simpl; try done; [lia|].
  replace (Z.to_nat (st_index st1 + 1)) with (S (Z.to_nat (st_index st1))) by lia.
  intros x [Hx|Hx%list_elem_of_singleton]%elem_of_app; [|subst x; apply Hcur1].
  eapply elem_take_le; [|by apply A4]. lia.
Qed.

(** ** The loop over the running requests *)
Lemma running_loop_spec B fuel : ∀ s st,
  inv mml (adv_of st) ∅ [] s → step_inv B s st → at_index s st → (st_preempted st = [] → prev_ok s) →
  len (sc_running s) - st_index st < Z.of_nat fuel → (0 < fuel)%nat →
  wp (Sched.running_loop cf set_iter fuel st) (λ st' s', turn_post B s st' s') s.
Proof.
  induction fuel as [|fuel IH]; intros s st I Hsv Hai Hprev Hfuel Hpos; cbn [Sched.running_loop]; [lia|].
  wp_step. destruct (Z.ltb_spec (st_index st) (len (sc_running s))) as [Hlt|]; simpl; [|wp_step; by split_and!].
  destruct (Z.ltb_spec 0 (st_budget st)) as [Hb|]; simpl; [|wp_step; by split_and!].
  pose proof (ai_idx _ _ Hai) as Hidx.
  destruct (lookup_lt_is_Some_2 (sc_running s) (Z.to_nat (st_index st))) as [i Hi]; [lia|].
  assert (Hcur : current s st i).
  { split_and!; [|intros Hin|done].
    - apply list_elem_of_lookup. exists (Z.to_nat (st_index st)). apply lookup_take_Some. split; [done|lia].
    - apply (ai_before _ _ Hai), list_elem_of_lookup in Hin as [k [Hk Hlt']%lookup_take_Some].
      pose proof (iv_nodup _ _ _ _ _ I) as Hnd. simpl in Hnd. apply NoDup_app in Hnd as [Hnd _].
      assert (k = Z.to_nat (st_index st)) by (by eapply NoDup_lookup). lia. }
  wp_step. eapply wp_some.
  { unfold py_get. rewrite (proj2 (Z.ltb_ge (st_index st) 0)) by lia. simpl.
    rewrite (proj2 (Z.ltb_ge (st_index st) 0)) by lia. exact Hi. }
  wp_step. eapply wp_mono; [by apply (schedule_running_spec B s st i)|].
  intros [c st1] s1 ((T1 & T2 & T3 & T4 & T5 & T6) & Hc). destruct c; [|wp_step; by split_and!].
  specialize (Hc eq_refl). eapply wp_mono; [apply (IH s1 st1); try done; lia|].
  intros st2 s2 (U1 & U2 & U3 & U4 & U5 & U6). split_and!; try done; [by etrans|lia].
Qed.

(** ** Waiting requests *)
Lemma waiting_facts adv s i :
  inv mml adv ∅ [] s → i ∈ Queue.items (sc_waiting s) →
  ∃ r, sc_objs s !! i = Some r ∧ (request_id r, i) ∈ sc_requests s ∧ req_inv mml r ∧
    (status r = WAITING ∨ status r = PREEMPTED) ∧ num_computed_tokens r = 0 ∧
    kv_fresh (sc_kv s) (request_id r) ∧ i ∉ sc_running s.
Proof.
  intros I Hi. destruct (inv_table _ _ _ _ i I) as (r & Hr & Htab & Hreq); [set_solver|set_solver|].
  destruct (iv_waiting _ _ _ _ _ I i Hi) as (r' & Hr' & Hst & Hc & Hf); [set_solver|]. simplify_eq.
  exists r. split_and!; try done. intros Hrun.
  pose proof (iv_nodup _ _ _ _ _ I) as Hnd. simpl in Hnd. apply NoDup_app in Hnd as (_ & Hd & _). by apply (Hd i).
Qed.

(** What is known of a waiting request when its blocks are allocated. *)
Definition computed_ok (s : Scheduler) (i : Z) (cp : Sched.Computed) (r : Request) : Prop :=
  sc_objs s !! i = Some r ∧ kv_hits (sc_kv s) r (Sched.cp_blocks cp) (Sched.cp_local cp) ∧
  Sched.cp_async cp = false ∧ Sched.cp_external cp = 0 ∧ Sched.cp_total cp = Sched.cp_local cp ∧
  0 ≤ Sched.cp_total cp < num_tokens r.

Lemma find_computed_spec adv s i r :
  inv mml adv ∅ [] s → i ∈ Queue.items (sc_waiting s) → sc_objs s !! i = Some r →
  wp (Sched.find_computed None i) (λ o s', same_env s s' ∧ sc_running s' = sc_running s ∧
    sc_waiting s' = sc_waiting s ∧ inv mml adv ∅ [] s' ∧
    (∀ j, j ≠ i → sc_objs s' !! j = sc_objs s !! j) ∧
    ∃ cp r', o = Some cp ∧ computed_ok s' i cp r' ∧ status r' = status r ∧ request_id r' = request_id r) s.
Proof.
  intros I Hi Hr. destruct (waiting_facts _ _ _ I Hi) as (r0 & Hr0 & Htab & Hreq & Hst & Hc & Hf & Hnr). simplify_eq.
  assert (1 ≤ num_tokens r). { rewrite (ri_tokens _ _ Hreq). pose proof (ri_prompt _ _ Hreq). unfold num_output_tokens. lia. }
  unfold Sched.find_computed. wp_step. eapply wp_obj; [done|]. rewrite Hc. simpl. wp_step. eapply wp_on_kv, wp_mono.
  { by apply (kp_computed (sc_kv s) r); [apply (iv_good _ _ _ _ _ I)|apply Hreq|..]. }
  intros [b n] k' (Hg & Hk & Hh & Hn). rewrite Z.add_0_r. wp_step. split; [apply Z.leb_le; lia|].
  pose proof (inv_kv_nobody _ _ _ _ k' I Hg Hk) as I1.
  destruct (prefill_stats (ext r)) as [ps|] eqn:Eps; wp_step.
  - assert (num_tokens r = num_prompt_tokens r) as Etp by (apply (ri_stats _ _ Hreq); congruence).
    split; [apply Z.leb_le; lia|]. eapply wp_upd; [done|]. set (r' := set_prefill_stats _ r).
    assert (Hsame : same_tokens r r') by (by repeat split).
    split_and!; try done.
    + eapply (inv_upd _ _ _ (sc_set_kv k' s) i r r' I1); try done.
      * apply req_inv_same. split; [done|]. repeat split; [apply Hreq|by rewrite Eps|apply Hreq].
      * intros _ _ _. exists r'. simpl. rewrite lookup_insert_eq. split_and!; try done. by apply (Hk _ (λ f, f)).
    + intros j Hj. simpl. by rewrite lookup_insert_ne.
    + eexists _, r'. split; [done|]. split; [|done]. split_and!; simpl; try done; try lia; [apply lookup_insert_eq|by eapply kp_hits_same|apply Hn].
  - split_and!; try done. eexists _, r. split; [done|]. split; [|done]. split_and!; simpl; try done; lia.
Qed.

Lemma waiting_num_spec s r cp st i :
  req_inv mml r → computed_ok s i cp r → 0 < st_budget st →
  wp (Sched.waiting_num_new_tokens cf r cp st) (λ o s', s' = s ∧
    match o with
    | None => True
    | Some (inputs, n, _) => inputs = [] ∧ 0 < n ≤ st_budget st ∧ Sched.cp_total cp + n ≤ num_tokens r
    end) s.
Proof.
  intros Hreq (_ & _ & Ea & Ex & _ & Ht) Hb. unfold Sched.waiting_num_new_tokens. rewrite Ea.
  cbv zeta. set (n := if (0 <? cf_long_prefill_token_threshold cf) && _ then _ else _).
  assert (Hn : 0 < n ∧ Sched.cp_total cp + n ≤ num_tokens r).
  { unfold n. destruct (_ && _) eqn:E; [|lia]. rewrite andb_true_iff, !Z.ltb_lt in E. lia. }
  destruct (negb _ && _); [wp_step; by split|]. unfold Sched.encoder_inputs. wp_step. split; [apply Z.ltb_lt; lia|].
  rewrite no_encoder_inputs by apply Hreq. wp_step. rewrite (bc_mamba _ Hcf). simpl. wp_step.
  split_and!; try done; lia.
Qed.

(** The blocks are allocated and the request leaves the queue. *)
Lemma leave_with_kv adv adv' s i r r' k' q' :
  inv mml adv ∅ [] s → i ∈ Queue.items (sc_waiting s) → sc_objs s !! i = Some r →
  kv_good k' → kv_keeps (only (request_id r)) (sc_kv s) k' → memo_frame r r' →
  (∀ q, q ≠ request_id r → adv' q = adv q) →
  Queue.items (sc_waiting s) ≡ₚ i :: Queue.items q' → queue_ok (obj_lt (<[i := r']> (sc_objs s))) q' →
  inv mml adv' ∅ [i] (sc_set_waiting q' (sc_set_objs (<[i := r']> (sc_objs s)) (sc_set_kv k' s))).
Proof.
  intros I Hi Hr Hg Hk Hmemo Hadv Hq Hok.
  destruct (waiting_facts _ _ _ I Hi) as (r0 & Hr0 & Htab & Hreq & _ & _ & _ & Hnr). simplify_eq.
  destruct (memo_static _ _ Hmemo (ri_drafts _ _ Hreq) (ri_alive _ _ Hreq)) as (Hkeys & Hreq' & _ & _ & _ & Eid).
  assert (Hok' : queue_ok (obj_lt (sc_objs s)) q').
  { eapply queue_ok_ext; [|exact Hok]. intros j Hj.
    destruct (decide (j = i)) as [->|Hne].
    - exists r', r. rewrite lookup_insert_eq. split_and!; try done. destruct Hkeys as (?&?&?&?). by split_and!.
    - destruct (iv_exists _ _ _ _ _ I j) as [rj Hrj]; [simpl; rewrite Hq; set_solver|].
      exists rj, rj. by rewrite lookup_insert_ne. }
  pose proof (inv_leave_waiting _ _ _ _ _ _ I Hq Hok') as I1.
  assert (I2 : inv mml adv' ∅ [i] (sc_set_kv k' (sc_set_waiting q' s))).
  { assert (Hin : request_id r ∈ (sc_requests s).*1) by (apply list_elem_of_fmap; by exists (request_id r, i)).
    eapply (inv_kv adv adv' ∅ [i] (sc_set_waiting q' s) k' (request_id r) I1); try done; simpl.
    - intros j rj Hj _ Hrj Eid'. destruct (running_facts _ _ _ I Hj) as (rj' & Hrj' & Htabj & _). simplify_eq.
      assert (j = i) as -> by (by eapply inv_obj_id). done.
    - intros j rj Hj _ Hrj Eid'. exfalso. pose proof (iv_nodup _ _ _ _ _ I1) as Hnd. simpl in Hnd.
      apply NoDup_cons in Hnd as [Hn _]. apply Hn.
      destruct (waiting_facts _ _ j I) as (rj' & Hrj' & Htabj & _); [rewrite Hq; by right|]. simplify_eq.
      assert (j = i) as <- by (by eapply inv_obj_id). set_solver. }
  eapply (inv_upd_detached adv' ∅ [] (sc_set_kv k' (sc_set_waiting q' s)) i r r' I2); done.
Qed.

(** A request that resumes was not scheduled in the last step. *)
Definition resumed_ok (s : Scheduler) (st : StepState) : Prop :=
  ∀ i r, i ∈ st_resumed st → sc_objs s !! i = Some r → request_id r ∉ sc_prev_step_scheduled_req_ids s.

Lemma resumed_not_waiting B adv s st i :
  inv mml adv ∅ [] s → step_inv B s st → i ∈ Queue.items (sc_waiting s) → i ∉ st_resumed st.
Proof.
  intros I Hsv Hi Hin. destruct (waiting_facts _ _ _ I Hi) as (r & _ & _ & _ & _ & _ & _ & Hn).
  apply Hn, (sv_sub _ _ _ Hsv). unfold scheduled. set_solver.
Qed.

(** What a turn of the loop over the waiting requests keeps. *)
Definition waiting_turn (B : Z) (s : Scheduler) (st' : StepState) (s' : Scheduler) : Prop :=
  same_env s s' ∧ step_inv B s' st' ∧ inv mml (adv_of st') ∅ [] s' ∧ st_preempted st' = [] ∧ prev_ok s' ∧
  resumed_ok s' st'.

(** The request enters the running list. *)
Lemma enter_running_spec B s2 st i r cp n budget :
  inv mml (λ q, if decide (q = request_id r) then n else adv_of st q) ∅ [i] s2 → step_inv B s2 st →
  st_preempted st = [] → prev_ok s2 → sc_objs s2 !! i = Some r → (status r = WAITING ∨ status r = PREEMPTED) →
  (status r = PREEMPTED → request_id r ∉ sc_prev_step_scheduled_req_ids s2) →
  resumed_ok s2 st →
  0 < n ≤ st_budget st → 0 ≤ Sched.cp_total cp → Sched.cp_total cp + n ≤ num_tokens r →
  kv_holds (sc_kv s2) (request_id r) (Sched.cp_total cp + n) →
  wp (Sched.enter_running cf i cp n [] budget st) (λ st' s', waiting_turn B s2 st' s' ∧
    sc_waiting s' = sc_waiting s2 ∧ sc_running s' = sc_running s2 ++ [i]) s2.
Proof.
  intros I Hsv Hpre Hprev Hr Hst Hnp Hres Hn Ht0 Htn Hh.
  pose proof (iv_nodup _ _ _ _ _ I) as Hnd. simpl in Hnd. apply NoDup_cons in Hnd as [Hni _].
  destruct (inv_table _ _ _ _ i I) as (r0 & Hr0 & Htab & Hreq); [by left|set_solver|]. simplify_eq.
  unfold Sched.enter_running. wp_step. eapply wp_obj; [done|]. wp_step.
  set (rr := set_num_computed_tokens (Sched.cp_total cp) (set_status RUNNING r)).
  set (s3 := sc_set_objs (<[i := rr]> (sc_objs s2)) (sc_set_running (sc_running s2 ++ [i]) s2)).
  assert (I3 : inv mml (λ q, if decide (q = request_id r) then n else adv_of st q) ∅ [] s3).
  { assert (I2 : inv mml (λ q, if decide (q = request_id r) then n else adv_of st q) ∅ [i]
                   (sc_set_objs (<[i := rr]> (sc_objs s2)) s2)).
    { eapply inv_upd_detached; [done|done|done| |done]. apply req_inv_same. split; [by repeat split|].
      repeat split; [apply Hreq|auto]. }
    apply (inv_enter_running _ _ _ _ _ I2). intros _. exists rr. simpl.
    rewrite lookup_insert_eq, decide_True by done. split_and!; done || lia. }
  assert (Hns : i ∉ scheduled st).
  { intros Hin%(sv_sub _ _ _ Hsv). apply Hni. set_solver. }
  assert (Hsv3 : step_inv B s3 st).
  { destruct Hsv. split; try done.
    intros j Hj. simpl. apply elem_of_app. left. auto. }
  assert (Hprev3 : prev_ok s3).
  { eapply prev_ok_same; [done..|]. intros j Hj. simpl. rewrite lookup_insert_ne; [done|]. intros ->. set_solver. }
  assert (Hres3 : resumed_ok s3 st).
  { intros j rj Hj. simpl. rewrite lookup_insert_ne; [by apply Hres|]. intros ->. apply Hns. unfold scheduled. set_solver. }
  assert (Hgoal : ∀ st' s', scheduled st' ≡ₚ i :: scheduled st → st_preempted st' = [] →
    (∀ j, j ∈ st_resumed st' → j ∈ st_resumed st ∨ j = i ∧ status r = PREEMPTED) →
    st_num st' = dict_set (request_id r) n (st_num st) →
    (∃ b, st_blocks st' = dict_set (request_id r) b (st_blocks st)) →
    st_budget st' = st_budget st - n → st_enc_inputs st' = st_enc_inputs st → st_spec st' = st_spec st →
    (∃ inf, s' = sc_set_inflight_prefills inf s3) →
    waiting_turn B s2 st' s' ∧ sc_waiting s' = sc_waiting s2 ∧ sc_running s' = sc_running s2 ++ [i]).
  { intros st' s' E1 E2 E3 E4 [b E5] E6 E7 E8 [inf ->].
    destruct (step_inv_commit B s3 st i (request_id r) n b) with (st' := st') as [Hsv4 I4]; try done.
    { simpl. set_solver. } { rewrite E7. apply Hsv. } { rewrite E8. apply Hsv. } { by rewrite E2, Hpre. }
    split; [|done]. split_and!; try done; [by destruct Hsv4|by apply inv_inflight|].
    intros j rj Hj. destruct (E3 j Hj) as [Hj'|[-> Hp]]; [by apply Hres3|]. simpl.
    rewrite lookup_insert_eq. intros [= <-]. simpl. auto. }
  assert (Hnew : st_running st ++ (st_new st ++ [i]) ++ st_resumed st ≡ₚ i :: scheduled st) by solve_Permutation.
  assert (Hresu : st_running st ++ st_new st ++ st_resumed st ++ [i] ≡ₚ i :: scheduled st) by solve_Permutation.
  rewrite (bc_lora _ Hcf).
  destruct Hst as [E|E]; rewrite E; wp_step.
  all: eapply wp_upd; [done|]; wp_step; apply wp_upd_again; wp_step;
    change (sc_set_objs _ _) with s3; unfold Sched.allocate_encoder_inputs;
    destruct (_ <? num_tokens r); wp_step; apply Hgoal; simpl; try done;
    try (by exists (sc_inflight_prefills s3)); try (by eexists); try (intros j Hj; by left).
  all: intros j [Hj|Hj%list_elem_of_singleton]%elem_of_app; auto.
Qed.

(** The blocks of a waiting request are allocated: what is then left of the turn. *)
Lemma schedule_unblocked_spec B s st i cp r skipped :
  inv mml (adv_of st) ∅ [] s → step_inv B s st → st_preempted st = [] → prev_ok s → resumed_ok s st →
  computed_ok s i cp r → Queue.peek_request (sc_waiting s) = Ok i → i ∈ Queue.items (sc_waiting s) →
  0 < st_budget st →
  wp (Sched.schedule_unblocked cf set_iter Waiting i cp st skipped) (λ '(c, st', skipped') s',
    skipped' = skipped ∧ waiting_turn B s st' s' ∧ (length (sc_running s') ≤ S (length (sc_running s)))%nat ∧
    (c = true → (length (Queue.items (sc_waiting s')) < length (Queue.items (sc_waiting s)))%nat)) s.
Proof.
  intros I Hsv Hpre Hprev Hres Hcp Hpeek Hi Hb. pose proof Hcp as (Hr & Hhits & Ea & Ex & Et & Ht).
  destruct (waiting_facts _ _ _ I Hi) as (r0 & Hr0 & Htab & Hreq & Hst & Hc & Hf & Hnr). simplify_eq.
  unfold Sched.schedule_unblocked. wp_step. eapply wp_obj; [done|]. wp_step.
  eapply wp_mono; [by apply (waiting_num_spec s r cp st i)|]. intros [[[inputs n] bud]|] ? [-> Ho].
  2: { wp_step. split_and!; try done. lia. }
  destruct Ho as (-> & Hn & Hle). wp_step. unfold Sched.encoder_tokens.
  rewrite no_encoder_inputs, andb_false_r by apply Hreq. wp_step. rewrite Ea, Ex. simpl. wp_step.
  rewrite no_lookahead. unfold Sched.allocate_slots. wp_step. eapply wp_obj; [done|]. wp_step.
  pose proof (ri_len _ _ Hreq) as Hlen. rewrite Et in Hle, Ht. eapply wp_on_kv, wp_mono.
  { apply (kp_new (sc_kv s) r (Sched.cp_blocks cp) (Sched.cp_local cp) n);
      [apply (iv_good _ _ _ _ _ I)|apply Hreq|done..|lia|lia|lia|lia]. }
  intros [o r'] k' (Hg & Hmemo & Hk & Ho). wp_step. apply wp_set_obj.
  destruct (memo_static _ _ Hmemo (ri_drafts _ _ Hreq) (ri_alive _ _ Hreq)) as (Hkeys & Hreq' & Est & Ec & Etk & Eid).
  set (s1 := sc_set_objs _ _). destruct o as [b|]; wp_step.
  - assert (Hq1 : queue_ok (obj_lt (sc_objs s1)) (sc_waiting s)).
    { eapply queue_ok_ext; [|apply (iv_queue _ _ _ _ _ I)]. intros j Hj. simpl.
      destruct (decide (j = i)) as [->|Hne]; [exists r, r'; by rewrite lookup_insert_eq|].
      destruct (iv_exists _ _ _ _ _ I j) as [rj Hrj]; [set_solver|]. exists rj, rj. by rewrite lookup_insert_ne. }
    eapply wp_mono; [by apply (q_pop_spec Waiting i s1)|]. simpl. intros ? ? (-> & q' & -> & Hq' & Hperm).
    set (s2 := sc_set_waiting q' s1).
    assert (I2 : inv mml (λ q, if decide (q = request_id r) then n else adv_of st q) ∅ [i] s2).
    { apply (leave_with_kv (adv_of st) _ s i r r' k' q'); try done. intros q Hq. by rewrite decide_False. }
    assert (Hniq : i ∉ Queue.items q').
    { pose proof (iv_nodup _ _ _ _ _ I) as Hnd. simpl in Hnd. apply NoDup_app in Hnd as (_ & _ & Hnd).
      rewrite Hperm in Hnd. by apply NoDup_cons in Hnd as [? _]. }
    assert (Hobj : ∀ j, j ≠ i → sc_objs s2 !! j = sc_objs s !! j) by (intros j Hj; simpl; by rewrite lookup_insert_ne).
    assert (Hnp : status r = PREEMPTED → request_id r ∉ sc_prev_step_scheduled_req_ids s) by (intros ?; by apply (Hprev i r)).
    wp_step. eapply wp_mono; [apply (enter_running_spec B s2 st i r' cp n bud); rewrite ?Est, ?Eid, ?Et|].
    { done. } { destruct Hsv. split; try done. rewrite Hpre. set_solver. } { done. }
    { intros j rj Hj Hrj. rewrite Hobj in Hrj by (by intros ->). apply (Hprev j rj); [by rewrite Hperm; right|done]. }
    { apply lookup_insert_eq. } { done. } { done. }
    { intros j rj Hj Hrj. rewrite Hobj in Hrj; [by apply (Hres j rj)|]. intros ->. by apply (resumed_not_waiting B _ s st i I Hsv Hi). }
    { done. } { lia. } { by rewrite Etk. } { done. }
    intros st' s' ((W1 & W2 & W3 & W4 & W5 & W6) & Ew & Er). wp_step.
    split_and!; try done; [by rewrite Er, length_app, Nat.add_1_r|]. intros _. rewrite Ew, Hperm. simpl. lia.
  - assert (I1 : inv mml (adv_of st) ∅ [] s1).
    { assert (I1 : inv mml (adv_of st) ∅ [] (sc_set_kv k' s)).
      { eapply (inv_kv _ _ ∅ [] s k' (request_id r)); try done. intros j rj Hj _ Hrj Eid'. exfalso.
        destruct (running_facts _ _ _ I Hj) as (rj' & Hrj' & Htabj & _). simplify_eq.
        assert (j = i) as -> by (by eapply inv_obj_id). done. }
      apply (inv_upd _ ∅ [] (sc_set_kv k' s) i r r' I1); try done. simpl. intros _ _ _. exists r'.
      simpl. rewrite lookup_insert_eq, Est, Ec, Eid. done. }
    split_and!; [done| |simpl; lia|done]. split; [done|]. split_and!; [destruct Hsv; by split|done..| | ].
    + intros j rj Hj Hrj Hp. simpl in *. destruct (decide (j = i)) as [->|Hne].
      * rewrite lookup_insert_eq in Hrj. simplify_eq. rewrite Eid. apply (Hprev i r); congruence.
      * rewrite lookup_insert_ne in Hrj by done. by apply (Hprev j rj).
    + intros j rj Hj Hrj. simpl in *. rewrite lookup_insert_ne in Hrj; [by apply (Hres j rj)|].
      intros <-. by apply (resumed_not_waiting B _ s st i I Hsv Hi).
Qed.

(** ** The loop over the waiting requests *)
Lemma waiting_turn_trans B s s1 s2 st1 st2 :
  waiting_turn B s st1 s1 → waiting_turn B s1 st2 s2 → waiting_turn B s st2 s2.
Proof. intros [E1 _] [E2 H2]. split; [by etrans|done]. Qed.

Lemma find_computed_turn B s st s' i :
  waiting_turn B s st s → i ∈ Queue.items (sc_waiting s) → same_env s s' → sc_running s' = sc_running s →
  sc_waiting s' = sc_waiting s → inv mml (adv_of st) ∅ [] s' →
  (∀ j, j ≠ i → sc_objs s' !! j = sc_objs s !! j) →
  (∃ r r', sc_objs s !! i = Some r ∧ sc_objs s' !! i = Some r' ∧ status r' = status r ∧ request_id r' = request_id r) →
  waiting_turn B s st s'.
Proof.
  intros (_ & Hsv & I & Hpre & Hprev & Hres) Hi Henv Er Ew I' Eo (r & r' & Hr & Hr' & Est & Eid).
  pose proof Henv as (Eq & Ep & _). split_and!; try done.
  - eapply step_inv_same; [done..|by rewrite Ew].
  - intros j rj Hj Hrj. rewrite Ew in Hj. rewrite Ep. destruct (decide (j = i)) as [->|Hne].
    + simplify_eq. rewrite Est, Eid. by apply (Hprev i r).
    + rewrite Eo in Hrj by done. by apply (Hprev j rj).
  - intros j rj Hj Hrj. rewrite Ep. rewrite Eo in Hrj; [by apply (Hres j rj)|].
    intros ->. by apply (resumed_not_waiting B _ s st i I Hsv Hi).
Qed.

Lemma schedule_waiting_request_spec B s st i skipped :
  waiting_turn B s st s → Queue.peek_request (sc_waiting s) = Ok i → i ∈ Queue.items (sc_waiting s) →
  0 < st_budget st →
  wp (Sched.schedule_waiting_request cf None gr set_iter Waiting i st skipped) (λ '(c, st', skipped') s',
    skipped' = skipped ∧ waiting_turn B s st' s' ∧ (length (sc_running s') ≤ S (length (sc_running s)))%nat ∧
    (c = true → (length (Queue.items (sc_waiting s')) < length (Queue.items (sc_waiting s)))%nat)) s.
Proof.
  intros Hw Hpeek Hi Hb. pose proof Hw as (_ & Hsv & I & Hpre & Hprev & Hres).
  destruct (waiting_facts _ _ _ I Hi) as (r & Hr & Htab & Hreq & Hst & Hc & Hf & Hnr).
  unfold Sched.schedule_waiting_request. wp_step. eapply wp_obj; [done|].
  assert (Sched._is_blocked_waiting_status (status r) = false) as -> by (by destruct Hst as [-> | ->]).
  wp_step. eapply wp_obj; [done|]. unfold Sched.exceeds_loras. rewrite (bc_lora _ Hcf). simpl. wp_step.
  eapply wp_mono; [by apply (find_computed_spec _ s i r I)|].
  intros o s1 (Henv & Er & Ew & I1 & Eo & cp & r' & -> & Hcp & Est & Eid).
  assert (Hw1 : waiting_turn B s st s1).
  { eapply find_computed_turn; try done. exists r, r'. split_and!; try done. apply Hcp. }
  pose proof Hw1 as (_ & Hsv1 & _ & _ & Hprev1 & Hres1).
  eapply wp_mono; [apply (schedule_unblocked_spec B s1 st i cp r'); try done; by rewrite Ew|].
  intros [[c st'] sk'] s' (-> & W & Hl & Hc'). rewrite Er, Ew in *. split_and!; try done.
  by eapply waiting_turn_trans.
Qed.

Lemma select_waiting s (Q : option queue_name → Scheduler → Prop) :
  Queue.items (sc_skipped_waiting s) = [] → Queue.to_bool (sc_waiting s) = true → Q (Some Waiting) s →
  wp (Sched._select_waiting_queue_for_scheduling cf) Q s.
Proof.
  intros Hk Hw HQ. unfold Sched._select_waiting_queue_for_scheduling. wp_step.
  assert (Queue.to_bool (sc_skipped_waiting s) = false) as -> by (unfold Queue.to_bool; by rewrite Hk).
  rewrite Hw. by destruct (cf_policy cf).
Qed.

Lemma peek_elem s :
  queue_ok (obj_lt (sc_objs s)) (sc_waiting s) → Queue.to_bool (sc_waiting s) = true →
  ∃ i, Queue.peek_request (sc_waiting s) = Ok i ∧ i ∈ Queue.items (sc_waiting s).
Proof.
  intros Hq Hb. destruct (pop_request_spec (obj_lt (sc_objs s)) (obj_lt_asym _) (obj_ge_trans _) _ Hq)
    as (i & q' & _ & Hi & _ & _ & Hp & _).
  { intros E. unfold Queue.to_bool in Hb. by rewrite E in Hb. }
  exists i. split; [done|]. rewrite Hp. by left.
Qed.

Lemma waiting_loop_spec B fuel : ∀ s st skipped,
  waiting_turn B s st s → len (sc_running s) ≤ cf_max_num_seqs cf →
  (length (Queue.items (sc_waiting s)) < fuel)%nat →
  wp (Sched.waiting_loop cf None gr set_iter fuel st skipped) (λ '(st', skipped') s',
    skipped' = skipped ∧ waiting_turn B s st' s' ∧ len (sc_running s') ≤ cf_max_num_seqs cf) s.
Proof.
  induction fuel as [|fuel IH]; intros s st skipped Hw Hlen Hfuel; [lia|]. cbn [Sched.waiting_loop]. wp_step.
  pose proof Hw as (_ & Hsv & I & Hpre & Hprev & Hres). pose proof (iv_skipped _ _ _ _ _ I) as Hk.
  assert (Queue.to_bool (sc_skipped_waiting s) = false) as -> by (unfold Queue.to_bool; by rewrite Hk).
  rewrite orb_false_r. destruct (Queue.to_bool (sc_waiting s)) eqn:Eb; simpl; [|by wp_step].
  destruct (Z.ltb_spec 0 (st_budget st)) as [Hb|]; simpl; [|by wp_step].
  destruct (Z.eqb_spec (len (sc_running s)) (cf_max_num_seqs cf)) as [|Hne]; simpl; [by wp_step|].
  wp_step. apply select_waiting; [done..|]. wp_step. eapply wp_some; [done|]. wp_step.
  destruct (peek_elem s (iv_queue _ _ _ _ _ I) Eb) as (i & Hpeek & Hi). eapply wp_of_res; [exact Hpeek|]. wp_step.
  eapply wp_mono; [by apply (schedule_waiting_request_spec B s st i)|].
  intros [[c st1] sk1] s1 (-> & W & Hl & Hc). destruct c; [|wp_step; split_and!; [done..|lia]].
  specialize (Hc eq_refl). eapply wp_mono; [apply (IH s1 st1 skipped); [|lia|lia]|].
  { destruct W as [_ W]. by split. }
  intros [st2 sk2] s2 (-> & W2 & Hl2). split_and!; try done. by eapply waiting_turn_trans.
Qed.

(** ** After the loops *)
Definition loops_post (B : Z) (s : Scheduler) (st' : StepState) (s' : Scheduler) : Prop :=
  same_env s s' ∧ step_inv B s' st' ∧ inv mml (adv_of st') ∅ [] s' ∧ resumed_ok s' st' ∧
  len (sc_running s') ≤ cf_max_num_seqs cf ∧ (st_preempted st' = [] → prev_ok s').

Lemma schedule_waiting_spec B s s1 st :
  turn_post B s st s1 → len (sc_running s) ≤ cf_max_num_seqs cf →
  wp (Sched.schedule_waiting cf None gr set_iter st) (λ st' s', loops_post B s st' s') s1.
Proof.
  intros (Henv & Hsv & Hai & I & Hprev & Hlen) Hmax. unfold Sched.schedule_waiting. wp_step.
  assert (Hres : resumed_ok s1 st) by (intros i r; rewrite (ai_resumed _ _ Hai); set_solver).
  destruct (bool_decide (st_preempted st = [])) eqn:Ep; cbn [andb]; [|wp_step; split_and!; try done; lia].
  apply bool_decide_eq_true in Ep. destruct (bool_decide _); [|wp_step; split_and!; try done; lia].
  cbv zeta. remember (S (length (Queue.items (sc_waiting s1)) + length (Queue.items (sc_skipped_waiting s1)))) as fuel eqn:Ef.
  wp_step. eapply wp_mono; [apply (waiting_loop_spec B fuel s1 st); [split; [done|]; split_and!; auto|lia|lia]|].
  intros [st' sk] s' (-> & (Henv' & Hsv' & I' & Hp' & Hprev' & Hres') & Hlen'). wp_step.
  assert (Queue.to_bool (Queue.create_request_queue (A := Z) (cf_policy cf)) = false) as -> by by destruct (cf_policy cf).
  wp_step. split_and!; try done. by etrans.
Qed.

Lemma wp_mapM_read {A B} (f : A → Sch B) (l : list A) s (R : A → B → Prop) :
  (∀ x, x ∈ l → wp (f x) (λ b s', s' = s ∧ R x b) s) →
  wp (mapM_ f l) (λ bs s', s' = s ∧ Forall2 R l bs) s.
Proof.
  intros Hf. induction l as [|x l IH]; simpl; wp_step; [done|].
  eapply wp_mono; [apply Hf; by left|]. intros b ? [-> Hb]. wp_step.
  eapply wp_mono; [apply IH; intros y Hy; apply Hf; by right|]. intros bs ? [-> Hbs]. wp_step. by repeat constructor.
Qed.

(** A scheduled request has an object, and its tokens and blocks are known. *)
Lemma scheduled_facts B s st i :
  inv mml (adv_of st) ∅ [] s → step_inv B s st → i ∈ scheduled st →
  ∃ r n b, sc_objs s !! i = Some r ∧ dict_get (request_id r) (st_num st) = Some n ∧
    dict_get (request_id r) (st_blocks st) = Some b.
Proof.
  intros I Hsv Hi. destruct (sv_has _ _ _ Hsv i Hi) as (id & Htab & Hn & Hb).
  apply dict_get_is_Some in Hn as [n Hn]. apply dict_get_is_Some in Hb as [b Hb].
  destruct (iv_obj _ _ _ _ _ I id i Htab) as (r & Hr & <- & _). by exists r, n, b.
Qed.

Lemma new_entry_spec B s st i :
  inv mml (adv_of st) ∅ [] s → step_inv B s st → i ∈ scheduled st →
  wp (Sched.new_entry cf st i) (λ _ s', s' = s) s.
Proof.
  intros I Hsv Hi. destruct (scheduled_facts _ _ _ _ I Hsv Hi) as (r & n & b & Hr & Hn & Hb).
  unfold Sched.new_entry. wp_step. eapply wp_obj; [done|]. wp_step. eapply wp_some; [done|]. by wp_step.
Qed.

Lemma cached_entries_spec B s st resumed l : ∀ cd,
  inv mml (adv_of st) ∅ [] s → step_inv B s st → (∀ i, i ∈ l → i ∈ scheduled st) →
  (resumed = true → ∀ i r, i ∈ l → sc_objs s !! i = Some r → request_id r ∉ sc_prev_step_scheduled_req_ids s) →
  wp (Sched.cached_entries cf resumed st cd l) (λ _ s', s' = s) s.
Proof.
  induction l as [|i l IH]; intros cd I Hsv Hl Hres; simpl; wp_step; [done|].
  destruct (scheduled_facts _ _ _ i I Hsv) as (r & n & b & Hr & Hn & Hb); [apply Hl; by left|].
  eapply (wp_mono _ (λ _ s', s' = s)).
  - unfold Sched.cached_entry. wp_step. eapply wp_obj; [done|]. wp_step.
    eapply (wp_mono _ (λ _ s', s' = s)).
    { destruct (use_pp cf && _); [wp_step; eapply wp_some; [done|]|]; by wp_step. }
    intros ntk ? ->. wp_step. split.
    { destruct resumed; [|done]. simpl. apply negb_true_iff, bool_decide_eq_false. apply (Hres eq_refl i r); [by left|done]. }
    eapply wp_some; [done|]. by wp_step.
  - intros cd' ? ->. apply IH; try done; [intros j Hj; apply Hl; by right|].
    intros Er j rj Hj. apply (Hres Er); by right.
Qed.

(** The tokens scheduled are counted. *)
Lemma inv_count adv s i r r' id n :
  inv mml adv ∅ [] s → (id, i) ∈ sc_requests s → i ∈ sc_running s → sc_objs s !! i = Some r → adv id = n →
  same_key r r' → same_static r r' → status r' = status r → num_computed_tokens r' = num_computed_tokens r + n →
  inv mml (λ q, if decide (q = id) then 0 else adv q) ∅ [] (sc_set_objs (<[i := r']> (sc_objs s)) s).
Proof.
  intros I Htab Hrun Hr Hadv Hkey Hstat Est Ec. destruct (running_facts _ _ _ I Hrun) as (r0 & Hr0 & Htab0 & Hreq & Hok & Hnw & _).
  simplify_eq. pose proof (inv_obj _ _ _ _ _ _ _ I Htab Hr) as <-.
  pose proof (proj1 (proj2 (proj2 Hkey))) as Eid.
  assert (Hreq' : req_inv mml r') by (by eapply req_inv_same).
  destruct I. split; simpl; try done.
  - intros id j Hj. destruct (iv_obj id j Hj) as (rj & Hrj & Hid & Hreqj).
    destruct (decide (j = i)) as [->|Hne]; [|exists rj; by rewrite lookup_insert_ne].
    exists r'. rewrite lookup_insert_eq. split_and!; try done. congruence.
  - eapply queue_ok_ext; [|done]. intros j Hj. destruct (iv_exists j) as [rj Hrj]; [set_solver|].
    exists rj, rj. rewrite lookup_insert_ne by (by intros ->). done.
  - intros j Hj. destruct (decide (j = i)) as [->|Hne]; [by rewrite lookup_insert_eq|].
    rewrite lookup_insert_ne by done. auto.
  - intros j Hj HD. destruct (decide (j = i)) as [->|Hne].
    + destruct Hok as (r0 & Hr0' & H1 & H2 & H3 & H4 & H5). simplify_eq. exists r'. simpl.
      rewrite lookup_insert_eq, Eid, decide_True, Est, Ec, Z.add_0_r by done.
      destruct Hstat as ((_ & Etok & _) & _). unfold num_tokens in *. rewrite Etok. split_and!; done || lia.
    + destruct (iv_running j Hj HD) as (rj & Hrj & H'). exists rj. simpl. rewrite lookup_insert_ne by done.
      rewrite decide_False; [done|]. intros E. apply Hne.
      destruct (iv_obj _ _ Htab0) as (? & ? & _).
      assert (Hin : j ∈ (sc_requests s).*2).
      { rewrite <- iv_parts. apply list_elem_of_filter. split; [done|]. set_solver. }
      apply list_elem_of_fmap in Hin as ([idj j'] & -> & Hin). simpl in *.
      destruct (iv_obj _ _ Hin) as (rj' & Hrj' & <- & _). simplify_eq. rewrite E in Hin.
      apply dict_get_elem in Hin, Htab0; [congruence|done..].
  - intros j Hj HD. destruct (decide (j = i)) as [->|Hne]; [done|].
    destruct (iv_waiting j Hj HD) as (rj & Hrj & H'). exists rj. simpl. by rewrite lookup_insert_ne.
  - intros j rj. destruct (decide (j = i)) as [->|Hne]; [|rewrite lookup_insert_ne by done; apply iv_alive].
    rewrite lookup_insert_eq. intros [= <-] _. by rewrite Eid.
Qed.

(** The counts of a request only grow. *)
Definition counts_grow (s s' : Scheduler) : Prop :=
  ∀ j r, sc_objs s !! j = Some r → ∃ r', sc_objs s' !! j = Some r' ∧ request_id r' = request_id r ∧
    status r' = status r ∧ num_computed_tokens r ≤ num_computed_tokens r'.

Definition same_lists (s s' : Scheduler) : Prop :=
  same_env s s' ∧ sc_running s' = sc_running s ∧ sc_waiting s' = sc_waiting s.

Definition counted (s : Scheduler) (kv : string * Z) : Prop :=
  0 < kv.2 ∧ ∃ i r, (kv.1, i) ∈ sc_requests s ∧ i ∈ sc_running s ∧ sc_objs s !! i = Some r ∧
    request_id r = kv.1 ∧ kv.2 ≤ num_computed_tokens r ≤ num_tokens r.

Lemma advance_request_spec adv s flag id n :
  inv mml adv ∅ [] s → adv id = n → 0 < n → (∃ i, (id, i) ∈ sc_requests s ∧ i ∈ sc_running s) →
  wp (Sched.advance_request flag (id, n)) (λ _ s',
    inv mml (λ q, if decide (q = id) then 0 else adv q) ∅ [] s' ∧ same_lists s s' ∧ counts_grow s s' ∧
    counted s' (id, n)) s.
Proof.
  intros I Hadv Hn (i & Htab & Hrun). destruct (running_facts _ _ _ I Hrun) as (r & Hr & Htab' & Hreq & Hok & _).
  pose proof (inv_obj _ _ _ _ _ _ _ I Htab Hr) as Eid.
  destruct Hok as (r0 & Hr0 & Hst & Hc & Ha & Hle & Hh). simplify_eq.
  unfold Sched.advance_request. wp_step. eapply wp_some; [by apply dict_get_elem; [apply (iv_keys _ _ _ _ _ I)|]|].
  wp_step. eapply wp_upd; [done|]. wp_step. apply wp_upd_again. wp_step. simpl. set (r' := set_is_prefill_chunk _ _).
  assert (Hstat : same_static r r').
  { split; [by repeat split|]. repeat split; [apply Hreq|auto|]. simpl. by rewrite Hst. }
  pose proof (inv_count adv s i r r' (request_id r) (adv (request_id r)) I Htab Hrun Hr eq_refl) as I'.
  specialize (I' ltac:(done) Hstat eq_refl eq_refl). set (s1 := sc_set_objs _ s) in *.
  assert (Hpost : ∀ inf, inv mml (λ q, if decide (q = request_id r) then 0 else adv q) ∅ [] (sc_set_inflight_prefills inf s1) ∧
    same_lists s (sc_set_inflight_prefills inf s1) ∧ counts_grow s (sc_set_inflight_prefills inf s1) ∧
    counted (sc_set_inflight_prefills inf s1) (request_id r, adv (request_id r))).
  { intros inf. split_and!; [by apply inv_inflight|done| |].
    - intros j rj Hj. simpl. destruct (decide (j = i)) as [->|Hne]; [|rewrite lookup_insert_ne by done; by exists rj].
      simplify_eq. rewrite lookup_insert_eq. exists r'. split_and!; try done. simpl. lia.
    - split; [done|]. exists i, r'. unfold num_tokens in *.
      split_and!; try done; [apply lookup_insert_eq|simpl; lia..]. }
  eapply wp_obj; [apply lookup_insert_eq|]. wp_step. destruct (negb (is_prefill_chunk r')); wp_step; [apply Hpost|].
  apply (Hpost (sc_inflight_prefills s1)).
Qed.

Lemma counts_grow_trans s1 s2 s3 : counts_grow s1 s2 → counts_grow s2 s3 → counts_grow s1 s3.
Proof.
  intros H1 H2 j r Hr. destruct (H1 j r Hr) as (r2 & Hr2 & E2 & S2 & L2).
  destruct (H2 j r2 Hr2) as (r3 & Hr3 & E3 & S3 & L3). exists r3. split_and!; try congruence. lia.
Qed.

Lemma counted_mono adv s s' kv :
  inv mml adv ∅ [] s' → (∀ q, 0 ≤ adv q) → same_lists s s' → counts_grow s s' → counted s kv → counted s' kv.
Proof.
  intros I Hadv ((Eq & _) & Er & _) Hg (Hn & i & r & Htab & Hrun & Hr & Hid & Hle & _).
  destruct (Hg i r Hr) as (r' & Hr' & E' & _ & L'). split; [done|]. rewrite <- Eq in Htab. rewrite <- Er in Hrun.
  destruct (running_facts _ _ _ I Hrun) as (r0 & Hr0 & _ & _ & (r1 & Hr1 & _ & _ & Ha & Hle' & _) & _). simplify_eq.
  exists i, r'. split_and!; try done; [congruence|lia|]. specialize (Hadv (request_id r')). lia.
Qed.

Lemma advance_all_spec l : ∀ flag s,
  NoDup l.*1 → inv mml (λ q, default 0 (dict_get q l)) ∅ [] s →
  (∀ id n, (id, n) ∈ l → 0 < n ∧ ∃ i, (id, i) ∈ sc_requests s ∧ i ∈ sc_running s) →
  wp (Sched.fold_items Sched.advance_request flag l) (λ _ s',
    inv mml (λ _, 0) ∅ [] s' ∧ same_lists s s' ∧ counts_grow s s' ∧ ∀ kv, kv ∈ l → counted s' kv) s.
Proof.
  induction l as [|[id n] l IH]; intros flag s Hnd I Hl; cbn [Sched.fold_items]; wp_step.
  { split_and!; [done|done| |set_solver]. intros j r Hr. by exists r. }
  apply NoDup_cons in Hnd as [Hid Hnd]. destruct (Hl id n) as [Hn Hi]; [by left|].
  eapply wp_mono; [apply (advance_request_spec _ s flag id n I); [|done..]|].
  { simpl. by rewrite decide_True. }
  intros flag' s1 (I1 & Hsl & Hg & Hc). eapply wp_mono; [apply IH; [done| |]|].
  - eapply inv_adv; [exact I1|]. intros i r _ _ _. simpl. case_decide as E; [|by rewrite decide_False by done].
    subst. by rewrite (proj2 (dict_get_None _ _) Hid).
  - intros id' n' Hin. destruct (Hl id' n') as (Hn' & i & Htab & Hrun); [by right|]. split; [done|]. exists i.
    by rewrite (proj1 (proj1 Hsl)), (proj1 (proj2 Hsl)).
  - intros flag2 s2 (I2 & Hsl2 & Hg2 & Hc2). split_and!; [done| |by eapply counts_grow_trans|].
    + destruct Hsl as (? & ? & ?), Hsl2 as (? & ? & ?). split; [by etrans|]. split; congruence.
    + intros kv [->|Hkv]%elem_of_cons; [|by apply Hc2]. by eapply (counted_mono (λ _, 0)).
Qed.

(** ** The whole step *)

(** What a step promises: the invariant, and an output within the budgets. *)
Record step_post (s : Scheduler) (out : SchedulerOutput) (s' : Scheduler) : Prop := {
  sp_inv : inv mml (λ _, 0) ∅ [] s';
  sp_prev : prev_ok s';
  sp_env : sc_requests s' = sc_requests s ∧ sc_pause_state s' = sc_pause_state s;
  sp_running : len (sc_running s') ≤ cf_max_num_seqs cf;
  sp_keys : NoDup (so_num_scheduled_tokens out).*1;
  sp_counted kv : kv ∈ so_num_scheduled_tokens out → counted s' kv;
  sp_total : so_total_num_scheduled_tokens out = Sched.sum_values (so_num_scheduled_tokens out);
  sp_budget : so_total_num_scheduled_tokens out ≤ max_num_scheduled_tokens cf;
  sp_spec : so_scheduled_spec_decode_tokens out = [];
  sp_pending : so_pending_structured_output_tokens out = false;
}.

Lemma inv_enc adv D X s e : inv mml adv D X s → enc_unused e → inv mml adv D X (sc_set_enc e s).
Proof. intros []. by split. Qed.

Lemma freed_hashes_spec adv s :
  inv mml adv ∅ [] s →
  wp enc_get_freed_mm_hashes (λ _ s', inv mml adv ∅ [] s' ∧ ∃ e, s' = sc_set_enc e s) s.
Proof.
  intros I. pose proof (iv_enc _ _ _ _ _ I) as He. unfold enc_get_freed_mm_hashes, on_enc, wp.
  destruct (sc_enc s) as [c|c] eqn:Ee; simpl in *; (split; [by apply inv_enc|by eexists]).
Qed.

Lemma scheduled_count B s st :
  step_inv B s st → len (st_new st) + len (st_resumed st) + len (st_running st) ≤ len (sc_running s).
Proof.
  intros []. assert (length (scheduled st) ≤ length (sc_running s))%nat as H.
  { by apply submseteq_length, NoDup_submseteq. }
  unfold scheduled in H. rewrite !length_app in H. lia.
Qed.

Lemma ids_of_spec s l :
  (∀ i, i ∈ l → is_Some (sc_objs s !! i)) → wp (Sched.ids_of l) (λ _ s', s' = s) s.
Proof.
  intros Hl. eapply wp_mono; [apply (wp_mapM_read _ l s (λ _ _, True))|by intros ? ? [-> _]].
  intros i Hi. destruct (Hl i Hi) as [r Hr]. wp_step. eapply wp_obj; [done|]. by wp_step.
Qed.

Lemma update_after_schedule_spec l spec s :
  NoDup l.*1 → inv mml (λ q, default 0 (dict_get q l)) ∅ [] s →
  (∀ id n, (id, n) ∈ l → 0 < n ∧ ∃ i, (id, i) ∈ sc_requests s ∧ i ∈ sc_running s) →
  wp (Sched._update_after_schedule cf l spec) (λ x s',
    inv mml (λ _, 0) ∅ [] s' ∧ same_lists s s' ∧ counts_grow s s' ∧ (∀ kv, kv ∈ l → counted s' kv) ∧ x.2 = false) s.
Proof.
  intros Hnd I Hl. unfold Sched._update_after_schedule, Sched.base_update_after_schedule. wp_step.
  eapply wp_mono; [by apply advance_all_spec|]. intros flag s1 (I1 & Hsl & Hg & Hc). wp_step.
  rewrite (bc_async _ Hcf). wp_step. split_and!; try done. by destruct I1.
Qed.

(** The entries of the output read the state and leave it as it is. *)
Lemma output_entries_spec {A} B s st (f : list NewRequestData → CachedRequestData → Sch A) Q :
  inv mml (adv_of st) ∅ [] s → step_inv B s st → resumed_ok s st →
  (∀ l cd, wp (f l cd) Q s) →
  wp (let '(new_reqs, resumed_reqs) :=
        if cf_use_v2_model_runner cf then (st_new st ++ st_resumed st, []) else (st_new st, st_resumed st) in
      l ← mapM_ (Sched.new_entry cf st) new_reqs;
      cd ← Sched._make_cached_request_data cf st (st_running st) resumed_reqs;
      f l cd) Q s.
Proof.
  intros I Hsv Hres Hf.
  set (lists := if cf_use_v2_model_runner cf then _ else _).
  assert (Hin : (∀ i, i ∈ lists.1 → i ∈ scheduled st) ∧ (∀ i, i ∈ lists.2 → i ∈ st_resumed st)).
  { unfold lists, scheduled. destruct (cf_use_v2_model_runner cf); simpl; set_solver. }
  destruct lists as [new res]. simpl in Hin. destruct Hin as [Hnew Hr]. wp_step. eapply wp_mono.
  { apply (wp_mapM_read _ new s (λ _ _, True)). intros i Hi.
    eapply wp_mono; [apply (new_entry_spec B s st i); auto|]. by intros ? ? ->. }
  intros l ? [-> _]. wp_step. unfold Sched._make_cached_request_data. wp_step. eapply wp_mono.
  { apply (cached_entries_spec B s st); try done. intros i Hi. unfold scheduled. set_solver. }
  intros cd ? ->. eapply wp_mono.
  { apply (cached_entries_spec B s st); try done; [|intros _ i r Hi; apply (Hres i r); auto].
    intros i Hi. unfold scheduled. apply Hr in Hi. set_solver. }
  intros cd' ? ->. apply Hf.
Qed.

Lemma finish_schedule_spec B s s1 st :
  B ≤ max_num_scheduled_tokens cf → loops_post B s st s1 →
  wp (Sched.finish_schedule cf st) (step_post s) s1.
Proof.
  intros HB (Henv & Hsv & I & Hres & Hmax & Hprev). pose proof (sv_budget _ _ _ Hsv) as [Hsum Hbud].
  unfold Sched.finish_schedule. wp_step. split; [apply Z.leb_le; lia|]. split; [by apply Z.leb_le|].
  split; [by apply Z.leb_le|]. split; [by apply Z.leb_le, (scheduled_count B)|].
  eapply (wp_mono _ (λ _ s2, ∃ k', s2 = sc_set_kv k' s1 ∧ kv_good k' ∧ kv_keeps nobody (sc_kv s1) k')).
  { destruct (sc_running s1) as [|i l] eqn:Erun; wp_step.
    { exists (sc_kv s1). split_and!; [by destruct s1|apply I|apply kv_keeps_refl]. }
    destruct (running_facts _ _ i I) as (r & Hr & _ & _ & (r' & Hr' & _ & _ & _ & _ & Hh) & _); [rewrite Erun; by left|].
    simplify_eq. eapply wp_obj; [done|]. eapply wp_on_kv, wp_mono; [by eapply kp_prefix; [apply I|]|].
    intros ncp k' [Hg Hk]. by exists k'. }
  intros ncp s2 (k' & -> & Hg & Hk). pose proof (inv_kv_nobody _ _ _ _ k' I Hg Hk) as I2. set (s2 := sc_set_kv k' s1) in *.
  eapply (output_entries_spec B s2 st); [done|by destruct Hsv|done|]. intros news cached. wp_step.
  assert (I3 : inv mml (adv_of st) ∅ [] (sc_set_prev_step_scheduled_req_ids (list_to_set (st_num st).*1) s2)).
  { destruct I2. by split. }
  set (s3 := sc_set_prev_step_scheduled_req_ids _ s2) in *.
  eapply (wp_mono _ (λ _ s4, ∃ k4, s4 = sc_set_kv k4 s3 ∧ inv mml (adv_of st) ∅ [] s4)).
  { destruct (cf_needs_kv_cache_zeroing cf); wp_step; [|exists (sc_kv s3); by destruct s1].
    eapply wp_on_kv, wp_mono; [apply kp_zero, I3|]. intros l k4 [Hg4 Hk4]. wp_step. exists k4. split; [done|].
    by apply inv_kv_nobody. }
  intros zero s4 (k4 & -> & I4). wp_step. eapply wp_mono.
  { apply ids_of_spec. intros i Hi. apply (iv_exists _ _ _ _ _ I4). apply (sv_preempted _ _ _ Hsv) in Hi. set_solver. }
  intros pre ? ->. wp_step. eapply wp_mono; [apply (freed_hashes_spec _ _ I4)|]. intros hashes s5 (I5 & e & ->).
  wp_step. eapply wp_mono; [apply update_after_schedule_spec; [apply Hsv|exact I5|]|].
  { intros id n Hin. destruct (sv_num _ _ _ Hsv _ _ Hin) as (Hn & i & Htab & Hi). split; [done|].
    exists i. split; [done|]. by apply (sv_sub _ _ _ Hsv). }
  intros [has pending] s6 (I6 & (Henv6 & Er6 & Ew6) & Hg6 & Hc6 & Hpend). wp_step. split; simpl; try done.
  - intros j rj Hj Hrj _. destruct Henv6 as (Eq6 & Ep6 & _). simpl in Eq6, Ep6, Ew6. rewrite Ep6, elem_of_list_to_set.
    intros ([id n] & E & Hin)%list_elem_of_fmap. simpl in E. subst id.
    destruct (sv_num _ _ _ Hsv _ _ Hin) as (_ & i & Htab & Hi).
    destruct (waiting_facts _ _ _ I6 Hj) as (r' & Hr' & Htab' & _ & _ & _ & _ & Hn). simplify_eq.
    rewrite Eq6 in Htab'. assert (j = i) as -> by (eapply inv_same_id; [exact I|exact Htab'|exact Htab]).
    apply Hn. rewrite Er6. by apply (sv_sub _ _ _ Hsv).
  - destruct Henv6 as (-> & _ & ->), Henv as (<- & _ & <-). done.
  - by rewrite Er6.
  - apply Hsv.
  - lia.
  - apply Hsv.
Qed.

(** The state of a step begins with nothing scheduled. *)
Lemma initial_step_inv s :
  let st := Sched.initial_step cf s in
  step_inv (st_budget st) s st ∧ at_index s st ∧ st_budget st ≤ max_num_scheduled_tokens cf.
Proof.
  pose proof (bc_budget _ Hcf). unfold Sched.initial_step. simpl. split_and!.
  - split; simpl; try (set_solver || constructor); [done|]. case_bool_decide; lia.
  - split; simpl; [done..|set_solver].
  - case_bool_decide; lia.
Qed.

(** The scheduling step, from any state the invariant allows *)
Lemma schedule_spec s :
  inv mml (λ _, 0) ∅ [] s → prev_ok s → len (sc_running s) ≤ cf_max_num_seqs cf →
  wp (Sched.schedule cf None gr set_iter) (step_post s) s.
Proof.
  intros I Hprev Hmax. unfold Sched.schedule. wp_step.
  set (s1 := sc_set_current_step _ s). assert (I1 : inv mml (λ _, 0) ∅ [] s1) by (destruct I; by split).
  eapply wp_on_kv, wp_mono; [apply kp_step, I1|]. intros [] k' [Hg Hk].
  pose proof (inv_kv_nobody _ _ _ _ k' I1 Hg Hk) as I2. set (s2 := sc_set_kv k' s1) in *.
  destruct (initial_step_inv s1) as (Hsv & Hai & HB). set (st := Sched.initial_step cf s1) in *.
  remember (S (length (sc_running s1))) as fuel eqn:Ef. wp_step.
  eapply wp_mono; [apply (running_loop_spec (st_budget st) fuel s2 st)|].
  { exact I2. } { destruct Hsv; by split. } { destruct Hai; by split. } { done. } { rewrite Ef. simpl. lia. } { lia. }
  intros st1 s3 Hturn. wp_step. unfold Sched.record_loras. rewrite (bc_lora _ Hcf). wp_step.
  eapply wp_mono; [by apply (schedule_waiting_spec (st_budget st) s2)|]. intros st2 s4 Hl.
  eapply wp_mono; [by apply (finish_schedule_spec (st_budget st) s2)|]. intros out s5 []. by split.
Qed.
End safe.
