(* ===== verification/UpdateSafe.v ===== *)
(** * Taking in an output is safe

    The operations between two scheduling steps, from states that satisfy the
    scheduler's invariant: [update_from_output] of any output of an earlier step,
    [add_request], [finish_requests], pausing and resetting the prefix cache
    neither raise nor break the invariant. *)
From S2P Require Import Prelude FreeQueue Request BlockHash BlockPool KVSpec Coordinator KVCacheManager.
From S2P Require Import EncoderCache RequestQueue SchedUtils SchedState Schedule SchedUpdate SchedInv ScheduleSafe.

Lemma queue_ok_nil {A} (lt : A → A → bool) q : Queue.items q = [] → queue_ok lt q.
Proof. destruct q as [l|h]; simpl; [done|]. intros -> i Hi Hp a b Ha. done. Qed.

(** ** Requests that stop *)
Lemma dict_del_snd {A} k (d : list (string * A)) (Q : A → Prop) `{∀ a, Decision (Q a)} :
  (∀ k' a, (k', a) ∈ d → k' ≠ k ↔ Q a) → (dict_del k d).*2 = filter Q d.*2.
Proof.
  unfold dict_del. induction d as [|[k' a] d IH]; intros Heq; [done|]. rewrite fmap_cons, !filter_cons. cbn [fst snd].
  pose proof (Heq k' a ltac:(by left)) as Hka.
  destruct (decide (k' ≠ k)), (decide (Q a)); try tauto; rewrite <- IH; try done; intros; apply Heq; by right.
Qed.

Lemma list_filter_none {A} (P : A → Prop) `{∀ x, Decision (P x)} (l : list A) :
  (∀ x, x ∈ l → ¬ P x) → filter P l = [].
Proof.
  induction l as [|x l IH]; intros Hl; [done|]. rewrite filter_cons, decide_False by (apply Hl; by left).
  apply IH. intros y Hy. apply Hl. by right.
Qed.

Section stops.
Context `{KV : KVPromises mml hasher}.
Implicit Types (s : Scheduler) (adv : string → Z) (D : gset Z).

(** A request stops: its blocks are freed and it leaves the table, not yet its list. *)
Lemma inv_stop adv D X s s' i r r' k' :
  inv mml adv D X s → sc_objs s !! i = Some r → (request_id r, i) ∈ sc_requests s → same_key r r' →
  kv_good k' → kv_keeps (only (request_id r)) (sc_kv s) k' → kv_fresh k' (request_id r) →
  sc_objs s' = <[i := r']> (sc_objs s) → sc_requests s' = dict_del (request_id r) (sc_requests s) →
  sc_running s' = sc_running s → sc_waiting s' = sc_waiting s → sc_skipped_waiting s' = sc_skipped_waiting s →
  sc_kv s' = k' → sc_enc s' = sc_enc s → status_is_finished (status r') = true →
  inv mml adv ({[ i ]} ∪ D) X s'.
Proof.
  intros I Hr Htab Hkey Hg Hk Hf Eo Eq Er Ew Es Ek Ee Hdone.
  assert (Hid : ∀ id j, (id, j) ∈ sc_requests s → id ≠ request_id r ↔ j ≠ i).
  { intros id j Hj. pose proof (inv_same_id adv D X s id j i I Hj) as H1.
    destruct (iv_obj _ _ _ _ _ I id j Hj) as (rj & Hrj & <- & _). split.
    - intros Hne ->. apply Hne. by simplify_eq.
    - intros Hne E. apply Hne, H1. by rewrite E. }
  assert (Hother : ∀ j rj, j ∈ sc_running s ++ Queue.items (sc_waiting s) → j ∉ {[ i ]} ∪ D →
            sc_objs s !! j = Some rj → request_id rj ≠ request_id r).
  { intros j rj Hj HD Hrj. destruct (inv_table adv D X s j I) as (rj' & Hrj' & Htabj & _); [apply elem_of_app; auto|set_solver|].
    simplify_eq. apply Hid in Htabj. apply Htabj. set_solver. }
  destruct I. split; rewrite ?Eo, ?Eq, ?Er, ?Ew, ?Es, ?Ek, ?Ee; try done.
  - rewrite dict_del_fst. by apply NoDup_filter.
  - intros id j Hj. apply list_elem_of_filter in Hj as [Hne Hj]. simpl in Hne.
    rewrite lookup_insert_ne; [by apply iv_obj|]. apply not_eq_sym. by apply (Hid id j).
  - rewrite (dict_del_snd _ _ (λ j, j ≠ i)) by done.
    rewrite <- iv_parts, list_filter_filter. apply reflexive_eq, list_filter_iff. set_solver.
  - eapply queue_ok_ext; [|done]. intros j Hj. destruct (iv_exists j) as [rj Hrj]; [set_solver|].
    destruct (decide (j = i)) as [->|Hne]; [|exists rj, rj; by rewrite lookup_insert_ne].
    exists r, r'. by rewrite lookup_insert_eq.
  - intros j Hj. destruct (decide (j = i)) as [->|Hne]; [by rewrite lookup_insert_eq|].
    rewrite lookup_insert_ne by done. auto.
  - intros j Hj HD. destruct (iv_running j Hj) as (rj & Hrj & H1 & H2 & H3 & H4 & H5); [set_solver|].
    exists rj. rewrite Eo, Ek, lookup_insert_ne by set_solver. split_and!; try done.
    apply Hk; [|done]. apply (Hother j); set_solver.
  - intros j Hj HD. destruct (iv_waiting j Hj) as (rj & Hrj & H1 & H2 & H3); [set_solver|].
    exists rj. rewrite Eo, Ek, lookup_insert_ne by set_solver. split_and!; try done.
    apply Hk; [|done]. apply (Hother j); set_solver.
  - intros q Hq. destruct (decide (q = request_id r)) as [->|Hne]; [done|]. apply Hk; [done|]. apply iv_fresh.
    intros Hin. apply Hq. rewrite dict_del_fst. by apply list_elem_of_filter.
  - intros j rj. destruct (decide (j = i)) as [->|Hne]; [rewrite lookup_insert_eq; intros [= <-]; congruence|].
    rewrite lookup_insert_ne by done. intros Hrj Hal. pose proof (iv_alive j rj Hrj Hal) as Hj.
    apply list_elem_of_filter. split; [by apply (Hid _ j)|done].
Qed.

(** The stopped requests leave the lists. *)
Lemma inv_unlist adv A B s s' :
  inv mml adv (A ∪ B) [] s → (∀ i, i ∈ A → i ∈ sc_running s) → (∀ i, i ∈ B → i ∈ Queue.items (sc_waiting s)) →
  sc_running s' = filter (λ i, i ∉ A) (sc_running s) →
  Queue.items (sc_waiting s') ≡ₚ filter (λ i, i ∉ B) (Queue.items (sc_waiting s)) →
  queue_ok (obj_lt (sc_objs s)) (sc_waiting s') →
  sc_objs s' = sc_objs s → sc_requests s' = sc_requests s → sc_skipped_waiting s' = sc_skipped_waiting s →
  sc_kv s' = sc_kv s → sc_enc s' = sc_enc s →
  inv mml adv ∅ [] s'.
Proof.
  intros I HA HB Er Ew Hq Eo Eq Es Ek Ee. pose proof (iv_nodup _ _ _ _ _ I) as Hnd. simpl in Hnd.
  apply NoDup_app in Hnd as (Hnd1 & Hd & Hnd2).
  destruct I. split; rewrite ?Eo, ?Eq, ?Es, ?Ek, ?Ee; try done; simpl in *.
  - rewrite <- iv_parts, !filter_app, Er, Ew. rewrite !(filter_id _ _ (λ j _, not_elem_of_empty j)).
    apply reflexive_eq. f_equal; apply filter_ext_in; intros j Hj; specialize (Hd j); set_solver.
  - rewrite Er, Ew. apply NoDup_app. split_and!; [by apply NoDup_filter| |by apply NoDup_filter].
    intros j Hj Hj'. apply list_elem_of_filter in Hj as [_ Hj], Hj' as [_ Hj']. by apply (Hd j).
  - intros j Hj. apply iv_exists. rewrite Er, Ew in Hj.
    apply elem_of_app in Hj as [[_ Hj]%list_elem_of_filter|[_ Hj]%list_elem_of_filter]; apply elem_of_app; auto.
  - intros j Hj _. rewrite Er in Hj. apply list_elem_of_filter in Hj as [HnA Hj].
    destruct (iv_running j Hj) as (rj & H').
    { intros [?|?%HB]%elem_of_union; [done|by apply (Hd j)]. }
     exists rj. by rewrite Eo, Ek.
  - intros j Hj _. rewrite Ew in Hj. apply list_elem_of_filter in Hj as [HnB Hj].
    destruct (iv_waiting j Hj) as (rj & H').
    { intros [?%HA|?]%elem_of_union; [by apply (Hd j)|done]. }
     exists rj. by rewrite Eo, Ek.
Qed.

(** Requests are taken out of their lists, and dropped once they have stopped. *)
Lemma inv_detach adv X s s' :
  inv mml adv ∅ [] s → NoDup X → (∀ i, i ∈ X → i ∈ sc_running s ++ Queue.items (sc_waiting s)) →
  sc_running s' = filter (λ i, i ∉ X) (sc_running s) →
  Queue.items (sc_waiting s') ≡ₚ filter (λ i, i ∉ X) (Queue.items (sc_waiting s)) →
  queue_ok (obj_lt (sc_objs s)) (sc_waiting s') → Queue.items (sc_skipped_waiting s') = [] →
  sc_objs s' = sc_objs s → sc_requests s' = sc_requests s → sc_kv s' = sc_kv s → sc_enc s' = sc_enc s →
  inv mml adv ∅ X s'.
Proof.
  intros I HX Hin Er Ew Hq Es Eo Eq Ek Ee. pose proof (iv_nodup _ _ _ _ _ I) as Hnd. simpl in Hnd.
  assert (Hperm : X ++ sc_running s' ++ Queue.items (sc_waiting s') ≡ₚ sc_running s ++ Queue.items (sc_waiting s)).
  { rewrite Er, Ew, <- filter_app. apply NoDup_Permutation; [|done|].
    - apply NoDup_app. split_and!; [done| |by apply NoDup_filter]. intros i Hi [? _]%list_elem_of_filter. done.
    - intros i. rewrite elem_of_app, list_elem_of_filter. destruct (decide (i ∈ X)); naive_solver. }
  destruct I. split; rewrite ?Eo, ?Eq, ?Ek, ?Ee; try done.
  - rewrite <- iv_parts. by apply filter_Permutation.
  - by rewrite Hperm.
  - intros i Hi. apply iv_exists. simpl. by rewrite <- Hperm.
  - intros i Hi _. rewrite Er in Hi. apply list_elem_of_filter in Hi as [_ Hi].
    destruct (iv_running i Hi) as (r & H'); [set_solver|]. exists r. by rewrite Eo, Ek.
  - intros i Hi _. rewrite Ew in Hi. apply list_elem_of_filter in Hi as [_ Hi].
    destruct (iv_waiting i Hi) as (r & H'); [set_solver|]. exists r. by rewrite Eo, Ek.
Qed.

Lemma inv_drop adv X s : inv mml adv (list_to_set X) X s → inv mml adv ∅ [] s.
Proof.
  intros I. pose proof (iv_nodup _ _ _ _ _ I) as Hnd. apply NoDup_app in Hnd as (Hnd1 & Hd & Hnd2).
  assert (HD : ∀ i, i ∈ sc_running s ++ Queue.items (sc_waiting s) → i ∉ (list_to_set X : gset Z)).
  { intros i Hi Hin. apply elem_of_list_to_set in Hin. by apply (Hd i). }
  destruct I. split; try done.
  - rewrite (filter_id _ _ (λ j _, not_elem_of_empty j)). simpl. rewrite filter_app, (filter_id _ _ HD) in iv_parts.
    rewrite (list_filter_none _ X) in iv_parts; [done|]. intros i Hi. rewrite elem_of_list_to_set. tauto.
  - intros i Hi. apply iv_exists. apply elem_of_app. by right.
  - intros i Hi _. apply iv_running; [done|]. apply HD, elem_of_app. by left.
  - intros i Hi _. apply iv_waiting; [done|]. apply HD, elem_of_app. by right.
Qed.

(** A new request enters the queue and the table. *)
Lemma inv_add s s' i r :
  inv mml (λ _, 0) ∅ [] s → request_id r ∉ (sc_requests s).*1 → sc_objs s !! i = None →
  req_inv mml r → status r = WAITING → num_computed_tokens r = 0 →
  sc_objs s' = <[i := r]> (sc_objs s) → sc_requests s' = dict_set (request_id r) i (sc_requests s) →
  sc_running s' = sc_running s → Queue.items (sc_waiting s') ≡ₚ i :: Queue.items (sc_waiting s) →
  queue_ok (obj_lt (sc_objs s')) (sc_waiting s') → sc_skipped_waiting s' = sc_skipped_waiting s →
  sc_kv s' = sc_kv s → sc_enc s' = sc_enc s →
  inv mml (λ _, 0) ∅ [] s'.
Proof.
  intros I Hid Hi Hreq Hst Hc Eo Eq Er Ew Hq Es Ek Ee.
  assert (Hni : i ∉ sc_running s ++ Queue.items (sc_waiting s)).
  { intros Hin. destruct (iv_exists _ _ _ _ _ I i Hin) as [r' Hr']. congruence. }
  assert (Hperm : sc_running s' ++ Queue.items (sc_waiting s') ≡ₚ i :: sc_running s ++ Queue.items (sc_waiting s)).
  { rewrite Er, Ew. by rewrite <- Permutation_middle. }
  rewrite dict_set_new in Eq by done.
  destruct I. split; rewrite ?Es, ?Ek, ?Ee; try done.
  - rewrite Eq, fmap_app. simpl. apply NoDup_app. split_and!; [done| |by apply NoDup_singleton].
    intros q Hq1 ->%list_elem_of_singleton. done.
  - intros id j Hj. rewrite Eq in Hj. rewrite Eo. apply elem_of_app in Hj as [Hj|[= -> ->]%list_elem_of_singleton].
    + destruct (iv_obj id j Hj) as (rj & Hrj & Hid'). exists rj. rewrite lookup_insert_ne; [done|]. intros ->. congruence.
    + exists r. by rewrite lookup_insert_eq.
  - rewrite Eq, fmap_app. simpl. rewrite (filter_id _ _ (λ j _, not_elem_of_empty j)). simpl in iv_parts.
    rewrite (filter_id _ _ (λ j _, not_elem_of_empty j)) in iv_parts. rewrite Hperm, iv_parts.
    by rewrite Permutation_app_comm.
  - simpl. rewrite Hperm. by apply NoDup_cons.
  - intros j Hj. simpl in Hj. rewrite Hperm in Hj. rewrite Eo.
    apply elem_of_cons in Hj as [->|Hj]; [by rewrite lookup_insert_eq|].
    rewrite lookup_insert_ne by (by intros <-). by apply iv_exists.
  - intros j Hj HD. rewrite Er in Hj. destruct (iv_running j Hj HD) as (rj & H'). exists rj.
    rewrite Eo, Ek, lookup_insert_ne; [done|]. intros <-. apply Hni, elem_of_app. by left.
  - intros j Hj HD. rewrite Ew in Hj. apply elem_of_cons in Hj as [->|Hj].
    + exists r. rewrite Eo, Ek, lookup_insert_eq. split_and!; auto.
    + destruct (iv_waiting j Hj HD) as (rj & H'). exists rj.
      rewrite Eo, Ek, lookup_insert_ne; [done|]. intros <-. apply Hni, elem_of_app. by right.
  - intros q Hq'. apply iv_fresh. intros Hin. apply Hq'. rewrite Eq, fmap_app. apply elem_of_app. by left.
  - intros j rj. rewrite Eo, Eq. intros Hrj Hal. apply elem_of_app. destruct (decide (i = j)) as [<-|Hne].
    + rewrite lookup_insert_eq in Hrj. injection Hrj as <-. right. by left.
    + rewrite lookup_insert_ne in Hrj by done. left. by apply iv_alive.
Qed.
End stops.

(** ** The tokens of an output *)

(** A request with more tokens; the hashes and the memo may have grown too. *)
Definition grown (r r' : Request) : Prop :=
  ∃ toks bh memo, r' = set_block_hashes bh (set_prompt_embeds_per_block_hashes memo
    (set_all_token_ids (all_token_ids r ++ toks) (set_output_token_ids (output_token_ids r ++ toks) r))).

Lemma grown_refl r : grown r r.
Proof.
  exists [], (block_hashes r), (prompt_embeds_per_block_hashes r). rewrite !app_nil_r. by destruct r.
Qed.

Lemma grown_appended r r1 r2 t : grown r r1 → appended t r1 r2 → grown r r2.
Proof.
  intros (toks & bh & memo & ->) (bh' & memo' & ->). exists (toks ++ [t]), bh', memo'. simpl. by rewrite !(assoc_L app).
Qed.

Section update.
Context (cf : Config) (Hcf : basic_config cf) (hasher : option block_hasher).
Abbreviation mml := (cf_max_model_len cf).
Context `{KVS : KVState} `{KV : !KVPromises mml hasher}.
Context (gr : GrammarOps) (Hgr : ∀ r, use_structured_output r = false → gr_should_advance gr r = false).
Context (set_iter : gset nat → list nat) (Hiter : ∀ X, set_iter X ≡ₚ elements X).
Context (ids_iter : gset string → list string) (Hids : ∀ X, ids_iter X ≡ₚ elements X).
Implicit Types (s : Scheduler).

(** A request to which tokens are appended, before its statistics are taken: it is
    alive, or has just stopped. *)
Definition alive_grown (r r' : Request) : Prop :=
  grown r r' ∧ kv_request r' ∧ num_tokens r' < mml.
Definition stopped_grown (r r' : Request) : Prop :=
  ∃ r1 st reason, grown r r1 ∧ r' = stopped_as st reason r1 ∧ status_is_finished st = true.

Lemma append_one r t :
  req_inv mml r → ∀ r0, grown r r0 → kv_request r0 → num_tokens r0 < mml →
  wp (append_output_token_ids hasher [t]) (λ _ r1, wp (check_stop mml) (λ stopped r2,
    if stopped then stopped_grown r r2 else alive_grown r r2) r1) r0.
Proof.
  intros Hreq r0 Hg Hkv Hlen. pose proof Hg as (toks & bh & memo & E0).
  assert (Hmm : mm_features r0 = []) by (rewrite E0; apply Hreq).
  eapply wp_mono; [by apply kp_append|]. intros [] r1 (Ha & Hkv1).
  pose proof (grown_appended _ _ _ _ Hg Ha) as Hg1. pose proof Hg1 as (toks1 & bh1 & memo1 & E1).
  destruct (ri_sampling _ _ Hreq) as (sp & Hsp & Hmin).
  destruct (check_stop_spec mml r1 sp t) as (b & r2 & E & Hb & Hno & Hyes).
  { rewrite E1. apply Hreq. } { by rewrite E1. }
  { destruct Ha as (bh' & memo' & ->). simpl. apply last_snoc. }
  unfold wp. rewrite E. destruct b.
  - destruct (Hyes eq_refl) as (st & reason & -> & Hst & _). by exists r1, st, reason.
  - rewrite Hno by done. split_and!; try done. destruct (Z.lt_ge_cases (num_tokens r1) mml) as [|Hge]; [done|].
    exfalso. assert (false = true); [|done]. apply Hb. split; [|by right; left].
    pose proof (ri_tokens _ _ Hreq) as Et. rewrite E1 in *. unfold num_output_tokens, num_tokens in *. simpl in *.
    rewrite !length_app in *. lia.
Qed.

Lemma wp_on_request {A} i (m : M Request A) r (Q : A → Scheduler → Prop) s :
  sc_objs s !! i = Some r → wp m (λ a r', Q a (sc_set_objs (<[i := r']> (sc_objs s)) s)) r → wp (on_request i m) Q s.
Proof. intros Hr. unfold wp, on_request. rewrite Hr. by destruct (m r) as [[a|e] r']. Qed.

Lemma set_objs_id s i r : sc_objs s !! i = Some r → sc_set_objs (<[i := r]> (sc_objs s)) s = s.
Proof. intros Hr. rewrite insert_id by done. by destruct s. Qed.

(** Tokens are appended until the request stops. *)
Lemma append_until_stop_spec r i : req_inv mml r → ∀ tokens acc s r0,
  sc_objs s !! i = Some r0 → alive_grown r r0 →
  wp (Update.append_until_stop cf hasher i tokens acc) (λ '(toks, stopped) s', ∃ r',
    s' = sc_set_objs (<[i := r']> (sc_objs s)) s ∧ (if stopped then stopped_grown r r' else alive_grown r r') ∧
    (tokens = [] → r' = r0 ∧ toks = acc ∧ stopped = false) ∧ (tokens ≠ [] → toks ≠ [])) s.
Proof.
  intros Hreq. induction tokens as [|t tokens IH]; intros acc s r0 Hr0 Hg; cbn [Update.append_until_stop]; wp_step.
  { exists r0. by rewrite set_objs_id. }
  destruct Hg as (Hg & Hkv & Hlen). eapply wp_on_request; [done|]. eapply wp_mono; [by apply (append_one r t)|].
  intros [] r1 Hstop. wp_step. eapply wp_on_request; [apply lookup_insert_eq|]. eapply wp_mono; [exact Hstop|].
  intros stopped r2 H2. simpl. rewrite insert_insert_eq. destruct stopped; wp_step.
  { exists r2. split_and!; try done. by destruct acc. }
  eapply wp_mono; [eapply IH; [apply lookup_insert_eq|done]|]. intros [toks stopped] s' (r' & -> & Hr' & Hnil & Hne).
  exists r'. simpl. rewrite insert_insert_eq. split_and!; try done. intros _. destruct tokens as [|t' tokens].
  - destruct (Hnil eq_refl) as (_ & -> & _). by destruct acc.
  - by apply Hne.
Qed.

(** What a request becomes once its statistics are taken *)
Lemma alive_req_inv r r' : req_inv mml r → alive_grown r r' → req_inv mml (set_prefill_stats None r').
Proof.
  intros [] (Hg & Hkv & Hlen). 
  assert (kv_request (set_prefill_stats None r')) by (eapply kp_same; [|exact Hkv]; by repeat split).
  destruct Hg as (toks & bh & memo & ->). split; try done.
  unfold num_tokens, num_output_tokens in *. simpl. rewrite !length_app. lia.
Qed.

(** ** One scheduled request *)

(** [A], [B]: the requests that have stopped in this loop and stand in the running
    list and in the queue; [s0] is the state before the loop. *)
Record loop_inv (s0 : Scheduler) (A B : gset Z) (s : Scheduler) : Prop := {
  li_inv : inv mml (λ _, 0) (A ∪ B) [] s;
  li_running i : i ∈ A → i ∈ sc_running s;
  li_waiting i : i ∈ B → i ∈ Queue.items (sc_waiting s);
  li_prev : prev_ok s;
  li_same : sc_running s = sc_running s0 ∧ sc_waiting s = sc_waiting s0 ∧ sc_pause_state s = sc_pause_state s0;
}.

(** The object of a request in the table changes and it stays alive. *)
Lemma loop_upd s0 A B s i r r' :
  loop_inv s0 A B s → sc_objs s !! i = Some r → same_key r r' → (req_inv mml r → req_inv mml r') →
  status r' = status r → num_computed_tokens r' = num_computed_tokens r → num_tokens r ≤ num_tokens r' →
  loop_inv s0 A B (sc_set_objs (<[i := r']> (sc_objs s)) s).
Proof.
  intros [I HA HB Hp Hs] Hr Hkey Hreq Est Ec Et. pose proof (proj1 (proj2 (proj2 Hkey))) as Eid. split; try done.
  - eapply inv_upd; try done; [rewrite Est; by apply (iv_alive _ _ _ _ _ I)|..];
      intros _ _ (r0 & Hr0 & H0); simplify_eq; exists r'; simpl;
      rewrite lookup_insert_eq, Est, Ec, Eid; [|done]. destruct H0 as (? & ? & ? & ? & ?). split_and!; done || lia.
  - intros j rj Hj Hrj Hst. simpl in *. destruct (decide (j = i)) as [->|Hne].
    + rewrite lookup_insert_eq in Hrj. simplify_eq. rewrite Eid. apply (Hp i r); congruence.
    + rewrite lookup_insert_ne in Hrj by done. by apply (Hp j rj).
Qed.

(** It stops: it is freed and leaves the table. *)
Lemma settle_stopped_spec s0 A B s i r r' us :
  loop_inv s0 A B s → sc_objs s !! i = Some r → (request_id r, i) ∈ sc_requests s → req_inv mml r →
  stopped_grown r r' → A = Update.us_stopped_running us → B = Update.us_stopped_preempted us →
  (if bool_decide (status r = RUNNING) then i ∈ sc_running s else i ∈ Queue.items (sc_waiting s)) →
  wp (Update.settle_stopped None hasher set_iter i (bool_decide (status r = RUNNING)) us)
    (λ '(reason, us') s', loop_inv s0 (Update.us_stopped_running us') (Update.us_stopped_preempted us') s' ∧
      sc_objs s' !! i = Some r' ∧ request_id r' = request_id r)
    (sc_set_objs (<[i := r']> (sc_objs s)) s).
Proof.
  intros [I HA HB Hp Hs] Hr Htab Hreq Hstop EA EB Hin.
  destruct Hstop as (r1 & st & reason & (toks & bh & memo & ->) & -> & Hst).
  set (r' := stopped_as st reason _). set (s1 := sc_set_objs _ s).
  assert (Hr' : sc_objs s1 !! i = Some r') by apply lookup_insert_eq.
  assert (Hkey : same_key r r') by done. assert (Hfin : is_finished r' = true) by done.
  unfold Update.settle_stopped. wp_step. eapply wp_obj; [done|]. wp_step.
  unfold Update._handle_stopped_request. wp_step. eapply wp_obj; [done|].
  assert (resumable r' = false) as -> by apply Hreq. simpl. wp_step.
  unfold Update._free_request. wp_step. eapply wp_obj; [done|]. wp_step. split; [done|].
  unfold Update._connector_finished. wp_step. eapply (enc_free_spec set_iter Hiter); [exact (iv_enc _ _ _ _ _ I)|apply Hreq|]. intros s2 ->. wp_step.
  simpl. unfold Update._free_blocks. wp_step. eapply wp_obj; [exact Hr'|]. wp_step. split; [done|].
  eapply wp_on_kv, wp_mono; [apply kp_free, I|]. intros [] k' (Hg & Hk & Hf). wp_step. simpl.
  eapply wp_some; [by apply dict_get_elem; [apply I|]|]. wp_step. set (s3 := sc_set_requests _ _).
  assert (I3 : inv mml (λ _, 0) ({[ i ]} ∪ (A ∪ B)) [] s3) by (by eapply (inv_stop _ _ _ s s3 i r r' k' I)).
  assert (Hprev3 : prev_ok s3).
  { intros j rj Hj Hrj Hstj. simpl in *. destruct (decide (j = i)) as [->|Hne].
    - rewrite lookup_insert_eq in Hrj. simplify_eq. simpl in Hst. by destruct st.
    - rewrite lookup_insert_ne in Hrj by done. by apply (Hp j rj). }
  split; [|done]. subst A B. destruct (bool_decide (status r = RUNNING)); split; simpl; try done.
  - by rewrite <- (assoc_L (∪)).
  - intros j [->%elem_of_singleton|Hj]%elem_of_union; auto.
  - replace (Update.us_stopped_running us ∪ _) with ({[i]} ∪ (Update.us_stopped_running us ∪ Update.us_stopped_preempted us)) by set_solver.
    done.
  - intros j [->%elem_of_singleton|Hj]%elem_of_union; auto.
Qed.

(** A request of the table stands in the list that its status names. *)
Lemma table_place adv D s id i :
  inv mml adv D [] s → (id, i) ∈ sc_requests s →
  ∃ r, sc_objs s !! i = Some r ∧ request_id r = id ∧ req_inv mml r ∧ i ∉ D ∧
    if bool_decide (status r = RUNNING) then i ∈ sc_running s else i ∈ Queue.items (sc_waiting s).
Proof.
  intros I Htab. destruct (iv_obj _ _ _ _ _ I id i Htab) as (r & Hr & Hid & Hreq).
  assert (Hin : i ∈ filter (λ i, i ∉ D) ([] ++ sc_running s ++ Queue.items (sc_waiting s))).
  { rewrite (iv_parts _ _ _ _ _ I). apply list_elem_of_fmap. by exists (id, i). }
  apply list_elem_of_filter in Hin as [HD Hin]. simpl in Hin. exists r. split_and!; try done.
  apply elem_of_app in Hin as [Hin|Hin].
  - destruct (iv_running _ _ _ _ _ I i Hin HD) as (r' & Hr' & Hst & _). simplify_eq. by rewrite bool_decide_true.
  - destruct (iv_waiting _ _ _ _ _ I i Hin HD) as (r' & Hr' & Hst & _). simplify_eq.
    rewrite bool_decide_false; [done|]. intros E. destruct Hst; congruence.
Qed.

Definition us_inv (s0 : Scheduler) (us : Update.UpdateState) (s : Scheduler) : Prop :=
  loop_inv s0 (Update.us_stopped_running us) (Update.us_stopped_preempted us) s.

(** The statistics of a stopped request are taken. *)
Lemma us_inv_stopped_upd s0 us s i r :
  us_inv s0 us s → sc_objs s !! i = Some r → status_is_finished (status r) = true →
  us_inv s0 us (sc_set_objs (<[i := set_prefill_stats None r]> (sc_objs s)) s).
Proof.
  intros H Hr Hfin. apply (loop_upd _ _ _ s i r _ H Hr); try done.
  intros []. congruence.
Qed.

Lemma update_live_request_spec s0 us s id i generated pooler :
  us_inv s0 us s → (id, i) ∈ sc_requests s →
  wp (Update.update_live_request cf None gr hasher set_iter i [] generated pooler us) (us_inv s0) s.
Proof.
  intros H Htab. pose proof H as [I _ _ _ _]. destruct (table_place _ _ s id i I Htab) as (r & Hr & <- & Hreq & HD & Hin).
  unfold Update.update_live_request, Update.reject_drafts. wp_step. eapply wp_obj; [done|].
  rewrite no_encoder_inputs by apply Hreq. wp_step.
  unfold Update.take_output. wp_step. eapply wp_obj; [done|].
  (* the tokens that enter *)
  eapply (wp_mono _ (λ '((toks, stopped) : list Z * bool) s', ∃ r', s' = sc_set_objs (<[i := r']> (sc_objs s)) s ∧
    (if stopped then stopped_grown r r' else alive_grown r r') ∧ (generated = [] → r' = r ∧ toks = [] ∧ stopped = false) ∧
    (generated ≠ [] → toks ≠ []))).
  { destruct generated as [|t rest].
    - rewrite (ri_pooling _ _ Hreq). simpl. wp_step. exists r. rewrite set_objs_id by done. split_and!; try done.
      split_and!; [apply grown_refl|apply Hreq|apply Hreq].
    - unfold Update._update_request_with_output. rewrite (bc_async _ Hcf).
      apply (append_until_stop_spec r i Hreq); [done|]. split_and!; [apply grown_refl|apply Hreq|apply Hreq]. }
  intros [toks stopped] s1 (r1 & -> & Hr1 & Hnil & Hne).
  assert (Hstat : use_structured_output r1 = false ∧ same_key r r1).
  { destruct stopped; [destruct Hr1 as (r2 & st & reason & (t2 & bh & memo & ->) & -> & _)
                      |destruct Hr1 as ((t2 & bh & memo & ->) & _)]; (split; [apply Hreq|done]). }
  destruct Hstat as [Hso Hkey]. wp_step. unfold Update.advance_grammar. wp_step. eapply wp_obj; [apply lookup_insert_eq|].
  rewrite Hgr, andb_false_r by done. wp_step.
  destruct stopped.
  - eapply wp_mono; [by eapply (settle_stopped_spec s0 _ _ s i r r1 us H)|].
    intros [reason us'] s2 (H2 & Hr2 & Eid). wp_step. eapply wp_obj; [done|]. rewrite orb_true_r. wp_step.
    eapply wp_upd; [done|]. wp_step. apply us_inv_stopped_upd; [done..|].
    by destruct Hr1 as (r2 & st & reason' & _ & -> & Hst).
  - wp_step. eapply wp_obj; [apply lookup_insert_eq|]. rewrite orb_false_r.
    destruct (bool_decide (toks = [])) eqn:Et.
    + apply bool_decide_eq_true in Et. assert (generated = []) as Eg.
      { destruct generated; [done|]. by destruct (Hne ltac:(done)). }
      destruct (Hnil Eg) as (-> & _ & _). rewrite set_objs_id by done. simpl.
      destruct (bool_decide (is_Some pooler)); wp_step; [|done]. eapply wp_upd; [done|]. wp_step.
      eapply loop_upd; try done. apply req_inv_same. split; [by repeat split|]. repeat split; (apply Hreq || done).
    + simpl. wp_step. apply wp_upd_again. wp_step. eapply loop_upd; try done.
      * intros _. by eapply alive_req_inv.
      * destruct Hr1 as ((t2 & bh & memo & ->) & _). done.
      * destruct Hr1 as ((t2 & bh & memo & ->) & _). done.
      * destruct Hr1 as ((t2 & bh & memo & ->) & _). unfold num_tokens. simpl. rewrite length_app. lia.
Qed.

(** *** The loop and what follows it *)

(** An output of the model for the scheduled requests: every scheduled request has an
    index, and tokens (perhaps none) are reported for every index. *)
Record mro_ok (num : list (string * Z)) (mro : ModelRunnerOutput) : Prop := {
  mo_index id : id ∈ num.*1 → ∃ k, dict_get id (mro_req_id_to_index mro) = Some k ∧ 0 ≤ k ∧
    (mro_sampled_token_ids mro = [] ∨ k < len (mro_sampled_token_ids mro)) ∧
    (mro_pooler_output mro = [] ∨ k < len (mro_pooler_output mro));
  mo_connector : mro_kv_connector_output mro = None;
}.

Lemma py_get_in_range {A} (l : list A) k : 0 ≤ k < len l → ∃ x, py_get l k = Some x.
Proof.
  intros Hk. unfold py_get. rewrite (proj2 (Z.ltb_ge k 0)) by lia. simpl. rewrite (proj2 (Z.ltb_ge k 0)) by lia.
  apply lookup_lt_is_Some_2. lia.
Qed.

Lemma wp_row {A} (l : list A) (d : A) k (Q : A → Scheduler → Prop) s :
  0 ≤ k → (l = [] ∨ k < len l) → (∀ x, Q x s) →
  wp (match l with [] => mret d | x :: l' => of_opt IndexError (py_get (x :: l') k) end) Q s.
Proof.
  intros Hk Hl HQ. destruct l as [|x l]; [apply HQ|]. destruct Hl as [|Hl]; [done|].
  destruct (py_get_in_range (x :: l) k) as [y Hy]; [lia|]. eapply wp_some; [exact Hy|]. apply HQ.
Qed.

Lemma update_requests_spec out mro s0 : mro_ok (so_num_scheduled_tokens out) mro →
  so_scheduled_spec_decode_tokens out = [] →
  (∀ kv, kv ∈ so_num_scheduled_tokens out → 0 < kv.2) → ∀ l us s,
  (∀ kv, kv ∈ l → kv ∈ so_num_scheduled_tokens out) → us_inv s0 us s →
  wp (Update.update_requests cf None gr hasher set_iter out mro ∅ l us) (us_inv s0) s.
Proof.
  intros Hmro Hspec Hpos. induction l as [|kv l IH]; intros us s Hl H; cbn [Update.update_requests]; wp_step; [done|].
  eapply (wp_mono _ (us_inv s0)).
  - unfold Update.update_request. wp_step. split; [apply Z.ltb_lt, Hpos, Hl; by left|].
    rewrite bool_decide_false by set_solver. wp_step.
    destruct (dict_get kv.1 (sc_requests s)) as [i|] eqn:Ei; [|by wp_step].
    apply dict_get_elem in Ei; [|apply H]. destruct (table_place _ _ s _ i (li_inv _ _ _ _ H) Ei) as (r & Hr & Hid & Hreq & _).
    wp_step. eapply wp_obj; [done|]. assert (is_finished r = false) as -> by apply Hreq. wp_step.
    destruct (mo_index _ _ Hmro kv.1) as (k & Hk & Hk0 & Hs & Hp).
    { apply list_elem_of_fmap. exists kv. split; [done|]. apply Hl. by left. }
    eapply wp_some; [done|]. wp_step. apply wp_row; [done..|]. intros generated. wp_step.
    apply wp_row; [done..|]. intros pooler. rewrite Hspec. simpl. by eapply update_live_request_spec.
  - intros us' s' H'. apply IH; [|done]. intros kv' Hkv'. apply Hl. by right.
Qed.

(** Between two steps *)
Record ready (s : Scheduler) : Prop := {
  rd_inv : inv mml (λ _, 0) ∅ [] s;
  rd_prev : prev_ok s;
  rd_running : len (sc_running s) ≤ cf_max_num_seqs cf;
}.

Lemma ready_frame s s' :
  ready s → inv mml (λ _, 0) ∅ [] s' → sc_running s' = sc_running s → sc_waiting s' = sc_waiting s →
  sc_objs s' = sc_objs s →
  sc_prev_step_scheduled_req_ids s' = sc_prev_step_scheduled_req_ids s → ready s'.
Proof.
  intros [I Hp Hr] I' Er Ew Eo Ep. split; [done| |by rewrite Er].
  intros i r Hi Hri. rewrite Ew in Hi. rewrite Eo in Hri. rewrite Ep. by apply (Hp i r).
Qed.

Lemma q_remove_all_spec w l s :
  queue_ok (obj_lt (sc_objs s)) (get_queue w s) →
  wp (q_remove_all w l) (λ _ s', ∃ q', s' = set_queue w q' s ∧ queue_ok (obj_lt (sc_objs s)) q' ∧
    Queue.items q' ≡ₚ filter (λ i, i ∉ l) (Queue.items (get_queue w s))) s.
Proof.
  intros Hq. unfold q_remove_all. wp_step.
  destruct (remove_requests_spec (obj_lt (sc_objs s)) Z.eqb (obj_lt_asym _) (obj_ge_trans _) _ l Hq)
    as (q' & E & Hq' & _ & Hp & _).
  eapply wp_of_res; [exact E|]. wp_step. exists q'. split_and!; try done. rewrite Hp. apply reflexive_eq.
  unfold without. apply filter_ext_in. intros i _. rewrite <- not_true_iff_false, existsb_exists. split.
  - intros Hn Hin. apply Hn. exists i. split; [by apply list_elem_of_In|]. apply Z.eqb_refl.
  - intros Hn (j & Hj & E'). apply Z.eqb_eq in E'. subst. by apply Hn, list_elem_of_In.
Qed.

Lemma take_events_spec s :
  ready s → wp (on_kv KVManager.take_events) (λ _ s', ready s' ∧ sc_pause_state s' = sc_pause_state s) s.
Proof.
  intros H. eapply wp_on_kv, wp_mono; [apply kp_events, H|]. intros ev k' [Hg Hk]. split; [|done].
  eapply ready_frame; [done|by apply inv_kv_nobody; [apply H|..]|done..].
Qed.

(** The output of any earlier step is taken in. *)
Lemma update_from_output_spec out mro s :
  ready s → mro_ok (so_num_scheduled_tokens out) mro → so_scheduled_spec_decode_tokens out = [] →
  (∀ kv, kv ∈ so_num_scheduled_tokens out → 0 < kv.2) →
  wp (Update.update_from_output cf None gr hasher set_iter ids_iter out mro) (λ _ s', ready s' ∧
    sc_pause_state s' = sc_pause_state s) s.
Proof.
  intros H Hmro Hspec Hpos. unfold Update.update_from_output. rewrite (mo_connector _ _ Hmro). wp_step.
  assert (H0 : us_inv s (Update.mkUpd [] ∅ ∅) s).
  { destruct H. by split. }
  eapply wp_mono; [by eapply (update_requests_spec out mro s Hmro Hspec Hpos)|].
  intros us s1 [I HA HB Hp (Er & Ew & Epa)]. wp_step.
  pose proof (iv_nodup _ _ _ _ _ I) as Hnd. simpl in Hnd. apply NoDup_app in Hnd as (Hnd1 & _ & Hnd2).
  rewrite remove_all_spec by done. set (s2 := sc_set_running _ s1).
  eapply (wp_mono _ (λ _ s3, ∃ q', s3 = sc_set_waiting q' s2 ∧ queue_ok (obj_lt (sc_objs s2)) q' ∧
    Queue.items q' ≡ₚ filter (λ i, i ∉ Update.us_stopped_preempted us) (Queue.items (sc_waiting s1)))).
  { case_bool_decide as E.
    - wp_step. exists (sc_waiting s2). split_and!; [done|apply I|]. simpl. rewrite E, filter_id; [done|set_solver].
    - eapply wp_mono; [apply (q_remove_all_spec Waiting), I|]. intros [] s3 (q' & -> & Hq' & Hq). exists q'.
      split_and!; try done. simpl in Hq. rewrite Hq. apply reflexive_eq, filter_ext_in. set_solver. }
  intros [] s3 (q' & -> & Hq' & Hq). set (s3 := sc_set_waiting q' s2). simpl. wp_step.
  assert (H3 : ready s3).
  { split.
    - by eapply (inv_unlist _ _ _ s1 s3 I).
    - intros i r Hi Hr. simpl in Hi. rewrite Hq in Hi. apply list_elem_of_filter in Hi as [_ Hi]. by apply (Hp i r).
    - simpl. pose proof (length_filter (λ i, i ∉ Update.us_stopped_running us) (sc_running s1)).
      rewrite Er in *. pose proof (rd_running _ H). lia. }
  rewrite bool_decide_true by done. simpl. wp_step.
  eapply wp_mono; [by apply take_events_spec|]. intros ev s4 [H4 Epa4]. wp_step.
  unfold Update.client_outputs. wp_step. assert (sc_pause_state s4 = sc_pause_state s) by (rewrite Epa4; done).
  destruct (sc_finished_req_ids_dict s4) as [[|x d]|]; wp_step; try done.
  split; [|done]. eapply ready_frame; [done|by destruct H4 as [[] _ _]|done..].
Qed.

(** ** Requests enter and leave *)
Lemma update_add_request_spec s i r :
  ready s → request_id r ∉ (sc_requests s).*1 → sc_objs s !! i = None →
  req_inv mml r → status r = WAITING → num_computed_tokens r = 0 →
  wp (Update.add_request None hasher set_iter ids_iter i r) (λ _ s', ready s' ∧
    sc_requests s' = sc_requests s ++ [(request_id r, i)] ∧ sc_pause_state s' = sc_pause_state s) s.
Proof.
  intros [I Hp Hl] Hid Hi Hreq Hst Hc. unfold Update.add_request. wp_step.
  rewrite (proj2 (dict_get_None _ _) Hid), (ri_session _ _ Hreq). wp_step. apply wp_set_obj. set (s1 := sc_set_objs _ s).
  unfold Update._enqueue_waiting_request. wp_step. eapply wp_obj; [apply lookup_insert_eq|].
  rewrite Hst. simpl.
  assert (Hni : ∀ j, j ∈ Queue.items (sc_waiting s) → sc_objs s1 !! j = sc_objs s !! j ∧ is_Some (sc_objs s !! j)).
  { intros j Hj. destruct (iv_exists _ _ _ _ _ I j) as [rj Hrj]; [simpl; apply elem_of_app; auto|].
    simpl. rewrite lookup_insert_ne, Hrj by (intros <-; congruence). eauto. }
  assert (Hq : queue_ok (obj_lt (sc_objs s1)) (sc_waiting s)).
  { eapply queue_ok_ext; [|apply I]. intros j Hj. destruct (Hni j Hj) as [E [rj Hrj]]. exists rj, rj.
    by rewrite E, Hrj. }
  eapply wp_mono; [by apply (q_add_spec Waiting i s1)|]. intros [] s2 (q' & -> & Hq' & Hperm). wp_step. simpl in *.
  set (s3 := sc_set_requests _ _).
  assert (I3 : inv mml (λ _, 0) ∅ [] s3) by (by eapply (inv_add s s3 i r I)).
  split_and!; [|by apply dict_set_new|done]. split; [done| |done].
  intros j rj Hj Hrj Hstj. simpl in *. rewrite Hperm in Hj. apply elem_of_cons in Hj as [->|Hj].
  - rewrite lookup_insert_eq in Hrj. congruence.
  - destruct (Hni j Hj) as [E _]. simpl in E. rewrite E in Hrj. by apply (Hp j rj).
Qed.

(** One of the requests to finish *)
Lemma finish_one_spec st X D s i r :
  status_is_finished st = true → inv mml (λ _, 0) D X s → i ∉ D → i ∈ X → sc_objs s !! i = Some r →
  status r ≠ WAITING_FOR_REMOTE_KVS →
  wp (r ← obj i;
      s ← get;
      let remote := bool_decide (status r = WAITING_FOR_REMOTE_KVS) in
      let delay := remote && bool_decide (request_id r ∉ sc_finished_recving s) in
      _ ← modify (λ s, if remote
                       then sc_set_finished_recving (sc_finished_recving s ∖ {[ request_id r ]})
                              (sc_set_failed_recving (sc_failed_recving s ∖ {[ request_id r ]}) s)
                       else s);
      _ ← upd i (set_status st);
      Update._free_request None set_iter i delay)
    (λ _ s', inv mml (λ _, 0) ({[ i ]} ∪ D) X s' ∧ sc_running s' = sc_running s ∧ sc_waiting s' = sc_waiting s ∧
      sc_prev_step_scheduled_req_ids s' = sc_prev_step_scheduled_req_ids s ∧ sc_pause_state s' = sc_pause_state s ∧
      sc_objs s' = <[i := set_status st r]> (sc_objs s) ∧ sc_requests s' = dict_del (request_id r) (sc_requests s)) s.
Proof.
  intros Hst I HD Hi Hr Hrem. destruct (inv_table _ _ _ _ i I) as (r0 & Hr0 & Htab & Hreq); [apply elem_of_app; auto|done|].
  simplify_eq. wp_step. eapply wp_obj; [done|]. wp_step. rewrite bool_decide_false by done. simpl. wp_step.
  eapply wp_upd; [done|]. wp_step. set (r' := set_status st r). set (s1 := sc_set_objs _ s).
  assert (Hr' : sc_objs s1 !! i = Some r') by apply lookup_insert_eq.
  unfold Update._free_request. wp_step. eapply wp_obj; [done|]. wp_step. split; [done|].
  unfold Update._connector_finished. wp_step.
  eapply (enc_free_spec set_iter Hiter); [exact (iv_enc _ _ _ _ _ I)|apply Hreq|]. intros s2 ->. wp_step.
  simpl. unfold Update._free_blocks. wp_step. eapply wp_obj; [exact Hr'|]. wp_step. split; [done|].
  eapply wp_on_kv, wp_mono; [apply kp_free, I|]. intros [] k' (Hg & Hk & Hf). wp_step. simpl.
  eapply wp_some; [by apply dict_get_elem; [apply I|]|]. wp_step. set (s3 := sc_set_requests _ _).
  split_and!; try done. by eapply (inv_stop _ _ _ s s3 i r r' k' I).
Qed.

(** What the ids name *)
Definition named (ids : request_ids) (id : string) : Prop :=
  match ids with OneId id' => id = id' | Ids l => id ∈ l | AllIds => True end.

Definition ids_list (ids : request_ids) (s : Scheduler) : list string :=
  match ids with OneId id => [id] | Ids l => ids_iter (list_to_set l) | AllIds => fst <$> sc_requests s end.

Lemma ids_list_spec ids s adv D X :
  inv mml adv D X s → NoDup (ids_list ids s) ∧
  ∀ id, id ∈ (sc_requests s).*1 → (id ∈ ids_list ids s ↔ named ids id).
Proof.
  intros I. destruct ids as [id|l|]; simpl.
  - split; [apply NoDup_singleton|]. intros id' _. by rewrite list_elem_of_singleton.
  - split; [rewrite Hids; apply NoDup_elements|]. intros id _. by rewrite Hids, elem_of_elements, elem_of_list_to_set.
  - split; [apply I|]. naive_solver.
Qed.

(** The requests found: alive, each once *)
Lemma found_spec s ids :
  inv mml (λ _, 0) ∅ [] s →
  let valid := filter (λ i, obj_is (λ r, negb (is_finished r)) (sc_objs s) i = true)
                 (omap (λ id, dict_get id (sc_requests s)) (ids_list ids s)) in
  NoDup valid ∧ (∀ i, i ∈ valid → i ∈ sc_running s ++ Queue.items (sc_waiting s)) ∧
  ∀ id i, (id, i) ∈ sc_requests s → (i ∈ valid ↔ named ids id).
Proof.
  intros I valid. destruct (ids_list_spec ids s _ _ _ I) as [Hnd Hmem].
  assert (Hget : ∀ id i, dict_get id (sc_requests s) = Some i ↔ (id, i) ∈ sc_requests s).
  { intros id i. apply dict_get_elem, I. }
  assert (Hv : ∀ i, i ∈ valid ↔ ∃ id, id ∈ ids_list ids s ∧ (id, i) ∈ sc_requests s).
  { intros i. unfold valid. rewrite list_elem_of_filter, list_elem_of_omap. split.
    - intros (_ & id & Hid & Hi%Hget). eauto.
    - intros (id & Hid & Hi). split; [|exists id; by rewrite Hget].
      destruct (iv_obj _ _ _ _ _ I id i Hi) as (r & Hr & _ & Hreq). unfold obj_is. rewrite Hr.
      apply negb_true_iff, Hreq. }
  split_and!.
  - apply NoDup_filter. clear Hv valid Hmem. induction (ids_list ids s) as [|id l IH]; [constructor|].
    apply NoDup_cons in Hnd as [Hid Hnd]. simpl. destruct (dict_get id (sc_requests s)) as [i|] eqn:Ei; [|auto].
    apply NoDup_cons. split; [|auto]. intros (id' & Hid' & Ei')%list_elem_of_omap. apply Hget in Ei, Ei'.
    destruct (iv_obj _ _ _ _ _ I id i Ei) as (r & Hr & Hrid & _), (iv_obj _ _ _ _ _ I id' i Ei') as (r' & Hr' & Hrid' & _).
    congruence.
  - intros i (id & _ & Hi)%Hv. destruct (table_place _ _ _ id i I Hi) as (r & _ & _ & _ & _ & Hin).
    apply elem_of_app. destruct (bool_decide _); auto.
  - intros id i Hi. rewrite <- Hmem by (apply list_elem_of_fmap; by exists (id, i)). rewrite Hv. split; [|by eauto].
    intros (id' & Hid' & Hi').
    destruct (iv_obj _ _ _ _ _ I id i Hi) as (r & Hr & <- & _), (iv_obj _ _ _ _ _ I id' i Hi') as (r' & Hr' & <- & _).
    by simplify_eq.
Qed.

(** The two passes *)
Lemma detach_spec s valid :
  ready s → NoDup valid → (∀ i, i ∈ valid → i ∈ sc_running s ++ Queue.items (sc_waiting s)) →
  let run := filter (λ i, obj_is (has_status RUNNING) (sc_objs s) i = true) valid in
  let wait := filter (λ i, obj_is (has_status RUNNING) (sc_objs s) i = false) valid in
  ∀ s1, s1 = sc_set_running (remove_all (sc_running s) (list_to_set run)) s →
  wp (match wait with
      | [] => mret tt
      | _ => _ ← q_remove_all Waiting wait; q_remove_all Skipped wait
      end) (λ _ s', inv mml (λ _, 0) ∅ valid s' ∧ prev_ok s' ∧ sc_objs s' = sc_objs s ∧
      sc_requests s' = sc_requests s ∧ len (sc_running s') ≤ len (sc_running s) ∧
      sc_pause_state s' = sc_pause_state s) s1.
Proof.
  intros [I Hp Hl] Hnd Hin run wait s1 ->. pose proof (iv_nodup _ _ _ _ _ I) as Hnd'. simpl in Hnd'.
  apply NoDup_app in Hnd' as (Hnd1 & Hd & Hnd2).
  assert (Hrun : ∀ i, i ∈ sc_running s → i ∈ run ↔ i ∈ valid).
  { intros i Hi. unfold run. rewrite list_elem_of_filter. destruct (iv_running _ _ _ _ _ I i Hi) as (r & Hr & Hst & _); [set_solver|].
    unfold obj_is, has_status. rewrite Hr, bool_decide_true by done. tauto. }
  assert (Hwait : ∀ i, i ∈ Queue.items (sc_waiting s) → i ∈ wait ↔ i ∈ valid).
  { intros i Hi. unfold wait. rewrite list_elem_of_filter. destruct (iv_waiting _ _ _ _ _ I i Hi) as (r & Hr & Hst & _); [set_solver|].
    unfold obj_is, has_status. rewrite Hr, bool_decide_false by (intros E; destruct Hst; congruence). tauto. }
  rewrite remove_all_spec by done. set (s1 := sc_set_running _ s).
  assert (Er : sc_running s1 = filter (λ i, i ∉ valid) (sc_running s)).
  { simpl. apply filter_ext_in. intros i Hi. rewrite elem_of_list_to_set. by rewrite (Hrun i Hi). }
  assert (Hgoal : ∀ s', Queue.items (sc_waiting s') ≡ₚ filter (λ i, i ∉ wait) (Queue.items (sc_waiting s)) →
    queue_ok (obj_lt (sc_objs s)) (sc_waiting s') → Queue.items (sc_skipped_waiting s') = [] →
    sc_running s' = sc_running s1 → sc_objs s' = sc_objs s → sc_requests s' = sc_requests s →
    sc_kv s' = sc_kv s → sc_enc s' = sc_enc s → sc_pause_state s' = sc_pause_state s →
    sc_prev_step_scheduled_req_ids s' = sc_prev_step_scheduled_req_ids s →
    inv mml (λ _, 0) ∅ valid s' ∧ prev_ok s' ∧ sc_objs s' = sc_objs s ∧
      sc_requests s' = sc_requests s ∧ len (sc_running s') ≤ len (sc_running s) ∧ sc_pause_state s' = sc_pause_state s).
  { intros s' Hq Hok Hsk Er' Eo Eq Ek Ee Epa Epr.
    assert (Hq' : Queue.items (sc_waiting s') ≡ₚ filter (λ i, i ∉ valid) (Queue.items (sc_waiting s))).
    { rewrite Hq. apply reflexive_eq, filter_ext_in. intros i Hi. by rewrite (Hwait i Hi). }
    split_and!; try done.
    - eapply (inv_detach _ valid s s' I); try done. by rewrite Er'.
    - intros i r Hi Hr. rewrite Hq' in Hi. apply list_elem_of_filter in Hi as [_ Hi]. rewrite Eo in Hr. rewrite Epr.
      by apply (Hp i r).
    - rewrite Er', Er. pose proof (length_filter (λ i, i ∉ valid) (sc_running s)). lia. }
  pose proof (iv_skipped _ _ _ _ _ I) as Hsk. destruct wait as [|w0 wl] eqn:Ew; wp_step.
  - apply Hgoal; try done; [|apply I]. by rewrite filter_id by (intros; apply not_elem_of_nil).
  - eapply wp_mono; [apply (q_remove_all_spec Waiting), I|]. intros [] s2 (q' & -> & Hq' & Hperm).
    eapply wp_mono; [apply (q_remove_all_spec Skipped); by apply queue_ok_nil|].
    intros [] s3 (q2 & -> & _ & Hperm2). simpl in *. apply Hgoal; try done.
    rewrite Hsk in Hperm2. by apply Permutation_nil.
Qed.

Definition finish_loop (s2 : Scheduler) (valid pre : list Z) (s : Scheduler) : Prop :=
  inv mml (λ _, 0) (list_to_set pre) valid s ∧
  sc_prev_step_scheduled_req_ids s = sc_prev_step_scheduled_req_ids s2 ∧ sc_running s = sc_running s2 ∧
  sc_waiting s = sc_waiting s2 ∧ sc_pause_state s = sc_pause_state s2 ∧
  (∀ i, i ∉ pre → sc_objs s !! i = sc_objs s2 !! i) ∧
  ∀ id i, (id, i) ∈ sc_requests s ↔ (id, i) ∈ sc_requests s2 ∧ i ∉ pre.

Lemma finish_loop_step s2 valid pre s s' i r r' :
  finish_loop s2 valid pre s → i ∉ pre → i ∈ valid → sc_objs s !! i = Some r →
  inv mml (λ _, 0) ({[ i ]} ∪ list_to_set pre) valid s' → sc_running s' = sc_running s →
  sc_waiting s' = sc_waiting s → sc_prev_step_scheduled_req_ids s' = sc_prev_step_scheduled_req_ids s →
  sc_pause_state s' = sc_pause_state s → sc_objs s' = <[i := r']> (sc_objs s) →
  sc_requests s' = dict_del (request_id r) (sc_requests s) → finish_loop s2 valid (pre ++ [i]) s'.
Proof.
  intros (I & Ep & Er & Ew & Epa & Eo & Hq) Hip Hiv Hr I' Er' Ew' Ep' Epa' Eo' Eq'.
  destruct (inv_table _ _ _ s i I) as (r0 & Hr0 & Htab & _); [apply elem_of_app; auto|by rewrite elem_of_list_to_set|].
  simplify_eq. split_and!; try congruence.
  - replace (list_to_set (pre ++ [i]) : gset Z) with ({[i]} ∪ list_to_set pre : gset Z); [done|].
    rewrite list_to_set_app_L. set_solver.
  - intros j Hj. rewrite not_elem_of_app, list_elem_of_singleton in Hj. destruct Hj as [Hj Hne].
    rewrite Eo', lookup_insert_ne by done. by apply Eo.
  - intros id j. rewrite Eq'. unfold dict_del. rewrite list_elem_of_filter, Hq, not_elem_of_app, list_elem_of_singleton. simpl.
    split.
    + intros (Hne & Hj & Hp). split_and!; try done. intros ->. apply Hne.
      assert (Hj' : (id, i) ∈ sc_requests s) by by apply Hq. symmetry. exact (inv_obj cf _ _ _ s id i r I Hj' Hr).
    + intros (Hj & Hp & Hne). split_and!; try done. intros ->. apply Hne.
      assert (Hj' : (request_id r, j) ∈ sc_requests s) by by apply Hq. exact (inv_same_id _ _ _ _ _ _ _ I Hj' Htab).
Qed.

Lemma finish_requests_spec s ids st :
  ready s → status_is_finished st = true →
  wp (Update.finish_requests None set_iter ids_iter ids st) (λ _ s', ready s' ∧
    (∀ id i, (id, i) ∈ sc_requests s' ↔ (id, i) ∈ sc_requests s ∧ ¬ named ids id) ∧
    sc_pause_state s' = sc_pause_state s) s.
Proof.
  intros H Hst. pose proof H as [I Hp Hl]. destruct (found_spec s ids I) as (Hnd & Hin & Hnamed).
  unfold Update.finish_requests. wp_step. split; [done|]. fold (ids_list ids s). cbv zeta.
  set (valid := filter _ (omap _ _)) in *. 
  set (s0 := sc_set_num_waiting_for_streaming_input _ s).
  assert (H0 : ready s0) by (split; [by destruct I|done|done]).
  eapply wp_mono; [by apply (detach_spec s0 valid)|]. intros [] s2 (I2 & Hp2 & Eo2 & Eq2 & Hl2 & Epa2). wp_step.
  assert (Hstat : ∀ i, i ∈ valid → ∃ r, sc_objs s2 !! i = Some r ∧ status r ≠ WAITING_FOR_REMOTE_KVS).
  { intros i Hi. rewrite Eo2. apply Hin, elem_of_app in Hi as [Hi|Hi].
    - destruct (iv_running _ _ _ _ _ I i Hi) as (r & Hr & E & _); [set_solver|]. exists r. split; [done|congruence].
    - destruct (iv_waiting _ _ _ _ _ I i Hi) as (r & Hr & E & _); [set_solver|]. exists r. split; [done|destruct E; congruence]. }
  eapply wp_mono; [apply (wp_for_each (finish_loop s2 valid))|].
  - split_and!; try done. intros id i. set_solver.
  - intros pre x suf s3 Ev (I3 & Ep3 & Er3 & Ew3 & Epa3 & Eo3 & Hq3).
    assert (Hx : x ∈ valid) by (rewrite Ev; set_solver).
    assert (Hxp : x ∉ pre). { rewrite Ev in Hnd. apply NoDup_app in Hnd as (_ & Hd & _). intros Hx'. apply (Hd x Hx'). by left. }
    destruct (Hstat x Hx) as (r & Hr & Hrem). rewrite <- Eo3 in Hr by done.
    eapply wp_mono; [by apply (finish_one_spec st valid (list_to_set pre) s3 x r); rewrite ?elem_of_list_to_set|].
    intros [] s4 (I4 & Er4 & Ew4 & Ep4 & Epa4 & Eo4 & Eq4). by eapply finish_loop_step.
  - intros [] s3 (I3 & Ep3 & Er3 & Ew3 & Epa3 & Eo3 & Hq3). wp_step.
    apply inv_drop in I3 as I4. eapply wp_mono.
    { apply (wp_mapM_read _ valid s3 (λ _ _, True)). intros i Hi. destruct (iv_exists _ _ _ _ _ I3 i) as [r Hr]; [set_solver|].
      wp_step. eapply wp_obj; [done|]. by wp_step. }
    intros l ? [-> _]. split_and!; [|intros id i|by rewrite Epa3].
    + split; [done| |rewrite Er3; simpl in Hl2; lia]. intros i r Hi Hr Hst'. rewrite Ep3. rewrite Ew3 in Hi.
      apply (Hp2 i r); [done| |done]. rewrite <- Eo3; [done|].
      pose proof (iv_nodup _ _ _ _ _ I2) as Hnd2. apply NoDup_app in Hnd2 as (_ & Hd & _).
      intros Hv. apply (Hd i Hv), elem_of_app. by right.
    + rewrite Hq3, Eq2. simpl. split; intros [Hi Hn]; (split; [done|]); by rewrite (Hnamed id i Hi) in *.
Qed.

(** ** Pausing, and resetting the prefix cache *)
Lemma set_pause_state_spec s p :
  ready s → wp (Update.set_pause_state p) (λ _ s', ready s' ∧ sc_pause_state s' = p) s.
Proof.
  intros [I Hp Hl]. unfold Update.set_pause_state. wp_step. split; [|done]. split; [by destruct I|done|done].
Qed.

(** Every running request is preempted. *)
Lemma preempt_all_spec fuel : ∀ s,
  inv mml (λ _, 0) ∅ [] s → (length (sc_running s) < fuel)%nat →
  wp (Update.preempt_all set_iter fuel) (λ _ s', inv mml (λ _, 0) ∅ [] s' ∧ sc_running s' = [] ∧
    sc_requests s' = sc_requests s ∧ sc_pause_state s' = sc_pause_state s) s.
Proof.
  induction fuel as [|fuel IH]; intros s I Hfuel; [lia|]. cbn [Update.preempt_all]. wp_step.
  destruct (last (sc_running s)) as [i|] eqn:Ei; [|by wp_step; apply last_None in Ei].
  assert (Hin : i ∈ sc_running s) by (apply last_Some in Ei as [l ->]; set_solver).
  pose proof (iv_nodup _ _ _ _ _ I) as Hnd. simpl in Hnd. apply NoDup_app in Hnd as (Hnd & _ & _).
  rewrite (pop_filter i) by done. wp_step. pose proof (inv_leave_running _ _ _ _ i I Hin) as I1.
  set (s1 := sc_set_running _ s) in *. destruct (iv_running _ _ _ _ _ I i Hin) as (r & Hr & Hst & _); [set_solver|].
  eapply wp_mono; [by apply (preempt_spec cf Hcf hasher set_iter Hiter (λ _, 0) (λ _, 0) [] s1 i r)|].
  intros [] s2 (I2 & (Eq2 & Ep2 & Epa2) & Er2 & _ & Hw2). wp_step.
  destruct (iv_waiting _ _ _ _ _ I2 i) as (r2 & Hr2 & Hw); [rewrite Hw2; by left|set_solver|].
  eapply wp_upd; [done|]. wp_step. apply wp_upd_again. wp_step. set (r3 := set_num_output_placeholders 0 _).
  assert (I3 : inv mml (λ _, 0) ∅ [] (sc_set_objs (<[i := r3]> (sc_objs s2)) s2)).
  { eapply inv_upd; [exact I2|exact Hr2|by split_and!| |exact (iv_alive _ _ _ _ _ I2 i r2 Hr2)| |].
    - intros Hreq. eapply req_inv_same; [|exact Hreq]. unfold same_static. split; [by repeat split|].
      split_and!; try done; [apply Hreq|by rewrite (ri_placeholders _ _ Hreq)|apply Hreq].
    - intros Hi _ _. exfalso. rewrite Er2 in Hi. simpl in Hi. apply list_elem_of_filter in Hi as [Hi _]. done.
    - intros _ _ _. exists r3. simpl. rewrite lookup_insert_eq. split; [done|]. exact Hw. }
  eapply wp_mono; [apply IH; [exact I3|]|].
  - simpl. rewrite Er2. simpl. rewrite <- (filter_out_cons i (sc_running s) Hin Hnd) in Hfuel. simpl in Hfuel. lia.
  - intros [] s4 (I4 & Er4 & Eq4 & Epa4). split_and!; [done|done|rewrite Eq4; exact Eq2|rewrite Epa4; exact Epa2].
Qed.

(** When nothing runs, nobody holds a block. *)
Lemma nobody_holds s q : inv mml (λ _, 0) ∅ [] s → sc_running s = [] → kv_fresh (sc_kv s) q.
Proof.
  intros I Er. destruct (decide (q ∈ (sc_requests s).*1)) as [Hq|Hq]; [|by apply (iv_fresh _ _ _ _ _ I)].
  apply list_elem_of_fmap in Hq as ([id i] & -> & Hi). simpl.
  destruct (iv_obj _ _ _ _ _ I id i Hi) as (r & Hr & <- & _).
  assert (Hin : i ∈ (sc_requests s).*2) by (apply list_elem_of_fmap; by exists (request_id r, i)).
  rewrite <- (iv_parts _ _ _ _ _ I), list_elem_of_filter, Er in Hin. simpl in Hin. destruct Hin as [_ Hin].
  destruct (iv_waiting _ _ _ _ _ I i Hin) as (r' & Hr' & _ & _ & Hf); [set_solver|]. by simplify_eq.
Qed.

(** The reset succeeds when the running requests are preempted first. *)
Lemma update_reset_prefix_cache_spec s rr c :
  ready s → wp (Update.reset_prefix_cache None set_iter rr c) (λ _ s', ready s' ∧
    sc_requests s' = sc_requests s ∧ sc_pause_state s' = sc_pause_state s) s.
Proof.
  intros H. unfold Update.reset_prefix_cache. wp_step. set (fuel := S (length (sc_running s))).
  eapply (wp_mono _ (λ _ s1, ready s1 ∧ sc_requests s1 = sc_requests s ∧ sc_pause_state s1 = sc_pause_state s ∧
    (rr = true → sc_running s1 = []))).
  - destruct rr; [|by wp_step]. wp_step. eapply wp_mono; [apply preempt_all_spec; [apply H|unfold fuel; lia]|].
    intros [] s1 (I1 & Er1 & Eq1 & Epa1). wp_step. split_and!; try done. split.
    + by destruct I1.
    + intros i r _ _ _. simpl. set_solver.
    + simpl. rewrite Er1. simpl. apply (bc_seqs _ Hcf).
  - intros [] s1 (H1 & Eq1 & Epa1 & Er1). wp_step. eapply wp_on_kv, wp_mono; [apply kp_reset, H1|].
    intros b k' (Hg & Hk & Hidle). wp_step.
    assert (Hr' : ready (sc_set_kv k' s1)) by (eapply ready_frame; [done|by apply inv_kv_nobody; [apply H1|..]|done..]).
    destruct rr; simpl.
    + rewrite Hidle by (intros q; apply nobody_holds; [apply H1|by apply Er1]). simpl. by destruct c; wp_step.
    + by destruct c; wp_step.
Qed.
End update.
