(* ===== verification/Frame.v ===== *)
(** * What the calls of the KV-cache manager leave alone

    A call for one request does not touch what the managers keep for another: its
    blocks and the number of its cached blocks.  The property is independent of
    success or failure and of every invariant, and is proved along the structure of
    the code ([keeps]). *)
From S2P Require Import Prelude FreeQueue Request BlockHash BlockPool KVSpec CacheHit SingleType.
From S2P Require Import Coordinator KVCacheManager.

(** ** Relations that every step of a program respects *)
Section keeps.
Context {S : Type} (R : S → S → Prop) `{!PreOrder R}.

Record keeps {A} (m : M S A) : Prop := { keeps_all s : R s (m s).2 }.

Lemma keeps_ret {A} (a : A) : keeps (mret a).
Proof. by split. Qed.

Lemma keeps_bind {A B} (m : M S A) (f : A → M S B) : keeps m → (∀ a, keeps (f a)) → keeps (a ← m; f a).
Proof.
  intros [Hm] Hf. split. intros s. unfold mbind, M_bind. specialize (Hm s). destruct (m s) as [[a|e] s1]; simpl in *; [|done].
  etrans; [exact Hm|apply (Hf a)].
Qed.

Lemma keeps_get : keeps get.
Proof. by split. Qed.

Lemma keeps_gets {A} (f : S → A) : keeps (gets f).
Proof. by split. Qed.

Lemma keeps_modify f : (∀ s, R s (f s)) → keeps (modify f).
Proof. intros Hf. split. intros s. apply Hf. Qed.

Lemma keeps_raise {A} e : keeps (raise e : M S A).
Proof. by split. Qed.

Lemma keeps_massert b : keeps (massert b).
Proof. split. intros s. unfold massert. by destruct b. Qed.

Lemma keeps_of_opt {A} e (o : option A) : keeps (of_opt e o).
Proof. split. intros s. by destruct o. Qed.

Lemma keeps_of_res {A} (r : res A) : keeps (of_res r).
Proof. split. intros s. by destruct r. Qed.

Lemma keeps_for_each {A} (body : A → M S ()) l : (∀ x, keeps (body x)) → keeps (for_each l body).
Proof.
  intros Hb. induction l as [|x l IH]; simpl; [apply keeps_ret|]. by apply keeps_bind; [|intros []].
Qed.

Lemma keeps_mapM {A B} (f : A → M S B) l : (∀ x, keeps (f x)) → keeps (mapM_ f l).
Proof.
  intros Hf. induction l as [|x l IH]; simpl; [apply keeps_ret|].
  apply keeps_bind; [done|]. intros y. apply keeps_bind; [done|]. intros ys. apply keeps_ret.
Qed.

Lemma keeps_elim {A} (m : M S A) s a s' : keeps m → m s = (Ok a, s') → R s s'.
Proof. intros [Hm] E. specialize (Hm s). by rewrite E in Hm. Qed.

Lemma keeps_wp {A} (m : M S A) (Q : A → S → Prop) s : keeps m → wp m Q s → wp m (λ a s', Q a s' ∧ R s s') s.
Proof. intros [Hm]. specialize (Hm s). unfold wp. destruct (m s) as [[a|e] s']; [|done]. done. Qed.
End keeps.

Lemma keeps_zoom {S T A} (R : S → S → Prop) (RT : T → T → Prop) (get : S → T) (set : T → S → S) (m : M T A) :
  (∀ s t, RT (get s) t → R s (set t s)) → keeps RT m → keeps R (zoom get set m).
Proof.
  intros Hset [Hm]. split. intros s. unfold zoom. specialize (Hm (get s)). destruct (m (get s)) as [r t]. by apply Hset.
Qed.

(** What a program returns, from any state *)
Record gives {S A} (P : A → Prop) (m : M S A) : Prop := { gives_all s a s' : m s = (Ok a, s') → P a }.

Section gives.
Context {S : Type}.

Lemma gives_ret {A} (P : A → Prop) a : P a → gives P (mret a : M S A).
Proof. intros Ha. split. by intros s a' s' [= <- _]. Qed.

Lemma gives_raise {A} (P : A → Prop) e : gives P (raise e : M S A).
Proof. split. done. Qed.

Lemma gives_bind {A B} (P : B → Prop) (m : M S A) (f : A → M S B) : (∀ a, gives P (f a)) → gives P (a ← m; f a).
Proof.
  intros Hf. split. intros s b s'. unfold mbind, M_bind. destruct (m s) as [[a|e] s1]; [|done]. apply (Hf a).
Qed.

Lemma gives_bind_with {A B} (Q : A → Prop) (P : B → Prop) (m : M S A) (f : A → M S B) :
  gives Q m → (∀ a, Q a → gives P (f a)) → gives P (a ← m; f a).
Proof.
  intros [Hm] Hf. split. intros s b s'. unfold mbind, M_bind. destruct (m s) as [[a|e] s1] eqn:E; [|done].
  apply (Hf a), (Hm _ _ _ E).
Qed.

Lemma keeps_bind_with (R : S → S → Prop) `{!PreOrder R} {A B} (Q : A → Prop) (m : M S A) (f : A → M S B) :
  keeps R m → gives Q m → (∀ a, Q a → keeps R (f a)) → keeps R (a ← m; f a).
Proof.
  intros [Hm] [Hg] Hf. split. intros s. unfold mbind, M_bind. specialize (Hm s).
  destruct (m s) as [[a|e] s1] eqn:E; simpl in *; [|done]. etrans; [exact Hm|]. apply (Hf a), (Hg _ _ _ E).
Qed.
End gives.

Lemma gives_zoom {S T A} (P : A → Prop) (get : S → T) set (m : M T A) : gives P m → gives P (zoom get set m).
Proof.
  intros [Hm]. split. intros s a s'. unfold zoom. destruct (m (get s)) as [r t] eqn:E. intros [= -> _].
  by apply (Hm _ _ _ E).
Qed.

(** The steps of a program, one after the other *)
Ltac keeps_step :=
  lazymatch goal with
  | |- keeps ?R (mret _) => apply (keeps_ret R)
  | |- keeps ?R (raise _) => apply (keeps_raise R)
  | |- keeps ?R get => apply (keeps_get R)
  | |- keeps ?R (gets _) => apply (keeps_gets R)
  | |- keeps ?R (massert _) => apply (keeps_massert R)
  | |- keeps ?R (of_opt _ _) => apply (keeps_of_opt R)
  | |- keeps ?R (of_res _) => apply (keeps_of_res R)
  | |- keeps ?R (mbind _ _) => apply (keeps_bind R); [|intros ?]
  | |- keeps ?R (for_each _ _) => apply (keeps_for_each R); intros ?
  | |- keeps ?R (mapM_ _ _) => apply (keeps_mapM R); intros ?
  | |- keeps _ (match ?x with _ => _ end) => destruct x
  end.

(** ** Managers *)

(** The attributes of the constructor are the same, and outside [P] the blocks
    and the counts of cached blocks are. *)
Definition frame_of (P : string → Prop) (m m' : Manager) : Prop :=
  same_config m m' ∧
  ∀ q, ¬ P q → blocks_of m' q = blocks_of m q ∧ num_cached_block m' !! q = num_cached_block m !! q.

#[export] Instance frame_of_preorder P : PreOrder (frame_of P).
Proof.
  split; [done|]. intros m1 m2 m3 [C1 H1] [C2 H2]. split; [by etrans|]. intros q Hq. destruct (H1 q Hq) as [A1 B1], (H2 q Hq) as [A2 B2].
  split; congruence.
Qed.

Definition same_cached (m m' : Manager) : Prop := num_cached_block m' = num_cached_block m.

#[export] Instance same_cached_preorder : PreOrder same_cached.
Proof. split; [done|]. unfold same_cached. congruence. Qed.

(** A relation on managers, on the states of a method *)
Definition on_ms (R : Manager → Manager → Prop) (s s' : mstate) : Prop := R (ms_mgr s) (ms_mgr s').

#[export] Instance on_ms_preorder R `{!PreOrder R} : PreOrder (on_ms R).
Proof. split; [by intros s; unfold on_ms|]. intros s1 s2 s3. unfold on_ms. by etrans. Qed.

Section manager.
Context (R : Manager → Manager → Prop) `{!PreOrder R}.

Lemma keeps_on_pool {A} (op : M BlockPool A) : keeps (on_ms R) (on_pool op).
Proof. split. intros s. unfold on_pool, zoom. destruct (op (ms_pool s)) as [r p]. unfold on_ms. done. Qed.

Lemma keeps_upd_mgr f : (∀ m, R m (f m)) → keeps (on_ms R) (upd_mgr f).
Proof. intros Hf. apply keeps_modify. intros s. apply Hf. Qed.
End manager.

Lemma keeps_req_blocks P rid : keeps (on_ms (frame_of P)) (req_blocks_of rid).
Proof.
  split. intros s. unfold req_blocks_of, get, mbind, M_bind. simpl. destruct (req_to_blocks (ms_mgr s) !! rid) eqn:E; [done|].
  split; [done|]. intros q Hq. unfold blocks_of. simpl. destruct (decide (q = rid)) as [->|Hne]; [|by rewrite lookup_insert_ne].
  by rewrite lookup_insert_eq, E.
Qed.

Lemma keeps_req_blocks_cached rid : keeps (on_ms same_cached) (req_blocks_of rid).
Proof.
  split. intros s. unfold req_blocks_of, get, mbind, M_bind. simpl. by destruct (req_to_blocks (ms_mgr s) !! rid).
Qed.

Lemma frame_put rid l m : frame_of (λ q, q = rid) m (set_req_to_blocks (<[rid := l]> (req_to_blocks m)) m).
Proof. split; [done|]. intros q Hq. unfold blocks_of. simpl. by rewrite lookup_insert_ne. Qed.

Lemma frame_pop rid m : frame_of (λ q, q = rid) m (set_req_to_blocks (delete rid (req_to_blocks m)) m).
Proof. split; [done|]. intros q Hq. unfold blocks_of. simpl. by rewrite lookup_delete_ne. Qed.

Lemma frame_cached rid n m : frame_of (λ q, q = rid) m (set_num_cached_block (<[rid := n]> (num_cached_block m)) m).
Proof. split; [done|]. intros q Hq. simpl. by rewrite lookup_insert_ne. Qed.

Lemma frame_uncached rid m : frame_of (λ q, q = rid) m (set_num_cached_block (delete rid (num_cached_block m)) m).
Proof. split; [done|]. intros q Hq. simpl. by rewrite lookup_delete_ne. Qed.

Create HintDb frame.
#[export] Hint Resolve frame_put frame_pop frame_cached frame_uncached : frame.
#[export] Hint Resolve keeps_req_blocks keeps_req_blocks_cached : frame.

(** A method: its structure, and the lemmas on what it calls. *)
Ltac keeps_solve :=
  repeat first
    [ keeps_step
    | lazymatch goal with |- keeps (on_ms ?R) (on_pool _) => apply (keeps_on_pool R) end
    | solve [eauto with frame]
    | lazymatch goal with |- keeps (on_ms ?R) (upd_mgr _) => apply (keeps_upd_mgr R) end;
      intros ?; solve [eauto with frame | done] ].

Section methods.
Context (rid : string).
Abbreviation fr := (on_ms (frame_of (λ q, q = rid))).
Abbreviation keep := (keeps fr).

Lemma keeps_put l : keep (put_req_blocks rid l).
Proof. unfold put_req_blocks. keeps_solve. Qed.
Hint Resolve keeps_put : frame.

Lemma keeps_pop : keep (SingleType.pop_req_blocks rid).
Proof. unfold SingleType.pop_req_blocks. keeps_solve. Qed.
Hint Resolve keeps_pop : frame.

Lemma keeps_extend l n : keep (SingleType.extend_with_new rid l n).
Proof. unfold SingleType.extend_with_new. keeps_solve. Qed.
Hint Resolve keeps_extend : frame.

Lemma keeps_count t blocks n main cap :
  keep (SingleType.get_num_blocks_to_allocate rid t blocks n main cap).
Proof.
  unfold SingleType.get_num_blocks_to_allocate, SingleType.mamba_num_blocks_to_allocate. keeps_solve.
Qed.

Lemma keeps_allocate_computed blocks t ext : keep (SingleType.allocate_new_computed_blocks rid blocks t ext).
Proof.
  unfold SingleType.allocate_new_computed_blocks, SingleType.base_allocate_new_computed_blocks. keeps_solve.
Qed.

Lemma keeps_allocate n main : keep (SingleType.allocate_new_blocks rid n main).
Proof.
  unfold SingleType.allocate_new_blocks, SingleType.base_allocate_new_blocks, SingleType.mamba_align_allocate.
  cbv zeta. keeps_solve.
Qed.

Lemma keeps_cache r n retention : request_id r = rid → keep (SingleType.cache_blocks r n retention).
Proof.
  intros <-. unfold SingleType.cache_blocks, SingleType.mamba_cache_blocks, SingleType.base_cache_blocks,
    SingleType.record_cached. cbv zeta. keeps_solve.
Qed.

Lemma keeps_free : keep (SingleType.free rid).
Proof.
  unfold SingleType.free, SingleType.base_free, SingleType.sliding_free. cbv zeta. keeps_solve.
Qed.

Lemma keeps_remove_skipped t : keep (SingleType.remove_skipped_blocks rid t).
Proof.
  unfold SingleType.remove_skipped_blocks, SingleType.mamba_remove_skipped_blocks,
    SingleType.base_remove_skipped_blocks. cbv zeta. keeps_solve.
Qed.
End methods.
#[export] Hint Resolve keeps_put keeps_pop keeps_extend keeps_count keeps_allocate_computed keeps_allocate
  keeps_cache keeps_free keeps_remove_skipped : frame.

(** Methods that are for no request, or only look *)
Section readers.
Abbreviation keep := (keeps (on_ms (frame_of (λ _, False)))).

Lemma keeps_common_prefix rid : keep (SingleType.get_num_common_prefix_blocks rid).
Proof. unfold SingleType.get_num_common_prefix_blocks. keeps_solve. Qed.

Lemma keeps_take_ids : keep SingleType.take_new_block_ids.
Proof. unfold SingleType.take_new_block_ids. keeps_solve. Qed.

Lemma keeps_new_step : keep SingleType.new_step_starts.
Proof. unfold SingleType.new_step_starts. keeps_solve. Qed.
End readers.
#[export] Hint Resolve keeps_common_prefix keeps_take_ids keeps_new_step : frame.

(** Until the blocks of a request are allocated, nothing is counted as cached. *)
Section uncounted.
Abbreviation keep := (keeps (on_ms same_cached)).

Lemma uncounted_put rid l : keep (put_req_blocks rid l).
Proof. unfold put_req_blocks. keeps_solve. Qed.
Hint Resolve uncounted_put : frame.

Lemma uncounted_count rid t blocks n main cap :
  keep (SingleType.get_num_blocks_to_allocate rid t blocks n main cap).
Proof.
  unfold SingleType.get_num_blocks_to_allocate, SingleType.mamba_num_blocks_to_allocate. keeps_solve.
Qed.

Lemma uncounted_remove_skipped rid t : keep (SingleType.remove_skipped_blocks rid t).
Proof.
  unfold SingleType.remove_skipped_blocks, SingleType.mamba_remove_skipped_blocks,
    SingleType.base_remove_skipped_blocks. cbv zeta. keeps_solve.
Qed.
End uncounted.
#[export] Hint Resolve uncounted_put uncounted_count uncounted_remove_skipped : frame.

(** *** The request that caching returns is the one it was given. *)
Definition same_id (r r' : Request) : Prop := request_id r' = request_id r.

#[export] Instance same_id_preorder : PreOrder same_id.
Proof. split; [done|]. unfold same_id. congruence. Qed.

Lemma keeps_extra_keys s e k : keeps same_id (generate_block_hash_extra_keys s e k).
Proof.
  unfold generate_block_hash_extra_keys, gen_prompt_embeds_extra_hash_keys. keeps_solve.
  by apply keeps_modify.
Qed.

Lemma keeps_event_keys h blocks mask nc bs idxs : ∀ k, keeps same_id (Pool.event_keys h blocks mask nc bs idxs k).
Proof.
  induction idxs as [|i idxs IH]; intros k; cbn [Pool.event_keys]; keeps_solve; auto using keeps_extra_keys.
Qed.

Lemma gives_cache_full r blocks nc nf bs g mask :
  gives (same_id r) (Pool.cache_full_blocks r blocks nc nf bs g mask).
Proof.
  unfold Pool.cache_full_blocks. destruct (nf <=? nc); [by apply gives_ret|]. cbv zeta.
  do 3 (apply gives_bind; intros ?). apply gives_bind; intros [hs parent]. do 2 (apply gives_bind; intros ?).
  destruct (negb _); [by apply gives_ret|]. destruct (Pool.event_keys _ _ _ _ _ _ _ r) as [rk r'] eqn:E.
  do 2 (apply gives_bind; intros ?). apply gives_ret.
  pose proof (keeps_all _ _ (keeps_event_keys (pool_heap a3) blocks mask nc bs (py_range nc nf) 0) r) as H.
  by rewrite E in H.
Qed.

Lemma gives_cache r n retention : gives (same_id r) (SingleType.cache_blocks r n retention).
Proof.
  assert (Hbase : gives (same_id r) (SingleType.base_cache_blocks r n retention)).
  { unfold SingleType.base_cache_blocks. apply gives_bind; intros s. destruct (_ <=? _); [by apply gives_ret|].
    do 2 (apply gives_bind; intros ?). eapply gives_bind_with; [apply gives_zoom, gives_cache_full|].
    intros r' Hr'. apply gives_bind; intros ?. by apply gives_ret. }
  unfold SingleType.cache_blocks, SingleType.mamba_cache_blocks. apply gives_bind; intros s.
  destruct (kind (m_spec (ms_mgr s))); try done.
  apply gives_bind; intros s1. eapply gives_bind_with; [exact Hbase|]. intros r' Hr'. apply gives_bind; intros s2.
  destruct (_ <? _); [|by apply gives_ret]. do 2 (apply gives_bind; intros ?). by apply gives_ret.
Qed.

(** ** Coordinators *)
Definition on_coords (R : Manager → Manager → Prop) (c c' : Coordinator) : Prop :=
  Forall2 R (c_managers c) (c_managers c').

#[export] Instance on_coords_preorder R `{!PreOrder R} : PreOrder (on_coords R).
Proof. split; [by intros c; unfold on_coords|]. intros c1 c2 c3. unfold on_coords. by etrans. Qed.

Section coordinator.
Context (R : Manager → Manager → Prop) `{!PreOrder R}.

Lemma keeps_on_mgr {A} i (op : M mstate A) : keeps (on_ms R) op → keeps (on_coords R) (on_mgr i op).
Proof.
  intros [Hop]. split. intros c. unfold on_mgr. destruct (c_managers c !! i) as [m|] eqn:Ei; [|done].
  specialize (Hop (mkMS (c_pool c) m)). destruct (op _) as [r s]. unfold on_coords. simpl in *.
  rewrite <- (list_insert_id (c_managers c) i m) at 1 by done. by apply Forall2_insert.
Qed.

Lemma keeps_on_cpool {A} (op : M BlockPool A) : keeps (on_coords R) (on_cpool op).
Proof. split. intros c. unfold on_cpool, zoom. destruct (op (c_pool c)) as [r p]. unfold on_coords. done. Qed.

Lemma keeps_sum_over l f : (∀ i, keeps (on_coords R) (f i)) → keeps (on_coords R) (Coord.sum_over l f).
Proof. intros Hf. induction l as [|i l IH]; simpl; keeps_solve; auto. Qed.

End coordinator.

Ltac coord_solve :=
  repeat first [ keeps_step | lazymatch goal with |- keeps (on_coords ?R) (Coord.sum_over _ _) => apply (keeps_sum_over R); intros ? end
               | lazymatch goal with |- keeps (on_coords ?R) (on_mgr _ _) => apply (keeps_on_mgr R) end; solve [eauto with frame]
               | lazymatch goal with |- keeps (on_coords ?R) (on_cpool _) => apply (keeps_on_cpool R) end ].

Section coord_ops.
Context (rid : string).
Abbreviation keep := (keeps (on_coords (frame_of (λ q, q = rid)))).

Lemma keeps_cache_over l tokens retention : ∀ r, request_id r = rid → keep (Coord.cache_over l tokens retention r).
Proof.
  induction l as [|i l IH]; intros r Hr; simpl; [keeps_step|]. do 2 (keeps_step; [keeps_step|]).
  eapply (keeps_bind_with _ (λ r', request_id r' = rid)).
  - apply (keeps_on_mgr (frame_of _)). by apply keeps_cache.
  - split. intros c r' c'. unfold on_mgr. destruct (c_managers c !! i) as [m|]; [|done].
    destruct (SingleType.cache_blocks r _ _ _) as [x s] eqn:E. intros [= -> _].
    rewrite <- Hr. by apply (gives_all _ _ (gives_cache r _ _) _ _ _ E).
  - intros r' Hr'. by apply IH.
Qed.

Lemma keeps_coord_count n blocks enc t main cap :
  keep (Coord.get_num_blocks_to_allocate rid n blocks enc t main cap).
Proof. unfold Coord.get_num_blocks_to_allocate, Coord.group_blocks. coord_solve. Qed.

Lemma keeps_coord_computed blocks t ext : keep (Coord.allocate_new_computed_blocks rid blocks t ext).
Proof. unfold Coord.allocate_new_computed_blocks, Coord.group_blocks. coord_solve. Qed.

Lemma keeps_coord_allocate n main enc : keep (Coord.allocate_new_blocks rid n main enc).
Proof. unfold Coord.allocate_new_blocks. coord_solve. Qed.

Lemma keeps_coord_cache r n : request_id r = rid → keep (Coord.cache_blocks r n).
Proof. intros Hr. unfold Coord.cache_blocks. keeps_step; [keeps_step|]. by apply keeps_cache_over. Qed.

Lemma keeps_coord_free : keep (Coord.free rid).
Proof. unfold Coord.free. coord_solve. Qed.

Lemma keeps_coord_skip t : keep (Coord.remove_skipped_blocks rid t).
Proof. unfold Coord.remove_skipped_blocks. coord_solve. Qed.
End coord_ops.

Section coord_readers.
Abbreviation keep := (keeps (on_coords (frame_of (λ _, False)))).

Lemma keeps_coord_prefix rid : keep (Coord.get_num_common_prefix_blocks rid).
Proof. unfold Coord.get_num_common_prefix_blocks. coord_solve. Qed.

Lemma keeps_coord_new_step : keep Coord.new_step_starts.
Proof. unfold Coord.new_step_starts. coord_solve. Qed.

Lemma uncounted_coord_count rid n blocks enc t main cap :
  keeps (on_coords same_cached) (Coord.get_num_blocks_to_allocate rid n blocks enc t main cap).
Proof. unfold Coord.get_num_blocks_to_allocate, Coord.group_blocks. coord_solve. Qed.

Lemma uncounted_coord_skip rid t : keeps (on_coords same_cached) (Coord.remove_skipped_blocks rid t).
Proof. unfold Coord.remove_skipped_blocks. coord_solve. Qed.
End coord_readers.

(** Nothing is left of a freed request. *)
Lemma manager_free_forgets rid s s' : SingleType.free rid s = (Ok tt, s') → num_cached_block (ms_mgr s') !! rid = None.
Proof.
  assert (Hlast : ∀ A (op : M mstate A) t a t',
    (_ ← op; upd_mgr (λ m, set_num_cached_block (delete rid (num_cached_block m)) m)) t = (Ok a, t') →
    num_cached_block (ms_mgr t') !! rid = None).
  { intros A op t a t'. unfold mbind, M_bind. destruct (op t) as [[x|] t1]; [|done].
    intros [= _ <-]. simpl. apply lookup_delete_eq. }
  assert (Hb : ∀ t a t', SingleType.base_free rid t = (Ok a, t') → num_cached_block (ms_mgr t') !! rid = None).
  { intros t a t'. unfold SingleType.base_free at 1. unfold mbind at 1, M_bind at 1.
    destruct (SingleType.pop_req_blocks rid t) as [[l|] t1]; [|done]. apply Hlast. }
  unfold SingleType.free. unfold get at 1, mbind at 1, M_bind at 1. cbv beta iota.
  destruct (kind (m_spec (ms_mgr s))) as [| | |mode n|]; try apply Hb.
  - unfold SingleType.sliding_free. unfold mbind at 1, M_bind at 1.
    destruct (SingleType.pop_req_blocks rid s) as [[l|] t1]; [|done].
    unfold get at 1, mbind at 1, M_bind at 1. cbv beta iota. apply Hlast.
  - destruct mode; apply Hb.
Qed.

Lemma coord_free_forgets rid l c c' :
  for_each l (λ i, on_mgr i (SingleType.free rid)) c = (Ok tt, c') →
  ∀ i m, i ∈ l → c_managers c' !! i = Some m → num_cached_block m !! rid = None.
Proof.
  revert c. induction l as [|j l IH]; intros c; simpl; [set_solver|]. unfold mbind, M_bind.
  destruct (on_mgr j _ c) as [[[]|] c1] eqn:E; [|done]. intros Hrest i m [->|Hi]%elem_of_cons Hm; [|by eapply IH].
  destruct (decide (j ∈ l)); [by eapply IH|].
  assert (Hsame : c_managers c' !! j = c_managers c1 !! j).
  { clear E IH Hm. revert c1 Hrest n. induction l as [|k l IH]; intros c1; simpl; [by intros [= ->]|].
    unfold mbind, M_bind. destruct (on_mgr k _ c1) as [[[]|] c2] eqn:E; [|done]. intros Hrest [Hne Hn]%not_elem_of_cons.
    rewrite (IH _ Hrest Hn). unfold on_mgr in E. destruct (c_managers c1 !! k); [|done].
    destruct (SingleType.free _ _). injection E as _ <-. simpl. by rewrite list_lookup_insert_ne. }
  rewrite Hsame in Hm. unfold on_mgr in E. destruct (c_managers c !! j) as [m0|] eqn:Em; [|done].
  destruct (SingleType.free rid _) as [r s] eqn:Ef. injection E as -> <-. simpl in Hm.
  rewrite list_lookup_insert_eq in Hm by (by eapply lookup_lt_Some). injection Hm as <-. by eapply manager_free_forgets.
Qed.

(** ** The KV-cache manager *)
Definition on_kms (R : Manager → Manager → Prop) (k k' : KVCacheManager) : Prop :=
  on_coords R (km_coord k) (km_coord k') ∧ km_max_model_len k' = km_max_model_len k ∧
  km_enable_caching k' = km_enable_caching k ∧ km_log_stats k' = km_log_stats k ∧
  (is_Some (km_stats k) → is_Some (km_stats k')).

#[export] Instance on_kms_preorder R `{!PreOrder R} : PreOrder (on_kms R).
Proof.
  split; [by intros k; unfold on_kms|]. intros k1 k2 k3 (A1 & A2 & A3 & A4 & A5) (B1 & B2 & B3 & B4 & B5).
  unfold on_kms. split_and!; try congruence; [by etrans|auto].
Qed.

Lemma keeps_on_coord R {A} (op : M Coordinator A) : keeps (on_coords R) op → keeps (on_kms R) (on_coord op).
Proof. intros [Hop]. split. intros k. unfold on_coord, zoom. specialize (Hop (km_coord k)). by destruct (op _). Qed.

Lemma keeps_kv_cpool R `{!PreOrder R} {A} (op : M BlockPool A) : keeps (on_kms R) (on_coord (on_cpool op)).
Proof. apply keeps_on_coord, keeps_on_cpool, _. Qed.

#[export] Hint Resolve keeps_coord_count keeps_coord_computed keeps_coord_allocate keeps_coord_cache keeps_coord_free
  keeps_coord_skip keeps_coord_prefix keeps_coord_new_step uncounted_coord_count uncounted_coord_skip : frame.

Ltac kv_solve :=
  repeat first
    [ keeps_step
    | lazymatch goal with |- keeps (on_kms ?R) (on_coord (on_cpool _)) => apply (keeps_kv_cpool R) end
    | lazymatch goal with |- keeps (on_kms ?R) (on_coord _) => apply (keeps_on_coord R) end; solve [eauto with frame] ].

Section kv_ops.
Context (r : Request).
Abbreviation keep := (keeps (on_kms (frame_of (λ q, q = request_id r)))).

Lemma keeps_kv_allocate n hits blocks la ext delay enc gate reserved :
  keep (KVManager.allocate_slots r n hits blocks la ext delay enc gate reserved).
Proof.
  unfold KVManager.allocate_slots, KVManager.full_sequence_fits, KVManager.commit_slots, KVManager.grow_slots.
  cbv zeta. kv_solve.
Qed.

Lemma keeps_kv_free : keep (KVManager.free r).
Proof. unfold KVManager.free. kv_solve. Qed.
End kv_ops.

Section kv_readers.
Abbreviation keep := (keeps (on_kms (frame_of (λ _, False)))).

Lemma keeps_kv_prefix rid : keep (KVManager.get_num_common_prefix_blocks rid).
Proof. unfold KVManager.get_num_common_prefix_blocks. kv_solve. Qed.

Lemma keeps_kv_take_ids : keep KVManager.take_new_block_ids.
Proof.
  unfold KVManager.take_new_block_ids. keeps_step; [keeps_step|]. keeps_step; [|keeps_step].
  apply keeps_on_coord. coord_solve.
Qed.

Lemma keeps_kv_events : keep KVManager.take_events.
Proof. unfold KVManager.take_events. kv_solve. Qed.

Lemma keeps_kv_new_step : keep KVManager.new_step_starts.
Proof. unfold KVManager.new_step_starts. kv_solve. Qed.

Lemma keeps_set_stats st : keep (modify (km_set_stats (Some st))).
Proof. apply keeps_modify. intros k. by split_and!. Qed.

Lemma keeps_kv_reset : keep KVManager.reset_prefix_cache.
Proof. unfold KVManager.reset_prefix_cache. kv_solve; try apply keeps_set_stats. Qed.

Lemma keeps_kv_computed r : keep (KVManager.get_computed_blocks r).
Proof. unfold KVManager.get_computed_blocks. kv_solve; try apply keeps_set_stats. Qed.
End kv_readers.

(** ** When no blocks are given out, nothing is counted as cached *)

(** A relation that holds of the calls with a certain result *)
Record keeps_if {S A} (R : S → S → Prop) (C : A → Prop) (m : M S A) : Prop :=
  { keeps_if_all s a s' : m s = (Ok a, s') → C a → R s s' }.

Section keeps_if.
Context {S : Type} (R : S → S → Prop) `{!PreOrder R}.

Lemma keeps_if_ret {A} (C : A → Prop) a : keeps_if R C (mret a).
Proof. split. by intros s a' s' [= <- <-] _. Qed.

Lemma keeps_if_bind {A B} (C : B → Prop) (m : M S A) (f : A → M S B) :
  keeps R m → (∀ a, keeps_if R C (f a)) → keeps_if R C (a ← m; f a).
Proof.
  intros [Hm] Hf. split. intros s b s'. unfold mbind, M_bind. specialize (Hm s).
  destruct (m s) as [[a|e] s1]; simpl in *; [|done]. intros E HC. etrans; [exact Hm|].
  by apply (keeps_if_all _ _ _ (Hf a) _ _ _ E).
Qed.

Lemma keeps_if_never {A} (C : A → Prop) (m : M S A) : gives (λ a, ¬ C a) m → keeps_if R C m.
Proof. intros [Hg]. split. intros s a s' E HC. by destruct (Hg _ _ _ E). Qed.

Lemma keeps_if_wp {A} (C : A → Prop) (m : M S A) (Q : A → S → Prop) s :
  keeps_if R C m → wp m Q s → wp m (λ a s', Q a s' ∧ (C a → R s s')) s.
Proof.
  intros [Hm] (a & s' & E & HQ)%wp_elim. apply (wp_intro _ _ _ _ _ E). split; [done|]. intros HC. exact (Hm _ _ _ E HC).
Qed.
End keeps_if.

Section refused.
Abbreviation keep := (keeps (on_kms same_cached)).
Abbreviation refused := (λ x : option KVCacheBlocks * Request, x.1 = None).

Lemma grow_gives r n t need main enc delay :
  gives (λ x, ¬ refused x) (KVManager.grow_slots r n t need main enc delay).
Proof.
  unfold KVManager.grow_slots. do 2 (apply gives_bind; intros ?). destruct (_ || _); [by apply gives_ret|].
  apply gives_bind; intros ?. by apply gives_ret.
Qed.

Lemma refused_uncached r n hits blocks la ext delay enc gate reserved :
  keeps_if (on_kms same_cached) refused
    (KVManager.allocate_slots r n hits blocks la ext delay enc gate reserved).
Proof.
  unfold KVManager.allocate_slots. destruct (_ && _); [by apply keeps_if_never, gives_raise|]. cbv zeta.
  apply keeps_if_bind; [apply _|apply (keeps_get _)|intros k].
  apply keeps_if_bind; [apply _| |intros []]; [..|apply (keeps_if_ret _)].
  { unfold KVManager.full_sequence_fits. cbv zeta. kv_solve. }
  do 3 (apply keeps_if_bind; [apply _|kv_solve|intros ?]). destruct (_ <? _); [apply (keeps_if_ret _)|].
  apply keeps_if_never. unfold KVManager.commit_slots. apply gives_bind; intros ?. apply grow_gives.
Qed.
End refused.
