(* ===== verification/KVHits.v ===== *)
(** * What the search for a cache hit gives to the allocation

    The blocks that [get_computed_blocks] returns are blocks of the pool, distinct
    but for the null block, and cached: the conditions under which
    [allocate_slots] enters them ([hits_pre]).  Distinct positions have distinct
    blocks because the hashes of a request are distinct ([chain_inj]). *)
From S2P Require Import Prelude FreeQueue Request BlockHash BlockPool KVSpec CacheHit SingleType.
From S2P Require Import Coordinator HybridHit KVCacheManager.

(** ** Distinct positions, distinct blocks *)
Lemma nonnull_inj_NoDup (nb : loc) l :
  (∀ i j b, l !! i = Some b → l !! j = Some b → b ≠ nb → i = j) → NoDup (filter (λ b, b ≠ nb) l).
Proof.
  induction l as [|x l IH]; intros Hinj; [constructor|].
  assert (Hl : NoDup (filter (λ b, b ≠ nb) l)).
  { apply IH. intros i j b Hi Hj Hb. pose proof (Hinj (S i) (S j) b Hi Hj Hb). lia. }
  rewrite filter_cons. case_decide as Hx; [|done]. constructor; [|done].
  intros [_ [i Hi]%list_elem_of_lookup]%list_elem_of_filter. by pose proof (Hinj (S i) 0%nat x Hi eq_refl Hx).
Qed.

Section rows.
Context (p : BlockPool) (fr : list loc) (Hp : pool_inv p fr).
Context (hs : list bytes) (gids : list Z) (Hhs : NoDup hs) (Hg : groups_ok gids).
Abbreviation cache := (cached_block_hash_to_block p).
Abbreviation nb := (null_block p).

(** The block of a group in the row of a hash *)
Lemma row_block i row k g :
  row_at cache hs gids i = Some row → gids !! k = Some g →
  (row !!! k < nblk p)%nat ∧ row !!! k ≠ nb ∧
  ∃ h key, hs !! i = Some h ∧ make_block_hash_with_group_id h g = Ok key ∧ phash p (row !!! k) = Some key.
Proof.
  unfold row_at, row_of. destruct (hs !! i) as [h|] eqn:Eh; [|done]. simpl. intros Hrow Hk.
  pose proof (get_cached_block_spec p fr h gids Hp (go_range _ Hg)) as Hspec.
  destruct (Pool.get_cached_block cache h gids) as [o|]; [|done]. subst o.
  destruct (Forall2_lookup_l _ _ _ _ _ Hspec Hk) as (b & Hb & H1 & H2 & key & H3 & H4).
  rewrite (list_lookup_total_correct _ _ _ Hb). split_and!; [done|done|]. by exists h, key.
Qed.

Lemma rows_hits_ok rows k :
  (∀ j row, rows !! j = Some row → row = null_row nb gids ∨ row_at cache hs gids j = Some row) →
  (k < length gids)%nat → hits_ok p ((λ row, row !!! k) <$> rows).
Proof.
  intros Hrows Hk. destruct (lookup_lt_is_Some_2 gids k Hk) as [g Hgk].
  assert (Hnull : null_row nb gids !!! k = nb) by (apply list_lookup_total_correct, lookup_replicate_2; done).
  assert (Hcol : ∀ j b, ((λ row, row !!! k) <$> rows) !! j = Some b → b ≠ nb →
    ∃ row, row_at cache hs gids j = Some row ∧ b = row !!! k).
  { intros j b. rewrite list_lookup_fmap. destruct (rows !! j) as [row|] eqn:Ej; simpl; [|done]. intros [= <-] Hb.
    destruct (Hrows j row Ej) as [->|Hrow]; [done|]. by exists row. }
  split.
  - intros b [j Hj]%list_elem_of_lookup. destruct (decide (b = nb)) as [->|Hb].
    + apply (di_nb _ _ _ _ _ (pi_data _ _ Hp)).
    + destruct (Hcol j b Hj Hb) as (row & Hrow & ->). by destruct (row_block j row k g Hrow Hgk).
  - apply nonnull_inj_NoDup. intros i j b Hi Hj Hb.
    destruct (Hcol i b Hi Hb) as (row & Hrow & ->). destruct (Hcol j _ Hj Hb) as (row' & Hrow' & E).
    destruct (row_block i row k g Hrow Hgk) as (_ & _ & h & key & Hh & Hkey & Hph).
    destruct (row_block j row' k g Hrow' Hgk) as (_ & _ & h' & key' & Hh' & Hkey' & Hph').
    rewrite E, Hph' in Hph. injection Hph as ->. destruct (make_key_inj _ _ _ _ _ Hkey Hkey') as [-> _].
    by eapply NoDup_lookup.
  - intros b [j Hj]%list_elem_of_lookup Hb. destruct (Hcol j b Hj Hb) as (row & Hrow & ->).
    destruct (row_block j row k g Hrow Hgk) as (_ & _ & h & key & _ & _ & ->). by eexists.
Qed.
End rows.

(** ** The hashes of a request are distinct *)
Section hashes.
Context (hash_function : bytes * list Z * option (list extra_key) → bytes) (NONE_HASH : bytes).
Hypothesis hash_inj : ∀ x y, hash_function x = hash_function y → x = y.
Hypothesis hash_nonempty : ∀ x, hash_function x ≠ [].
Hypothesis none_fresh : ∀ x, hash_function x ≠ NONE_HASH.
Context (digest : nat) (hash_length : ∀ x, length (hash_function x) = digest).

Lemma chain_NoDup ins : NoDup (chain_hashes hash_function NONE_HASH None ins).
Proof. apply NoDup_alt. intros i j h Hi Hj. by eapply chain_inj. Qed.

Lemma chain_length ins h : h ∈ chain_hashes hash_function NONE_HASH None ins → length h = digest.
Proof. intros [i Hi]%list_elem_of_lookup. apply chain_is_hash in Hi as [x ->]. apply hash_length. Qed.

Lemma coarse_NoDup (hs : list bytes) n :
  0 < n → NoDup hs → (∀ h, h ∈ hs → length h = digest) →
  NoDup (BlockHashListWithBlockSize.to_list (BlockHashListWithBlockSize.mk hs n)).
Proof.
  intros Hn Hnd Hd. unfold BlockHashListWithBlockSize.to_list.
  set (l := BlockHashListWithBlockSize.mk hs n). change (BlockHashListWithBlockSize.length_ l) with (len hs / n).
  assert (Hslice : ∀ i, 0 ≤ i < len hs / n → len (py_slice hs (i * n) (i * n + n)) = n).
  { intros i Hi. rewrite py_slice_length; [lia|nia|].
    pose proof (Z.mul_div_le (len hs) n Hn). nia. }
  assert (Hall : ∀ i h, h ∈ py_slice hs (i * n) (i * n + n) → length h = digest).
  { intros i h Hh. eapply Hd, py_slice_subset, Hh. }
  apply NoDup_alt. intros i j h. rewrite !list_lookup_fmap. unfold py_range.
  intros (x & Hx & Ei)%fmap_Some (y & Hy & Ej)%fmap_Some.
  apply lookup_seqZ in Hx as [-> Hx]; apply lookup_seqZ in Hy as [-> Hy]. rewrite Ei in Ej.
  unfold BlockHashListWithBlockSize.get_value_at in Ej. simpl in Ej.
  apply (concat_inj_same_length _ _ digest) in Ej;
    [|by intros ?; apply Hall|by intros ?; apply Hall|
     apply Nat2Z.inj; rewrite !Hslice by lia; done].
  assert (Hfirst : ∀ k, 0 ≤ k < len hs / n →
    py_slice hs (k * n) (k * n + n) !! 0%nat = hs !! Z.to_nat (k * n)).
  { intros k Hk. unfold py_slice. rewrite lookup_take_lt, lookup_drop by lia. f_equal. lia. }
  pose proof (Hfirst (0 + Z.of_nat i) ltac:(lia)) as Fi. pose proof (Hfirst (0 + Z.of_nat j) ltac:(lia)) as Fj.
  rewrite Ej, Fj in Fi. destruct (lookup_lt_is_Some_2 hs (Z.to_nat ((0 + Z.of_nat i) * n))) as [h' Hh'].
  { pose proof (Z.mul_div_le (len hs) n Hn). nia. }
  rewrite Hh' in Fi. pose proof (NoDup_lookup _ _ _ _ Hnd Hh' Fi). nia.
Qed.

Lemma request_hashes_NoDup r hbs bs :
  0 < hbs → 0 < bs → bs mod hbs = 0 → hashes_ok hash_function NONE_HASH r hbs →
  NoDup (group_hashes (block_hashes r) hbs bs).
Proof.
  intros Hhbs Hbs Hmod Hr. unfold hashes_ok in Hr. rewrite Hr. unfold group_hashes.
  destruct (Z.eqb_spec bs hbs); [apply chain_NoDup|]. apply coarse_NoDup; [|apply chain_NoDup|apply chain_length].
  apply Z.div_exact in Hmod; [|lia]. nia.
Qed.
End hashes.

(** ** The searches of the coordinators *)

(** What the search of a coordinator relies on; the constructor sets it and
    nothing changes it. *)
Definition searchable (c : Coordinator) : Prop :=
  let hbs := hash_block_size (c_pool c) in
  match c_kind c with
  | NoPrefixCache => True
  | Unitary dcp pcp => dcp = 1 ∧ pcp = 1 ∧ Coord.num_managers c = 1%nat ∧
      ∃ g, kv_cache_groups (c_config c) = [g] ∧ block_size (kv_cache_spec g) = hbs ∧
        spec_valid (kv_cache_spec g) hbs (bool_decide (0%nat ∈ c_eagle_group_ids c))
  | Hybrid ags => c_hash_block_size c = hbs ∧ ags ≠ [] ∧
      Coord.num_managers c = length (kv_cache_groups (c_config c)) ∧
      (∀ g, g ∈ ags → block_size (sg_spec g) mod hbs = 0) ∧
      (∀ i, (i < Coord.num_managers c)%nat → ∃ g, g ∈ ags ∧ i ∈ sg_group_ids g) ∧
      ∀ hashes max_length, 0 ≤ max_length →
        (∀ g, g ∈ ags → (Z.to_nat (max_length / block_size (sg_spec g)) ≤
           length (group_hashes hashes hbs (block_size (sg_spec g))))%nat) →
        groups_valid hbs (c_scheduler_block_size c) ags hashes max_length (Coord.num_managers c)
  end.

Lemma same_coord_searchable c c' : same_coord c c' → searchable c → searchable c'.
Proof.
  intros Hs. pose proof (same_coord_length _ _ Hs) as Hl. destruct Hs as (E1 & E2 & E3 & E4 & E5 & E6 & E7 & Hf & _).
  unfold searchable, Coord.num_managers. by rewrite E1, E2, E4, E5, E6, Hl, (pf_hbs _ _ Hf).
Qed.

(** A hit of [n] tokens for every manager *)
Record hits_found (c : Coordinator) (hits : list (list loc)) (n : Z) : Prop := {
  hf_length : length hits = Coord.num_managers c;
  hf_ok i h : hits !! i = Some h → hits_ok (c_pool c) h;
  hf_empty : Forall (λ h, h = []) hits → n = 0;
}.

Section found.
Context (hash_function : bytes * list Z * option (list extra_key) → bytes) (NONE_HASH : bytes).
Hypothesis hash_inj : ∀ x y, hash_function x = hash_function y → x = y.
Hypothesis hash_nonempty : ∀ x, hash_function x ≠ [].
Hypothesis none_fresh : ∀ x, hash_function x ≠ NONE_HASH.
Context (digest : nat) (hash_length : ∀ x, length (hash_function x) = digest).
Context (c : Coordinator) (fr : list loc) (Hc : sys_inv c fr) (Ho : coord_ok c) (Hsearch : searchable c).
Abbreviation hbs := (hash_block_size (c_pool c)).
Context (r : Request) (Hr : hashes_ok hash_function NONE_HASH r hbs) (Hpos : 1 ≤ num_tokens r).

(** The hashes reach all but the last token. *)
Lemma hashes_reach bs :
  0 < bs → bs mod hbs = 0 →
  (Z.to_nat ((num_tokens r - 1) / bs) ≤ length (group_hashes (block_hashes r) hbs bs))%nat.
Proof.
  intros Hbs Hmod. pose proof (ok_hbs _ Ho) as Hhbs.
  pose proof (group_hashes_length (block_hashes r) hbs bs Hhbs Hbs Hmod) as Hlen.
  unfold hashes_ok in Hr. rewrite Hr in Hlen at 2. rewrite full_hashes_length in Hlen by done. unfold num_full in Hlen.
  apply Z.mod_divide in Hmod as [q Hq]; [|lia]. assert (0 < q) by nia.
  rewrite Z.div_div in Hlen by (rewrite ?Hq, ?Z.div_mul; lia).
  replace (hbs * (bs / hbs)) with bs in Hlen by (rewrite Hq, Z.div_mul; lia).
  pose proof (Z.div_le_mono (num_tokens r - 1) (num_tokens r) bs). lia.
Qed.

Lemma find_unitary g drop :
  block_size (kv_cache_spec g) = hbs → spec_valid (kv_cache_spec g) hbs drop → Coord.num_managers c = 1%nat →
  ∃ hits n, Coord.unitary_find (cached_block_hash_to_block (c_pool c)) (null_block (c_pool c)) (kv_cache_spec g)
      drop 1 1 (block_hashes r) (num_tokens r - 1) = Ok (hits, n) ∧
    hits_found c hits n ∧ 0 ≤ n < num_tokens r.
Proof.
  intros Ebs Hv Hone. set (cache := cached_block_hash_to_block _). set (nb := null_block _).
  assert (Hg : groups_ok [0]) by (split; [by repeat constructor|simpl; lia]).
  destruct (find_ok cache nb (block_hashes r) (num_tokens r - 1) [0] drop hbs Hg Hv ltac:(lia)) as (rows & E & Hhit).
  { rewrite Ebs. pose proof (hashes_reach hbs (ok_hbs _ Ho) ltac:(apply Z.mod_same; pose proof (ok_hbs _ Ho); lia)) as H.
    unfold group_hashes in H. by rewrite Z.eqb_refl in H. }
  exists (cols 1 rows), (len rows * hbs). unfold Coord.unitary_find. change (1 <? 1) with false. cbv zeta iota. rewrite Ebs. fold cache nb. rewrite E.
  cbn [mbind res_bind cols seq fmap list_fmap first_list]. simpl. rewrite length_fmap.
  pose proof (ho_max _ _ _ _ _ _ _ _ _ Hhit) as Hmax. rewrite Ebs in Hmax. pose proof (ok_hbs _ Ho) as Hhbs.
  split; [done|]. split; [|lia]. split; simpl; [done| |].
  - intros i h Hi. destruct i as [|i]; [|done]. injection Hi as <-.
    apply (rows_hits_ok _ fr (si_pool _ _ Hc) (block_hashes r) [0]); [|done| |simpl; lia].
    + unfold hashes_ok in Hr. rewrite Hr. by eapply chain_NoDup.
    + apply (ho_rows _ _ _ _ _ _ _ _ _ Hhit).
  - intros [Hnil _]%Forall_cons. apply fmap_nil_inv in Hnil as ->. done.
Qed.

Lemma find_hybrid ags :
  c_kind c = Hybrid ags →
  ∃ hits n, Coord.hybrid_find (cached_block_hash_to_block (c_pool c)) (null_block (c_pool c)) hbs
      (c_scheduler_block_size c) ags (block_hashes r) (num_tokens r - 1)
      (length (kv_cache_groups (c_config c))) = Ok (hits, n) ∧
    hits_found c hits n ∧ 0 ≤ n < num_tokens r.
Proof.
  intros Ek. unfold searchable in Hsearch. rewrite Ek in Hsearch.
  destruct Hsearch as (Ehbs & Hne & Hnum & Hmod & Hcover & Hvalid). rewrite <- Hnum.
  assert (Hpos' : ∀ g, g ∈ ags → 0 < block_size (sg_spec g)).
  { destruct (Hvalid (block_hashes r) 0) as [_ _ _ Hs _ _ _ _ _ _ _]; [done| |].
    - intros g Hg. rewrite Zdiv_0_l. simpl. lia.
    - intros g Hg. apply (Hs g Hg). }
  specialize (Hvalid (block_hashes r) (num_tokens r - 1) ltac:(lia)).
  assert (Hv : groups_valid hbs (c_scheduler_block_size c) ags (block_hashes r) (num_tokens r - 1) (Coord.num_managers c)).
  { apply Hvalid. intros g Hg. apply hashes_reach; auto. }
  destruct (hybrid_find_ok (cached_block_hash_to_block (c_pool c)) (null_block (c_pool c)) _ _ _ _ _ _ Hv Hne)
    as (hits & n & E & Hn & _ & Hlen & Hgroups).
  exists hits, n. split; [done|]. split; [|lia].
  assert (Hrow : ∀ i, (i < Coord.num_managers c)%nat → ∃ g rows k, g ∈ ags ∧ sg_group_ids g !! k = Some i ∧
    hits !! i = Some ((λ row, row !!! k) <$> rows) ∧ len rows * block_size (sg_spec g) = n ∧
    hit_ok (cached_block_hash_to_block (c_pool c)) (null_block (c_pool c))
      (group_hashes (block_hashes r) hbs (block_size (sg_spec g))) (Z.of_nat <$> sg_group_ids g)
      (kind (sg_spec g)) (block_size (sg_spec g)) (c_scheduler_block_size c) n rows).
  { intros i Hi. destruct (Hcover i Hi) as (g & Hg & [k Hk]%list_elem_of_lookup).
    destruct (Hgroups g Hg) as (rows & R1 & R2 & R3). exists g, rows, k. split_and!; auto. }
  split; [done| |].
  - intros i h Hi. pose proof (lookup_lt_Some _ _ _ Hi) as Hlt. rewrite Hlen in Hlt.
    destruct (Hrow i Hlt) as (g & rows & k & Hg & Hk & Eh & _ & Hhit). rewrite Hi in Eh. injection Eh as ->.
    eapply (rows_hits_ok _ fr (si_pool _ _ Hc)); [| |apply (ho_rows _ _ _ _ _ _ _ _ _ Hhit)|].
    + eapply request_hashes_NoDup; eauto using ok_hbs.
    + by apply (gv_ok _ _ _ _ _ _ Hv).
    + rewrite length_fmap. by eapply lookup_lt_Some.
  - intros Hnil. destruct ags as [|g0 ags0]; [done|].
    assert (Hg0 : g0 ∈ g0 :: ags0) by apply list_elem_of_here.
    pose proof (go_pos _ (gv_ok _ _ _ _ _ _ Hv g0 Hg0)) as Hids. rewrite length_fmap in Hids.
    destruct (lookup_lt_is_Some_2 (sg_group_ids g0) 0 Hids) as [i Hi].
    destruct (Hgroups g0 Hg0) as (rows & R1 & _ & R3). specialize (R3 0%nat i Hi).
    pose proof (Forall_lookup_1 _ _ _ _ Hnil R3) as E0. simpl in E0. apply fmap_nil_inv in E0 as ->. simpl in R1. lia.
Qed.

Lemma find_hits :
  ∃ hits n, Coord.find_longest_cache_hit c (block_hashes r) (num_tokens r - 1) = Ok (hits, n) ∧
    hits_found c hits n ∧ 0 ≤ n < num_tokens r.
Proof.
  unfold Coord.find_longest_cache_hit. destruct (c_kind c) as [|dcp pcp|ags] eqn:Ek.
  - exists (replicate (Coord.num_managers c) []), 0. split; [done|]. split; [|lia]. split; [|
      |done]. { by rewrite length_replicate. }
    intros i h [-> _]%lookup_replicate_1. split; [set_solver|constructor|set_solver].
  - pose proof Hsearch as Hs. unfold searchable in Hs. rewrite Ek in Hs.
    destruct Hs as (-> & -> & Hone & g & Eg & Ebs & Hv). rewrite Eg. by apply find_unitary.
  - pose proof Hsearch as Hs. unfold searchable in Hs. rewrite Ek in Hs. destruct Hs as (-> & _). by apply find_hybrid.
Qed.
End found.
