(* ===== verification/KVStart.v ===== *)
(** * A manager as it is constructed

    What [get_kv_cache_coordinator] builds for groups of full attention and sliding
    windows: managers without blocks, and groups as the search for a cache hit
    needs them ([searchable]). *)
From S2P Require Import Prelude FreeQueue Request BlockHash BlockPool KVSpec CacheHit SingleType.
From S2P Require Import Coordinator HybridHit KVCacheManager KVHits.

(** ** Groups by specification *)

(** The groups [0 .. n-1] are parted by their specification. *)
Record parted (all : list KVCacheGroupSpec) (n : nat) (acc : list SpecGroup) : Prop := {
  pa_specs : NoDup (sg_spec <$> acc);
  pa_nodup g : g ∈ acc → NoDup (sg_group_ids g);
  pa_ids g i : g ∈ acc → i ∈ sg_group_ids g → (i < n)%nat ∧ kv_cache_spec <$> all !! i = Some (sg_spec g);
  pa_some g : g ∈ acc → sg_group_ids g ≠ [];
  pa_cover i : (i < n)%nat → ∃ g, g ∈ acc ∧ i ∈ sg_group_ids g;
}.

(** A group that is added goes to its specification's entry. *)
Lemma add_elem spec i ue acc g :
  NoDup (sg_spec <$> acc) → g ∈ Coord.add_to_groups spec i ue acc ↔
  (g ∈ acc ∧ sg_spec g ≠ spec) ∨
  (∃ g0, g0 ∈ acc ∧ sg_spec g0 = spec ∧ g = mkSG spec (sg_group_ids g0 ++ [i]) (sg_use_eagle g0 || ue)) ∨
  (spec ∉ sg_spec <$> acc ∧ g = mkSG spec [i] ue).
Proof.
  induction acc as [|g1 acc IH]; intros Hnd; simpl.
  { rewrite list_elem_of_singleton. split; [intros ->; right; right; split; [set_solver|done]|].
    intros [[H _]|[(g0 & H & _)|[_ H]]]; [by apply elem_of_nil in H|by apply elem_of_nil in H|done]. }
  apply NoDup_cons in Hnd as [Hn Hnd]. specialize (IH Hnd). destruct (decide (sg_spec g1 = spec)) as [E|E].
  - rewrite elem_of_cons. split.
    + intros [->|Hg]; [right; left; exists g1; rewrite E; split_and!; [left|done|done]|].
      left. split; [by right|]. intros Eg. apply Hn. rewrite E, <- Eg. by apply list_elem_of_fmap_2.
    + intros [[[->|Hg]%elem_of_cons Hs]|[(g0 & [->|Hg]%elem_of_cons & E0 & ->)|[H _]]]; [done|by right| | |].
      * left. by rewrite E.
      * exfalso. apply Hn. rewrite E, <- E0. by apply list_elem_of_fmap_2.
      * exfalso. apply H. rewrite E. left.
  - rewrite elem_of_cons, IH. split.
    + intros [->|[[Hg Hs]|[(g0 & Hg & E0 & ->)|[H ->]]]]; [left; split; [left|done]|left; split; [by right|done]| |].
      * right; left. exists g0. split_and!; [by right|done|done].
      * right; right. split; [|done]. intros [H'|H']%elem_of_cons; [by apply E|done].
    + intros [[[->|Hg]%elem_of_cons Hs]|[(g0 & [->|Hg]%elem_of_cons & E0 & ->)|[H ->]]]; [by left|by right; left|done| |].
      * right; right; left. by exists g0.
      * right; right; right. split; [|done]. intros H'. apply H. by right.
Qed.

Lemma add_specs spec i ue acc :
  NoDup (sg_spec <$> acc) → NoDup (sg_spec <$> Coord.add_to_groups spec i ue acc).
Proof.
  induction acc as [|g1 acc IH]; intros Hnd; simpl; [apply NoDup_singleton|].
  apply NoDup_cons in Hnd as [Hn Hnd]. destruct (decide (sg_spec g1 = spec)) as [E|E]; simpl; [by constructor|].
  constructor; [|by apply IH]. intros (g & Eg & Hg)%list_elem_of_fmap. apply add_elem in Hg; [|done].
  destruct Hg as [[Hg _]|[(g0 & Hg & E0 & ->)|[_ ->]]]; simpl in *; [|congruence..].
  apply Hn. rewrite Eg. by apply list_elem_of_fmap_2.
Qed.

Lemma add_parted all n acc g ue :
  parted all n acc → all !! n = Some g → parted all (S n) (Coord.add_to_groups (kv_cache_spec g) n ue acc).
Proof.
  intros [H1 H2 H3 H4 H5] Hg. split.
  - by apply add_specs.
  - intros g' [[Hg' _]|[(g0 & Hg0 & E & ->)|[_ ->]]]%add_elem; [by apply H2| |apply NoDup_singleton|done].
    apply NoDup_app. split_and!; [by apply H2| |apply NoDup_singleton].
    intros x Hx ->%list_elem_of_singleton. destruct (H3 g0 n Hg0 Hx). lia.
  - intros g' j [[Hg' _]|[(g0 & Hg0 & E & ->)|[_ ->]]]%add_elem; simpl; [..|done].
    + intros Hj. destruct (H3 g' j Hg' Hj). split; [lia|done].
    + intros [Hj| ->%list_elem_of_singleton]%elem_of_app; [|split; [lia|by rewrite Hg]].
      destruct (H3 g0 j Hg0 Hj) as [? Hs]. split; [lia|congruence].
    + intros ->%list_elem_of_singleton. split; [lia|by rewrite Hg].
  - intros g' [[Hg' _]|[(g0 & Hg0 & E & ->)|[_ ->]]]%add_elem; [by apply H4| |done|done].
    simpl. by destruct (sg_group_ids g0).
  - intros j Hj. destruct (decide (j = n)) as [->|].
    + destruct (decide (kv_cache_spec g ∈ sg_spec <$> acc)) as [(g0 & E & Hg0)%list_elem_of_fmap|Hn].
      * eexists. split; [apply add_elem; [done|]; right; left; by exists g0|]. simpl. set_solver.
      * eexists. split; [apply add_elem; [done|]; right; right; by split|]. simpl. set_solver.
    + destruct (H5 j) as (g0 & Hg0 & Hj0); [lia|]. destruct (decide (sg_spec g0 = kv_cache_spec g)) as [E|E].
      * eexists. split; [apply add_elem; [done|]; right; left; by exists g0|]. simpl. set_solver.
      * exists g0. split; [|done]. apply add_elem; [done|]. by left.
Qed.

Lemma split_parted all eagle groups n acc :
  drop n all = groups → parted all n acc →
  parted all (n + length groups) (Coord.split_groups n groups eagle acc).
Proof.
  revert n acc. induction groups as [|g gs IH]; intros n acc Hd Hp; simpl; [by rewrite Nat.add_0_r|].
  replace (n + S (length gs))%nat with (S n + length gs)%nat by lia.
  assert (Hg : all !! n = Some g) by (rewrite <- (Nat.add_0_r n), <- lookup_drop, Hd; done).
  apply IH; [|by apply add_parted]. pose proof (f_equal (drop 1) Hd) as E. rewrite drop_drop in E.
  rewrite Nat.add_1_r in E. done.
Qed.

Lemma full_first_perm ags : Coord.full_first ags ≡ₚ ags.
Proof.
  unfold Coord.full_first. induction ags as [|g ags IH]; [done|]. rewrite !filter_cons.
  destruct (is_full (sg_spec g)) eqn:E; repeat case_decide; try congruence; simpl; [by constructor|].
  by rewrite <- Permutation_middle, IH.
Qed.

(** Full attention comes first, in one entry when it has one specification. *)
Lemma full_first_head ags i g :
  NoDup (sg_spec <$> ags) →
  (∀ g g', g ∈ ags → g' ∈ ags → is_full (sg_spec g) = true → is_full (sg_spec g') = true → sg_spec g = sg_spec g') →
  Coord.full_first ags !! S i = Some g → is_full (sg_spec g) = false.
Proof.
  intros Hnd Hone Hg. unfold Coord.full_first in Hg.
  assert (Hlen : (length (filter (λ g, is_full (sg_spec g) = true) ags) ≤ 1)%nat).
  { destruct (filter _ _) as [|g1 [|g2 l]] eqn:E; simpl; try lia. exfalso.
    assert (Hnd' : NoDup (sg_spec <$> filter (λ g, is_full (sg_spec g) = true) ags)).
    { eapply sublist_NoDup; [exact Hnd|]. by apply fmap_sublist, sublist_filter. }
    rewrite E in Hnd'. simpl in Hnd'. apply NoDup_cons in Hnd' as [Hn _]. apply Hn.
    assert (Hin : ∀ g', g' ∈ g1 :: g2 :: l → is_full (sg_spec g') = true ∧ g' ∈ ags)
      by (intros g' Hg'; rewrite <- E in Hg'; by apply list_elem_of_filter in Hg').
    destruct (Hin g1) as [F1 M1]; [set_solver|]. destruct (Hin g2) as [F2 M2]; [set_solver|].
    rewrite (Hone g1 g2); [left|done..]. }
  rewrite lookup_app_r in Hg by lia. apply list_elem_of_lookup_2, list_elem_of_filter in Hg. apply Hg.
Qed.

(** ** The configurations *)

(** Groups of full attention, of one specification, and of sliding windows. *)
Record plain_config (config : KVCacheConfig) (hbs : Z) : Prop := {
  pl_some : kv_cache_groups config ≠ [];
  pl_len : len (kv_cache_groups config) ≤ 2 ^ 32;
  pl_blocks : 0 < num_blocks config;
  pl_hbs : 0 < hbs;
  pl_bs g : g ∈ kv_cache_groups config → 0 < block_size (kv_cache_spec g);
  pl_kind g : g ∈ kv_cache_groups config →
    match kind (kv_cache_spec g) with FullAttention _ => True | SlidingWindow w _ => 0 < w | _ => False end;
  pl_full g g' : g ∈ kv_cache_groups config → g' ∈ kv_cache_groups config →
    is_full (kv_cache_spec g) = true → is_full (kv_cache_spec g') = true → kv_cache_spec g = kv_cache_spec g';
}.

Lemma plain_valid config hbs sbs : plain_config config hbs → 0 < sbs → valid_config config hbs sbs 1 1.
Proof.
  intros [] Hsbs. split; try done; try lia. intros g Hg. specialize (pl_kind0 g Hg). by destruct (kind _).
Qed.

Section built.
Context (config : KVCacheConfig) (hbs sbs : Z) (Hpl : plain_config config hbs) (Hsbs : 0 < sbs).
Context (max_len max_batched : Z) (use_eagle caching events use_int : bool) (ret : option Z) (c : Coordinator).
Hypothesis Hinit : Coord.init config max_len max_batched use_eagle caching events use_int 1 1 sbs hbs ret = Ok c.

(** What the constructor stores *)
Definition stored_kind (c : Coordinator) : Prop :=
  match c_kind c with
  | NoPrefixCache => True
  | Unitary dcp pcp => dcp = 1 ∧ pcp = 1 ∧ ∃ g, kv_cache_groups config = [g] ∧ block_size (kv_cache_spec g) = hbs
  | Hybrid ags => (∀ g, g ∈ kv_cache_groups config → block_size (kv_cache_spec g) mod hbs = 0) ∧
      ∃ eagle, ags = Coord.full_first (Coord.split_groups 0 (kv_cache_groups config) eagle []) ∧ ags ≠ []
  end.

Lemma init_stores :
  stored_kind c ∧ c_scheduler_block_size c = sbs ∧ c_hash_block_size c = hbs ∧
  (∀ g, g ∈ kv_cache_groups config → sbs mod block_size (kv_cache_spec g) = 0) ∧
  fresh_managers (null_block (c_pool c)) caching 1 1 sbs (kv_cache_groups config) (c_managers c).
Proof.
  revert Hinit. unfold Coord.init. destruct (_ || _) eqn:Eg; [done|]. apply orb_false_iff in Eg as [_ Eg%negb_false_iff].
  rewrite forallb_forall in Eg.
  assert (Hmod : ∀ g, g ∈ kv_cache_groups config → sbs mod block_size (kv_cache_spec g) = 0).
  { intros g Hg%list_elem_of_In. by apply Z.eqb_eq, Eg. }
  destruct (Pool.init _ _ _ _ _) as [p|]; [|done]. unfold mbind at 1, res_bind at 1. unfold mbind at 1, res_bind at 1.
  destruct (Coord.make_managers 0 _ _) as [ms|] eqn:Ems; [|done]. apply make_managers_spec in Ems as [Hlen Hms].
  unfold mbind at 1, res_bind at 1. destruct (Coord.validate_retention _ _ _); [|done].
  destruct caching; cbn [negb]; [|intros [= <-]; by split_and!].
  destruct (kv_cache_groups config) as [|g [|g2 gs]] eqn:Egs.
  - by destruct (_ || _).
  - change (1 <? 1) with false. cbv iota.
    destruct (Z.eqb_spec hbs (block_size (kv_cache_spec g))) as [E|]; [|done]. intros [= <-].
    split; [|split_and!; try done; by apply flag_one_fresh]. split_and!; try done. by exists g.
  - destruct (_ || _) eqn:E; [done|]. apply orb_false_iff in E as [[E%negb_false_iff _]%orb_false_iff _].
    rewrite forallb_forall in E. destruct (Nat.leb_spec 2 (length (Coord.split_groups 0 (g :: g2 :: gs)
      (Coord.eagle_groups use_eagle config) []))) as [Hl|]; [|done]. intros [= <-].
    split; [|split_and!; try done; by apply flag_eagle_fresh]. split.
    + intros g' Hg'%list_elem_of_In. rewrite Egs in Hg'. by apply Z.eqb_eq, E.
    + exists (Coord.eagle_groups use_eagle config). rewrite Egs. split; [done|].
      rewrite <- (Permutation_length (full_first_perm _)) in Hl. simpl in Hl. intros E'. rewrite E' in Hl. simpl in Hl. lia.
Qed.

(** The groups of the hybrid coordinator *)
Lemma hybrid_groups eagle ags :
  ags = Coord.full_first (Coord.split_groups 0 (kv_cache_groups config) eagle []) →
  NoDup (sg_spec <$> ags) ∧ parted (kv_cache_groups config) (length (kv_cache_groups config)) ags ∧
  ∀ i g, ags !! S i = Some g → is_full (sg_spec g) = false.
Proof.
  intros ->. set (acc := Coord.split_groups _ _ _ _).
  assert (Hp : parted (kv_cache_groups config) (length (kv_cache_groups config)) acc).
  { apply (split_parted _ _ _ 0); [done|]. split; [constructor|by intros g ?%elem_of_nil| |by intros g ?%elem_of_nil|intros i Hi; lia].
    by intros g i ?%elem_of_nil. }
  pose proof (full_first_perm acc) as Hperm. destruct Hp as [H1 H2 H3 H4 H5]. split; [by rewrite Hperm|]. split.
  - split; [by rewrite Hperm| | | |].
    + intros g Hg. apply H2. by rewrite <- Hperm.
    + intros g i Hg. apply H3. by rewrite <- Hperm.
    + intros g Hg. apply H4. by rewrite <- Hperm.
    + intros i Hi. destruct (H5 i Hi) as (g' & Hg' & Hi'). exists g'. by rewrite Hperm.
  - intros i g Hg. eapply full_first_head; [done| |exact Hg]. intros g1 g2 M1 M2 F1 F2.
    assert (Hin : ∀ g, g ∈ acc → ∃ gr, gr ∈ kv_cache_groups config ∧ kv_cache_spec gr = sg_spec g).
    { intros g0 Hg0. destruct (sg_group_ids g0) as [|j l] eqn:E; [by destruct (H4 g0)|].
      destruct (H3 g0 j) as [_ Hj]; [done|rewrite E; left|].
      apply fmap_Some in Hj as (gr & Hgr & ->). exists gr. split; [by eapply list_elem_of_lookup_2|done]. }
    destruct (Hin g1 M1) as (r1 & R1 & E1), (Hin g2 M2) as (r2 & R2 & E2).
    rewrite <- E1, <- E2 in *. by apply (pl_full _ _ Hpl).
Qed.

Lemma init_searchable : searchable c.
Proof.
  destruct init_stores as (Hk & Esbs & Ehbs & Hmod & _).
  destruct (init_ok _ _ _ _ _ _ _ _ _ _ _ _ _ (plain_valid _ _ _ Hpl Hsbs) Hinit) as (_ & _ & Ec & Hlen & _ & Eh).
  unfold searchable, stored_kind in *. unfold Coord.num_managers. rewrite Ec, Hlen, Eh, Esbs, Ehbs.
  destruct (c_kind c) as [|dcp pcp|ags]; [done| |].
  - destruct Hk as (-> & -> & g & Eg & Ebs). rewrite Eg. split_and!; try done. exists g. split_and!; try done.
    split; [by rewrite Ebs; apply Hpl|]. pose proof (pl_kind _ _ Hpl g) as Hg. rewrite Eg in Hg.
    specialize (Hg (list_elem_of_here _ _)). by destruct (kind _).
  - destruct Hk as (Hbs & eagle & Eags & Hne). destruct (hybrid_groups eagle ags Eags) as (Hnd & [H1 H2 H3 H4 H5] & Hhead).
    assert (Hspec : ∀ g i, g ∈ ags → i ∈ sg_group_ids g → ∃ gr, gr ∈ kv_cache_groups config ∧
      kv_cache_spec gr = sg_spec g ∧ (i < length (kv_cache_groups config))%nat).
    { intros g i Hg Hi. destruct (H3 g i Hg Hi) as [Hlt (gr & Hgr & E)%fmap_Some]. exists gr.
      split_and!; [by eapply list_elem_of_lookup_2|done|done]. }
    assert (Hfirst : ∀ g, g ∈ ags → ∃ gr, gr ∈ kv_cache_groups config ∧ kv_cache_spec gr = sg_spec g).
    { intros g Hg. destruct (sg_group_ids g) as [|j l] eqn:E; [by destruct (H4 g)|].
      destruct (Hspec g j Hg) as (gr & Hgr & Es & _); [rewrite E; left|]. by exists gr. }
    split_and!; try done.
    + intros g Hg. destruct (Hfirst g Hg) as (gr & Hgr & <-). by apply Hbs.
    + intros hashes max_length Hmax Hhs. split; try done.
      * intros g Hg. split; [|by rewrite length_fmap; destruct (sg_group_ids g) eqn:E; [destruct (H4 g)|simpl; lia]].
        apply Forall_fmap, Forall_forall. intros i Hi. destruct (Hspec g i Hg Hi) as (_ & _ & _ & Hlt). simpl.
        pose proof (pl_len _ _ Hpl). lia.
      * intros g Hg. destruct (Hfirst g Hg) as (gr & Hgr & <-). split; [by apply (pl_bs _ _ Hpl)|].
        pose proof (pl_kind _ _ Hpl gr Hgr) as Hki. by destruct (kind _).
      * intros g Hg. destruct (Hfirst g Hg) as (gr & Hgr & <-). by apply Hmod.
      * intros g m n Hg _ E. destruct (Hfirst g Hg) as (gr & Hgr & Es). pose proof (pl_kind _ _ Hpl gr Hgr) as Hki.
        by rewrite Es, E in Hki.
      * intros g i Hg Hi. by destruct (Hspec g i Hg Hi) as (_ & _ & _ & Hlt).
      * intros i j g g' x Hi Hj Hij Hx Hx'. pose proof (list_elem_of_lookup_2 _ _ _ Hi) as Hg.
        pose proof (list_elem_of_lookup_2 _ _ _ Hj) as Hg'. destruct (H3 g x Hg Hx) as [_ E1].
        destruct (H3 g' x Hg' Hx') as [_ E2]. apply Hij.
        apply (NoDup_lookup (sg_spec <$> ags) i j (sg_spec g)); [done|by rewrite list_lookup_fmap, Hi|].
        rewrite list_lookup_fmap, Hj. simpl. congruence.
Qed.
End built.
