(* ===== verification/KVKeeps.v ===== *)
(** * The KV-cache manager keeps its promises

    The scheduler is proved against the promises [KVPromises]; here they are proved
    of the KV-cache manager, for a collision-free hash function with digests of one
    length, and for the coordinators whose search is covered ([searchable]). *)
From S2P Require Import Prelude FreeQueue Request BlockHash BlockPool KVSpec CacheHit SingleType.
From S2P Require Import Coordinator HybridHit KVCacheManager EncoderCache RequestQueue SchedUtils SchedState.
From S2P Require Import Schedule SchedUpdate SchedInv Frame KVHits.

(** ** Loops that only look *)
Section look.
Context (c : Coordinator) (fr : list loc) (Hc : sys_inv c fr) (Hplain : all_plain c).

Definition looks {A} (op : M mstate A) : Prop :=
  ∀ s fr rest, ms_inv s fr rest → wp op (λ _ s', ∃ rid,
    step s rest rid fr (blocks_of (ms_mgr s) rid) (num_cached (ms_mgr s) rid) s') s.

Lemma mapM_looks {A} (op : M mstate A) :
  looks op → wp (mapM_ (λ i, on_mgr i op) (Coord.seq_mgrs c)) (λ _ c', sys_inv c' fr ∧ same_coord c c') c.
Proof.
  intros Hop. unfold Coord.seq_mgrs.
  eapply wp_mono; [apply (wp_mapM_managers _ _ (λ k _ c', visited c (λ _ _ _, True) (λ f, f = fr) k c'))|].
  - by apply (visited_0 c fr Hc).
  - intros k l c1 Hk V. destruct (visited_next c Hplain _ _ _ _ V Hk) as (m & fr1 & Hm & Hm1 & Hs1 & -> & _ & Hms).
    eapply wp_on_mgr; [done|]. eapply wp_mono; [by apply (Hop _ fr)|]. intros a s' [rid Hst].
    by eapply (visit_step c _ _ (λ f, f = fr)).
  - intros l c' V. destruct (vi_sys _ _ _ _ _ V) as (? & Hs & ->). split; [done|apply V].
Qed.
End look.

Lemma common_prefix_looks rid : looks (SingleType.get_num_common_prefix_blocks rid).
Proof.
  intros s fr rest H. unfold SingleType.get_num_common_prefix_blocks. wp_step.
  destruct (kind (m_spec (ms_mgr s))); wp_step;
    try (exists rid; by apply step_refl).
  eapply wp_mono; [by apply (req_blocks_of_spec s fr rest rid)|]. intros l s' (_ & _ & _ & _ & Hst).
  wp_step. by exists rid.
Qed.

Lemma take_ids_looks : looks SingleType.take_new_block_ids.
Proof.
  intros s fr rest H. unfold SingleType.take_new_block_ids, upd_mgr. wp_step.
  exists EmptyString. apply ms_inv_upd_same; [done|]. by apply upd_ids.
Qed.

(** ** The promises *)
Section promises.
Context (hash_function : bytes * list Z * option (list extra_key) → bytes) (NONE_HASH : bytes).
Hypothesis hash_inj : ∀ x y, hash_function x = hash_function y → x = y.
Hypothesis none_fresh : ∀ x, hash_function x ≠ NONE_HASH.
Context (digest : nat) (hash_length : ∀ x, length (hash_function x) = digest) (digest_pos : (0 < digest)%nat).
Context (mml hbs : Z) (hbs_pos : 0 < hbs).

(** The window of a manager never reaches past the tokens computed. *)
Definition window_ok (m : Manager) : Prop := ∀ t, 0 ≤ t → SingleType.get_num_skipped_tokens m t ≤ t.

Record manager_good (k : KVCacheManager) : Prop := {
  mg_inv : ∃ fr, kv_inv k fr;
  mg_len : km_max_model_len k = mml;
  mg_hbs : hash_block_size (c_pool (km_coord k)) = hbs;
  mg_stats : km_log_stats k = true → is_Some (km_stats k);
  mg_search : searchable (km_coord k);
  mg_window : Forall window_ok (c_managers (km_coord k));
  mg_some : c_managers (km_coord k) ≠ [];
}.

Definition fresh_in (k : KVCacheManager) (q : string) : Prop := Forall (new_to q) (c_managers (km_coord k)).
Definition holds_in (k : KVCacheManager) (q : string) (t : Z) : Prop :=
  Forall (continuing q t) (c_managers (km_coord k)).

Definition hits_in (k : KVCacheManager) (r : Request) (b : KVCacheBlocks) (n : Z) : Prop :=
  match b with
  | EmptyBlocks g => g = KVManager.num_kv_cache_groups k ∧ n = 0
  | Blocks hits => length hits = Coord.num_managers (km_coord k) ∧
      ∀ i m h, c_managers (km_coord k) !! i = Some m → hits !! i = Some h →
        hits_pre (mkMS (c_pool (km_coord k)) m) h
  end.

Record hashed_text (r : Request) : Prop := {
  ht_hashes : hashes_ok hash_function NONE_HASH r hbs;
  ht_memo : memo_ok r;
  ht_text : mm_features r = [];
}.

#[local] Instance manager_state : KVState := {
  kv_good := manager_good; kv_fresh := fresh_in; kv_holds := holds_in;
  kv_hits := hits_in; kv_request := hashed_text;
}.
Abbreviation request_hasher := (Some (request_block_hasher hash_function NONE_HASH hbs)).

Lemma hash_nonempty x : hash_function x ≠ [].
Proof. intros E. pose proof (hash_length x) as H. rewrite E in H. simpl in H. lia. Qed.

(** *** Requests *)
Lemma hashed_request_ok r : hashed_text r → request_ok r hbs.
Proof.
  intros [H1 H2 H3]. split; [unfold hashes_ok in H1; rewrite H1; by apply full_hashes_length| |done].
  rewrite H3. split; [set_solver|]. intros i j f g _ Hf. done.
Qed.

Lemma same_tokens_hashed r r' : same_tokens r r' → hashed_text r → hashed_text r'.
Proof.
  intros (E1&E2&E3&E4&E5&E6&E7&E8&E9&E10) [H1 H2 H3]. split.
  - unfold hashes_ok in *. rewrite E3, H1. unfold full_hashes, inputs_from, num_full, num_tokens. rewrite E2.
    f_equal. apply list_fmap_ext. intros i j _. unfold block_input, spec_extra_keys, embeds_spec_keys,
      gen_lora_extra_hash_keys, cache_salt_keys. by rewrite E2, E4, E5, E8, E9.
  - unfold memo_ok in *. by rewrite E5, E6.
  - congruence.
Qed.

Lemma memo_hashed r r' : memo_frame r r' → hashed_text r → hashed_text r'.
Proof.
  intros Hf [H1 H2 H3]. pose proof (memo_frame_inputs r r' hbs 0 Hf) as E. destruct Hf as [Hm Hr].
  split; [|done|by rewrite Hr]. unfold hashes_ok, full_hashes in *. rewrite E. by rewrite Hr.
Qed.

Lemma append_hashed r t :
  hashed_text r →
  wp (append_output_token_ids request_hasher [t]) (λ _ r', appended t r r' ∧ hashed_text r') r.
Proof.
  intros [H1 H2 H3]. unfold append_output_token_ids. wp_step.
  set (r1 := set_all_token_ids _ _). unfold update_block_hashes. wp_step.
  assert (Hpre : hashed_prefix hash_function NONE_HASH r1 hbs).
  { exact (hashed_prefix_append _ _ (set_output_token_ids (output_token_ids r ++ [t]) r) hbs [t] hbs_pos H1). }
  eapply wp_mono; [apply (hasher_ok hash_function NONE_HASH r1 hbs hbs_pos)|].
  - change (mm_features r1) with (mm_features r). rewrite H3. split; [set_solver|]. intros i j f g _ Hf. done.
  - exact H2.
  - exact Hpre.
  - right. change (mm_features r1) with (mm_features r). rewrite H3. by left.
  - intros hs r2 [E Hf]. wp_step. pose proof (memo_frame_inputs r1 r2 hbs 0 Hf) as Ei. destruct Hf as [Hm Er2]. split.
    + exists (block_hashes r2 ++ hs), (prompt_embeds_per_block_hashes r2). by rewrite Er2.
    + split.
      * unfold hashes_ok. simpl. change (full_hashes hash_function NONE_HASH (set_block_hashes (block_hashes r2 ++ hs) r2) hbs)
          with (full_hashes hash_function NONE_HASH r2 hbs). unfold full_hashes in *. rewrite Ei, <- E. by rewrite Er2.
      * exact Hm.
      * simpl. rewrite Er2. exact H3.
Qed.

(** *** What a call leaves alone *)
Lemma same_config_continuing m m' q t :
  same_config m m' → len (blocks_of m q) ≤ len (blocks_of m' q) → continuing q t m → continuing q t m'.
Proof.
  intros (_ & Eb & Es & _) Hle. unfold continuing, SingleType.get_num_skipped_tokens. rewrite Eb, Es. lia.
Qed.

Lemma frame_keeps P k k' : on_kms (frame_of P) k k' → kv_keeps P k k'.
Proof.
  intros [Hms _] q Hq. unfold kv_fresh, kv_holds. simpl. unfold fresh_in, holds_in, on_coords in *.
  split; [|intros t]; intros Hall; apply Forall_lookup; intros i m' Hm';
    destruct (Forall2_lookup_r _ _ _ _ _ Hms Hm') as (m & Hm & Hcfg & Hsame);
    pose proof (Forall_lookup_1 _ _ _ _ Hall Hm) as Hh; destruct (Hsame q Hq) as [E1 E2].
  - unfold new_to in *. by rewrite E1, E2.
  - eapply same_config_continuing; [done| |done]. by rewrite E1.
Qed.

(** The parts of [manager_good] that the frame keeps *)
Lemma good_step P k k' fr' :
  manager_good k → kv_inv k' fr' → same_coord (km_coord k) (km_coord k') → on_kms (frame_of P) k k' → manager_good k'.
Proof.
  intros [H1 H2 H3 H4 H5 H6 H7] Hk' Hco (Hms & E1 & E2 & E3 & E4). split.
  - by exists fr'.
  - congruence.
  - by rewrite (pf_hbs _ _ ltac:(apply Hco)).
  - rewrite E3. auto.
  - by eapply same_coord_searchable.
  - apply Forall_lookup. intros i m' Hm'. destruct (same_coord_mgr _ _ _ _ Hco Hm') as (m & Hm & _ & _ & Es & _).
    pose proof (Forall_lookup_1 _ _ _ _ H6 Hm) as Hw. intros t Ht. specialize (Hw t Ht).
    unfold SingleType.get_num_skipped_tokens in *. by rewrite Es.
  - intros E. pose proof (same_coord_length _ _ Hco) as Hl. rewrite E in Hl. by destruct (c_managers (km_coord k)).
Qed.

(** A call that keeps the invariant and is known to leave the rest alone *)
Lemma wp_good {A} P (m : M KVCacheManager A) (Q : A → KVCacheManager → Prop) k :
  manager_good k → keeps (on_kms (frame_of P)) m →
  (∀ fr, kv_inv k fr → wp m (λ a k', (∃ fr', kv_inv k' fr') ∧ same_coord (km_coord k) (km_coord k') ∧ Q a k') k) →
  wp m (λ a k', manager_good k' ∧ kv_keeps P k k' ∧ Q a k') k.
Proof.
  intros Hg Hkeep Hspec. destruct (mg_inv _ Hg) as [fr Hk].
  eapply wp_mono; [exact (keeps_wp _ _ _ _ Hkeep (Hspec fr Hk))|].
  intros a k' [([fr' Hk'] & Hco & HQ) Hf]. split; [by eapply good_step|]. split; [by apply frame_keeps|done].
Qed.

Lemma promise_free k r :
  manager_good k → wp (KVManager.free r) (λ _ k', manager_good k' ∧ kv_keeps (only (request_id r)) k k' ∧
    fresh_in k' (request_id r)) k.
Proof.
  intros Hg. apply wp_good; [done|apply keeps_kv_free|]. intros fr Hk.
  unfold KVManager.free, on_coord. wp_step.
  pose proof (free_all _ fr (ki_sys _ _ Hk) (ok_plain _ (ki_ok _ _ Hk)) (request_id r)) as W.
  destruct (wp_elim _ _ _ W) as ([] & c' & E & V). apply (wp_intro _ _ _ tt c'); [done|].
  destruct (vi_sys _ _ _ _ _ V) as (fr' & Hs' & _). split_and!.
  - exists fr'. eapply kv_inv_coord; [done|apply V|done].
  - apply V.
  - apply Forall_lookup. intros i m' Hm'. simpl in Hm'. destruct (visited_mgr _ _ _ _ _ _ V Hm') as (m & Hm & _ & Hf).
    split; [|by destruct (Hf (request_id r)) as [-> _]; rewrite decide_True].
    unfold Coord.free in E. cbn in E. eapply (coord_free_forgets _ _ _ _ E); [|exact Hm'].
    apply elem_of_seq. apply lookup_lt_Some in Hm. unfold Coord.num_managers. lia.
Qed.

Lemma wp_quiet {A} (m : M KVCacheManager A) k :
  manager_good k → keeps (on_kms (frame_of nobody)) m →
  (∀ fr, kv_inv k fr → wp m (λ _ k', (∃ fr', kv_inv k' fr') ∧ same_coord (km_coord k) (km_coord k')) k) →
  wp m (λ _ k', manager_good k' ∧ kv_keeps nobody k k') k.
Proof.
  intros Hg Hkeep Hspec. eapply wp_mono; [apply (wp_good nobody m (λ _ _, True)); [done|done|]|by intros a k' (H1 & H2 & _)].
  intros fr Hk. eapply wp_mono; [by apply (Hspec fr)|]. by intros a k' [H1 H2].
Qed.

(** The coordinator is changed by a loop that only looks. *)
Lemma looks_inv {A} (op : M mstate A) k fr :
  kv_inv k fr → looks op →
  wp (mapM_ (λ i, on_mgr i op) (Coord.seq_mgrs (km_coord k)))
    (λ _ c', (∃ fr', kv_inv (km_set_coord c' k) fr') ∧ same_coord (km_coord k) c') (km_coord k).
Proof.
  intros Hk Hop. eapply wp_mono; [apply (mapM_looks _ fr (ki_sys _ _ Hk) (ok_plain _ (ki_ok _ _ Hk)) op Hop)|].
  intros a c' [Hs Hco]. split; [|done]. exists fr. by eapply kv_inv_coord.
Qed.

Lemma promise_prefix k rid :
  manager_good k → wp (KVManager.get_num_common_prefix_blocks rid) (λ _ k', manager_good k' ∧ kv_keeps nobody k k') k.
Proof.
  intros Hg. apply wp_quiet; [done|apply keeps_kv_prefix|]. intros fr Hk.
  unfold KVManager.get_num_common_prefix_blocks, on_coord, Coord.get_num_common_prefix_blocks. wp_step.
  destruct (c_kind (km_coord k)); [|exact (looks_inv _ k fr Hk (common_prefix_looks rid))..].
  wp_step. simpl. split; [exists fr; by destruct k|done].
Qed.

Lemma promise_zero k :
  manager_good k → wp KVManager.take_new_block_ids (λ _ k', manager_good k' ∧ kv_keeps nobody k k') k.
Proof.
  intros Hg. apply wp_quiet; [done|apply keeps_kv_take_ids|]. intros fr Hk.
  unfold KVManager.take_new_block_ids, on_coord. wp_step.
  eapply wp_mono; [apply (looks_inv _ k fr Hk take_ids_looks)|]. intros l k' H. wp_step. exact H.
Qed.

Lemma promise_step k :
  manager_good k → wp KVManager.new_step_starts (λ _ k', manager_good k' ∧ kv_keeps nobody k k') k.
Proof.
  intros Hg. apply wp_quiet; [done|apply keeps_kv_new_step|]. intros fr Hk.
  unfold KVManager.new_step_starts, on_coord. wp_step.
  eapply wp_mono; [apply (new_step_all _ fr (ki_sys _ _ Hk) (ok_plain _ (ki_ok _ _ Hk)))|]. intros ? c' ->.
  split; [exists fr|done]. by eapply kv_inv_coord; [|done|apply Hk].
Qed.

Lemma promise_events k :
  manager_good k → wp KVManager.take_events (λ _ k', manager_good k' ∧ kv_keeps nobody k k') k.
Proof.
  intros Hg. apply wp_quiet; [done|apply keeps_kv_events|]. intros fr Hk.
  unfold KVManager.take_events, on_coord, on_cpool, Pool.take_events. wp_step. pose proof (ki_sys _ _ Hk) as Hs.
  assert (Hco : ∀ p', pool_frame (c_pool (km_coord k)) p' →
    same_coord (km_coord k) (set_pool_mgrs p' (c_managers (km_coord k)) (km_coord k))) by (intros p' Hp; by split_and!).
  assert (Hpool : ∀ p', pool_inv p' fr → pool_frame (c_pool (km_coord k)) p' → pool_heap p' = pool_heap (c_pool (km_coord k)) →
    (∃ fr', kv_inv (km_set_coord (set_pool_mgrs p' (c_managers (km_coord k)) (km_coord k)) k) fr') ∧
    same_coord (km_coord k) (set_pool_mgrs p' (c_managers (km_coord k)) (km_coord k))).
  { intros p' Hp' Hf Eh. split; [|by apply Hco]. exists fr.
    apply kv_pool_step; [done|done|done|intros b; by rewrite Eh|intros b; right; by rewrite Eh]. }
  destruct (enable_kv_cache_events _); simpl; wp_step; simpl; apply Hpool; try done; try apply Hs.
  by destruct (si_pool _ _ Hs); split.
Qed.

Lemma promise_reset k :
  manager_good k → wp KVManager.reset_prefix_cache (λ b k', manager_good k' ∧ kv_keeps nobody k k' ∧
    ((∀ q, fresh_in k q) → b = true)) k.
Proof.
  intros Hg. apply wp_good; [done|apply keeps_kv_reset|]. intros fr Hk.
  eapply wp_mono; [exact (kv_reset_spec k fr Hk (mg_stats k Hg))|]. intros b k' (H1 & H2 & H3).
  split; [by exists fr|]. split; [done|]. intros Hf. apply H3. split; [apply (mg_some _ Hg)|].
  intros q. eapply Forall_impl; [apply (Hf q)|]. by intros m [_ ?].
Qed.

(** *** The search for hits *)
Lemma good_request k r : manager_good k → hashed_text r →
  request_ok r (hash_block_size (c_pool (km_coord k))) ∧
  hashes_ok hash_function NONE_HASH r (hash_block_size (c_pool (km_coord k))).
Proof.
  intros Hg Hr. rewrite (mg_hbs _ Hg). split; [by apply hashed_request_ok|apply Hr].
Qed.

Lemma found_in k fr r hits n :
  kv_inv k fr → km_enable_caching k = true → hits_found (km_coord k) hits n →
  hits_in k r (KVManager.create_kv_cache_blocks k hits) n.
Proof.
  intros Hk Hca [H1 H2 H3]. unfold KVManager.create_kv_cache_blocks.
  destruct (existsb (λ g, negb (len g =? 0)) hits) eqn:E; simpl.
  - split; [done|]. intros i m h Hm Hh. unfold hits_pre. simpl.
    destruct (si_mgr _ _ (ki_sys _ _ Hk) i m Hm) as [_ ->]. rewrite <- (ki_caching _ _ Hk), Hca. by eapply H2.
  - split; [done|]. apply H3. apply Forall_forall. intros h Hh.
    destruct h as [|b h]; [done|]. exfalso. apply not_true_iff_false in E. apply E, existsb_exists.
    exists (b :: h). split; [by apply list_elem_of_In|]. done.
Qed.

Lemma promise_computed k r :
  manager_good k → hashed_text r → 1 ≤ num_tokens r →
  wp (KVManager.get_computed_blocks r) (λ '(b, n) k', manager_good k' ∧ kv_keeps nobody k k' ∧
    hits_in k' r b n ∧ 0 ≤ n < num_tokens r) k.
Proof.
  intros Hg Hr Hpos. eapply wp_mono; [apply (wp_good nobody _ (λ x k', hits_in k' r x.1 x.2 ∧ 0 ≤ x.2 < num_tokens r))|].
  - done.
  - apply keeps_kv_computed.
  - intros fr Hk. unfold KVManager.get_computed_blocks. wp_step.
    destruct (negb (km_enable_caching k) || _) eqn:Eca; [wp_step; split_and!; try done; [by exists fr|simpl; lia]|].
    apply orb_false_iff in Eca as [Eca%negb_false_iff _].
    destruct (find_hits hash_function NONE_HASH hash_inj hash_nonempty none_fresh digest hash_length
      (km_coord k) fr (ki_sys _ _ Hk) (ki_ok _ _ Hk) (mg_search _ Hg) r (proj2 (good_request k r Hg Hr)) Hpos)
      as (hits & n & E & Hf & Hn).
    rewrite E. change (of_res (Ok (hits, n))) with (@mret (M KVCacheManager) _ _ (hits, n)). wp_step.
    destruct (km_log_stats k) eqn:El; [|wp_step; split_and!; try done; [by exists fr|by eapply found_in|apply Hn..]].
    destruct (mg_stats _ Hg El) as [st Est]. rewrite Est.
    change (of_opt AssertionError (Some st)) with (@mret (M KVCacheManager) _ _ st). wp_step.
    split_and!; try done; [exists fr; by destruct Hk; split| |apply Hn..].
    change (hits_in k r (KVManager.create_kv_cache_blocks k hits) n). by eapply found_in.
  - intros [b n] k' (H1 & H2 & H3 & H4). done.
Qed.

(** *** Allocation *)
Lemma window_zero m : window_ok m → SingleType.get_num_skipped_tokens m 0 ≤ 0.
Proof. intros Hw. by apply Hw. Qed.

(** Enough blocks for [t] tokens *)
Lemma enough_blocks m q t : window_ok m → 0 < m_block_size m → 0 ≤ t →
  cdiv t (m_block_size m) ≤ len (blocks_of m q) → continuing q t m.
Proof.
  intros Hw Hbs Ht Hle. unfold continuing. specialize (Hw t Ht).
  pose proof (div_le_cdiv t _ Hbs). pose proof (Z.div_le_mono _ _ (m_block_size m) Hbs Hw). lia.
Qed.

Lemma fresh_continuing k q : manager_good k → fresh_in k q → Forall (continuing q 0) (c_managers (km_coord k)).
Proof.
  intros Hg Hf. apply Forall_lookup. intros i m Hm. destruct (mg_inv _ Hg) as [fr Hk].
  destruct (si_mgr _ _ (ki_sys _ _ Hk) i m Hm) as [Hmi _]. pose proof (mi_bs _ _ _ Hmi) as Hbs.
  pose proof (window_zero m (Forall_lookup_1 _ _ _ _ (mg_window _ Hg) Hm)) as Hz.
  unfold continuing. pose proof (Z.div_le_mono _ _ (m_block_size m) Hbs Hz) as Hd. rewrite Z.div_0_l in Hd by lia. lia.
Qed.

Lemma managers_good k fr i m : manager_good k → kv_inv k fr → c_managers (km_coord k) !! i = Some m →
  window_ok m ∧ 0 < m_block_size m.
Proof.
  intros Hg Hk Hm. split; [by eapply Forall_lookup_1; [apply (mg_window _ Hg)|]|].
  destruct (si_mgr _ _ (ki_sys _ _ Hk) i m Hm) as [Hmi _]. apply Hmi.
Qed.

Lemma resumed_length k r t n f m m' :
  resumed k r t n f m m' → len (blocks_of m' (request_id r)) = len (blocks_of m (request_id r)) + len f.
Proof.
  intros (_ & _ & i & s & Es & Hi & ->). rewrite !length_app, length_take, length_replicate, length_drop.
  unfold num_skipped_blocks in Es. lia.
Qed.

(** A manager whose table has grown to [n] tokens *)
Lemma grown_holds m m' q n (f : list loc) l :
  same_config m m' → window_ok m → 0 < m_block_size m → 0 ≤ n → len f = Z.max 0 (cdiv n (m_block_size m) - l) →
  len (blocks_of m' q) = l + len f → continuing q n m'.
Proof.
  intros Hcfg Hw Hbs Hn Hf Hl. pose proof Hcfg as (_ & Eb & Es & _).
  apply enough_blocks; [|by rewrite Eb|done|rewrite Eb; lia].
  intros t Ht. specialize (Hw t Ht). unfold SingleType.get_num_skipped_tokens in *. by rewrite Es.
Qed.

(** The outcome of an allocation for [n] tokens: when nothing is given out the
    tables keep their lengths. *)
Definition allocated_in (k : KVCacheManager) (r : Request) (n : Z) (x : option KVCacheBlocks * Request)
    (k' : KVCacheManager) : Prop :=
  memo_frame r x.2 ∧
  match x.1 with
  | Some _ => holds_in k' (request_id r) n
  | None => ∀ i m m', c_managers (km_coord k) !! i = Some m → c_managers (km_coord k') !! i = Some m' →
      same_config m m' ∧ len (blocks_of m' (request_id r)) = len (blocks_of m (request_id r))
  end.

Lemma allocate_no_hits k r m ncb gate :
  manager_good k → hashed_text r →
  default (EmptyBlocks (KVManager.num_kv_cache_groups k)) ncb = EmptyBlocks (KVManager.num_kv_cache_groups k) →
  0 ≤ num_computed_tokens r → 0 < m → num_computed_tokens r + m ≤ num_tokens r → num_tokens r ≤ mml →
  holds_in k (request_id r) (num_computed_tokens r) →
  wp (KVManager.allocate_slots r m 0 ncb 0 0 false 0 gate 0) (λ x k',
    manager_good k' ∧ kv_keeps (only (request_id r)) k k' ∧ allocated_in k r (num_computed_tokens r + m) x k') k.
Proof.
  intros Hg Hr Hncb Ht Hm Hle Hmml Hcont. apply wp_good; [done|apply keeps_kv_allocate|]. intros fr Hk.
  eapply wp_mono; [apply (run_slots_spec k fr r ncb m 0 0 0 false gate Hk (proj1 (good_request k r Hg Hr)) Hncb);
    rewrite ?(mg_len _ Hg); (lia || done)|].
  rewrite (mg_len _ Hg), Z.add_0_r, Z.min_l by lia. set (t := num_computed_tokens r) in *.
  intros [o r'] k' [Hmemo [(_ & -> & ->)|(fr1 & fr' & _ & Hk' & Hco & Hpost)]].
  { split; [by exists fr|]. split; [done|]. split; [done|]. intros i m0 m1 H1 H2. simplify_eq. done. }
  split; [by exists fr'|]. split; [done|]. split; [done|]. simpl. case_decide.
  - destruct Hpost as (new & -> & _ & _ & Hmgr). apply Forall_lookup. intros i m' Hm'.
    destruct (same_coord_mgr _ _ _ _ Hco Hm') as (m0 & Hm0 & Hcfg).
    destruct (Hmgr i m0 m' Hm0 Hm') as (f & _ & Hres). destruct (managers_good k fr i m0 Hg Hk Hm0) as [Hw Hbs].
    eapply (grown_holds m0 m' _ _ f); [done|done|done|lia| |by eapply resumed_length].
    destruct Hres as (-> & _). unfold missing_blocks. lia.
  - destruct Hpost as (-> & _ & Hmgr). intros i m0 m' Hm0 Hm'.
    destruct (same_coord_mgr _ _ _ _ Hco Hm') as (m1 & Hm1 & Hcfg). simplify_eq. split; [done|].
    eapply skipped_length. by apply (Hmgr i).
Qed.

Lemma allocate_with_hits k r m n hits gate :
  manager_good k → hashed_text r → fresh_in k (request_id r) → hits_in k r (Blocks hits) n →
  num_computed_tokens r = 0 → 0 < m → 0 ≤ n → n + m ≤ num_tokens r → num_tokens r ≤ mml →
  wp (KVManager.allocate_slots r m n (Some (Blocks hits)) 0 0 false 0 gate 0) (λ x k',
    manager_good k' ∧ kv_keeps (only (request_id r)) k k' ∧ allocated_in k r (n + m) x k') k.
Proof.
  intros Hg Hr Hf [Hlen Hpre] Ht Hm Hn Hle Hmml. apply wp_good; [done|apply keeps_kv_allocate|]. intros fr Hk.
  eapply wp_mono; [apply (enter_slots_spec k fr r hits m n 0 0 0 false gate Hk (proj1 (good_request k r Hg Hr)) Hf Hlen Hpre);
    rewrite ?(mg_len _ Hg), ?Ht; lia|].
  rewrite (mg_len _ Hg), Ht, Z.add_0_l, Z.add_0_r, Z.min_l by lia.
  intros [o r'] k' [Hmemo [(_ & -> & ->)|(fr' & Hk' & Hco & Hpost)]].
  { split; [by exists fr|]. split; [done|]. split; [done|]. intros i m0 m1 H1 H2. simplify_eq. done. }
  split; [by exists fr'|]. split; [done|]. split; [done|]. simpl. case_decide.
  - destruct Hpost as (new & -> & _ & Hmgr). apply Forall_lookup. intros i m' Hm'.
    destruct (same_coord_mgr _ _ _ _ Hco Hm') as (m0 & Hm0 & Hcfg).
    destruct (Hmgr i m0 m' Hm0 Hm') as (h & f & _ & _ & Had & _ & Hbl). destruct (managers_good k fr i m0 Hg Hk Hm0) as [Hw Hbs].
    eapply (grown_holds m0 m' _ _ f); [done|done|done|lia|exact Had|]. rewrite Hbl, length_app. lia.
  - destruct Hpost as (-> & _ & Hmgr). intros i m0 m' Hm0 Hm'.
    destruct (same_coord_mgr _ _ _ _ Hco Hm') as (m1 & Hm1 & Hcfg). simplify_eq. split; [done|].
    destruct (Hmgr i _ m' Hm0 Hm') as [Hu _]. by rewrite Hu.
Qed.

(** A request that got nothing is as it was. *)
Lemma refused_fresh k r k' :
  fresh_in k (request_id r) → on_kms same_cached k k' →
  (∀ i m m', c_managers (km_coord k) !! i = Some m → c_managers (km_coord k') !! i = Some m' →
     same_config m m' ∧ len (blocks_of m' (request_id r)) = len (blocks_of m (request_id r))) →
  fresh_in k' (request_id r).
Proof.
  intros Hf [Hc _] Hlen. apply Forall_lookup. intros i m' Hm'.
  destruct (Forall2_lookup_r _ _ _ _ _ Hc Hm') as (m & Hm & Hsame). destruct (Hlen i m m' Hm Hm') as [_ El].
  destruct (Forall_lookup_1 _ _ _ _ Hf Hm) as [H1 H2]. split; [by rewrite Hsame|].
  rewrite H2 in El. apply nil_length_inv. simpl in El. lia.
Qed.

Lemma promise_new k r b n m gate :
  manager_good k → hashed_text r → fresh_in k (request_id r) → hits_in k r b n →
  num_computed_tokens r = 0 → 0 < m → 0 ≤ n → n + m ≤ num_tokens r → num_tokens r ≤ mml →
  wp (KVManager.allocate_slots r m n (Some b) 0 0 false 0 gate 0) (λ '(o, r') k',
    manager_good k' ∧ memo_frame r r' ∧ kv_keeps (only (request_id r)) k k' ∧
    match o with Some _ => holds_in k' (request_id r) (n + m) | None => fresh_in k' (request_id r) end) k.
Proof.
  intros Hg Hr Hf Hb Ht Hm Hn Hle Hmml.
  eapply wp_mono; [apply (keeps_if_wp _ _ _ (λ x k', manager_good k' ∧ kv_keeps (only (request_id r)) k k' ∧
    allocated_in k r (n + m) x k') _ (refused_uncached _ _ _ _ _ _ _ _ _ _))|].
  - destruct b as [g|hits]; [|by apply allocate_with_hits]. destruct Hb as [-> ->].
    replace (0 + m) with (num_computed_tokens r + m) by lia. apply allocate_no_hits; try done; try lia.
    rewrite Ht. by apply fresh_continuing.
  - intros [o r'] k' ((H1 & H2 & H3 & H4) & Href). simpl in *. split_and!; [done..|]. destruct o; [done|].
    eapply refused_fresh; [done|by apply Href|done].
Qed.

Lemma promise_running k r m :
  manager_good k → hashed_text r → holds_in k (request_id r) (num_computed_tokens r) →
  0 ≤ num_computed_tokens r → 0 < m → num_computed_tokens r + m ≤ num_tokens r → num_tokens r ≤ mml →
  wp (KVManager.allocate_slots r m 0 None 0 0 false 0 false 0) (λ '(o, r') k',
    manager_good k' ∧ memo_frame r r' ∧ kv_keeps (only (request_id r)) k k' ∧
    match o with
    | Some _ => holds_in k' (request_id r) (num_computed_tokens r + m)
    | None => holds_in k' (request_id r) (num_computed_tokens r)
    end) k.
Proof.
  intros Hg Hr Hh Ht Hm Hle Hmml.
  pose proof (allocate_no_hits k r m None false Hg Hr eq_refl Ht Hm Hle Hmml Hh) as W.
  eapply wp_mono; [exact (keeps_wp _ _ _ _ (keeps_kv_allocate r m 0 None 0 0 false 0 false 0) W)|].
  intros [o r'] k' ((H1 & H2 & H3 & H4) & [Hms _]). simpl in *. split_and!; [done..|]. destruct o; [done|].
  apply Forall_lookup. intros i m' Hm'. destruct (Forall2_lookup_r _ _ _ _ _ Hms Hm') as (m0 & Hm0 & _).
  destruct (H4 i m0 m' Hm0 Hm') as [Hcfg El]. eapply same_config_continuing; [done|lia|].
  by apply (Forall_lookup_1 _ _ _ _ Hh Hm0).
Qed.

(** The KV-cache manager keeps the promises that the scheduler relies on. *)
#[local] Instance manager_promises : KVPromises mml request_hasher.
Proof.
  split.
  - exact same_tokens_hashed.
  - exact memo_hashed.
  - intros k r r' b n _ H. exact H.
  - intros r t Hr _. by apply append_hashed.
  - intros k r Hg Hr _ Hn. by apply promise_computed.
  - exact promise_new.
  - exact promise_running.
  - exact promise_free.
  - intros k rid t Hg _. by apply promise_prefix.
  - exact promise_step.
  - exact promise_zero.
  - exact promise_events.
  - exact promise_reset.
Qed.
End promises.
