(* ===== verification/Engine.v ===== *)
(** * The engine core

    [EngineCore] of [vllm/v1/engine/core.py]: the loop that schedules, executes and
    takes in the output, with and without the queue of batches; adding and aborting
    requests, pausing and resets.  The executor (the workers with the model) answers
    as a parameter; what the input thread puts into the queue of aborts while the
    model runs is an argument of a step.  Construction, logging, LoRA management and
    the calls that only go to the executor are left out. *)
From S2P Require Import Prelude FreeQueue Request BlockHash BlockPool KVSpec Coordinator KVCacheManager.
From S2P Require Import EncoderCache RequestQueue SchedUtils SchedState Schedule SchedUpdate.

(** The executor: its answers may depend on the number of the scheduling step.
    [execute_model] gives [None] when the tokens are sampled by a call of its own;
    the batch that [sample_tokens] is for, which the workers remember, is an
    argument. *)
Record Executor := mkExecutor {
  ex_execute_model : Z → SchedulerOutput → option ModelRunnerOutput;
  ex_sample_tokens : Z → SchedulerOutput → option (list string) → option ModelRunnerOutput;
  ex_take_draft_token_ids : Z → option DraftTokenIds;
  ex_supports_task : PoolingParams → bool;   (* [pooling_params.task] is a supported task *)
}.

(** The options the engine core reads *)
Record EngineConfig := mkEngineConfig {
  ec_batch_queue_size : Z;
  ec_is_ec_consumer : bool;
  ec_is_pooling_model : bool;
  ec_use_spec_decode : bool;
}.

(** An entry of [batch_queue]: what the future of its tokens will give, and what
    was scheduled. *)
Record Batch := mkBatch { ba_future : option ModelRunnerOutput; ba_output : SchedulerOutput }.

(** The left end of the deque is the head of the list. *)
Record EngineCore := mkEngine {
  en_scheduler : Scheduler;
  en_batch_queue : option (list Batch);
  en_aborts_queue : list (list string);
}.
Definition en_set_scheduler (v : Scheduler) (e : EngineCore) : EngineCore :=
  mkEngine v (en_batch_queue e) (en_aborts_queue e).
Definition en_set_batch_queue (v : option (list Batch)) (e : EngineCore) : EngineCore :=
  mkEngine (en_scheduler e) v (en_aborts_queue e).
Definition en_set_aborts_queue (v : list (list string)) (e : EngineCore) : EngineCore :=
  mkEngine (en_scheduler e) (en_batch_queue e) v.

Definition on_sched {A} (op : Sch A) : M EngineCore A := zoom en_scheduler en_set_scheduler op.

(** [deque.appendleft] on a deque with [maxlen] *)
Definition append_left {A} (maxlen : Z) (x : A) (q : list A) : list A := take (Z.to_nat maxlen) (x :: q).

(** [deque.pop] *)
Definition pop_right {A} (q : list A) : res (A * list A) :=
  match last q with Some x => Ok (x, take (length q - 1) q) | None => Raise IndexError end.

Module Core.
Section core.
Context (cf : Config) (conn : option Connector) (gr : GrammarOps) (hasher : option block_hasher).
Context (set_iter : gset nat → list nat) (ids_iter : gset string → list string).
Context (ec : EngineConfig) (ex : Executor).

Abbreviation schedule := (Sched.schedule cf conn gr set_iter).
Abbreviation update_from_output := (Update.update_from_output cf conn gr hasher set_iter ids_iter).

(** [SchedulerInterface.has_unfinished_requests] and [has_requests] *)
Definition has_unfinished_requests (s : Scheduler) : bool := 0 <? Update.get_num_unfinished_requests s.
Definition has_requests (s : Scheduler) : bool :=
  has_unfinished_requests s || Update.has_finished_requests conn s.

(** ** Requests enter and leave *)
Definition abort_requests (request_ids : list string) : M EngineCore () :=
  _ ← on_sched (Update.finish_requests conn set_iter ids_iter (Ids request_ids) FINISHED_ABORTED);
  mret tt.

Definition add_request (i : Z) (request : Request) (abort_immediately : bool) : M EngineCore () :=
  _ ← (match pooling_params (ext request) with
       | Some pp => if ex_supports_task ex pp then mret tt else raise ValueError
       | None => mret tt
       end);
  _ ← on_sched (Update.add_request conn hasher set_iter ids_iter i request);
  if abort_immediately then abort_requests [request_id request] else mret tt.

Definition _process_aborts_queue : M EngineCore () :=
  e ← get;
  match en_aborts_queue e with
  | [] => mret tt
  | q => _ ← modify (en_set_aborts_queue []); abort_requests (concat q)
  end.

(** The input thread puts aborts into the queue. *)
Definition receive_aborts (arrived : list (list string)) : M EngineCore () :=
  modify (λ e, en_set_aborts_queue (en_aborts_queue e ++ arrived) e).

(** The output of the model is taken in, after the aborts that came meanwhile. *)
Definition finish_step (arrived : list (list string)) (out : SchedulerOutput)
    (model_output : option ModelRunnerOutput) : M EngineCore (list (Z * EngineCoreOutputs)) :=
  _ ← receive_aborts arrived;
  _ ← _process_aborts_queue;
  mro ← of_opt AttributeError model_output;
  on_sched (update_from_output out mro).

(** ** A step *)
Definition step (arrived : list (list string)) : M EngineCore (list (Z * EngineCoreOutputs) * bool) :=
  e ← get;
  if negb (has_requests (en_scheduler e)) then mret ([], false)
  else
    scheduler_output ← on_sched schedule;
    e ← get;
    let n := sc_current_step (en_scheduler e) in
    let future := ex_execute_model ex n scheduler_output in
    grammar_output ← on_sched (Update.get_grammar_bitmask scheduler_output);
    let model_output := match future with Some m => Some m | None => ex_sample_tokens ex n scheduler_output grammar_output end in
    outputs ← finish_step arrived scheduler_output model_output;
    mret (outputs, 0 <? so_total_num_scheduled_tokens scheduler_output).

Definition post_step (model_executed : bool) : M EngineCore () :=
  e ← get;
  if negb (cf_async_scheduling cf) && ec_use_spec_decode ec && model_executed
  then match ex_take_draft_token_ids ex (sc_current_step (en_scheduler e)) with
       | Some d => on_sched (Update.update_draft_token_ids gr d)
       | None => mret tt
       end
  else mret tt.

(** ** A step with the queue of batches *)
Definition enqueue_batch (b : Batch) : M EngineCore () :=
  modify (λ e, en_set_batch_queue (append_left (ec_batch_queue_size ec) b <$> en_batch_queue e) e).

(** The tokens of a batch are sampled once the previous batch is taken in. *)
Definition sample_deferred (deferred : SchedulerOutput) : M EngineCore () :=
  e ← get;
  let n := sc_current_step (en_scheduler e) in
  deferred ← (if ec_use_spec_decode ec
              then drafts ← of_opt AssertionError (ex_take_draft_token_ids ex n);
                   on_sched (Update.update_draft_token_ids_in_output gr drafts deferred)
              else mret deferred);
  grammar_output ← on_sched (Update.get_grammar_bitmask deferred);
  enqueue_batch (mkBatch (ex_sample_tokens ex n deferred grammar_output) deferred).

(** The oldest batch is awaited and taken in. *)
Definition finish_batch (arrived : list (list string)) (deferred : option SchedulerOutput)
    (model_executed : bool) : M EngineCore (option (list (Z * EngineCoreOutputs)) * bool) :=
  e ← get;
  queue ← of_opt AssertionError (en_batch_queue e);
  '(b, queue) ← of_res (pop_right queue);
  _ ← modify (en_set_batch_queue (Some queue));
  model_output ← of_opt RuntimeError (ba_future b);
  outputs ← finish_step arrived (ba_output b) (Some model_output);
  _ ← (match deferred with Some d => sample_deferred d | None => mret tt end);
  mret (Some outputs, model_executed).

Definition step_with_batch_queue (arrived : list (list string))
    : M EngineCore (option (list (Z * EngineCoreOutputs)) * bool) :=
  e ← get;
  queue ← of_opt AssertionError (en_batch_queue e);
  _ ← massert (len queue <? ec_batch_queue_size ec);
  if has_requests (en_scheduler e)
  then
    scheduler_output ← on_sched schedule;
    e ← get;
    let n := sc_current_step (en_scheduler e) in
    let exec_future := ex_execute_model ex n scheduler_output in
    let model_executed := ec_is_ec_consumer ec && (0 <? so_total_num_scheduled_tokens scheduler_output) in
    if negb (ec_is_pooling_model ec || negb model_executed) && so_pending_structured_output_tokens scheduler_output
    then finish_batch arrived (Some scheduler_output) model_executed
    else
      future ← (if ec_is_pooling_model ec || negb model_executed then mret exec_future
                else grammar_output ← on_sched (Update.get_grammar_bitmask scheduler_output);
                     mret (ex_sample_tokens ex n scheduler_output grammar_output));
      _ ← enqueue_batch (mkBatch future scheduler_output);
      e ← get;
      if (len (default [] (en_batch_queue e)) <? ec_batch_queue_size ec)
         && (model_executed || has_requests (en_scheduler e))
      then mret (None, model_executed)
      else finish_batch arrived None model_executed
  else
    match queue with
    | [] => mret (None, false)
    | _ => finish_batch arrived None false
    end.

(** ** Resets and pausing *)
Definition reset_prefix_cache (reset_running_requests reset_connector : bool) : M EngineCore bool :=
  on_sched (Update.reset_prefix_cache conn set_iter reset_running_requests reset_connector).

Definition reset_encoder_cache : M EngineCore () := on_sched Update.reset_encoder_cache.

Definition _reset_caches (reset_running_requests reset_connector : bool) : M EngineCore () :=
  _ ← reset_prefix_cache reset_running_requests reset_connector;
  reset_encoder_cache.

Definition pause_mode_ok (mode : string) : bool :=
  String.eqb mode "keep" || String.eqb mode "abort" || String.eqb mode "wait".

Definition pause_scheduler (mode : string) (clear_cache : bool) : M EngineCore () :=
  if negb (pause_mode_ok mode) then raise ValueError
  else if String.eqb mode "wait" then raise ValueError
  else
    _ ← (if String.eqb mode "abort"
         then _ ← on_sched (Update.finish_requests conn set_iter ids_iter AllIds FINISHED_ABORTED); mret tt
         else mret tt);
    _ ← on_sched (Update.set_pause_state (if String.eqb mode "keep" then PAUSED_ALL else PAUSED_NEW));
    if clear_cache then _reset_caches true true else mret tt.

Definition resume_scheduler : M EngineCore () := on_sched (Update.set_pause_state UNPAUSED).

Definition is_scheduler_paused (e : EngineCore) : bool :=
  negb (bool_decide (sc_pause_state (en_scheduler e) = UNPAUSED)).

(** ** The engine as it is constructed, and what is called on it *)

(** [EngineCore.__init__], the queues: batches are queued when more than one may
    be in flight. *)
Definition init (s : Scheduler) : EngineCore :=
  mkEngine s (if 1 <? ec_batch_queue_size ec then Some [] else None) [].

(** [self.step_fn] *)
Definition step_fn (arrived : list (list string)) : M EngineCore (option (list (Z * EngineCoreOutputs)) * bool) :=
  e ← get;
  match en_batch_queue e with
  | None => '(outputs, executed) ← step arrived; mret (Some outputs, executed)
  | Some _ => step_with_batch_queue arrived
  end.

(** [EngineCoreProc._process_engine_step]: a step and what comes after it *)
Definition _process_engine_step (arrived : list (list string)) : M EngineCore bool :=
  '(_, model_executed) ← step_fn arrived;
  _ ← post_step model_executed;
  mret model_executed.

(** The calls of the client and of the loop *)
Inductive engine_op :=
  | EAdd (i : Z) (request : Request) (abort_immediately : bool)
  | EAbort (request_ids : list string)
  | EStep (arrived : list (list string))
  | EPause (mode : string) (clear_cache : bool)
  | EResume
  | EResetPrefix (reset_running_requests reset_connector : bool)
  | EResetEncoder.

Definition run_op (o : engine_op) : M EngineCore () :=
  match o with
  | EAdd i r now => add_request i r now
  | EAbort ids => abort_requests ids
  | EStep arrived => _ ← _process_engine_step arrived; mret tt
  | EPause mode clear => pause_scheduler mode clear
  | EResume => resume_scheduler
  | EResetPrefix rr c => _ ← reset_prefix_cache rr c; mret tt
  | EResetEncoder => reset_encoder_cache
  end.

End core.
End Core.
