(* ===== verification/EngineSafe.v ===== *)
(** * The engine core is safe

    The loop of the engine over the scheduler and the executor, from the invariant
    of the scheduler: whatever requests and aborts come, whichever of the two step
    functions runs and however many batches are in flight, no call raises, no batch
    exceeds the budgets, and no request is lost. *)
From S2P Require Import Prelude FreeQueue Request BlockHash BlockPool KVSpec Coordinator KVCacheManager.
From S2P Require Import EncoderCache RequestQueue SchedUtils SchedState Schedule SchedUpdate SchedInv ScheduleSafe.
From S2P Require Import UpdateSafe Engine.

(** ** What the engine relies on in the executor *)

(** The batch is run by [execute_model] alone. *)
Definition direct (ec : EngineConfig) (out : SchedulerOutput) : bool :=
  ec_is_pooling_model ec || negb (ec_is_ec_consumer ec && (0 <? so_total_num_scheduled_tokens out)).

(** The workers answer with one row for every scheduled request. *)
Record executor_ok (ec : EngineConfig) (ex : Executor) : Prop := {
  xo_execute n out m : ex_execute_model ex n out = Some m → mro_ok (so_num_scheduled_tokens out) m;
  xo_sample n out g m : ex_sample_tokens ex n out g = Some m → mro_ok (so_num_scheduled_tokens out) m;
  xo_direct n out : direct ec out = true → is_Some (ex_execute_model ex n out);
  xo_sampled n out g : direct ec out = false → is_Some (ex_sample_tokens ex n out g);
}.

Section engine.
Context (cf : Config) (Hcf : basic_config cf) (hasher : option block_hasher).
Abbreviation mml := (cf_max_model_len cf).
Context `{KVS : KVState} `{KV : !KVPromises mml hasher}.
Context (gr : GrammarOps) (Hgr : ∀ r, use_structured_output r = false → gr_should_advance gr r = false).
Context (set_iter : gset nat → list nat) (Hiter : ∀ X, set_iter X ≡ₚ elements X).
Context (ids_iter : gset string → list string) (Hids : ∀ X, ids_iter X ≡ₚ elements X).
Context (ec : EngineConfig) (ex : Executor) (Hec : ec_use_spec_decode ec = false) (Hex : executor_ok ec ex).

(** A batch that waits in the queue: within the budget, and answered. *)
Record batch_ok (out : SchedulerOutput) : Prop := {
  bo_spec : so_scheduled_spec_decode_tokens out = [];
  bo_pos kv : kv ∈ so_num_scheduled_tokens out → 0 < kv.2;
  bo_keys : NoDup (so_num_scheduled_tokens out).*1;
  bo_total : so_total_num_scheduled_tokens out = Sched.sum_values (so_num_scheduled_tokens out);
  bo_budget : so_total_num_scheduled_tokens out ≤ max_num_scheduled_tokens cf;
}.
Definition queued (b : Batch) : Prop :=
  batch_ok (ba_output b) ∧ ∃ m, ba_future b = Some m ∧ mro_ok (so_num_scheduled_tokens (ba_output b)) m.

(** The invariant of the engine *)
Record engine_ok (e : EngineCore) : Prop := {
  eg_ready : ready cf (en_scheduler e);
  eg_queue q : en_batch_queue e = Some q → Forall queued q ∧ len q < ec_batch_queue_size ec;
}.

(** The calls of the scheduler that the engine makes *)
Abbreviation schedule_ok := (schedule_spec cf Hcf hasher gr set_iter Hiter).
Abbreviation finish_ok := (finish_requests_spec cf Hcf hasher gr Hgr set_iter Hiter ids_iter Hids).
Abbreviation update_ok := (update_from_output_spec cf Hcf hasher gr Hgr set_iter Hiter ids_iter Hids).

Lemma wp_on_sched {A} (op : Sch A) (Q : A → EngineCore → Prop) e :
  wp op (λ a s, Q a (en_set_scheduler s e)) (en_scheduler e) → wp (on_sched op) Q e.
Proof. unfold on_sched. by rewrite wp_zoom. Qed.

(** An operation of the scheduler keeps the rest of the engine. *)
Lemma wp_sched_ok {A} (op : Sch A) (R : Scheduler → Prop) (Q : A → EngineCore → Prop) e :
  engine_ok e → wp op (λ _ s', ready cf s' ∧ R s') (en_scheduler e) →
  (∀ a e', engine_ok e' → R (en_scheduler e') → en_batch_queue e' = en_batch_queue e →
     en_aborts_queue e' = en_aborts_queue e → Q a e') →
  wp (on_sched op) Q e.
Proof.
  intros [_ Hq] Hop HQ. apply wp_on_sched. eapply wp_mono; [exact Hop|]. intros a s' (Hr & HR). by apply HQ.
Qed.

(** *** Aborts *)
Lemma abort_requests_ok e ids :
  engine_ok e →
  wp (Core.abort_requests None set_iter ids_iter ids) (λ _ e', engine_ok e' ∧
    en_batch_queue e' = en_batch_queue e ∧ en_aborts_queue e' = en_aborts_queue e ∧
    ∀ id i, (id, i) ∈ sc_requests (en_scheduler e') ↔ (id, i) ∈ sc_requests (en_scheduler e) ∧ id ∉ ids) e.
Proof.
  intros He. unfold Core.abort_requests. wp_step.
  eapply (wp_sched_ok _ (λ s', ∀ id i, (id, i) ∈ sc_requests s' ↔ (id, i) ∈ sc_requests (en_scheduler e) ∧ id ∉ ids)); [done| |].
  - eapply wp_mono; [apply finish_ok; [apply He|done]|]. by intros l s' (Hr & Htab & _).
  - intros l e' He' Htab Eq Ea. by wp_step.
Qed.

(** The queue of aborts is emptied. *)
Lemma process_aborts_ok e :
  engine_ok e →
  wp (Core._process_aborts_queue None set_iter ids_iter) (λ _ e', engine_ok e' ∧
    en_batch_queue e' = en_batch_queue e ∧ en_aborts_queue e' = []) e.
Proof.
  intros He. unfold Core._process_aborts_queue. wp_step. destruct (en_aborts_queue e) eqn:Ea; wp_step; [done|].
  eapply wp_mono; [apply abort_requests_ok; by destruct He|]. by intros [] e' (He' & Eq & Ea' & _).
Qed.

Lemma finish_step_ok arrived out mro e :
  engine_ok e → batch_ok out → mro_ok (so_num_scheduled_tokens out) mro →
  wp (Core.finish_step cf None gr hasher set_iter ids_iter arrived out (Some mro)) (λ _ e', engine_ok e' ∧
    en_batch_queue e' = en_batch_queue e ∧ en_aborts_queue e' = []) e.
Proof.
  intros He Hb Hm. unfold Core.finish_step, Core.receive_aborts. wp_step.
  eapply wp_mono; [apply process_aborts_ok; by destruct He|]. intros [] e1 (He1 & Eq1 & Ea1). wp_step.
  apply wp_of_opt. exists mro. split; [done|].
  apply (wp_sched_ok _ (λ _, True)); [done| |intros l e2 He2 _ Eq2 Ea2; split_and!; [done|by rewrite Eq2, Eq1|by rewrite Ea2, Ea1]].
  eapply wp_mono; [apply update_ok; [apply He1|done|apply Hb|apply Hb]|]. by intros l s' [Hr _].
Qed.

(** *** Scheduling *)
Lemma schedule_batch e Q :
  engine_ok e →
  (∀ out e', engine_ok e' → batch_ok out → so_pending_structured_output_tokens out = false →
     en_batch_queue e' = en_batch_queue e → Q out e') →
  wp (on_sched (Sched.schedule cf None gr set_iter)) Q e.
Proof.
  intros He HQ. destruct He as [[I Hp Hl] Hq]. apply wp_on_sched.
  eapply wp_mono; [by apply schedule_ok|]. intros out s' []. apply HQ; try done. split; try done.
  intros kv Hkv. by apply sp_counted.
Qed.

Lemma bitmask_ok out e Q :
  engine_ok e → (∀ g, Q g e) → wp (on_sched (Update.get_grammar_bitmask out)) Q e.
Proof.
  intros He HQ. apply wp_on_sched. unfold Update.get_grammar_bitmask.
  assert (E : en_set_scheduler (en_scheduler e) e = e) by by destruct e.
  destruct (negb _); wp_step; rewrite E; apply HQ.
Qed.

(** *** The step functions *)
Lemma step_ok arrived e :
  engine_ok e → wp (Core.step cf None gr hasher set_iter ids_iter ex arrived) (λ _ e', engine_ok e') e.
Proof.
  intros He. unfold Core.step. wp_step. destruct (negb _); wp_step; [done|].
  apply (schedule_batch e); [done|]. intros out e1 He1 Hb _ _. wp_step. apply (bitmask_ok _ _ _ He1). intros g.
  set (n := sc_current_step _). wp_step.
  assert (Hm : ∃ m, match ex_execute_model ex n out with Some m => Some m | None => ex_sample_tokens ex n out g end = Some m ∧
    mro_ok (so_num_scheduled_tokens out) m).
  { destruct (ex_execute_model ex n out) as [m|] eqn:Em; [exists m; split; [done|by eapply (xo_execute _ _ Hex)]|].
    destruct (direct ec out) eqn:Ed; [by destruct (xo_direct _ _ Hex n out Ed) as [m Hm]; rewrite Em in Hm|].
    destruct (xo_sampled _ _ Hex n out g Ed) as [m Hm]. exists m. split; [done|by eapply (xo_sample _ _ Hex)]. }
  destruct Hm as (m & -> & Hm). eapply wp_mono; [by apply finish_step_ok|]. intros l e2 [He2 _]. by wp_step.
Qed.

Lemma post_step_ok executed e :
  engine_ok e → wp (Core.post_step cf gr ec ex executed) (λ _ e', engine_ok e') e.
Proof. intros He. unfold Core.post_step. wp_step. rewrite Hec, andb_false_r. by wp_step. Qed.

(** The oldest batch is taken in; the newest may fill the queue. *)
Lemma finish_batch_ok arrived executed e q :
  ready cf (en_scheduler e) → en_batch_queue e = Some q → Forall queued q → q ≠ [] →
  len q ≤ ec_batch_queue_size ec →
  wp (Core.finish_batch cf None gr hasher set_iter ids_iter ec ex arrived None executed) (λ _ e', engine_ok e') e.
Proof.
  intros Hr Eq Hq Hne Hlen. unfold Core.finish_batch. wp_step. rewrite Eq. apply wp_of_opt. exists q. split; [done|].
  destruct (exists_last Hne) as (q' & b & ->). wp_step. unfold pop_right. rewrite last_snoc.
  rewrite length_app, Nat.add_sub, take_app_length.
  apply Forall_app in Hq as [Hq' [[Hb (m & Em & Hm)] _]%Forall_cons].
  change (of_res (Ok (b, q'))) with (@mret (M EngineCore) _ _ (b, q')). wp_step. rewrite Em.
  apply wp_of_opt. exists m. split; [done|]. wp_step. set (e1 := en_set_batch_queue _ e).
  assert (He1 : engine_ok e1).
  { split; [done|]. intros q1 [= <-]. split; [done|]. rewrite length_app in Hlen. simpl in Hlen. lia. }
  eapply wp_mono; [by apply finish_step_ok|]. intros l e2 [He2 _]. by wp_step.
Qed.

Lemma enqueue_ok out fut e q m :
  engine_ok e → en_batch_queue e = Some q → batch_ok out → fut = Some m → mro_ok (so_num_scheduled_tokens out) m →
  wp (Core.enqueue_batch ec (mkBatch fut out)) (λ _ e', ready cf (en_scheduler e') ∧ ∃ q',
    en_batch_queue e' = Some q' ∧ Forall queued q' ∧ q' ≠ [] ∧ len q' ≤ ec_batch_queue_size ec) e.
Proof.
  intros [Hr Hq] Eq Hb -> Hm. destruct (Hq q Eq) as [Hall Hlen]. unfold Core.enqueue_batch. wp_step. split; [done|].
  exists (mkBatch (Some m) out :: q). simpl. rewrite Eq. simpl. unfold append_left. rewrite take_ge by (simpl; lia).
  split_and!; try done; [|lia]. constructor; [|done]. split; [done|]. by exists m.
Qed.

Lemma step_with_batch_queue_ok arrived e :
  engine_ok e → en_batch_queue e ≠ None →
  wp (Core.step_with_batch_queue cf None gr hasher set_iter ids_iter ec ex arrived) (λ _ e', engine_ok e') e.
Proof.
  intros He Hne. unfold Core.step_with_batch_queue. wp_step.
  destruct (en_batch_queue e) as [q|] eqn:Eq; [|done]. apply wp_of_opt. exists q. split; [done|]. wp_step.
  destruct (eg_queue _ He q Eq) as [Hall Hlen]. split; [by apply Z.ltb_lt|].
  destruct (Core.has_requests _ _) eqn:Ehas.
  2: { destruct q as [|b q]; [by wp_step|]. eapply finish_batch_ok; [apply He|exact Eq|done|done|lia]. }
  wp_step. apply (schedule_batch e); [done|]. intros out e1 He1 Hb Hpend Eq1. wp_step.
  rewrite Hpend, andb_false_r. set (n := sc_current_step _). wp_step.
  eapply (wp_mono _ (λ fut e2, e2 = e1 ∧ ∃ m, fut = Some m ∧ mro_ok (so_num_scheduled_tokens out) m)).
  { destruct (ec_is_pooling_model ec || _) eqn:Ed; wp_step.
    - destruct (xo_direct _ _ Hex n out Ed) as [m Hm]. split; [done|]. exists m. split; [done|]. by eapply (xo_execute _ _ Hex).
    - apply (bitmask_ok _ _ _ He1). intros g. wp_step. destruct (xo_sampled _ _ Hex n out g Ed) as [m Hm].
      split; [done|]. exists m. split; [done|]. by eapply (xo_sample _ _ Hex). }
  intros fut e2 (-> & m & Ef & Hm). wp_step. rewrite Eq in Eq1.
  eapply wp_mono; [by eapply enqueue_ok|]. intros [] e3 (Hr3 & q3 & Eq3 & Hall3 & Hne3 & Hlen3). wp_step. rewrite Eq3. simpl.
  destruct (Z.ltb_spec (len q3) (ec_batch_queue_size ec)) as [Hlt|]; cbn [andb].
  - destruct (_ || _); wp_step; [split; [done|]; intros q4 E4; rewrite Eq3 in E4; by injection E4 as <-|].
    by eapply finish_batch_ok.
  - by eapply finish_batch_ok.
Qed.

(** *** Requests, pausing and resets *)
Lemma ready_pause p s : ready cf s → ready cf (sc_set_pause_state p s).
Proof. intros [I Hp Hl]. split; [by destruct I|done|done]. Qed.

Lemma add_request_ok i r now e :
  engine_ok e → request_id r ∉ (sc_requests (en_scheduler e)).*1 → sc_objs (en_scheduler e) !! i = None →
  req_inv mml r → status r = WAITING → num_computed_tokens r = 0 →
  wp (Core.add_request None hasher set_iter ids_iter ex i r now) (λ _ e', engine_ok e') e.
Proof.
  intros He Hid Hi Hreq Hst Hc. unfold Core.add_request. rewrite (ri_pooling _ _ Hreq). wp_step.
  apply (wp_sched_ok _ (λ _, True)); [done| |].
  - eapply wp_mono; [apply (update_add_request_spec cf hasher set_iter ids_iter (en_scheduler e) i r); [apply He|done..]|].
    by intros [] s' (Hr & _).
  - intros [] e1 He1 _ _ _. destruct now; [|by wp_step].
    eapply wp_mono; [by apply abort_requests_ok|]. by intros [] e2 [He2 _].
Qed.

Lemma enc_reset_ok s :
  ready cf s →
  wp Update.reset_encoder_cache (λ _ s', ready cf s' ∧ sc_requests s' = sc_requests s ∧
    sc_pause_state s' = sc_pause_state s) s.
Proof.
  intros [I Hp Hl]. unfold Update.reset_encoder_cache, enc_reset, on_enc, wp.
  destruct (sc_enc s) eqn:Ee; simpl; (split; [|done]); (split; [by apply inv_enc|done|done]).
Qed.

Lemma reset_caches_ok rr c e :
  engine_ok e → wp (Core._reset_caches None set_iter rr c) (λ _ e', engine_ok e' ∧
    sc_requests (en_scheduler e') = sc_requests (en_scheduler e) ∧
    sc_pause_state (en_scheduler e') = sc_pause_state (en_scheduler e)) e.
Proof.
  intros He. unfold Core._reset_caches, Core.reset_prefix_cache. wp_step.
  apply (wp_sched_ok _ (λ s', sc_requests s' = sc_requests (en_scheduler e) ∧
    sc_pause_state s' = sc_pause_state (en_scheduler e))); [done| |].
  - eapply wp_mono; [apply (update_reset_prefix_cache_spec cf Hcf hasher gr Hgr set_iter Hiter ids_iter Hids); apply He|].
    by intros b s' (Hr & Hs & Hp).
  - intros b e1 He1 [<- <-] _ _. unfold Core.reset_encoder_cache.
    apply (wp_sched_ok _ (λ s', sc_requests s' = sc_requests (en_scheduler e1) ∧
      sc_pause_state s' = sc_pause_state (en_scheduler e1))); [done| |by intros ? e2 He2 [-> ->] _ _].
    apply enc_reset_ok, He1.
Qed.

Lemma pause_scheduler_ok mode clear e :
  engine_ok e → mode = "keep"%string ∨ mode = "abort"%string →
  wp (Core.pause_scheduler None set_iter ids_iter mode clear) (λ _ e', engine_ok e' ∧
    sc_requests (en_scheduler e') = (if String.eqb mode "abort" then [] else sc_requests (en_scheduler e)) ∧
    sc_pause_state (en_scheduler e') = (if String.eqb mode "abort" then PAUSED_NEW else PAUSED_ALL)) e.
Proof.
  intros He Hmode. unfold Core.pause_scheduler.
  assert (Hok : Core.pause_mode_ok mode = true ∧ String.eqb mode "wait" = false ∧
    (if String.eqb mode "keep" then PAUSED_ALL else PAUSED_NEW) = (if String.eqb mode "abort" then PAUSED_NEW else PAUSED_ALL))
    by by destruct Hmode as [-> | ->].
  destruct Hok as (-> & -> & ->). cbn [negb]. wp_step.
  set (reqs := if String.eqb mode "abort" then [] else sc_requests (en_scheduler e)).
  set (p := if String.eqb mode "abort" then PAUSED_NEW else PAUSED_ALL).
  eapply (wp_mono _ (λ _ e1, engine_ok e1 ∧ sc_requests (en_scheduler e1) = reqs)).
  { unfold reqs. destruct (String.eqb mode "abort"); wp_step; [|done].
    apply (wp_sched_ok _ (λ s', sc_requests s' = [])); [done| |by intros; wp_step].
    eapply wp_mono; [apply finish_ok; [apply He|done]|]. intros l s' (Hr & Htab & _). split; [done|].
    apply elem_of_nil_inv. intros [id i] [_ Hn]%Htab. by apply Hn. }
  intros [] e1 [He1 E1]. wp_step.
  apply (wp_sched_ok _ (λ s', sc_requests s' = reqs ∧ sc_pause_state s' = p)); [done| |].
  { unfold Update.set_pause_state. wp_step. split; [|done]. apply ready_pause, He1. }
  intros [] e2 He2 [E2 E3] _ _. destruct clear; [|by wp_step].
  eapply wp_mono; [by apply reset_caches_ok|]. intros [] e3 (He3 & -> & ->). done.
Qed.

Lemma resume_scheduler_ok e : engine_ok e → wp Core.resume_scheduler (λ _ e', engine_ok e') e.
Proof.
  intros He. unfold Core.resume_scheduler. apply (wp_sched_ok _ (λ _, True)); [done| |done].
  unfold Update.set_pause_state. wp_step. split; [|done]. apply ready_pause, He.
Qed.
(** *** Any call *)
Definition op_ok (e : EngineCore) (o : Core.engine_op) : Prop :=
  match o with
  | Core.EAdd i r _ => request_id r ∉ (sc_requests (en_scheduler e)).*1 ∧ sc_objs (en_scheduler e) !! i = None ∧
      req_inv mml r ∧ status r = WAITING ∧ num_computed_tokens r = 0
  | Core.EPause mode _ => mode = "keep"%string ∨ mode = "abort"%string
  | _ => True
  end.

Lemma step_fn_ok arrived e :
  engine_ok e → wp (Core.step_fn cf None gr hasher set_iter ids_iter ec ex arrived) (λ _ e', engine_ok e') e.
Proof.
  intros He. unfold Core.step_fn. wp_step. destruct (en_batch_queue e) eqn:Eq.
  - apply step_with_batch_queue_ok; [done|congruence].
  - wp_step. eapply wp_mono; [by apply step_ok|]. intros [outs b] e' He'. by wp_step.
Qed.

Lemma run_op_ok o e :
  engine_ok e → op_ok e o → wp (Core.run_op cf None gr hasher set_iter ids_iter ec ex o) (λ _ e', engine_ok e') e.
Proof.
  intros He Ho. destruct o as [i r now|ids|arrived|mode clear| |rr c|]; simpl in *.
  - destruct Ho as (H1 & H2 & H3 & H4 & H5). by apply add_request_ok.
  - eapply wp_mono; [by apply abort_requests_ok|]. by intros [] e' [He' _].
  - unfold Core._process_engine_step. wp_step. eapply wp_mono; [by apply step_fn_ok|].
    intros [outs b] e1 He1. wp_step. eapply wp_mono; [by apply post_step_ok|]. intros [] e2 He2. by wp_step.
  - eapply wp_mono; [by apply pause_scheduler_ok|]. by intros [] e' [He' _].
  - by apply resume_scheduler_ok.
  - wp_step. unfold Core.reset_prefix_cache. apply (wp_sched_ok _ (λ _, True)); [done| |].
    + eapply wp_mono; [apply (update_reset_prefix_cache_spec cf Hcf hasher gr Hgr set_iter Hiter ids_iter Hids); apply He|].
      by intros b s' (Hr & _).
    + intros b e1 He1 _ _ _. by wp_step.
  - unfold Core.reset_encoder_cache. apply (wp_sched_ok _ (λ _, True)); [done| |done].
    eapply wp_mono; [apply enc_reset_ok, He|]. by intros [] s' [Hr _].
Qed.
End engine.
