(* ===== verification/EngineRun.v ===== *)
(** * Runs of the engine

    The engine with its scheduler and its KV-cache manager, from its construction on:
    the invariants of all components together, for the manager as it is coded (the
    promises of [KVKeeps]) and every sequence of calls. *)
From S2P Require Import Prelude FreeQueue Request BlockHash BlockPool KVSpec CacheHit SingleType.
From S2P Require Import Coordinator HybridHit KVCacheManager EncoderCache RequestQueue SchedUtils SchedState Schedule SchedUpdate.
From S2P Require Import SchedInv ScheduleSafe UpdateSafe Frame KVHits KVStart KVKeeps Engine EngineSafe SchedDemo.

(** ** The KV-cache manager at the start *)
Section start.
Context (config : KVCacheConfig) (hbs sbs : Z) (Hpl : plain_config config hbs) (Hsbs : 0 < sbs).
Context (mml : Z) (mnb : option Z) (caching use_eagle log events use_int : bool) (ret : option Z) (k : KVCacheManager).
Hypothesis Hinit : KVManager.init config mml sbs hbs mnb caching use_eagle log events use_int 1 1 ret = Ok k.

Lemma start_coord :
  Coord.init config mml (default mml mnb) use_eagle caching events use_int 1 1 sbs hbs ret = Ok (km_coord k) ∧
  km_max_model_len k = mml ∧ (km_log_stats k = true → is_Some (km_stats k)).
Proof.
  revert Hinit. unfold KVManager.init, mbind, res_bind. destruct (Coord.init _ _ _ _ _ _ _ _ _ _ _ _) as [c|]; [|done].
  intros [= <-]. split_and!; [done|done|]. simpl. intros ->. by eexists.
Qed.

(** No manager has a block. *)
Lemma start_fresh q : fresh_in k q.
Proof.
  destruct start_coord as [E _]. destruct (init_stores _ _ _ _ _ _ _ _ _ _ _ E) as (_ & _ & _ & _ & Hf).
  apply Forall_lookup. intros i m Hm. destruct (Hf i m Hm) as (g & _ & (_ & _ & _ & _ & _ & _ & Hb & Hn)).
  split; [by rewrite Hn|]. unfold blocks_of. by rewrite Hb.
Qed.

Lemma start_good : manager_good mml hbs k.
Proof.
  destruct start_coord as (E & El & Es). pose proof (plain_valid _ _ _ Hpl Hsbs) as Hv.
  destruct (init_ok _ _ _ _ _ _ _ _ _ _ _ _ _ Hv E) as (_ & _ & _ & Hlen & _ & Eh).
  destruct (init_stores _ _ _ _ _ _ _ _ _ _ _ E) as (_ & _ & _ & _ & Hf).
  split; try done.
  - eexists. by eapply kv_init_ok.
  - by eapply init_searchable.
  - apply Forall_lookup. intros i m Hm t Ht. destruct (Hf i m Hm) as (g & Hg & (_ & _ & Em & _)).
    unfold SingleType.get_num_skipped_tokens. rewrite Em.
    pose proof (pl_kind _ _ Hpl g (list_elem_of_lookup_2 _ _ _ Hg)) as Hk.
    destruct (kind (kv_cache_spec g)); simpl; try done. unfold sliding_skipped. lia.
  - intros E'. rewrite E' in Hlen. simpl in Hlen. pose proof (pl_some _ _ Hpl). by destruct (kv_cache_groups config).
Qed.
End start.

(** ** The engine at the start *)
Section engine_runs.
Context (hash_function : bytes * list Z * option (list extra_key) → bytes) (NONE_HASH : bytes).
Hypothesis hash_inj : ∀ x y, hash_function x = hash_function y → x = y.
Hypothesis none_fresh : ∀ x, hash_function x ≠ NONE_HASH.
Context (digest : nat) (hash_length : ∀ x, length (hash_function x) = digest) (digest_pos : (0 < digest)%nat).
Context (cf : Config) (Hcf : basic_config cf) (hbs : Z) (hbs_pos : 0 < hbs).
Abbreviation mml := (cf_max_model_len cf).
Abbreviation hasher := (Some (request_block_hasher hash_function NONE_HASH hbs)).
Context (gr : GrammarOps) (Hgr : ∀ r, use_structured_output r = false → gr_should_advance gr r = false).
Context (set_iter : gset nat → list nat) (Hiter : ∀ X, set_iter X ≡ₚ elements X).
Context (ids_iter : gset string → list string) (Hids : ∀ X, ids_iter X ≡ₚ elements X).
Context (ec : EngineConfig) (ex : Executor) (Hec : ec_use_spec_decode ec = false) (Hex : executor_ok ec ex).

#[local] Instance run_state : KVState := manager_state hash_function NONE_HASH mml hbs.
#[local] Instance run_promises : KVPromises mml hasher :=
  manager_promises hash_function NONE_HASH hash_inj none_fresh digest hash_length digest_pos mml hbs hbs_pos.

(** The scheduler as it is constructed, for groups of full attention and sliding
    windows, by blocks that are hashed [hbs] tokens at a time. *)
Definition started (s : Scheduler) : Prop :=
  ∃ cf0 policy config ng hb caching log events use_int ret fin,
    plain_config config hbs ∧ 0 < cf_block_size cf ∧ default (cf_block_size cf) hb = hbs ∧
    Update.init cf0 policy config ng hb caching log events use_int 1 1 ret fin = Ok (cf, s).

Lemma started_ready s : started s → ready cf s.
Proof.
  intros (cf0 & policy & config & ng & hb & caching & log & events & use_int & ret & fin & Hpl & Hbs & Ehb & E).
  revert E. unfold Update.init. destruct ng as [n|]; [|done]. destruct (0 <? n); [|done]. cbn [mbind res_bind].
  destruct (String.eqb policy "fcfs") eqn:E1; [|destruct (String.eqb policy "priority") eqn:E2; [|done]]; cbn [mbind res_bind].
  all: match goal with |- context [KVManager.init ?a ?b ?c ?d ?e ?f ?g ?h ?i ?j ?k ?l ?m] =>
    destruct (KVManager.init a b c d e f g h i j k l m) as [kv|] eqn:Ekv end; [|done]; cbn [mbind res_bind].
  all: intros [= Ecf <-]; rewrite <- Ecf in Hbs, Ehb; simpl in Hbs, Ehb; cbn [cf_block_size cf_max_model_len] in Ekv; rewrite Ehb in Ekv.
  all: assert (Em : mml = cf_max_model_len cf0) by (by rewrite <- Ecf); rewrite <- Em in Ekv.
  all: pose proof (start_good _ _ _ Hpl Hbs _ _ _ _ _ _ _ _ _ Ekv) as Hgood.
  all: pose proof (start_fresh _ _ _ _ _ _ _ _ _ _ _ _ Ekv) as Hfresh.
  all: split; [|by intros i r Hi%elem_of_nil|apply (bc_seqs _ Hcf)].
  all: split; try done; try (by intros ? ?%elem_of_nil); try (by constructor).
  all: simpl; try (by intros i Hi%elem_of_nil); try (by intros id i Hi%elem_of_nil).
  all: try (by destruct (cf_is_encoder_decoder _)).
Qed.
Abbreviation run_op := (Core.run_op cf None gr hasher set_iter ids_iter ec ex).
Abbreviation engine_ok := (engine_ok cf ec).
Abbreviation op_ok := (op_ok cf).

(** The states that admissible calls bring the engine to *)
Inductive engine_reach : EngineCore → Prop :=
  | er_init s : started s → engine_reach (Core.init ec s)
  | er_call e o : engine_reach e → op_ok e o → engine_reach (run_op o e).2.

Lemma engine_reach_ok e : engine_reach e → engine_ok e.
Proof.
  induction 1 as [s Hs|e o _ IH Ho].
  - split; [by apply started_ready|]. intros q. unfold Core.init. simpl.
    destruct (Z.ltb_spec 1 (ec_batch_queue_size ec)); intros [= <-]. split; [constructor|]. unfold len. simpl. lia.
  - by destruct (wp_snd _ _ _ (run_op_ok cf Hcf hasher gr Hgr set_iter Hiter ids_iter Hids ec ex Hec Hex o e IH Ho)) as [_ H].
Qed.

(** ** What holds in every state *)
Abbreviation requests e := (sc_requests (en_scheduler e)).
Abbreviation running e := (sc_running (en_scheduler e)).
Abbreviation waiting e := (Queue.items (sc_waiting (en_scheduler e))).
Abbreviation manager e := (sc_kv (en_scheduler e)).
Abbreviation pool e := (c_pool (km_coord (manager e))).
Abbreviation tables e := (c_managers (km_coord (manager e))).

Record engine_safe (e : EngineCore) : Prop := {
  (** the limit on running requests *)
  es_running : len (running e) ≤ cf_max_num_seqs cf;
  (** every request of the table runs or waits, in one place *)
  es_once : NoDup (running e ++ waiting e) ∧ running e ++ waiting e ≡ₚ (requests e).*2;
  (** a request that is not finished is not lost *)
  es_kept i r : sc_objs (en_scheduler e) !! i = Some r → status_is_finished (status r) = false →
    (request_id r, i) ∈ requests e;
  (** the batches in flight keep to the budget of tokens *)
  es_batches q b : en_batch_queue e = Some q → b ∈ q →
    so_total_num_scheduled_tokens (ba_output b) = Sched.sum_values (so_num_scheduled_tokens (ba_output b)) ∧
    so_total_num_scheduled_tokens (ba_output b) ≤ max_num_scheduled_tokens cf;
  (** blocks are counted by the tables, and the free queue holds the others *)
  es_blocks : ∃ fr, NoDup fr ∧ num_free_blocks (pool_queue (pool e)) = len fr ∧
    (∀ b, (b < nblk (pool e))%nat → b ≠ null_block (pool e) → pref (pool e) b = total_refs (tables e) b) ∧
    ∀ b, b ∈ fr ↔ (b < nblk (pool e))%nat ∧ b ≠ null_block (pool e) ∧ total_refs (tables e) b = 0;
  (** only running requests hold blocks *)
  es_owner m id : m ∈ tables e → blocks_of m id ≠ [] → ∃ i, i ∈ running e ∧ (id, i) ∈ requests e;
}.

Lemma waiting_hold_nothing s id :
  inv mml (λ _, 0) ∅ [] s → (∀ i, i ∈ sc_running s → (id, i) ∉ sc_requests s) → fresh_in (sc_kv s) id.
Proof.
  intros I Hno. destruct (decide (id ∈ (sc_requests s).*1)) as [Hq|Hq]; [|by apply (iv_fresh _ _ _ _ _ I)].
  apply list_elem_of_fmap in Hq as ([id' i] & -> & Hi). simpl in *.
  destruct (iv_obj _ _ _ _ _ I id' i Hi) as (r & Hr & <- & _).
  assert (Hin : i ∈ (sc_requests s).*2) by (apply list_elem_of_fmap; by exists (request_id r, i)).
  rewrite <- (iv_parts _ _ _ _ _ I), list_elem_of_filter in Hin. simpl in Hin.
  destruct Hin as [_ [Hrun|Hin]%elem_of_app]; [by destruct (Hno i Hrun)|].
  destruct (iv_waiting _ _ _ _ _ I i Hin) as (r' & Hr' & _ & _ & Hf); [set_solver|]. by simplify_eq.
Qed.

Lemma engine_ok_safe e : engine_ok e → engine_safe e.
Proof.
  intros [[I Hp Hl] Hq]. pose proof (iv_good _ _ _ _ _ I) as [(fr & Hk) _ _ _ _ _ Hne]. split.
  - done.
  - pose proof (iv_nodup _ _ _ _ _ I) as Hnd. pose proof (iv_parts _ _ _ _ _ I) as Hparts. simpl in *.
    split; [done|]. rewrite <- Hparts. rewrite filter_id; [done|]. set_solver.
  - apply (iv_alive _ _ _ _ _ I).
  - intros q b Eq Hb. destruct (Hq q Eq) as [Hall _]. rewrite Forall_forall in Hall. destruct (Hall b Hb) as [[] _]. done.
  - pose proof (ki_sys _ _ Hk) as [Hpool _ _]. exists fr.
    pose proof (λ b, kv_refs _ _ b Hk Hne) as Hrefs.
    split_and!; [by eapply pool_inv_NoDup|by apply pool_inv_free|done|].
    intros b. rewrite (di_free _ _ _ _ _ (pi_data _ _ Hpool)).
    split; intros (H1 & H2 & H3); (split_and!; [done|done|]); [rewrite <- Hrefs|rewrite Hrefs]; done.
  - intros m id Hm Hb. destruct (decide (Exists (λ i, (id, i) ∈ requests e) (running e))) as [Hx|Hx].
    + by apply Exists_exists in Hx.
    + exfalso. apply Hb. rewrite Exists_exists in Hx.
      assert (Hfresh : fresh_in (manager e) id) by (apply waiting_hold_nothing; [done|]; intros i Hi Hin; apply Hx; by exists i).
      unfold fresh_in in Hfresh. rewrite Forall_forall in Hfresh. by apply Hfresh.
Qed.

(** C1. Plain configuration (below): the engine, its scheduler and its KV-cache
    manager, from their construction on, after any sequence of calls (new
    requests, aborts, steps with or without batches in flight, pauses, resets):
    at most [max_num_seqs] requests run; each request of the table runs or
    waits, in one place; an unfinished request is in the table; no batch in
    flight exceeds the budget of tokens; reference counts are the mentions in
    the tables, the free queue holds exactly the other blocks; only running
    requests hold blocks; no call that may come next raises. Plain: no
    asynchronous scheduling, KV connector, LoRA, speculation or context
    parallelism; groups of full attention (of one specification) and sliding
    windows, no Mamba; text requests without grammar, session or pooling, whose
    prompt is shorter than the model's length and with [min_tokens] not longer;
    collision-free hashes of one length, other than [NONE_HASH]; an executor
    answering every scheduled request; pausing by keep or abort. *)
Theorem engine_reach_safe e :
  engine_reach e →
  engine_safe e ∧ ∀ o, op_ok e o → ∃ e', run_op o e = (Ok tt, e').
Proof.
  intros He%engine_reach_ok. split; [by apply engine_ok_safe|]. intros o Ho.
  destruct (wp_elim _ _ _ (run_op_ok cf Hcf hasher gr Hgr set_iter Hiter ids_iter Hids ec ex Hec Hex o e He Ho))
    as ([] & e' & E & _). by exists e'.
Qed.

Lemma nothing_runs_all_free e :
  engine_ok e → requests e = [] → running e = [] ∧ waiting e = [] ∧
  num_free_blocks (pool_queue (pool e)) = num_gpu_blocks (pool e) - 1.
Proof.
  intros [[I Hp Hl] Hq] Ereq. pose proof (iv_good _ _ _ _ _ I) as [(fr & Hk) _ _ _ _ _ Hne].
  pose proof (iv_parts _ _ _ _ _ I) as Hparts. simpl in Hparts.
  rewrite filter_id, Ereq in Hparts by set_solver. apply Permutation_nil_r, app_eq_nil in Hparts as [Er Ew].
  split_and!; [done|done|]. pose proof (si_pool _ _ (ki_sys _ _ Hk)) as Hpool.
  rewrite (pool_inv_free _ _ Hpool). apply (all_free_iff _ _ Hpool). intros a.
  apply (unused_free _ fr a Hk). split; [done|]. intros q.
  eapply Forall_impl; [apply (waiting_hold_nothing _ q I)|by intros m [_ ?]]. rewrite Er. by intros i ?%elem_of_nil.
Qed.

(** C6. Under the restrictions of [engine_reach_safe] (among them: no KV connector,
    which could delay the release of blocks; no asynchronous scheduling; groups of
    full attention and sliding windows only; text requests): pausing with the mode
    "abort" succeeds in every state that the engine reaches, with or without
    clearing the caches; afterwards no request is left in the table, running or
    waiting, the scheduler is paused, and all blocks but the null block are free. *)
Theorem pause_abort_frees_all e clear :
  engine_reach e →
  ∃ e', Core.pause_scheduler None set_iter ids_iter "abort" clear e = (Ok tt, e') ∧
    requests e' = [] ∧ running e' = [] ∧ waiting e' = [] ∧ Core.is_scheduler_paused e' = true ∧
    num_free_blocks (pool_queue (pool e')) = num_gpu_blocks (pool e') - 1.
Proof.
  intros He%engine_reach_ok.
  destruct (wp_elim _ _ _ (pause_scheduler_ok cf Hcf hasher gr Hgr set_iter Hiter ids_iter Hids ec "abort" clear e He
    (or_intror eq_refl))) as ([] & e' & E & He' & Ereq & Ep). exists e'.
  destruct (nothing_runs_all_free e' He' Ereq) as (Er & Ew & Hfree). split_and!; try done.
  unfold Core.is_scheduler_paused. by rewrite Ep.
Qed.
End engine_runs.

(** ** A request of a client *)

(** A text request, as the constructor builds it, may be added. *)
Lemma text_request_ok hash_function NONE_HASH mml hbs rid ci prio at_ pid ids sp lora salt mt st :
  0 < hbs → init_limits (Some sp) None = Ok (mt, st) → sp_structured sp = false →
  1 ≤ len ids < mml → len ids + sp_min_tokens sp ≤ mml →
  ∃ r, Request_init rid ci prio at_ pid (Some ids) None (Some sp) None None lora salt
         (Some (request_block_hasher hash_function NONE_HASH hbs)) false = Ok r ∧
    @req_inv (manager_state hash_function NONE_HASH mml hbs) mml r ∧
    request_id r = rid ∧ status r = WAITING ∧ num_computed_tokens r = 0.
Proof.
  intros Hhbs Hlim Hgr Hlen Hmin.
  assert (Est : st = WAITING).
  { revert Hlim. unfold init_limits. destruct (sp_max_tokens sp); [|done]. rewrite Hgr. by intros [= _ <-]. }
  destruct (request_init_spec hash_function NONE_HASH hbs rid ci prio at_ pid (Some ids) None (Some sp) None None lora
    salt false mt st (len ids)) as (r & m & E & Hh & Hm & Er); [done| |done|done|].
  { split; [set_solver|]. intros i j f g _ Hf. done. }
  exists r. split; [done|]. assert (Ht : hashed_text hash_function NONE_HASH hbs r) by (split; [done|done|by rewrite Er]).
  rewrite Er. split; [|by subst st]. rewrite Er in Ht.
  split; simpl; try done; try lia.
  - by exists sp.
  - unfold num_tokens, num_output_tokens. simpl. unfold len. simpl. lia.
  - unfold num_tokens. simpl. lia.
  - by subst st.
Qed.

(** ** A run *)

(** Two requests at most, steps of at most 8 tokens; prompts of 10 and 3 tokens. *)
Definition demo_run_conf : Config := demo_conf FCFS 2 8 64 1 None.
Definition demo_hasher : option block_hasher := Some (request_block_hasher demo_hash demo_none 4).
Definition demo_engine_conf : EngineConfig := mkEngineConfig 2 true false false.

(** An executor that samples the token 7 for every scheduled request. *)
Definition demo_answer (out : SchedulerOutput) : ModelRunnerOutput :=
  let num := so_num_scheduled_tokens out in
  mkMRO (zip num.*1 (seqZ 0 (len num))) ((λ _, [7]) <$> num) [] None.
Definition demo_executor : Executor :=
  mkExecutor (λ _ out, Some (demo_answer out)) (λ _ out _, Some (demo_answer out)) (λ _, None) (λ _, true).

Lemma dict_get_zip (l : list string) k id :
  id ∈ l → ∃ j, dict_get id (zip l (seqZ k (len l))) = Some j ∧ k ≤ j < k + len l.
Proof.
  revert k. induction l as [|x l IH]; intros k; [by intros ?%elem_of_nil|]. intros Hid.
  assert (El : len (x :: l) = Z.succ (len l)) by (simpl; lia).
  assert (0 ≤ len l) by (lia).
  rewrite El, seqZ_cons, Z.pred_succ by lia. cbn [zip zip_with dict_get].
  case_decide as Hx; [exists k; split; [done|lia]|].
  apply elem_of_cons in Hid as [?|Hid]; [congruence|]. destruct (IH (Z.succ k) Hid) as (j & Hj & Hb).
  exists j. split; [exact Hj|lia].
Qed.

Lemma demo_answer_ok out : mro_ok (so_num_scheduled_tokens out) (demo_answer out).
Proof.
  split; [|done]. intros id Hid. unfold demo_answer. simpl.
  destruct (dict_get_zip (so_num_scheduled_tokens out).*1 0 id Hid) as (j & Hj & Hb).
  rewrite length_fmap in Hj, Hb. exists j. split; [done|]. split; [lia|].
  split; [|by left]. right. rewrite length_fmap. lia.
Qed.

Lemma demo_executor_ok : executor_ok demo_engine_conf demo_executor.
Proof.
  split; intros; simpl in *; simplify_eq; try apply demo_answer_ok; by eexists.
Qed.

Definition demo_scheduler : Scheduler :=
  match Update.init demo_run_conf "fcfs" demo_config (Some 11) (Some 4) true false false false 1 1 None false with
  | Ok (_, s) => s
  | Raise _ => demo_empty
  end.

Definition demo_request (rid : string) (oid : Z) (n : nat) : Request :=
  match Request_init rid 0 0 0 oid (Some (seqZ 0 (Z.of_nat n))) None (demo_sampling 4 0) None None None None demo_hasher false with
  | Ok r => r
  | Raise _ => demo_new rid n 0 0 oid None None None false
  end.

(** The first request is chunked over two batches; the second batch, which the
    second request joins, is in flight. *)
Definition demo_ops : list Core.engine_op :=
  [Core.EAdd 1 (demo_request "a" 1 10) false; Core.EAdd 2 (demo_request "b" 2 3) false; Core.EStep [];
   Core.EStep []].
Definition demo_run_engine (ops : list Core.engine_op) : EngineCore :=
  foldl (λ e o, (Core.run_op demo_run_conf None demo_grammar demo_hasher elements elements demo_engine_conf
    demo_executor o e).2) (Core.init demo_engine_conf demo_scheduler) ops.

Lemma demo_plain : plain_config demo_config 4.
Proof.
  split; try done; try lia.
  - intros g [->|[->|[]%elem_of_nil]%elem_of_cons]%elem_of_cons; done.
  - intros g [->|[->|[]%elem_of_nil]%elem_of_cons]%elem_of_cons; done.
  - intros g g' [->|[->|[]%elem_of_nil]%elem_of_cons]%elem_of_cons [->|[->|[]%elem_of_nil]%elem_of_cons]%elem_of_cons; done.
Qed.

Lemma demo_started : started demo_run_conf 4 demo_scheduler.
Proof.
  exists demo_run_conf, "fcfs"%string, demo_config, (Some 11), (Some 4), true, false, false, false, None, false.
  split_and!; [exact demo_plain|done|done|vm_compute; reflexivity].
Qed.

Definition demo_reach : EngineCore → Prop :=
  engine_reach demo_hash demo_none demo_run_conf 4 demo_grammar elements elements demo_engine_conf demo_executor.
Abbreviation demo_op_ok :=
  (@op_ok demo_run_conf (manager_state demo_hash demo_none 64 4)).

Lemma demo_request_spec rid oid n :
  1 ≤ Z.of_nat n < 64 →
  @req_inv (manager_state demo_hash demo_none 64 4) 64 (demo_request rid oid n) ∧
  request_id (demo_request rid oid n) = rid ∧ status (demo_request rid oid n) = WAITING ∧
  num_computed_tokens (demo_request rid oid n) = 0.
Proof.
  intros Hn. destruct (text_request_ok demo_hash demo_none 64 4 rid 0 0 0 oid (seqZ 0 (Z.of_nat n))
    (mkSampling (Some 4) false None 0 (Some 0) None None) None None 4 WAITING) as (r & E & H);
    [done|done|done|rewrite length_seqZ; lia|rewrite length_seqZ; simpl; lia|].
  unfold demo_request, demo_hasher, demo_sampling. rewrite E. exact H.
Qed.

Lemma demo_add_ok ops rid oid n :
  1 ≤ Z.of_nat n < 64 → rid ∉ (sc_requests (en_scheduler (demo_run_engine ops))).*1 →
  sc_objs (en_scheduler (demo_run_engine ops)) !! oid = None →
  demo_op_ok (demo_run_engine ops) (Core.EAdd oid (demo_request rid oid n) false).
Proof. intros Hn Hr Ho. destruct (demo_request_spec rid oid n Hn) as (H1 & H2 & H3). simpl. by rewrite H2. Qed.

Lemma demo_reach_step ops o :
  demo_reach (demo_run_engine ops) → demo_op_ok (demo_run_engine ops) o →
  demo_reach (demo_run_engine (ops ++ [o])).
Proof. intros Hr Ho. unfold demo_run_engine. rewrite foldl_app. by apply er_call. Qed.

Lemma demo_reached : demo_reach (demo_run_engine demo_ops).
Proof.
  assert (H0 : demo_reach (demo_run_engine [])) by apply er_init, demo_started.
  apply (demo_reach_step [] (Core.EAdd 1 (demo_request "a" 1 10) false)) in H0.
  2: { apply demo_add_ok; [lia|by intros ?%elem_of_nil|vm_compute; reflexivity]. }
  apply (demo_reach_step _ (Core.EAdd 2 (demo_request "b" 2 3) false)) in H0.
  2: { apply demo_add_ok; [lia|vm_compute; set_solver|vm_compute; reflexivity]. }
  apply (demo_reach_step _ (Core.EStep [])) in H0; [|done].
  apply (demo_reach_step _ (Core.EStep [])) in H0; [|done]. exact H0.
Qed.

Lemma demo_basic : basic_config demo_run_conf.
Proof. by split. Qed.

Lemma engine_reach_safe_witness :
  (sc_running (en_scheduler (demo_run_engine demo_ops)),
   (λ b, so_num_scheduled_tokens (ba_output b)) <$> default [] (en_batch_queue (demo_run_engine demo_ops))) =
    ([1; 2], [[("a"%string, 2); ("b"%string, 3)]]) ∧
  engine_safe demo_run_conf (demo_run_engine demo_ops) ∧
  ∀ o, demo_op_ok (demo_run_engine demo_ops) o →
    ∃ e', Core.run_op demo_run_conf None demo_grammar demo_hasher elements elements demo_engine_conf demo_executor
      o (demo_run_engine demo_ops) = (Ok tt, e').
Proof.
  split; [vm_compute; reflexivity|].
  apply (engine_reach_safe demo_hash demo_none demo_hash_inj (λ x, ltac:(discriminate)) 1 (λ x, eq_refl) Nat.lt_0_1
    demo_run_conf demo_basic 4 eq_refl demo_grammar (λ r _, eq_refl) elements (λ X, Permutation_refl _)
    elements (λ X, Permutation_refl _) demo_engine_conf demo_executor eq_refl demo_executor_ok).
  exact demo_reached.
Defined.

Lemma pause_abort_frees_all_witness :
  ∃ e', Core.pause_scheduler None elements elements "abort" true (demo_run_engine demo_ops) = (Ok tt, e') ∧
    sc_requests (en_scheduler e') = [] ∧ sc_running (en_scheduler e') = [] ∧
    Queue.items (sc_waiting (en_scheduler e')) = [] ∧ Core.is_scheduler_paused e' = true ∧
    num_free_blocks (pool_queue (c_pool (km_coord (sc_kv (en_scheduler e'))))) =
      num_gpu_blocks (c_pool (km_coord (sc_kv (en_scheduler e')))) - 1.
Proof.
  apply (pause_abort_frees_all demo_hash demo_none demo_hash_inj (λ x, ltac:(discriminate)) 1 (λ x, eq_refl) Nat.lt_0_1
    demo_run_conf demo_basic 4 eq_refl demo_grammar (λ r _, eq_refl) elements (λ X, Permutation_refl _)
    elements (λ X, Permutation_refl _) demo_engine_conf demo_executor eq_refl demo_executor_ok).
  exact demo_reached.
Defined.
