(* ===== verification/Ngram.v ===== *)
(** * The n-gram proposer

    [NgramProposer] of [vllm/v1/spec_decode/ngram_proposer.py]: draft tokens are what
    followed an earlier occurrence of the last tokens.  The search is a variant of
    the prefix function of Knuth, Morris and Pratt on the reversed tokens, with the
    table cut at [max_ngram]; it is shown equal to a plain search for the longest
    n-gram and its first occurrence.  Threads are left out (each request writes its
    own row); the loops are in the order of the request indices. *)
From S2P Require Import Prelude.

(** ** The search *)

(** The variables of the loop *)
Record LpsState := mkLps {
  ls_lps : list Z;
  ls_longest_ngram : Z;
  ls_position : Z;
  ls_prev_lps : Z;
  ls_i : Z;
}.

Definition arr_get {A} (l : list A) (i : Z) : res A :=
  match py_get l i with Some x => Ok x | None => Raise IndexError end.
Definition arr_set {A} (l : list A) (i : Z) (v : A) : res (list A) :=
  match py_set l i v with Some l' => Ok l' | None => Raise IndexError end.

(** A turn of the loop *)
Definition lps_step (tokens : list Z) (max_ngram : Z) (s : LpsState) : res LpsState :=
  let i := ls_i s in
  a ← arr_get tokens (ls_prev_lps s);
  b ← arr_get tokens i;
  if a =? b then
    let prev_lps := ls_prev_lps s + 1 in
    let '(longest_ngram, position) :=
      if ls_longest_ngram s <=? prev_lps then (prev_lps, i) else (ls_longest_ngram s, ls_position s) in
    lps ← (if i <? max_ngram then arr_set (ls_lps s) i prev_lps else Ok (ls_lps s));
    prev_lps ← (if prev_lps =? max_ngram then arr_get lps (max_ngram - 1) else Ok prev_lps);
    Ok (mkLps lps longest_ngram position prev_lps (i + 1))
  else if negb (ls_prev_lps s =? 0) then
    prev_lps ← arr_get (ls_lps s) (ls_prev_lps s - 1);
    Ok (mkLps (ls_lps s) (ls_longest_ngram s) (ls_position s) prev_lps i)
  else Ok (mkLps (ls_lps s) (ls_longest_ngram s) (ls_position s) (ls_prev_lps s) (i + 1)).

Fixpoint lps_loop (fuel : nat) (tokens : list Z) (total_token max_ngram : Z) (s : LpsState) : res LpsState :=
  match fuel with
  | O => Raise OutOfFuel
  | S fuel =>
      if ls_i s <? total_token
      then s' ← lps_step tokens max_ngram s; lps_loop fuel tokens total_token max_ngram s'
      else Ok s
  end.

Definition _find_longest_matched_ngram_and_propose_tokens (origin_tokens : list Z)
    (min_ngram max_ngram max_model_len k : Z) : res (list Z) :=
  let total_token := len origin_tokens in
  if total_token <? min_ngram then Ok []
  else
    let k := Z.min k (max_model_len - total_token) in
    if k <=? 0 then Ok []
    else
      let tokens := reverse origin_tokens in
      let lps := replicate (Z.to_nat max_ngram) 0 in
      s ← lps_loop (S (2 * length origin_tokens)) tokens total_token max_ngram (mkLps lps 0 0 0 1);
      if ls_longest_ngram s <? min_ngram then Ok []
      else
        let start_position := total_token - 1 - ls_position s + ls_longest_ngram s in
        let k := Z.min k (total_token - start_position) in
        Ok (py_slice origin_tokens start_position (start_position + k)).

(** ** Reading and writing in range *)
Lemma arr_get_nat {A} (l : list A) i : arr_get l (Z.of_nat i) = match l !! i with Some x => Ok x | None => Raise IndexError end.
Proof. unfold arr_get, py_get. rewrite (proj2 (Z.ltb_ge (Z.of_nat i) 0)) by lia. cbv zeta. rewrite (proj2 (Z.ltb_ge (Z.of_nat i) 0)) by lia. by rewrite Nat2Z.id. Qed.

Lemma arr_set_nat {A} (l : list A) i v : (i < length l)%nat → arr_set l (Z.of_nat i) v = Ok (<[i := v]> l).
Proof.
  intros Hi. unfold arr_set, py_set. rewrite (proj2 (Z.ltb_ge (Z.of_nat i) 0)) by lia. cbv zeta.
  rewrite (proj2 (Z.leb_le 0 (Z.of_nat i))), (proj2 (Z.ltb_lt (Z.of_nat i) (len l))) by lia. simpl. by rewrite Nat2Z.id.
Qed.
Lemma wp_array {S A} (r : res A) (Q : A → S → Prop) s a : r = Ok a → Q a s → wp (of_res r) Q s.
Proof. by intros ->. Qed.

(** ** Borders

    A border of length [v] of the first [m] tokens: they start and end with the
    same [v] tokens. *)
Section borders.
Context (t : list Z).

Definition border (m v : nat) : Prop := (v < m)%nat ∧ ∀ j, (j < v)%nat → t !! j = t !! (m - v + j)%nat.

Lemma border_0 m : (0 < m)%nat → border m 0.
Proof. intros Hm. split; [done|intros j Hj; lia]. Qed.

Lemma border_S m v : border (S m) (S v) ↔ border m v ∧ t !! v = t !! m.
Proof.
  split.
  - intros [Hlt Hb]. split; [split; [lia|]|].
    + intros j Hj. rewrite (Hb j) by lia. f_equal; lia.
    + rewrite (Hb v) by lia. f_equal; lia.
  - intros [[Hlt Hb] He]. split; [lia|]. intros j Hj. destruct (decide (j = v)) as [->|].
    + rewrite He. f_equal; lia.
    + rewrite (Hb j) by lia. f_equal; lia.
Qed.

Lemma border_trans m w v : border m w → border w v → border m v.
Proof.
  intros [H1 Hw] [H2 Hv]. split; [lia|]. intros j Hj. rewrite (Hv j Hj), (Hw (w - v + j)%nat) by lia. f_equal; lia.
Qed.

Lemma border_inside m w v : border m w → border m v → (v < w)%nat → border w v.
Proof.
  intros [H1 Hw] [H2 Hv] Hlt. split; [done|]. intros j Hj. rewrite (Hv j Hj), (Hw (w - v + j)%nat) by lia. f_equal; lia.
Qed.

Definition longest_border (m v : nat) : Prop := border m v ∧ ∀ w, border m w → (w ≤ v)%nat.

(** *** The invariant of the loop *)
Section loop.
Context (n mx : nat) (Hn : length t = n) (Hmx : (1 ≤ mx)%nat).

(** No border longer than [p], below the cap, can be extended. *)
Record lps_inv (s : LpsState) (i p l q : nat) : Prop := {
  li_i : ls_i s = Z.of_nat i;
  li_p : ls_prev_lps s = Z.of_nat p;
  li_l : ls_longest_ngram s = Z.of_nat l;
  li_q : ls_position s = Z.of_nat q;
  li_range : (1 ≤ i ≤ n)%nat;
  li_border : border i p;
  li_cap : (p < mx)%nat;
  li_longer v : (p < v < mx)%nat → border i v → t !! v ≠ t !! i;
  li_len : length (ls_lps s) = mx;
  li_lps j : (j < i)%nat → (j < mx)%nat →
    ∃ v, ls_lps s !! j = Some (Z.of_nat v) ∧ longest_border (S j) v;
  li_zero j : (i ≤ j < mx)%nat → ls_lps s !! j = Some 0;
  li_max j v : (j < i)%nat → (v ≤ mx)%nat → border (S j) v → (v ≤ l)%nat;
  li_found : l = 0%nat ∨ (q < i)%nat ∧ (l ≤ mx)%nat ∧ border (S q) l;
  li_latest j : (0 < l)%nat → (j < i)%nat → border (S j) l → (j ≤ q)%nat;
}.

(** The border found is the longest that the cap allows. *)
Lemma extended_max s i p l q :
  lps_inv s i p l q → t !! p = t !! i →
  border (S i) (S p) ∧ ∀ v, (v ≤ mx)%nat → border (S i) v → (v ≤ S p)%nat.
Proof.
  intros I E. split; [apply border_S; split; [apply I|done]|].
  intros [|v] Hv Hb; [lia|]. apply border_S in Hb as [Hb Et].
  destruct (decide (p < v)%nat); [|lia]. destruct (li_longer _ _ _ _ _ I v); [lia|done|done].
Qed.

Lemma update_found s i p l q :
  lps_inv s i p l q → t !! p = t !! i →
  let '(l', q') := if (l <=? S p)%nat then (S p, i) else (l, q) in
  (∀ j v, (j < S i)%nat → (v ≤ mx)%nat → border (S j) v → (v ≤ l')%nat) ∧
  ((q' < S i)%nat ∧ (l' ≤ mx)%nat ∧ border (S q') l') ∧
  ∀ j, (0 < l')%nat → (j < S i)%nat → border (S j) l' → (j ≤ q')%nat.
Proof.
  intros I E. destruct (extended_max _ _ _ _ _ I E) as [Hb Hm]. pose proof (li_cap _ _ _ _ _ I) as Hcap.
  destruct (Nat.leb_spec l (S p)) as [Hle|Hlt].
  - split_and!; try done; [|lia|lia]. intros j v Hj Hv Hbv.
    destruct (decide (j = i)) as [->|]; [by apply Hm|].
    pose proof (li_max _ _ _ _ _ I j v ltac:(lia) Hv Hbv). lia.
  - destruct (li_found _ _ _ _ _ I) as [?|(Hq & Hl & Hbq)]; [lia|]. split_and!; try done; [|lia|].
    + intros j v Hj Hv Hbv. destruct (decide (j = i)) as [->|]; [pose proof (Hm v Hv Hbv); lia|].
      apply (li_max _ _ _ _ _ I j v); [lia|done|done].
    + intros j Hl0 Hj Hbj. destruct (decide (j = i)) as [->|]; [pose proof (Hm l Hl Hbj); lia|].
      apply (li_latest _ _ _ _ _ I); [done|lia|done].
Qed.

Lemma stored s i p l q v :
  lps_inv s i p l q → ((i < mx)%nat → longest_border (S i) v ∧ ls_lps s !! i = Some (Z.of_nat v)) →
  ∀ j, (j < S i)%nat → (j < mx)%nat → ∃ v, ls_lps s !! j = Some (Z.of_nat v) ∧ longest_border (S j) v.
Proof.
  intros I Hs j Hj Hjm. destruct (decide (j = i)) as [->|]; [destruct (Hs Hjm); by exists v|].
  apply (li_lps _ _ _ _ _ I); lia.
Qed.

(** The borders below the cap, when the border found reaches it. *)
Lemma cap_border s i p l q :
  lps_inv s i p l q → t !! p = t !! i → S p = mx → (mx ≤ i)%nat ∧
  ∃ v, ls_lps s !! (mx - 1)%nat = Some (Z.of_nat v) ∧ (v < mx)%nat ∧ border (S i) v ∧
    ∀ w, (v < w < mx)%nat → ¬ border (S i) w.
Proof.
  intros I E Ecap. pose proof (li_border _ _ _ _ _ I) as [Hpi _]. split; [lia|].
  destruct (li_lps _ _ _ _ _ I (mx - 1)%nat) as (v & Hv & [Hb Hlong]); [lia|lia|].
  replace (S (mx - 1)) with mx in * by lia. destruct (extended_max _ _ _ _ _ I E) as [Hx _]. rewrite Ecap in Hx.
  exists v. split_and!; [done|by destruct Hb|by eapply border_trans|].
  intros w Hw Hbw. pose proof (Hlong w (border_inside _ _ _ Hx Hbw ltac:(lia))). lia.
Qed.

(** A turn on a match *)
Lemma match_step s i p l q a :
  lps_inv s i p l q → (i < n)%nat → t !! p = Some a → t !! i = Some a →
  ∃ s' p' l' q', lps_step t (Z.of_nat mx) s = Ok s' ∧ lps_inv s' (S i) p' l' q' ∧ (p' ≤ S p)%nat.
Proof.
  intros I Hi Hp Ha. assert (E : t !! p = t !! i) by congruence. unfold lps_step.
  rewrite (li_i _ _ _ _ _ I), (li_p _ _ _ _ _ I), (li_l _ _ _ _ _ I), !arr_get_nat, Hp, Ha. cbn [mbind res_bind].
  rewrite Z.eqb_refl. pose proof (update_found _ _ _ _ _ I E) as Hu. destruct (extended_max _ _ _ _ _ I E) as [Hb Hm].
  pose proof (li_cap _ _ _ _ _ I) as Hcap. pose proof (li_range _ _ _ _ _ I) as Hrange.
  pose proof (li_len _ _ _ _ _ I) as Hlen. pose proof (li_border _ _ _ _ _ I) as [Hpi _].
  replace (Z.of_nat p + 1) with (Z.of_nat (S p)) by lia.
  replace (Z.of_nat l <=? Z.of_nat (S p)) with (l <=? S p)%nat
    by (destruct (Nat.leb_spec l (S p)), (Z.leb_spec (Z.of_nat l) (Z.of_nat (S p))); lia || done).
  set (l' := if (l <=? S p)%nat then S p else l). set (q' := if (l <=? S p)%nat then i else q).
  replace (if (l <=? S p)%nat then (Z.of_nat (S p), Z.of_nat i) else (Z.of_nat l, ls_position s))
    with (Z.of_nat l', Z.of_nat q') by (unfold l', q'; rewrite (li_q _ _ _ _ _ I); by destruct (l <=? S p)%nat).
  replace (if (l <=? S p)%nat then (S p, i) else (l, q)) with (l', q') in Hu
    by (unfold l', q'; by destruct (l <=? S p)%nat).
  destruct Hu as (Hmax & Hfound & Hlatest).
  set (lps' := if (i <? mx)%nat then <[i := Z.of_nat (S p)]> (ls_lps s) else ls_lps s).
  assert (Eset : (if Z.of_nat i <? Z.of_nat mx then arr_set (ls_lps s) (Z.of_nat i) (Z.of_nat (S p)) else Ok (ls_lps s)) = Ok lps').
  { unfold lps'. destruct (Nat.ltb_spec i mx), (Z.ltb_spec (Z.of_nat i) (Z.of_nat mx)); try lia; [|done].
    apply arr_set_nat. lia. }
  rewrite Eset. cbn [mbind res_bind].
  assert (Hlps : ∀ j, (j < S i)%nat → (j < mx)%nat → ∃ v, lps' !! j = Some (Z.of_nat v) ∧ longest_border (S j) v).
  { intros j Hj Hjm. unfold lps'. destruct (Nat.ltb_spec i mx) as [Him|].
    - destruct (decide (j = i)) as [->|].
      + exists (S p). split; [apply list_lookup_insert_eq; lia|]. split; [done|]. intros w Hw. apply Hm; [|done].
        destruct Hw. lia.
      + rewrite list_lookup_insert_ne by done. apply (li_lps _ _ _ _ _ I); lia.
    - apply (li_lps _ _ _ _ _ I); lia. }
  assert (Hrest : length lps' = mx ∧ ∀ j, (S i ≤ j < mx)%nat → lps' !! j = Some 0).
  { unfold lps'. destruct (Nat.ltb_spec i mx); [rewrite length_insert|]; (split; [done|]); intros j Hj;
      [rewrite list_lookup_insert_ne by lia|]; apply (li_zero _ _ _ _ _ I); lia. }
  destruct Hrest as [Hlen' Hzero].
  destruct (Z.eqb_spec (Z.of_nat (S p)) (Z.of_nat mx)) as [Ec|Ec].
  - assert (Ecap : S p = mx) by lia. destruct (cap_border _ _ _ _ _ I E Ecap) as (Hmi & v & Hv & Hvm & Hbv & Hno).
    replace (Z.of_nat mx - 1) with (Z.of_nat (mx - 1)) by lia. rewrite arr_get_nat.
    assert (El : lps' = ls_lps s) by (unfold lps'; destruct (Nat.ltb_spec i mx); [lia|done]).
    rewrite El, Hv. cbn [mbind res_bind]. rewrite <- El.
    eexists _, v, l', q'. split; [done|]. split; [|lia]. split; simpl; try done; try lia.
    + intros w Hw Hbw. by destruct (Hno w Hw).
    + right. destruct Hfound as (? & ? & ?). split_and!; [lia|done|done].
  - cbn [mbind res_bind]. eexists _, (S p), l', q'. split; [done|]. split; [|lia]. split; simpl; try done; try lia.
    + intros w Hw Hbw. pose proof (Hm w ltac:(lia) Hbw). lia.
    + right. destruct Hfound as (? & ? & ?). split_and!; [lia|done|done].
Qed.

(** A turn on a mismatch, with a shorter border left *)
Lemma fallback_step s i p l q a b :
  lps_inv s i p l q → (i < n)%nat → t !! p = Some a → t !! i = Some b → a ≠ b → p ≠ 0%nat →
  ∃ s' p', lps_step t (Z.of_nat mx) s = Ok s' ∧ lps_inv s' i p' l q ∧ (p' < p)%nat.
Proof.
  intros I Hi Hp Hb Hab Hp0. unfold lps_step.
  rewrite (li_i _ _ _ _ _ I), (li_p _ _ _ _ _ I), !arr_get_nat, Hp, Hb. cbn [mbind res_bind].
  rewrite (proj2 (Z.eqb_neq a b)), (proj2 (Z.eqb_neq (Z.of_nat p) 0)) by (done || lia). cbn [negb].
  pose proof (li_border _ _ _ _ _ I) as Hbp. pose proof (li_cap _ _ _ _ _ I) as Hcap.
  destruct (li_lps _ _ _ _ _ I (p - 1)%nat) as (v & Hv & [Hbv Hlong]); [destruct Hbp; lia|lia|].
  replace (S (p - 1)) with p in * by lia. replace (Z.of_nat p - 1) with (Z.of_nat (p - 1)) by lia.
  rewrite arr_get_nat, Hv. cbn [mbind res_bind]. eexists _, v. split; [done|].
  assert (Hvp : (v < p)%nat) by (by destruct Hbv). split; [|done].
  destruct I. split; simpl; try done; [by eapply border_trans|lia|].
  intros w Hw Hbw. destruct (Nat.lt_trichotomy w p) as [Hlt|[->|Hgt]]; [|rewrite Hp, Hb; congruence|by apply li_longer0; [lia|]].
  pose proof (Hlong w (border_inside _ _ _ Hbp Hbw Hlt)). lia.
Qed.

(** A turn on a mismatch, with no border left *)
Lemma mismatch_step s i l q a b :
  lps_inv s i 0 l q → (i < n)%nat → t !! 0%nat = Some a → t !! i = Some b → a ≠ b →
  ∃ s', lps_step t (Z.of_nat mx) s = Ok s' ∧ lps_inv s' (S i) 0 l q.
Proof.
  intros I Hi Hp Hb Hab. unfold lps_step.
  rewrite (li_i _ _ _ _ _ I), (li_p _ _ _ _ _ I), !arr_get_nat, Hp, Hb. cbn [mbind res_bind].
  rewrite (proj2 (Z.eqb_neq a b)) by done. cbn [negb Z.eqb Z.of_nat]. eexists. split; [done|].
  assert (Hnone : ∀ v, (v ≤ mx)%nat → border (S i) v → v = 0%nat).
  { intros [|v] Hv Hbv; [done|]. apply border_S in Hbv as [Hbv Et]. exfalso.
    destruct v as [|v]; [rewrite Hp, Hb in Et; congruence|]. by apply (li_longer _ _ _ _ _ I (S v)); [lia|..]. }
  pose proof (li_range _ _ _ _ _ I) as Hrange. pose proof (stored _ _ _ _ _ 0 I) as Hst.
  destruct I. split; simpl; try done; try lia.
  - by apply border_0; lia.
  - intros v Hv Hbv. rewrite (Hnone v) in Hv by (lia || done). lia.
  - apply Hst. intros Him. split; [|apply li_zero0; lia]. split; [apply border_0; lia|].
    intros w Hw. pose proof (proj1 Hw). rewrite (Hnone w) by (done || lia). lia.
  - intros j Hj. apply li_zero0. lia.
  - intros j v Hj Hv Hbv. destruct (decide (j = i)) as [->|]; [rewrite (Hnone v) by done; lia|]. apply (li_max0 j v); [lia|done..].
  - destruct li_found0 as [?|(? & ? & ?)]; [by left|right; split_and!; [lia|done|done]].
  - intros j Hl Hj Hbj. destruct (decide (j = i)) as [->|]; [|apply li_latest0; [done|lia|done]].
    destruct li_found0 as [?|(_ & Hlm & _)]; [lia|]. rewrite (Hnone l) in Hl by done. lia.
Qed.
Lemma lps_step_ok s i p l q :
  lps_inv s i p l q → (i < n)%nat →
  ∃ s' i' p' l' q', lps_step t (Z.of_nat mx) s = Ok s' ∧ lps_inv s' i' p' l' q' ∧
    (2 * (n - i') + p' < 2 * (n - i) + p)%nat.
Proof.
  intros I Hi. destruct (lookup_lt_is_Some_2 t i) as [b Hb]; [lia|].
  pose proof (li_border _ _ _ _ _ I) as [Hpi _]. destruct (lookup_lt_is_Some_2 t p) as [a Ha]; [lia|].
  destruct (decide (a = b)) as [->|Hab].
  - destruct (match_step _ _ _ _ _ _ I Hi Ha Hb) as (s' & p' & l' & q' & E & I' & Hp').
    exists s', (S i), p', l', q'. split_and!; [done|done|lia].
  - destruct (decide (p = 0%nat)) as [->|Hp0].
    + destruct (mismatch_step _ _ _ _ _ _ I Hi Ha Hb Hab) as (s' & E & I').
      exists s', (S i), 0%nat, l, q. split_and!; [done|done|lia].
    + destruct (fallback_step _ _ _ _ _ _ _ I Hi Ha Hb Hab Hp0) as (s' & p' & E & I' & Hp').
      exists s', i, p', l, q. split_and!; [done|done|lia].
Qed.

(** The loop ends within twice the number of tokens. *)
Lemma lps_loop_ok fuel s i p l q :
  lps_inv s i p l q → (2 * (n - i) + p < fuel)%nat →
  ∃ s' p' l' q', lps_loop fuel t (Z.of_nat n) (Z.of_nat mx) s = Ok s' ∧ lps_inv s' n p' l' q'.
Proof.
  revert s i p l q. induction fuel as [|fuel IH]; intros s i p l q I Hf; [lia|]. simpl.
  rewrite (li_i _ _ _ _ _ I). pose proof (li_range _ _ _ _ _ I) as Hr.
  destruct (Z.ltb_spec (Z.of_nat i) (Z.of_nat n)) as [Hlt|Hge].
  - destruct (lps_step_ok _ _ _ _ _ I) as (s1 & i1 & p1 & l1 & q1 & -> & I1 & Hm); [lia|]. cbn [mbind res_bind].
    apply (IH s1 i1 p1 l1 q1 I1). lia.
  - assert (i = n) as -> by lia. by exists s, p, l, q.
Qed.

Lemma lps_start : (1 ≤ n)%nat → lps_inv (mkLps (replicate mx 0) 0 0 0 1) 1 0 0 0.
Proof.
  intros Hn1. split; simpl; try done; try lia.
  - by apply border_0; lia.
  - intros v Hv [Hlt _]. lia.
  - by rewrite length_replicate.
  - intros j Hj Hjm. assert (j = 0%nat) as -> by lia. exists 0%nat. split; [apply lookup_replicate; split; [done|lia]|].
    split; [apply border_0; lia|]. intros w [Hw _]. lia.
  - intros j Hj. apply lookup_replicate. split; [done|lia].
  - intros j v Hj _ [Hv _]. lia.
Qed.
End loop.
End borders.

(** ** What the search is for *)

(** The last [v] tokens also stand at [s], before the end. *)
Definition occurs (l : list Z) (v s : nat) : Prop :=
  (s + v < length l)%nat ∧ take v (drop s l) = drop (length l - v) l.
#[export] Instance occurs_dec l v s : Decision (occurs l v s).
Proof. unfold occurs. apply _. Defined.

Definition first_occurrence (l : list Z) (v : nat) : option nat :=
  snd <$> list_find (occurs l v) (seq 0 (length l)).

(** The longest n-gram of at most [v] tokens, with its first occurrence *)
Fixpoint longest_match (l : list Z) (min_ngram v : nat) : option (nat * nat) :=
  match v with
  | O => None
  | S v' =>
      if (v <? min_ngram)%nat then None
      else match first_occurrence l v with
           | Some s => Some (v, s)
           | None => longest_match l min_ngram v'
           end
  end.

(** The tokens after it, at most [k], within the model's length *)
Definition ngram_reference (l : list Z) (min_ngram max_ngram : nat) (max_model_len k : Z) : list Z :=
  match longest_match l min_ngram max_ngram with
  | Some (v, s) => take (Z.to_nat (Z.min k (max_model_len - len l))) (drop (s + v) l)
  | None => []
  end.

Lemma border_occurs l v j :
  (j < length l)%nat → border (reverse l) (S j) v ↔ occurs l v (length l - S j).
Proof.
  intros Hj. unfold border, occurs. split.
  - intros [Hv Hb]. split; [lia|]. apply list_eq_same_length with v.
    { rewrite length_drop. lia. } { rewrite length_take, length_drop. lia. }
    intros y a b Hy. rewrite lookup_take_lt, !lookup_drop by lia.
    pose proof (Hb (v - S y)%nat ltac:(lia)) as E. rewrite !reverse_lookup in E by lia.
    replace (length l - S (v - S y))%nat with (length l - v + y)%nat in E by lia.
    replace (length l - S (S j - v + (v - S y)))%nat with (length l - S j + y)%nat in E by lia. congruence.
  - intros [Hv Hb]. split; [lia|]. intros y Hy. rewrite !reverse_lookup by lia.
    apply (f_equal (λ l, l !! (v - S y)%nat)) in Hb. rewrite lookup_take_lt, !lookup_drop in Hb by lia.
    replace (length l - S y)%nat with (length l - v + (v - S y))%nat by lia.
    replace (length l - S (S j - v + y))%nat with (length l - S j + (v - S y))%nat by lia. done.
Qed.

Lemma first_occurrence_Some l v s :
  occurs l v s → (∀ s', occurs l v s' → (s ≤ s')%nat) → first_occurrence l v = Some s.
Proof.
  intros Ho Hm. unfold first_occurrence.
  assert (E : list_find (occurs l v) (seq 0 (length l)) = Some (s, s)).
  { apply list_find_Some. split_and!; [apply lookup_seq; split; [done|destruct Ho; lia]|done|].
    intros j y Hj Hlt Hoy. apply lookup_seq in Hj as [-> _]. pose proof (Hm _ Hoy). lia. }
  by rewrite E.
Qed.

Lemma first_occurrence_None l v : (∀ s, ¬ occurs l v s) → first_occurrence l v = None.
Proof.
  intros Hn. unfold first_occurrence. rewrite (proj2 (list_find_None _ _)); [done|]. apply Forall_forall. auto.
Qed.

Lemma longest_match_Some l mn mx v s :
  (1 ≤ mn ≤ v)%nat → (v ≤ mx)%nat → (∀ w s', (v < w ≤ mx)%nat → ¬ occurs l w s') →
  occurs l v s → (∀ s', occurs l v s' → (s ≤ s')%nat) → longest_match l mn mx = Some (v, s).
Proof.
  intros Hmn Hvm Hno Ho Hfirst. induction mx as [|mx IH]; [lia|]. simpl.
  destruct (Nat.ltb_spec (S mx) mn); [lia|]. destruct (decide (v = S mx)) as [->|].
  - by rewrite (first_occurrence_Some _ _ s).
  - rewrite first_occurrence_None by (intros s'; apply Hno; lia). apply IH; [lia|]. intros w s' Hw. apply Hno. lia.
Qed.

Lemma longest_match_None l mn mx :
  (∀ w s, (mn ≤ w ≤ mx)%nat → ¬ occurs l w s) → longest_match l mn mx = None.
Proof.
  intros Hno. induction mx as [|mx IH]; [done|]. simpl. destruct (Nat.ltb_spec (S mx) mn); [done|].
  rewrite first_occurrence_None by (intros s; apply Hno; lia). apply IH. intros w s Hw. apply Hno. lia.
Qed.

(** The search for an n-gram is right: it ends, reads no table out of range, and
    proposes what followed the longest n-gram (between [min_ngram] and [max_ngram]
    tokens) at the end of the tokens that also stands earlier, at its first
    occurrence, cut to [k] tokens and to the model's length; nothing when there is
    none.  (The model is the linear-time loop on the reversed tokens; the reference
    tries all lengths and positions.) *)
Lemma ngram_search_exact (origin_tokens : list Z) (min_ngram max_ngram : nat) (max_model_len k : Z) :
  (1 ≤ min_ngram)%nat → (min_ngram ≤ max_ngram)%nat →
  _find_longest_matched_ngram_and_propose_tokens origin_tokens (Z.of_nat min_ngram) (Z.of_nat max_ngram)
    max_model_len k = Ok (ngram_reference origin_tokens min_ngram max_ngram max_model_len k).
Proof.
  intros Hmn Hmx. set (l := origin_tokens). unfold _find_longest_matched_ngram_and_propose_tokens, ngram_reference.
  destruct (Z.ltb_spec (len l) (Z.of_nat min_ngram)) as [Hshort|Hlong].
  { rewrite longest_match_None; [done|]. intros w s Hw [Hs _]. lia. }
  destruct (Z.leb_spec (Z.min k (max_model_len - len l)) 0) as [Hk|Hk].
  { destruct (longest_match _ _ _) as [[v s]|]; [|done]. by replace (Z.to_nat _) with 0%nat by lia. }
  rewrite Nat2Z.id. assert (Hn : (1 ≤ length l)%nat) by lia.
  destruct (lps_loop_ok (reverse l) (length l) max_ngram (length_reverse l) ltac:(lia) (S (2 * length l)) _ _ _ _ _
    (lps_start (reverse l) (length l) max_ngram (length_reverse l) ltac:(lia) Hn)) as (s & p & v & q & -> & I); [lia|].
  cbn [mbind res_bind].
  rewrite (li_l _ _ _ _ _ _ _ _ I), (li_q _ _ _ _ _ _ _ _ I).
  assert (Hocc : ∀ w s', occurs l w s' → ∃ j, (j < length l)%nat ∧ s' = (length l - S j)%nat ∧ border (reverse l) (S j) w).
  { intros w s' Ho. exists (length l - S s')%nat. pose proof Ho as [Hs _]. split_and!; [lia|lia|].
    apply border_occurs; [lia|]. replace (length l - S (length l - S s'))%nat with s' by lia. done. }
  destruct (Z.ltb_spec (Z.of_nat v) (Z.of_nat min_ngram)) as [Hv|Hv].
  - rewrite longest_match_None; [done|]. intros w s' Hw (j & Hj & -> & Hb)%Hocc.
    pose proof (li_max _ _ _ _ _ _ _ _ I j w Hj ltac:(lia) Hb). lia.
  - destruct (li_found _ _ _ _ _ _ _ _ I) as [?|(Hq & Hvm & Hb)]; [lia|].
    pose proof (proj1 (border_occurs l v q Hq) Hb) as Ho. pose proof (proj1 Ho) as Hs.
    rewrite (longest_match_Some l min_ngram max_ngram v (length l - S q)); [|lia|lia| |done|].
    + f_equal. unfold py_slice. replace (Z.to_nat (len l - 1 - Z.of_nat q + Z.of_nat v)) with (length l - S q + v)%nat by lia.
      set (k' := Z.min k (max_model_len - len l)) in *. set (start := len l - 1 - Z.of_nat q + Z.of_nat v).
      replace (start + Z.min k' (len l - start) - start) with (Z.min k' (len l - start)) by lia.
      destruct (Z.min_spec k' (len l - start)) as [[_ ->]|[Hle ->]]; [done|].
      rewrite !take_ge; [done|rewrite length_drop; lia..].
    + intros w s' Hw (j & Hj & -> & Hbj)%Hocc. pose proof (li_max _ _ _ _ _ _ _ _ I j w Hj ltac:(lia) Hbj). lia.
    + intros s' (j & Hj & -> & Hbj)%Hocc. pose proof (li_latest _ _ _ _ _ _ _ _ I j ltac:(lia) Hj Hbj). lia.
Qed.

(** ** The proposer *)

(** [NgramProposer], with its buffers: a row of drafts and their number per request.
    A row of [token_ids_cpu] has [max_model_len] places. *)
Record NgramProposer := mkProposer {
  np_min_n : Z;
  np_max_n : Z;
  np_k : Z;
  np_max_model_len : Z;
  np_valid_ngram_draft : list (list Z);
  np_valid_ngram_num_drafts : list Z;
}.
Definition np_set_draft (v : list (list Z)) (p : NgramProposer) : NgramProposer :=
  mkProposer (np_min_n p) (np_max_n p) (np_k p) (np_max_model_len p) v (np_valid_ngram_num_drafts p).
Definition np_set_num (v : list Z) (p : NgramProposer) : NgramProposer :=
  mkProposer (np_min_n p) (np_max_n p) (np_k p) (np_max_model_len p) (np_valid_ngram_draft p) v.

Definition NgramProposer_init (min_n max_n k max_model_len max_num_seqs : Z) : NgramProposer :=
  mkProposer min_n max_n k max_model_len (replicate (Z.to_nat max_num_seqs) (replicate (Z.to_nat k) 0))
    (replicate (Z.to_nat max_num_seqs) 0).

(** [row[: len(out)] = out] *)
Definition write_row (row out : list Z) : res (list Z) :=
  if len out <=? len row then Ok (out ++ drop (length out) row) else Raise ValueError.

Definition propose_for (num_tokens_no_spec : list Z) (token_ids_cpu : list (list Z)) (idx : Z) : M NgramProposer () :=
  num_tokens ← of_res (arr_get num_tokens_no_spec idx);
  row ← of_res (arr_get token_ids_cpu idx);
  let context_token_ids := py_slice row 0 num_tokens in
  p ← get;
  drafter_output ← of_res (_find_longest_matched_ngram_and_propose_tokens context_token_ids
    (np_min_n p) (np_max_n p) (np_max_model_len p) (np_k p));
  nums ← of_res (arr_set (np_valid_ngram_num_drafts p) idx (len drafter_output));
  _ ← modify (np_set_num nums);
  if 0 <? len drafter_output
  then drow ← of_res (arr_get (np_valid_ngram_draft p) idx);
       drow ← of_res (write_row drow drafter_output);
       rows ← of_res (arr_set (np_valid_ngram_draft p) idx drow);
       modify (np_set_draft rows)
  else mret tt.

Definition batch_propose_numba (valid_ngram_requests : list Z) (num_tokens_no_spec : list Z)
    (token_ids_cpu : list (list Z)) : M NgramProposer () :=
  for_each valid_ngram_requests (propose_for num_tokens_no_spec token_ids_cpu).

Definition batch_propose (num_requests : Z) (valid_ngram_requests : list Z) (num_tokens_no_spec : list Z)
    (token_ids_cpu : list (list Z)) : M NgramProposer (list (list Z)) :=
  _ ← (match valid_ngram_requests with
       | [] => mret tt
       | _ => batch_propose_numba valid_ngram_requests num_tokens_no_spec token_ids_cpu
       end);
  mapM_ (λ i,
    p ← get;
    if bool_decide (i ∈ valid_ngram_requests)
    then n ← of_res (arr_get (np_valid_ngram_num_drafts p) i);
         if 0 <? n then row ← of_res (arr_get (np_valid_ngram_draft p) i); mret (py_slice row 0 n) else mret []
    else mret []) (py_range 0 num_requests).

(** The requests to propose for: with new tokens, below the model's length *)
Fixpoint valid_requests (i : Z) (sampled_token_ids : list (list Z)) (num_tokens_no_spec : list Z)
    (max_model_len : Z) : res (list Z) :=
  match sampled_token_ids with
  | [] => Ok []
  | [] :: rest => valid_requests (i + 1) rest num_tokens_no_spec max_model_len
  | _ :: rest =>
      num_tokens ← arr_get num_tokens_no_spec i;
      valid ← valid_requests (i + 1) rest num_tokens_no_spec max_model_len;
      Ok (if max_model_len <=? num_tokens then valid else i :: valid)
  end.

Definition propose (sampled_token_ids : list (list Z)) (num_tokens_no_spec : list Z)
    (token_ids_cpu : list (list Z)) : M NgramProposer (list (list Z)) :=
  p ← get;
  valid ← of_res (valid_requests 0 sampled_token_ids num_tokens_no_spec (np_max_model_len p));
  batch_propose (len sampled_token_ids) valid num_tokens_no_spec token_ids_cpu.

(** ** The batch *)
Section batch.
Context (mn mx : nat) (Hmn : (1 ≤ mn)%nat) (Hmx : (mn ≤ mx)%nat) (k mml : Z) (Hk : 0 ≤ k).
Context (sampled : list (list Z)) (nums : list Z) (rows : list (list Z)).

(** The draft of a request *)
Definition draft_of (num_tokens : Z) (row : list Z) : list Z :=
  ngram_reference (py_slice row 0 num_tokens) mn mx mml k.
Definition expected (ids : list Z) (num_tokens : Z) (row : list Z) : list Z :=
  match ids with [] => [] | _ => if mml <=? num_tokens then [] else draft_of num_tokens row end.

(** The buffers have a row of [k] drafts for every request. *)
Record buffers_ok (p : NgramProposer) : Prop := {
  bf_min : np_min_n p = Z.of_nat mn;
  bf_max : np_max_n p = Z.of_nat mx;
  bf_k : np_k p = k;
  bf_mml : np_max_model_len p = mml;
  bf_rows : (length sampled ≤ length (np_valid_ngram_draft p))%nat;
  bf_nums : (length sampled ≤ length (np_valid_ngram_num_drafts p))%nat;
  bf_width row : row ∈ np_valid_ngram_draft p → len row = k;
}.

Lemma draft_length n row : len (draft_of n row) ≤ k.
Proof.
  unfold draft_of, ngram_reference. destruct (longest_match _ _ _) as [[v s]|]; simpl; [|lia].
  rewrite length_take. lia.
Qed.

(** What a request's buffers hold once its draft is made *)
Definition drafted (p : NgramProposer) (i : nat) : Prop :=
  ∃ n row drow, nums !! i = Some n ∧ rows !! i = Some row ∧
    np_valid_ngram_num_drafts p !! i = Some (len (draft_of n row)) ∧
    np_valid_ngram_draft p !! i = Some drow ∧ take (length (draft_of n row)) drow = draft_of n row.

Lemma propose_for_ok p i n row :
  buffers_ok p → (i < length sampled)%nat → nums !! i = Some n → rows !! i = Some row →
  wp (propose_for nums rows (Z.of_nat i)) (λ _ p', buffers_ok p' ∧ drafted p' i ∧
    ∀ j, j ≠ i → drafted p j → drafted p' j) p.
Proof.
  intros Hp Hi Hn Hrow. pose proof Hp as []. unfold propose_for. wp_step.
  eapply wp_array; [by rewrite arr_get_nat, Hn|]. wp_step. eapply wp_array; [by rewrite arr_get_nat, Hrow|]. wp_step.
  eapply wp_array; [by rewrite bf_min0, bf_max0, bf_k0, bf_mml0, ngram_search_exact by done|]. fold (draft_of n row).
  set (d := draft_of n row). pose proof (draft_length n row : len d ≤ k) as Hd. wp_step.
  eapply wp_array; [apply arr_set_nat; lia|]. wp_step. set (p1 := np_set_num _ p).
  assert (Hp1 : buffers_ok p1) by (split; simpl; rewrite ?length_insert; done).
  destruct (lookup_lt_is_Some_2 (np_valid_ngram_draft p) i) as [drow Hdrow]; [lia|].
  assert (Hw : len drow = k) by (by eapply bf_width0, list_elem_of_lookup_2).
  assert (Hnum : np_valid_ngram_num_drafts p1 !! i = Some (len d)) by (apply list_lookup_insert_eq; lia).
  assert (Hother : ∀ j, j ≠ i → drafted p j → ∃ n row drow, nums !! j = Some n ∧ rows !! j = Some row ∧
    np_valid_ngram_num_drafts p1 !! j = Some (len (draft_of n row)) ∧
    np_valid_ngram_draft p !! j = Some drow ∧ take (length (draft_of n row)) drow = draft_of n row).
  { intros j Hj (n' & row' & drow' & H1 & H2 & H3 & H4 & H5). exists n', row', drow'. split_and!; [done|done| |done..].
    simpl. by rewrite list_lookup_insert_ne. }
  destruct (Z.ltb_spec 0 (len d)) as [Hpos|Hzero].
  - wp_step. eapply wp_array; [by rewrite arr_get_nat; simpl; rewrite Hdrow|]. wp_step.
    eapply wp_array; [unfold write_row; by rewrite (proj2 (Z.leb_le _ _)) by lia|]. wp_step.
    eapply wp_array; [apply arr_set_nat; simpl; lia|]. wp_step. split_and!.
    + destruct Hp1. split; simpl in *; rewrite ?length_insert; try done. intros r Hr.
      apply list_elem_of_lookup in Hr as [j [(-> & <- & _)|[_ Hj]]%list_lookup_insert_Some];
        [rewrite length_app, length_drop; lia|by eapply bf_width0, list_elem_of_lookup_2].
    + exists n, row, (d ++ drop (length d) drow). split_and!; [done|done|done| |by rewrite take_app_length].
      simpl. apply list_lookup_insert_eq. lia.
    + intros j Hj Hjd. destruct (Hother j Hj Hjd) as (n' & row' & drow' & H1 & H2 & H3 & H4 & H5).
      exists n', row', drow'. split_and!; try done. simpl. by rewrite list_lookup_insert_ne.
  - wp_step. split_and!; [done| |intros j Hj Hjd; exact (Hother j Hj Hjd)].
    exists n, row, drow. split_and!; try done. fold d.
    assert (E : d = []) by (apply nil_length_inv; lia). by rewrite E.
Qed.

Lemma valid_requests_ok i l :
  (∀ j, (j < length l)%nat → is_Some (nums !! (i + j)%nat)) →
  ∃ v, valid_requests (Z.of_nat i) l nums mml = Ok v ∧
    ∀ x, x ∈ v ↔ ∃ j ids n, x = Z.of_nat (i + j) ∧ l !! j = Some ids ∧ ids ≠ [] ∧ nums !! (i + j)%nat = Some n ∧ n < mml.
Proof.
  revert i. induction l as [|ids l IH]; intros i Hnums; simpl.
  { exists []. split; [done|]. intros x. split; [by intros ?%elem_of_nil|]. by intros (j & ids & n & _ & ? & _). }
  destruct (IH (S i)) as (v & Ev & Hv). { intros j Hj. replace (S i + j)%nat with (i + S j)%nat by lia. apply Hnums. simpl. lia. }
  assert (Hrest : ∀ x, x ∈ v ↔ ∃ j ids' n, x = Z.of_nat (i + S j) ∧ l !! j = Some ids' ∧ ids' ≠ [] ∧
    nums !! (i + S j)%nat = Some n ∧ n < mml).
  { intros x. rewrite Hv. by setoid_rewrite <- Nat.add_succ_comm. }
  replace (Z.of_nat i + 1) with (Z.of_nat (S i)) by lia. destruct (Hnums 0%nat) as [n Hn]; [simpl; lia|]. rewrite Nat.add_0_r in Hn.
  assert (Hcons : ∀ x, (∃ j ids' n, x = Z.of_nat (i + j) ∧ (ids :: l) !! j = Some ids' ∧ ids' ≠ [] ∧
    nums !! (i + j)%nat = Some n ∧ n < mml) ↔ (x = Z.of_nat i ∧ ids ≠ [] ∧ n < mml) ∨ x ∈ v).
  { intros x. rewrite Hrest. split.
    - intros ([|j] & ids' & n' & -> & Hl & Hne & Hn' & Hlt); simpl in Hl.
      + rewrite Nat.add_0_r in *. left. simplify_eq. done.
      + right. by exists j, ids', n'.
    - intros [(-> & Hne & Hlt)|(j & ids' & n' & -> & Hl & Hne & Hn' & Hlt)].
      + exists 0%nat, ids, n. by rewrite Nat.add_0_r.
      + by exists (S j), ids', n'. }
  destruct ids as [|t0 ids].
  - exists v. split; [done|]. intros x. rewrite Hcons. split; [by right|]. by intros [(_ & ? & _)|?].
  - rewrite arr_get_nat, Hn. cbn [mbind res_bind]. rewrite Ev. cbn [mbind res_bind]. destruct (Z.leb_spec mml n).
    + exists v. split; [done|]. intros x. rewrite Hcons. split; [by right|]. intros [(_ & _ & ?)|?]; [lia|done].
    + eexists. split; [done|]. intros x. rewrite Hcons, elem_of_cons. naive_solver lia.
Qed.

Lemma batch_numba_ok valid p :
  buffers_ok p → (∀ x, x ∈ valid → ∃ i n row, x = Z.of_nat i ∧ (i < length sampled)%nat ∧
    nums !! i = Some n ∧ rows !! i = Some row) →
  wp (batch_propose_numba valid nums rows) (λ _ p', buffers_ok p' ∧
    ∀ i, Z.of_nat i ∈ valid → drafted p' i) p.
Proof.
  intros Hp Hvalid. unfold batch_propose_numba.
  apply (wp_for_each (λ done p', buffers_ok p' ∧ ∀ i, Z.of_nat i ∈ done → drafted p' i)).
  { split; [done|]. by intros i ?%elem_of_nil. }
  intros pre x suf p1 Ev [Hp1 Hd]. destruct (Hvalid x) as (i & n & row & -> & Hi & Hn & Hrow); [set_solver|].
  eapply wp_mono; [by apply (propose_for_ok p1 i n row)|]. intros [] p2 (Hp2 & Hdi & Hother). split; [done|].
  intros j [Hj|Hj%list_elem_of_singleton]%elem_of_app; [|by replace j with i by lia].
  destruct (decide (j = i)) as [->|]; [done|]. apply Hother; [done|by apply Hd].
Qed.

Lemma wp_mapM_pure {S A B} (f : A → M S B) (g : A → B) l s :
  (∀ x, x ∈ l → wp (f x) (λ y s', y = g x ∧ s' = s) s) → wp (mapM_ f l) (λ ys s', ys = g <$> l ∧ s' = s) s.
Proof.
  induction l as [|x l IH]; intros Hf; simpl; wp_step; [done|]. eapply wp_mono; [apply Hf; left|].
  intros y s1 [-> ->]. wp_step. eapply wp_mono; [apply IH; intros; apply Hf; by right|]. intros ys s2 [-> ->]. by wp_step.
Qed.

(** The drafts that the call returns *)
Definition drafts : list (list Z) :=
  imap (λ i ids, expected ids (default 0 (nums !! i)) (default [] (rows !! i))) sampled.

(** C9. The proposer gives every request of a batch its own draft: whatever earlier
    calls left in the buffers, [propose] raises nothing and returns, for a request
    with new tokens and below the model's length, the draft of the search on its
    tokens, and an empty draft for every other request; and the buffers stay fit
    for the next call.  The draft is what followed the longest n-gram, of between
    [min_n] and [max_n] tokens, at the end of the tokens that also stands earlier,
    at its first occurrence, cut to [k] tokens and to the model's length: the
    linear-time loop on the reversed tokens, with its table cut at [max_n], agrees
    with the search that tries all lengths and positions. *)
Theorem propose_exact (p : NgramProposer) :
  buffers_ok p → (length sampled ≤ length nums)%nat → (length sampled ≤ length rows)%nat →
  wp (propose sampled nums rows) (λ out p', out = drafts ∧ buffers_ok p') p.
Proof.
  intros Hp Hnums Hrows. unfold propose. wp_step. rewrite (bf_mml _ Hp).
  destruct (valid_requests_ok 0 sampled) as (valid & Ev & Hvalid).
  { intros j Hj. apply lookup_lt_is_Some_2. simpl. lia. }
  eapply wp_array; [exact Ev|]. wp_step. unfold batch_propose. wp_step.
  eapply (wp_mono _ (λ _ p', buffers_ok p' ∧ ∀ i, Z.of_nat i ∈ valid → drafted p' i)).
  { destruct valid as [|x valid'] eqn:E; [wp_step; split; [done|by intros i ?%elem_of_nil]|]. rewrite <- E in *.
    apply batch_numba_ok; [done|]. intros y (j & ids & n & -> & Hl & _ & Hn & _)%Hvalid.
    pose proof (lookup_lt_Some _ _ _ Hl) as Hj. destruct (lookup_lt_is_Some_2 rows j) as [row Hrow]; [lia|].
    by exists j, n, row. }
  intros [] p1 [Hp1 Hd]. wp_step.
  eapply wp_mono; [apply (wp_mapM_pure _ (λ i, (λ ids, expected ids (default 0 (nums !! Z.to_nat i))
    (default [] (rows !! Z.to_nat i))) (default [] (sampled !! Z.to_nat i))))|].
  - intros x Hx. unfold py_range in Hx. apply elem_of_seqZ in Hx. wp_step.
    set (i := Z.to_nat x). assert (Ex : x = Z.of_nat i) by lia. rewrite Ex.
    destruct (lookup_lt_is_Some_2 sampled i) as [ids Hids]; [lia|]. destruct (lookup_lt_is_Some_2 nums i) as [n Hn]; [lia|].
    destruct (lookup_lt_is_Some_2 rows i) as [row Hrow]; [lia|]. rewrite Hids, Hn, Hrow. simpl.
    assert (Hin : Z.of_nat i ∈ valid ↔ ids ≠ [] ∧ n < mml).
    { rewrite Hvalid. simpl. split.
      - intros (j & ids' & n' & Ej & Hl & Hne & Hn' & Hlt). assert (j = i) as -> by lia. by simplify_eq.
      - intros [Hne Hlt]. by exists i, ids, n. }
    case_bool_decide as Hv.
    + destruct (Hd i Hv) as (n' & row' & drow & Hn' & Hrow' & Hnum & Hdr & Ed). simplify_eq.
      apply Hin in Hv as [Hne Hlt]. wp_step. eapply wp_array; [by rewrite arr_get_nat, Hnum|]. wp_step.
      assert (Eexp : expected ids n row = draft_of n row).
      { unfold expected. destruct ids; [done|]. by rewrite (proj2 (Z.leb_gt _ _)). }
      rewrite Eexp. destruct (Z.ltb_spec 0 (len (draft_of n row))) as [Hpos|Hz]; wp_step.
      * eapply wp_array; [by rewrite arr_get_nat, Hdr|]. wp_step. split; [|done]. unfold py_slice.
        rewrite drop_0, Z.sub_0_r, Nat2Z.id. done.
      * split; [|done]. destruct (draft_of n row); [done|simpl in Hz; lia].
    + wp_step. split; [|done]. unfold expected. destruct ids; [done|]. destruct (Z.leb_spec mml n); [done|].
      exfalso. by apply Hv, Hin.
  - intros out p2 [-> ->]. split; [|done]. unfold drafts, py_range. apply list_eq. intros i.
    rewrite list_lookup_fmap, list_lookup_imap.
    destruct (decide (i < length sampled)%nat) as [Hi|Hi].
    + rewrite (proj2 (lookup_seqZ _ _ _ _)) by (split; [done|lia]). cbn [fmap option_fmap option_map]. rewrite Z.add_0_l, Nat2Z.id.
      by destruct (lookup_lt_is_Some_2 sampled i Hi) as [ids ->].
    + rewrite lookup_seqZ_ge, (proj2 (lookup_ge_None sampled i)) by lia. done.
Qed.
End batch.

(** The constructor's buffers *)
Lemma init_buffers_ok mn mx k mml seqs (sampled : list (list Z)) :
  0 ≤ k → len sampled ≤ seqs →
  buffers_ok mn mx k mml sampled (NgramProposer_init (Z.of_nat mn) (Z.of_nat mx) k mml seqs).
Proof.
  intros Hk Hs. split; simpl; try done; rewrite ?length_replicate; try lia.
  intros row [-> _]%elem_of_replicate. rewrite length_replicate. lia.
Qed.

(** ** Runs *)

(** "2 3" stands three times, "1 2 3" twice: the draft follows the longer n-gram;
    the second request has no new token, the third repeats one token. *)
Definition demo_rows : list (list Z) :=
  [[1; 2; 3; 4; 2; 3; 5; 1; 2; 3; 0; 0]; [7; 7; 7; 7; 0; 0; 0; 0; 0; 0; 0; 0]; [9; 9; 9; 0; 0; 0; 0; 0; 0; 0; 0; 0]].

Lemma propose_exact_witness :
  wp (propose [[3]; []; [9]] [10; 4; 3] demo_rows)
    (λ out p', out = [[4; 2]; []; [9]] ∧ buffers_ok 1 4 3 12 [[3]; []; [9]] p')
    (NgramProposer_init 1 4 3 12 3).
Proof.
  apply (propose_exact 1 4 (le_n 1) ltac:(lia) 3 12 ltac:(lia) [[3]; []; [9]] [10; 4; 3] demo_rows); simpl; try lia.
  apply (init_buffers_ok 1 4); simpl; lia.
Defined.
