(* ===== verification/LayerSpec.v ===== *)
(** * Specifications of layers

    [vllm/v1/kv_cache_interface.py] as the start-up code reads it: the classes of
    specifications with all their fields, page sizes, the memory that one request of
    maximal length needs, and merging.  (What the block managers read of a
    specification is in [KVSpec].)  The size of an element of a data type, which
    PyTorch knows, is a parameter. *)
From S2P Require Import Prelude KVSpec.

(** ** Data *)

(** The classes *)
Inductive spec_class :=
  | FullAttentionSpec | TQFullAttentionSpec | MLAAttentionSpec | HiddenStateCacheSpec | SinkFullAttentionSpec
  | ChunkedLocalAttentionSpec | SlidingWindowSpec | SlidingWindowMLASpec | MambaSpec
  | EncoderOnlyAttentionSpec | CrossAttentionSpec.
#[global] Instance spec_class_eq_dec : EqDecision spec_class.
Proof. solve_decision. Defined.

Inductive KVQuantMode := QUANT_NONE | FP8_PER_TENSOR | INT8_PER_TOKEN_HEAD | FP8_PER_TOKEN_HEAD | NVFP4.
#[global] Instance KVQuantMode_eq_dec : EqDecision KVQuantMode.
Proof. solve_decision. Defined.
Definition is_per_token_head (q : KVQuantMode) : bool :=
  match q with INT8_PER_TOKEN_HEAD | FP8_PER_TOKEN_HEAD => true | _ => false end.
Definition is_nvfp4 (q : KVQuantMode) : bool := match q with NVFP4 => true | _ => false end.

(** A specification: its class, and the fields of all classes; those that the class
    does not have hold their default. *)
Record LayerSpec := mkLayer {
  l_class : spec_class;
  l_block_size : Z;
  (** [AttentionSpec] *)
  l_num_kv_heads : Z;
  l_head_size : Z;
  l_dtype : string;
  l_kv_quant_mode : KVQuantMode;
  l_page_size_padded : option Z;
  (** [FullAttentionSpec], [SlidingWindowSpec], [ChunkedLocalAttentionSpec] and subclasses *)
  l_head_size_v : option Z;
  l_sliding_window : option Z;
  l_attention_chunk_size : option Z;
  l_tq_slot_size : Z;
  l_sink_len : option Z;
  l_cache_dtype_str : option string;
  l_alignment : option Z;
  l_compress_ratio : Z;
  l_model_version : option string;
  (** [MambaSpec] *)
  l_shapes : list (list Z);
  l_dtypes : list string;
  l_mamba_type : string;
  l_mamba_cache_mode : string;
  l_num_speculative_blocks : Z;
}.
#[global] Instance LayerSpec_eq_dec : EqDecision LayerSpec.
Proof. solve_decision. Defined.

Definition l_set_block_size (v : Z) (s : LayerSpec) : LayerSpec :=
  mkLayer (l_class s) v (l_num_kv_heads s) (l_head_size s) (l_dtype s) (l_kv_quant_mode s) (l_page_size_padded s)
    (l_head_size_v s) (l_sliding_window s) (l_attention_chunk_size s) (l_tq_slot_size s) (l_sink_len s)
    (l_cache_dtype_str s) (l_alignment s) (l_compress_ratio s) (l_model_version s) (l_shapes s) (l_dtypes s)
    (l_mamba_type s) (l_mamba_cache_mode s) (l_num_speculative_blocks s).
Definition l_set_page_size_padded (v : option Z) (s : LayerSpec) : LayerSpec :=
  mkLayer (l_class s) (l_block_size s) (l_num_kv_heads s) (l_head_size s) (l_dtype s) (l_kv_quant_mode s) v
    (l_head_size_v s) (l_sliding_window s) (l_attention_chunk_size s) (l_tq_slot_size s) (l_sink_len s)
    (l_cache_dtype_str s) (l_alignment s) (l_compress_ratio s) (l_model_version s) (l_shapes s) (l_dtypes s)
    (l_mamba_type s) (l_mamba_cache_mode s) (l_num_speculative_blocks s).

(** A new object of an attention class; the fields given, the others default *)
Definition new_attention (c : spec_class) (bs heads head : Z) (dtype : string) (q : KVQuantMode) (padded head_v window chunk : option Z)
    (tq : Z) (sink : option Z) (cdt : option string) (align : option Z) (ratio : Z) (version : option string) : LayerSpec :=
  mkLayer c bs heads head dtype q padded head_v window chunk tq sink cdt align ratio version [] [] "" "" 0.

(** [isinstance] *)
Definition is_full_class (s : LayerSpec) : bool :=
  match l_class s with
  | FullAttentionSpec | TQFullAttentionSpec | MLAAttentionSpec | HiddenStateCacheSpec | SinkFullAttentionSpec => true
  | _ => false
  end.
Definition is_mla_class (s : LayerSpec) : bool :=
  match l_class s with MLAAttentionSpec | HiddenStateCacheSpec => true | _ => false end.
Definition is_sliding_class (s : LayerSpec) : bool :=
  match l_class s with SlidingWindowSpec | SlidingWindowMLASpec => true | _ => false end.
Definition is_class (c : spec_class) (s : LayerSpec) : bool := bool_decide (l_class s = c).

(** What the start-up code reads of the configuration ([VllmConfig] and its parts) *)
Record VllmConfig := mkVConf {
  vf_max_model_len : Z;
  vf_original_max_model_len : Z;
  vf_decode_context_parallel_size : Z;
  vf_prefill_context_parallel_size : Z;
  vf_max_num_batched_tokens : Z;
  vf_max_num_encoder_input_tokens : Z;
  vf_mamba_cache_mode : mamba_cache_mode;
  vf_num_gpu_blocks_override : option Z;
  vf_disable_hybrid_kv_cache_manager : bool;
  vf_use_eagle : bool;                      (* a speculative configuration that uses EAGLE *)
}.
Definition vf_set_max_model_len (v : Z) (c : VllmConfig) : VllmConfig :=
  mkVConf v (vf_original_max_model_len c) (vf_decode_context_parallel_size c) (vf_prefill_context_parallel_size c)
    (vf_max_num_batched_tokens c) (vf_max_num_encoder_input_tokens c) (vf_mamba_cache_mode c)
    (vf_num_gpu_blocks_override c) (vf_disable_hybrid_kv_cache_manager c) (vf_use_eagle c).

Definition rassert (b : bool) : res () := if b then Ok tt else Raise AssertionError.

(** [[f(x) for x in l]] *)
Fixpoint rmap {A B} (f : A → res B) (l : list A) : res (list B) :=
  match l with
  | [] => Ok []
  | x :: l' => y ← f x; ys ← rmap f l'; Ok (y :: ys)
  end.
Definition zsum (l : list Z) : Z := foldr Z.add 0 l.
(** [max(l)], [min(l)] *)
Definition zmax (l : list Z) : res Z :=
  match l with [] => Raise ValueError | x :: l' => Ok (foldl Z.max x l') end.
Definition zmin (l : list Z) : res Z :=
  match l with [] => Raise ValueError | x :: l' => Ok (foldl Z.min x l') end.

(** [nvfp4_kv_cache_full_dim] *)
Definition nvfp4_kv_cache_full_dim (head_size : Z) : Z := head_size / 2 + head_size / 16.

Module Layer.
Section layer.
Context (get_dtype_size : string → Z).

(** ** Page sizes *)

(** The compression ratio of a model is positive. *)
Definition storage_block_size (s : LayerSpec) : Z :=
  match l_class s with
  | MLAAttentionSpec | HiddenStateCacheSpec | SlidingWindowMLASpec => l_block_size s / l_compress_ratio s
  | _ => l_block_size s
  end.

(** [FullAttentionSpec.real_page_size_bytes] and that of [SlidingWindowSpec] *)
Definition kv_page_size (s : LayerSpec) : res Z :=
  match l_head_size_v s with
  | None => Raise TypeError
  | Some head_size_v =>
      Ok (if is_nvfp4 (l_kv_quant_mode s)
          then l_block_size s * l_num_kv_heads s
               * (nvfp4_kv_cache_full_dim (l_head_size s) + nvfp4_kv_cache_full_dim head_size_v)
               * get_dtype_size (l_dtype s)
          else l_block_size s * l_num_kv_heads s * (l_head_size s + head_size_v) * get_dtype_size (l_dtype s))
  end.

Definition latent_page_size (s : LayerSpec) : Z :=
  storage_block_size s * l_num_kv_heads s * l_head_size s * get_dtype_size (l_dtype s).

Definition real_page_size_bytes (s : LayerSpec) : res Z :=
  match l_class s with
  | FullAttentionSpec | SinkFullAttentionSpec | SlidingWindowSpec => kv_page_size s
  | TQFullAttentionSpec =>
      if 0 <? l_tq_slot_size s then Ok (l_block_size s * l_num_kv_heads s * l_tq_slot_size s) else kv_page_size s
  | MLAAttentionSpec | HiddenStateCacheSpec =>
      Ok (if bool_decide (l_cache_dtype_str s = Some "fp8_ds_mla"%string)
          then if bool_decide (l_model_version s = Some "deepseek_v4"%string) then storage_block_size s * 584
               else l_block_size s * 656
          else latent_page_size s)
  | SlidingWindowMLASpec =>
      if bool_decide (l_model_version s = Some "deepseek_v4"%string)
         && bool_decide (l_cache_dtype_str s = Some "fp8_ds_mla"%string)
      then Ok (storage_block_size s * 584)
      else _ ← rassert (bool_decide (l_model_version s = None ∨ l_model_version s = Some "deepseek_v4"%string));
           Ok (latent_page_size s)
  | ChunkedLocalAttentionSpec | EncoderOnlyAttentionSpec | CrossAttentionSpec =>
      Ok (if is_nvfp4 (l_kv_quant_mode s)
          then 2 * l_block_size s * l_num_kv_heads s * nvfp4_kv_cache_full_dim (l_head_size s) * get_dtype_size (l_dtype s)
          else 2 * l_block_size s * l_num_kv_heads s * l_head_size s * get_dtype_size (l_dtype s))
  | MambaSpec => Raise AttributeError
  end.

Definition zprod (l : list Z) : Z := foldr Z.mul 1 l.
Definition mamba_page_size (s : LayerSpec) : Z :=
  zsum (zip_with (λ shape dtype, zprod shape * get_dtype_size dtype) (l_shapes s) (l_dtypes s)).

Definition padded_page_size (s : LayerSpec) (real_page_size : Z) : res Z :=
  match l_page_size_padded s with
  | Some padded => _ ← rassert (real_page_size <=? padded); Ok padded
  | None => Ok real_page_size
  end.

Definition page_size_bytes (s : LayerSpec) : res Z :=
  match l_class s with
  | MambaSpec => padded_page_size s (mamba_page_size s)
  | _ =>
      real ← real_page_size_bytes s;
      padded_page_size s
        (if is_per_token_head (l_kv_quant_mode s)
         then real + 2 * l_block_size s * l_num_kv_heads s * get_dtype_size "float32"
         else real)
  end.

(** [_apply_alignment_padding], which the constructors of the MLA classes call *)
Definition _apply_alignment_padding (s : LayerSpec) : res LayerSpec :=
  match l_alignment s with
  | None => Ok s
  | Some alignment =>
      actual ← real_page_size_bytes s;
      let padded := round_up actual alignment in
      Ok (if padded =? actual then s else l_set_page_size_padded (Some padded) s)
  end.

(** [__post_init__] *)
Definition post_init (s : LayerSpec) : res LayerSpec :=
  let with_head_v :=
    match l_head_size_v s with
    | Some _ => s
    | None =>
        new_attention (l_class s) (l_block_size s) (l_num_kv_heads s) (l_head_size s) (l_dtype s) (l_kv_quant_mode s)
          (l_page_size_padded s) (Some (l_head_size s)) (l_sliding_window s) (l_attention_chunk_size s) (l_tq_slot_size s)
          (l_sink_len s) (l_cache_dtype_str s) (l_alignment s) (l_compress_ratio s) (l_model_version s)
    end in
  match l_class s with
  | FullAttentionSpec | TQFullAttentionSpec | SinkFullAttentionSpec | SlidingWindowSpec => Ok with_head_v
  | MLAAttentionSpec | HiddenStateCacheSpec => _apply_alignment_padding with_head_v
  | SlidingWindowMLASpec => _apply_alignment_padding s
  | _ => Ok s
  end.

(** [dataclasses.replace(spec, block_size=...)] *)
Definition copy_with_new_block_size (bs : Z) (s : LayerSpec) : res LayerSpec := post_init (l_set_block_size bs s).

(** ** The memory that one request needs *)
Definition max_memory_usage_bytes (c : VllmConfig) (s : LayerSpec) : res Z :=
  match l_class s with
  | FullAttentionSpec | TQFullAttentionSpec | MLAAttentionSpec | HiddenStateCacheSpec | SinkFullAttentionSpec =>
      let ranks := vf_decode_context_parallel_size c * vf_prefill_context_parallel_size c in
      let max_model_len := if 1 <? ranks then cdiv (vf_max_model_len c) ranks else vf_max_model_len c in
      page ← page_size_bytes s;
      Ok (cdiv max_model_len (l_block_size s) * page)
  | ChunkedLocalAttentionSpec =>
      chunk ← match l_attention_chunk_size s with Some w => Ok w | None => Raise TypeError end;
      page ← page_size_bytes s;
      Ok (chunked_max_admission (l_block_size s) chunk (vf_max_num_batched_tokens c) (vf_max_model_len c) * page)
  | SlidingWindowSpec | SlidingWindowMLASpec =>
      _ ← rassert (vf_decode_context_parallel_size c =? 1);
      window ← match l_sliding_window s with Some w => Ok w | None => Raise TypeError end;
      page ← page_size_bytes s;
      Ok (sliding_max_admission (l_block_size s) window (vf_max_num_batched_tokens c) (vf_max_model_len c) * page)
  | MambaSpec =>
      page ← page_size_bytes s;
      Ok (match vf_mamba_cache_mode c with
          | ModeAll => (cdiv (vf_max_model_len c) (l_block_size s) + l_num_speculative_blocks s) * page
          | ModeAlign => page * (2 + l_num_speculative_blocks s)
          | ModeNone => page * (1 + l_num_speculative_blocks s)
          end)
  | EncoderOnlyAttentionSpec => Ok 0
  | CrossAttentionSpec =>
      page ← page_size_bytes s;
      Ok (cdiv (vf_max_num_encoder_input_tokens c) (l_block_size s) * page)
  end.

(** ** Merging the specifications of a group *)

(** [KVCacheSpec.merge] *)
Definition base_merge (first : LayerSpec) (specs : list LayerSpec) : res LayerSpec :=
  _ ← rassert (forallb (λ s, bool_decide (s = first)) specs); Ok first.

(** [FullAttentionSpec.merge_window_sizes] *)
Definition merge_window_sizes (window_sizes : list Z) : res (option Z) :=
  match remove_dups window_sizes with [] => Ok None | [w] => Ok (Some w) | _ => Raise ValueError end.

(** The fields of [AttentionSpec] *)
Definition same_attention (a b : LayerSpec) : bool :=
  bool_decide (l_block_size a = l_block_size b ∧ l_num_kv_heads a = l_num_kv_heads b ∧ l_head_size a = l_head_size b ∧
    l_dtype a = l_dtype b ∧ l_kv_quant_mode a = l_kv_quant_mode b ∧ l_page_size_padded a = l_page_size_padded b).

(** [FullAttentionSpec.merge] and [SinkFullAttentionSpec.merge], for the class [c] *)
Definition full_merge (c : spec_class) (sink : option Z) (first : LayerSpec) (specs : list LayerSpec) : res LayerSpec :=
  _ ← rassert (forallb is_full_class specs);
  _ ← rassert (negb (existsb is_mla_class specs));
  window ← merge_window_sizes (omap l_sliding_window specs);
  chunk ← merge_window_sizes (omap l_attention_chunk_size specs);
  merged ← post_init (new_attention c (l_block_size first) (l_num_kv_heads first) (l_head_size first) (l_dtype first)
    (l_kv_quant_mode first) (l_page_size_padded first) (l_head_size_v first) window chunk 0 sink None None 1 None);
  _ ← rassert (forallb (λ s, same_attention s merged) specs);
  _ ← rassert (match window, chunk with Some _, Some _ => false | _, _ => true end);
  Ok merged.

(** [TQFullAttentionSpec.merge]: another class of full attention has no such field *)
Fixpoint tq_all (slot : Z) (specs : list LayerSpec) : res bool :=
  match specs with
  | [] => Ok true
  | s :: specs' =>
      if is_class TQFullAttentionSpec s
      then if l_tq_slot_size s =? slot then tq_all slot specs' else Ok false
      else Raise AttributeError
  end.
Definition tq_set (slot : Z) (s : LayerSpec) : LayerSpec :=
  mkLayer (l_class s) (l_block_size s) (l_num_kv_heads s) (l_head_size s) (l_dtype s) (l_kv_quant_mode s) (l_page_size_padded s)
    (l_head_size_v s) (l_sliding_window s) (l_attention_chunk_size s) slot (l_sink_len s)
    (l_cache_dtype_str s) (l_alignment s) (l_compress_ratio s) (l_model_version s) (l_shapes s) (l_dtypes s)
    (l_mamba_type s) (l_mamba_cache_mode s) (l_num_speculative_blocks s).
Definition tq_merge (first : LayerSpec) (specs : list LayerSpec) : res LayerSpec :=
  merged ← full_merge TQFullAttentionSpec None first specs;
  ok ← tq_all (l_tq_slot_size first) specs;
  _ ← rassert ok;
  post_init (tq_set (l_tq_slot_size first) merged).

(** The fields that the MLA classes want equal *)
Definition same_latent (a b : LayerSpec) : bool :=
  bool_decide (l_cache_dtype_str a = l_cache_dtype_str b ∧ l_compress_ratio a = l_compress_ratio b ∧
    l_model_version a = l_model_version b).

Definition mla_merge (c : spec_class) (first : LayerSpec) (specs : list LayerSpec) : res LayerSpec :=
  _ ← rassert (forallb is_mla_class specs);
  _ ← rassert (forallb (same_latent first) specs);
  post_init (new_attention c (l_block_size first) (l_num_kv_heads first) (l_head_size first) (l_dtype first)
    (l_kv_quant_mode first) (l_page_size_padded first) None None None 0 None (l_cache_dtype_str first) None
    (l_compress_ratio first) (l_model_version first)).

Definition sliding_mla_merge (first : LayerSpec) (specs : list LayerSpec) : res LayerSpec :=
  _ ← rassert (forallb (is_class SlidingWindowMLASpec) specs);
  _ ← rassert (forallb (λ s, same_latent first s && bool_decide (l_sliding_window s = l_sliding_window first)) specs);
  post_init (new_attention SlidingWindowMLASpec (l_block_size first) (l_num_kv_heads first) (l_head_size first)
    (l_dtype first) QUANT_NONE (l_page_size_padded first) None (l_sliding_window first) None 0 None
    (l_cache_dtype_str first) None (l_compress_ratio first) (l_model_version first)).

(** [specs[0].merge(specs)] *)
Definition merge (specs : list LayerSpec) : res LayerSpec :=
  match specs with
  | [] => Raise IndexError
  | first :: _ =>
      match l_class first with
      | FullAttentionSpec => full_merge FullAttentionSpec None first specs
      | TQFullAttentionSpec => tq_merge first specs
      | MLAAttentionSpec => mla_merge MLAAttentionSpec first specs
      | HiddenStateCacheSpec => mla_merge HiddenStateCacheSpec first specs
      | SinkFullAttentionSpec => full_merge SinkFullAttentionSpec (l_sink_len first) first specs
      | SlidingWindowMLASpec => sliding_mla_merge first specs
      | _ => base_merge first specs
      end
  end.

(** ** Uniform types *)

(** [is_uniform_with_collection]; the base class of a registered class is that of
    [register_all_kvcache_specs], and encoder-only attention is not registered. *)
Definition is_uniform_with_collection (first : LayerSpec) (specs : list LayerSpec) : res bool :=
  match l_class first with
  | FullAttentionSpec | TQFullAttentionSpec | MLAAttentionSpec | HiddenStateCacheSpec | SinkFullAttentionSpec =>
      Ok (forallb is_full_class specs)
  | ChunkedLocalAttentionSpec =>
      Ok (forallb (λ s, is_class ChunkedLocalAttentionSpec s
                        && bool_decide (l_attention_chunk_size s = l_attention_chunk_size first)) specs)
  | SlidingWindowSpec =>
      Ok (forallb (λ s, is_sliding_class s && bool_decide (l_sliding_window s = l_sliding_window first)) specs)
  | SlidingWindowMLASpec =>
      Ok (forallb (λ s, is_class SlidingWindowMLASpec s
                        && bool_decide (l_sliding_window s = l_sliding_window first)) specs)
  | MambaSpec =>
      Ok (forallb (λ s, is_class MambaSpec s
                        && (l_num_speculative_blocks s =? l_num_speculative_blocks first)) specs)
  | CrossAttentionSpec => Ok (forallb (is_class CrossAttentionSpec) specs)
  | EncoderOnlyAttentionSpec => Raise AssertionError
  end.

(** [UniformTypeKVCacheSpecs.is_uniform_type] of the values of a dictionary *)
Definition is_uniform_type (specs : list LayerSpec) : res bool :=
  if (1 <? length (remove_dups (l_block_size <$> specs)))%nat then Ok false
  else match specs with [] => Raise StopIteration | first :: _ => is_uniform_with_collection first specs end.
End layer.
End Layer.
