(* ===== verification/KVConfig.v ===== *)
(** * KV-cache configuration

    The second half of [vllm/v1/core/kv_cache_utils.py]: from the specifications of
    the layers and the available memory of the workers to the groups of layers, the
    number of blocks and the tensors; and the search for the longest model length that
    fits.  A dictionary by layer name is an association list in insertion order.
    Every layer has a specification object of its own, so that setting a field in
    place concerns this layer alone.  Logging and the reported concurrency (a
    floating-point number) are left out. *)
From S2P Require Import Prelude KVSpec LayerSpec.

(** ** Data *)

(** The specification of a group: one for all its layers, or
    [UniformTypeKVCacheSpecs] with one for each *)
Inductive GroupSpec :=
  | Same (spec : LayerSpec)
  | UniformTypeKVCacheSpecs (block_size : Z) (kv_cache_specs : list (string * LayerSpec)).

Record LayerGroup := mkLGroup { lg_layer_names : list string; lg_spec : GroupSpec; lg_is_eagle_group : bool }.
Record KVCacheTensor := mkTensor { kt_size : Z; kt_shared_by : list string }.
Record LayerConfig := mkLConfig {
  lc_num_blocks : Z;
  lc_kv_cache_tensors : list KVCacheTensor;
  lc_kv_cache_groups : list LayerGroup;
}.

Abbreviation specs := (list (string * LayerSpec)).

(** [d[k]] *)
Fixpoint spec_get (k : string) (d : specs) : option LayerSpec :=
  match d with
  | [] => None
  | (k', v) :: d' => if decide (k' = k) then Some v else spec_get k d'
  end.
Definition spec_at (k : string) (d : specs) : res LayerSpec :=
  match spec_get k d with Some v => Ok v | None => Raise KeyError end.

Definition is_uniform_group (g : LayerGroup) : bool :=
  match lg_spec g with UniformTypeKVCacheSpecs _ _ => true | Same _ => false end.

(** A dictionary whose values are lists: [d[k].append(x)] *)
Fixpoint bucket_add {K A} `{EqDecision K} (k : K) (x : A) (d : list (K * list A)) : list (K * list A) :=
  match d with
  | [] => [(k, [x])]
  | (k', l) :: d' => if decide (k' = k) then (k', l ++ [x]) :: d' else (k', l) :: bucket_add k x d'
  end.

(** [l[i::n]] *)
Definition py_stride {A} (l : list A) (i n : nat) : list A :=
  omap (λ j, l !! (i + j * n)%nat) (seq 0 (length l)).

Module Config.
Section config.
Context (get_dtype_size : string → Z).
Abbreviation page_size_bytes := (Layer.page_size_bytes get_dtype_size).
Abbreviation max_memory_usage_bytes := (Layer.max_memory_usage_bytes get_dtype_size).
Abbreviation merge := (Layer.merge get_dtype_size).

(** ** Uniform types *)
Definition is_uniform_type (d : specs) : res bool := Layer.is_uniform_type d.*2.
Definition from_specs (d : specs) : res (option GroupSpec) :=
  uniform ← is_uniform_type d;
  if (uniform : bool)
  then match d with (_, s) :: _ => Ok (Some (UniformTypeKVCacheSpecs (l_block_size s) d)) | [] => Raise StopIteration end
  else Ok None.

(** [page_size_bytes] and [max_memory_usage_bytes] of a group's specification *)
Definition group_page_size (g : GroupSpec) : res Z :=
  match g with
  | Same s => page_size_bytes s
  | UniformTypeKVCacheSpecs _ d => pages ← rmap page_size_bytes d.*2; Ok (zsum pages)
  end.
(** [UniformTypeKVCacheSpecs.max_memory_usage_pages] *)
Definition max_memory_usage_pages (c : VllmConfig) (d : specs) : res Z :=
  pages ← rmap (λ s, mem ← max_memory_usage_bytes c s; page ← page_size_bytes s; Ok (cdiv mem page)) d.*2;
  zmax pages.
Definition group_max_memory (c : VllmConfig) (g : GroupSpec) : res Z :=
  match g with
  | Same s => max_memory_usage_bytes c s
  | UniformTypeKVCacheSpecs _ d => n ← max_memory_usage_pages c d; page ← group_page_size g; Ok (n * page)
  end.
(** [get_page_sizes]: the distinct sizes; [get_num_layer_tuples]: how often the most
    frequent one occurs *)
Definition get_page_sizes (d : specs) : res (list Z) := pages ← rmap page_size_bytes d.*2; Ok (remove_dups pages).
Definition get_num_layer_tuples (d : specs) : res Z :=
  pages ← rmap page_size_bytes d.*2;
  match pages with
  | [] => Raise IndexError
  | _ => zmax ((λ p, len (filter (λ q, q = p) pages)) <$> pages)
  end.

(** ** Groups *)
Definition create_kv_cache_group_specs (d : specs) (grouped_layer_names : list (list string)) : res (list LayerGroup) :=
  rmap (λ names,
    layer_specs ← rmap (λ n, spec_at n d) names;
    merged ← merge layer_specs;
    Ok (mkLGroup names (Same merged) false)) grouped_layer_names.

Definition is_kv_cache_spec_uniform (d : specs) : res bool :=
  match d with
  | [] => Ok true
  | _ => match merge d.*2 with
         | Ok _ => Ok true
         | Raise AssertionError => Ok false
         | Raise e => Raise e
         end
  end.

Definition _get_kv_cache_groups_uniform_spec (d : specs) : res (list LayerGroup) :=
  create_kv_cache_group_specs d [d.*1].

Definition _get_kv_cache_groups_uniform_type (d : specs) (g : GroupSpec) : list LayerGroup := [mkLGroup d.*1 g false].

Definition get_uniform_page_size (page_sizes : list Z) : res Z :=
  match remove_dups page_sizes with [p] => Ok p | _ => Raise AssertionError end.

(** *** One page size *)
Definition unify_layer (max_page_size : Z) (s : LayerSpec) : res LayerSpec :=
  page ← page_size_bytes s;
  if page =? max_page_size then Ok s
  else if page =? 0 then Raise ZeroDivisionError
  else if negb (max_page_size mod page =? 0) then Raise NotImplementedError
  else new_spec ← Layer.copy_with_new_block_size get_dtype_size (l_block_size s * (max_page_size / page)) s;
       new_page ← page_size_bytes new_spec;
       _ ← rassert (new_page =? max_page_size);
       Ok new_spec.

Definition unify_kv_cache_spec_page_size (d : specs) : res specs :=
  pages ← rmap page_size_bytes d.*2;
  if (length (remove_dups pages) <=? 1)%nat then Ok d
  else max_page_size ← zmax pages;
       rmap (λ '(name, s), s' ← unify_layer max_page_size s; Ok (name, s')) d.

(** *** Groups of the same number of layers *)
Definition same_type_layers (d : specs) : list (LayerSpec * list string) :=
  foldl (λ acc '(name, s), bucket_add s name acc) [] d.

(** [max_num_layers < min_num_layers * 1.5], without floating point *)
Definition choose_group_size (num_layers : list Z) : res Z :=
  min_num_layers ← zmin num_layers;
  max_num_layers ← zmax num_layers;
  Ok (if 2 * max_num_layers <? 3 * min_num_layers then max_num_layers else min_num_layers).

Definition split_layers (group_size : Z) (layers : list string) : list (list string) :=
  let num_groups := Z.to_nat (cdiv (len layers) group_size) in
  (λ i, py_stride layers i num_groups) <$> seq 0 num_groups.

Definition _get_kv_cache_groups_uniform_page_size (d : specs) : res (list LayerGroup) :=
  let by_type := same_type_layers d in
  group_size ← choose_group_size ((λ '(_, layers), len layers) <$> by_type);
  create_kv_cache_group_specs d (concat ((λ '(_, layers), split_layers group_size layers) <$> by_type)).

(** ** DeepseekV4 *)

(** A slot of a page size: the layers that share one tensor *)
Fixpoint slot_add (slot_idx : nat) (name : string) (slots : list (list string)) : list (list string) :=
  match slots, slot_idx with
  | [], _ => [[name]]
  | s :: slots', O => (s ++ [name]) :: slots'
  | s :: slots', S i => s :: slot_add i name slots'
  end.
Fixpoint buckets_add (ps : Z) (slot_idx : nat) (name : string) (b : list (Z * list (list string))) :=
  match b with
  | [] => [(ps, [[name]])]
  | (ps', slots) :: b' =>
      if ps' =? ps then (ps', slot_add slot_idx name slots) :: b' else (ps', slots) :: buckets_add ps slot_idx name b'
  end.

Definition layer_page_size (g : LayerGroup) (name : string) : res Z :=
  match lg_spec g with
  | UniformTypeKVCacheSpecs _ d => s ← spec_at name d; page_size_bytes s
  | Same s => page_size_bytes s
  end.

(** The layers of one group; [seen]: the page sizes of the layers before *)
Fixpoint bucket_group (g : LayerGroup) (names : list string) (seen : list Z) (b : list (Z * list (list string)))
    : res (list (Z * list (list string))) :=
  match names with
  | [] => Ok b
  | name :: names' =>
      ps ← layer_page_size g name;
      bucket_group g names' (seen ++ [ps]) (buckets_add ps (length (filter (λ q, q = ps) seen)) name b)
  end.

Fixpoint bucket_groups (groups : list LayerGroup) (b : list (Z * list (list string))) : res (list (Z * list (list string))) :=
  match groups with
  | [] => Ok b
  | g :: groups' => b' ← bucket_group g (lg_layer_names g) [] b; bucket_groups groups' b'
  end.
Definition _bucket_layers_by_page_size (groups : list LayerGroup) := bucket_groups groups [].

Definition bucket_bytes (b : list (Z * list (list string))) : Z := zsum ((λ '(ps, slots), ps * len slots) <$> b).

Definition may_override_num_blocks (c : VllmConfig) (num_blocks : Z) : Z :=
  default num_blocks (vf_num_gpu_blocks_override c).

Definition floor_div (a b : Z) : res Z := if b =? 0 then Raise ZeroDivisionError else Ok (a / b).

Fixpoint bucket_tensors (num_blocks : Z) (b : list (Z * list (list string))) : list KVCacheTensor :=
  match b with
  | [] => []
  | (ps, slots) :: b' => (mkTensor (ps * num_blocks) <$> slots) ++ bucket_tensors num_blocks b'
  end.

Definition _get_kv_cache_config_deepseek_v4 (c : VllmConfig) (groups : list LayerGroup) (available_memory : Z)
    : res (Z * list KVCacheTensor) :=
  buckets ← _bucket_layers_by_page_size groups;
  num_blocks ← floor_div available_memory (bucket_bytes buckets);
  let num_blocks := may_override_num_blocks c num_blocks in
  Ok (num_blocks, bucket_tensors num_blocks buckets).

Definition _pool_bytes_per_block (groups : list LayerGroup) : res Z :=
  match groups with
  | [mkLGroup _ (UniformTypeKVCacheSpecs _ _ as spec) _] => group_page_size spec
  | _ =>
      if forallb is_uniform_group groups
      then buckets ← _bucket_layers_by_page_size groups; Ok (bucket_bytes buckets)
      else group_size ← zmax ((λ g, len (lg_layer_names g)) <$> groups);
           pages ← rmap (λ g, group_page_size (lg_spec g)) groups;
           page_size ← get_uniform_page_size pages;
           Ok (page_size * group_size)
  end.

(** ** Blocks and tensors *)
Definition get_num_blocks (c : VllmConfig) (num_layers available_memory page_size : Z) : res Z :=
  a ← floor_div available_memory page_size;
  b ← floor_div a num_layers;
  Ok (may_override_num_blocks c (Z.max b 0)).

(** The layers at one place of all groups *)
Definition shared_by (groups : list LayerGroup) (i : nat) : list string :=
  omap (λ g, lg_layer_names g !! i) groups.

Definition get_kv_cache_config_from_groups (c : VllmConfig) (groups : list LayerGroup) (available_memory : Z) : res LayerConfig :=
  match groups with
  | [] => Ok (mkLConfig 1 [] groups)
  | [mkLGroup names (UniformTypeKVCacheSpecs _ d as spec) _] =>
      page ← group_page_size spec;
      num_blocks ← floor_div available_memory page;
      let num_blocks := may_override_num_blocks c num_blocks in
      tensors ← rmap (λ n, s ← spec_at n d; p ← page_size_bytes s; Ok (mkTensor (p * num_blocks) [n])) names;
      Ok (mkLConfig num_blocks tensors groups)
  | _ =>
      if forallb is_uniform_group groups
      then '(num_blocks, tensors) ← _get_kv_cache_config_deepseek_v4 c groups available_memory;
           Ok (mkLConfig num_blocks tensors groups)
      else
        group_size ← zmax ((λ g, len (lg_layer_names g)) <$> groups);
        pages ← rmap (λ g, group_page_size (lg_spec g)) groups;
        page_size ← get_uniform_page_size pages;
        _ ← rassert (0 <? group_size);
        num_blocks ← get_num_blocks c group_size available_memory page_size;
        Ok (mkLConfig num_blocks ((λ i, mkTensor (page_size * num_blocks) (shared_by groups i)) <$> seq 0 (Z.to_nat group_size)) groups)
  end.

(** ** Choosing the groups *)

(** [unify_hybrid_kv_cache_specs]: a window becomes full attention. *)
Definition as_full_attention (uniform_block_size : option Z) (s : LayerSpec) : res LayerSpec :=
  match l_class s with
  | SlidingWindowMLASpec =>
      Layer.post_init get_dtype_size (new_attention MLAAttentionSpec (default (l_block_size s) uniform_block_size)
        (l_num_kv_heads s) (l_head_size s) (l_dtype s) QUANT_NONE (l_page_size_padded s) None None None 0 None
        (l_cache_dtype_str s) (l_alignment s) (l_compress_ratio s) (l_model_version s))
  | SlidingWindowSpec =>
      Layer.post_init get_dtype_size (new_attention FullAttentionSpec (l_block_size s) (l_num_kv_heads s) (l_head_size s)
        (l_dtype s) (l_kv_quant_mode s) (l_page_size_padded s) (l_head_size_v s) (l_sliding_window s) None 0 None None None 1 None)
  | ChunkedLocalAttentionSpec =>
      Layer.post_init get_dtype_size (new_attention FullAttentionSpec (l_block_size s) (l_num_kv_heads s) (l_head_size s)
        (l_dtype s) QUANT_NONE (l_page_size_padded s) None None (l_attention_chunk_size s) 0 None None None 1 None)
  | _ => Ok s
  end.

Definition one_type (d : specs) : res bool :=
  uniform ← is_kv_cache_spec_uniform d;
  if (uniform : bool) then Ok true else is_uniform_type d.

Definition unify_hybrid_kv_cache_specs (d : specs) : res specs :=
  done ← one_type d;
  if (done : bool) then Ok d
  else
    let has_full_attention := existsb is_full_class d.*2 in
    let has_window := existsb is_sliding_class d.*2 || existsb (is_class ChunkedLocalAttentionSpec) d.*2 in
    uniform_block_size ← (if existsb (is_class SlidingWindowMLASpec) d.*2
                          then match list_find (λ s, is_full_class s = true) d.*2 with
                               | Some (_, s) => Ok (Some (l_block_size s))
                               | None => Raise AssertionError
                               end
                          else Ok None);
    d' ← (if has_full_attention && has_window
          then rmap (λ '(name, s), s' ← as_full_attention uniform_block_size s; Ok (name, s')) d
          else Ok d);
    ok ← one_type d';
    if (ok : bool) then Ok d' else Raise ValueError.

Definition group_and_unify_kv_cache_specs (d : specs) : res (option (list specs)) :=
  if negb (existsb (is_class SlidingWindowMLASpec) d.*2) then Ok None
  else
    let mla_specs : specs := filter (λ ns, negb (is_class SlidingWindowMLASpec ns.2) && is_mla_class ns.2 = true) d in
    let swa : specs := filter (λ ns, is_class SlidingWindowMLASpec ns.2 = true) d in
    let grouped : list ((Z * option Z) * specs) :=
      foldl (λ acc ns, bucket_add (l_block_size ns.2, l_sliding_window ns.2) ns acc) [] swa in
    _ ← rassert (0 <? len mla_specs);
    uniform ← is_uniform_type mla_specs;
    _ ← rassert uniform;
    uniforms ← rmap is_uniform_type grouped.*2;
    _ ← rassert (forallb id uniforms);
    Ok (Some (mla_specs :: grouped.*2)).

(** The [d] of [range(min_d, max_d + 1)] with the least padding, the largest of them *)
Definition gcd_pad (values : list Z) (d : Z) : Z := zsum ((λ x, (d - x mod d) mod d) <$> values).
Definition gcd_step (values : list Z) (best : Z * option Z) (d : Z) : Z * option Z :=
  let '(best_d, best_pad) := best in
  let pad := gcd_pad values d in
  match best_pad with
  | None => (d, Some pad)
  | Some b => if (pad <? b) || ((pad =? b) && (best_d <? d)) then (d, Some pad) else best
  end.
Definition _approximate_gcd (values : list Z) (lower_bound : option Z) : res Z :=
  max_d ← zmax values;
  if existsb (λ x, x <=? 0) values then Raise ValueError
  else
    let min_d := Z.max 1 (default 1 lower_bound) in
    if max_d <? min_d then Ok min_d
    else Ok (foldl (gcd_step values) (min_d, None) (py_range min_d (max_d + 1))).1.

(** The layers of a group of windows, padded to the page sizes of full attention *)
Definition pad_layer (all_page_sizes : list Z) (s : LayerSpec) : res (LayerSpec * Z) :=
  current_size ← page_size_bytes s;
  candidate ← zmin (filter (λ x, current_size <= x) all_page_sizes);
  Ok (if current_size <? candidate then l_set_page_size_padded (Some candidate) s else s, candidate).

(** [zip] of several lists of one length *)
Definition transpose (n : nat) (ls : list (list string)) : list (list string) :=
  (λ j, omap (λ l : list string, l !! j) ls) <$> seq 0 n.

Definition window_groups (num_layer_tuples : Z) (all_page_sizes : list Z) (d : specs) : res (list LayerGroup) :=
  sizes ← get_page_sizes d;
  max_size ← zmax sizes;
  max_all ← zmax all_page_sizes;
  _ ← rassert (max_size <=? max_all);
  padded ← rmap (λ '(name, s), sc ← pad_layer all_page_sizes s; Ok (name, sc.1, sc.2)) d;
  let d' : specs := (λ x : string * LayerSpec * Z, x.1) <$> padded in
  let per_size : list (Z * list string) := foldl (λ acc x, bucket_add x.2 x.1.1 acc) [] padded in
  match remove_dups ((λ x : Z * list string, len x.2) <$> per_size) with
  | [num_layers_per_size] =>
      let num_tuple_groups := Z.to_nat (cdiv num_layers_per_size num_layer_tuples) in
      let layer_tuples := transpose (Z.to_nat num_layers_per_size) per_size.*2 in
      rmap (λ i,
        let names := concat (py_stride layer_tuples i num_tuple_groups) in
        sub ← rmap (λ n, s ← spec_at n d'; Ok (n, s)) names;
        spec ← from_specs sub;
        match spec with Some g => Ok (mkLGroup names g false) | None => Raise AssertionError end)
      (seq 0 num_tuple_groups)
  | _ => Raise AssertionError
  end.

Definition _get_kv_cache_groups_uniform_groups (grouped : list specs) : res (list LayerGroup) :=
  match grouped with
  | [] => Raise AssertionError
  | full_mla :: windows =>
      _ ← rassert (forallb is_mla_class full_mla.*2);
      full ← from_specs full_mla;
      full ← match full with Some g => Ok g | None => Raise AssertionError end;
      counts ← rmap get_num_layer_tuples grouped;
      num_layer_tuples ← _approximate_gcd counts (head counts);
      _ ← rassert (forallb (λ d : specs, forallb (is_class SlidingWindowMLASpec) d.*2) windows);
      all_page_sizes ← get_page_sizes full_mla;
      groups ← rmap (window_groups num_layer_tuples all_page_sizes) windows;
      Ok (mkLGroup full_mla.*1 full false :: concat groups)
  end.

Fixpoint flag_first (name : string) (groups : list LayerGroup) : list LayerGroup :=
  match groups with
  | [] => []
  | g :: groups' =>
      if bool_decide (name ∈ lg_layer_names g) then mkLGroup (lg_layer_names g) (lg_spec g) true :: groups'
      else g :: flag_first name groups'
  end.

Definition _annotate_eagle_groups_deepseek_v4 (c : VllmConfig) (d : specs) (groups : list LayerGroup) : list LayerGroup :=
  if negb (vf_use_eagle c) then groups
  else if negb (existsb (λ s, bool_decide (l_model_version s = Some "deepseek_v4"%string)) d.*2) then groups
  else match last d with Some (name, _) => flag_first name groups | None => groups end.

(** A layer of hidden states, with its page as large as the others' *)
Definition hidden_group (common_page : Z) (name : string) (s : LayerSpec) : res LayerGroup :=
  let per_token := l_num_kv_heads s * l_head_size s * get_dtype_size (l_dtype s) in
  n ← floor_div common_page per_token;
  aligned ← Layer.post_init get_dtype_size (l_set_page_size_padded (Some common_page) (l_set_block_size (Z.max n 1) s));
  Ok (mkLGroup [name] (Same aligned) false).

Definition general_groups (d : specs) : res (list LayerGroup) :=
  let hidden : specs := filter (λ ns, is_class HiddenStateCacheSpec ns.2 = true) d in
  let filtered : specs := filter (λ ns, is_class HiddenStateCacheSpec ns.2 = false) d in
  filtered ← unify_kv_cache_spec_page_size filtered;
  groups ← _get_kv_cache_groups_uniform_page_size filtered;
  match hidden with
  | [] => Ok groups
  | _ =>
      pages ← rmap (λ g, group_page_size (lg_spec g)) groups;
      common_page ← get_uniform_page_size pages;
      extra ← rmap (λ '(name, s), hidden_group common_page name s) hidden;
      Ok (groups ++ extra)
  end.

(** [get_kv_cache_groups]; with it the specifications, which it may unify in place *)
Definition get_kv_cache_groups (c : VllmConfig) (d : specs) : res (list LayerGroup * specs) :=
  d ← (if vf_disable_hybrid_kv_cache_manager c then unify_hybrid_kv_cache_specs d else Ok d);
  match d with
  | [] => Ok ([], d)
  | _ =>
      uniform ← is_kv_cache_spec_uniform d;
      if (uniform : bool) then groups ← _get_kv_cache_groups_uniform_spec d; Ok (groups, d)
      else
        spec ← from_specs d;
        match spec with
        | Some g => Ok (_get_kv_cache_groups_uniform_type d g, d)
        | None =>
            grouped ← group_and_unify_kv_cache_specs d;
            match grouped with
            | Some ds =>
                groups ← _get_kv_cache_groups_uniform_groups ds;
                Ok (_annotate_eagle_groups_deepseek_v4 c d groups, d)
            | None => groups ← general_groups d; Ok (groups, d)
            end
        end
  end.

(** ** The memory of one request, and the longest model length *)
Definition _max_memory_usage_bytes_from_groups (c : VllmConfig) (groups : list LayerGroup) : res Z :=
  match groups with
  | [] => Ok 0
  | [mkLGroup _ (UniformTypeKVCacheSpecs _ d) _] =>
      mems ← rmap (max_memory_usage_bytes c) d.*2; Ok (zsum mems)
  | mkLGroup _ spec _ :: _ =>
      match forallb is_uniform_group groups, spec with
      | true, UniformTypeKVCacheSpecs _ full_mla =>
          page_sizes ← get_page_sizes full_mla;
          let specs_of g := match lg_spec g with UniformTypeKVCacheSpecs _ d => d | Same _ => [] end in
          tuples ← rmap (λ g, get_num_layer_tuples (specs_of g)) groups;
          num_layer_tuples ← zmax tuples;
          pages ← rmap (λ g, max_memory_usage_pages c (specs_of g)) groups;
          Ok (zsum ((λ p, num_layer_tuples * p * zsum page_sizes) <$> pages))
      | _, _ =>
          group_size ← zmax ((λ g, len (lg_layer_names g)) <$> groups);
          pages ← rmap (λ g, group_page_size (lg_spec g)) groups;
          page_size ← get_uniform_page_size pages;
          blocks ← rmap (λ g, mem ← group_max_memory c (lg_spec g); Ok (cdiv mem page_size)) groups;
          Ok (group_size * page_size * zsum blocks)
      end
  end.

(** The binary search; [needed m]: the memory needed when the model's length is [m].
    [result] is the longest length found to fit. *)
Fixpoint search_loop (fuel : nat) (needed : Z → res Z) (available_memory left right result : Z) : res Z :=
  match fuel with
  | O => Raise OutOfFuel
  | S fuel =>
      if left <=? right
      then let mid := (left + right) / 2 in
           mem ← needed mid;
           if mem <=? available_memory
           then search_loop fuel needed available_memory (mid + 1) right mid
           else search_loop fuel needed available_memory left (mid - 1) result
      else Ok result
  end.
Definition search_max_len (needed : Z → res Z) (available_memory original_max : Z) : res Z :=
  mem ← needed 1;
  if negb (mem <=? available_memory) then Ok 0
  else search_loop (S (Z.to_nat original_max)) needed available_memory 1 original_max 1.

Definition max_memory_usage (c : VllmConfig) (ss : list LayerSpec) : res Z :=
  mems ← rmap (max_memory_usage_bytes c) ss; Ok (zsum mems).
Definition estimate_max_model_len (c : VllmConfig) (d : specs) (available_memory : Z) : res Z :=
  search_max_len (λ m, max_memory_usage (vf_set_max_model_len m c) d.*2) available_memory (vf_max_model_len c).
Definition _estimate_max_model_len_from_groups (c : VllmConfig) (groups : list LayerGroup) (available_memory : Z) : res Z :=
  search_max_len (λ m, _max_memory_usage_bytes_from_groups (vf_set_max_model_len m c) groups) available_memory (vf_max_model_len c).

Definition _check_enough_kv_cache_memory (available_memory : Z) (needed_memory : res Z) (estimate : Z → res Z) : res () :=
  if available_memory <=? 0 then Raise ValueError
  else needed ← needed_memory;
       if available_memory <? needed then _ ← estimate available_memory; Raise ValueError
       else Ok tt.
Definition check_enough_kv_cache_memory (c : VllmConfig) (d : specs) (available_memory : Z) : res () :=
  match d with
  | [] => Ok tt
  | _ => _check_enough_kv_cache_memory available_memory (max_memory_usage c d.*2) (estimate_max_model_len c d)
  end.

Fixpoint auto_fit_loop (c : VllmConfig) (workers : list (list LayerGroup * Z)) (auto_fit_max : Z) : res Z :=
  match workers with
  | [] => Ok auto_fit_max
  | ([], _) :: workers' => auto_fit_loop c workers' auto_fit_max
  | (groups, available_memory) :: workers' =>
      worker_max ← _estimate_max_model_len_from_groups c groups available_memory;
      auto_fit_loop c workers' (if worker_max <? auto_fit_max then worker_max else auto_fit_max)
  end.

(** [_auto_fit_max_model_len] gives the configuration it changes. *)
Definition _auto_fit_max_model_len (c : VllmConfig) (projected : list (list LayerGroup)) (available_memory : list Z) : res VllmConfig :=
  let original_max := vf_max_model_len c in
  if forallb (λ groups : list LayerGroup, match groups with [] => true | _ => false end) projected then Ok c
  else
    auto_fit_max ← auto_fit_loop c (zip projected available_memory) original_max;
    if auto_fit_max <=? 0 then Raise ValueError
    else if original_max <=? auto_fit_max then Ok c
    else Ok (vf_set_max_model_len auto_fit_max c).

(** ** The configurations of the workers *)
Definition project_group (worker : specs) (g : LayerGroup) : res LayerGroup :=
  let names := filter (λ n, n ∈ worker.*1) (lg_layer_names g) in
  spec ← match lg_spec g, names with
         | UniformTypeKVCacheSpecs bs d, _ :: _ =>
             sub ← rmap (λ n, s ← spec_at n d; Ok (n, s)) names; Ok (UniformTypeKVCacheSpecs bs sub)
         | spec, _ => Ok spec
         end;
  Ok (mkLGroup names spec (lg_is_eagle_group g && negb (bool_decide (names = [])))).
Definition _project_kv_cache_groups_to_worker (groups : list LayerGroup) (worker : specs) : res (list LayerGroup) :=
  rmap (project_group worker) groups.

Fixpoint merge_worker (worker merged : specs) : res specs :=
  match worker with
  | [] => Ok merged
  | (name, s) :: worker' =>
      match spec_get name merged with
      | None => merge_worker worker' (merged ++ [(name, s)])
      | Some s' => _ ← rassert (bool_decide (s' = s)); merge_worker worker' merged
      end
  end.
Fixpoint merge_workers (workers : list specs) (merged : specs) : res specs :=
  match workers with [] => Ok merged | w :: ws => merged ← merge_worker w merged; merge_workers ws merged end.

(** [KVCacheSpecRegistry.check_kv_cache_spec_registry] *)
Definition check_kv_cache_spec_registry (d : specs) : res () :=
  if existsb (is_class EncoderOnlyAttentionSpec) d.*2 then Raise ValueError else Ok tt.

Definition adjust_memory (c : VllmConfig) (w : list LayerGroup * Z) : res Z :=
  match vf_num_gpu_blocks_override c, w.1 with
  | None, _ | _, [] => Ok w.2
  | Some override, groups => bytes ← _pool_bytes_per_block groups; Ok (override * bytes)
  end.

Definition check_worker (c : VllmConfig) (w : list LayerGroup * Z) : res () :=
  match w.1 with
  | [] => Ok tt
  | groups => _check_enough_kv_cache_memory w.2 (_max_memory_usage_bytes_from_groups c groups)
                (_estimate_max_model_len_from_groups c groups)
  end.

Definition worker_config (c : VllmConfig) (w : list LayerGroup * specs * Z) : res LayerConfig :=
  let '(groups, worker, available_memory) := w in
  _ ← rassert (zsum ((λ g, len (lg_layer_names g)) <$> groups) =? len worker);
  get_kv_cache_config_from_groups c groups available_memory.

(** The tensors shrink with the number of blocks. *)
Definition shrink_tensor (num_blocks_old num_blocks : Z) (t : KVCacheTensor) : res KVCacheTensor :=
  old ← floor_div (kt_size t) num_blocks_old;
  _ ← rassert (kt_size t mod num_blocks_old =? 0);
  Ok (mkTensor (old * num_blocks) (kt_shared_by t)).
Definition shrink_config (num_blocks : Z) (cfg : LayerConfig) : res LayerConfig :=
  tensors ← rmap (shrink_tensor (lc_num_blocks cfg) num_blocks) (lc_kv_cache_tensors cfg);
  Ok (mkLConfig num_blocks tensors (lc_kv_cache_groups cfg)).

(** With the configuration, whose maximal length may be reduced *)
Definition get_kv_cache_configs (c : VllmConfig) (workers : list specs) (available_memory : list Z)
    : res (VllmConfig * list LayerConfig) :=
  merged ← merge_workers workers [];
  _ ← check_kv_cache_spec_registry merged;
  '(global_groups, _) ← get_kv_cache_groups c merged;
  projected ← rmap (_project_kv_cache_groups_to_worker global_groups) workers;
  available_memory ← (match vf_num_gpu_blocks_override c with
                      | None => Ok available_memory
                      | Some _ => rmap (adjust_memory c) (zip projected available_memory)
                      end);
  c ← (if vf_original_max_model_len c =? -1 then _auto_fit_max_model_len c projected available_memory else Ok c);
  _ ← rmap (check_worker c) (zip projected available_memory);
  configs ← rmap (worker_config c) (zip (zip projected workers) available_memory);
  min_num_blocks ← zmin (lc_num_blocks <$> configs);
  configs ← rmap (shrink_config min_num_blocks) configs;
  Ok (c, configs).

(** [generate_scheduler_kv_cache_config] *)
Definition scheduler_group (g : LayerGroup) : res LayerGroup :=
  match lg_spec g with
  | Same _ => Ok g
  | UniformTypeKVCacheSpecs _ ((_, s) :: _) => Ok (mkLGroup (lg_layer_names g) (Same s) (lg_is_eagle_group g))
  | UniformTypeKVCacheSpecs _ [] => Raise StopIteration
  end.
Definition generate_scheduler_kv_cache_config (configs : list LayerConfig) : res LayerConfig :=
  match configs with
  | [] => Raise IndexError
  | cfg :: _ =>
      _ ← rassert (forallb (λ c, lc_num_blocks c =? lc_num_blocks cfg) configs);
      groups ← rmap scheduler_group (lc_kv_cache_groups cfg);
      Ok (mkLConfig (lc_num_blocks cfg) (lc_kv_cache_tensors cfg) groups)
  end.
End config.
End Config.
