(* ===== verification/KVConfigSafe.v ===== *)
(** * The KV-cache configuration is sound

    The configurations that [get_kv_cache_configs] gives fit the memory of their
    workers, serve every layer by exactly one tensor, agree on the number of blocks,
    and hold a request of maximal length; the search for the longest model length is
    exact. *)
From S2P Require Import Prelude KVSpec LayerSpec KVConfig.

(** ** Results of loops *)
Lemma rassert_Ok b u : rassert b = Ok u → b = true.
Proof. by destruct b. Qed.

Lemma floor_div_Ok a b q : Config.floor_div a b = Ok q → b ≠ 0 ∧ q = a / b.
Proof. unfold Config.floor_div. destruct (Z.eqb_spec b 0); [done|]. by intros [= <-]. Qed.

Lemma rmap_Forall2 {A B} (f : A → res B) l ys : rmap f l = Ok ys ↔ Forall2 (λ x y, f x = Ok y) l ys.
Proof.
  revert ys. induction l as [|x l IH]; intros ys; simpl.
  - split; [intros [= <-]; constructor|]. by inversion 1.
  - split.
    + intros (y & Hy & (ys' & Hys & [= <-])%bind_Ok)%bind_Ok. constructor; [done|]. by apply IH.
    + inversion 1 as [|? y ? ys' Hy Hys]; subst. rewrite Hy. cbn [mbind res_bind]. by rewrite (proj2 (IH ys') Hys).
Qed.

Lemma rmap_length {A B} (f : A → res B) l ys : rmap f l = Ok ys → length ys = length l.
Proof. intros H%rmap_Forall2. symmetry. by eapply Forall2_length. Qed.

Lemma rmap_lookup {A B} (f : A → res B) l ys i x :
  rmap f l = Ok ys → l !! i = Some x → ∃ y, f x = Ok y ∧ ys !! i = Some y.
Proof. intros H%rmap_Forall2 Hx. destruct (Forall2_lookup_l _ _ _ _ _ H Hx) as (y & Hy & E). by exists y. Qed.

Lemma rmap_lookup_r {A B} (f : A → res B) l ys i y :
  rmap f l = Ok ys → ys !! i = Some y → ∃ x, l !! i = Some x ∧ f x = Ok y.
Proof. intros H%rmap_Forall2 Hy. destruct (Forall2_lookup_r _ _ _ _ _ H Hy) as (x & Hx & E). by exists x. Qed.

Lemma rmap_elem {A B} (f : A → res B) l ys y : rmap f l = Ok ys → y ∈ ys → ∃ x, x ∈ l ∧ f x = Ok y.
Proof.
  intros H [i Hi]%list_elem_of_lookup. destruct (rmap_lookup_r _ _ _ _ _ H Hi) as (x & Hx & E).
  exists x. split; [by eapply list_elem_of_lookup_2|done].
Qed.

Lemma zmax_Ok l m : zmax l = Ok m → m ∈ l ∧ ∀ x, x ∈ l → x ≤ m.
Proof.
  destruct l as [|x0 l]; [done|]. intros [= <-]. revert x0. induction l as [|y l IH]; intros x0; simpl.
  - split; [left|]. by intros x ->%list_elem_of_singleton.
  - destruct (IH (Z.max x0 y)) as [H1 H2]. split.
    + apply elem_of_cons in H1 as [->|H1]; [destruct (Z.max_spec x0 y) as [[_ ->]|[_ ->]]; set_solver|set_solver].
    + intros x [->|[->|Hx]%elem_of_cons]%elem_of_cons; [pose proof (H2 (Z.max x0 y)) as H; specialize (H ltac:(left)); lia..|].
      apply H2. by right.
Qed.

Lemma zmin_Ok l m : zmin l = Ok m → m ∈ l ∧ ∀ x, x ∈ l → m ≤ x.
Proof.
  destruct l as [|x0 l]; [done|]. intros [= <-]. revert x0. induction l as [|y l IH]; intros x0; simpl.
  - split; [left|]. by intros x ->%list_elem_of_singleton.
  - destruct (IH (Z.min x0 y)) as [H1 H2]. split.
    + apply elem_of_cons in H1 as [->|H1]; [destruct (Z.min_spec x0 y) as [[_ ->]|[_ ->]]; set_solver|set_solver].
    + intros x [->|[->|Hx]%elem_of_cons]%elem_of_cons; [pose proof (H2 (Z.min x0 y)) as H; specialize (H ltac:(left)); lia..|].
      apply H2. by right.
Qed.

Lemma zsum_cons x l : zsum (x :: l) = x + zsum l.
Proof. done. Qed.

Lemma zsum_app l1 l2 : zsum (l1 ++ l2) = zsum l1 + zsum l2.
Proof. induction l1 as [|x l1 IH]; [done|]. rewrite <- app_comm_cons, !zsum_cons, IH. lia. Qed.

Lemma zsum_mul_l {A} (f : A → Z) k l : zsum ((λ x, k * f x) <$> l) = k * zsum (f <$> l).
Proof. induction l as [|x l IH]; [unfold zsum; simpl; lia|]. rewrite !fmap_cons, !zsum_cons, IH. lia. Qed.

Lemma zsum_const {A} k (l : list A) : zsum ((λ _, k) <$> l) = k * len l.
Proof. induction l as [|x l IH]; [unfold zsum; simpl; lia|]. rewrite fmap_cons, zsum_cons, IH. simpl length. lia. Qed.

Lemma zsum_mono {A} (f g : A → Z) l : (∀ x, x ∈ l → f x ≤ g x) → zsum (f <$> l) ≤ zsum (g <$> l).
Proof.
  induction l as [|x l IH]; intros H; [done|]. rewrite !fmap_cons, !zsum_cons.
  pose proof (H x ltac:(left)). assert (zsum (f <$> l) ≤ zsum (g <$> l)) by (apply IH; intros; apply H; by right). lia.
Qed.

Lemma uniform_page_Ok pages p : Config.get_uniform_page_size pages = Ok p → pages ≠ [] ∧ ∀ q, q ∈ pages → q = p.
Proof.
  unfold Config.get_uniform_page_size. destruct (remove_dups pages) as [|x [|]] eqn:E; [done| |done]. intros [= <-]. split.
  - intros ->. done.
  - intros q Hq. apply elem_of_remove_dups in Hq. rewrite E in Hq. by apply list_elem_of_singleton in Hq.
Qed.

(** ** The search for the longest model length *)
Section search.
Context (needed : Z → res Z) (f : Z → Z) (avail mx : Z).
Context (Hf : ∀ m, 1 ≤ m ≤ Z.max 1 mx → needed m = Ok (f m)) (Hmono : ∀ m m', 1 ≤ m ≤ m' → m' ≤ Z.max 1 mx → f m ≤ f m').

Lemma search_loop_ok fuel left right result :
  1 ≤ left → right ≤ mx → left ≤ right + 1 → result = left - 1 ∨ left = 1 ∧ result = 1 → f result ≤ avail → 1 ≤ result ≤ Z.max 1 mx →
  (∀ m, right < m ≤ mx → avail < f m) → (Z.to_nat (right - left + 1) < fuel)%nat →
  ∃ r, Config.search_loop fuel needed avail left right result = Ok r ∧ 1 ≤ r ≤ Z.max 1 mx ∧
    ∀ m, 1 ≤ m ≤ mx → f m ≤ avail ↔ m ≤ r.
Proof.
  revert left right result. induction fuel as [|fuel IH]; intros left right result Hl Hr Hlr Hres Hfit Hpos Hno Hfuel; [lia|].
  simpl. destruct (Z.leb_spec left right) as [Hle|Hgt].
  - set (mid := (left + right) / 2). assert (Hmid : left ≤ mid ≤ right).
    { unfold mid. split; [apply Z.div_le_lower_bound; lia|apply Z.div_le_upper_bound; lia]. }
    rewrite Hf by lia. cbn [mbind res_bind]. destruct (Z.leb_spec (f mid) avail) as [Hfm|Hfm].
    + apply IH; try lia. intros m Hm. apply Hno. lia.
    + apply IH; try lia. intros m Hm. pose proof (Hmono mid m). lia.
  - exists result. split; [done|]. split; [done|]. intros m Hm. split; intros H.
    + destruct (Z.le_gt_cases m right); [lia|]. pose proof (Hno m). lia.
    + pose proof (Hmono m result). lia.
Qed.

Lemma search_max_len_ok :
  ∃ r, Config.search_max_len needed avail mx = Ok r ∧ 0 ≤ r ≤ Z.max 1 mx ∧
    ∀ m, 1 ≤ m ≤ mx → f m ≤ avail ↔ m ≤ r.
Proof.
  unfold Config.search_max_len. rewrite Hf by lia. cbn [mbind res_bind].
  destruct (Z.leb_spec (f 1) avail) as [H1|H1]; cbn [negb].
  - destruct (Z.le_gt_cases 1 mx) as [Hmx|Hmx].
    + destruct (search_loop_ok (S (Z.to_nat mx)) 1 mx 1) as (r & E & Hr & H); try lia.
      exists r. split_and!; [done|lia|lia|done].
    + exists 1. simpl. destruct (Z.leb_spec 1 mx); [lia|]. split_and!; [done|lia|lia|]. intros m Hm. lia.
  - exists 0. split_and!; [done|lia|lia|]. intros m Hm. pose proof (Hmono 1 m). lia.
Qed.
End search.

(** ** The memory grows with the model's length *)
Section memory.
Context (get_dtype_size : string → Z).
Abbreviation page_size_bytes := (Layer.page_size_bytes get_dtype_size).
Abbreviation layer_mem := (Layer.max_memory_usage_bytes get_dtype_size).
Abbreviation group_page := (Config.group_page_size get_dtype_size).
Abbreviation groups_mem := (Config._max_memory_usage_bytes_from_groups get_dtype_size).
Implicit Types (c : VllmConfig) (s : LayerSpec) (g : LayerGroup).

(** Blocks of at least one token, pages of at least one byte *)
Definition layer_wf s : Prop := 0 < l_block_size s ∧ ∀ p, page_size_bytes s = Ok p → 0 < p.
Definition group_layers g : list LayerSpec :=
  match lg_spec g with Same s => [s] | UniformTypeKVCacheSpecs _ d => d.*2 end.
Definition group_wf g : Prop := Forall layer_wf (group_layers g).

Lemma layer_mem_mono c m s x :
  layer_wf s → layer_mem c s = Ok x → vf_max_model_len c ≤ m →
  ∃ x', layer_mem (vf_set_max_model_len m c) s = Ok x' ∧ x ≤ x'.
Proof.
  intros [Hbs Hpage] E Hm. unfold Layer.max_memory_usage_bytes in *.
  assert (Hfull : ∀ p, page_size_bytes s = Ok p → 0 < p) by done.
  assert (Hcd : ∀ a b p, a ≤ b → 0 < p → cdiv a (l_block_size s) * p ≤ cdiv b (l_block_size s) * p)
    by (intros a b p Hab Hp; pose proof (cdiv_mono a b (l_block_size s) Hbs Hab); nia).
  destruct (l_class s).
  1-5: apply bind_Ok in E as (p & Ep & E); apply Ok_inj in E as <-; rewrite Ep; cbn [mbind res_bind]; eexists; (split; [done|]);
    apply Hcd; [|by apply Hpage]; simpl; destruct (Z.ltb_spec 1 (vf_decode_context_parallel_size c * vf_prefill_context_parallel_size c));
    [apply cdiv_mono; lia|done].
  - destruct (l_attention_chunk_size s) as [w|]; [|done]. cbn [mbind res_bind] in *.
    apply bind_Ok in E as (p & Ep & E). apply Ok_inj in E as <-. rewrite Ep. cbn [mbind res_bind]. eexists. split; [done|].
    unfold chunked_max_admission. apply Hcd; [simpl; lia|by apply Hpage].
  - apply bind_Ok in E as (u & Eu & E). simpl. rewrite Eu. cbn [mbind res_bind].
    destruct (l_sliding_window s) as [w|]; [|done]. cbn [mbind res_bind] in *.
    apply bind_Ok in E as (p & Ep & E). apply Ok_inj in E as <-. rewrite Ep. cbn [mbind res_bind]. eexists. split; [done|].
    unfold sliding_max_admission. rewrite !Z.mul_add_distr_r. apply Z.add_le_mono_r, Hcd; [lia|by apply Hpage].
  - apply bind_Ok in E as (u & Eu & E). simpl. rewrite Eu. cbn [mbind res_bind].
    destruct (l_sliding_window s) as [w|]; [|done]. cbn [mbind res_bind] in *.
    apply bind_Ok in E as (p & Ep & E). apply Ok_inj in E as <-. rewrite Ep. cbn [mbind res_bind]. eexists. split; [done|].
    unfold sliding_max_admission. rewrite !Z.mul_add_distr_r. apply Z.add_le_mono_r, Hcd; [lia|by apply Hpage].
  - apply bind_Ok in E as (p & Ep & E). apply Ok_inj in E as <-. rewrite Ep. cbn [mbind res_bind]. eexists. split; [done|].
    simpl. destruct (vf_mamba_cache_mode c); [lia| |lia]. rewrite !Z.mul_add_distr_r. apply Z.add_le_mono_r, Hcd; [done|by apply Hpage].
  - exists x. by injection E as <-.
  - exists x. split; [exact E|lia].
Qed.

Lemma rmap_mono {A} (f f' : A → res Z) l ys :
  (∀ x y, x ∈ l → f x = Ok y → ∃ y', f' x = Ok y' ∧ y ≤ y') → rmap f l = Ok ys →
  ∃ ys', rmap f' l = Ok ys' ∧ Forall2 Z.le ys ys'.
Proof.
  revert ys. induction l as [|x l IH]; intros ys Hf; simpl.
  - intros [= <-]. by exists [].
  - intros (y & Hy & (ys1 & Hys & [= <-])%bind_Ok)%bind_Ok.
    destruct (Hf x y ltac:(left) Hy) as (y' & -> & Hle). destruct (IH ys1) as (ys' & -> & Hall); [by intros; apply Hf; [right|]|done|].
    cbn [mbind res_bind]. exists (y' :: ys'). split; [done|by constructor].
Qed.

Lemma zsum_Forall2 l l' : Forall2 Z.le l l' → zsum l ≤ zsum l'.
Proof. induction 1; [done|]. rewrite !zsum_cons. lia. Qed.

Lemma zmax_Forall2 l l' m : Forall2 Z.le l l' → zmax l = Ok m → ∃ m', zmax l' = Ok m' ∧ m ≤ m'.
Proof.
  intros H Hm. pose proof (zmax_Ok _ _ Hm) as [[i Hi]%list_elem_of_lookup _].
  destruct (Forall2_lookup_l _ _ _ _ _ H Hi) as (y & Hy & Hle).
  destruct (zmax l') as [m'|] eqn:Em'; [|destruct l'; [by inversion H; subst|done]].
  exists m'. split; [done|]. pose proof (proj2 (zmax_Ok _ _ Em') y (list_elem_of_lookup_2 _ _ _ Hy)). lia.
Qed.

(** The pages of a uniform type *)
Lemma pages_mono c m (d : specs) x :
  Forall layer_wf d.*2 → Config.max_memory_usage_pages get_dtype_size c d = Ok x → vf_max_model_len c ≤ m →
  ∃ x', Config.max_memory_usage_pages get_dtype_size (vf_set_max_model_len m c) d = Ok x' ∧ x ≤ x'.
Proof.
  intros Hwf (ps & Eps & Em)%bind_Ok Hm. unfold Config.max_memory_usage_pages.
  assert (H : ∀ s y, s ∈ d.*2 → (mem ← layer_mem c s; page ← page_size_bytes s; Ok (cdiv mem page)) = Ok y → ∃ y',
    (mem ← layer_mem (vf_set_max_model_len m c) s; page ← page_size_bytes s; Ok (cdiv mem page)) = Ok y' ∧ y ≤ y').
  { intros s y Hs (mem & Emem & (p & Ep & E)%bind_Ok)%bind_Ok. apply Ok_inj in E as <-.
    rewrite Forall_forall in Hwf. destruct (layer_mem_mono c m s mem (Hwf s Hs) Emem Hm) as (mem' & -> & Hle).
    cbn [mbind res_bind]. rewrite Ep. cbn [mbind res_bind]. eexists. split; [done|]. apply cdiv_mono; [|done]. by apply (Hwf s Hs). }
  destruct (rmap_mono _ (λ s, mem ← layer_mem (vf_set_max_model_len m c) s; page ← page_size_bytes s; Ok (cdiv mem page))
    _ _ H Eps) as (ps' & -> & Hall).
  cbn [mbind res_bind]. by eapply zmax_Forall2.
Qed.

(** The page of a group is positive when it has a layer. *)
Lemma group_page_pos g p : group_wf g → group_layers g ≠ [] → group_page (lg_spec g) = Ok p → 0 < p.
Proof.
  unfold group_wf, group_layers, group_page. destruct (lg_spec g) as [s|bs d]; intros Hwf Hne E.
  - destruct (proj1 (Forall_singleton _ _) Hwf) as [_ H]. by apply H.
  - apply bind_Ok in E as (ps & Eps & E). apply Ok_inj in E as <-. rewrite Forall_forall in Hwf.
    assert (Hpos : ∀ q, q ∈ ps → 0 < q).
    { intros q Hq. destruct (rmap_elem _ _ _ _ Eps Hq) as (s & Hs & E). by apply (Hwf s Hs). }
    destruct ps as [|q ps]; [apply rmap_length in Eps; by destruct d.*2|]. clear Eps. rewrite zsum_cons.
    assert (0 ≤ zsum ps); [|pose proof (Hpos q ltac:(left)); lia].
    clear Hwf Hne. induction ps as [|q' ps IH]; [done|]. rewrite zsum_cons.
    pose proof (Hpos q' ltac:(set_solver)). assert (0 ≤ zsum ps) by (apply IH; set_solver). lia.
Qed.

Lemma group_mem_mono c m g x :
  group_wf g → group_layers g ≠ [] → Config.group_max_memory get_dtype_size c (lg_spec g) = Ok x → vf_max_model_len c ≤ m →
  ∃ x', Config.group_max_memory get_dtype_size (vf_set_max_model_len m c) (lg_spec g) = Ok x' ∧ x ≤ x'.
Proof.
  intros Hwf Hne E Hm. pose proof (group_page_pos g) as Hpos. unfold group_wf, group_layers in *.
  destruct (lg_spec g) as [s|bs d]; simpl in *.
  - by apply layer_mem_mono; [apply (proj1 (Forall_singleton _ _) Hwf)|..].
  - apply bind_Ok in E as (n & En & (p & Ep & E)%bind_Ok). apply Ok_inj in E as <-.
    destruct (pages_mono c m d n Hwf En Hm) as (n' & -> & Hle). cbn [mbind res_bind]. rewrite Ep. cbn [mbind res_bind].
    eexists. split; [done|]. pose proof (Hpos p Hwf Hne Ep). nia.
Qed.
Definition groups_ok (groups : list LayerGroup) : Prop := Forall (λ g, group_wf g ∧ group_layers g ≠ []) groups.

Lemma Forall2_scale k (l l' : list Z) : 0 ≤ k → Forall2 Z.le l l' → Forall2 Z.le ((λ p, p * k) <$> l) ((λ p, p * k) <$> l').
Proof. intros Hk. induction 1; simpl; constructor; [nia|done]. Qed.

Lemma zmax_len_nonneg {A} (f : A → Z) l m : (∀ x, 0 ≤ f x) → zmax (f <$> l) = Ok m → 0 ≤ m.
Proof. intros Hf H. apply zmax_Ok in H as [(x & -> & _)%list_elem_of_fmap _]. apply Hf. Qed.

Lemma tuples_nonneg d n : Config.get_num_layer_tuples get_dtype_size d = Ok n → 0 ≤ n.
Proof.
  intros (ps & _ & E)%bind_Ok. destruct ps as [|p ps]; [done|]. eapply zmax_len_nonneg; [|exact E]. intros x; simpl; lia.
Qed.

Lemma page_sizes_nonneg d l : Forall layer_wf d.*2 → Config.get_page_sizes get_dtype_size d = Ok l → 0 ≤ zsum l.
Proof.
  intros Hwf (ps & Eps & E)%bind_Ok. apply Ok_inj in E as <-. rewrite Forall_forall in Hwf.
  assert (Hpos : ∀ q, q ∈ remove_dups ps → 0 < q).
  { intros q Hq. apply (proj1 (elem_of_remove_dups _ _)) in Hq. destruct (rmap_elem _ _ _ _ Eps Hq) as (s & Hs & E). by apply (Hwf s Hs). }
  induction (remove_dups ps) as [|q l IH]; [done|]. rewrite zsum_cons. pose proof (Hpos q ltac:(left)).
  assert (0 ≤ zsum l) by (apply IH; intros; apply Hpos; by right). lia.
Qed.

Lemma general_mem_mono c m groups x :
  groups_ok groups → vf_max_model_len c ≤ m →
  (group_size ← zmax ((λ g, len (lg_layer_names g)) <$> groups);
   pages ← rmap (λ g, group_page (lg_spec g)) groups;
   page_size ← Config.get_uniform_page_size pages;
   blocks ← rmap (λ g, mem ← Config.group_max_memory get_dtype_size c (lg_spec g); Ok (cdiv mem page_size)) groups;
   Ok (group_size * page_size * zsum blocks)) = Ok x →
  ∃ x', (group_size ← zmax ((λ g, len (lg_layer_names g)) <$> groups);
   pages ← rmap (λ g, group_page (lg_spec g)) groups;
   page_size ← Config.get_uniform_page_size pages;
   blocks ← rmap (λ g, mem ← Config.group_max_memory get_dtype_size (vf_set_max_model_len m c) (lg_spec g); Ok (cdiv mem page_size)) groups;
   Ok (group_size * page_size * zsum blocks)) = Ok x' ∧ x ≤ x'.
Proof.
  intros Hok Hm (gs & Egs & (ps & Eps & (p & Ep & (bs & Ebs & E)%bind_Ok)%bind_Ok)%bind_Ok)%bind_Ok. apply Ok_inj in E as <-.
  unfold groups_ok in Hok. rewrite Forall_forall in Hok. rewrite Egs, Eps. cbn [mbind res_bind]. rewrite Ep. cbn [mbind res_bind].
  assert (Hp : 0 < p).
  { destruct (uniform_page_Ok _ _ Ep) as [Hne Hall]. destruct ps as [|q ps]; [done|].
    destruct (rmap_elem _ _ _ q Eps ltac:(left)) as (g & Hg & E). rewrite <- (Hall q ltac:(left)).
    destruct (Hok g Hg). by eapply group_page_pos. }
  assert (H : ∀ g y, g ∈ groups → (mem ← Config.group_max_memory get_dtype_size c (lg_spec g); Ok (cdiv mem p)) = Ok y →
    ∃ y', (mem ← Config.group_max_memory get_dtype_size (vf_set_max_model_len m c) (lg_spec g); Ok (cdiv mem p)) = Ok y' ∧ y ≤ y').
  { intros g y Hg (mem & Emem & E)%bind_Ok. apply Ok_inj in E as <-. destruct (Hok g Hg) as [Hwf Hne].
    destruct (group_mem_mono c m g mem Hwf Hne Emem Hm) as (mem' & -> & Hle). cbn [mbind res_bind]. eexists. split; [done|].
    by apply cdiv_mono. }
  destruct (rmap_mono _ _ _ _ H Ebs) as (bs' & -> & Hall). cbn [mbind res_bind]. eexists. split; [done|].
  apply zmax_len_nonneg in Egs; [|intros; simpl; lia]. apply Z.mul_le_mono_nonneg_l; [nia|by apply zsum_Forall2].
Qed.

Abbreviation group_specs := (λ g, match lg_spec g with UniformTypeKVCacheSpecs _ d => d | Same _ => [] end).

Lemma tuples_mem_mono c m full_mla groups x :
  groups_ok groups → Forall layer_wf (snd <$> full_mla) → vf_max_model_len c ≤ m →
  (page_sizes ← Config.get_page_sizes get_dtype_size full_mla;
   tuples ← rmap (λ g, Config.get_num_layer_tuples get_dtype_size (group_specs g)) groups;
   num_layer_tuples ← zmax tuples;
   pages ← rmap (λ g, Config.max_memory_usage_pages get_dtype_size c (group_specs g)) groups;
   Ok (zsum ((λ p, num_layer_tuples * p * zsum page_sizes) <$> pages))) = Ok x →
  ∃ x', (page_sizes ← Config.get_page_sizes get_dtype_size full_mla;
   tuples ← rmap (λ g, Config.get_num_layer_tuples get_dtype_size (group_specs g)) groups;
   num_layer_tuples ← zmax tuples;
   pages ← rmap (λ g, Config.max_memory_usage_pages get_dtype_size (vf_set_max_model_len m c) (group_specs g)) groups;
   Ok (zsum ((λ p, num_layer_tuples * p * zsum page_sizes) <$> pages))) = Ok x' ∧ x ≤ x'.
Proof.
  intros Hok Hfull Hm (szs & Esz & (ts & Ets & (n & En & (ps & Eps & E)%bind_Ok)%bind_Ok)%bind_Ok)%bind_Ok.
  apply Ok_inj in E as <-. rewrite Esz, Ets. cbn [mbind res_bind]. rewrite En. cbn [mbind res_bind].
  unfold groups_ok in Hok. rewrite Forall_forall in Hok.
  assert (H : ∀ g y, g ∈ groups → Config.max_memory_usage_pages get_dtype_size c (group_specs g) = Ok y →
    ∃ y', Config.max_memory_usage_pages get_dtype_size (vf_set_max_model_len m c) (group_specs g) = Ok y' ∧ y ≤ y').
  { intros g y Hg E. apply pages_mono; [|done|done]. destruct (Hok g Hg) as [Hwf _]. unfold group_wf, group_layers in Hwf.
    destruct (lg_spec g); [constructor|done]. }
  destruct (rmap_mono _ _ _ _ H Eps) as (ps' & -> & Hall). cbn [mbind res_bind]. eexists. split; [done|].
  assert (Hn : 0 ≤ n).
  { apply zmax_Ok in En as [Hin _]. destruct (rmap_elem _ _ _ _ Ets Hin) as (g & _ & E). by eapply tuples_nonneg. }
  pose proof (page_sizes_nonneg _ _ Hfull Esz) as Hs.
  assert (Heq : ∀ l : list Z, (λ p, n * p * zsum szs) <$> l = (λ p, p * (n * zsum szs)) <$> l)
    by (intros l; apply list_fmap_ext; intros; simpl; lia).
  rewrite !Heq. apply zsum_Forall2, Forall2_scale; [nia|done].
Qed.

Lemma groups_mem_mono c m groups x :
  groups_ok groups → groups_mem c groups = Ok x → vf_max_model_len c ≤ m →
  ∃ x', groups_mem (vf_set_max_model_len m c) groups = Ok x' ∧ x ≤ x'.
Proof.
  intros Hok E Hm. destruct groups as [|[names [s|bs d] e] [|g2 groups]].
  - exists x. by split; [|apply Ok_inj in E as <-].
  - by apply general_mem_mono.
  - by apply general_mem_mono.
  - apply bind_Ok in E as (ms & Ems & E). apply Ok_inj in E as <-. pose proof (proj1 (Forall_singleton _ _) Hok) as [Hwf _].
    unfold group_wf, group_layers in Hwf. simpl in Hwf. rewrite Forall_forall in Hwf.
    destruct (rmap_mono _ (layer_mem (vf_set_max_model_len m c)) _ _ (λ s y Hs E, layer_mem_mono c m s y (Hwf s Hs) E Hm) Ems)
      as (ms' & Ems' & Hall).
    simpl. rewrite Ems'. cbn [mbind res_bind]. eexists. split; [done|]. by apply zsum_Forall2.
  - cbn [Config._max_memory_usage_bytes_from_groups] in *. destruct (forallb is_uniform_group _); [|by apply general_mem_mono].
    apply tuples_mem_mono; [done| |done|done]. apply Forall_cons in Hok as [[Hwf _] _]. exact Hwf.
Qed.
End memory.

(** The longest model length for the groups of a worker *)
Lemma estimate_ok get_dtype_size c groups avail :
  groups_ok get_dtype_size groups → 1 ≤ vf_max_model_len c →
  is_Some (match Config._max_memory_usage_bytes_from_groups get_dtype_size (vf_set_max_model_len 1 c) groups with
           | Ok x => Some x | Raise _ => None end) →
  ∃ r, Config._estimate_max_model_len_from_groups get_dtype_size c groups avail = Ok r ∧ 0 ≤ r ≤ vf_max_model_len c ∧
    ∀ m, 1 ≤ m ≤ vf_max_model_len c →
      (∃ x, Config._max_memory_usage_bytes_from_groups get_dtype_size (vf_set_max_model_len m c) groups = Ok x ∧ x ≤ avail)
      ↔ m ≤ r.
Proof.
  intros Hok Hmx [x1 E1]. set (needed m := Config._max_memory_usage_bytes_from_groups get_dtype_size (vf_set_max_model_len m c) groups) in *.
  destruct (Config._max_memory_usage_bytes_from_groups _ _ _) as [x|] eqn:Ex; [|done].
  set (f m := match needed m with Ok x => x | Raise _ => 0 end).
  assert (Hgrow : ∀ m m' y, m ≤ m' → needed m = Ok y → ∃ y', needed m' = Ok y' ∧ y ≤ y').
  { intros m m' y Hm E. exact (groups_mem_mono get_dtype_size (vf_set_max_model_len m c) m' groups y Hok E Hm). }
  assert (Hall : ∀ m, 1 ≤ m → needed m = Ok (f m)).
  { intros m Hm. destruct (Hgrow 1 m x Hm Ex) as (y & E & _). unfold f. by rewrite E. }
  destruct (search_max_len_ok needed f avail (vf_max_model_len c)) as (r & E & Hr & Hfits).
  - intros m Hm. apply Hall. lia.
  - intros m m' Hm Hm'. destruct (Hgrow m m' (f m)) as (y & E & Hle); [lia|apply Hall; lia|].
    unfold f at 2. by rewrite E.
  - exists r. split_and!; [exact E|lia|lia|]. intros m Hm. rewrite <- Hfits by done. fold (needed m). rewrite Hall by lia.
    split; [by intros (y & [= <-] & Hle)|]. intros Hle. by exists (f m).
Qed.

(** ** Tensors *)
Section tensors.
Context (get_dtype_size : string → Z) (c : VllmConfig) (Hno : vf_num_gpu_blocks_override c = None).
Abbreviation page_size_bytes := (Layer.page_size_bytes get_dtype_size).
Abbreviation group_page := (Config.group_page_size get_dtype_size).
Abbreviation layer_page := (Config.layer_page_size get_dtype_size).

Definition total_size (ts : list KVCacheTensor) : Z := zsum (kt_size <$> ts).
Definition all_names (groups : list LayerGroup) : list string := groups ≫= lg_layer_names.

(** Every layer has one tensor, with a page for each of its group's blocks; layers
    of one group do not share. *)
Record layout (groups : list LayerGroup) (num_blocks : Z) (ts : list KVCacheTensor) : Prop := {
  la_cover : (ts ≫= kt_shared_by) ≡ₚ all_names groups;
  la_size t g n : t ∈ ts → g ∈ groups → n ∈ kt_shared_by t → n ∈ lg_layer_names g →
    ∃ p, layer_page g n = Ok p ∧ kt_size t = p * num_blocks;
  la_apart t g n m : t ∈ ts → g ∈ groups → n ∈ kt_shared_by t → m ∈ kt_shared_by t →
    n ∈ lg_layer_names g → m ∈ lg_layer_names g → n = m;
}.

(** *** The general layout *)
Lemma shared_by_elem groups i n : n ∈ Config.shared_by groups i ↔ ∃ g, g ∈ groups ∧ lg_layer_names g !! i = Some n.
Proof. unfold Config.shared_by. by rewrite list_elem_of_omap. Qed.

Lemma shared_by_columns groups i : Config.shared_by groups i = omap (λ l : list string, l !! i) (lg_layer_names <$> groups).
Proof.
  unfold Config.shared_by. induction groups as [|g groups IH]; [done|].
  cbn [fmap list_fmap omap list_omap] in *. by rewrite IH.
Qed.

Lemma concat_nils {A B} (l : list A) : concat ((λ _, @nil B) <$> l) = [].
Proof. by induction l. Qed.

Lemma omap_S {A} (x : A) l (js : list nat) : omap (λ i, (x :: l) !! i) (S <$> js) = omap (λ i, l !! i) js.
Proof. induction js as [|j js IH]; [done|]. cbn [fmap list_fmap omap list_omap] in *. rewrite IH. done. Qed.

Lemma omap_all {A} (l : list A) k : (length l ≤ k)%nat → omap (λ i, l !! i) (seq 0 k) = l.
Proof.
  revert k. induction l as [|x l IH]; intros k Hk.
  - clear Hk. generalize (seq 0 k). intros js. by induction js.
  - destruct k as [|k]; [simpl in Hk; lia|]. simpl. f_equal. rewrite <- fmap_S_seq, omap_S.
    apply IH. simpl in Hk. lia.
Qed.

Lemma omap_columns {A} (ls : list (list A)) k :
  (∀ l, l ∈ ls → (length l ≤ k)%nat) → concat ((λ i, omap (λ l, l !! i) ls) <$> seq 0 k) ≡ₚ concat ls.
Proof.
  induction ls as [|l ls IH]; intros Hk.
  - change (concat ((λ _ : nat, @nil A) <$> seq 0 k) ≡ₚ concat []). by rewrite concat_nils.
  - assert (Hl : omap (λ i, l !! i) (seq 0 k) = l) by (apply omap_all, Hk; left).
    trans (omap (λ i, l !! i) (seq 0 k) ++ concat ((λ i, omap (λ l, l !! i) ls) <$> seq 0 k)).
    2: { rewrite Hl. simpl. rewrite IH by (intros; apply Hk; by right). done. }
    generalize (seq 0 k). intros js. clear. induction js as [|i js IH]; [done|].
    cbn [fmap list_fmap omap list_omap concat] in *.
    destruct (l !! i) as [x|]; cbn [app]; rewrite IH; solve_Permutation.
Qed.

Lemma names_unique groups g g' n :
  NoDup (all_names groups) → g ∈ groups → g' ∈ groups → n ∈ lg_layer_names g → n ∈ lg_layer_names g' → g = g'.
Proof.
  unfold all_names. induction groups as [|h groups IH]; [set_solver|]. simpl. intros (H1 & H2 & H3)%NoDup_app.
  assert (Hin : ∀ k, k ∈ groups → n ∈ lg_layer_names k → n ∈ (groups ≫= lg_layer_names)).
  { intros k Hk Hn. apply list_elem_of_bind. by exists k. }
  intros [->|Hg]%elem_of_cons [->|Hg']%elem_of_cons Hn Hn'; [done| | |by apply IH];
    exfalso; eapply H2; eauto.
Qed.

Lemma concat_fmap_bind {A B} (f : A → list B) l : concat (f <$> l) = l ≫= f.
Proof. induction l as [|x l IH]; [done|]. cbn [fmap list_fmap mbind list_bind concat] in *. by rewrite IH. Qed.

Definition same_groups (groups : list LayerGroup) : Prop := Forall (λ g, ∃ s, lg_spec g = Same s) groups.

Lemma general_layout groups group_size pages page num_blocks :
  NoDup (all_names groups) → same_groups groups →
  zmax ((λ g, len (lg_layer_names g)) <$> groups) = Ok group_size →
  rmap (λ g, group_page (lg_spec g)) groups = Ok pages → Config.get_uniform_page_size pages = Ok page →
  layout groups num_blocks
    ((λ i, mkTensor (page * num_blocks) (Config.shared_by groups i)) <$> seq 0 (Z.to_nat group_size)).
Proof.
  intros Hnd Hsame [_ Hmax]%zmax_Ok Hpages [_ Hpage]%uniform_page_Ok.
  assert (Hg : ∀ g, g ∈ groups → ∃ s, lg_spec g = Same s ∧ page_size_bytes s = Ok page).
  { intros g Hin. destruct (proj1 (Forall_forall _ _) Hsame g Hin) as [s Es]. exists s. split; [done|].
    apply list_elem_of_lookup in Hin as [i Hi]. destruct (rmap_lookup _ _ _ _ _ Hpages Hi) as (p & Hp & Ep).
    rewrite Es in Hp. rewrite <- (Hpage p); [done|]. by eapply list_elem_of_lookup_2. }
  split.
  - unfold all_names. rewrite <- concat_fmap_bind, <- (concat_fmap_bind lg_layer_names).
    rewrite <- (omap_columns (lg_layer_names <$> groups) (Z.to_nat group_size)).
    + rewrite <- list_fmap_compose. match goal with |- ?a ≡ₚ ?b => enough (a = b) as -> by done end. f_equal. apply list_fmap_ext. intros _ i _. simpl.
      by rewrite shared_by_columns.
    + intros l (g & -> & Hin)%list_elem_of_fmap. enough (len (lg_layer_names g) ≤ group_size) by lia.
      apply Hmax, list_elem_of_fmap. by exists g.
  - intros t g n (i & -> & _)%list_elem_of_fmap Hin _ _. destruct (Hg g Hin) as (s & Es & Ep).
    exists page. unfold Config.layer_page_size. rewrite Es. done.
  - intros t g n m (i & -> & _)%list_elem_of_fmap Hin (g1 & H1 & E1)%shared_by_elem (g2 & H2 & E2)%shared_by_elem Hn Hm.
    rewrite (names_unique groups g1 g n) in E1 by eauto using list_elem_of_lookup_2.
    rewrite (names_unique groups g2 g m) in E2 by eauto using list_elem_of_lookup_2. congruence.
Qed.

Lemma total_size_const {A} size (f : A → list string) l : total_size ((λ i, mkTensor size (f i)) <$> l) = size * len l.
Proof. unfold total_size. rewrite <- list_fmap_compose. apply (zsum_const size l). Qed.

Lemma general_size avail page group_size :
  0 ≤ avail → 0 < group_size → page ≠ 0 →
  page * Z.max (avail / page / group_size) 0 * group_size ≤ avail.
Proof.
  intros Ha Hg Hp. destruct (Z.max_spec (avail / page / group_size) 0) as [[_ ->]|[Hq ->]]; [lia|].
  pose proof (Z.mul_div_le (avail / page) group_size Hg).
  destruct (Z.lt_ge_cases 0 page) as [Hpos|]; [|nia].
  pose proof (Z.mul_div_le avail page Hpos). nia.
Qed.

(** *** One group whose layers have pages of their own *)
Lemma spec_get_elem (d : specs) n s : NoDup d.*1 → (n, s) ∈ d → spec_get n d = Some s.
Proof.
  induction d as [|[n' s'] d IH]; simpl; [set_solver|].
  intros [Hn Hd]%NoDup_cons [[= -> ->]|Hin]%elem_of_cons; [by rewrite decide_True|].
  rewrite decide_False; [by apply IH|]. intros ->. apply Hn, list_elem_of_fmap. by exists (n, s).
Qed.

Lemma spec_get_in (d : specs) n s : spec_get n d = Some s → (n, s) ∈ d.
Proof.
  induction d as [|[n' s'] d IH]; simpl; [done|]. case_decide as E; [|right; by apply IH].
  intros [= ->]. subst. left.
Qed.

Lemma spec_at_Ok (d : specs) n s : spec_at n d = Ok s → (n, s) ∈ d.
Proof. unfold spec_at. destruct (spec_get n d) eqn:E; [|done]. intros [= ->]. by apply spec_get_in. Qed.

Definition own_tensor num_blocks (d : specs) n : res KVCacheTensor :=
  s ← spec_at n d; p ← page_size_bytes s; Ok (mkTensor (p * num_blocks) [n]).

Lemma own_tensor_Ok num_blocks d n t :
  own_tensor num_blocks d n = Ok t → ∃ s p, (n, s) ∈ d ∧ page_size_bytes s = Ok p ∧ t = mkTensor (p * num_blocks) [n].
Proof.
  intros (s & Hs & (p & Hp & [= <-])%bind_Ok)%bind_Ok. exists s, p. split; [by apply spec_at_Ok|done].
Qed.

Lemma own_tensors_names num_blocks d names ts :
  rmap (own_tensor num_blocks d) names = Ok ts → (ts ≫= kt_shared_by) = names.
Proof.
  intros H%rmap_Forall2. induction H as [|n t names ts Hn H IH]; [done|].
  apply own_tensor_Ok in Hn as (s & p & _ & _ & ->). cbn [mbind list_bind kt_shared_by app]. by f_equal.
Qed.

Lemma own_tensors_size num_blocks (d d' : specs) pages ts :
  NoDup d.*1 → (∀ x, x ∈ d' → x ∈ d) → rmap page_size_bytes d'.*2 = Ok pages →
  rmap (own_tensor num_blocks d) d'.*1 = Ok ts → total_size ts = zsum pages * num_blocks.
Proof.
  intros Hnd Hsub Hpages Hts. revert pages ts Hpages Hts Hsub. induction d' as [|[n s] d' IH]; intros pages ts; simpl.
  - intros [= <-] [= <-] _. done.
  - intros (p & Hp & (pages' & Hpages & [= <-])%bind_Ok)%bind_Ok (t & Ht & (ts' & Hts & [= <-])%bind_Ok)%bind_Ok Hsub.
    apply own_tensor_Ok in Ht as (s' & p' & Hs' & Hp' & ->).
    assert (s' = s) as ->. { apply spec_get_elem in Hs'; [|done]. specialize (Hsub (n, s) ltac:(left)).
      apply spec_get_elem in Hsub; [|done]. congruence. }
    assert (p' = p) as -> by congruence. change (total_size (?x :: ?l)) with (kt_size x + total_size l).
    rewrite (IH pages' ts'); [|done|done|by intros x Hx; apply Hsub; right]. rewrite zsum_cons. simpl. lia.
Qed.

Lemma single_layout names bs d e num_blocks ts :
  rmap (own_tensor num_blocks d) names = Ok ts → NoDup d.*1 →
  layout [mkLGroup names (UniformTypeKVCacheSpecs bs d) e] num_blocks ts.
Proof.
  intros H Hnd. split.
  - rewrite (own_tensors_names _ _ _ _ H). unfold all_names. simpl. by rewrite app_nil_r.
  - intros t g n (n' & _ & Ht)%(rmap_elem _ _ _ _ H) ->%list_elem_of_singleton Hn _.
    apply own_tensor_Ok in Ht as (s & p & Hs & Hp & ->). simpl in Hn. apply list_elem_of_singleton in Hn as ->.
    exists p. split; [|done]. unfold Config.layer_page_size, spec_at. simpl. by rewrite (spec_get_elem d n' s).
  - intros t g n m (n' & _ & (s & p & _ & _ & ->)%own_tensor_Ok)%(rmap_elem _ _ _ _ H) _ ->%list_elem_of_singleton
      ->%list_elem_of_singleton. done.
Qed.

(** *** Slots of the page sizes *)
Abbreviation buckets := (list (Z * list (list string))).
Fixpoint slots_of (b : buckets) (ps : Z) : list (list string) :=
  match b with [] => [] | (ps', slots) :: b' => if ps' =? ps then slots else slots_of b' ps end.
Definition slot_names (b : buckets) : list string := b ≫= (λ x, concat x.2).

Lemma slot_add_names i n slots : concat (Config.slot_add i n slots) ≡ₚ n :: concat slots.
Proof.
  revert i. induction slots as [|l slots IH]; intros [|i]; simpl; [done|done| |rewrite IH]; solve_Permutation.
Qed.

Lemma slot_add_length i n slots :
  (length slots ≤ length (Config.slot_add i n slots))%nat ∧
  ((i ≤ length slots)%nat → (S i ≤ length (Config.slot_add i n slots))%nat).
Proof.
  revert i. induction slots as [|l slots IH]; intros [|i]; simpl; try lia. destruct (IH i). lia.
Qed.

Lemma slot_add_lookup i n slots j l :
  (i ≤ length slots)%nat → Config.slot_add i n slots !! j = Some l →
  (j ≠ i ∧ slots !! j = Some l) ∨ (j = i ∧ l = default [] (slots !! i) ++ [n]).
Proof.
  revert i j. induction slots as [|l' slots IH]; intros [|i] [|j] Hi; simpl in *; try lia; try (intros [= <-]; auto; done); auto.
  intros H. destruct (IH i j ltac:(lia) H) as [[Hj H']|[-> H']]; [left|right]; split; auto; lia.
Qed.

Lemma buckets_add_slots ps i n b ps' :
  slots_of (Config.buckets_add ps i n b) ps' = if ps' =? ps then Config.slot_add i n (slots_of b ps) else slots_of b ps'.
Proof.
  induction b as [|[p slots] b IH]; simpl.
  - rewrite (Z.eqb_sym ps ps'). destruct (Z.eqb_spec ps' ps); [by destruct i|done].
  - destruct (Z.eqb_spec p ps); simpl.
    + subst. rewrite (Z.eqb_sym ps ps'). by destruct (Z.eqb_spec ps' ps).
    + rewrite IH. destruct (Z.eqb_spec p ps'), (Z.eqb_spec ps' ps); try done; lia.
Qed.

Lemma buckets_add_names ps i n b : slot_names (Config.buckets_add ps i n b) ≡ₚ n :: slot_names b.
Proof.
  unfold slot_names. induction b as [|[p slots] b IH]; simpl; [done|]. case_match; simpl.
  - by rewrite slot_add_names.
  - rewrite IH. solve_Permutation.
Qed.

Lemma buckets_add_keys ps i n b p : p ∈ (Config.buckets_add ps i n b).*1 ↔ p = ps ∨ p ∈ b.*1.
Proof.
  induction b as [|[p' slots] b IH]; simpl; [set_solver|].
  destruct (Z.eqb_spec p' ps); simpl; [set_solver|]. rewrite !elem_of_cons, IH. naive_solver.
Qed.

Lemma buckets_add_nodup ps i n b : NoDup b.*1 → NoDup (Config.buckets_add ps i n b).*1.
Proof.
  induction b as [|[p' slots] b IH]; simpl; [intros _; apply NoDup_singleton|].
  intros [H1 H2]%NoDup_cons. destruct (Z.eqb_spec p' ps); simpl; [by constructor|].
  constructor; [|by apply IH]. rewrite buckets_add_keys. naive_solver.
Qed.

Lemma slots_of_elem b ps slots : NoDup b.*1 → (ps, slots) ∈ b → slots_of b ps = slots.
Proof.
  induction b as [|[p s] b IH]; simpl; [set_solver|].
  intros [H1 H2]%NoDup_cons [[= -> ->]|H]%elem_of_cons; [by rewrite Z.eqb_refl|].
  destruct (Z.eqb_spec p ps); [|by apply IH]. subst. destruct H1. apply list_elem_of_fmap. by exists (ps, slots).
Qed.

Abbreviation seen_count ps seen := (length (filter (λ q : Z, q = ps) seen)).

(** The buckets when a part [pre] of the names of all groups has been placed; [cur]: the
    layers of the current group, [seen]: the page sizes of those that have been placed *)
Record bucketed (groups : list LayerGroup) (pre cur : list string) (seen : list Z) (b : buckets) : Prop := {
  bk_keys : NoDup b.*1;
  bk_names : slot_names b ≡ₚ pre;
  bk_page ps i l n h : slots_of b ps !! i = Some l → n ∈ l → h ∈ groups → n ∈ lg_layer_names h → layer_page h n = Ok ps;
  bk_new ps i l n : slots_of b ps !! i = Some l → n ∈ l → n ∈ cur → (i < seen_count ps seen)%nat;
  bk_len ps : (seen_count ps seen ≤ length (slots_of b ps))%nat;
  bk_apart ps i l n m h : slots_of b ps !! i = Some l → n ∈ l → m ∈ l → h ∈ groups →
    n ∈ lg_layer_names h → m ∈ lg_layer_names h → n = m;
}.

Lemma slots_names_in b ps i l n : slots_of b ps !! i = Some l → n ∈ l → n ∈ slot_names b.
Proof.
  unfold slot_names. induction b as [|[p slots] b IH]; simpl; [done|].
  case_match; rewrite elem_of_app; [|intros; right; by apply IH].
  intros Hl Hn. left. apply list_elem_of_In, in_concat. exists l. rewrite <- !list_elem_of_In.
  split; [by eapply list_elem_of_lookup_2|done].
Qed.

Lemma bucketed_add groups pre g seen b n ps :
  NoDup (all_names groups) → g ∈ groups → n ∈ lg_layer_names g → n ∉ pre → layer_page g n = Ok ps →
  bucketed groups pre (lg_layer_names g) seen b →
  bucketed groups (n :: pre) (lg_layer_names g) (seen ++ [ps]) (Config.buckets_add ps (seen_count ps seen) n b).
Proof.
  intros Hnd Hg Hn Hfresh Hps [Hk Hnames Hpage Hnew Hlen Hap].
  assert (Hlook : ∀ ps' i l m, slots_of (Config.buckets_add ps (seen_count ps seen) n b) ps' !! i = Some l → m ∈ l →
    (∃ l', slots_of b ps' !! i = Some l' ∧ m ∈ l' ∧ (l = l' ∨ ps' = ps ∧ i = seen_count ps seen ∧ l = l' ++ [n])) ∨
    (m = n ∧ ps' = ps ∧ i = seen_count ps seen ∧ (∀ l', slots_of b ps !! i = Some l' → l = l' ++ [n]) ∧
      (slots_of b ps !! i = None → l = [n]))).
  { intros ps' i l m Hl Hm. rewrite buckets_add_slots in Hl. destruct (Z.eqb_spec ps' ps); [subst|left; eauto 6].
    apply slot_add_lookup in Hl as [[Hi Hl]|[-> ->]]; [left; eauto 6| |apply Hlen].
    destruct (slots_of b ps !! seen_count ps seen) as [l'|] eqn:El; simpl in *.
    - apply elem_of_app in Hm as [Hm| ->%list_elem_of_singleton]; [left; eauto 8|].
      right. split_and!; try done. by intros ? [= <-].
    - apply list_elem_of_singleton in Hm as ->. right. by split_and!. }
  assert (Hcount : ∀ ps', seen_count ps' (seen ++ [ps]) = (seen_count ps' seen + if decide (ps = ps') then 1 else 0)%nat).
  { intros ps'. rewrite filter_app, length_app. f_equal. rewrite filter_cons. by case_decide. }
  split.
  - by apply buckets_add_nodup.
  - by rewrite buckets_add_names, Hnames.
  - intros ps' i l m h Hl Hm Hh Hmh. destruct (Hlook _ _ _ _ Hl Hm) as [(l' & Hl' & Hm' & _)|(-> & -> & _)].
    + by eapply Hpage.
    + by rewrite (names_unique groups h g n).
  - intros ps' i l m Hl Hm Hcur. rewrite Hcount. destruct (Hlook _ _ _ _ Hl Hm) as [(l' & Hl' & Hm' & _)|(-> & -> & -> & _)].
    + specialize (Hnew _ _ _ _ Hl' Hm' Hcur). lia.
    + rewrite decide_True by done. lia.
  - intros ps'. rewrite Hcount, buckets_add_slots. specialize (Hlen ps'). case_decide as E.
    + subst. rewrite Z.eqb_refl. pose proof (proj2 (slot_add_length (seen_count ps' seen) n (slots_of b ps')) Hlen). lia.
    + destruct (Z.eqb_spec ps' ps); [congruence|]. lia.
  - assert (Hold : ∀ ps' l' x, slots_of b ps' !! seen_count ps' seen = Some l' → x ∈ l' → x ∉ lg_layer_names g).
    { intros ps' l' x Hl' Hx Hc. specialize (Hnew _ _ _ _ Hl' Hx Hc). lia. }
    intros ps' i l x y h Hl Hx Hy Hh Hxh Hyh.
    destruct (Hlook _ _ _ _ Hl Hx) as [(lx & Hlx & Hx' & _)|(Ex & Ep & Ei & _)],
      (Hlook _ _ _ _ Hl Hy) as [(ly & Hly & Hy' & _)|(Ey & Ep' & Ei' & _)]; subst.
    + assert (lx = ly) as -> by congruence. by eapply Hap.
    + rewrite (names_unique groups h g n) in Hxh by done. exfalso. by eapply Hold.
    + rewrite (names_unique groups h g n) in Hyh by done. exfalso. by eapply Hold.
    + done.
Qed.

Lemma bucket_group_ok groups g names pre seen b b' :
  NoDup (all_names groups) → g ∈ groups → (∀ n, n ∈ names → n ∈ lg_layer_names g) → NoDup names →
  (∀ n, n ∈ names → n ∉ pre) →
  Config.bucket_group get_dtype_size g names seen b = Ok b' →
  bucketed groups pre (lg_layer_names g) seen b →
  ∃ pre' seen', pre' ≡ₚ names ++ pre ∧ bucketed groups pre' (lg_layer_names g) seen' b'.
Proof.
  intros Hnd Hg. revert pre seen b. induction names as [|n names IH]; intros pre seen b Hin Hnn Hfresh; simpl.
  - intros [= <-] H. by exists pre, seen.
  - intros (ps & Hps & Hb')%bind_Ok H. apply NoDup_cons in Hnn as [Hn Hnn].
    destruct (IH (n :: pre) (seen ++ [ps]) (Config.buckets_add ps (seen_count ps seen) n b)) as (pre' & seen' & Hp & Hbk);
      [set_solver|done|set_solver|done| |].
    + apply bucketed_add; auto; set_solver.
    + exists pre', seen'. split; [|done]. rewrite Hp. solve_Permutation.
Qed.

Lemma bucketed_next groups pre cur cur' seen b :
  (∀ n, n ∈ cur' → n ∉ pre) → bucketed groups pre cur seen b → bucketed groups pre cur' [] b.
Proof.
  intros Hfresh [Hk Hnames Hpage Hnew Hlen Hap]. split; try done; [|simpl; lia].
  intros ps i l n Hl Hn Hc. exfalso. apply (Hfresh n Hc). rewrite <- Hnames. by eapply slots_names_in.
Qed.

Lemma bucket_groups_ok groups rest pre b b' :
  NoDup (all_names groups) → (∀ g, g ∈ rest → g ∈ groups) → NoDup (all_names rest) →
  (∀ n, n ∈ all_names rest → n ∉ pre) →
  Config.bucket_groups get_dtype_size rest b = Ok b' → bucketed groups pre [] [] b →
  ∃ pre', pre' ≡ₚ all_names rest ++ pre ∧ bucketed groups pre' [] [] b'.
Proof.
  intros Hnd. revert pre b. induction rest as [|g rest IH]; intros pre b Hsub Hnr Hfresh; simpl.
  - intros [= <-] H. by exists pre.
  - intros (b1 & Hb1 & Hb')%bind_Ok H. unfold all_names in Hnr, Hfresh. simpl in Hnr, Hfresh.
    apply NoDup_app in Hnr as (Hng & Hdis & Hnr).
    destruct (bucket_group_ok groups g (lg_layer_names g) pre [] b b1) as (pre1 & seen1 & Hp1 & Hbk1);
      [done|by apply Hsub; left|done|done|set_solver|done|by eapply bucketed_next; [|done]; set_solver|].
    destruct (IH pre1 b1) as (pre' & Hp & Hbk); [set_solver|done| |done|by eapply bucketed_next; [|done]; set_solver|].
    + intros n Hn. rewrite Hp1, elem_of_app. set_solver.
    + exists pre'. split; [|done]. rewrite Hp, Hp1. unfold all_names. simpl. solve_Permutation.
Qed.

Lemma bucket_tensors_elem num_blocks b t :
  t ∈ Config.bucket_tensors num_blocks b ↔ ∃ ps slots l, (ps, slots) ∈ b ∧ l ∈ slots ∧ t = mkTensor (ps * num_blocks) l.
Proof.
  induction b as [|[p s] b IH]; simpl; [set_solver|].
  rewrite elem_of_app, IH, list_elem_of_fmap. split.
  - intros [(l & -> & Hl)|(ps & slots & l & Hin & Hl & ->)]; [exists p, s, l|exists ps, slots, l]; set_solver.
  - intros (ps & slots & l & [[= -> ->]|Hin]%elem_of_cons & Hl & ->); [left|right]; eauto 7.
Qed.

Lemma bucket_tensors_names num_blocks b : (Config.bucket_tensors num_blocks b ≫= kt_shared_by) = slot_names b.
Proof.
  unfold slot_names. induction b as [|[p slots] b IH]; [done|]. simpl. rewrite bind_app, IH. f_equal.
  clear. induction slots as [|l slots IH]; [done|]. cbn [fmap list_fmap mbind list_bind concat kt_shared_by]. by rewrite IH.
Qed.

Lemma bucket_tensors_size num_blocks b :
  total_size (Config.bucket_tensors num_blocks b) = Config.bucket_bytes b * num_blocks.
Proof.
  unfold Config.bucket_bytes, total_size. induction b as [|[p slots] b IH]; [done|].
  cbn [Config.bucket_tensors]. rewrite fmap_app, zsum_app, IH, fmap_cons, zsum_cons. fold (total_size (mkTensor (p * num_blocks) <$> slots)).
  assert (total_size (mkTensor (p * num_blocks) <$> slots) = p * num_blocks * len slots) as -> by
    apply (total_size_const _ (λ l, l)). simpl. lia.
Qed.

Lemma buckets_layout groups b num_blocks :
  NoDup (all_names groups) → Config._bucket_layers_by_page_size get_dtype_size groups = Ok b →
  layout groups num_blocks (Config.bucket_tensors num_blocks b).
Proof.
  intros Hnd Hb. destruct (bucket_groups_ok groups groups [] [] b) as (pre & Hp & [Hk Hnames Hpage _ _ Hap]);
    [done|done|done|set_solver|done| |].
  { split; simpl; try done. constructor. }
  assert (Hslot : ∀ t, t ∈ Config.bucket_tensors num_blocks b →
    ∃ ps i, kt_size t = ps * num_blocks ∧ slots_of b ps !! i = Some (kt_shared_by t)).
  { intros t (ps & slots & l & Hin & [i Hi]%list_elem_of_lookup & ->)%bucket_tensors_elem.
    exists ps, i. split; [done|]. by rewrite (slots_of_elem b ps slots). }
  split.
  - rewrite bucket_tensors_names, Hnames, Hp. by rewrite app_nil_r.
  - intros t g n (ps & i & Hsz & Hi)%Hslot Hg Hn Hgn. exists ps. split; [by eapply Hpage|done].
  - intros t g n m (ps & i & Hsz & Hi)%Hslot Hg Hn Hm Hgn Hgm. by eapply Hap.
Qed.

(** *** The configuration of a worker *)
Definition uniform_groups (groups : list LayerGroup) : Prop := Forall (λ g, is_uniform_group g = true) groups.
Definition page_nonneg (s : LayerSpec) : Prop := ∀ p, page_size_bytes s = Ok p → 0 ≤ p.
Definition keyed (g : LayerGroup) : Prop :=
  match lg_spec g with
  | Same _ => True
  | UniformTypeKVCacheSpecs _ d =>
      NoDup d.*1 ∧ (lg_layer_names g = [] ∨ lg_layer_names g = d.*1) ∧ Forall page_nonneg d.*2
  end.

Lemma bucket_group_keys (P : Z → Prop) g names seen b b' :
  (∀ n p, layer_page g n = Ok p → P p) → (∀ p, p ∈ b.*1 → P p) →
  Config.bucket_group get_dtype_size g names seen b = Ok b' → ∀ p, p ∈ b'.*1 → P p.
Proof.
  intros Hpos. revert seen b. induction names as [|n names IH]; simpl; intros seen b H1.
  - by intros [= <-].
  - intros (ps & Hps & H2)%bind_Ok. eapply IH; [|done].
    intros p [->|Hp]%buckets_add_keys; [by eapply Hpos|by apply H1].
Qed.

Lemma bucket_groups_keys (P : Z → Prop) groups b b' :
  (∀ g n p, g ∈ groups → layer_page g n = Ok p → P p) → (∀ p, p ∈ b.*1 → P p) →
  Config.bucket_groups get_dtype_size groups b = Ok b' → ∀ p, p ∈ b'.*1 → P p.
Proof.
  revert b. induction groups as [|g groups IH]; simpl; intros b Hpos H0.
  - by intros [= <-].
  - intros (b1 & H1 & H2)%bind_Ok. eapply IH; [| |done]; [intros; eapply Hpos; [by right|done]|].
    eapply bucket_group_keys; [|done|done]. intros n p. apply Hpos. left.
Qed.

Lemma bucket_bytes_nonneg b : (∀ p, p ∈ b.*1 → 0 ≤ p) → 0 ≤ Config.bucket_bytes b.
Proof.
  unfold Config.bucket_bytes. induction b as [|[p slots] b IH]; [done|]. intros H. rewrite fmap_cons, zsum_cons.
  assert (0 ≤ p) by (apply H; left). pose proof (IH (λ q Hq, H q (list_elem_of_further _ _ _ Hq))). nia.
Qed.

Lemma keyed_page_nonneg g n p : keyed g → is_uniform_group g = true → layer_page g n = Ok p → 0 ≤ p.
Proof.
  unfold keyed, is_uniform_group, Config.layer_page_size. destruct (lg_spec g) as [|bs d]; [done|].
  intros (_ & _ & Hwf) _ (s & Hs%spec_at_Ok & Hp)%bind_Ok. rewrite Forall_forall in Hwf.
  apply (Hwf s); [|done]. apply list_elem_of_fmap. by exists (n, s).
Qed.

Lemma pages_sum_nonneg (d : specs) pages :
  Forall page_nonneg d.*2 → rmap page_size_bytes d.*2 = Ok pages → 0 ≤ zsum pages.
Proof.
  rewrite Forall_forall. intros Hwf Hp. assert (Hpos : ∀ p, p ∈ pages → 0 ≤ p).
  { intros p (s & Hs & Ep)%(rmap_elem _ _ _ _ Hp). exact (Hwf s Hs p Ep). }
  clear Hp. induction pages as [|p pages IH]; [done|]. rewrite zsum_cons.
  pose proof (Hpos p ltac:(left)). assert (0 ≤ zsum pages) by (apply IH; intros; apply Hpos; by right). lia.
Qed.

(** What a configuration promises: tensors for the layers that fit the memory *)
Record config_ok (groups : list LayerGroup) (avail : Z) (cfg : LayerConfig) : Prop := {
  co_groups : lc_kv_cache_groups cfg = groups;
  co_blocks : 0 ≤ lc_num_blocks cfg;
  co_layout : layout groups (lc_num_blocks cfg) (lc_kv_cache_tensors cfg);
  co_fits : total_size (lc_kv_cache_tensors cfg) ≤ avail;
}.

Abbreviation from_groups := (Config.get_kv_cache_config_from_groups get_dtype_size c).

Lemma single_config_ok names bs d e avail cfg :
  keyed (mkLGroup names (UniformTypeKVCacheSpecs bs d) e) → 0 ≤ avail →
  from_groups [mkLGroup names (UniformTypeKVCacheSpecs bs d) e] avail = Ok cfg →
  config_ok [mkLGroup names (UniformTypeKVCacheSpecs bs d) e] avail cfg.
Proof.
  intros (Hnd & Hnames & Hwf) Ha (page & Hpage & (nb & [Hnz ->]%floor_div_Ok & H)%bind_Ok)%bind_Ok.
  unfold Config.may_override_num_blocks in H. rewrite Hno in H. simpl in H.
  apply bind_Ok in H as (ts & Hts & [= <-]). fold (own_tensor (avail / page) d) in Hts.
  apply bind_Ok in Hpage as (pages & Hpages & [= <-]). pose proof (pages_sum_nonneg d pages Hwf Hpages) as Hp.
  split; simpl; [done| |by apply single_layout|].
  - apply Z.div_pos; lia.
  - simpl in Hnames. destruct Hnames as [->| ->].
    + injection Hts as <-. done.
    + rewrite (own_tensors_size _ d d pages ts Hnd) by done. apply Z.mul_div_le. lia.
Qed.

Lemma buckets_config_ok groups avail cfg :
  NoDup (all_names groups) → Forall keyed groups → uniform_groups groups → 0 ≤ avail →
  ('(num_blocks, tensors) ← Config._get_kv_cache_config_deepseek_v4 get_dtype_size c groups avail;
   Ok (mkLConfig num_blocks tensors groups)) = Ok cfg →
  config_ok groups avail cfg.
Proof.
  intros Hnd Hkeyed Huni Ha ([nb ts] & (b & Hb & (q & [Hnz ->]%floor_div_Ok & [= <- <-])%bind_Ok)%bind_Ok & [= <-])%bind_Ok.
  unfold Config.may_override_num_blocks. rewrite Hno. simpl.
  assert (Hpos : 0 ≤ Config.bucket_bytes b).
  { apply bucket_bytes_nonneg. intros p. eapply (bucket_groups_keys (λ p, 0 ≤ p) groups []); [|intros ? []%elem_of_nil|exact Hb].
    intros g n p' Hg. rewrite Forall_forall in Hkeyed. unfold uniform_groups in Huni. rewrite Forall_forall in Huni.
    apply keyed_page_nonneg; auto. }
  split; simpl; [done|apply Z.div_pos; lia|by apply buckets_layout|].
  rewrite bucket_tensors_size. apply Z.mul_div_le. lia.
Qed.

Lemma general_config_ok groups avail cfg :
  NoDup (all_names groups) → same_groups groups → 0 ≤ avail →
  (group_size ← zmax ((λ g, len (lg_layer_names g)) <$> groups);
   pages ← rmap (λ g, group_page (lg_spec g)) groups;
   page_size ← Config.get_uniform_page_size pages;
   _ ← rassert (0 <? group_size);
   num_blocks ← Config.get_num_blocks c group_size avail page_size;
   Ok (mkLConfig num_blocks
        ((λ i, mkTensor (page_size * num_blocks) (Config.shared_by groups i)) <$> seq 0 (Z.to_nat group_size)) groups)) = Ok cfg →
  config_ok groups avail cfg.
Proof.
  intros Hnd Hsame Ha (gs & Hgs & (pages & Hpages & (page & Hpage & (u & Hpos%rassert_Ok & (nb & Hnb & [= <-])%bind_Ok)%bind_Ok)%bind_Ok)%bind_Ok)%bind_Ok.
  apply bind_Ok in Hnb as (q & [Hp0 ->]%floor_div_Ok & (q' & [_ ->]%floor_div_Ok & [= <-])%bind_Ok).
  unfold Config.may_override_num_blocks. rewrite Hno. simpl.
  split; simpl; [done|lia|by eapply general_layout|].
  rewrite total_size_const, length_seq. replace (Z.of_nat (Z.to_nat gs)) with gs by lia. apply general_size; lia.
Qed.

Lemma from_groups_ok groups avail cfg :
  NoDup (all_names groups) → Forall keyed groups → same_groups groups ∨ uniform_groups groups → 0 ≤ avail →
  from_groups groups avail = Ok cfg → config_ok groups avail cfg.
Proof.
  intros Hnd Hkeyed Hhom Ha H. destruct groups as [|[names [s|bs d] e] [|g2 groups]].
  - injection H as <-. split; simpl; [done|lia| |done]. split; [done|intros ? ? ? []%elem_of_nil|intros ? ? ? ? []%elem_of_nil].
  - destruct Hhom as [Hs|Hu]; [by apply general_config_ok|]. inversion Hu as [|? ? Hu1]; by cbn in Hu1.
  - destruct Hhom as [Hs|Hu]; [by apply general_config_ok|]. inversion Hu as [|? ? Hu1]; by cbn in Hu1.
  - apply single_config_ok; [|done..]. by inversion Hkeyed.
  - destruct Hhom as [Hs|Hu]; [inversion Hs as [|? ? [s Hs1]]; by cbn in Hs1|].
    apply buckets_config_ok; try done.
    assert (Hall : forallb is_uniform_group (mkLGroup names (UniformTypeKVCacheSpecs bs d) e :: g2 :: groups) = true).
    { apply forallb_forall. intros g Hg%list_elem_of_In. unfold uniform_groups in Hu. rewrite Forall_forall in Hu. auto. }
    cbn [Config.get_kv_cache_config_from_groups] in H. rewrite Hall in H. exact H.
Qed.
End tensors.
