(* ===== verification/KVGroups.v ===== *)
(** * Every layer is in one group

    The groups that [get_kv_cache_groups] gives do not share layers and have only the
    layers of the model; all of them, unless the model mixes windows of latent
    attention with layers of other kinds. *)
From S2P Require Import Prelude KVSpec LayerSpec KVConfig KVConfigSafe.

(** ** Dictionaries of lists *)
Section buckets.
Context {K A : Type} `{EqDecision K}.
Implicit Types d : list (K * list A).

Lemma bucket_add_perm k x d : concat (bucket_add k x d).*2 ≡ₚ x :: concat d.*2.
Proof.
  induction d as [|[k' l] d IH]; simpl; [done|]. case_decide; simpl; [solve_Permutation|].
  rewrite IH. solve_Permutation.
Qed.

Lemma bucket_add_nonempty k x d : Forall (λ l, l ≠ []) d.*2 → Forall (λ l, l ≠ []) (bucket_add k x d).*2.
Proof.
  induction d as [|[k' l] d IH]; simpl; [by repeat constructor|].
  intros [Hl Hd]%Forall_cons. case_decide; simpl; constructor; auto. by destruct l.
Qed.

Lemma buckets_perm {B} (f : B → K) (g : B → A) (h : list (K * list A) → B → list (K * list A)) (l : list B) d :
  (∀ acc y, h acc y = bucket_add (f y) (g y) acc) → concat (foldl h d l).*2 ≡ₚ (g <$> l) ++ concat d.*2.
Proof.
  intros Hh. revert d. induction l as [|y l IH]; intros d; [done|]. simpl. rewrite IH, Hh, bucket_add_perm.
  solve_Permutation.
Qed.

Lemma buckets_nonempty {B} (f : B → K) (g : B → A) (h : list (K * list A) → B → list (K * list A)) (l : list B) d :
  (∀ acc y, h acc y = bucket_add (f y) (g y) acc) → Forall (λ l, l ≠ []) d.*2 → Forall (λ l, l ≠ []) (foldl h d l).*2.
Proof.
  intros Hh. revert d. induction l as [|y l IH]; intros d Hd; [done|]. simpl. apply IH. rewrite Hh.
  by apply bucket_add_nonempty.
Qed.
End buckets.

(** ** Strides *)

(** Every position is [i + j * n] for one [i < n] and one [j]. *)
Lemma stride_positions n k : (0 < n)%nat →
  (seq 0 n ≫= λ i, (λ j, i + j * n)%nat <$> seq 0 k) ≡ₚ seq 0 (k * n).
Proof.
  intros Hn. assert (Hmod : ∀ i j, (i < n)%nat → ((i + j * n) mod n = i ∧ (i + j * n) / n = j)%nat).
  { intros i j Hi. rewrite Nat.Div0.mod_add, Nat.div_add by lia. by rewrite Nat.mod_small, Nat.div_small by lia. }
  apply NoDup_Permutation.
  - apply NoDup_bind; [| |apply NoDup_seq].
    + intros i i' y Hi%elem_of_seq Hi'%elem_of_seq (j & -> & _)%list_elem_of_fmap (j' & E & _)%list_elem_of_fmap.
      destruct (Hmod i j ltac:(lia)) as [<- _], (Hmod i' j' ltac:(lia)) as [<- _]. by rewrite E.
    + intros i Hi%elem_of_seq. apply NoDup_fmap_2_strong; [|apply NoDup_seq]. intros j j' _ _ E. nia.
  - apply NoDup_seq.
  - intros p. rewrite list_elem_of_bind, elem_of_seq. split.
    + intros (i & (j & -> & Hj%elem_of_seq)%list_elem_of_fmap & Hi%elem_of_seq). nia.
    + intros Hp. exists (p mod n)%nat. pose proof (Nat.mod_upper_bound p n). pose proof (Nat.div_mod_eq p n).
      assert (p / n < k)%nat by (apply Nat.Div0.div_lt_upper_bound; lia).
      rewrite list_elem_of_fmap, elem_of_seq. split; [|lia]. exists (p / n)%nat. rewrite elem_of_seq. lia.
Qed.

Lemma omap_fmap_nat {A} (l : list A) (f : nat → nat) (js : list nat) :
  omap (λ j, l !! f j) js = omap (λ p, l !! p) (f <$> js).
Proof.
  induction js as [|j js IH]; [done|]. cbn [fmap list_fmap omap list_omap] in *. by rewrite IH.
Qed.

Lemma omap_bind {A B C} (f : B → option C) (g : A → list B) (l : list A) :
  omap f (l ≫= g) = l ≫= λ x, omap f (g x).
Proof. induction l as [|x l IH]; [done|]. cbn [mbind list_bind] in *. by rewrite omap_app, IH. Qed.

Lemma concat_bind {A B} (f : A → list (list B)) l : concat (l ≫= f) = l ≫= λ x, concat (f x).
Proof. induction l as [|x l IH]; [done|]. cbn [mbind list_bind] in *. by rewrite concat_app, IH. Qed.

#[global] Instance concat_Permutation {A} : Proper ((≡ₚ) ==> (≡ₚ)) (@concat A).
Proof.
  intros l l' H. induction H as [|x l l' _ IH|x y l|l1 l2 l3 _ IH1 _ IH2]; simpl; [done|by rewrite IH| |by rewrite IH1].
  solve_Permutation.
Qed.

Lemma strides_perm {A} (l : list A) n : (0 < n)%nat → (seq 0 n ≫= λ i, py_stride l i n) ≡ₚ l.
Proof.
  intros Hn. trans (omap (λ p, l !! p) (seq 0 n ≫= λ i, (λ j, i + j * n)%nat <$> seq 0 (length l))).
  - rewrite omap_bind. unfold py_stride. match goal with |- ?a ≡ₚ ?b => enough (a = b) as -> by done end.
    apply list_bind_ext; [|done]. intros i. apply (omap_fmap_nat l (λ j, i + j * n)%nat).
  - rewrite (stride_positions n (length l) Hn). rewrite omap_all; [done|nia].
Qed.

(** ** Generic facts *)
Lemma all_names_cons g groups : all_names (g :: groups) = lg_layer_names g ++ all_names groups.
Proof. done. Qed.

Lemma all_names_app groups groups' : all_names (groups ++ groups') = all_names groups ++ all_names groups'.
Proof. apply bind_app. Qed.

Lemma sub_specs_Ok (d sub : specs) names :
  rmap (λ n, s ← spec_at n d; Ok (n, s)) names = Ok sub → sub.*1 = names ∧ ∀ x, x ∈ sub → x ∈ d.
Proof.
  intros H%rmap_Forall2. induction H as [|n x names sub Hx H [IH1 IH2]]; [split; [done|set_solver]|].
  apply bind_Ok in Hx as (s & Hs%spec_at_Ok & [= <-]). split; [by rewrite fmap_cons, IH1|set_solver].
Qed.

Lemma concat_elem_sub {A} (l : list A) ls : l ∈ ls → l ⊆+ concat ls.
Proof.
  induction ls as [|l' ls IH]; [set_solver|]. intros [->|H]%elem_of_cons; simpl.
  - apply submseteq_inserts_r. done.
  - apply submseteq_inserts_l. auto.
Qed.

Lemma names_nodup groups g : NoDup (all_names groups) → g ∈ groups → NoDup (lg_layer_names g).
Proof.
  induction groups as [|h groups IH]; [set_solver|]. rewrite all_names_cons. intros (H1 & _ & H2)%NoDup_app.
  intros [->|H]%elem_of_cons; auto.
Qed.

Lemma from_specs_Ok d g : Config.from_specs d = Ok (Some g) → ∃ bs, g = UniformTypeKVCacheSpecs bs d.
Proof.
  intros ([] & _ & H)%bind_Ok; [|done]. destruct d as [|[n s] d]; [done|]. injection H as <-. by eexists.
Qed.

Lemma filter_disjoint {A} (p q : A → bool) (l : list A) :
  (∀ x, p x = true → q x = true → False) →
  filter (λ x, p x = true) l ++ filter (λ x, q x = true) l ⊆+ l ∧
  ((∀ x, x ∈ l → p x || q x = true) → filter (λ x, p x = true) l ++ filter (λ x, q x = true) l ≡ₚ l).
Proof.
  intros Hd. induction l as [|x l [IH1 IH2]]; [done|]. rewrite !filter_cons. specialize (Hd x). split.
  - destruct (p x), (q x); simpl; [by destruct Hd|by apply submseteq_skip| |by apply submseteq_cons].
    rewrite <- Permutation_middle. by apply submseteq_skip.
  - intros Hall. pose proof (Hall x ltac:(left)) as Hx. specialize (IH2 (λ y Hy, Hall y (list_elem_of_further _ _ _ Hy))).
    destruct (p x), (q x); simpl in *; [by destruct Hd|by rewrite IH2| |done].
    by rewrite <- Permutation_middle, IH2.
Qed.

Lemma remove_dups_one ls k : remove_dups ls = [k] → ∀ x : Z, x ∈ ls → x = k.
Proof. intros E x Hx. rewrite <- elem_of_remove_dups, E in Hx. by apply list_elem_of_singleton in Hx. Qed.

Lemma keys_Forall2 (P : LayerSpec → LayerSpec → Prop) (d d' : specs) :
  Forall2 (λ x y, y.1 = x.1 ∧ P x.2 y.2) d d' → d'.*1 = d.*1.
Proof. induction 1 as [|x y d d' [H1 _] _ IH]; [done|]. by rewrite !fmap_cons, H1, IH. Qed.

Lemma filter_split {A} (p : A → bool) (l : list A) : filter (λ x, p x = false) l ++ filter (λ x, p x = true) l ≡ₚ l.
Proof.
  induction l as [|x l IH]; [done|]. rewrite !filter_cons. destruct (p x); simpl.
  - rewrite <- IH at 3. solve_Permutation.
  - by rewrite IH.
Qed.

(** ** Groups of one specification *)
Section groups.
Context (get_dtype_size : string → Z).
Abbreviation page_size_bytes := (Layer.page_size_bytes get_dtype_size).

Lemma cdiv_pos a b : 0 < a → 0 < b → 0 < cdiv a b.
Proof. intros Ha Hb. pose proof (cdiv_spec a b Hb). nia. Qed.

Lemma split_layers_perm group_size layers :
  0 < group_size → layers ≠ [] → concat (Config.split_layers group_size layers) ≡ₚ layers.
Proof.
  intros Hg Hl. unfold Config.split_layers. rewrite concat_fmap_bind. apply strides_perm.
  assert (0 < len layers) by (destruct layers; simpl; [done|lia]).
  pose proof (cdiv_pos (len layers) group_size). lia.
Qed.

Lemma create_groups_ok d names groups :
  Config.create_kv_cache_group_specs get_dtype_size d names = Ok groups →
  all_names groups = concat names ∧ same_groups groups.
Proof.
  intros H%rmap_Forall2. induction H as [|ns g names groups Hg H [IH1 IH2]].
  - split; [done|constructor].
  - apply bind_Ok in Hg as (ss & _ & (m & _ & [= <-])%bind_Ok). split.
    + rewrite all_names_cons. simpl. by rewrite IH1.
    + constructor; [by exists m|done].
Qed.

Lemma choose_group_size_pos ls g : Forall (λ n, 0 < n) ls → Config.choose_group_size ls = Ok g → 0 < g.
Proof.
  rewrite Forall_forall. intros H (mn & [Hmn _]%zmin_Ok & (mx & [Hmx _]%zmax_Ok & [= <-])%bind_Ok)%bind_Ok.
  case_match; auto.
Qed.

Lemma uniform_page_size_groups_ok d groups :
  Config._get_kv_cache_groups_uniform_page_size get_dtype_size d = Ok groups →
  all_names groups ≡ₚ d.*1 ∧ same_groups groups.
Proof.
  intros (gs & Hgs & [Hnames Hsame]%create_groups_ok)%bind_Ok. split; [|done]. rewrite Hnames. clear Hnames Hsame.
  set (h := λ (acc : list (LayerSpec * list string)) (x : string * LayerSpec), let '(name, s) := x in bucket_add s name acc) in *.
  assert (Hh : ∀ acc y, h acc y = bucket_add y.2 y.1 acc) by (by intros acc [n s]).
  pose proof (buckets_perm snd fst h d [] Hh) as Hp. simpl in Hp. rewrite app_nil_r in Hp.
  pose proof (buckets_nonempty snd fst h d [] Hh ltac:(constructor)) as Hne.
  rewrite <- Hp. unfold Config.same_type_layers in *. fold h in Hgs |- *. clear Hp. revert Hgs Hne.
  generalize (foldl h [] d). intros by_type Hgs Hne. apply choose_group_size_pos in Hgs.
  - clear Hh. induction by_type as [|[s ls] by_type IH]; [done|]. simpl in *. apply Forall_cons in Hne as [Hl Hne].
    rewrite concat_app, IH by done. by rewrite split_layers_perm.
  - apply Forall_forall. intros n ([s ls] & -> & Hx)%list_elem_of_fmap. rewrite Forall_forall in Hne.
    assert (ls ≠ []) by (apply Hne, list_elem_of_fmap; by exists (s, ls)). destruct ls; [done|simpl; lia].
Qed.

Lemma rmap_keys (f : LayerSpec → res LayerSpec) (d d' : specs) :
  rmap (λ '(name, s), s' ← f s; Ok (name, s')) d = Ok d' →
  Forall2 (λ x y, y.1 = x.1 ∧ f x.2 = Ok y.2) d d'.
Proof.
  intros H%rmap_Forall2. induction H as [|[n s] y d d' Hy H IH]; constructor; [|done].
  apply bind_Ok in Hy as (s' & Hs & [= <-]). done.
Qed.

Lemma unify_page_keys d d' : Config.unify_kv_cache_spec_page_size get_dtype_size d = Ok d' → d'.*1 = d.*1.
Proof.
  intros (pages & _ & H)%bind_Ok. destruct (length (remove_dups pages) <=? 1)%nat; [by injection H as <-|].
  apply bind_Ok in H as (mx & _ & H%rmap_keys). by apply (keys_Forall2 (λ s s', Config.unify_layer get_dtype_size mx s = Ok s')).
Qed.

Lemma general_groups_ok d groups :
  Config.general_groups get_dtype_size d = Ok groups → all_names groups ≡ₚ d.*1 ∧ same_groups groups.
Proof.
  intros (d1 & Hd1%unify_page_keys & (gs & [Hn Hs]%uniform_page_size_groups_ok & H)%bind_Ok)%bind_Ok.
  rewrite Hd1 in Hn. pose proof (fmap_Permutation fst _ _ (filter_split (λ ns : string * LayerSpec, is_class HiddenStateCacheSpec ns.2) d)) as Hp.
  rewrite fmap_app in Hp. rewrite <- Hp. clear Hp. cbv zeta in *.
  destruct (filter (λ ns : string * LayerSpec, is_class HiddenStateCacheSpec ns.2 = true) d) as [|x hidden].
  - injection H as <-. rewrite app_nil_r. done.
  - apply bind_Ok in H as (pages & _ & (page & _ & (extra & He & [= <-])%bind_Ok)%bind_Ok).
    assert (Hx : all_names extra = (x :: hidden).*1 ∧ same_groups extra).
    { apply rmap_Forall2 in He. clear Hn Hs. induction He as [|[n s] g l extra Hg He [IH1 IH2]]; [split; [done|constructor]|].
      apply bind_Ok in Hg as (k & _ & (al & _ & [= <-])%bind_Ok). split; [by rewrite all_names_cons, IH1|].
      constructor; [by eexists|done]. }
    destruct Hx as [Hx1 Hx2]. split.
    + rewrite all_names_app, Hx1, Hn. done.
    + by apply Forall_app.
Qed.

(** ** Groups of windows *)
Abbreviation keyed := (keyed get_dtype_size).

(** The groups made of sublists [F i] of the names of [d] *)
Definition sub_group (d : specs) (names : list string) : res LayerGroup :=
  sub ← rmap (λ n, s ← spec_at n d; Ok (n, s)) names;
  spec ← Config.from_specs sub;
  match spec with Some g => Ok (mkLGroup names g false) | None => Raise AssertionError end.

Lemma sub_groups_ok {I} (F : I → list string) (is_ : list I) d groups :
  rmap (λ i, sub_group d (F i)) is_ = Ok groups → NoDup (is_ ≫= F) → Forall (page_nonneg get_dtype_size) d.*2 →
  all_names groups = (is_ ≫= F) ∧ Forall keyed groups ∧ uniform_groups groups.
Proof.
  intros H%rmap_Forall2 Hnd Hpages. induction H as [|i g is_ groups Hg H IH]; [by repeat constructor|].
  cbn [mbind list_bind] in Hnd |- *. apply NoDup_app in Hnd as (Hi & _ & Hnd).
  destruct (IH Hnd) as (IH1 & IH2 & IH3).
  apply bind_Ok in Hg as (sub & [Hk Hsub]%sub_specs_Ok & ([g'|] & Hg & [= <-])%bind_Ok).
  apply from_specs_Ok in Hg as [bs ->]. rewrite all_names_cons, IH1. split_and!; [done|constructor; [|done]..].
  - unfold KVConfigSafe.keyed. simpl. rewrite Hk. split_and!; [done|by right|].
    rewrite Forall_forall in Hpages |- *. intros s ([n s'] & -> & Hx)%list_elem_of_fmap.
    apply Hpages, list_elem_of_fmap. exists (n, s'). auto.
  - done.
Qed.

Lemma padded_page_Ok v s p : page_size_bytes (l_set_page_size_padded (Some v) s) = Ok p → p = v.
Proof.
  unfold Layer.page_size_bytes, Layer.padded_page_size. destruct s as [cl]; simpl.
  by destruct cl; intros H; repeat (apply bind_Ok in H as (? & _ & H)); injection H as <-.
Qed.

Lemma pad_layer_Ok sizes s s' cand :
  Config.pad_layer get_dtype_size sizes s = Ok (s', cand) → page_nonneg get_dtype_size s → page_nonneg get_dtype_size s'.
Proof.
  intros (cur & Hcur & (c & [Hc _]%zmin_Ok & [= <- <-])%bind_Ok)%bind_Ok Hs.
  apply list_elem_of_filter in Hc as [Hc _]. specialize (Hs cur Hcur).
  destruct (cur <? c); [|intros p Hp; by rewrite Hcur in Hp; injection Hp as <-]. intros p ->%padded_page_Ok.
  lia.
Qed.

Lemma window_groups_ok nlt sizes d groups :
  Config.window_groups get_dtype_size nlt sizes d = Ok groups → 0 < nlt → NoDup d.*1 →
  Forall (page_nonneg get_dtype_size) d.*2 →
  all_names groups ≡ₚ d.*1 ∧ Forall keyed groups ∧ uniform_groups groups.
Proof.
  intros (ps & _ & (mx & _ & (ma & _ & (u & _ & (padded & Hpad & H)%bind_Ok)%bind_Ok)%bind_Ok)%bind_Ok)%bind_Ok Hnlt Hnd Hpages.
  cbv zeta in H. set (d' := (λ x : string * LayerSpec * Z, x.1) <$> padded) in *.
  assert (Hd' : d'.*1 = d.*1 ∧ Forall (page_nonneg get_dtype_size) d'.*2).
  { unfold d'. clear H Hnd. apply rmap_Forall2 in Hpad. induction Hpad as [|[n s] y d padded Hy _ IH]; [done|].
    rewrite fmap_cons in Hpages. apply Forall_cons in Hpages as [Hs Hpages]. destruct (IH Hpages) as [IH1 IH2].
    apply bind_Ok in Hy as ([s' cand] & Hs' & [= <-]). rewrite !fmap_cons, IH1. split; [done|].
    constructor; [|done]. by eapply pad_layer_Ok. }
  destruct Hd' as [Hk Hpages'].
  set (h := λ (acc : list (Z * list string)) (x : string * LayerSpec * Z), bucket_add x.2 x.1.1 acc) in *.
  assert (Hh : ∀ acc y, h acc y = bucket_add y.2 y.1.1 acc) by done.
  pose proof (buckets_perm snd (λ x : string * LayerSpec * Z, x.1.1) h padded [] Hh) as Hp.
  pose proof (buckets_nonempty snd (λ x : string * LayerSpec * Z, x.1.1) h padded [] Hh ltac:(constructor)) as Hne.
  simpl in Hp. rewrite app_nil_r in Hp. revert H Hp Hne. generalize (foldl h [] padded). intros per_size H Hp Hne.
  destruct (remove_dups _) as [|k [|]] eqn:Ek in H; [done| |done]. pose proof (remove_dups_one _ _ Ek) as Hlen.
  assert (Hk0 : 0 < k).
  { destruct per_size as [|[p l] per_size]; [done|]. apply Forall_cons in Hne as [Hl _].
    rewrite <- (Hlen (len l)) by left. destruct l; simpl; [done|lia]. }
  set (tuples := Config.transpose (Z.to_nat k) per_size.*2) in *. set (n := Z.to_nat (cdiv k nlt)) in *.
  assert (Hn : (0 < n)%nat) by (pose proof (cdiv_pos k nlt); lia).
  assert (Hall : (seq 0 n ≫= λ i, concat (py_stride tuples i n)) ≡ₚ d.*1).
  { rewrite <- concat_bind, strides_perm by done. unfold tuples, Config.transpose.
    rewrite omap_columns.
    - rewrite Hp, <- Hk. unfold d'. by rewrite <- list_fmap_compose.
    - intros l (x & -> & Hx)%list_elem_of_fmap. enough (len x.2 = k) by lia. apply Hlen, list_elem_of_fmap. by exists x. }
  destruct (sub_groups_ok (λ i, concat (py_stride tuples i n)) (seq 0 n) d' groups) as (H1 & H2 & H3);
    [exact H|by rewrite Hall|done|]. split_and!; [by rewrite H1|done..].
Qed.

Lemma gcd_fold_ge values m ds best :
  (∀ d, d ∈ ds → m ≤ d) → m ≤ best.1 → m ≤ (foldl (Config.gcd_step values) best ds).1.
Proof.
  revert best. induction ds as [|d ds IH]; intros [bd bp] Hds Hb; [done|]. simpl. apply IH; [set_solver|].
  pose proof (Hds d ltac:(left)). unfold Config.gcd_step. simpl in Hb. destruct bp as [b|]; simpl; [|done].
  by case_match.
Qed.

Lemma approximate_gcd_pos values lb n : Config._approximate_gcd values lb = Ok n → 0 < n.
Proof.
  intros (mx & _ & H)%bind_Ok. destruct (existsb _ _); [done|]. cbv zeta in H.
  assert (1 ≤ Z.max 1 (default 1 lb)) by lia. destruct (_ <? _); injection H as <-; [lia|].
  enough (Z.max 1 (default 1 lb) ≤ (foldl (Config.gcd_step values) (Z.max 1 (default 1 lb), None)
    (py_range (Z.max 1 (default 1 lb)) (mx + 1))).1) by lia.
  apply gcd_fold_ge; [|done]. intros d Hd. unfold py_range in Hd. apply elem_of_seqZ in Hd. lia.
Qed.

Abbreviation pages_nonneg d := (Forall (page_nonneg get_dtype_size) d.*2).

Lemma windows_ok nlt sizes (ds : list specs) gss :
  rmap (Config.window_groups get_dtype_size nlt sizes) ds = Ok gss → 0 < nlt →
  Forall (λ d : specs, NoDup d.*1 ∧ pages_nonneg d) ds →
  all_names (concat gss) ≡ₚ (concat ds).*1 ∧ Forall keyed (concat gss) ∧ uniform_groups (concat gss).
Proof.
  intros H%rmap_Forall2 Hnlt. induction H as [|d gs ds gss Hd _ IH]; [by repeat constructor|].
  intros [[Hnd Hp] Hds]%Forall_cons. destruct (IH Hds) as (H1 & H2 & H3).
  destruct (window_groups_ok _ _ _ _ Hd Hnlt Hnd Hp) as (G1 & G2 & G3). simpl.
  rewrite all_names_app, fmap_app, H1, G1. split_and!; [done|by apply Forall_app..].
Qed.

Lemma uniform_groups_ok ds groups :
  Config._get_kv_cache_groups_uniform_groups get_dtype_size ds = Ok groups →
  Forall (λ d : specs, NoDup d.*1 ∧ pages_nonneg d) ds →
  all_names groups ≡ₚ (concat ds).*1 ∧ Forall keyed groups ∧ uniform_groups groups.
Proof.
  destruct ds as [|full windows]; [done|].
  intros (u & _ & ([g|] & Hg & (g' & Hg' & H)%bind_Ok)%bind_Ok)%bind_Ok [[Hnd Hp] Hds]%Forall_cons; [|done].
  injection Hg' as <-. apply from_specs_Ok in Hg as [bs ->].
  apply bind_Ok in H as (counts & _ & (nlt & Hnlt%approximate_gcd_pos & (u' & _ & (sizes & _ & (gss & Hw & [= <-])%bind_Ok)%bind_Ok)%bind_Ok)%bind_Ok).
  destruct (windows_ok _ _ _ _ Hw Hnlt Hds) as (H1 & H2 & H3). simpl.
  rewrite fmap_app, H1. split_and!; [done|constructor; [|done]..]; [|done].
  unfold KVConfigSafe.keyed. simpl. split_and!; [done|by right|done].
Qed.

Lemma flag_first_ok name groups :
  all_names (Config.flag_first name groups) = all_names groups ∧
  (Forall keyed groups → Forall keyed (Config.flag_first name groups)) ∧
  (uniform_groups groups → uniform_groups (Config.flag_first name groups)).
Proof.
  induction groups as [|g groups (IH1 & IH2 & IH3)]; [done|]. simpl. case_bool_decide.
  - split_and!; [done| |]; intros [Hg Hr]%Forall_cons; by constructor.
  - rewrite !all_names_cons, IH1. split_and!; [done| |]; intros [Hg Hr]%Forall_cons;
      constructor; [done|by apply IH2|done|by apply IH3].
Qed.

Lemma annotate_ok c d groups :
  all_names (Config._annotate_eagle_groups_deepseek_v4 c d groups) = all_names groups ∧
  (Forall keyed groups → Forall keyed (Config._annotate_eagle_groups_deepseek_v4 c d groups)) ∧
  (uniform_groups groups → uniform_groups (Config._annotate_eagle_groups_deepseek_v4 c d groups)).
Proof.
  unfold Config._annotate_eagle_groups_deepseek_v4. repeat case_match; try done. apply flag_first_ok.
Qed.

(** ** All layers *)
Context (Hsize : ∀ dtype, 0 ≤ get_dtype_size dtype).

(** The dimensions of a specification are not negative. *)
Definition dims_ok (s : LayerSpec) : Prop :=
  0 ≤ l_block_size s ∧ 0 ≤ l_num_kv_heads s ∧ 0 ≤ l_head_size s ∧ 0 ≤ default 0 (l_head_size_v s) ∧
  0 ≤ l_tq_slot_size s ∧ 0 ≤ l_compress_ratio s ∧ Forall (Forall (λ n, 0 ≤ n)) (l_shapes s).

Lemma zdiv_nonneg a b : 0 ≤ a → 0 ≤ b → 0 ≤ a / b.
Proof. intros Ha Hb. destruct (Z.eq_dec b 0) as [->|]; [by rewrite Zdiv_0_r|]. apply Z.div_pos; lia. Qed.

Lemma zprod_nonneg l : Forall (λ n, 0 ≤ n) l → 0 ≤ Layer.zprod l.
Proof. induction 1 as [|n l Hn _ IH]; [done|]. change (0 ≤ n * Layer.zprod l). nia. Qed.

Lemma mamba_page_nonneg s : dims_ok s → 0 ≤ Layer.mamba_page_size get_dtype_size s.
Proof.
  intros (_ & _ & _ & _ & _ & _ & Hs). unfold Layer.mamba_page_size. generalize (l_dtypes s).
  induction Hs as [|sh shs Hsh _ IH]; intros [|dt dts]; try done. cbn [zip_with]. rewrite zsum_cons.
  pose proof (zprod_nonneg sh Hsh). pose proof (Hsize dt). specialize (IH dts). nia.
Qed.

Lemma real_page_nonneg s p : dims_ok s → Layer.real_page_size_bytes get_dtype_size s = Ok p → 0 ≤ p.
Proof.
  intros (H1 & H2 & H3 & H4 & H5 & H6 & _). pose proof (Hsize (l_dtype s)) as H7.
  assert (Hd : ∀ h, 0 ≤ h → 0 ≤ nvfp4_kv_cache_full_dim h).
  { intros h Hh. by apply Z.add_nonneg_nonneg; apply zdiv_nonneg. }
  assert (Hkv : Layer.kv_page_size get_dtype_size s = Ok p → 0 ≤ p).
  { unfold Layer.kv_page_size. destruct (l_head_size_v s) as [hv|]; [|done]. simpl in H4. intros [= <-].
    pose proof (Hd _ H3). pose proof (Hd hv H4). case_match; repeat apply Z.mul_nonneg_nonneg; lia. }
  assert (Hst : 0 ≤ Layer.storage_block_size s).
  { unfold Layer.storage_block_size. case_match; try done; by apply zdiv_nonneg. }
  assert (Hlat : 0 ≤ Layer.latent_page_size get_dtype_size s) by (unfold Layer.latent_page_size; repeat apply Z.mul_nonneg_nonneg; lia).
  pose proof (Hd _ H3). unfold Layer.real_page_size_bytes. destruct (l_class s); try done.
  1: case_match; [|done]; intros [= <-]; repeat apply Z.mul_nonneg_nonneg; lia.
  1,2: intros [= <-]; repeat case_match; lia.
  1,3,4: intros [= <-]; case_match; repeat apply Z.mul_nonneg_nonneg; lia.
  case_match; [intros [= <-]; lia|]. intros (u & _ & [= <-])%bind_Ok. done.
Qed.

Lemma dims_page_nonneg s : dims_ok s → page_nonneg get_dtype_size s.
Proof.
  intros Hd p. unfold Layer.page_size_bytes. pose proof (Hsize "float32"%string) as Hf.
  assert (Hpad : ∀ r, 0 ≤ r → Layer.padded_page_size s r = Ok p → 0 ≤ p).
  { intros r Hr. unfold Layer.padded_page_size. destruct (l_page_size_padded s); [|by intros [= <-]].
    intros (u & Hle%rassert_Ok & [= <-])%bind_Ok. lia. }
  assert (Hm := mamba_page_nonneg s Hd).
  assert (Hr : ∀ r, Layer.real_page_size_bytes get_dtype_size s = Ok r → 0 ≤
    (if is_per_token_head (l_kv_quant_mode s) then r + 2 * l_block_size s * l_num_kv_heads s * get_dtype_size "float32" else r)).
  { intros r Hr%real_page_nonneg; [|done]. destruct Hd as (? & ? & _).
    assert (0 ≤ 2 * l_block_size s * l_num_kv_heads s * get_dtype_size "float32") by (repeat apply Z.mul_nonneg_nonneg; lia).
    case_match; lia. }
  destruct (l_class s); try (intros (r & Hreal & H)%bind_Ok; eapply Hpad; [|exact H]; by apply Hr). by apply Hpad.
Qed.

Lemma align_dims s s' : Layer._apply_alignment_padding get_dtype_size s = Ok s' → dims_ok s → dims_ok s'.
Proof.
  unfold Layer._apply_alignment_padding. destruct (l_alignment s); [|by intros [= <-]].
  intros (r & _ & [= <-])%bind_Ok. by case_match.
Qed.

Lemma post_init_dims s s' : Layer.post_init get_dtype_size s = Ok s' → dims_ok s → dims_ok s'.
Proof.
  unfold Layer.post_init. intros H Hd. assert (Hv : dims_ok
    (match l_head_size_v s with
     | Some _ => s
     | None =>
         new_attention (l_class s) (l_block_size s) (l_num_kv_heads s) (l_head_size s) (l_dtype s) (l_kv_quant_mode s)
           (l_page_size_padded s) (Some (l_head_size s)) (l_sliding_window s) (l_attention_chunk_size s) (l_tq_slot_size s)
           (l_sink_len s) (l_cache_dtype_str s) (l_alignment s) (l_compress_ratio s) (l_model_version s)
     end)).
  { destruct (l_head_size_v s); [done|]. destruct Hd as (? & ? & ? & ? & ? & ? & ?). by split_and!. }
  revert H. destruct (l_class s); try (by intros [= <-]); try (intros H; eapply align_dims; [exact H|done]).
Qed.

Lemma as_full_dims ubs s s' : Config.as_full_attention get_dtype_size ubs s = Ok s' →
  0 ≤ default 0 ubs → dims_ok s → dims_ok s'.
Proof.
  intros H Hu (? & ? & ? & ? & ? & ? & Hs). unfold Config.as_full_attention in H. revert H.
  destruct (l_class s); try (intros [= <-]; by split_and!); intros H; eapply post_init_dims; try exact H;
    split_and!; simpl; try done; by destruct ubs.
Qed.

Abbreviation dims d := (Forall dims_ok d.*2).

(** The model has no windows of latent attention, or latent attention only. *)
Definition latent_alone (d : specs) : Prop :=
  (∀ s, s ∈ d.*2 → is_class SlidingWindowMLASpec s = false) ∨
  (∀ s, s ∈ d.*2 → is_class SlidingWindowMLASpec s || is_mla_class s = true).

Lemma as_full_latent ubs s s' : Config.as_full_attention get_dtype_size ubs s = Ok s' →
  (is_class SlidingWindowMLASpec s = false → is_class SlidingWindowMLASpec s' = false) ∧
  (is_class SlidingWindowMLASpec s || is_mla_class s = true → is_class SlidingWindowMLASpec s' || is_mla_class s' = true).
Proof.
  assert (Hpost : ∀ s0 s1, Layer.post_init get_dtype_size s0 = Ok s1 → l_class s1 = l_class s0).
  { intros s0 s1. unfold Layer.post_init. assert (Halign : ∀ a b, Layer._apply_alignment_padding get_dtype_size a = Ok b → l_class b = l_class a).
    { intros a0 b. unfold Layer._apply_alignment_padding. destruct (l_alignment a0); [|by intros [= <-]].
      intros (r & _ & [= <-])%bind_Ok. by case_match. }
    destruct (l_class s0) eqn:E; try (intros [= <-]; try done; by destruct (l_head_size_v s0));
      intros ->%Halign; try done; by destruct (l_head_size_v s0). }
  unfold Config.as_full_attention, is_class, is_mla_class.
  destruct (l_class s) eqn:E; try (intros [= <-]; rewrite E; done); intros ->%Hpost; done.
Qed.
Lemma unify_hybrid_ok d d' :
  Config.unify_hybrid_kv_cache_specs get_dtype_size d = Ok d' → dims d →
  d'.*1 = d.*1 ∧ dims d' ∧ (latent_alone d → latent_alone d').
Proof.
  intros (b & _ & H)%bind_Ok Hd. destruct b; [by injection H as <-|]. cbv zeta in H.
  apply bind_Ok in H as (ubs & Hubs & (d1 & Hd1 & ([] & _ & [= <-])%bind_Ok)%bind_Ok).
  assert (Hu : 0 ≤ default 0 ubs).
  { destruct (existsb _ _) in Hubs; [|by injection Hubs as <-].
    destruct (list_find _ _) as [[i s]|] eqn:E in Hubs; [|done]. injection Hubs as <-.
    apply list_find_Some in E as (E & _). rewrite Forall_forall in Hd.
    destruct (Hd s) as [Hs _]; [by eapply list_elem_of_lookup_2|done]. }
  destruct (_ && _) in Hd1; [|by injection Hd1 as <-]. apply rmap_keys in Hd1. clear Hubs.
  assert (Hlat : latent_alone d → latent_alone d1).
  { assert (Hin : ∀ s', s' ∈ d1.*2 → ∃ s, s ∈ d.*2 ∧ Config.as_full_attention get_dtype_size ubs s = Ok s').
    { intros s' (y & -> & [i Hi]%list_elem_of_lookup)%list_elem_of_fmap.
      destruct (Forall2_lookup_r _ _ _ _ _ Hd1 Hi) as (x & Hx & _ & E). exists x.2. split; [|done].
      apply list_elem_of_fmap. exists x. split; [done|by eapply list_elem_of_lookup_2]. }
    intros [H|H]; [left|right]; intros s' (s & Hs & E)%Hin; apply as_full_latent in E as [E1 E2]; auto. }
  enough (d1.*1 = d.*1 ∧ dims d1) as [? ?] by done. clear Hlat.
  induction Hd1 as [|x y d d1 [E Hy] _ IH]; [done|].
  apply Forall_cons in Hd as [Hx Hd]. destruct (IH Hd) as [IH1 IH2]. split; [by rewrite !fmap_cons, E, IH1|].
  constructor; [|done]. by eapply as_full_dims.
Qed.

Lemma group_and_unify_ok d ds :
  Config.group_and_unify_kv_cache_specs d = Ok (Some ds) → concat ds ⊆+ d ∧ (latent_alone d → concat ds ≡ₚ d).
Proof.
  unfold Config.group_and_unify_kv_cache_specs. destruct (existsb _ _) eqn:Ew; simpl; [|done].
  intros (u & _ & (u0 & _ & (u' & _ & (us & _ & (u'' & _ & [= <-])%bind_Ok)%bind_Ok)%bind_Ok)%bind_Ok)%bind_Ok; simpl.
  set (p := λ ns : string * LayerSpec, negb (is_class SlidingWindowMLASpec ns.2) && is_mla_class ns.2).
  set (q := λ ns : string * LayerSpec, is_class SlidingWindowMLASpec ns.2).
  match goal with |- context [foldl ?h [] ?l] => pose proof (buckets_perm
    (λ ns : string * LayerSpec, (l_block_size ns.2, l_sliding_window ns.2)) id h l [] (λ _ _, eq_refl)) as Hp end.
  rewrite Hp. simpl. rewrite list_fmap_id, app_nil_r. clear Hp.
  destruct (filter_disjoint p q d) as [H1 H2]; [intros x; unfold p, q; by destruct (is_class _ _)|]. split; [exact H1|].
  intros [Hno|Hall]; apply H2.
  - apply existsb_exists in Ew as (s & Hs%list_elem_of_In & E). rewrite Hno in E by done. done.
  - intros x Hx. unfold p, q. specialize (Hall x.2 ltac:(apply list_elem_of_fmap; by exists x)).
    destruct (is_class _ _); [by rewrite orb_true_r|]. simpl in *. by rewrite Hall.
Qed.


Lemma sub_ok (d d' : specs) : d' ⊆+ d → NoDup d.*1 → dims d → NoDup d'.*1 ∧ pages_nonneg d'.
Proof.
  intros Hsub Hnd Hd. split.
  { apply submseteq_Permutation in Hsub as [r Hr]. rewrite Hr, fmap_app in Hnd. by apply NoDup_app in Hnd as (? & _). }
  rewrite Forall_forall in Hd |- *. intros s (x & -> & Hx)%list_elem_of_fmap. apply dims_page_nonneg, Hd.
  apply list_elem_of_fmap. exists x. split; [done|]. by eapply elem_of_submseteq.
Qed.

(** What the groups of a model promise *)
Record groups_good (d : specs) (groups : list LayerGroup) : Prop := {
  gg_sub : all_names groups ⊆+ d.*1;
  gg_all : latent_alone d → all_names groups ≡ₚ d.*1;
  gg_keyed : Forall keyed groups;
  gg_homogeneous : same_groups groups ∨ uniform_groups groups;
}.

Lemma same_keyed groups : same_groups groups → Forall keyed groups.
Proof. intros H. eapply Forall_impl; [exact H|]. intros g [s E]. unfold KVConfigSafe.keyed. by rewrite E. Qed.

Lemma same_good d groups : all_names groups ≡ₚ d.*1 → same_groups groups → groups_good d groups.
Proof. intros Hp Hs. split; [by rewrite Hp|done|by apply same_keyed|by left]. Qed.

Lemma get_groups_good c d groups d' :
  Config.get_kv_cache_groups get_dtype_size c d = Ok (groups, d') → NoDup d.*1 → dims d → groups_good d groups.
Proof.
  intros (d1 & Hd1 & H)%bind_Ok Hnd Hd.
  assert (H1 : d1.*1 = d.*1 ∧ dims d1 ∧ (latent_alone d → latent_alone d1)).
  { destruct (vf_disable_hybrid_kv_cache_manager c); [by apply unify_hybrid_ok|]. by injection Hd1 as <-. }
  destruct H1 as (Hk & Hdims & Hlat). clear Hd1 Hd.
  enough (groups_good d1 groups) as [G1 G2 G3 G4] by (rewrite Hk in *; split; auto). clear Hlat.
  rewrite <- Hk in Hnd. clear Hk d. rename d1 into d. destruct d as [|x d0]; [injection H as <- <-; apply same_good; [done|constructor]|].
  set (d := x :: d0) in *. cbv beta iota in H. apply bind_Ok in H as (u & _ & H). destruct u.
  { apply bind_Ok in H as (gs & [Hn Hs]%create_groups_ok & [= <- _]). apply same_good; [|done]. rewrite Hn. simpl.
    by rewrite app_nil_r. }
  apply bind_Ok in H as ([g|] & Hg & H).
  { apply from_specs_Ok in Hg as [bs ->]. injection H as <- _. split.
    - unfold all_names. simpl. by rewrite app_nil_r.
    - intros _. unfold all_names. simpl. by rewrite app_nil_r.
    - constructor; [|done]. destruct (sub_ok d d) as [? ?]; [done..|]. unfold KVConfigSafe.keyed. simpl. split_and!; [done|by right|done].
    - right. by constructor. }
  apply bind_Ok in H as ([ds|] & Hds & H).
  - apply bind_Ok in H as (gs & Hgs & [= <- _]). destruct (group_and_unify_ok _ _ Hds) as [Hsub Hperm].
    destruct (annotate_ok c d gs) as (A1 & A2 & A3).
    destruct (uniform_groups_ok ds gs Hgs) as (G1 & G2 & G3).
    { apply Forall_forall. intros d1 Hd1. apply (sub_ok d); [|done..]. rewrite <- Hsub. by apply concat_elem_sub. }
    split; [|intros Hl; rewrite A1, G1; by rewrite Hperm| |right]; auto. rewrite A1, G1. by apply fmap_submseteq.
  - apply bind_Ok in H as (gs & [Hn Hs]%general_groups_ok & [= <- _]). by apply same_good.
Qed.
End groups.
