(* ===== verification/KVConfigs.v ===== *)
(** * The configurations of the workers are sound

    From the groups of the model to the tensors of every worker: the projection to a
    worker, the merge of the workers' layers, the common number of blocks, admission
    and the automatic choice of the model's length. *)
From S2P Require Import Prelude KVSpec LayerSpec KVConfig KVConfigSafe KVGroups.

Section workers.
Context (get_dtype_size : string → Z) (c : VllmConfig) (Hno : vf_num_gpu_blocks_override c = None).
Context (Hsize : ∀ dtype, 0 ≤ get_dtype_size dtype).
Abbreviation keyed := (keyed get_dtype_size).
Abbreviation layout := (layout get_dtype_size).

(** ** The projection to a worker *)
Lemma project_group_ok w g g' :
  Config.project_group w g = Ok g' → keyed g →
  lg_layer_names g' = filter (λ n, n ∈ w.*1) (lg_layer_names g) ∧ keyed g' ∧
  is_uniform_group g' = is_uniform_group g ∧ (∀ s, lg_spec g = Same s → lg_spec g' = Same s).
Proof.
  intros (spec & Hspec & [= <-])%bind_Ok Hk. unfold KVConfigSafe.keyed, is_uniform_group in *.
  destruct (lg_spec g) as [s|bs d]; simpl; [by injection Hspec as <-|].
  destruct Hk as (Hnd & Hnames & Hpages).
  destruct (filter (λ n, n ∈ w.*1) (lg_layer_names g)) as [|n names] eqn:En.
  - injection Hspec as <-. split_and!; [done|done|by left|done|done|done].
  - apply bind_Ok in Hspec as (sub & [Hk Hsub]%sub_specs_Ok & [= <-]). split_and!; [done| |by right| |done|done].
    + rewrite Hk, <- En. apply NoDup_filter. destruct Hnames as [->| ->]; [constructor|done].
    + rewrite Forall_forall in Hpages |- *. intros s (x & -> & Hx)%list_elem_of_fmap. apply Hpages, list_elem_of_fmap. eauto.
Qed.

Lemma project_ok w groups groups' :
  Config._project_kv_cache_groups_to_worker groups w = Ok groups' → Forall keyed groups →
  all_names groups' = filter (λ n, n ∈ w.*1) (all_names groups) ∧ Forall keyed groups' ∧
  (same_groups groups → same_groups groups') ∧ (uniform_groups groups → uniform_groups groups').
Proof.
  intros H%rmap_Forall2 Hk. induction H as [|g g' groups groups' Hg _ IH]; [by repeat constructor|].
  apply Forall_cons in Hk as [Hg' Hk]. destruct (IH Hk) as (H1 & H2 & H3 & H4).
  destruct (project_group_ok _ _ _ Hg Hg') as (G1 & G2 & G3 & G4).
  rewrite !all_names_cons, filter_app, G1, H1. split_and!; [done|by constructor| |].
  - intros [[s Es] Hs]%Forall_cons. constructor; [exists s; auto|by apply H3].
  - intros [Eu Hu]%Forall_cons. constructor; [by rewrite G3|by apply H4].
Qed.

(** ** The layers of all workers *)
Lemma merge_worker_ok (P : LayerSpec → Prop) (w merged merged' : specs) :
  Config.merge_worker w merged = Ok merged' → Forall P w.*2 → Forall P merged.*2 → NoDup merged.*1 →
  Forall P merged'.*2 ∧ NoDup merged'.*1.
Proof.
  revert merged. induction w as [|[n s] w IH]; intros merged; simpl; [by intros [= <-]|].
  intros H [Hs Hw]%Forall_cons Hm Hnd. destruct (spec_get n merged) as [s'|] eqn:E.
  - apply bind_Ok in H as (u & _ & H). by apply (IH merged).
  - apply (IH _ H Hw); rewrite fmap_app.
    + apply Forall_app. split; [done|by constructor].
    + apply NoDup_app. split_and!; [done| |apply NoDup_singleton].
      intros k (x & -> & Hx)%list_elem_of_fmap Hk%list_elem_of_singleton. simpl in Hk.
      assert (∀ d : specs, x ∈ d → spec_get x.1 d ≠ None) as Hsome.
      { clear. induction d as [|[k v] d IH]; simpl; [set_solver|]. intros [->|H]%elem_of_cons; simpl.
        - by rewrite decide_True.
        - case_decide; [done|by apply IH]. }
      apply (Hsome merged Hx). by rewrite Hk.
Qed.

Lemma merge_workers_ok (P : LayerSpec → Prop) workers merged merged' :
  Config.merge_workers workers merged = Ok merged' → Forall (λ w : specs, Forall P w.*2) workers →
  Forall P merged.*2 → NoDup merged.*1 → Forall P merged'.*2 ∧ NoDup merged'.*1.
Proof.
  revert merged. induction workers as [|w workers IH]; intros merged; simpl; [by intros [= <-]|].
  intros (m & Hm & H)%bind_Ok [Hw Hws]%Forall_cons H1 H2.
  destruct (merge_worker_ok P _ _ _ Hm Hw H1 H2). by eapply IH.
Qed.

(** ** The common number of blocks *)
Lemma shrink_ok num_blocks cfg cfg' :
  Config.shrink_config num_blocks cfg = Ok cfg' →
  lc_num_blocks cfg' = num_blocks ∧ lc_kv_cache_groups cfg' = lc_kv_cache_groups cfg ∧
  Forall2 (λ t t', kt_shared_by t' = kt_shared_by t ∧ lc_num_blocks cfg ≠ 0 ∧
    kt_size t = kt_size t / lc_num_blocks cfg * lc_num_blocks cfg ∧
    kt_size t' = kt_size t / lc_num_blocks cfg * num_blocks) (lc_kv_cache_tensors cfg) (lc_kv_cache_tensors cfg').
Proof.
  intros (ts & Hts%rmap_Forall2 & [= <-])%bind_Ok. simpl. split_and!; [done|done|].
  eapply Forall2_impl; [exact Hts|]. intros t t' (q & [Hnz ->]%floor_div_Ok & (u & Hm%rassert_Ok & [= <-])%bind_Ok)%bind_Ok.
  simpl. split_and!; try done. pose proof (Z.div_mod (kt_size t) (lc_num_blocks cfg) Hnz). lia.
Qed.

Lemma shrink_layout groups n cfg cfg' a :
  config_ok get_dtype_size groups a cfg → Config.shrink_config n cfg = Ok cfg' → 0 ≤ n ≤ lc_num_blocks cfg → 0 ≤ a →
  config_ok get_dtype_size groups a cfg' ∧ lc_num_blocks cfg' = n.
Proof.
  intros [Hg H0 [Hc Hsz Hap] Hfit] Hs Hn Ha. destruct (shrink_ok _ _ _ Hs) as (En & Eg & Hts). split; [|done].
  assert (Hshared : (lc_kv_cache_tensors cfg' ≫= kt_shared_by) = (lc_kv_cache_tensors cfg ≫= kt_shared_by)).
  { clear -Hts. induction Hts as [|t t' ts ts' (E & _) _ IH]; [done|]. cbn [mbind list_bind] in *. by rewrite E, IH. }
  assert (Hin : ∀ t', t' ∈ lc_kv_cache_tensors cfg' → ∃ t, t ∈ lc_kv_cache_tensors cfg ∧ kt_shared_by t' = kt_shared_by t ∧
    lc_num_blocks cfg ≠ 0 ∧ kt_size t' = kt_size t / lc_num_blocks cfg * n).
  { intros t' [i Hi]%list_elem_of_lookup. destruct (Forall2_lookup_r _ _ _ _ _ Hts Hi) as (t & Ht & E1 & E2 & _ & E3).
    exists t. split; [by eapply list_elem_of_lookup_2|done]. }
  split; [congruence|lia| |].
  - rewrite En. split.
    + by rewrite Hshared.
    + intros t' g m (t & Ht & Es & Hnz & Ez)%Hin Hg' Hm Hgm. rewrite Es in Hm.
      destruct (Hsz t g m Ht Hg' Hm Hgm) as (p & Hp & Et). exists p. split; [done|].
      rewrite Ez, Et, Z.div_mul by done. done.
    + intros t' g m m' (t & Ht & Es & _)%Hin Hg' Hm Hm'. rewrite Es in Hm, Hm'. by eapply Hap.
  - enough (∃ q, total_size (lc_kv_cache_tensors cfg) = q * lc_num_blocks cfg ∧ total_size (lc_kv_cache_tensors cfg') = q * n)
      as (q & E1 & E2) by (destruct (Z.le_gt_cases 0 q); nia).
    clear -Hts. induction Hts as [|t t' ts ts' (_ & _ & Et & Et') _ (q & E1 & E2)]; [by exists 0|].
    exists (kt_size t / lc_num_blocks cfg + q). unfold total_size in *. rewrite !fmap_cons, !zsum_cons, E1, E2, Et'. lia.
Qed.

(** ** The configurations *)

(** A worker with the layers [w] and the memory [a]: every layer is in one group and
    has one tensor; all fit. *)
Definition worker_ok (num_blocks : Z) (w : specs) (a : Z) (cfg : LayerConfig) : Prop :=
  lc_num_blocks cfg = num_blocks ∧ all_names (lc_kv_cache_groups cfg) ≡ₚ w.*1 ∧
  layout (lc_kv_cache_groups cfg) num_blocks (lc_kv_cache_tensors cfg) ∧ total_size (lc_kv_cache_tensors cfg) ≤ a.

Lemma all_names_length groups : len (all_names groups) = zsum ((λ g, len (lg_layer_names g)) <$> groups).
Proof. induction groups as [|g groups IH]; [done|]. rewrite all_names_cons, fmap_cons, zsum_cons, length_app. lia. Qed.

Lemma worker_config_ok c1 groups w a projected cfg :
  vf_num_gpu_blocks_override c1 = None →
  NoDup (all_names groups) → Forall keyed groups → same_groups groups ∨ uniform_groups groups → NoDup w.*1 → 0 ≤ a →
  Config._project_kv_cache_groups_to_worker groups w = Ok projected →
  Config.worker_config get_dtype_size c1 (projected, w, a) = Ok cfg →
  config_ok get_dtype_size projected a cfg ∧ all_names projected ≡ₚ w.*1.
Proof.
  intros Hno1 Hnd Hk Hhom Hw Ha (Hn & Hk' & Hs & Hu)%project_ok (u & Hlen%rassert_Ok & Hcfg)%bind_Ok; [|done].
  assert (Hnd' : NoDup (all_names projected)) by (rewrite Hn; by apply NoDup_filter). split.
  - apply (from_groups_ok get_dtype_size c1 Hno1); auto. destruct Hhom; auto.
  - apply submseteq_length_Permutation.
    + apply NoDup_submseteq; [done|]. intros x. rewrite Hn, list_elem_of_filter. by intros [? _].
    + rewrite <- all_names_length in Hlen. rewrite length_fmap. lia.
Qed.

Abbreviation configs := (Config.get_kv_cache_configs get_dtype_size c).
Lemma check_worker_Ok c1 groups a u : Config.check_worker get_dtype_size c1 (groups, a) = Ok u →
  groups = [] ∨ 0 < a ∧ ∃ x, Config._max_memory_usage_bytes_from_groups get_dtype_size c1 groups = Ok x ∧ x ≤ a.
Proof.
  unfold Config.check_worker, Config._check_enough_kv_cache_memory. simpl. destruct groups as [|g groups]; [by left|].
  destruct (Z.leb_spec a 0); [done|]. intros (x & Hx & H1)%bind_Ok. right. split; [lia|]. exists x. split; [done|].
  destruct (Z.ltb_spec a x); [|done]. by apply bind_Ok in H1 as (? & _ & ?).
Qed.

(** The steps of a run that gives configurations *)
Record run (workers : list specs) (avail : list Z) (c1 : VllmConfig) (cfgs : list LayerConfig)
    (merged : specs) (groups : list LayerGroup) (projected : list (list LayerGroup)) (old : list LayerConfig) (n : Z) : Prop := {
  ru_merge : Config.merge_workers workers [] = Ok merged;
  ru_groups : ∃ d', Config.get_kv_cache_groups get_dtype_size c merged = Ok (groups, d');
  ru_project : rmap (Config._project_kv_cache_groups_to_worker groups) workers = Ok projected;
  ru_length : (if vf_original_max_model_len c =? -1 then Config._auto_fit_max_model_len get_dtype_size c projected avail else Ok c) = Ok c1;
  ru_check i gs a : projected !! i = Some gs → avail !! i = Some a →
    gs = [] ∨ 0 < a ∧ ∃ x, Config._max_memory_usage_bytes_from_groups get_dtype_size c1 gs = Ok x ∧ x ≤ a;
  ru_config i gs w a : projected !! i = Some gs → workers !! i = Some w → avail !! i = Some a →
    ∃ cfg, old !! i = Some cfg ∧ Config.worker_config get_dtype_size c1 (gs, w, a) = Ok cfg;
  ru_min cfg : cfg ∈ old → n ≤ lc_num_blocks cfg;
  ru_min_in : n ∈ lc_num_blocks <$> old;
  ru_shrink : rmap (Config.shrink_config n) old = Ok cfgs;
  ru_old_length : length old = Nat.min (Nat.min (length projected) (length workers)) (length avail);
}.

Lemma configs_run workers avail c1 cfgs :
  configs workers avail = Ok (c1, cfgs) →
  ∃ merged groups projected old n, run workers avail c1 cfgs merged groups projected old n.
Proof.
  unfold Config.get_kv_cache_configs. rewrite Hno.
  intros (merged & Hm & (u & _ & ([groups d'] & Hg & (projected & Hp & (av & [= <-] & (c2 & Hc & (us & Hus & (old & Hold &
    (n & Hn & (cfgs' & Hs & [= -> ->])%bind_Ok)%bind_Ok)%bind_Ok)%bind_Ok)%bind_Ok)%bind_Ok)%bind_Ok)%bind_Ok)%bind_Ok)%bind_Ok.
  exists merged, groups, projected, old, n. split; auto.
  - by exists d'.
  - intros i gs a Hi Ha. destruct (rmap_lookup _ _ _ i (gs, a) Hus) as (u' & Hu & _); [|by eapply check_worker_Ok].
    apply lookup_zip_with_Some. by exists gs, a.
  - intros i gs w a Hi Hw Ha. destruct (rmap_lookup _ _ _ i (gs, w, a) Hold) as (cfg & Hcfg & E); [|by exists cfg].
    apply lookup_zip_with_Some. exists (gs, w), a. split_and!; [done| |done]. apply lookup_zip_with_Some. by exists gs, w.
  - intros cfg Hc'. apply zmin_Ok in Hn as [_ Hn]. apply Hn, list_elem_of_fmap. by exists cfg.
  - by apply zmin_Ok in Hn as [Hn _].
  - by rewrite (rmap_length _ _ _ Hold), !length_zip_with.
Qed.

Lemma auto_fit_override projected avail c1 :
  Config._auto_fit_max_model_len get_dtype_size c projected avail = Ok c1 → ∃ m, c1 = vf_set_max_model_len m c.
Proof.
  assert (Hc : c = vf_set_max_model_len (vf_max_model_len c) c) by (by destruct c).
  unfold Config._auto_fit_max_model_len. destruct (forallb _ _); [intros [= <-]; eauto|].
  intros (m & _ & H)%bind_Ok. destruct (m <=? 0); [done|]. destruct (_ <=? m); injection H as <-; eauto.
Qed.

(** The hypotheses on the input: what the layers report has no negative dimensions. *)
Definition workers_wf (workers : list specs) (avail : list Z) : Prop :=
  Forall (λ w : specs, NoDup w.*1 ∧ Forall dims_ok w.*2) workers ∧ length avail = length workers ∧ Forall (λ a, 0 ≤ a) avail.

Lemma run_sound workers avail c1 cfgs merged groups projected old n :
  run workers avail c1 cfgs merged groups projected old n → workers_wf workers avail →
  length cfgs = length workers ∧ 0 ≤ n ∧
  ∀ i w a, workers !! i = Some w → avail !! i = Some a → ∃ gs cfg0 cfg,
    projected !! i = Some gs ∧ old !! i = Some cfg0 ∧ cfgs !! i = Some cfg ∧
    config_ok get_dtype_size gs a cfg0 ∧ config_ok get_dtype_size gs a cfg ∧ all_names gs ≡ₚ w.*1 ∧
    lc_num_blocks cfg = n ∧ n ≤ lc_num_blocks cfg0.
Proof.
  intros [Hm [d' Hg] Hp Hc1 _ Hcfg Hmin Hminin Hs Hlen] (Hw & Hla & Hav').
  pose proof (proj1 (Forall_forall (λ a, 0 ≤ a) avail) Hav') as Hav. clear Hav'.
  assert (Hno1 : vf_num_gpu_blocks_override c1 = None).
  { destruct (_ =? _); [|by injection Hc1 as <-]. by apply auto_fit_override in Hc1 as [m ->]. }
  destruct (merge_workers_ok dims_ok _ _ _ Hm) as [Hdims Hnd]; [|done|constructor|].
  { eapply Forall_impl; [exact Hw|]. by intros w [_ ?]. }
  destruct (get_groups_good _ Hsize _ _ _ _ Hg Hnd Hdims) as [Hsub _ Hkeyed Hhom].
  assert (Hgnd : NoDup (all_names groups)).
  { apply submseteq_Permutation in Hsub as [r Hr]. rewrite Hr in Hnd. by apply NoDup_app in Hnd as (? & _). }
  assert (Hwork : ∀ i w a, workers !! i = Some w → avail !! i = Some a → ∃ gs cfg0,
    projected !! i = Some gs ∧ old !! i = Some cfg0 ∧ config_ok get_dtype_size gs a cfg0 ∧ all_names gs ≡ₚ w.*1).
  { intros i w a Hi Ha. destruct (rmap_lookup _ _ _ _ _ Hp Hi) as (gs & Hgs & Eg).
    destruct (Hcfg i gs w a Eg Hi Ha) as (cfg0 & E0 & Hcfg0). exists gs, cfg0. split_and!; try done.
    all: destruct (proj1 (Forall_forall _ _) Hw w) as [Hwnd _]; [by eapply list_elem_of_lookup_2|].
    all: apply (worker_config_ok c1 groups w a gs cfg0 Hno1); auto; apply Hav; by eapply list_elem_of_lookup_2. }
  assert (Hpl : length projected = length workers) by (by eapply rmap_length).
  assert (Hn0 : 0 ≤ n).
  { apply list_elem_of_fmap in Hminin as (cfg0 & -> & [i Hi]%list_elem_of_lookup).
    assert (i < length workers)%nat as [w Hiw]%lookup_lt_is_Some by (apply lookup_lt_Some in Hi; lia).
    assert (i < length avail)%nat as [a Hia]%lookup_lt_is_Some by (apply lookup_lt_Some in Hi; lia).
    destruct (Hwork i w a Hiw Hia) as (gs & cfg & _ & E & [_ ? _ _] & _). congruence. }
  split_and!; [rewrite (rmap_length _ _ _ Hs); lia|done|].
  intros i w a Hi Ha. destruct (Hwork i w a Hi Ha) as (gs & cfg0 & Eg & E0 & Hok & Hnames).
  destruct (rmap_lookup _ _ _ _ _ Hs E0) as (cfg & Hcfg' & Ec). pose proof (Hmin cfg0 ltac:(by eapply list_elem_of_lookup_2)).
  destruct (shrink_layout gs n cfg0 cfg a Hok Hcfg') as [Hok' En]; [lia|apply Hav; by eapply list_elem_of_lookup_2|].
  exists gs, cfg0, cfg. by split_and!.
Qed.

(** ** Admission *)

(** The blocks that a request of maximal length needs, in all groups *)
Definition request_blocks (c1 : VllmConfig) (page : Z) (groups : list LayerGroup) : res (list Z) :=
  rmap (λ g, mem ← Config.group_max_memory get_dtype_size c1 (lg_spec g); Ok (cdiv mem page)) groups.
Definition one_page (groups : list LayerGroup) : res Z :=
  pages ← rmap (λ g, Config.group_page_size get_dtype_size (lg_spec g)) groups; Config.get_uniform_page_size pages.

Lemma rmap_fmap {A B C} (f : B → res C) (h : A → B) l : rmap (λ x, f (h x)) l = rmap f (h <$> l).
Proof. induction l as [|x l IH]; [done|]. rewrite fmap_cons. cbn [rmap]. by rewrite IH. Qed.

Lemma request_blocks_specs c1 page groups groups' :
  lg_spec <$> groups = lg_spec <$> groups' →
  request_blocks c1 page groups = request_blocks c1 page groups' ∧ one_page groups = one_page groups'.
Proof.
  intros E. unfold request_blocks, one_page.
  rewrite !(rmap_fmap (λ s, mem ← Config.group_max_memory get_dtype_size c1 s; Ok (cdiv mem page)) lg_spec).
  rewrite !(rmap_fmap (Config.group_page_size get_dtype_size) lg_spec). by rewrite E.
Qed.

Lemma same_memory c1 groups x : same_groups groups → groups ≠ [] →
  Config._max_memory_usage_bytes_from_groups get_dtype_size c1 groups = Ok x →
  ∃ gs page blocks, zmax ((λ g, len (lg_layer_names g)) <$> groups) = Ok gs ∧ one_page groups = Ok page ∧
    request_blocks c1 page groups = Ok blocks ∧ x = gs * page * zsum blocks.
Proof.
  intros [|[ns sp e] rest [s Es] _]; [done|]. simpl in Es. subst sp. intros _ H.
  assert (Hg : (gs ← zmax ((λ g, len (lg_layer_names g)) <$> mkLGroup ns (Same s) e :: rest);
    pages ← rmap (λ g, Config.group_page_size get_dtype_size (lg_spec g)) (mkLGroup ns (Same s) e :: rest);
    page ← Config.get_uniform_page_size pages;
    blocks ← request_blocks c1 page (mkLGroup ns (Same s) e :: rest);
    Ok (gs * page * zsum blocks)) = Ok x) by exact H.
  clear H. apply bind_Ok in Hg as (gs & Hgs & (pages & Hpages & (page & Hpage & (blocks & Hblocks & [= <-])%bind_Ok)%bind_Ok)%bind_Ok).
  exists gs, page, blocks. split_and!; try done. unfold one_page. by rewrite Hpages.
Qed.

Lemma same_config c1 groups a cfg :
  vf_num_gpu_blocks_override c1 = None → same_groups groups → groups ≠ [] →
  Config.get_kv_cache_config_from_groups get_dtype_size c1 groups a = Ok cfg →
  ∃ gs page, zmax ((λ g, len (lg_layer_names g)) <$> groups) = Ok gs ∧ one_page groups = Ok page ∧ 0 < gs ∧ page ≠ 0 ∧
    lc_num_blocks cfg = Z.max (a / page / gs) 0 ∧ len (lc_kv_cache_tensors cfg) = gs.
Proof.
  intros Hno1 [|[ns sp e] rest [s Es] _]; [done|]. simpl in Es. subst sp. intros _ H.
  set (groups0 := mkLGroup ns (Same s) e :: rest) in *.
  assert (Hg : (gs ← zmax ((λ g, len (lg_layer_names g)) <$> groups0);
   pages ← rmap (λ g, Config.group_page_size get_dtype_size (lg_spec g)) groups0;
   page_size ← Config.get_uniform_page_size pages;
   _ ← rassert (0 <? gs);
   num_blocks ← Config.get_num_blocks c1 gs a page_size;
   Ok (mkLConfig num_blocks
        ((λ i, mkTensor (page_size * num_blocks) (Config.shared_by groups0 i)) <$> seq 0 (Z.to_nat gs)) groups0)) = Ok cfg) by exact H.
  clear H. apply bind_Ok in Hg as (gs & Hgs & (pages & Hpages & (page & Hpage & (u & Hpos%rassert_Ok & (nb & Hnb & [= <-])%bind_Ok)%bind_Ok)%bind_Ok)%bind_Ok).
  apply bind_Ok in Hnb as (q & [Hp0 ->]%floor_div_Ok & (q' & [_ ->]%floor_div_Ok & [= <-])%bind_Ok).
  exists gs, page. unfold Config.may_override_num_blocks, one_page. rewrite Hno1, Hpages. simpl.
  split_and!; try done; [lia|]. rewrite length_fmap, length_seq. lia.
Qed.

(** The memory of one block of all layers *)
Lemma same_pool_bytes groups gs page : same_groups groups → groups ≠ [] →
  zmax ((λ g, len (lg_layer_names g)) <$> groups) = Ok gs → one_page groups = Ok page →
  Config._pool_bytes_per_block get_dtype_size groups = Ok (page * gs).
Proof.
  intros [|[ns sp e] rest [s Es] _]; [done|]. simpl in Es. subst sp. intros _ Hgs (pages & Hp & Hpage)%bind_Ok.
  assert (E : Config._pool_bytes_per_block get_dtype_size (mkLGroup ns (Same s) e :: rest) =
    (group_size ← zmax ((λ g, len (lg_layer_names g)) <$> mkLGroup ns (Same s) e :: rest);
     pages ← rmap (λ g, Config.group_page_size get_dtype_size (lg_spec g)) (mkLGroup ns (Same s) e :: rest);
     page_size ← Config.get_uniform_page_size pages; Ok (page_size * group_size))) by done.
  rewrite E, Hgs, Hp. cbn [mbind res_bind]. by rewrite Hpage.
Qed.

Lemma general_admission c1 groups a x cfg n cfg' :
  vf_num_gpu_blocks_override c1 = None → same_groups groups → groups ≠ [] → 0 < a →
  Config._max_memory_usage_bytes_from_groups get_dtype_size c1 groups = Ok x → x ≤ a →
  Config.get_kv_cache_config_from_groups get_dtype_size c1 groups a = Ok cfg → Config.shrink_config n cfg = Ok cfg' →
  ∃ page blocks, one_page groups = Ok page ∧ 0 < page ∧ request_blocks c1 page groups = Ok blocks ∧ zsum blocks ≤ lc_num_blocks cfg ∧
    ∀ b, Config._pool_bytes_per_block get_dtype_size groups = Ok b → x + b ≤ a → zsum blocks < lc_num_blocks cfg.
Proof.
  intros Hno1 Hs Hne Ha Hx Hxa Hcfg Hshr.
  destruct (same_memory _ _ _ Hs Hne Hx) as (gs & page & blocks & Egs & Epage & Eb & ->).
  destruct (same_config _ _ _ _ Hno1 Hs Hne Hcfg) as (gs' & page' & Egs' & Epage' & Hgs & Hp & En & Elen).
  assert (gs' = gs) as -> by congruence. assert (page' = page) as -> by congruence.
  destruct (shrink_ok _ _ _ Hshr) as (_ & _ & Hts).
  assert (Hnz : lc_num_blocks cfg ≠ 0). { inversion Hts as [E|t t' ts ts' (_ & Hnz & _) _ E]; [|done].
    rewrite <- E in Elen. simpl in Elen. lia. }
  assert (Hq : 0 < a / page / gs) by lia.
  assert (Hpos : 0 < page).
  { destruct (Z.lt_ge_cases 0 page) as [|Hle]; [done|]. pose proof (Z.div_mod a page Hp).
    pose proof (Z.mod_neg_bound a page ltac:(lia)). assert (a / page ≤ 0) by nia. pose proof (Z.mul_div_le (a / page) gs Hgs). nia. }
  exists page, blocks. rewrite En, Z.max_l by lia. split_and!; try done.
  - apply Z.div_le_lower_bound; [done|]. apply Z.div_le_lower_bound; [done|]. lia.
  - intros b. rewrite (same_pool_bytes groups gs page) by done. intros [= <-] Hb.
    apply Z.le_succ_l. apply Z.div_le_lower_bound; [done|]. apply Z.div_le_lower_bound; [done|]. nia.
Qed.

Lemma project_specs w groups gs : same_groups groups →
  Config._project_kv_cache_groups_to_worker groups w = Ok gs → lg_spec <$> gs = lg_spec <$> groups.
Proof.
  intros Hs H%rmap_Forall2. induction H as [|g g' groups gs Hg _ IH]; [done|].
  apply Forall_cons in Hs as [[s Es] Hs]. rewrite !fmap_cons, IH by done. f_equal.
  apply bind_Ok in Hg as (sp & Hsp & [= <-]). simpl. rewrite Es in *. by injection Hsp as <-.
Qed.

Lemma project_same w groups gs : Config._project_kv_cache_groups_to_worker groups w = Ok gs →
  same_groups groups ∨ uniform_groups groups → gs ≠ [] → same_groups gs → same_groups groups.
Proof.
  intros H%rmap_Forall2 [?|Hu] Hne Hs; [done|]. destruct H as [|g g' groups gs Hg _]; [done|]. exfalso.
  apply Forall_cons in Hs as [[s Es] _]. apply Forall_cons in Hu as [Eu _]. unfold is_uniform_group in Eu.
  apply bind_Ok in Hg as (sp & Hsp & [= <-]). simpl in Es. subst sp. destruct (lg_spec g); [done|].
  destruct (filter _ _) in Hsp; [done|]. by apply bind_Ok in Hsp as (? & _ & ?).
Qed.

(** The worker has memory for one more block of all layers than the check asks for. *)
Definition block_to_spare (c1 : VllmConfig) (groups : list LayerGroup) (a : Z) : Prop :=
  ∃ x b, Config._max_memory_usage_bytes_from_groups get_dtype_size c1 groups = Ok x ∧
    Config._pool_bytes_per_block get_dtype_size groups = Ok b ∧ x + b ≤ a.

(** C11. The admission check and the pool, when every group has one specification
    and the number of blocks is not overridden: the number of blocks of every worker
    - the smallest that any worker can afford - is at least the number of blocks
    that a request of maximal length needs in all groups together; and when every
    worker has the memory of one more block to spare, the request fits beside the
    block that the pool keeps as the null block. The check does not ask for that
    block: with no memory to spare the request is admitted and starves
    ([tight_start_starves]). *)
Theorem pool_holds_longest_request workers avail c1 cfgs i cfg :
  workers_wf workers avail → Config.get_kv_cache_configs get_dtype_size c workers avail = Ok (c1, cfgs) →
  cfgs !! i = Some cfg → lc_kv_cache_groups cfg ≠ [] → same_groups (lc_kv_cache_groups cfg) →
  ∃ page blocks, one_page (lc_kv_cache_groups cfg) = Ok page ∧ 0 < page ∧
    request_blocks c1 page (lc_kv_cache_groups cfg) = Ok blocks ∧ zsum blocks ≤ lc_num_blocks cfg ∧
    ((∀ k cfgk a, cfgs !! k = Some cfgk → avail !! k = Some a → block_to_spare c1 (lc_kv_cache_groups cfgk) a) →
     zsum blocks ≤ lc_num_blocks cfg - 1).
Proof.
  intros Hwf (merged & groups & projected & old & n & Hrun)%configs_run Hi Hne Hsame.
  destruct (run_sound _ _ _ _ _ _ _ _ _ Hrun Hwf) as (Hlen & Hn & Hall).
  destruct Hrun as [Hm [d' Hg] Hp Hc1 Hcheck Hcfg Hmin Hminin Hs Hol].
  destruct Hwf as (Hw & Hla & _).
  assert (Hpick : ∀ j, (j < length workers)%nat → ∃ w a, workers !! j = Some w ∧ avail !! j = Some a).
  { intros j Hj. destruct (lookup_lt_is_Some_2 workers j Hj) as [w ?], (lookup_lt_is_Some_2 avail j ltac:(lia)) as [a ?]. eauto. }
  destruct (Hpick i) as (w & a & Hwi & Hai); [apply lookup_lt_Some in Hi; lia|].
  destruct (Hall i w a Hwi Hai) as (gs & cfg0 & cfg' & Egs & _ & Ei & _ & [Eg _ _ _] & _ & En & _).
  assert (cfg' = cfg) as -> by congruence. rewrite Eg in *. rewrite En.
  destruct (rmap_lookup_r _ _ _ _ _ Hp Egs) as (w' & Hw' & Hpi). assert (w' = w) as -> by congruence.
  assert (Hhom : same_groups groups ∨ uniform_groups groups).
  { destruct (merge_workers_ok dims_ok _ _ _ Hm) as [Hdims Hnd]; [|done|constructor|].
    { eapply Forall_impl; [exact Hw|]. by intros w0 [_ ?]. }
    by destruct (get_groups_good _ Hsize _ _ _ _ Hg Hnd Hdims). }
  pose proof (project_same _ _ _ Hpi Hhom Hne Hsame) as Hgsame.
  apply list_elem_of_fmap in Hminin as (k0 & En0 & [k Hk]%list_elem_of_lookup).
  destruct (Hpick k) as (wk & ak & Hwk & Hak); [apply lookup_lt_Some in Hk; pose proof (rmap_length _ _ _ Hp); lia|].
  destruct (Hall k wk ak Hwk Hak) as (gk & k1 & cfgk & Egk & Ek1 & Eck & _ & [Egroups _ _ _] & _ & _ & _).
  assert (k1 = k0) as -> by congruence.
  destruct (rmap_lookup_r _ _ _ _ _ Hp Egk) as (w' & Hw'' & Hpk). assert (w' = wk) as -> by congruence.
  pose proof (project_specs _ _ _ Hgsame Hpi) as Espi. pose proof (project_specs _ _ _ Hgsame Hpk) as Espk.
  assert (Hnek : gk ≠ []). { intros ->. destruct groups; [|done]. by destruct gs. }
  destruct (project_ok _ _ _ Hpk) as (_ & _ & Hsk & _); [by eapply same_keyed|].
  destruct (Hcheck k gk ak Egk Hak) as [?|(Hpos & x & Hx & Hxa)]; [done|].
  destruct (Hcfg k gk wk ak Egk Hwk Hak) as (k2 & Ek2 & (u & _ & Hfrom)%bind_Ok). assert (k2 = k0) as -> by congruence.
  destruct (rmap_lookup _ _ _ _ _ Hs Hk) as (cfgk' & Hshr & _).
  destruct (general_admission c1 gk ak x k0 n cfgk') as (page & blocks & E1 & E2 & E3 & E4 & E5); try done; [|by apply Hsk|].
  { destruct (_ =? _) in Hc1; [by apply auto_fit_override in Hc1 as [m ->]|by injection Hc1 as <-]. }
  destruct (request_blocks_specs c1 page gs gk) as [Eb Ep]; [congruence|].
  exists page, blocks. rewrite Eb, Ep, En0. split_and!; [done..|]. intros Hspare.
  destruct (Hspare k cfgk ak Eck Hak) as (x' & b & Ex & Epool & Hfits). rewrite Egroups in Ex, Epool.
  assert (x' = x) as -> by congruence. specialize (E5 b Epool Hfits). lia.
Qed.

(** C10. The configurations of the workers are sound, when the number of blocks is
    not overridden by the user: as many as workers, with one number of blocks for
    all; in each, the layers of the worker are divided among the groups, every layer
    has exactly one tensor, of the page size of its group's specification (the
    layer's own one in a group of several specifications) times the number of
    blocks, layers of one group have different tensors, and all tensors together fit
    the worker's memory. Layers are merged into one specification only if the code's
    check allows it; that the check overlooks [head_size_v], so that a layer's own
    page may differ, is [merge_forgets_head_size_v]. *)
Theorem get_kv_cache_configs_sound workers avail c1 cfgs :
  workers_wf workers avail → Config.get_kv_cache_configs get_dtype_size c workers avail = Ok (c1, cfgs) →
  ∃ num_blocks, length cfgs = length workers ∧ 0 ≤ num_blocks ∧
    ∀ i w a, workers !! i = Some w → avail !! i = Some a → ∃ cfg, cfgs !! i = Some cfg ∧ worker_ok num_blocks w a cfg.
Proof.
  intros Hwf (merged & groups & projected & old & n & Hrun)%configs_run.
  destruct (run_sound _ _ _ _ _ _ _ _ _ Hrun Hwf) as (Hlen & Hn & Hall). exists n. split_and!; [done..|].
  intros i w a Hw Ha. destruct (Hall i w a Hw Ha) as (gs & cfg0 & cfg & _ & _ & E & _ & [H1 H2 H3 H4] & Hnames & En & _).
  exists cfg. split; [done|]. unfold worker_ok. rewrite H1, <- En in *. by split_and!.
Qed.

End workers.

(** ** The automatic choice of the model's length *)
Section auto_fit.
Context (get_dtype_size : string → Z) (c : VllmConfig).

(** A request of length [m] fits the memory of the worker. *)
Definition worker_fits (m : Z) (w : list LayerGroup * Z) : Prop :=
  w.1 = [] ∨ ∃ x, Config._max_memory_usage_bytes_from_groups get_dtype_size (vf_set_max_model_len m c) w.1 = Ok x ∧ x ≤ w.2.

Definition computable (groups : list LayerGroup) : Prop :=
  groups_ok get_dtype_size groups ∧
  ∃ x, Config._max_memory_usage_bytes_from_groups get_dtype_size (vf_set_max_model_len 1 c) groups = Ok x.

Lemma auto_fit_loop_ok workers acc :
  Forall (λ w : list LayerGroup * Z, computable w.1) workers → 1 ≤ vf_max_model_len c → 0 ≤ acc ≤ vf_max_model_len c →
  ∃ r, Config.auto_fit_loop get_dtype_size c workers acc = Ok r ∧ 0 ≤ r ≤ acc ∧
    ∀ m, 1 ≤ m ≤ acc → (∀ w, w ∈ workers → worker_fits m w) ↔ m ≤ r.
Proof.
  intros Hw Hmax. revert acc. induction Hw as [|[gs a] workers [Hok [x1 Hx1]] _ IH]; intros acc Hacc.
  - exists acc. split_and!; [done|lia|lia|]. intros m Hm. split; [lia|set_solver].
  - cbn [Config.auto_fit_loop]. destruct gs as [|g gs].
    + destruct (IH acc Hacc) as (r & E & Hr & Hm). exists r. split_and!; [done|lia|lia|]. intros m Hm'.
      rewrite <- Hm by done. setoid_rewrite elem_of_cons. split; [auto|]. intros H w [->|Hin]; [by left|auto].
    + destruct (estimate_ok get_dtype_size c (g :: gs) a Hok Hmax) as (e & Ee & He & Hfe); [cbn [fst] in Hx1; rewrite Hx1; by eexists|].
      rewrite Ee. cbn [mbind res_bind]. destruct (IH (if e <? acc then e else acc)) as (r & E & Hr & Hm).
      { destruct (Z.ltb_spec e acc); lia. }
      exists r. rewrite E. split_and!; [done|lia|destruct (Z.ltb_spec e acc); lia|]. intros m Hm'.
      setoid_rewrite elem_of_cons. specialize (Hfe m ltac:(lia)).
      assert (Hhead : worker_fits m (g :: gs, a) ↔ m ≤ e).
      { rewrite <- Hfe. unfold worker_fits. simpl. split; [by intros [?|?]|by right]. }
      split.
      * intros H. apply Hm; [|by auto]. pose proof (proj1 Hhead (H _ (or_introl eq_refl))).
        destruct (Z.ltb_spec e acc); lia.
      * intros Hle w. assert (Hme : m ≤ e) by (destruct (Z.ltb_spec e acc); lia).
        intros [->|Hin]; [by apply Hhead|]. revert w Hin. apply Hm; [|done]. destruct (Z.ltb_spec e acc); lia.
Qed.

(** C12. When the configuration asks for it, the model's length becomes the longest one
    with which a request fits the memory of every worker; the start fails when not even
    one token fits. *)
Theorem auto_fit_longest projected avail :
  1 ≤ vf_max_model_len c → Forall computable projected →
  let fits m := ∀ w, w ∈ zip projected avail → worker_fits m w in
  (¬ fits 1 ∧ Config._auto_fit_max_model_len get_dtype_size c projected avail = Raise ValueError) ∨
  ∃ r, Config._auto_fit_max_model_len get_dtype_size c projected avail = Ok (vf_set_max_model_len r c) ∧
    1 ≤ r ≤ vf_max_model_len c ∧ ∀ m, 1 ≤ m ≤ vf_max_model_len c → fits m ↔ m ≤ r.
Proof.
  intros Hmax Hcomp fits. assert (Hc : vf_set_max_model_len (vf_max_model_len c) c = c) by (by destruct c).
  unfold Config._auto_fit_max_model_len. destruct (forallb _ _) eqn:Ee.
  { right. exists (vf_max_model_len c). rewrite Hc. split_and!; [done|lia|lia|]. intros m Hm. split; [lia|].
    intros _ [gs a] Hgs%elem_of_zip_l. left. rewrite forallb_forall in Ee. specialize (Ee gs).
    rewrite <- list_elem_of_In in Ee. specialize (Ee Hgs). by destruct gs. }
  destruct (auto_fit_loop_ok (zip projected avail) (vf_max_model_len c)) as (r & -> & Hr & Hm); [|done|lia|].
  { apply Forall_forall. intros [gs a] Hgs%elem_of_zip_l. by eapply Forall_forall in Hcomp. }
  cbn [mbind res_bind]. destruct (Z.leb_spec r 0).
  - left. split; [|done]. intros H1%Hm; lia.
  - right. exists r. split_and!; [|lia|lia|done]. destruct (Z.leb_spec (vf_max_model_len c) r); [|done].
    replace r with (vf_max_model_len c) by lia. by rewrite Hc.
Qed.
End auto_fit.

(** ** An example: two stages of a pipeline, with one layer of full attention and two of a
    window each *)
Module TwoStages.
Definition dtype_size (_ : string) : Z := 2.
Definition config (max_len original : Z) : VllmConfig := mkVConf max_len original 1 1 64 0 ModeNone None false false.
Definition full : LayerSpec :=
  new_attention FullAttentionSpec 16 2 8 "bfloat16" QUANT_NONE None (Some 8) None None 0 None None None 1 None.
Definition window : LayerSpec :=
  new_attention SlidingWindowSpec 16 2 8 "bfloat16" QUANT_NONE None (Some 8) (Some 32) None 0 None None None 1 None.
Definition stage (a b c : string) : specs := [(a, full); (b, window); (c, window)].
Definition workers : list specs := [stage "full.0" "sw.0" "sw.1"; stage "full.1" "sw.2" "sw.3"]%string.
Definition memory : list Z := [100000; 80000].
Definition first_stage : list LayerGroup :=
  [mkLGroup ["full.0"%string] (Same full) false; mkLGroup ["sw.0"%string] (Same window) false;
   mkLGroup ["sw.1"%string] (Same window) false].

Lemma size_nonneg dtype : 0 ≤ dtype_size dtype.
Proof. done. Qed.

Lemma stage_dims a b c : Forall dims_ok (stage a b c).*2.
Proof. unfold stage, dims_ok. simpl. repeat constructor; simpl; lia. Qed.

Lemma workers_ok : workers_wf workers memory.
Proof.
  unfold workers_wf, workers, memory. split_and!; [|done|by repeat constructor].
  repeat apply Forall_cons_2; [..|apply Forall_nil_2]; (split; [|apply stage_dims]); simpl;
    repeat (apply NoDup_cons_2; [set_solver|]); apply NoDup_nil_2.
Qed.

Lemma first_stage_computable : computable dtype_size (config 256 (-1)) first_stage.
Proof.
  split; [|by eexists]. unfold groups_ok, group_wf, first_stage.
  repeat (constructor; [split; [|done]; constructor; [|constructor]; split; [done|]; by intros p [= <-]|]). constructor.
Qed.
End TwoStages.

Lemma get_kv_cache_configs_sound_witness :
  match Config.get_kv_cache_configs TwoStages.dtype_size (TwoStages.config 256 256) TwoStages.workers TwoStages.memory with
  | Ok (_, cfgs) => ∃ num_blocks, length cfgs = 2%nat ∧ 0 ≤ num_blocks ∧
      ∀ i w a, TwoStages.workers !! i = Some w → TwoStages.memory !! i = Some a →
        ∃ cfg, cfgs !! i = Some cfg ∧ worker_ok TwoStages.dtype_size num_blocks w a cfg
  | Raise _ => False
  end.
Proof.
  destruct (Config.get_kv_cache_configs _ _ _ _) as [[c1 cfgs]|] eqn:E; [|vm_compute in E; discriminate].
  exact (get_kv_cache_configs_sound TwoStages.dtype_size (TwoStages.config 256 256) eq_refl TwoStages.size_nonneg
    TwoStages.workers TwoStages.memory c1 cfgs TwoStages.workers_ok E).
Defined.

Lemma pool_holds_longest_request_witness :
  match Config.get_kv_cache_configs TwoStages.dtype_size (TwoStages.config 256 256) TwoStages.workers TwoStages.memory with
  | Ok (c1, cfg :: _) => ∃ page blocks, one_page TwoStages.dtype_size (lc_kv_cache_groups cfg) = Ok page ∧ 0 < page ∧
      request_blocks TwoStages.dtype_size c1 page (lc_kv_cache_groups cfg) = Ok blocks ∧ zsum blocks ≤ lc_num_blocks cfg - 1
  | _ => False
  end.
Proof.
  destruct (Config.get_kv_cache_configs _ _ _ _) as [[c1 [|cfg cfgs]]|] eqn:E; [vm_compute in E; discriminate| |vm_compute in E; discriminate].
  destruct (pool_holds_longest_request TwoStages.dtype_size (TwoStages.config 256 256) eq_refl TwoStages.size_nonneg
    TwoStages.workers TwoStages.memory c1 (cfg :: cfgs) 0 cfg TwoStages.workers_ok E eq_refl) as (page & blocks & H1 & H2 & H3 & _ & H4).
  - vm_compute in E. injection E as _ <- _. done.
  - vm_compute in E. injection E as _ <- _. repeat (constructor; [by eexists|]). constructor.
  - exists page, blocks. split_and!; [exact H1|exact H2|exact H3|]. apply H4. vm_compute in E. injection E as <- <- <-.
    intros [|[|k]] cfgk a Hk Ha; [injection Hk as <-; injection Ha as <-|injection Hk as <-; injection Ha as <-|done];
      (eexists _, _; split; [vm_compute; reflexivity|]; split; [vm_compute; reflexivity|vm_compute; discriminate]).
Defined.

Lemma auto_fit_longest_witness :
  let c := TwoStages.config 256 (-1) in
  let projected := [TwoStages.first_stage] in
  let fits m := ∀ w, w ∈ zip projected [20000] → worker_fits TwoStages.dtype_size c m w in
  (¬ fits 1 ∧ Config._auto_fit_max_model_len TwoStages.dtype_size c projected [20000] = Raise ValueError) ∨
  ∃ r, Config._auto_fit_max_model_len TwoStages.dtype_size c projected [20000] = Ok (vf_set_max_model_len r c) ∧
    1 ≤ r ≤ 256 ∧ ∀ m, 1 ≤ m ≤ 256 → fits m ↔ m ≤ r.
Proof.
  apply (auto_fit_longest TwoStages.dtype_size (TwoStages.config 256 (-1)) [TwoStages.first_stage] [20000]).
  - done.
  - constructor; [exact TwoStages.first_stage_computable|constructor].
Defined.
