(* ===== verification/KVConfigDemo.v ===== *)
(** * The KV-cache configuration on concrete models

    Two starts whose configuration is not what it is meant to be: the memory of one
    request of maximal length, of which the block pool keeps a block for itself; and two
    layers with values of different sizes in one group. *)
From S2P Require Import Prelude FreeQueue Request BlockHash BlockPool KVSpec CacheHit SingleType.
From S2P Require Import Coordinator KVCacheManager EncoderCache RequestQueue SchedUtils SchedState Schedule SchedUpdate.
From S2P Require Import SchedDemo LayerSpec KVConfig KVConfigSafe KVConfigs.

(** One layer with blocks of four tokens, a model of sixteen tokens, memory for four
    blocks *)
Definition tight_layer : LayerSpec :=
  new_attention FullAttentionSpec 4 1 8 "bfloat16" QUANT_NONE None (Some 8) None None 0 None None None 1 None.
Definition tight_config : res (VllmConfig * list LayerConfig) :=
  Config.get_kv_cache_configs TwoStages.dtype_size (TwoStages.config 16 16) [[("layer"%string, tight_layer)]] [512].
Definition tight_blocks : Z :=
  match tight_config with Ok (_, cfg :: _) => lc_num_blocks cfg | _ => 0 end.

(** The scheduler on that number of blocks, and a request of the model's length *)
Definition tight_conf : SchedState.Config := demo_conf FCFS 4 64 16 2 None.
Definition tight_kv_config : KVCacheConfig := mkConfig tight_blocks [mkGroup (mkSpec 4 0 (FullAttention FKFull)) false].
Definition tight_start : Scheduler :=
  match Update.init tight_conf "fcfs" tight_kv_config (Some tight_blocks) None false false false false 1 1 None false with
  | Ok (_, s) => s
  | Raise _ => demo_empty
  end.
Definition tight_request : Request := demo_new "r" 15 0 0 1 (demo_sampling 1 0) None None false.
Definition tight_waiting : Scheduler :=
  match demo_run tight_conf None [DAdd 0 tight_request; DSchedule] ([], tight_start) with
  | Ok (_, s) => s
  | Raise _ => demo_empty
  end.

(** [tight_waiting] after [k] steps: only the counter of the steps has changed. *)
Definition tight_at (k : Z) : Scheduler := sc_set_current_step k tight_waiting.

(** A step schedules nothing. *)
Lemma tight_step outs k :
  ∃ o, demo_step tight_conf None DSchedule (outs, tight_at k) = Ok (outs ++ [o], tight_at (k + 1)) ∧
    so_num_scheduled_tokens o = [].
Proof.
  assert (H : match Sched.schedule tight_conf None demo_grammar elements (tight_at k) with
              | (Ok o, s) => s = tight_at (k + 1) ∧ so_num_scheduled_tokens o = []
              | _ => False
              end) by (vm_compute; by split).
  unfold demo_step. destruct (Sched.schedule _ _ _ _ _) as [[o|] s]; [|done]. destruct H as [-> Ho]. by exists o.
Qed.

(** The start with the memory for one request of maximal length is admitted, with four
    blocks; the request of that length then waits for ever: no step schedules any of its
    tokens, because the null block is one of the four. *)
Theorem tight_start_starves n :
  tight_blocks = 4 ∧
  scheduled (demo_run tight_conf None (DAdd 0 tight_request :: DSchedule :: replicate n DSchedule) ([], tight_start))
    = Ok (replicate (S n) []).
Proof.
  split; [vm_compute; reflexivity|].
  assert (Hrest : ∀ outs k, (so_num_scheduled_tokens <$> outs) = replicate (length outs) [] →
    scheduled (demo_run tight_conf None (replicate n DSchedule) (outs, tight_at k)) = Ok (replicate (length outs + n) [])).
  { induction n as [|n IH]; intros outs k Houts; cbn [replicate demo_run].
    - simpl. by rewrite Houts, Nat.add_0_r.
    - destruct (tight_step outs k) as (o & -> & Ho). cbn [mbind res_bind]. rewrite IH.
      + f_equal. f_equal. rewrite length_app. simpl. lia.
      + rewrite fmap_app, Houts, length_app, replicate_add. simpl. by rewrite Ho. }
  assert (Hfirst : match demo_run tight_conf None [DAdd 0 tight_request; DSchedule] ([], tight_start) with
                   | Ok ([o], s) => s = tight_at 1 ∧ so_num_scheduled_tokens o = []
                   | _ => False
                   end) by (vm_compute; by split).
  change (DAdd 0 tight_request :: DSchedule :: replicate n DSchedule) with
    ([DAdd 0 tight_request; DSchedule] ++ replicate n DSchedule).
  assert (Happ : ∀ ops1 ops2 st, demo_run tight_conf None (ops1 ++ ops2) st =
    (st' ← demo_run tight_conf None ops1 st; demo_run tight_conf None ops2 st')).
  { induction ops1 as [|op ops1 IH1]; intros ops2 st; [done|]. cbn [app demo_run]. destruct (demo_step _ _ op st); [|done].
    cbn [mbind res_bind]. apply IH1. }
  rewrite Happ. destruct (demo_run _ _ _ _) as [[[|o [|]] s]|]; try done. destruct Hfirst as [-> Ho].
  cbn [mbind res_bind]. rewrite (Hrest [o]); [done|]. cbn. by rewrite Ho.
Qed.

(** Two layers of full attention whose values have different sizes *)
Definition narrow_layer : LayerSpec := tight_layer.
Definition wide_layer : LayerSpec :=
  new_attention FullAttentionSpec 4 1 8 "bfloat16" QUANT_NONE None (Some 24) None None 0 None None None 1 None.

(** [FullAttentionSpec.merge] compares the fields of [AttentionSpec] only.  The two layers
    have one specification, that of the first: the tensor of the second has pages of half
    the size that the layer needs. *)
Theorem merge_forgets_head_size_v :
  Layer.merge TwoStages.dtype_size [narrow_layer; wide_layer] = Ok narrow_layer ∧
  Layer.page_size_bytes TwoStages.dtype_size wide_layer = Ok 256 ∧
  match Config.get_kv_cache_configs TwoStages.dtype_size (TwoStages.config 16 16)
          [[("narrow"%string, narrow_layer); ("wide"%string, wide_layer)]] [2048] with
  | Ok (_, [cfg]) => lc_num_blocks cfg = 8 ∧
      lc_kv_cache_tensors cfg = [mkTensor (128 * 8) ["narrow"%string]; mkTensor (128 * 8) ["wide"%string]]
  | _ => False
  end.
Proof. split_and!; vm_compute; by repeat split. Qed.
