(* ===== verification/PyFloat.v ===== *)
(** * Python's numbers

    Integers and floating-point numbers (IEEE 754 binary64, by the Standard Library's
    specification [SpecFloat]) in the operations that the eviction policies use, with the
    facts about rounding that bound their results. *)
From S2P Require Import Prelude.
From Stdlib Require Import Floats.SpecFloat.

(** ** Numbers *)
Inductive num := NInt (z : Z) | NFloat (f : spec_float).

(** The conversion of an [int]; exact below [2^53] *)
Definition float_of_Z (z : Z) : spec_float := binary_normalize 53 1024 z 0 false.
Definition num_float (x : num) : spec_float := match x with NInt z => float_of_Z z | NFloat f => f end.
Definition num_add (x y : num) : num :=
  match x, y with
  | NInt a, NInt b => NInt (a + b)
  | _, _ => NFloat (SFadd 53 1024 (num_float x) (num_float y))
  end.
Definition num_sub (x y : num) : num :=
  match x, y with
  | NInt a, NInt b => NInt (a - b)
  | _, _ => NFloat (SFsub 53 1024 (num_float x) (num_float y))
  end.
Definition num_ltb (x y : num) : bool :=
  match x, y with
  | NInt a, NInt b => a <? b
  | _, _ => SFltb (num_float x) (num_float y)
  end.
(** [max(x, y)] and [min(x, y)] give the first of equal arguments. *)
Definition num_max (x y : num) : num := if num_ltb x y then y else x.
Definition num_min (x y : num) : num := if num_ltb y x then y else x.
(** [a / b] of integers *)
Definition true_div (a b : Z) : res num :=
  if b =? 0 then Raise ZeroDivisionError else Ok (NFloat (SFdiv 53 1024 (float_of_Z a) (float_of_Z b))).
(** [int(x)] *)
Definition num_int (x : num) : res Z :=
  match x with
  | NInt z => Ok z
  | NFloat (S754_zero _) => Ok 0
  | NFloat (S754_finite s m e) =>
      let a := if 0 <=? e then Zpos m * 2 ^ e else Zpos m / 2 ^ (- e) in Ok (if s then - a else a)
  | NFloat (S754_infinity _) => Raise OverflowError
  | NFloat S754_nan => Raise ValueError
  end.

(** ** Digits and shifts *)
Lemma digits_pos p : 2 ^ (Zpos (digits2_pos p) - 1) ≤ Zpos p < 2 ^ Zpos (digits2_pos p).
Proof.
  induction p as [p IH|p IH|]; cbn [digits2_pos]; [| |done];
    replace (Z.pos (Pos.succ (digits2_pos p)) - 1) with (Z.pos (digits2_pos p)) by lia;
    rewrite Pos2Z.inj_succ, Z.pow_succ_r by lia;
    (replace (2 ^ Z.pos (digits2_pos p)) with (2 * 2 ^ (Z.pos (digits2_pos p) - 1)) in * by
      (rewrite <- Z.pow_succ_r by lia; f_equal; lia)); lia.
Qed.

Lemma digits_le p n : 0 ≤ n → Zpos p < 2 ^ n → Zpos (digits2_pos p) ≤ n.
Proof.
  intros Hn H. destruct (digits_pos p) as [Hp _]. destruct (Z.le_gt_cases (Zpos (digits2_pos p)) n); [done|].
  assert (2 ^ n ≤ 2 ^ (Zpos (digits2_pos p) - 1)) by (apply Z.pow_le_mono_r; lia). lia.
Qed.

Lemma shr_1_m r : 0 ≤ shr_m r → shr_m (shr_1 r) = shr_m r / 2.
Proof.
  destruct r as [[|p|p] a b]; simpl; intros H; [done| |lia]. destruct p as [p|p|]; simpl; [| |done].
  - replace (Z.pos p~1) with (1 + Z.pos p * 2) by lia. by rewrite Z.div_add.
  - replace (Z.pos p~0) with (Z.pos p * 2) by lia. by rewrite Z.div_mul.
Qed.

Lemma iter_shr_m p r : 0 ≤ shr_m r → shr_m (iter_pos shr_1 p r) = shr_m r / 2 ^ Zpos p.
Proof.
  revert r. induction p as [p IH|p IH|]; intros r Hr; cbn [iter_pos].
  - assert (H1 : 0 ≤ shr_m (shr_1 r)) by (rewrite shr_1_m by done; apply Z.div_pos; [done|lia]).
    assert (H2 : 0 ≤ shr_m (iter_pos shr_1 p (shr_1 r))) by (rewrite IH by done; apply Z.div_pos; [done|lia]).
    rewrite IH, IH, shr_1_m, !Z.div_div by (try done; lia). f_equal.
    replace (Z.pos p~1) with (1 + (Z.pos p + Z.pos p)) by lia. rewrite !Z.pow_add_r by lia. lia.
  - assert (H2 : 0 ≤ shr_m (iter_pos shr_1 p r)) by (rewrite IH by done; apply Z.div_pos; [done|lia]).
    rewrite IH, IH, Z.div_div by (try done; lia). f_equal.
    replace (Z.pos p~0) with (Z.pos p + Z.pos p) by lia. by rewrite Z.pow_add_r.
  - by rewrite shr_1_m.
Qed.

Abbreviation fexp64 := (fexp 53 1024).
Lemma fexp64_eq e : fexp64 e = Z.max (e - 53) (-1074).
Proof. done. Qed.

(** A shift to the exponent of the format *)
Lemma shr_fexp_spec m e l : 0 ≤ m →
  let n := Z.max 0 (fexp64 (Zdigits2 m + e) - e) in
  let '(r, e') := shr_fexp 53 1024 m e l in e' = e + n ∧ shr_m r = m / 2 ^ n.
Proof.
  intros Hm n. unfold shr_fexp, shr. fold (fexp64 (Zdigits2 m + e)).
  assert (Hl : shr_m (shr_record_of_loc m l) = m) by (by destruct l as [|[]]).
  subst n. destruct (fexp64 (Zdigits2 m + e) - e) as [|p|p] eqn:E.
  - rewrite Hl, Z.max_id, Z.div_1_r. split; [lia|done].
  - rewrite iter_shr_m, Hl, Z.max_r by (try rewrite Hl; lia). done.
  - rewrite Hl, Z.max_l, Z.div_1_r by lia. split; [lia|done].
Qed.

Lemma shr_fexp_id m e : fexp64 (Zdigits2 m + e) ≤ e →
  shr_fexp 53 1024 m e loc_Exact = (Build_shr_record m false false, e).
Proof.
  intros H. unfold shr_fexp, shr. fold (fexp64 (Zdigits2 m + e)). by destruct (fexp64 (Zdigits2 m + e) - e) eqn:E; [|lia|].
Qed.

(** ** Rounding *)

(** Numbers of a sign, zeros and infinities included: the results that a sum of such numbers
    or a quotient of them may have *)
Definition signed (neg : bool) (f : spec_float) : Prop :=
  match f with
  | S754_zero _ => True
  | S754_infinity s => s = neg
  | S754_finite s m _ => s = neg ∧ Zpos m < 2 ^ 53
  | S754_nan => False
  end.
Abbreviation nonneg := (signed false).

Lemma round_even_bounds m l : m ≤ round_nearest_even m l ≤ m + 1.
Proof. destruct l as [|[]]; simpl; [lia|destruct (Z.even m); lia|lia|lia]. Qed.

Lemma digits_Z m n : 0 ≤ n → 0 ≤ m < 2 ^ n → Zdigits2 m ≤ n.
Proof. intros Hn Hm. destruct m as [|p|p]; simpl; [lia| |lia]. apply digits_le; lia. Qed.

Lemma lt_pow_digits m : 0 ≤ m → m < 2 ^ Zdigits2 m.
Proof. destruct m as [|p|p]; simpl; [done| |lia]. intros _. apply digits_pos. Qed.

(** A shift to the format leaves at most 53 digits. *)
Lemma shr_53 m e : 0 ≤ m → m / 2 ^ Z.max 0 (fexp64 (Zdigits2 m + e) - e) < 2 ^ 53.
Proof.
  intros Hm. apply Z.div_lt_upper_bound; [lia|]. rewrite <- Z.pow_add_r by lia.
  eapply Z.lt_le_trans; [by apply lt_pow_digits|]. apply Z.pow_le_mono_r; [lia|]. rewrite fexp64_eq. lia.
Qed.

Lemma round_aux_signed s m e l : 0 ≤ m → signed s (binary_round_aux 53 1024 s m e l).
Proof.
  intros Hm. unfold binary_round_aux. pose proof (shr_fexp_spec m e l Hm) as H1.
  destruct (shr_fexp 53 1024 m e l) as [r e1]. destruct H1 as [_ H1].
  set (mr := round_nearest_even (shr_m r) (loc_of_shr_record r)).
  assert (Hr : 0 ≤ mr). { pose proof (round_even_bounds (shr_m r) (loc_of_shr_record r)) as Hb. fold mr in Hb.
    assert (0 ≤ shr_m r) by (rewrite H1; apply Z.div_pos; lia). lia. }
  pose proof (shr_fexp_spec mr e1 loc_Exact Hr) as H2. pose proof (shr_53 mr e1 Hr) as H3.
  destruct (shr_fexp 53 1024 mr e1 loc_Exact) as [r2 e2]. destruct H2 as [_ H2]. rewrite <- H2 in H3.
  assert (0 ≤ shr_m r2) by (rewrite H2; apply Z.div_pos; lia).
  destruct (shr_m r2) as [|p|p]; [done| |lia]. by destruct (e2 <=? 1024 - 53).
Qed.

(** At most [mc * 2 ^ ec], where this is a normal number *)
Definition below (mc ec : Z) (f : spec_float) : Prop :=
  match f with
  | S754_zero _ => True
  | S754_finite s m e => s = false ∧ Zpos m < 2 ^ 53 ∧ (e < ec ∨ e = ec ∧ Zpos m ≤ mc)
  | _ => False
  end.

Lemma shl_align_spec p e e' :
  let '(q, e1) := shl_align p e e' in e1 = Z.min e e' ∧ Zpos q = Zpos p * 2 ^ (e - e1).
Proof.
  unfold shl_align. destruct (e' - e) as [|d|d] eqn:E.
  - split; [lia|]. by rewrite Z.sub_diag, Z.mul_1_r.
  - split; [lia|]. by rewrite Z.sub_diag, Z.mul_1_r.
  - split; [lia|]. replace (e - e') with (Zpos d) by lia.
    rewrite <- (Pos2Z.inj_pow 2 d), <- Pos2Z.inj_mul. f_equal. rewrite Pos.mul_comm. clear E. induction d as [|d IH] using Pos.peano_ind; [done|].
    by rewrite Pos.iter_succ, Pos.pow_succ_r, IH, <- Pos.mul_assoc.
Qed.

Lemma digits_shift p d : 0 ≤ d → ∀ q, Zpos q = Zpos p * 2 ^ d → Zpos (digits2_pos q) = Zpos (digits2_pos p) + d.
Proof.
  intros Hd q Hq. destruct (digits_pos p) as [H1 H2], (digits_pos q) as [H3 H4].
  assert (2 ^ (Zpos (digits2_pos p) - 1 + d) < 2 ^ Zpos (digits2_pos q)) by (rewrite Z.pow_add_r by lia; nia).
  assert (2 ^ (Zpos (digits2_pos q) - 1) < 2 ^ (Zpos (digits2_pos p) + d)) by (rewrite Z.pow_add_r by lia; nia).
  apply Z.pow_lt_mono_r_iff in H; [|lia..]. apply Z.pow_lt_mono_r_iff in H0; lia.
Qed.

Section below.
Context (mc ec : Z) (Hmc : 2 ^ 52 ≤ mc < 2 ^ 53) (Hec : -1074 ≤ ec ≤ 971).

Lemma round_aux_below m e L :
  0 < m → e ≤ fexp64 (Zdigits2 m + e) → L ≤ e → L ≤ ec → m * 2 ^ (e - L) < mc * 2 ^ (ec - L) →
  below mc ec (binary_round_aux 53 1024 false m e loc_Exact).
Proof.
  intros Hm He HL1 HL2 Hlt. set (E := fexp64 (Zdigits2 m + e)) in *.
  assert (Hd : Zdigits2 m + e ≤ 53 + ec).
  { destruct m as [|p|p]; [lia| |lia]. simpl. destruct (digits_pos p) as [Hp _].
    assert (2 ^ (Z.pos (digits2_pos p) - 1 + (e - L)) < 2 ^ (53 + (ec - L))).
    { rewrite !Z.pow_add_r by lia. eapply Z.le_lt_trans; [|eapply Z.lt_le_trans; [exact Hlt|]]; [nia|].
      apply Z.mul_le_mono_nonneg_r; lia. }
    apply Z.pow_lt_mono_r_iff in H; lia. }
  assert (HE : -1074 ≤ E ≤ ec) by (unfold E; rewrite fexp64_eq; lia).
  assert (Hlt' : m < mc * 2 ^ (ec - e)).
  { replace (ec - L) with ((ec - e) + (e - L)) in Hlt by lia. rewrite Z.pow_add_r in Hlt by lia.
    assert (0 < 2 ^ (e - L)) by lia. nia. }
  unfold binary_round_aux. pose proof (shr_fexp_spec m e loc_Exact ltac:(lia)) as H1. pose proof (shr_53 m e ltac:(lia)) as H53.
  destruct (shr_fexp 53 1024 m e loc_Exact) as [r e1]. fold E in H1, H53. rewrite Z.max_r in H1, H53 by lia.
  destruct H1 as [-> H1]. replace (e + (E - e)) with E by lia. rewrite <- H1 in H53.
  assert (Hmr : E = ec → shr_m r < mc).
  { intros ->. rewrite H1. apply Z.div_lt_upper_bound; [lia|]. lia. }
  set (mr := round_nearest_even (shr_m r) (loc_of_shr_record r)).
  pose proof (round_even_bounds (shr_m r) (loc_of_shr_record r)) as Hb. fold mr in Hb.
  assert (H0 : 0 ≤ shr_m r) by (rewrite H1; apply Z.div_pos; lia).
  pose proof (shr_fexp_spec mr E loc_Exact ltac:(lia)) as H2.
  destruct (shr_fexp 53 1024 mr E loc_Exact) as [r2 e2]. rewrite fexp64_eq in H2.
  destruct (Z.eq_dec mr (2 ^ 53)) as [Eq|Hne].
  - rewrite Eq in H2. change (Zdigits2 (2 ^ 53)) with 54 in H2. replace (Z.max 0 _) with 1 in H2 by lia.
    destruct H2 as [-> H2]. change (2 ^ 53 / 2 ^ 1) with (2 ^ 52) in H2. rewrite H2. cbn [below].
    destruct (Z.leb_spec (E + 1) (1024 - 53)); [|lia]. simpl. split_and!; lia.
  - assert (Zdigits2 mr ≤ 53) by (apply digits_Z; lia). replace (Z.max 0 _) with 0 in H2 by lia.
    destruct H2 as [-> H2]. rewrite Z.div_1_r in H2. rewrite H2, Z.add_0_r.
    destruct mr as [|p|p] eqn:Emr; [done| |lia]. destruct (Z.leb_spec E (1024 - 53)); [|lia]. simpl. split_and!; lia.
Qed.

Lemma round_below p e L :
  L ≤ e → L ≤ ec → Zpos p * 2 ^ (e - L) < mc * 2 ^ (ec - L) → below mc ec (binary_round 53 1024 false p e).
Proof.
  intros HL1 HL2 Hlt. unfold binary_round.
  pose proof (shl_align_spec p e (fexp64 (Zpos (digits2_pos p) + e))) as H. fold (fexp64 (Zpos (digits2_pos p) + e)).
  destruct (shl_align _ _ _) as [q e1]. destruct H as [-> Hq].
  set (F := fexp64 (Zpos (digits2_pos p) + e)) in *. set (e1 := Z.min e F) in *.
  assert (Hdig := digits_shift p (e - e1) ltac:(lia) q Hq).
  apply (round_aux_below (Zpos q) e1 (Z.min L e1)); [lia| |lia|lia|].
  - simpl. rewrite Hdig. replace (Zpos (digits2_pos p) + (e - e1) + e1) with (Zpos (digits2_pos p) + e) by lia. fold F. lia.
  - rewrite Hq. replace (ec - Z.min L e1) with (ec - L + (L - Z.min L e1)) by lia. rewrite <- Z.mul_assoc, <- Z.pow_add_r by lia.
    replace (e - e1 + (e1 - Z.min L e1)) with (e - L + (L - Z.min L e1)) by lia. rewrite !Z.pow_add_r by lia.
    assert (0 < 2 ^ (L - Z.min L e1)) by lia. nia.
Qed.
End below.

(** ** The operations *)
Lemma round_signed s p e : signed s (binary_round 53 1024 s p e).
Proof.
  unfold binary_round. destruct (shl_align _ _ _) as [q e1]. by apply round_aux_signed.
Qed.

(** An integer below [2^53] is a normal number. *)
Lemma float_of_pos z : 0 < z < 2 ^ 53 → ∃ m e,
  float_of_Z z = S754_finite false m e ∧ 2 ^ 52 ≤ Zpos m < 2 ^ 53 ∧ -52 ≤ e ≤ 0 ∧ Zpos m = z * 2 ^ (- e).
Proof.
  destruct z as [|p|p]; [lia| |lia]. intros [_ Hp]. set (d := Zpos (digits2_pos p)).
  assert (Hd : 1 ≤ d ≤ 53) by (split; [lia|apply digits_le; lia]).
  unfold float_of_Z, binary_normalize, binary_round. fold d. rewrite Z.add_0_r.
  pose proof (shl_align_spec p 0 (fexp64 d)) as H. fold (fexp64 d). destruct (shl_align _ _ _) as [q e1].
  rewrite fexp64_eq in H. destruct H as [-> Hq]. replace (Z.min 0 _) with (d - 53) in * by lia.
  replace (0 - (d - 53)) with (53 - d) in Hq by lia.
  assert (Hdq : Zpos (digits2_pos q) = 53) by (rewrite (digits_shift p (53 - d)) by (try done; lia); fold d; lia).
  exists q, (d - 53). destruct (digits_pos q) as [H1 H2]. rewrite Hdq in H1, H2. split_and!; [|lia|lia|lia|lia|].
  - unfold binary_round_aux. rewrite shr_fexp_id by (simpl Zdigits2; rewrite Hdq, fexp64_eq; lia). simpl shr_m.
    simpl loc_of_shr_record. simpl round_nearest_even.
    rewrite shr_fexp_id by (simpl Zdigits2; rewrite Hdq, fexp64_eq; lia). simpl shr_m. cbv beta iota.
    by destruct (Z.leb_spec (d - 53) (1024 - 53)); [|lia].
  - rewrite Hq. f_equal. f_equal. lia.
Qed.

(** What the target size of ARC ranges over: numbers between 0 and [cap] *)
Definition float_below (cap f : spec_float) : Prop :=
  match cap with
  | S754_finite false mc ec => below (Zpos mc) ec f
  | S754_zero _ => ∃ s, f = S754_zero s
  | _ => False
  end.
Definition num_below (cap : Z) (x : num) : Prop :=
  match x with NInt z => 0 ≤ z ≤ cap | NFloat f => float_below (float_of_Z cap) f end.

(** A positive increment *)
Definition positive_num (x : num) : Prop :=
  match x with
  | NInt z => z = 1
  | NFloat (S754_finite s m _) => s = false ∧ Zpos m < 2 ^ 53
  | NFloat (S754_infinity s) => s = false
  | _ => False
  end.

Section bounded.
Context (cap : Z) (Hcap : 0 ≤ cap < 2 ^ 53).

Lemma cap_cases : (cap = 0 ∧ float_of_Z cap = S754_zero false) ∨
  ∃ m e, float_of_Z cap = S754_finite false m e ∧ 2 ^ 52 ≤ Zpos m < 2 ^ 53 ∧ -52 ≤ e ≤ 0 ∧ Zpos m = cap * 2 ^ (- e).
Proof. destruct (Z.eq_dec cap 0) as [->|]; [by left|]. right. apply float_of_pos. lia. Qed.

(** The conversion of an integer in the range *)
Lemma float_of_below z : 0 ≤ z ≤ cap → float_below (float_of_Z cap) (float_of_Z z).
Proof.
  intros Hz. destruct cap_cases as [[-> E]|(m & e & E & Hm & He & Hme)].
  - replace z with 0 by lia. by exists false.
  - rewrite E. simpl. destruct (Z.eq_dec z cap) as [->|]; [rewrite E; simpl; split_and!; lia|].
    destruct z as [|p|p]; [done| |lia]. apply (round_below (Zpos m) e Hm ltac:(lia) p 0 e); [lia|lia|].
    rewrite Z.sub_diag, Z.mul_1_r, Hme. replace (0 - e) with (- e) by lia. apply Z.mul_lt_mono_pos_r; lia.
Qed.

Lemma num_float_below x : num_below cap x → float_below (float_of_Z cap) (num_float x).
Proof. destruct x as [z|f]; [apply float_of_below|done]. Qed.

Lemma num_int_below x : num_below cap x → ∃ z, num_int x = Ok z ∧ 0 ≤ z ≤ cap.
Proof.
  destruct x as [z|f]; [intros H; by exists z|]. intros H. simpl in H.
  destruct cap_cases as [[-> E]|(mc & ec & E & Hmc & Hec & Hme)]; rewrite E in H; simpl in H.
  - destruct H as [s ->]. by exists 0.
  - destruct f as [s|s| |s m e]; try done; [exists 0; simpl; split; [done|lia]|].
    destruct H as (-> & Hm & Hle). eexists. split; [done|]. simpl. destruct (Z.leb_spec 0 e).
    + assert (e = 0 ∧ ec = 0) as [-> ->] by lia. simpl in Hme. lia.
    + split; [apply Z.div_pos; lia|]. apply Z.div_le_upper_bound; [lia|].
      destruct Hle as [Hlt|[-> Hle]]; [|lia]. replace (- e) with (- ec + (ec - e)) by lia. rewrite Z.pow_add_r by lia.
      assert (2 ^ 1 ≤ 2 ^ (ec - e)) by (apply Z.pow_le_mono_r; lia). nia.
Qed.

Lemma positive_float d : positive_num d →
  num_float d = S754_infinity false ∨ ∃ m e, num_float d = S754_finite false m e ∧ Zpos m < 2 ^ 53.
Proof.
  destruct d as [z|[s|s| |s m e]]; simpl; try done.
  - intros ->. right. exists 4503599627370496%positive, (-52). split; [by vm_compute|lia].
  - intros ->. by left.
  - intros [-> H]. right. by exists m, e.
Qed.

Lemma below_nonneg f : float_below (float_of_Z cap) f → (∃ s, f = S754_zero s) ∨ ∃ m e, f = S754_finite false m e ∧ Zpos m < 2 ^ 53.
Proof.
  destruct cap_cases as [[-> E]|(mc & ec & E & _)]; rewrite E; simpl; [by left|].
  destruct f as [s|s| |s m e]; simpl; try done; [by left; exists s|]. intros (-> & H & _). right. by exists m, e.
Qed.

Lemma min_cap_below f : nonneg f → num_below cap (num_min (NFloat f) (NInt cap)).
Proof.
  intros Hf. unfold num_min, num_ltb, SFltb. simpl num_float. destruct cap_cases as [[E0 E]|(mc & ec & E & Hmc & Hec & Hme)].
  - rewrite E. destruct f as [s|s| |s m e]; simpl in *; try done.
    + rewrite E. by exists s.
    + subst s. simpl. lia.
    + destruct Hf as [-> _]. simpl. lia.
  - rewrite E. destruct f as [s|s| |s m e]; simpl in *; try done.
    + by rewrite E.
    + subst s. simpl. lia.
    + destruct Hf as [-> Hm]. fold (Pos.compare mc m). destruct (Z.compare_spec ec e) as [->|Hlt|Hgt]; simpl; [|lia|].
      * destruct (Pos.compare_spec mc m); simpl; rewrite ?E; simpl; split_and?; lia.
      * rewrite E. simpl. split_and!; try lia.
Qed.

Lemma add_below x d : num_below cap x → positive_num d → num_below cap (num_min (num_add x d) (NInt cap)).
Proof.
  intros Hx Hd. assert (Hf : nonneg (SFadd 53 1024 (num_float x) (num_float d))).
  { destruct (positive_float d Hd) as [->|(md & ed & -> & Hmd)],
      (below_nonneg _ (num_float_below x Hx)) as [[s ->]|(mx & ex & -> & Hmx)]; simpl; try done.
    - apply round_signed. }
  destruct x as [z|f], d as [z'|f']; try (by apply min_cap_below).
  simpl in *. unfold num_min. simpl. destruct (Z.ltb_spec cap (z + z')); simpl; lia.
Qed.

(** A difference of positive numbers is negative, zero, or below the first one. *)
Lemma normalize_below mx ex my ey : float_below (float_of_Z cap) (S754_finite false mx ex) →
  SFltb (SFsub 53 1024 (S754_finite false mx ex) (S754_finite false my ey)) (S754_zero false) = true ∨
  float_below (float_of_Z cap) (SFsub 53 1024 (S754_finite false mx ex) (S754_finite false my ey)).
Proof.
  destruct cap_cases as [[E0 E]|(mc & ec & E & Hmc & Hec & Hme)]; rewrite E; [by intros [s ?]|].
  intros (_ & Hmx & Hle). cbn [SFsub]. set (ez := Z.min ex ey).
  pose proof (shl_align_spec mx ex ez) as Hx. pose proof (shl_align_spec my ey ez) as Hy.
  destruct (shl_align mx ex ez) as [qx e1], (shl_align my ey ez) as [qy e2]. destruct Hx as [-> Hx], Hy as [-> Hy].
  replace (Z.min ex ez) with ez in Hx by lia. replace (Z.min ey ez) with ez in Hy by lia. cbn [fst cond_Zopp].
  destruct (Zpos qx - Zpos qy) as [|p|p] eqn:Ev; [by right| |].
  - right. cbn [binary_normalize float_below]. apply (round_below (Zpos mc) ec ltac:(lia) ltac:(lia) p ez (Z.min ez ec)); [lia|lia|].
    apply Z.lt_le_trans with (Zpos qx * 2 ^ (ez - Z.min ez ec)); [apply Z.mul_lt_mono_pos_r; lia|].
    rewrite Hx, <- Z.mul_assoc, <- Z.pow_add_r by lia. replace (ex - ez + (ez - Z.min ez ec)) with (ex - Z.min ez ec) by lia.
    destruct Hle as [Hlt|[-> Hle]]; [|by apply Z.mul_le_mono_nonneg_r; lia].
    replace (ec - Z.min ez ec) with (ec - ex + (ex - Z.min ez ec)) by lia. rewrite Z.pow_add_r, Z.mul_assoc by lia.
    apply Z.mul_le_mono_nonneg_r; [lia|]. assert (2 ^ 1 ≤ 2 ^ (ec - ex)) by (apply Z.pow_le_mono_r; lia). nia.
  - cbn [binary_normalize]. pose proof (round_signed true p ez) as Hs. destruct (binary_round _ _ _ _ _) as [s|s| |s m e]; try done.
    + by right.
    + simpl in Hs. subst s. by left.
    + destruct Hs as [-> _]. by left.
Qed.

Lemma zero_below s : float_below (float_of_Z cap) (S754_zero s).
Proof. destruct cap_cases as [[_ E]|(mc & ec & E & _)]; rewrite E; [by exists s|done]. Qed.

Lemma sub_below x d : num_below cap x → positive_num d → num_below cap (num_max (num_sub x d) (NInt 0)).
Proof.
  intros Hx Hd.
  assert (Hf : SFltb (SFsub 53 1024 (num_float x) (num_float d)) (S754_zero false) = true ∨
    float_below (float_of_Z cap) (SFsub 53 1024 (num_float x) (num_float d))).
  { pose proof (num_float_below x Hx) as Hfx. destruct (positive_float d Hd) as [->|(md & ed & -> & Hmd)],
      (below_nonneg _ Hfx) as [[s Es]|(mx & ex & Ex & Hmx)]; rewrite ?Es, ?Ex in *; try (by left).
    by apply normalize_below. }
  assert (Hsub : ∀ f, num_sub x d = NFloat f → num_below cap (num_max (num_sub x d) (NInt 0))).
  { intros f Ef. unfold num_max. assert (f = SFsub 53 1024 (num_float x) (num_float d)) as ->
      by (destruct x, d; simpl in *; congruence).
    rewrite Ef. unfold num_ltb. simpl num_float. destruct (SFltb _ _) eqn:El; [simpl; lia|]. by destruct Hf as [Hf|Hf]; [congruence|]. }
  destruct x as [z|f], d as [z'|f']; try (by eapply Hsub). unfold num_max. simpl in *.
  destruct (Z.ltb_spec (z - z') 0); simpl; lia.
Qed.
End bounded.

(** [max(1, a / b)] of list lengths is a positive increment. *)
Lemma positive_ratio a b : 0 ≤ a < 2 ^ 53 → 0 < b < 2 ^ 53 →
  ∃ r, true_div a b = Ok r ∧ positive_num (num_max (NInt 1) r).
Proof.
  intros Ha Hb. unfold true_div. destruct (Z.eqb_spec b 0); [lia|]. eexists. split; [done|].
  destruct (float_of_pos b Hb) as (mb & eb & -> & Hmb & _).
  assert (Hf : nonneg (SFdiv 53 1024 (float_of_Z a) (S754_finite false mb eb))).
  { destruct (Z.eq_dec a 0) as [->|]; [done|]. destruct (float_of_pos a) as (ma & ea & -> & Hma & _); [lia|].
    cbn [SFdiv]. unfold SFdiv_core_binary. cbv zeta. destruct (Z.div_eucl _ _) as [q r] eqn:Eq.
    apply round_aux_signed. 
    match type of Eq with Z.div_eucl ?x ?y = _ => assert (q = x / y) as -> by (unfold Z.div; by rewrite Eq) end.
    apply Z.div_pos; [|lia]. case_match; [lia|apply Z.shiftl_nonneg; lia|lia]. }
  unfold num_max, num_ltb. simpl num_float. destruct (SFltb _ _) eqn:El; [|done].
  destruct (SFdiv _ _ _ _) as [s|s| |s m e]; try done.
Qed.
