(* ===== verification/OffloadPolicy.v ===== *)
(** * Eviction policies of the offloading cache

    [vllm/v1/kv_offload/cpu/policies]: the class [CachePolicy] with its contract, and its
    two implementations, LRU and ARC.  An [OrderedDict] is an association list in its
    order, oldest first.  A [BlockStatus] is a mutable object, but only one dictionary
    refers to it: what changes an object writes its entry. *)
From S2P Require Import Prelude FreeQueue Request BlockHash BlockPool PyFloat.
From Stdlib Require Import Floats.SpecFloat.

(** ** Data *)
Abbreviation OffloadKey := bytes.

(** [ctypes.c_int32] *)
Definition c_int32 (z : Z) : Z := (z + 2 ^ 31) mod 2 ^ 32 - 2 ^ 31.

Record BlockStatus := mkBlock { ref_cnt : Z; block_id : Z }.
Definition new_block (id : Z) : BlockStatus := mkBlock (-1) id.
Definition is_ready (b : BlockStatus) : bool := 0 <=? ref_cnt b.
Definition set_ref_cnt (v : Z) (b : BlockStatus) : BlockStatus := mkBlock (c_int32 v) (block_id b).

(** [move_to_end] and [popitem(last=False)] of an [OrderedDict] *)
Section ordered_dict.
Context {K V : Type} `{EqDecision K}.
Definition od_move_to_end (k : K) (d : list (K * V)) : res (list (K * V)) :=
  match dict_get k d with
  | Some v => Ok (dict_del k d ++ [(k, v)])
  | None => Raise KeyError
  end.
Definition od_del (k : K) (d : list (K * V)) : res (list (K * V)) :=
  match dict_get k d with Some _ => Ok (dict_del k d) | None => Raise KeyError end.
Definition od_popitem_first (d : list (K * V)) : res (list (K * V)) :=
  match d with _ :: d' => Ok d' | [] => Raise KeyError end.
End ordered_dict.

(** A map without some keys *)
Definition delete_keys {V} (ks : list OffloadKey) (m : gmap OffloadKey V) : gmap OffloadKey V := foldr delete m ks.

(** ** The interface *)

(** [CachePolicy]; [policy_write] is the assignment to the object that [policy_get]
    finds. *)
Class CachePolicy (P : Type) := {
  policy_init : Z → P;
  policy_get : OffloadKey → P → option BlockStatus;
  policy_write : OffloadKey → BlockStatus → P → P;
  policy_insert : OffloadKey → BlockStatus → M P ();
  policy_remove : OffloadKey → M P ();
  policy_touch : list OffloadKey → M P ();
  policy_evict : Z → gset OffloadKey → M P (option (list (OffloadKey * BlockStatus)));
  policy_clear : P → P;
}.

(** What the manager relies on: a policy holds a map, and evicts exactly as many blocks
    as asked, none of which is in use or protected; or it changes nothing. *)
Class PolicyLaws (P : Type) `{CachePolicy P} := {
  policy_wf : P → Prop;
  contents : P → gmap OffloadKey BlockStatus;
  policy_init_ok n : 0 ≤ n < 2 ^ 53 → policy_wf (policy_init n) ∧ contents (policy_init n) = ∅;
  policy_get_ok k p : policy_wf p → policy_get k p = contents p !! k;
  policy_write_ok k b p : policy_wf p → is_Some (contents p !! k) →
    policy_wf (policy_write k b p) ∧ contents (policy_write k b p) = <[k := b]> (contents p);
  policy_insert_ok k b p : policy_wf p → contents p !! k = None →
    wp (policy_insert k b) (λ _ p', policy_wf p' ∧ contents p' = <[k := b]> (contents p)) p;
  policy_remove_ok k p : policy_wf p → is_Some (contents p !! k) →
    wp (policy_remove k) (λ _ p', policy_wf p' ∧ contents p' = delete k (contents p)) p;
  policy_touch_ok ks p : policy_wf p →
    wp (policy_touch ks) (λ _ p', policy_wf p' ∧ contents p' = contents p) p;
  policy_evict_ok n prot p : policy_wf p → 0 < n →
    wp (policy_evict n prot) (λ o p', policy_wf p' ∧
      match o with
      | None => p' = p
      | Some l => NoDup l.*1 ∧ len l = n ∧
          (∀ k b, (k, b) ∈ l → contents p !! k = Some b ∧ ref_cnt b = 0 ∧ k ∉ prot) ∧
          contents p' = delete_keys l.*1 (contents p)
      end) p;
  policy_clear_ok p : policy_wf p → policy_wf (policy_clear p) ∧ contents (policy_clear p) = ∅;
}.

(** The test of a candidate for eviction *)
Definition evictable (protected : gset OffloadKey) (kb : OffloadKey * BlockStatus) : bool :=
  (ref_cnt kb.2 =? 0) && negb (bool_decide (kb.1 ∈ protected)).

(** ** LRU *)
Module LRU.
Record LRUCachePolicy := mkLRU { blocks : list (OffloadKey * BlockStatus) }.

Definition init (cache_capacity : Z) : LRUCachePolicy := mkLRU [].
Definition get (k : OffloadKey) (p : LRUCachePolicy) : option BlockStatus := dict_get k (blocks p).
Definition write (k : OffloadKey) (b : BlockStatus) (p : LRUCachePolicy) : LRUCachePolicy := mkLRU (dict_set k b (blocks p)).
Definition insert (k : OffloadKey) (b : BlockStatus) : M LRUCachePolicy () := modify (λ p, mkLRU (dict_set k b (blocks p))).
Definition remove (k : OffloadKey) : M LRUCachePolicy () :=
  p ← Prelude.get; d ← of_res (od_del k (blocks p)); modify (λ _, mkLRU d).

Definition touch_one (k : OffloadKey) : M LRUCachePolicy () :=
  p ← Prelude.get;
  match dict_get k (blocks p) with
  | Some _ => d ← of_res (od_move_to_end k (blocks p)); modify (λ _, mkLRU d)
  | None => mret tt
  end.
Definition touch (keys : list OffloadKey) : M LRUCachePolicy () := for_each (rev keys) touch_one.

(** The loop over the items, which ends when [n] candidates have been found *)
Fixpoint scan (n : Z) (protected : gset OffloadKey) (items candidates : list (OffloadKey * BlockStatus)) :=
  match items with
  | [] => candidates
  | kb :: items' =>
      if evictable protected kb
      then let candidates' := candidates ++ [kb] in
           if len candidates' =? n then candidates' else scan n protected items' candidates'
      else scan n protected items' candidates
  end.

Definition evict (n : Z) (protected : gset OffloadKey) : M LRUCachePolicy (option (list (OffloadKey * BlockStatus))) :=
  if n =? 0 then mret (Some [])
  else
    p ← Prelude.get;
    let candidates := scan n protected (blocks p) [] in
    if len candidates <? n then mret None
    else _ ← for_each candidates (λ kb, p ← Prelude.get; d ← of_res (od_del kb.1 (blocks p)); modify (λ _, mkLRU d));
         mret (Some candidates).

Definition clear (p : LRUCachePolicy) : LRUCachePolicy := mkLRU [].
End LRU.

#[global] Instance LRU_policy : CachePolicy LRU.LRUCachePolicy := {|
  policy_init := LRU.init; policy_get := LRU.get; policy_write := LRU.write; policy_insert := LRU.insert;
  policy_remove := LRU.remove; policy_touch := LRU.touch; policy_evict := LRU.evict; policy_clear := LRU.clear |}.

(** ** ARC *)

Module ARC.
Record ARCCachePolicy := mkARC {
  cache_capacity : Z;
  target_t1_size : num;
  t1 : list (OffloadKey * BlockStatus);
  t2 : list (OffloadKey * BlockStatus);
  b1 : list (OffloadKey * ());
  b2 : list (OffloadKey * ());
}.
Definition set_target (v : num) (p : ARCCachePolicy) := mkARC (cache_capacity p) v (t1 p) (t2 p) (b1 p) (b2 p).
Definition set_t1 v (p : ARCCachePolicy) := mkARC (cache_capacity p) (target_t1_size p) v (t2 p) (b1 p) (b2 p).
Definition set_t2 v (p : ARCCachePolicy) := mkARC (cache_capacity p) (target_t1_size p) (t1 p) v (b1 p) (b2 p).
Definition set_b1 v (p : ARCCachePolicy) := mkARC (cache_capacity p) (target_t1_size p) (t1 p) (t2 p) v (b2 p).
Definition set_b2 v (p : ARCCachePolicy) := mkARC (cache_capacity p) (target_t1_size p) (t1 p) (t2 p) (b1 p) v.

Definition init (capacity : Z) : ARCCachePolicy := mkARC capacity (NFloat (S754_zero false)) [] [] [] [].
(** A [BlockStatus] is always true. *)
Definition get (k : OffloadKey) (p : ARCCachePolicy) : option BlockStatus :=
  match dict_get k (t1 p) with Some b => Some b | None => dict_get k (t2 p) end.
Definition write (k : OffloadKey) (b : BlockStatus) (p : ARCCachePolicy) : ARCCachePolicy :=
  match dict_get k (t1 p) with
  | Some _ => set_t1 (dict_set k b (t1 p)) p
  | None => set_t2 (dict_set k b (t2 p)) p
  end.
Definition insert (k : OffloadKey) (b : BlockStatus) : M ARCCachePolicy () :=
  _ ← modify (λ p, set_t1 (dict_set k b (t1 p)) p);
  _ ← modify (λ p, set_b1 (dict_del k (b1 p)) p);
  modify (λ p, set_b2 (dict_del k (b2 p)) p).
Definition remove (k : OffloadKey) : M ARCCachePolicy () :=
  p ← Prelude.get;
  match dict_get k (t1 p) with
  | Some _ => modify (λ p, set_t1 (dict_del k (t1 p)) p)
  | None => modify (λ p, set_t2 (dict_del k (t2 p)) p)
  end.

Definition touch_one (k : OffloadKey) : M ARCCachePolicy () :=
  p ← Prelude.get;
  match dict_get k (t1 p), dict_get k (t2 p), dict_get k (b1 p), dict_get k (b2 p) with
  | Some block, _, _, _ =>
      _ ← modify (λ p, set_t1 (dict_del k (t1 p)) p);
      if negb (is_ready block)
      then modify (λ p, set_t1 (dict_set k block (t1 p)) p)
      else modify (λ p, set_t2 (dict_set k block (t2 p)) p)
  | None, Some _, _, _ => d ← of_res (od_move_to_end k (t2 p)); modify (set_t2 d)
  | None, None, Some _, _ =>
      ratio ← of_res (true_div (len (b2 p)) (len (b1 p)));
      let delta := num_max (NInt 1) ratio in
      _ ← modify (set_target (num_min (num_add (target_t1_size p) delta) (NInt (cache_capacity p))));
      d ← of_res (od_move_to_end k (b1 p)); modify (set_b1 d)
  | None, None, None, Some _ =>
      ratio ← of_res (true_div (len (b1 p)) (len (b2 p)));
      let delta := num_max (NInt 1) ratio in
      _ ← modify (set_target (num_max (num_sub (target_t1_size p) delta) (NInt 0)));
      d ← of_res (od_move_to_end k (b2 p)); modify (set_b2 d)
  | None, None, None, None => mret tt
  end.
Definition touch (keys : list OffloadKey) : M ARCCachePolicy () := for_each (rev keys) touch_one.

Definition clear (p : ARCCachePolicy) : ARCCachePolicy := mkARC (cache_capacity p) (NFloat (S754_zero false)) [] [] [] [].

(** The first candidate among the items of a dictionary *)
Definition first_evictable (protected selected : gset OffloadKey) (d : list (OffloadKey * BlockStatus)) :=
  snd <$> list_find (λ kb, evictable protected kb && negb (bool_decide (kb.1 ∈ selected)) = true) d.

(** The loop that selects the candidates; [true]: from T1 *)
Fixpoint select (n : nat) (protected : gset OffloadKey) (p : ARCCachePolicy)
    (candidates : list (OffloadKey * BlockStatus * bool)) (selected : gset OffloadKey) (virtual_t1_size : Z)
    : res (option (list (OffloadKey * BlockStatus * bool))) :=
  match n with
  | O => Ok (Some candidates)
  | S n =>
      target ← num_int (target_t1_size p);
      match (if target <=? virtual_t1_size then first_evictable protected selected (t1 p) else None) with
      | Some kb => select n protected p (candidates ++ [(kb, true)]) (selected ∪ {[kb.1]}) (virtual_t1_size - 1)
      | None =>
          match first_evictable protected selected (t2 p) with
          | Some kb => select n protected p (candidates ++ [(kb, false)]) (selected ∪ {[kb.1]}) virtual_t1_size
          | None => Ok None
          end
      end
  end.

Definition apply_one (c : OffloadKey * BlockStatus * bool) : M ARCCachePolicy () :=
  let '(k, _, from_t1) := c in
  p ← Prelude.get;
  if (from_t1 : bool)
  then d ← of_res (od_del k (t1 p)); _ ← modify (set_t1 d); modify (λ p, set_b1 (dict_set k tt (b1 p)) p)
  else d ← of_res (od_del k (t2 p)); _ ← modify (set_t2 d); modify (λ p, set_b2 (dict_set k tt (b2 p)) p).

(** [for _ in range(n): ghost.popitem(last=False)] *)
Fixpoint pop_first (n : nat) (ghost : list (OffloadKey * ())) : res (list (OffloadKey * ())) :=
  match n with
  | O => Ok ghost
  | S n => ghost' ← od_popitem_first ghost; pop_first n ghost'
  end.

Definition evict (n : Z) (protected : gset OffloadKey) : M ARCCachePolicy (option (list (OffloadKey * BlockStatus))) :=
  if n =? 0 then mret (Some [])
  else
    p ← Prelude.get;
    selection ← of_res (select (Z.to_nat n) protected p [] ∅ (len (t1 p)));
    match selection with
    | None => mret None
    | Some candidates =>
        _ ← for_each candidates apply_one;
        p ← Prelude.get;
        d ← of_res (pop_first (Z.to_nat (len (b1 p) - cache_capacity p)) (b1 p)); _ ← modify (set_b1 d);
        d ← of_res (pop_first (Z.to_nat (len (b2 p) - cache_capacity p)) (b2 p)); _ ← modify (set_b2 d);
        mret (Some candidates.*1)
    end.
End ARC.

#[global] Instance ARC_policy : CachePolicy ARC.ARCCachePolicy := {|
  policy_init := ARC.init; policy_get := ARC.get; policy_write := ARC.write; policy_insert := ARC.insert;
  policy_remove := ARC.remove; policy_touch := ARC.touch; policy_evict := ARC.evict; policy_clear := ARC.clear |}.

(** ** Dictionaries as maps *)
Section dict_maps.
Context {V : Type}.
Implicit Types (d : list (OffloadKey * V)) (k x : OffloadKey).
Abbreviation to_map d := (list_to_map d : gmap OffloadKey V).

Lemma dict_get_map k d : dict_get k d = to_map d !! k.
Proof.
  induction d as [|[k' v] d IH]; simpl; [done|]. case_decide as E.
  - subst. by rewrite lookup_insert_eq.
  - by rewrite lookup_insert_ne.
Qed.

Lemma dict_get_absent k d : dict_get k d = None ↔ k ∉ d.*1.
Proof. rewrite dict_get_map. symmetry. apply not_elem_of_list_to_map. Qed.

Lemma dict_get_Some_key k v d : dict_get k d = Some v → k ∈ d.*1.
Proof. intros H. destruct (decide (k ∈ d.*1)) as [|Hn]; [done|]. apply dict_get_absent in Hn. congruence. Qed.

Lemma dict_set_map k v d : to_map (dict_set k v d) = <[k := v]> (to_map d).
Proof.
  induction d as [|[k' v'] d IH]; simpl; [done|]. case_decide as E; simpl.
  - subst. by rewrite insert_insert_eq.
  - by rewrite IH, insert_insert_ne.
Qed.

Lemma dict_del_map k d : to_map (dict_del k d) = delete k (to_map d).
Proof.
  unfold dict_del. induction d as [|[k' v'] d IH]; simpl; [by rewrite delete_empty|]. rewrite filter_cons. simpl.
  destruct (decide (k' = k)) as [->|E].
  - rewrite decide_False by auto. by rewrite IH, delete_insert_eq.
  - rewrite decide_True by done. simpl. by rewrite IH, delete_insert_ne.
Qed.

Lemma dict_move_map k v d : dict_get k d = Some v → to_map (dict_del k d ++ [(k, v)]) = to_map d.
Proof.
  intros H. rewrite list_to_map_app, dict_del_map. simpl. rewrite dict_get_map in H. apply map_eq. intros i.
  rewrite lookup_union, insert_empty. destruct (decide (i = k)) as [->|].
  - by rewrite lookup_delete_eq, lookup_singleton_eq, H.
  - rewrite lookup_delete_ne, lookup_singleton_ne by done. by destruct (to_map d !! i).
Qed.

Lemma dict_del_key k x d : x ∈ (dict_del k d).*1 ↔ x ≠ k ∧ x ∈ d.*1.
Proof.
  unfold dict_del. rewrite !list_elem_of_fmap. setoid_rewrite list_elem_of_filter. naive_solver.
Qed.

Lemma dict_del_keys_nodup k d : NoDup d.*1 → NoDup (dict_del k d).*1.
Proof. intros H. unfold dict_del. eapply sublist_NoDup; [apply H|]. apply fmap_sublist, sublist_filter. Qed.

Lemma dict_move_key k v x d : k ∈ d.*1 → x ∈ (dict_del k d ++ [(k, v)]).*1 ↔ x ∈ d.*1.
Proof.
  intros Hk. rewrite fmap_app, elem_of_app, dict_del_key. simpl. rewrite list_elem_of_singleton.
  destruct (decide (x = k)) as [->|]; naive_solver.
Qed.

Lemma dict_move_nodup k v d : NoDup d.*1 → NoDup (dict_del k d ++ [(k, v)]).*1.
Proof.
  intros H. rewrite fmap_app. apply NoDup_app. split_and!; [by apply dict_del_keys_nodup| |apply NoDup_singleton].
  intros x Hx%dict_del_key. simpl. rewrite list_elem_of_singleton. naive_solver.
Qed.

Lemma dict_del_length k d : (length (dict_del k d) ≤ length d)%nat.
Proof. unfold dict_del. apply length_filter. Qed.

Lemma dict_move_length k v d : NoDup d.*1 → k ∈ d.*1 → length (dict_del k d ++ [(k, v)]) = length d.
Proof.
  intros Hnd Hk. rewrite <- (length_fmap fst), <- (length_fmap fst d). apply Permutation_length, NoDup_Permutation; [by apply dict_move_nodup|done|].
  intros x. by apply dict_move_key.
Qed.

Lemma delete_keys_delete (k : OffloadKey) (ks : list OffloadKey) (m : gmap OffloadKey V) : delete_keys ks (delete k m) = delete k (delete_keys ks m).
Proof. unfold delete_keys. induction ks as [|k' ks IH]; simpl; [done|]. by rewrite IH, delete_delete. Qed.
End dict_maps.

(** Steps with results that are known *)
Lemma wp_Ok {S A} (a : A) (Q : A → S → Prop) s : wp (of_res (Ok a)) Q s ↔ Q a s.
Proof. done. Qed.
Ltac wp_ok := repeat (progress (wp_step; rewrite ?wp_Ok)).

Lemma od_del_ok {V} k (d : list (OffloadKey * V)) : k ∈ d.*1 → od_del k d = Ok (dict_del k d).
Proof. unfold od_del. destruct (dict_get k d) eqn:E; [done|]. by apply dict_get_absent in E. Qed.

(** ** LRU keeps its contract *)
Module LRULaws.
Import LRU.
Definition wf (p : LRUCachePolicy) : Prop := NoDup (blocks p).*1.
Definition contents (p : LRUCachePolicy) : gmap OffloadKey BlockStatus := list_to_map (blocks p).

Lemma lru_touch_one_ok k p m : wf p → contents p = m → wp (touch_one k) (λ _ p', wf p' ∧ contents p' = m) p.
Proof.
  intros Hwf Hm. unfold touch_one. wp_step. destruct (dict_get k (blocks p)) as [b|] eqn:E; [|by wp_step].
  unfold od_move_to_end. rewrite E. wp_ok. unfold wf, contents in *. cbn [blocks].
  split; [by apply dict_move_nodup|]. by rewrite dict_move_map.
Qed.

Lemma lru_touch_ok ks p : wf p → wp (touch ks) (λ _ p', wf p' ∧ contents p' = contents p) p.
Proof.
  intros Hwf. apply (wp_for_each (λ _ p', wf p' ∧ contents p' = contents p)); [done|].
  intros pre k suf p' _ [H1 H2]. by apply lru_touch_one_ok.
Qed.

Lemma scan_spec n prot items c : len c < n →
  scan n prot items c = c ++ take (Z.to_nat (n - len c)) (filter (λ kb, evictable prot kb = true) items).
Proof.
  revert c. induction items as [|kb items IH]; intros c Hc; simpl; [by destruct (Z.to_nat _); rewrite app_nil_r|].
  rewrite filter_cons. destruct (evictable prot kb) eqn:E; simpl; [|by apply IH].
  assert (Hlen : len (c ++ [kb]) = len c + 1) by (rewrite length_app; simpl; lia). rewrite Hlen.
  destruct (Z.to_nat (n - len c)) as [|j] eqn:Ej; [lia|]. simpl. destruct (Z.eqb_spec (len c + 1) n).
  - replace j with 0%nat by lia. by rewrite take_0.
  - rewrite IH by lia. rewrite Hlen, <- app_assoc. simpl. do 3 f_equal. lia.
Qed.

Lemma del_loop_ok (l : list (OffloadKey * BlockStatus)) p : wf p → NoDup l.*1 → (∀ k b, (k, b) ∈ l → k ∈ (blocks p).*1) →
  wp (for_each l (λ kb, p ← Prelude.get; d ← of_res (od_del kb.1 (blocks p)); modify (λ _, mkLRU d)))
    (λ _ p', wf p' ∧ contents p' = delete_keys l.*1 (contents p) ∧ blocks p' = filter (λ kb, kb.1 ∉ l.*1) (blocks p)) p.
Proof.
  revert p. induction l as [|[k b] l IH]; intros p Hwf Hnd Hin; simpl.
  { wp_step. split_and!; [done|done|]. symmetry. apply filter_id. intros kb _. apply not_elem_of_nil. }
  apply NoDup_cons in Hnd as [Hk Hnd]. wp_step. rewrite od_del_ok by (eapply Hin; left). wp_ok.
  eapply wp_mono; [apply IH; [by apply dict_del_keys_nodup|done|]|].
  - intros k' b' Hin'. simpl. apply dict_del_key. split; [|eapply Hin; by right]. intros ->. apply Hk.
    apply list_elem_of_fmap. by exists (k, b').
  - intros _ p' (H1 & H2 & H3). split_and!; [done| |].
    + rewrite H2. unfold contents. simpl. by rewrite dict_del_map, delete_keys_delete.
    + rewrite H3. simpl. unfold dict_del. rewrite list_filter_filter. apply list_filter_iff. intros kb.
      rewrite not_elem_of_cons. tauto.
Qed.

Lemma elem_contents k b p : wf p → (k, b) ∈ blocks p → contents p !! k = Some b.
Proof. intros Hwf H. by apply elem_of_list_to_map. Qed.

(** The candidates are the first [n] evictable blocks in the order of the dictionary. *)
Definition victims (n : Z) (prot : gset OffloadKey) (p : LRUCachePolicy) : list (OffloadKey * BlockStatus) :=
  take (Z.to_nat n) (filter (λ kb, evictable prot kb = true) (blocks p)).

Lemma victims_ok n prot p : wf p →
  NoDup (victims n prot p).*1 ∧ ∀ k b, (k, b) ∈ victims n prot p →
    (k, b) ∈ blocks p ∧ ref_cnt b = 0 ∧ k ∉ prot.
Proof.
  intros Hwf. unfold victims. split.
  - eapply sublist_NoDup; [exact Hwf|]. apply fmap_sublist. etrans; [apply sublist_take|apply sublist_filter].
  - intros k b H. assert (Hf : (k, b) ∈ filter (λ kb, evictable prot kb = true) (blocks p)).
    { eapply elem_of_submseteq; [exact H|]. apply sublist_submseteq, sublist_take. }
    apply list_elem_of_filter in Hf as [He Hin]. unfold evictable in He. simpl in He.
    apply andb_prop in He as [He1%Z.eqb_eq He2%negb_true_iff%bool_decide_eq_false]. done.
Qed.

Lemma evict_victims n prot p : wf p → 0 < n →
  wp (evict n prot) (λ o p', wf p' ∧
    if len (victims n prot p) <? n then o = None ∧ p' = p
    else o = Some (victims n prot p) ∧ contents p' = delete_keys (victims n prot p).*1 (contents p) ∧
      blocks p' = filter (λ kb, kb.1 ∉ (victims n prot p).*1) (blocks p)) p.
Proof.
  intros Hwf Hn. unfold evict. destruct (Z.eqb_spec n 0); [lia|]. wp_step.
  rewrite scan_spec by (simpl; lia). simpl. rewrite Z.sub_0_r. fold (victims n prot p).
  destruct (_ <? n); wp_step; [done|]. destruct (victims_ok n prot p Hwf) as [Hnd Hin].
  eapply wp_mono; [apply del_loop_ok; [done|done|]|].
  - intros k b H. apply list_elem_of_fmap. exists (k, b). split; [done|]. by apply Hin.
  - intros _ p' (H1 & H2 & H3). by wp_step.
Qed.

(** C23. LRU evicts the [n] oldest blocks that are idle and not protected, oldest first, and
    keeps the others in their order; if there are fewer than [n] it changes nothing. *)
Theorem lru_evicts_oldest n prot p : wf p → 0 < n → ∃ r p', evict n prot p = (Ok r, p') ∧
  if len (victims n prot p) <? n then r = None ∧ p' = p
  else r = Some (victims n prot p) ∧ blocks p' = filter (λ kb, kb.1 ∉ (victims n prot p).*1) (blocks p).
Proof.
  intros Hwf Hn. destruct (wp_elim _ _ _ (evict_victims n prot p Hwf Hn)) as (r & p' & E & _ & H). exists r, p'.
  split; [done|]. destruct (_ <? n); naive_solver.
Qed.

Lemma lru_evicts_oldest_witness : let p := mkLRU [([1], mkBlock 1 0); ([2], mkBlock 0 1); ([3], mkBlock 0 2); ([4], mkBlock 0 3)] in
  ∃ r p', evict 1 {[ [2] ]} p = (Ok r, p') ∧
  if len (victims 1 {[ [2] ]} p) <? 1 then r = None ∧ p' = p
  else r = Some (victims 1 {[ [2] ]} p) ∧ blocks p' = filter (λ kb, kb.1 ∉ (victims 1 {[ [2] ]} p).*1) (blocks p).
Proof.
  intros p. apply (lru_evicts_oldest 1 {[ [2] ]} p); [|lia]. apply (bool_decide_unpack (NoDup (blocks p).*1)). vm_compute. exact I.
Defined.
End LRULaws.

#[global, program] Instance LRU_laws : PolicyLaws LRU.LRUCachePolicy := {|
  policy_wf := LRULaws.wf; contents := LRULaws.contents |}.
Next Obligation. intros n _. split; [constructor|done]. Qed.
Next Obligation. intros k p _. apply dict_get_map. Qed.
Next Obligation.
  intros k b p Hwf _. split; [by apply dict_set_NoDup|]. apply dict_set_map.
Qed.
Next Obligation.
  intros k b p Hwf _. split; [by apply dict_set_NoDup|]. apply dict_set_map.
Qed.
Next Obligation.
  intros k p Hwf [b Hb]. cbn. unfold LRU.remove. wp_step. rewrite od_del_ok.
  - wp_ok. split; [by apply dict_del_keys_nodup|]. apply dict_del_map.
  - eapply dict_get_Some_key. by rewrite dict_get_map.
Qed.
Next Obligation. exact LRULaws.lru_touch_ok. Qed.
Next Obligation.
  intros n prot p Hwf Hn. eapply wp_mono; [by apply LRULaws.evict_victims|].
  intros o p' (Hwf' & H). split; [done|]. destruct (Z.ltb_spec (len (LRULaws.victims n prot p)) n) as [|Hlen].
  - by destruct H as [-> ->].
  - destruct H as (-> & -> & _). destruct (LRULaws.victims_ok n prot p Hwf) as [Hnd Hin]. split_and!; [done| | |done].
    + unfold LRULaws.victims in *. rewrite length_take in *. lia.
    + intros k b H. destruct (Hin k b H) as (? & ? & ?). split_and!; [by apply LRULaws.elem_contents|done|done].
Qed.
Next Obligation. intros p _. split; [constructor|done]. Qed.

(** ** ARC keeps its contract *)
Module ARCLaws.
Import ARC.

(** The four dictionaries share no key; the target size is a number between 0 and the
    capacity; the ghost lists are at most as long as the cache. *)
Record keys_ok (p : ARCCachePolicy) : Prop := {
  all_nodup : NoDup ((t1 p).*1 ++ (t2 p).*1 ++ (b1 p).*1 ++ (b2 p).*1);
  capacity_ok : 0 ≤ cache_capacity p < 2 ^ 53;
  target_ok : num_below (cache_capacity p) (target_t1_size p);
}.
Record wf (p : ARCCachePolicy) : Prop := {
  wf_keys : keys_ok p;
  b1_le : len (b1 p) ≤ cache_capacity p;
  b2_le : len (b2 p) ≤ cache_capacity p;
}.
Definition contents (p : ARCCachePolicy) : gmap OffloadKey BlockStatus := list_to_map (t1 p) ∪ list_to_map (t2 p).

Lemma all_nodup_iff (l1 l2 l3 l4 : list OffloadKey) : NoDup (l1 ++ l2 ++ l3 ++ l4) ↔
  NoDup l1 ∧ NoDup l2 ∧ NoDup l3 ∧ NoDup l4 ∧
  (∀ k, k ∈ l1 → k ∉ l2 ∧ k ∉ l3 ∧ k ∉ l4) ∧ (∀ k, k ∈ l2 → k ∉ l3 ∧ k ∉ l4) ∧ (∀ k, k ∈ l3 → k ∉ l4).
Proof. rewrite !NoDup_app. split; intros; destruct_and?; split_and!; try done; set_solver. Qed.

Lemma move_key {V} k (v : V) x (d : list (OffloadKey * V)) :
  x ∈ (dict_del k d ++ [(k, v)]).*1 ↔ (x ≠ k ∧ x ∈ d.*1) ∨ x = k.
Proof. rewrite fmap_app, elem_of_app, dict_del_key. simpl. by rewrite list_elem_of_singleton. Qed.

Lemma dict_set_absent {V} k (v : V) (d : list (OffloadKey * V)) : k ∉ d.*1 → dict_set k v d = d ++ [(k, v)].
Proof.
  induction d as [|[k' v'] d IH]; simpl; [done|]. intros Hk. apply not_elem_of_cons in Hk as [Hne Hk].
  rewrite decide_False by congruence. by rewrite IH.
Qed.

Lemma dict_set_length {V} k (v : V) (d : list (OffloadKey * V)) : (length (dict_set k v d) ≤ S (length d))%nat.
Proof. induction d as [|[k' v'] d IH]; simpl; [lia|]. case_decide; simpl; lia. Qed.

Lemma dict_get_key {V} k (v : V) (d : list (OffloadKey * V)) : dict_get k d = Some v → k ∈ d.*1.
Proof. intros H. destruct (decide (k ∈ d.*1)) as [|Hn]; [done|]. apply dict_get_absent in Hn. congruence. Qed.

(** What moves keys between the dictionaries keeps them disjoint. *)
Ltac keys :=
  unfold contents in *; cbn [t1 t2 b1 b2 cache_capacity target_t1_size set_t1 set_t2 set_b1 set_b2 set_target] in *;
  rewrite ?all_nodup_iff in *; destruct_and?; split_and!;
  repeat first [apply dict_set_NoDup | apply dict_del_keys_nodup | apply dict_move_nodup]; try done;
  repeat setoid_rewrite move_key; repeat setoid_rewrite dict_del_key; repeat setoid_rewrite dict_set_fst;
  repeat match goal with H : dict_get _ _ = Some _ |- _ => apply dict_get_key in H
    | H : dict_get _ _ = None |- _ => apply dict_get_absent in H end;
  naive_solver.

Lemma contents_None k p : contents p !! k = None ↔ dict_get k (t1 p) = None ∧ dict_get k (t2 p) = None.
Proof. unfold contents. rewrite lookup_union_None, !dict_get_map. done. Qed.

Lemma get_contents k p : get k p = contents p !! k.
Proof. unfold get, contents. rewrite lookup_union, !dict_get_map. by destruct (_ !! k), (_ !! k). Qed.

Lemma arc_write_ok k b p : wf p → is_Some (contents p !! k) →
  wf (write k b p) ∧ contents (write k b p) = <[k := b]> (contents p).
Proof.
  intros [[Hk Hc Ht] H1 H2] [b' Hb]. rewrite <- get_contents in Hb. unfold write, get in *.
  destruct (dict_get k (t1 p)) as [b0|] eqn:E1.
  - split; [|unfold contents; cbn [t1 t2 set_t1]; by rewrite dict_set_map, insert_union_l].
    split; [split|..]; try done. keys.
  - split; [|unfold contents; cbn [t1 t2 set_t2]; rewrite dict_set_map, insert_union_r; [done|by rewrite <- dict_get_map]].
    split; [split|..]; try done. keys.
Qed.

Lemma arc_insert_ok k b p : wf p → contents p !! k = None →
  wp (insert k b) (λ _ p', wf p' ∧ contents p' = <[k := b]> (contents p)) p.
Proof.
  intros [[Hk Hc Ht] H1 H2] [E1 E2]%contents_None. unfold insert. wp_step. split.
  - split; [split|..]; try done; cbn [cache_capacity b1 b2 set_b1 set_b2 set_t1]; try done; [keys|..].
    + pose proof (dict_del_length k (b1 p)). lia.
    + pose proof (dict_del_length k (b2 p)). lia.
  - unfold contents. cbn [t1 t2 set_b1 set_b2 set_t1]. by rewrite dict_set_map, insert_union_l.
Qed.

Lemma t1_not_t2 p : NoDup ((t1 p).*1 ++ (t2 p).*1 ++ (b1 p).*1 ++ (b2 p).*1) → ∀ k, k ∈ (t1 p).*1 → k ∉ (t2 p).*1.
Proof. intros H%all_nodup_iff k Hk. by apply H. Qed.

(** A key leaves the dictionary that holds it. *)
Lemma delete_t1 k p : NoDup ((t1 p).*1 ++ (t2 p).*1 ++ (b1 p).*1 ++ (b2 p).*1) → k ∈ (t1 p).*1 →
  list_to_map (dict_del k (t1 p)) ∪ list_to_map (t2 p) = delete k (contents p).
Proof.
  intros Hk Hin. unfold contents. rewrite dict_del_map, delete_union, (delete_id (list_to_map (t2 p))); [done|].
  apply not_elem_of_list_to_map. by apply (t1_not_t2 p Hk).
Qed.
Lemma delete_t2 k p : k ∉ (t1 p).*1 → list_to_map (t1 p) ∪ list_to_map (dict_del k (t2 p)) = delete k (contents p).
Proof.
  intros Hk. unfold contents. rewrite dict_del_map, delete_union, (delete_id (list_to_map (t1 p))); [done|].
  by apply not_elem_of_list_to_map.
Qed.

Lemma arc_remove_ok k p : wf p → is_Some (contents p !! k) →
  wp (remove k) (λ _ p', wf p' ∧ contents p' = delete k (contents p)) p.
Proof.
  intros [[Hk Hc Ht] H1 H2] _. unfold remove. wp_step.
  destruct (dict_get k (t1 p)) as [b0|] eqn:E1; wp_step.
  - split; [split; [split|..]; try done; keys|]. apply (delete_t1 k p Hk). by apply (dict_get_key _ b0).
  - split; [split; [split|..]; try done; keys|]. apply (delete_t2 k p). by apply dict_get_absent.
Qed.

Lemma arc_touch_one_ok k p : wf p → wp (touch_one k) (λ _ p', wf p' ∧ contents p' = contents p) p.
Proof.
  intros [[Hk Hc Ht] H1 H2]. unfold touch_one. wp_step.
  destruct (dict_get k (t1 p)) as [b|] eqn:E1.
  { wp_step. destruct (negb (is_ready b)); wp_step; cbn [t1 set_t1].
    - rewrite dict_set_absent by (rewrite dict_del_key; naive_solver). split; [split; [split|..]; try done; keys|].
      unfold contents. cbn [t1 t2 set_t1]. by rewrite dict_move_map.
    - assert (Hn : k ∉ (t2 p).*1) by (apply (t1_not_t2 p Hk), (dict_get_key _ b), E1).
      split; [split; [split|..]; try done; keys|].
      unfold contents. cbn [t1 t2 set_t1 set_t2]. rewrite dict_del_map, dict_set_map, <- insert_union_r by apply lookup_delete_eq.
      rewrite insert_union_l, insert_delete_id; [done|]. by rewrite <- dict_get_map. }
  destruct (dict_get k (t2 p)) as [b|] eqn:E2.
  { unfold od_move_to_end. rewrite E2. wp_ok. split; [split; [split|..]; try done; keys|].
    unfold contents. cbn [t1 t2 set_t2]. by rewrite dict_move_map. }
  destruct (dict_get k (b1 p)) as [[]|] eqn:E3.
  { assert (Hin : k ∈ (b1 p).*1) by apply (dict_get_key _ _ _ E3).
    assert (0 < len (b1 p)) by (destruct (b1 p); simpl in *; [by apply elem_of_nil in Hin|lia]).
    destruct (positive_ratio (len (b2 p)) (len (b1 p))) as (r & -> & Hr); [lia..|]. wp_ok.
    cbn [set_target b1]. unfold od_move_to_end. rewrite E3. wp_ok. split; [|done].
    split; [split|..]; cbn [cache_capacity b1 b2 target_t1_size set_b1]; [keys|done|by apply add_below| |done].
    rewrite dict_move_length; [done| |done]. apply all_nodup_iff in Hk. naive_solver. }
  destruct (dict_get k (b2 p)) as [[]|] eqn:E4; [|by wp_step].
  assert (Hin : k ∈ (b2 p).*1) by apply (dict_get_key _ _ _ E4).
  assert (0 < len (b2 p)) by (destruct (b2 p); simpl in *; [by apply elem_of_nil in Hin|lia]).
  destruct (positive_ratio (len (b1 p)) (len (b2 p))) as (r & -> & Hr); [lia..|]. wp_ok.
  cbn [set_target b2]. unfold od_move_to_end. rewrite E4. wp_ok. split; [|done].
  split; [split|..]; cbn [cache_capacity b1 b2 target_t1_size set_b2]; [keys|done|by apply sub_below|done|].
  rewrite dict_move_length; [done| |done]. apply all_nodup_iff in Hk. naive_solver.
Qed.

Lemma arc_touch_ok ks p : wf p → wp (touch ks) (λ _ p', wf p' ∧ contents p' = contents p) p.
Proof.
  intros Hwf. apply (wp_for_each (λ _ p', wf p' ∧ contents p' = contents p)); [done|].
  intros pre k suf p' _ [H1 H2]. eapply wp_mono; [by apply arc_touch_one_ok|]. simpl. intros _ p'' [H3 H4]. split; congruence.
Qed.

(** The selection: as many candidates as asked, each from its dictionary, or [None] *)
Definition origin (p : ARCCachePolicy) (c : OffloadKey * BlockStatus * bool) : Prop :=
  c.1 ∈ (if c.2 then t1 p else t2 p).
Definition selection_ok (prot : gset OffloadKey) (p : ARCCachePolicy) (l : list (OffloadKey * BlockStatus * bool)) : Prop :=
  NoDup l.*1.*1 ∧ ∀ c, c ∈ l → origin p c ∧ evictable prot c.1 = true.

Lemma first_evictable_Some prot sel d kb : first_evictable prot sel d = Some kb →
  kb ∈ d ∧ evictable prot kb = true ∧ kb.1 ∉ sel.
Proof.
  unfold first_evictable. intros ([i kb'] & (H1 & H2 & _)%list_find_Some & ->)%fmap_Some. simpl in *.
  apply andb_prop in H2 as [H2 H3%negb_true_iff%bool_decide_eq_false].
  split_and!; [by eapply list_elem_of_lookup_2|done|done].
Qed.

Lemma selection_snoc prot p l sel kb (from_t1 : bool) : selection_ok prot p l → sel = list_to_set l.*1.*1 →
  first_evictable prot sel (if from_t1 then t1 p else t2 p) = Some kb →
  selection_ok prot p (l ++ [(kb, from_t1)]) ∧ sel ∪ {[kb.1]} = list_to_set (l ++ [(kb, from_t1)]).*1.*1.
Proof.
  intros [Hnd Hin] -> (H1 & H2 & H3)%first_evictable_Some. rewrite elem_of_list_to_set in H3.
  rewrite !fmap_app, list_to_set_app_L. simpl. split; [split|set_solver].
  - rewrite !fmap_app. apply NoDup_app. split_and!; [done| |apply NoDup_singleton]. set_solver.
  - intros c [Hc| ->%list_elem_of_singleton]%elem_of_app; [by apply Hin|done].
Qed.

Lemma select_ok n prot p : num_below (cache_capacity p) (target_t1_size p) → 0 ≤ cache_capacity p < 2 ^ 53 →
  ∀ l sel v, selection_ok prot p l → sel = list_to_set l.*1.*1 →
  ∃ o, select n prot p l sel v = Ok o ∧
    from_option (λ l', selection_ok prot p l' ∧ length l' = (length l + n)%nat) True o.
Proof.
  intros Ht Hc. induction n as [|n IH]; intros l sel v Hl Hsel; simpl.
  { exists (Some l). split; [done|]. split; [done|lia]. }
  destruct (num_int_below _ Hc _ Ht) as (t & -> & _). cbn [mbind res_bind].
  assert (Hstep : ∀ (from_t1 : bool) kb w, first_evictable prot sel (if from_t1 then t1 p else t2 p) = Some kb →
    ∃ o, select n prot p (l ++ [(kb, from_t1)]) (sel ∪ {[kb.1]}) w = Ok o ∧
      from_option (λ l', selection_ok prot p l' ∧ length l' = (length l + S n)%nat) True o).
  { intros from_t1 kb w Hkb. destruct (selection_snoc prot p l sel kb from_t1 Hl Hsel Hkb) as [Hl' Hsel'].
    destruct (IH _ _ w Hl' Hsel') as ([l'|] & E & H); [|by exists None].
    exists (Some l'). split; [done|]. destruct H as [H Hlen]. split; [done|]. rewrite Hlen, length_app. simpl. lia. }
  destruct (if t <=? v then _ else _) as [kb|] eqn:E.
  - apply (Hstep true). by destruct (t <=? v).
  - destruct (first_evictable prot sel (t2 p)) as [kb|] eqn:E2; [by apply (Hstep false)|by exists None].
Qed.

(** The evictions: ghost lists grow, and are trimmed afterwards. *)
Lemma apply_one_ok c p : keys_ok p → origin p c →
  wp (apply_one c) (λ _ p', keys_ok p' ∧ contents p' = delete c.1.1 (contents p) ∧
    ∀ c', c'.1.1 ≠ c.1.1 → origin p c' → origin p' c') p.
Proof.
  destruct c as [[k b] from_t1]. intros [Hk Hc Ht] Ho. unfold origin in *. simpl in Ho. unfold apply_one. wp_step.
  assert (Hin : k ∈ (if from_t1 then t1 p else t2 p).*1) by (apply list_elem_of_fmap; by exists (k, b)).
  destruct from_t1; rewrite od_del_ok by done; wp_ok; (split; [split; [keys|done|done]|]); (split; [|]).
  - by apply (delete_t1 k p).
  - intros [[k' b'] []] Hne H; [|done]. simpl in *. unfold dict_del. by apply list_elem_of_filter.
  - apply (delete_t2 k p). intros Hin1. by apply (t1_not_t2 p Hk k Hin1).
  - intros [[k' b'] []] Hne H; [done|]. simpl in *. unfold dict_del. by apply list_elem_of_filter.
Qed.

Lemma apply_ok l p : keys_ok p → NoDup l.*1.*1 → (∀ c, c ∈ l → origin p c) →
  wp (for_each l apply_one) (λ _ p', keys_ok p' ∧ contents p' = delete_keys l.*1.*1 (contents p)) p.
Proof.
  revert p. induction l as [|c l IH]; intros p Hk Hnd Hl; [by cbn; wp_step|].
  cbn [for_each]. wp_step. cbn [fmap list_fmap] in Hnd. apply NoDup_cons in Hnd as [Hc Hnd].
  eapply wp_mono; [apply apply_one_ok; [done|apply Hl; left]|]. intros _ p1 (Hk1 & Hm1 & Ho1).
  eapply wp_mono; [apply IH; [done|done|]|].
  - intros c' Hc'. apply Ho1; [|apply Hl; by right]. intros E. apply Hc. rewrite <- E.
    apply list_elem_of_fmap. exists c'.1. split; [done|]. apply list_elem_of_fmap. by exists c'.
  - intros _ p2 [Hk2 Hm2]. split; [done|]. rewrite Hm2, Hm1. apply delete_keys_delete.
Qed.

Lemma pop_first_ok n d : (n ≤ length d)%nat → pop_first n d = Ok (drop n d).
Proof.
  revert d. induction n as [|n IH]; intros d Hn; [by rewrite drop_0|].
  destruct d as [|kv d]; simpl in *; [lia|]. apply IH. lia.
Qed.

Lemma arc_evict_ok n prot p : wf p → 0 < n →
  wp (evict n prot) (λ o p', wf p' ∧
    match o with
    | None => p' = p
    | Some l => NoDup l.*1 ∧ len l = n ∧
        (∀ k b, (k, b) ∈ l → contents p !! k = Some b ∧ ref_cnt b = 0 ∧ k ∉ prot) ∧
        contents p' = delete_keys l.*1 (contents p)
    end) p.
Proof.
  intros Hwf Hn. pose proof Hwf as [Hk H1 H2]. pose proof Hk as [Hnd Hc Ht]. unfold evict.
  destruct (Z.eqb_spec n 0); [lia|]. wp_step.
  destruct (select_ok (Z.to_nat n) prot p Ht Hc [] ∅ (len (t1 p))) as ([l|] & -> & Ho); [|done| |by wp_ok].
  { split; [constructor|]. by intros c ?%elem_of_nil. }
  destruct Ho as [[Hndl Hl] Hlen]. wp_ok.
  eapply wp_mono; [apply apply_ok; [done|done|intros c Hc'; by apply Hl]|]. intros _ p' [Hk' Hm'].
  pose proof (capacity_ok p' Hk') as Hc'. wp_step. rewrite !pop_first_ok by lia. wp_ok. cbn [set_b1 b2 cache_capacity].
  split; [|split_and!].
  - destruct Hk' as [Hnd' _ Ht']. split; [split; [|done|done]|..]; cbn [t1 t2 b1 b2 cache_capacity set_b1 set_b2].
    + rewrite !fmap_drop. eapply sublist_NoDup; [exact Hnd'|].
      repeat apply sublist_app; try done; apply sublist_drop.
    + rewrite length_drop. lia.
    + rewrite length_drop. lia.
  - done.
  - rewrite length_fmap, Hlen. simpl. lia.
  - intros k b ([c from_t1] & E & Hin)%list_elem_of_fmap. simpl in E. subst c. destruct (Hl _ Hin) as [Ho He].
    unfold evictable in He. simpl in He. apply andb_prop in He as [He1%Z.eqb_eq He2%negb_true_iff%bool_decide_eq_false].
    split_and!; [|done|done]. rewrite <- get_contents. unfold get. unfold origin in Ho. simpl in Ho.
    apply all_nodup_iff in Hnd as (Hnd1 & Hnd2 & _ & _ & Hd & _).
    destruct from_t1.
    + rewrite dict_get_map, (elem_of_list_to_map_1 (t1 p) k b); done.
    + replace (dict_get k (t1 p)) with (@None BlockStatus).
      * rewrite dict_get_map. by apply elem_of_list_to_map_1.
      * symmetry. apply dict_get_absent. intros Hin1. destruct (Hd k Hin1) as [Hni _]. apply Hni.
        apply list_elem_of_fmap. by exists (k, b).
  - done.
Qed.
End ARCLaws.

#[global, program] Instance ARC_laws : PolicyLaws ARC.ARCCachePolicy := {|
  policy_wf := ARCLaws.wf; contents := ARCLaws.contents |}.
Next Obligation.
  intros n Hn. split; [|done]. split; [split|..]; cbn; [constructor|done| |lia|lia].
  destruct (cap_cases n Hn) as [[_ E]|(m & e & E & _)]; rewrite E; [by exists false|done].
Qed.
Next Obligation. intros k p _. apply ARCLaws.get_contents. Qed.
Next Obligation. exact ARCLaws.arc_write_ok. Qed.
Next Obligation. exact ARCLaws.arc_insert_ok. Qed.
Next Obligation. exact ARCLaws.arc_remove_ok. Qed.
Next Obligation. exact ARCLaws.arc_touch_ok. Qed.
Next Obligation.
  exact ARCLaws.arc_evict_ok.
Qed.
Next Obligation.
  intros p [[Hk Hc Ht] H1 H2]. split; [|done]. split; [split|..]; cbn; [constructor|done| |lia|lia].
  apply zero_below, Hc.
Qed.
