(* ===== verification/CPUOffload.v ===== *)
(** * The CPU offloading manager

    [vllm/v1/kv_offload/cpu/manager.py]: reference counts, slots and events over an
    eviction policy, and the protocol of its caller, the scheduler of the offloading
    connector: transfers are prepared, run on the workers, and complete later. *)
From S2P Require Import Prelude FreeQueue Request BlockHash BlockPool PyFloat OffloadPolicy.

(** ** Data *)
Record OffloadingEvent := mkEvent { event_keys : list OffloadKey; event_removed : bool }.
Record PrepareStoreOutput := mkStoreOutput {
  keys_to_store : list OffloadKey; store_spec : list Z; evicted_keys : list OffloadKey }.

(** [CPUOffloadingManager]; the class of the policy is the type [P], and the medium is
    constant. *)
Record CPUOffloadingManager (P : Type) := mkManager {
  policy : P;
  num_blocks : Z;
  num_allocated_blocks : Z;
  free_list : list Z;
  events : option (list OffloadingEvent);
  store_threshold : Z;
  max_tracker_size : Z;
  counts : option (list (OffloadKey * Z));
}.
Arguments mkManager {_}. Arguments policy {_}. Arguments num_blocks {_}. Arguments num_allocated_blocks {_}.
Arguments free_list {_}. Arguments events {_}. Arguments store_threshold {_}. Arguments max_tracker_size {_}.
Arguments counts {_}.

Definition set_policy {P} (v : P) (m : CPUOffloadingManager P) := mkManager v (num_blocks m) (num_allocated_blocks m)
  (free_list m) (events m) (store_threshold m) (max_tracker_size m) (counts m).
Definition set_allocated {P} v (m : CPUOffloadingManager P) := mkManager (policy m) (num_blocks m) v
  (free_list m) (events m) (store_threshold m) (max_tracker_size m) (counts m).
Definition set_free {P} v (m : CPUOffloadingManager P) := mkManager (policy m) (num_blocks m) (num_allocated_blocks m)
  v (events m) (store_threshold m) (max_tracker_size m) (counts m).
Definition set_events {P} v (m : CPUOffloadingManager P) := mkManager (policy m) (num_blocks m) (num_allocated_blocks m)
  (free_list m) v (store_threshold m) (max_tracker_size m) (counts m).
Definition set_counts {P} v (m : CPUOffloadingManager P) := mkManager (policy m) (num_blocks m) (num_allocated_blocks m)
  (free_list m) (events m) (store_threshold m) (max_tracker_size m) v.

(** ** Operations *)
Section manager.
Context {P : Type} `{CachePolicy P}.
Abbreviation Mgr := (CPUOffloadingManager P).

Definition init (n : Z) (enable_events : bool) (threshold max_size : Z) : Mgr :=
  mkManager (policy_init n) n 0 [] (if enable_events then Some [] else None) threshold max_size
    (if 2 <=? threshold then Some [] else None).

(** A call of a method of the policy *)
Definition on_policy {A} (m : M P A) : M Mgr A := zoom policy set_policy m.

Definition get_num_free_blocks (m : Mgr) : Z := len (free_list m) + num_blocks m - num_allocated_blocks m.

Fixpoint allocate_fresh (n : nat) : M Mgr (list BlockStatus) :=
  match n with
  | O => mret []
  | S n =>
      m ← get;
      let b := new_block (num_allocated_blocks m) in
      _ ← modify (λ m, set_allocated (num_allocated_blocks m + 1) m);
      bs ← allocate_fresh n; mret (b :: bs)
  end.
(** [self._free_list.pop()]: the last one *)
Fixpoint allocate_reused (n : nat) : M Mgr (list BlockStatus) :=
  match n with
  | O => mret []
  | S n =>
      m ← get;
      id ← of_opt IndexError (last (free_list m));
      _ ← modify (λ m, set_free (removelast (free_list m)) m);
      bs ← allocate_reused n; mret (new_block id :: bs)
  end.
Definition allocate_blocks (keys : list OffloadKey) : M Mgr (list BlockStatus) :=
  m ← get;
  let num_fresh := Z.min (len keys) (num_blocks m - num_allocated_blocks m) in
  let num_reused := len keys - num_fresh in
  _ ← massert (num_reused <=? len (free_list m));
  fresh ← allocate_fresh (Z.to_nat num_fresh);
  reused ← allocate_reused (Z.to_nat num_reused);
  mret (fresh ++ reused).

Definition free_block (b : BlockStatus) : M Mgr () := modify (λ m, set_free (free_list m ++ [block_id b]) m).

(** [events.append], if events are enabled *)
Definition add_event (e : OffloadingEvent) : M Mgr () :=
  modify (λ m, match events m with Some l => set_events (Some (l ++ [e])) m | None => m end).

(** The reference counts of the keys that are looked up *)
Definition count_lookup (key : OffloadKey) : M Mgr () :=
  m ← get;
  match counts m with
  | None => mret tt
  | Some c =>
      match dict_get key c with
      | Some n => c ← of_res (od_move_to_end key c); modify (set_counts (Some (dict_set key (n + 1) c)))
      | None =>
          c ← of_res (if max_tracker_size m <=? len c then od_popitem_first c else Ok c);
          modify (set_counts (Some (dict_set key 1 c)))
      end
  end.

(** [None]: the block is being written, the caller is to try again. *)
Definition lookup (key : OffloadKey) : M Mgr (option bool) :=
  _ ← count_lookup key;
  m ← get;
  mret match policy_get key (policy m) with
       | None => Some false
       | Some b => if negb (is_ready b) then None else Some true
       end.

Fixpoint prepare_load (keys : list OffloadKey) : M Mgr (list Z) :=
  match keys with
  | [] => mret []
  | key :: keys =>
      m ← get;
      b ← of_opt AssertionError (policy_get key (policy m));
      _ ← massert (is_ready b);
      _ ← modify (λ m, set_policy (policy_write key (set_ref_cnt (ref_cnt b + 1) b) (policy m)) m);
      ids ← prepare_load keys; mret (block_id b :: ids)
  end.

Definition touch (keys : list OffloadKey) : M Mgr () := on_policy (policy_touch keys).

Definition complete_load (keys : list OffloadKey) : M Mgr () := for_each keys (λ key,
  m ← get;
  b ← of_opt AssertionError (policy_get key (policy m));
  _ ← massert (0 <? ref_cnt b);
  modify (λ m, set_policy (policy_write key (set_ref_cnt (ref_cnt b - 1) b) (policy m)) m)).

(** [counts.get(k, 0) >= self.store_threshold] *)
Definition counted (m : Mgr) (key : OffloadKey) : bool :=
  match counts m with
  | Some c => store_threshold m <=? default 0 (dict_get key c)
  | None => true
  end.

Definition prepare_store (keys : list OffloadKey) : M Mgr (option PrepareStoreOutput) :=
  m ← get;
  let keys := filter (λ k, counted m k = true) keys in
  let to_store := filter (λ k, policy_get k (policy m) = None) keys in
  if bool_decide (to_store = []) then mret (Some (mkStoreOutput [] [] []))
  else
    let num_blocks_to_evict := len to_store - get_num_free_blocks m in
    evicted ← (if 0 <? num_blocks_to_evict
               then on_policy (policy_evict num_blocks_to_evict (list_to_set keys)) else mret (Some []));
    match evicted with
    | None => mret None
    | Some evicted =>
        _ ← for_each evicted (λ kb : OffloadKey * BlockStatus, free_block kb.2);
        let to_evict := evicted.*1 in
        _ ← (if bool_decide (to_evict = []) then mret tt else add_event (mkEvent to_evict true));
        blocks ← allocate_blocks to_store;
        _ ← massert (len blocks =? len to_store);
        _ ← for_each (zip to_store blocks) (λ kb : OffloadKey * BlockStatus, on_policy (policy_insert kb.1 kb.2));
        mret (Some (mkStoreOutput to_store (block_id <$> blocks) to_evict))
    end.

(** The loop over the keys that were stored; the result is [stored_keys]. *)
Fixpoint mark_stored (keys : list OffloadKey) : M Mgr (list OffloadKey) :=
  match keys with
  | [] => mret []
  | key :: keys =>
      m ← get;
      match policy_get key (policy m) with
      | Some b =>
          if negb (is_ready b)
          then _ ← modify (λ m, set_policy (policy_write key (set_ref_cnt 0 b) (policy m)) m);
               stored ← mark_stored keys; mret (key :: stored)
          else mark_stored keys
      | None => mark_stored keys
      end
  end.
Definition drop_failed (keys : list OffloadKey) : M Mgr () := for_each keys (λ key,
  m ← get;
  match policy_get key (policy m) with
  | Some b => if negb (is_ready b) then _ ← on_policy (policy_remove key); free_block b else mret tt
  | None => mret tt
  end).
Definition complete_store (keys : list OffloadKey) (success : bool) : M Mgr () :=
  stored ← (if success then mark_stored keys else _ ← drop_failed keys; mret []);
  if bool_decide (stored = []) then mret tt else add_event (mkEvent stored false).

Definition reset_cache : M Mgr () :=
  _ ← modify (λ m, set_policy (policy_clear (policy m)) m);
  _ ← modify (set_free []); modify (set_allocated 0).

(** The generator, consumed to its end *)
Definition take_events : M Mgr (list OffloadingEvent) :=
  m ← get;
  match events m with Some l => _ ← modify (set_events (Some [])); mret l | None => mret [] end.
End manager.

(** ** What the manager keeps

    [L] lists the keys of the loads in progress, once per load, and [S] those of the
    stores; [X] the slots that the operation under way has taken out of the books. *)
Lemma c_int32_id z : -1 ≤ z < 2 ^ 31 → c_int32 z = z.
Proof. intros Hz. unfold c_int32. rewrite Z.mod_small; lia. Qed.

Definition occ (k : OffloadKey) (l : list OffloadKey) : Z := len (filter (λ x, x = k) l).

Lemma occ_cons_key k x l : occ k (x :: l) = (if decide (x = k) then 1 else 0) + occ k l.
Proof. unfold occ. rewrite filter_cons. case_decide; simpl; lia. Qed.
Lemma occ_bounds k l : 0 ≤ occ k l ≤ len l.
Proof. unfold occ. pose proof (length_filter (λ x, x = k) l). lia. Qed.
Lemma occ_0 k l : occ k l = 0 ↔ k ∉ l.
Proof.
  induction l as [|x l IH]; [rewrite elem_of_nil; by split; [intros _ []|]|].
  rewrite occ_cons_key, not_elem_of_cons. pose proof (occ_bounds k l). case_decide; [split; [lia|by intros [? _]]|].
  rewrite Z.add_0_l, IH. split; [done|]. by intros [_ ?].
Qed.
#[global] Instance occ_proper k : Proper ((≡ₚ) ==> (=)) (occ k).
Proof. intros l l' Hl. unfold occ. by rewrite Hl. Qed.

Definition slots (c : gmap OffloadKey BlockStatus) : list Z := block_id <$> (map_to_list c).*2.

Lemma slots_insert k b c : c !! k = None → slots (<[k := b]> c) ≡ₚ block_id b :: slots c.
Proof. intros Hc. unfold slots. by rewrite map_to_list_insert. Qed.
Lemma slots_delete k b c : c !! k = Some b → slots c ≡ₚ block_id b :: slots (delete k c).
Proof. intros Hc. unfold slots. by rewrite <- (map_to_list_delete c k b). Qed.
Lemma slots_write k b b' c : c !! k = Some b → block_id b' = block_id b → slots (<[k := b']> c) ≡ₚ slots c.
Proof.
  intros Hc Hid. rewrite <- insert_delete_eq, slots_insert by apply lookup_delete_eq. by rewrite (slots_delete k b c Hc), Hid.
Qed.

(** Some keys leave the map. *)
Lemma lookup_delete_keys (k : OffloadKey) (ks : list OffloadKey) (c : gmap OffloadKey BlockStatus) :
  delete_keys ks c !! k = if decide (k ∈ ks) then None else c !! k.
Proof.
  unfold delete_keys. induction ks as [|x ks IH]; simpl; [done|]. destruct (decide (k = x)) as [->|Hne].
  - rewrite lookup_delete_eq, decide_True by left. done.
  - rewrite lookup_delete_ne, IH by done. by rewrite (decide_ext (k ∈ ks) (k ∈ x :: ks)) by (rewrite elem_of_cons; naive_solver).
Qed.

Lemma slots_delete_keys (l : list (OffloadKey * BlockStatus)) c : NoDup l.*1 → (∀ k b, (k, b) ∈ l → c !! k = Some b) →
  slots c ≡ₚ (block_id <$> l.*2) ++ slots (delete_keys l.*1 c).
Proof.
  revert c. induction l as [|[k b] l IH]; intros c Hnd Hl; [done|]. cbn [fmap list_fmap fst snd app] in *.
  apply NoDup_cons in Hnd as [Hk Hnd]. rewrite (slots_delete k b c) by (apply Hl; left). constructor.
  rewrite IH; [|done|].
  - unfold delete_keys. cbn [foldr]. fold (delete_keys l.*1 c). by rewrite <- delete_keys_delete.
  - intros k' b' Hin. rewrite lookup_delete_ne; [apply Hl; by right|]. intros ->. apply Hk. apply list_elem_of_fmap.
    by exists (k', b').
Qed.

Section laws.
Context {P : Type} `{PolicyLaws P} (N : Z).
Abbreviation Mgr := (CPUOffloadingManager P).

Definition cached (m : Mgr) : gmap OffloadKey BlockStatus := contents (policy m).
Definition slot (m : Mgr) (k : OffloadKey) : option Z := block_id <$> cached m !! k.

Record inv (L S : list OffloadKey) (X : list Z) (m : Mgr) : Prop := {
  i_wf : policy_wf (policy m);
  i_alloc : num_blocks m = N ∧ 0 ≤ num_allocated_blocks m ≤ N;
  i_slots : slots (cached m) ++ free_list m ++ X ≡ₚ seqZ 0 (num_allocated_blocks m);
  i_cnt : ∀ k b, cached m !! k = Some b → ref_cnt b = if decide (k ∈ S) then -1 else occ k L;
  i_stores : NoDup S ∧ ∀ k, k ∈ S → is_Some (cached m !! k);
  i_loads : ∀ k, k ∈ L → is_Some (cached m !! k) ∧ k ∉ S;
  i_bound : len L < 2 ^ 31;
  i_tracker : 0 < max_tracker_size m;
}.

#[local] Instance inv_proper : Proper ((≡ₚ) ==> (≡ₚ) ==> (≡ₚ) ==> (=) ==> iff) inv.
Proof.
  assert (Hp : ∀ L L' S S' X X' m, L ≡ₚ L' → S ≡ₚ S' → X ≡ₚ X' → inv L S X m → inv L' S' X' m).
  { intros L L' S S' X X' m HL HS HX [H1 H2 H3 H4 [H5a H5b] H6 H7 H8]. split; try done.
    - by rewrite <- HX.
    - intros k b Hk. rewrite (H4 k b Hk), (occ_proper k _ _ HL). by rewrite (decide_ext (k ∈ S) (k ∈ S') _ _ (elem_of_Permutation_proper k _ _ HS)).
    - split; [by rewrite <- HS|]. intros k. rewrite <- HS. apply H5b.
    - intros k. rewrite <- HL, <- HS. apply H6.
    - by rewrite <- HL. }
  intros L L' HL S S' HS X X' HX m m' <-. split; apply Hp; done.
Qed.

(** What the invariant says does not depend on the events and the lookup counts. *)
Definition same_pool (m m' : Mgr) : Prop :=
  policy m' = policy m ∧ num_blocks m' = num_blocks m ∧ num_allocated_blocks m' = num_allocated_blocks m ∧
  free_list m' = free_list m ∧ max_tracker_size m' = max_tracker_size m.

Lemma inv_same L S X m m' : same_pool m m' → inv L S X m → inv L S X m'.
Proof.
  intros (E1 & E2 & E3 & E4 & E5) [H1 H2 H3 H4 H5 H6 H7 H8]. unfold cached in *.
  split; unfold cached; rewrite ?E1, ?E2, ?E3, ?E4, ?E5; done.
Qed.

Lemma slot_same m m' : same_pool m m' → ∀ k, slot m' k = slot m k.
Proof. intros (E1 & _) k. unfold slot, cached. by rewrite E1. Qed.

Lemma add_event_ok e m : wp (add_event e) (λ _ m', same_pool m m') m.
Proof. unfold add_event. wp_step. by destruct (events m). Qed.

Lemma count_lookup_ok key m : 0 < max_tracker_size m → wp (count_lookup key) (λ _ m', same_pool m m') m.
Proof.
  intros Hm. unfold count_lookup. wp_step. destruct (counts m) as [c|]; [|by wp_step].
  destruct (dict_get key c) as [n|] eqn:E.
  - unfold od_move_to_end. rewrite E. by wp_ok.
  - destruct (Z.leb_spec (max_tracker_size m) (len c)); [|by wp_ok].
    destruct c as [|kv c]; [simpl in *; lia|]. by wp_ok.
Qed.

(** *** The block of a key changes its count. *)
Definition put (k : OffloadKey) (b : BlockStatus) (m : Mgr) : Mgr := set_policy (policy_write k b (policy m)) m.

Lemma put_inv k b v m L S X L' S' : inv L S X m → cached m !! k = Some b →
  -1 ≤ v < 2 ^ 31 → v = (if decide (k ∈ S') then -1 else occ k L') →
  (∀ k', k' ≠ k → (k' ∈ S' ↔ k' ∈ S) ∧ occ k' L' = occ k' L) →
  NoDup S' → (k ∈ L' → k ∉ S') → len L' < 2 ^ 31 →
  inv L' S' X (put k (set_ref_cnt v b) m) ∧ ∀ k', slot (put k (set_ref_cnt v b) m) k' = slot m k'.
Proof.
  intros [H1 H2 H3 H4 [H5a H5b] H6 H7 H8] Hk Hv Hval Hne Hnd Hkl Hlen.
  destruct (policy_write_ok k (set_ref_cnt v b) (policy m)) as [Hwf Hc]; [done|by exists b|].
  change (contents (policy_write k (set_ref_cnt v b) (policy m))) with (cached (put k (set_ref_cnt v b) m)) in Hc.
  fold (cached m) in Hc. split.
  - split; try done.
    + cbn [put set_policy free_list num_allocated_blocks]. rewrite Hc. by rewrite (slots_write k b) by done.
    + intros k' b'. rewrite Hc. destruct (decide (k' = k)) as [->|Hk'].
      * rewrite lookup_insert_eq. intros [= <-]. cbn. by rewrite c_int32_id.
      * rewrite lookup_insert_ne by done. intros Hb'. rewrite (H4 k' b' Hb'). destruct (Hne k' Hk') as [Hs Ho].
        rewrite Ho. by rewrite (decide_ext (k' ∈ S) (k' ∈ S')).
    + split; [done|]. intros k' Hk'. rewrite Hc. destruct (decide (k' = k)) as [->|Hd]; [by rewrite lookup_insert_eq|].
      rewrite lookup_insert_ne by done. apply H5b. by apply (Hne k' Hd).
    + intros k' Hk'. rewrite Hc. destruct (decide (k' = k)) as [->|Hd]; [rewrite lookup_insert_eq; naive_solver|].
      rewrite lookup_insert_ne by done. destruct (Hne k' Hd) as [Hs Ho]. rewrite Hs. apply H6.
      destruct (decide (k' ∈ L)) as [|Hn]; [done|]. apply occ_0 in Hn. rewrite Hn in Ho. by apply occ_0 in Ho.
  - intros k'. unfold slot. rewrite Hc. destruct (decide (k' = k)) as [->|Hd]; [by rewrite lookup_insert_eq, Hk|].
    by rewrite lookup_insert_ne.
Qed.

Lemma get_cached k L S X m : inv L S X m → policy_get k (policy m) = cached m !! k.
Proof. intros Hi. apply policy_get_ok, Hi. Qed.

Lemma slot_Some k m : is_Some (slot m k) ↔ is_Some (cached m !! k).
Proof. unfold slot. apply fmap_is_Some. Qed.

Lemma ready_iff k b L S X m : inv L S X m → cached m !! k = Some b → is_ready b = bool_decide (k ∉ S).
Proof.
  intros Hi Hk. unfold is_ready. rewrite (i_cnt _ _ _ _ Hi k b Hk). pose proof (occ_bounds k L).
  case_decide; [by rewrite bool_decide_eq_false_2 by tauto|rewrite bool_decide_eq_true_2 by done; lia].
Qed.

(** *** Loads *)
Lemma prepare_load_ok ks m L S X : inv L S X m → (∀ k, k ∈ ks → is_Some (slot m k) ∧ k ∉ S) → len L + len ks < 2 ^ 31 →
  wp (prepare_load ks) (λ ids m', inv (ks ++ L) S X m' ∧ (∀ k, slot m' k = slot m k) ∧ slot m <$> ks = Some <$> ids) m.
Proof.
  revert m L. induction ks as [|k ks IH]; intros m L Hi Hks Hlen; [by cbn; wp_step|].
  cbn [prepare_load]. wp_step. rewrite (get_cached k L S X m Hi). destruct (Hks k) as [Hs Hn]; [left|].
  apply slot_Some in Hs as [b Hb]. rewrite Hb. cbn [of_opt]. wp_step. rewrite (ready_iff k b L S X m Hi Hb).
  rewrite bool_decide_eq_true_2 by done. wp_step. split; [done|].
  pose proof (i_cnt _ _ _ _ Hi k b Hb) as Hcnt. rewrite decide_False in Hcnt by done. pose proof (occ_bounds k L) as Ho.
  cbn [length] in Hlen.
  destruct (put_inv k b (ref_cnt b + 1) m L S X (k :: L) S Hi Hb) as [Hi' Hs']; [lia|..].
  { rewrite decide_False by done. rewrite occ_cons_key, decide_True by done. lia. }
  { intros k' Hne. rewrite occ_cons_key, decide_False by done. split; [done|lia]. }
  { apply Hi. }
  { done. }
  { cbn [length]. lia. }
  fold (put k (set_ref_cnt (ref_cnt b + 1) b) m).
  eapply wp_mono; [apply (IH _ (k :: L) Hi')|].
  - intros k' Hk'. rewrite Hs'. apply Hks. by right.
  - cbn [length]. lia.
  - intros ids m' (Hi'' & Hs'' & Hids). wp_step. split_and!.
    + by rewrite <- app_comm_cons, Permutation_middle.
    + intros k'. by rewrite Hs''.
    + cbn [fmap list_fmap]. f_equal; [unfold slot; by rewrite Hb|]. rewrite <- Hids. apply list_fmap_ext. by intros i k' _.
Qed.

Lemma complete_load_ok ks m L S X : inv (ks ++ L) S X m →
  wp (complete_load ks) (λ _ m', inv L S X m' ∧ ∀ k, slot m' k = slot m k) m.
Proof.
  revert m. induction ks as [|k ks IH]; intros m Hi; [by cbn; wp_step|].
  unfold complete_load. cbn [for_each]. wp_step. rewrite (get_cached k _ S X m Hi).
  destruct (i_loads _ _ _ _ Hi k) as [[b Hb] Hn]; [left|]. rewrite Hb. cbn [of_opt]. wp_step.
  pose proof (i_cnt _ _ _ _ Hi k b Hb) as Hcnt. rewrite decide_False in Hcnt by done.
  rewrite <- app_comm_cons, occ_cons_key, decide_True in Hcnt by done. pose proof (occ_bounds k (ks ++ L)) as Ho.
  pose proof (i_bound _ _ _ _ Hi) as Hbound. cbn [app length] in Hbound. split; [lia|].
  destruct (put_inv k b (ref_cnt b - 1) m (k :: ks ++ L) S X (ks ++ L) S Hi Hb) as [Hi' Hs']; [lia|..].
  { rewrite decide_False by done. lia. }
  { intros k' Hne. rewrite occ_cons_key, decide_False by done. split; [done|lia]. }
  { apply Hi. }
  { done. }
  { lia. }
  fold (put k (set_ref_cnt (ref_cnt b - 1) b) m).
  eapply wp_mono; [apply (IH _ Hi')|]. intros _ m' [Hi'' Hs'']. split; [done|]. intros k'. by rewrite Hs''.
Qed.

(** *** Stores *)
Lemma mark_stored_ok ks m L S X : inv L (ks ++ S) X m →
  wp (mark_stored ks) (λ stored m', inv L S X m' ∧ (∀ k, slot m' k = slot m k) ∧ stored = ks) m.
Proof.
  revert m. induction ks as [|k ks IH]; intros m Hi; [by cbn; wp_step|].
  cbn [mark_stored]. wp_step. rewrite (get_cached k _ _ X m Hi).
  destruct (i_stores _ _ _ _ Hi) as [Hnd Hin]. destruct (Hin k) as [b Hb]; [left|]. rewrite Hb.
  rewrite (ready_iff k b _ _ X m Hi Hb), bool_decide_eq_false_2 by (intros Hk; apply Hk; left). cbn [negb]. wp_step.
  cbn [app] in Hnd. apply NoDup_cons in Hnd as [Hk Hnd].
  assert (HL : k ∉ L) by (intros HL; apply (i_loads _ _ _ _ Hi k HL); left).
  destruct (put_inv k b 0 m L (k :: ks ++ S) X L (ks ++ S) Hi Hb) as [Hi' Hs']; [lia|..].
  { rewrite decide_False by done. symmetry. by apply occ_0. }
  { intros k' Hne. rewrite elem_of_cons. naive_solver. }
  { done. }
  { done. }
  { apply Hi. }
  fold (put k (set_ref_cnt 0 b) m).
  eapply wp_mono; [apply (IH _ Hi')|]. intros stored m' (Hi'' & Hs'' & ->). wp_step. split_and!; [done| |done].
  intros k'. by rewrite Hs''.
Qed.

Lemma drop_failed_ok ks m L S X : inv L (ks ++ S) X m →
  wp (drop_failed ks) (λ _ m', inv L S X m' ∧ (∀ k, k ∈ ks → slot m' k = None) ∧ ∀ k, k ∉ ks → slot m' k = slot m k) m.
Proof.
  revert m. induction ks as [|k ks IH]; intros m Hi.
  { cbn. wp_step. split_and!; [done| |done]. by intros k ?%elem_of_nil. }
  unfold drop_failed. cbn [for_each]. wp_step. rewrite (get_cached k _ _ X m Hi).
  destruct (i_stores _ _ _ _ Hi) as [Hnd Hin]. destruct (Hin k) as [b Hb]; [left|]. rewrite Hb.
  rewrite (ready_iff k b _ _ X m Hi Hb), bool_decide_eq_false_2 by (intros Hk; apply Hk; left). cbn [negb].
  unfold on_policy, free_block. wp_step. eapply wp_mono; [apply policy_remove_ok; [apply Hi|by exists b]|].
  intros _ p' [Hwf Hc]. wp_step. set (m1 := set_free _ _).
  assert (Hc1 : cached m1 = delete k (cached m)) by done.
  cbn [app] in Hnd. apply NoDup_cons in Hnd as [Hk Hnd].
  assert (Hi1 : inv L (ks ++ S) X m1).
  { destruct Hi as [H1 H2 H3 H4 [H5a H5b] H6 H7 H8]. split; try done.
    - rewrite Hc1. cbn. rewrite <- H3, (slots_delete k b (cached m)) by done.
      rewrite <- !app_assoc. cbn [app]. by rewrite !Permutation_middle.
    - intros k' b'. rewrite Hc1, lookup_delete_Some. intros [Hne Hb']. rewrite (H4 k' b' Hb').
      cbn [app]. rewrite (decide_ext (k' ∈ k :: ks ++ S) (k' ∈ ks ++ S)); [done|]. rewrite elem_of_cons. naive_solver.
    - split; [done|]. intros k' Hk'. rewrite Hc1, lookup_delete_ne; [apply H5b; by right|]. intros ->. done.
    - intros k' Hk'. destruct (H6 k' Hk') as [Hs Hn]. apply not_elem_of_cons in Hn as [Hne Hn].
      by rewrite Hc1, lookup_delete_ne by done. }
  eapply wp_mono; [apply (IH _ Hi1)|]. intros _ m' (Hi' & Hd & Hs). split; [done|].
  assert (Hk1 : slot m1 k = None) by (unfold slot; by rewrite Hc1, lookup_delete_eq). split.
  - intros k' [->|Hk']%elem_of_cons; [|by apply Hd]. by rewrite Hs by set_solver.
  - intros k' [Hne Hk']%not_elem_of_cons. rewrite Hs by done. unfold slot. by rewrite Hc1, lookup_delete_ne.
Qed.

(** *** The slots of new blocks *)
Lemma allocate_fresh_ok n L S X m : inv L S X m → num_allocated_blocks m + Z.of_nat n ≤ num_blocks m →
  wp (allocate_fresh n) (λ bs m', ∃ ids, bs = new_block <$> ids ∧ length ids = n ∧ inv L S (ids ++ X) m' ∧
    policy m' = policy m ∧ free_list m' = free_list m) m.
Proof.
  revert m X. induction n as [|n IH]; intros m X Hi Hn; [cbn; wp_step; by exists []|].
  cbn [allocate_fresh]. wp_step. set (a := num_allocated_blocks m) in *.
  assert (Hi' : inv L S (a :: X) (set_allocated (a + 1) m)).
  { destruct Hi as [H1 H2 H3 H4 H5 H6 H7 H8]. split; try done; [cbn; lia|]. cbn [set_allocated num_allocated_blocks free_list].
    change (cached (set_allocated (a + 1) m)) with (cached m). fold a in H3.
    rewrite seqZ_app, <- H3 by lia. cbn [seqZ]. change (seqZ (0 + a) 1) with [0 + a]. rewrite Z.add_0_l.
    by rewrite (Permutation_app_comm _ [a]), <- !Permutation_middle. }
  eapply wp_mono; [apply (IH _ (a :: X) Hi'); cbn; lia|]. intros bs m' (ids & -> & Hlen & Hi'' & Hp & Hf). wp_step.
  exists (a :: ids). split_and!; [done|cbn; lia|by rewrite <- app_comm_cons, Permutation_middle|done|done].
Qed.

Lemma allocate_reused_ok n L S X m : inv L S X m → (n ≤ length (free_list m))%nat →
  wp (allocate_reused n) (λ bs m', ∃ ids, bs = new_block <$> ids ∧ length ids = n ∧ inv L S (ids ++ X) m' ∧
    policy m' = policy m) m.
Proof.
  revert m X. induction n as [|n IH]; intros m X Hi Hn; [cbn; wp_step; by exists []|].
  cbn [allocate_reused]. wp_step. destruct (free_list m) as [|id l _] eqn:E using rev_ind; [simpl in Hn; lia|].
  rewrite last_snoc. cbn [of_opt]. wp_step. rewrite E, removelast_last.
  assert (Hi' : inv L S (id :: X) (set_free l m)).
  { destruct Hi as [H1 H2 H3 H4 H5 H6 H7 H8]. split; try done. cbn [set_free free_list num_allocated_blocks].
    change (cached (set_free l m)) with (cached m). rewrite <- H3, E. by rewrite <- app_assoc. }
  eapply wp_mono; [apply (IH _ (id :: X) Hi'); cbn; rewrite length_app in Hn; cbn in Hn; lia|].
  intros bs m' (ids & -> & Hlen & Hi'' & Hp). wp_step.
  exists (id :: ids). split_and!; [done|cbn; lia|by rewrite <- app_comm_cons, Permutation_middle|done].
Qed.

Lemma allocate_blocks_ok T L S X m : inv L S X m → len T ≤ get_num_free_blocks m →
  wp (allocate_blocks T) (λ bs m', ∃ ids, bs = new_block <$> ids ∧ length ids = length T ∧ inv L S (ids ++ X) m' ∧
    policy m' = policy m) m.
Proof.
  intros Hi Hn. unfold get_num_free_blocks in Hn. unfold allocate_blocks. wp_step.
  pose proof (i_alloc _ _ _ _ Hi) as Ha. set (f := Z.min (len T) _). split; [lia|].
  eapply wp_mono; [apply (allocate_fresh_ok _ L S X m Hi); lia|]. intros bs1 m1 (ids1 & -> & Hl1 & Hi1 & Hp1 & Hf1). wp_step.
  eapply wp_mono; [apply (allocate_reused_ok _ L S (ids1 ++ X) m1 Hi1); rewrite Hf1; lia|].
  intros bs2 m2 (ids2 & -> & Hl2 & Hi2 & Hp2). wp_step. exists (ids1 ++ ids2). split_and!.
  - by rewrite fmap_app.
  - rewrite length_app. lia.
  - rewrite (Permutation_app_comm ids1), <- app_assoc. done.
  - congruence.
Qed.

(** The new blocks enter the policy. *)
Lemma insert_ok T ids L S X m : length ids = length T → inv L S (ids ++ X) m → NoDup T → (∀ k, k ∈ T → cached m !! k = None) →
  wp (for_each (zip T (new_block <$> ids)) (λ kb : OffloadKey * BlockStatus, on_policy (policy_insert kb.1 kb.2)))
    (λ _ m', inv L (T ++ S) X m' ∧ slot m' <$> T = Some <$> ids ∧ ∀ k, k ∉ T → slot m' k = slot m k) m.
Proof.
  revert ids S m. induction T as [|k T IH]; intros [|id ids] S m Hlen Hi Hnd HT; try done.
  cbn [fmap list_fmap zip zip_with for_each fst snd]. unfold on_policy. wp_step.
  apply NoDup_cons in Hnd as [Hk Hnd]. pose proof (HT k ltac:(left)) as Hnone.
  eapply wp_mono; [apply policy_insert_ok; [apply Hi|done]|]. intros _ p' [Hwf Hc]. set (m1 := set_policy p' m).
  assert (Hc1 : cached m1 = <[k := new_block id]> (cached m)) by done.
  assert (HkS : k ∉ S) by (intros HS; destruct (i_stores _ _ _ _ Hi) as [_ Hin]; destruct (Hin k HS); congruence).
  assert (HkL : k ∉ L) by (intros HL; destruct (i_loads _ _ _ _ Hi k HL) as [[? ?] _]; congruence).
  assert (Hi1 : inv L (k :: S) (ids ++ X) m1).
  { destruct Hi as [H1 H2 H3 H4 [H5a H5b] H6 H7 H8]. split; try done.
    - rewrite Hc1, slots_insert by done. cbn [m1 set_policy free_list num_allocated_blocks block_id new_block]. rewrite <- H3. cbn [app].
      by rewrite !Permutation_middle.
    - intros k' b'. rewrite Hc1, lookup_insert_Some. intros [[<- <-]|[Hne Hb']]; [by rewrite decide_True by left|].
      rewrite (H4 k' b' Hb'). rewrite (decide_ext (k' ∈ k :: S) (k' ∈ S)); [done|]. rewrite elem_of_cons. naive_solver.
    - split; [by constructor|]. intros k' [->|Hk']%elem_of_cons; rewrite Hc1; [by rewrite lookup_insert_eq|].
      rewrite lookup_insert_ne by naive_solver. by apply H5b.
    - intros k' Hk'. destruct (H6 k' Hk') as [Hs Hn]. assert (k ≠ k') by naive_solver. rewrite Hc1, lookup_insert_ne by done.
      split; [done|]. rewrite not_elem_of_cons. naive_solver. }
  eapply wp_mono; [apply (IH ids (k :: S) m1); [cbn in Hlen; lia|done|done|]|].
  { intros k' Hk'. rewrite Hc1, lookup_insert_ne by naive_solver. apply HT. by right. }
  intros _ m' (Hi' & Hids & Hother). split_and!.
  - by rewrite <- app_comm_cons, Permutation_middle.
  - f_equal; [|done]. rewrite Hother by done. unfold slot. by rewrite Hc1, lookup_insert_eq.
  - intros k' [Hne Hk']%not_elem_of_cons. rewrite Hother by done. unfold slot. by rewrite Hc1, lookup_insert_ne.
Qed.

(** *** Evictions *)
Definition evicted_ok (prot : gset OffloadKey) (L S : list OffloadKey) (ev : list OffloadKey) (m m' : Mgr) : Prop :=
  NoDup ev ∧ (∀ k, k ∈ ev → is_Some (slot m k) ∧ k ∉ L ∧ k ∉ S ∧ k ∉ prot) ∧
  ∀ k, slot m' k = if decide (k ∈ ev) then None else slot m k.

Lemma evict_none_ok prot L S m : evicted_ok prot L S [] m m.
Proof.
  split_and!; [constructor|by intros k ?%elem_of_nil|]. intros k. by rewrite decide_False by (by intros ?%elem_of_nil).
Qed.

Lemma evict_ok n prot L S X m : inv L S X m → 0 < n →
  wp (on_policy (policy_evict n prot)) (λ o m', match o with
    | None => m' = m
    | Some l => inv L S ((block_id <$> l.*2) ++ X) m' ∧ evicted_ok prot L S l.*1 m m' ∧ len l = n ∧
        get_num_free_blocks m' = get_num_free_blocks m
    end) m.
Proof.
  intros Hi Hn. unfold on_policy. rewrite wp_zoom.
  eapply wp_mono; [apply policy_evict_ok; [apply Hi|done]|]. intros [l|] p' [Hwf Hl].
  - destruct Hl as (Hnd & Hlen & Hl & Hc). fold (cached m) in Hc, Hl.
    set (m1 := set_policy p' m). assert (Hc1 : ∀ k, cached m1 !! k = if decide (k ∈ l.*1) then None else cached m !! k).
    { intros k. change (cached m1) with (contents p'). by rewrite Hc, lookup_delete_keys. }
    assert (Hin : ∀ k, k ∈ l.*1 → is_Some (cached m !! k) ∧ k ∉ L ∧ k ∉ S ∧ k ∉ prot).
    { intros k ([k' b] & -> & Hkb)%list_elem_of_fmap. destruct (Hl k' b Hkb) as (Hb & Hr & Hp). cbn [fst].
      rewrite (i_cnt _ _ _ _ Hi k' b Hb) in Hr. case_decide; [done|]. apply occ_0 in Hr. split_and!; [by exists b|done..]. }
    split_and!; [|split_and!|done|done].
    + destruct Hi as [H1 H2 H3 H4 [H5a H5b] H6 H7 H8]. split; try done.
      * change (cached m1) with (contents p'). rewrite Hc. change (num_allocated_blocks m1) with (num_allocated_blocks m).
        change (free_list m1) with (free_list m). rewrite <- H3, (slots_delete_keys l (cached m)); [|done|by intros k b Hkb; apply Hl].
        rewrite (Permutation_app_comm (block_id <$> l.*2) (slots _)), <- app_assoc. f_equiv.
        by rewrite !app_assoc, (Permutation_app_comm (free_list m)).
      * intros k b. rewrite Hc1. case_decide; [done|]. apply H4.
      * split; [done|]. intros k Hk. rewrite Hc1, decide_False; [by apply H5b|]. intros Hk'. by destruct (Hin k Hk') as (_ & ? & ? & _).
      * intros k Hk. rewrite Hc1, decide_False; [by apply H6|]. intros Hk'. by destruct (Hin k Hk') as (_ & ? & ? & _).
    + done.
    + intros k Hk. destruct (Hin k Hk) as (Hs & HL & HS & Hp). split_and!; [by apply slot_Some|done..].
    + intros k. unfold slot. rewrite Hc1. by case_decide.
  - subst p'. by destruct m.
Qed.

Lemma free_blocks_ok (l : list (OffloadKey * BlockStatus)) L S X m : inv L S ((block_id <$> l.*2) ++ X) m →
  wp (for_each l (λ kb : OffloadKey * BlockStatus, free_block kb.2)) (λ _ m', inv L S X m' ∧
    get_num_free_blocks m' = get_num_free_blocks m + len l ∧ ∀ k, slot m' k = slot m k) m.
Proof.
  revert m. induction l as [|[k b] l IH]; intros m Hi; [cbn; wp_step; split_and!; [done|lia|done]|].
  unfold free_block. cbn [for_each fst snd]. wp_step.
  assert (Hi' : inv L S ((block_id <$> l.*2) ++ X) (set_free (free_list m ++ [block_id b]) m)).
  { destruct Hi as [H1 H2 H3 H4 H5 H6 H7 H8]. split; try done. cbn [set_free free_list num_allocated_blocks].
    rewrite <- H3. change (cached (set_free _ m)) with (cached m). by rewrite <- !app_assoc. }
  eapply wp_mono; [apply (IH _ Hi')|]. intros _ m' (Hi'' & Hf & Hs). split_and!; [done| |done].
  rewrite Hf. unfold get_num_free_blocks. cbn [set_free free_list num_blocks num_allocated_blocks].
  rewrite length_app. cbn [length]. lia.
Qed.

(** *** The preparation of a store *)
Definition wanted (m : Mgr) (ks : list OffloadKey) : list OffloadKey :=
  filter (λ k, slot m k = None) (filter (λ k, counted m k = true) ks).

Record stored_ok (ks L S : list OffloadKey) (m : Mgr) (out : PrepareStoreOutput) (m' : Mgr) : Prop := {
  st_keys : keys_to_store out = wanted m ks;
  st_slots : slot m' <$> keys_to_store out = Some <$> store_spec out;
  st_evicted : ∀ k, k ∈ evicted_keys out →
    is_Some (slot m k) ∧ slot m' k = None ∧ k ∉ L ∧ k ∉ S ∧ (k ∈ ks → counted m k = false);
  st_number : NoDup (evicted_keys out) ∧ len (evicted_keys out) = Z.max 0 (len (wanted m ks) - get_num_free_blocks m);
  st_other : ∀ k, k ∉ keys_to_store out → k ∉ evicted_keys out → slot m' k = slot m k;
}.

Lemma prepare_store_ok ks m L S X : inv L S X m → NoDup ks →
  wp (prepare_store ks) (λ r m', match r with
    | None => m' = m ∧ get_num_free_blocks m < len (wanted m ks)
    | Some out => inv L (keys_to_store out ++ S) X m' ∧ stored_ok ks L S m out m'
    end) m.
Proof.
  intros Hi Hks. unfold prepare_store. wp_step. set (C := filter (λ k, counted m k = true) ks).
  assert (ET : filter (λ k, policy_get k (policy m) = None) C = wanted m ks).
  { unfold wanted. fold C. apply list_filter_iff. intros k. rewrite (get_cached k L S X m Hi). unfold slot. by rewrite fmap_None. }
  rewrite ET. set (T := wanted m ks). assert (HndT : NoDup T) by (by apply NoDup_filter, NoDup_filter).
  assert (HT : ∀ k, k ∈ T → slot m k = None ∧ k ∈ C) by (by intros k [? ?]%list_elem_of_filter).
  destruct (bool_decide_reflect (T = [])) as [E|Hne].
  { wp_step. split; [done|]. split; cbn; [done|done|by intros k ?%elem_of_nil| |done].
    split; [constructor|]. unfold get_num_free_blocks. pose proof (i_alloc _ _ _ _ Hi). fold T. rewrite E. cbn. lia. }
  assert (Hev : wp (if 0 <? len T - get_num_free_blocks m
                    then on_policy (policy_evict (len T - get_num_free_blocks m) (list_to_set C)) else mret (Some []))
    (λ o m', match o with
       | None => m' = m ∧ get_num_free_blocks m < len T
       | Some l => inv L S ((block_id <$> l.*2) ++ X) m' ∧ evicted_ok (list_to_set C) L S l.*1 m m' ∧
           len l = Z.max 0 (len T - get_num_free_blocks m) ∧ get_num_free_blocks m' = get_num_free_blocks m
       end) m).
  { destruct (Z.ltb_spec 0 (len T - get_num_free_blocks m)).
    - eapply wp_mono; [apply (evict_ok _ _ L S X m Hi); lia|]. intros [l|] m1 Hr; [|naive_solver lia].
      destruct Hr as (? & ? & Hl & ?). split_and!; [done|done|lia|done].
    - wp_step. split_and!; [done|apply evict_none_ok|cbn; lia|done]. }
  wp_step. eapply wp_mono; [exact Hev|]. clear Hev. intros [l|] m1 Hr; [|by wp_step].
  destruct Hr as (Hi1 & (Hev1 & Hev2 & Hev3) & Hlen1 & Hf1). wp_step.
  eapply wp_mono; [apply (free_blocks_ok l L S X m1 Hi1)|]. intros _ m2 (Hi2 & Hf2 & Hs2). wp_step.
  assert (Hadd : wp (if bool_decide (l.*1 = []) then mret tt else add_event (mkEvent l.*1 true)) (λ _ m', same_pool m2 m') m2).
  { destruct (bool_decide _); [by wp_step|apply add_event_ok]. }
  eapply wp_mono; [exact Hadd|]. clear Hadd. intros [] m3 Hsame. pose proof (inv_same L S X m2 m3 Hsame Hi2) as Hi3.
  assert (Hf3 : get_num_free_blocks m3 = get_num_free_blocks m2).
  { pose proof Hsame as (E0 & E1 & E2 & E3 & E4). unfold get_num_free_blocks. by rewrite E1, E2, E3. }
  wp_step. eapply wp_mono; [apply (allocate_blocks_ok T L S X m3 Hi3); lia|]. intros bs m4 (ids & -> & Hids & Hi4 & Hp4).
  wp_step. rewrite length_fmap, Hids. split; [apply Z.eqb_refl|].
  assert (Hs4 : ∀ k, slot m4 k = if decide (k ∈ l.*1) then None else slot m k).
  { intros k. rewrite <- Hev3, <- Hs2, <- (slot_same m2 m3 Hsame). unfold slot, cached. by rewrite Hp4. }
  eapply wp_mono; [apply (insert_ok T ids L S X m4 Hids Hi4 HndT)|].
  { intros k Hk. apply (fmap_None block_id). change (slot m4 k = None). rewrite Hs4. case_decide; [done|]. by apply HT. }
  intros _ m5 (Hi5 & Hs5 & Ho5). wp_step. split; [done|]. split; cbn [keys_to_store store_spec evicted_keys].
  - done.
  - rewrite Hs5. f_equal. rewrite <- list_fmap_compose. symmetry. rewrite <- (list_fmap_id ids) at 2. by apply list_fmap_ext.
  - intros k Hk. destruct (Hev2 k Hk) as (Ha & Hb & Hc & Hd). split_and!; [done| |done|done|].
    + rewrite Ho5; [by rewrite Hs4, decide_True|]. intros HkT. destruct (HT k HkT). by destruct Ha; congruence.
    + intros Hin. destruct (counted m k) eqn:Ec; [|done]. exfalso. apply Hd, elem_of_list_to_set, list_elem_of_filter. done.
  - split; [done|]. by rewrite length_fmap.
  - intros k Ha Hb. by rewrite Ho5, Hs4, decide_False.
Qed.

(** *** The other operations *)
Lemma lookup_ok k L S X m : inv L S X m →
  wp (lookup k) (λ r m', inv L S X m' ∧ (∀ k', slot m' k' = slot m k') ∧
    r = match slot m k with None => Some false | Some _ => if bool_decide (k ∈ S) then None else Some true end) m.
Proof.
  intros Hi. unfold lookup. wp_step. eapply wp_mono; [apply count_lookup_ok, Hi|]. intros [] m1 Hs. wp_step.
  pose proof (inv_same L S X m m1 Hs Hi) as Hi1. split_and!; [done|by apply slot_same|].
  rewrite (get_cached k L S X m1 Hi1). rewrite <- (slot_same m m1 Hs k). unfold slot. destruct (cached m1 !! k) as [b|] eqn:E; [|done].
  cbn. rewrite (ready_iff k b L S X m1 Hi1 E). repeat case_bool_decide; by simpl.
Qed.

Lemma touch_ok ks L S X m : inv L S X m → wp (touch ks) (λ _ m', inv L S X m' ∧ ∀ k, slot m' k = slot m k) m.
Proof.
  intros Hi. unfold touch, on_policy. rewrite wp_zoom. eapply wp_mono; [apply policy_touch_ok, Hi|]. intros _ p' [Hwf Hc].
  assert (Hc1 : cached (set_policy p' m) = cached m) by exact Hc. split.
  - destruct Hi as [H1 H2 H3 H4 H5 H6 H7 H8]. split; try done; by rewrite Hc1.
  - intros k. unfold slot. by rewrite Hc1.
Qed.

Lemma reset_ok L S X m : inv L S X m → wp reset_cache (λ _ m', inv [] [] [] m' ∧ ∀ k, slot m' k = None) m.
Proof.
  intros Hi. unfold reset_cache. wp_step. destruct (policy_clear_ok (policy m)) as [Hwf Hc]; [apply Hi|].
  destruct Hi as [H1 H2 H3 H4 H5 H6 H7 H8]. set (m1 := set_allocated _ _).
  assert (Hc1 : cached m1 = ∅) by exact Hc. split.
  - split; rewrite ?Hc1; try done; [cbn; lia|by split; [constructor|intros k ?%elem_of_nil]|by intros k ?%elem_of_nil].
  - intros k. unfold slot. by rewrite Hc1.
Qed.

Lemma complete_store_ok ks (success : bool) L S X m : inv L (ks ++ S) X m →
  wp (complete_store ks success) (λ _ m', inv L S X m' ∧
    (∀ k, k ∈ ks → slot m' k = if success then slot m k else None) ∧ ∀ k, k ∉ ks → slot m' k = slot m k) m.
Proof.
  intros Hi. unfold complete_store. wp_step. destruct success.
  - eapply wp_mono; [apply (mark_stored_ok ks m L S X Hi)|]. intros stored m1 (Hi1 & Hs1 & ->).
    destruct (bool_decide _); [by wp_step|]. eapply wp_mono; [apply add_event_ok|]. intros [] m2 Hs.
    pose proof (slot_same _ _ Hs) as Hs2. split_and!; [by eapply inv_same|..]; intros k _; by rewrite Hs2.
  - wp_step. eapply wp_mono; [apply (drop_failed_ok ks m L S X Hi)|]. intros _ m1 (Hi1 & Hd & Hs1). wp_step. done.
Qed.

(** ** The protocol of the caller

    Transfers in progress are jobs.  A job is prepared, and completes with the keys that it
    was prepared with, in any order; a reset forgets the jobs in progress. *)
Record jobs := mkJobs { loads : list (list OffloadKey); stores : list (list OffloadKey) }.
Inductive op :=
  | Lookup (key : OffloadKey)
  | PrepareLoad (keys : list OffloadKey)
  | CompleteLoad (job : nat) (keys : list OffloadKey)
  | Touch (keys : list OffloadKey)
  | PrepareStore (keys : list OffloadKey)
  | CompleteStore (job : nat) (keys : list OffloadKey) (success : bool)
  | ResetCache
  | TakeEvents.

Definition exec (o : op) : M Mgr (option PrepareStoreOutput) :=
  match o with
  | Lookup k => _ ← lookup k; mret None
  | PrepareLoad ks => _ ← prepare_load ks; mret None
  | CompleteLoad _ ks => _ ← complete_load ks; mret None
  | Touch ks => _ ← touch ks; mret None
  | PrepareStore ks => prepare_store ks
  | CompleteStore _ ks success => _ ← complete_store ks success; mret None
  | ResetCache => _ ← reset_cache; mret None
  | TakeEvents => _ ← take_events; mret None
  end.

Definition jobs_after (o : op) (r : option PrepareStoreOutput) (j : jobs) : jobs :=
  match o, r with
  | PrepareLoad ks, _ => mkJobs (loads j ++ [ks]) (stores j)
  | CompleteLoad i _, _ => mkJobs (delete i (loads j)) (stores j)
  | PrepareStore _, Some out =>
      if bool_decide (keys_to_store out = []) then j else mkJobs (loads j) (stores j ++ [keys_to_store out])
  | CompleteStore i _ _, _ => mkJobs (loads j) (delete i (stores j))
  | ResetCache, _ => mkJobs [] []
  | _, _ => j
  end.

(** A load covers blocks that [lookup] finds ready; the keys of a store are distinct; the
    loads in progress are not so many that a count would overflow. *)
Definition allowed (m : Mgr) (j : jobs) (o : op) : Prop :=
  match o with
  | PrepareLoad ks => (∀ k, k ∈ ks → (lookup k m).1 = Ok (Some true)) ∧ len (concat (loads j)) + len ks < 2 ^ 31
  | CompleteLoad i ks => ∃ job, loads j !! i = Some job ∧ ks ≡ₚ job
  | PrepareStore ks => NoDup ks
  | CompleteStore i ks _ => ∃ job, stores j !! i = Some job ∧ ks ≡ₚ job
  | _ => True
  end.

Inductive client (ev : bool) (threshold max_size : Z) : Mgr → jobs → Prop :=
  | client_init : client ev threshold max_size (init N ev threshold max_size) (mkJobs [] [])
  | client_step m j o r m' : client ev threshold max_size m j → allowed m j o → exec o m = (Ok r, m') →
      client ev threshold max_size m' (jobs_after o r j).

Definition in_transfer (j : jobs) (k : OffloadKey) : Prop := k ∈ concat (loads j) ∨ k ∈ concat (stores j).
Definition jobs_inv (j : jobs) : Mgr → Prop := inv (concat (loads j)) (concat (stores j)) [].

Lemma concat_delete (l : list (list OffloadKey)) i job : l !! i = Some job → concat l ≡ₚ job ++ concat (delete i l).
Proof. intros Hl. rewrite (delete_Permutation l i job Hl) at 1. done. Qed.

Lemma concat_snoc (l : list (list OffloadKey)) ks : concat (l ++ [ks]) ≡ₚ ks ++ concat l.
Proof. rewrite concat_app. cbn [concat]. rewrite app_nil_r. apply Permutation_app_comm. Qed.

Lemma exec_ok m j o : jobs_inv j m → allowed m j o →
  wp (exec o) (λ r m', jobs_inv (jobs_after o r j) m' ∧
    ∀ k, in_transfer j k → in_transfer (jobs_after o r j) k → slot m' k = slot m k) m.
Proof.
  unfold jobs_inv. intros Hi Ha. destruct o as [k|ks|i ks|ks|ks|i ks success| |]; cbn [exec allowed] in *; wp_step.
  - eapply wp_mono; [apply (lookup_ok k _ _ _ m Hi)|]. intros r m' (Hi' & Hs & _). by wp_step.
  - destruct Ha as [Hks Hlen]. eapply wp_mono; [apply (prepare_load_ok ks m _ _ _ Hi); [|done]|].
    + intros k Hk. pose proof (lookup_ok k _ _ _ m Hi) as Hl. apply wp_elim in Hl as (r & m' & E & _ & _ & Hr).
      pose proof (Hks k Hk) as Hk'. rewrite E in Hk'. injection Hk' as ->. destruct (slot m k) eqn:Es; [|done].
      case_bool_decide; [done|]. by split.
    + intros ids m' (Hi' & Hs & _). wp_step. cbn [jobs_after loads stores]. by rewrite concat_snoc.
  - destruct Ha as (job & Hj & Hp). rewrite (concat_delete _ _ _ Hj), <- Hp in Hi.
    eapply wp_mono; [apply (complete_load_ok ks m _ _ _ Hi)|]. intros _ m' [Hi' Hs]. by wp_step.
  - eapply wp_mono; [apply (touch_ok ks _ _ _ m Hi)|]. intros _ m' [Hi' Hs]. by wp_step.
  - eapply wp_mono; [apply (prepare_store_ok ks m _ _ _ Hi Ha)|]. intros [out|] m'; [|by intros [-> _]].
    intros [Hi' Hs]. split.
    { cbn [jobs_after]. case_bool_decide as E; [by rewrite E in Hi'|]. cbn [loads stores]. by rewrite concat_snoc. }
    intros k Hk _. apply (st_other _ _ _ _ _ _ Hs).
    + rewrite (st_keys _ _ _ _ _ _ Hs). unfold wanted. intros [Hn _]%list_elem_of_filter.
      assert (Hc : is_Some (cached m !! k)) by (destruct Hk as [Hk|Hk]; [by apply (i_loads _ _ _ _ Hi)|by apply (i_stores _ _ _ _ Hi)]).
      apply slot_Some in Hc. rewrite Hn in Hc. by destruct Hc.
    + intros He. destruct (st_evicted _ _ _ _ _ _ Hs k He) as (_ & _ & H1 & H2 & _). by destruct Hk.
  - destruct Ha as (job & Hj & Hp). pose proof Hi as Hi0. rewrite (concat_delete _ _ _ Hj), <- Hp in Hi.
    eapply wp_mono; [apply (complete_store_ok ks success _ _ _ m Hi)|]. intros _ m' (Hi' & Hd & Hs). wp_step. split; [done|].
    intros k _ Hk. apply Hs. intros Hks. destruct Hk as [Hk|Hk].
    + destruct (i_loads _ _ _ _ Hi k Hk) as [_ Hn]. apply Hn. apply elem_of_app. by left.
    + destruct (i_stores _ _ _ _ Hi) as [Hnd _]. apply NoDup_app in Hnd as (_ & Hnd & _). by apply (Hnd k Hks).
  - eapply wp_mono; [apply (reset_ok _ _ _ m Hi)|]. intros _ m' [Hi' _]. wp_step. split; [done|].
    intros k _ [Hk|Hk]; by apply elem_of_nil in Hk.
  - unfold take_events. wp_step. destruct (events m) as [l|]; wp_step; [|done]. split; [|done]. by eapply (inv_same _ _ _ m).
Qed.

Lemma client_inv ev threshold max_size m j : 0 ≤ N < 2 ^ 53 → 0 < max_size → client ev threshold max_size m j → jobs_inv j m.
Proof.
  intros Hn Hmax. induction 1 as [|m j o r m' Hc IH Ha E].
  - destruct (policy_init_ok N Hn) as [Hwf Hc]. assert (Hc1 : cached (init N ev threshold max_size) = ∅) by exact Hc.
    split; rewrite ?Hc1; try done; [cbn; lia|by split; [constructor|intros k ?%elem_of_nil]|by intros k ?%elem_of_nil].
  - pose proof (exec_ok m j o IH Ha) as Hw. unfold wp in Hw. rewrite E in Hw. apply Hw.
Qed.
End laws.

(** ** What the protocol guarantees *)
Section guarantees.
Context {P : Type} `{PolicyLaws P} (N : Z) (ev : bool) (threshold max_size : Z).
Context (HN : 0 ≤ N < 2 ^ 53) (Hmax : 0 < max_size).
Abbreviation Mgr := (CPUOffloadingManager P).
Abbreviation client := (client N ev threshold max_size).

(** C18. No call that the protocol allows raises: no assertion of the manager fails, no list
    of free slots is empty when a slot is taken, no key is missing from a dictionary. *)
Theorem offload_never_raises (m : Mgr) j o : client m j → allowed m j o → ∃ r m', exec o m = (Ok r, m').
Proof.
  intros Hc Ha. pose proof (exec_ok N m j o (client_inv _ _ _ _ m j HN Hmax Hc) Ha) as Hw.
  apply wp_elim in Hw as (r & m' & E & _). by exists r, m'.
Qed.

(** C19. Two blocks never share a slot, every slot is one of the [N] slots, and none leaks:
    the slots of the blocks, the free list and the fresh slots are together all of them.  A
    block that is being written counts [-1]; another one counts the loads that read it. *)
Theorem offload_slots (m : Mgr) j : client m j →
  NoDup (slots (cached m) ++ free_list m) ∧
  (∀ id, id ∈ slots (cached m) → 0 ≤ id < N) ∧
  len (slots (cached m)) + get_num_free_blocks m = N ∧
  ∀ k b, cached m !! k = Some b →
    ref_cnt b = if decide (k ∈ concat (stores j)) then -1 else occ k (concat (loads j)).
Proof.
  intros Hc. pose proof (client_inv _ _ _ _ m j HN Hmax Hc) as Hi. pose proof (i_alloc _ _ _ _ _ Hi) as [HNm Ha].
  pose proof (i_slots _ _ _ _ _ Hi) as Hs. rewrite app_nil_r in Hs. split_and!.
  - rewrite Hs. apply NoDup_seqZ.
  - intros id Hid. assert (Hin : id ∈ seqZ 0 (num_allocated_blocks m)) by (rewrite <- Hs; apply elem_of_app; by left).
    apply elem_of_seqZ in Hin. lia.
  - apply Permutation_length in Hs. rewrite length_app, length_seqZ in Hs. unfold get_num_free_blocks. lia.
  - apply Hi.
Qed.

(** C17. A block that a transfer reads or writes has a slot, and keeps it as long as
    the transfer is in progress, whatever operation the protocol allows comes next:
    it is not evicted, and gets no other slot. The exception is a reset, which ends
    all transfers in the protocol and takes the slots of all blocks away, those in
    transfer included (the connector flushes their jobs). *)
Theorem transfer_keeps_slot (m : Mgr) j o r m' k : client m j → allowed m j o → exec o m = (Ok r, m') → in_transfer j k →
  is_Some (slot m k) ∧ (in_transfer (jobs_after o r j) k → slot m' k = slot m k) ∧
  (o = ResetCache → jobs_after o r j = mkJobs [] [] ∧ slot m' k = None).
Proof.
  intros Hc Ha E Hk. pose proof (client_inv _ _ _ _ m j HN Hmax Hc) as Hi. split_and!.
  - apply slot_Some. destruct Hk as [Hk|Hk]; [by apply (i_loads _ _ _ _ _ Hi)|by apply (i_stores _ _ _ _ _ Hi)].
  - intros Hk'. pose proof (exec_ok N m j o Hi Ha) as Hw. unfold wp in Hw. rewrite E in Hw. by apply Hw.
  - intros ->. split; [done|]. pose proof (reset_ok N _ _ _ m Hi) as Hw. apply wp_elim in Hw as ([] & m1 & E1 & _ & Hs).
    cbn [exec] in E. unfold mbind, M_bind in E. rewrite E1 in E. by injection E as _ <-.
Qed.

(** C20. A store: it covers exactly the keys that are wanted and not yet cached, each with a
    slot of its own; it evicts as many blocks as slots are missing, none of them in
    transfer and none of the wanted keys; nothing else moves.  It is refused only when slots
    are missing, and then it changes nothing. *)
Theorem prepare_store_effect (m : Mgr) j ks : client m j → NoDup ks → ∃ r m', prepare_store ks m = (Ok r, m') ∧
  match r with
  | None => m' = m ∧ get_num_free_blocks m < len (wanted m ks)
  | Some out => stored_ok ks (concat (loads j)) (concat (stores j)) m out m'
  end.
Proof.
  intros Hc Hks. pose proof (prepare_store_ok N ks m _ _ _ (client_inv _ _ _ _ m j HN Hmax Hc) Hks) as Hw.
  apply wp_elim in Hw as (r & m' & E & Hr). exists r, m'. split; [done|]. by destruct r; apply Hr.
Qed.

(** C21. A block that is being stored is not ready; when the store completes it is, and when
    the store fails the block is gone. *)
Theorem store_then_lookup (m m1 : Mgr) j ks out k : client m j → NoDup ks → prepare_store ks m = (Ok (Some out), m1) →
  k ∈ keys_to_store out →
  (lookup k m1).1 = Ok None ∧
  ∀ success, ∃ m2, complete_store (keys_to_store out) success m1 = (Ok tt, m2) ∧ (lookup k m2).1 = Ok (Some success).
Proof.
  intros Hc Hks E Hk. pose proof (prepare_store_ok N ks m _ _ _ (client_inv _ _ _ _ m j HN Hmax Hc) Hks) as Hw.
  unfold wp in Hw. rewrite E in Hw. destruct Hw as [Hi Hs].
  assert (Hk1 : is_Some (slot m1 k)) by (apply slot_Some, (i_stores _ _ _ _ _ Hi), elem_of_app; by left). split.
  - pose proof (lookup_ok N k _ _ _ m1 Hi) as Hl. apply wp_elim in Hl as (r & m' & El & _ & _ & ->). rewrite El.
    destruct Hk1 as [id ->]. rewrite bool_decide_eq_true_2; [done|]. apply elem_of_app. by left.
  - intros success. pose proof (complete_store_ok N _ success _ _ _ m1 Hi) as Hcs.
    apply wp_elim in Hcs as ([] & m2 & E2 & Hi2 & Hd & _). exists m2. split; [done|].
    pose proof (lookup_ok N k _ _ _ m2 Hi2) as Hl. apply wp_elim in Hl as (r & m' & El & _ & _ & ->). rewrite El. rewrite (Hd k Hk).
    destruct success; [|done]. destruct Hk1 as [id ->]. rewrite bool_decide_eq_false_2; [done|].
    destruct (i_stores _ _ _ _ _ Hi) as [Hnd _]. apply NoDup_app in Hnd as (_ & Hnd & _). by apply Hnd.
Qed.
End guarantees.

(** C22. With ARC, the target size of T1 stays convertible to an integer between 0 and the
    capacity, whatever floating-point increments it has seen; the ghost lists stay within
    the capacity, and no key is in two of the four dictionaries. *)
Theorem arc_bounded N ev threshold max_size (m : CPUOffloadingManager ARC.ARCCachePolicy) j :
  0 ≤ N < 2 ^ 53 → 0 < max_size → client N ev threshold max_size m j →
  let p := policy m in
  (∃ t, num_int (ARC.target_t1_size p) = Ok t ∧ 0 ≤ t ≤ ARC.cache_capacity p) ∧
  len (ARC.b1 p) ≤ ARC.cache_capacity p ∧ len (ARC.b2 p) ≤ ARC.cache_capacity p ∧
  NoDup ((ARC.t1 p).*1 ++ (ARC.t2 p).*1 ++ (ARC.b1 p).*1 ++ (ARC.b2 p).*1).
Proof.
  intros HN Hmax Hc p. destruct (i_wf _ _ _ _ _ (client_inv _ _ _ _ m j HN Hmax Hc)) as [[Hnd Hcap Ht] H1 H2].
  split_and!; [by apply num_int_below|done..].
Qed.

(** ** Runs *)
Section runs.
Context {P : Type} `{PolicyLaws P}.

Definition allowedb (m : CPUOffloadingManager P) (j : jobs) (o : op) : bool :=
  match o with
  | PrepareLoad ks => forallb (λ k, match (lookup k m).1 with Ok (Some true) => true | _ => false end) ks &&
      (len (concat (loads j)) + len ks <? 2 ^ 31)
  | CompleteLoad i ks => bool_decide (loads j !! i = Some ks)
  | PrepareStore ks => bool_decide (NoDup ks)
  | CompleteStore i ks _ => bool_decide (stores j !! i = Some ks)
  | _ => true
  end.

Fixpoint run_ops (ops : list op) (m : CPUOffloadingManager P) (j : jobs) : option (CPUOffloadingManager P * jobs) :=
  match ops with
  | [] => Some (m, j)
  | o :: ops =>
      if allowedb m j o
      then match exec o m with (Ok r, m') => run_ops ops m' (jobs_after o r j) | _ => None end
      else None
  end.

Lemma allowedb_ok m j o : allowedb m j o = true → allowed m j o.
Proof.
  destruct o as [k|ks|i ks|ks|ks|i ks success| |]; simpl; try done.
  - intros [Hf Hl]%andb_prop. split; [|lia].
    intros k Hk. pose proof (proj1 (forallb_forall _ _) Hf k ltac:(by apply list_elem_of_In)) as Hx. simpl in Hx.
    by destruct (lookup k m) as [[[[]|]|] m1].
  - intros H1%bool_decide_eq_true. by exists ks.
  - intros H1%bool_decide_eq_true. done.
  - intros H1%bool_decide_eq_true. by exists ks.
Qed.

Lemma run_client N ev threshold max_size ops m j m' j' : client N ev threshold max_size m j →
  run_ops ops m j = Some (m', j') → client N ev threshold max_size m' j'.
Proof.
  revert m j. induction ops as [|o ops IH]; intros m j Hc; simpl; [by intros [= <- <-]|].
  destruct (allowedb m j o) eqn:Ea; [|done]. destruct (exec o m) as [[r|e] m1] eqn:E; [|done].
  apply IH. eapply client_step; [done|by apply allowedb_ok|done].
Qed.
End runs.

(** ** Examples *)
Module Demo.
Definition ka : OffloadKey := [1].
Definition kb : OffloadKey := [2].
Definition kc : OffloadKey := [3].
Definition kd : OffloadKey := [4].
Abbreviation Lru := (CPUOffloadingManager LRU.LRUCachePolicy).
Abbreviation Arc := (CPUOffloadingManager ARC.ARCCachePolicy).

(** Two slots; two blocks stored, one of them being read *)
Definition ops : list op := [PrepareStore [ka; kb]; CompleteStore 0 [ka; kb] true; Touch [kb]; PrepareLoad [ka]].
Definition final {P} `{CachePolicy P} (ops : list op) (m : CPUOffloadingManager P) : CPUOffloadingManager P * jobs :=
  default (m, mkJobs [] []) (run_ops ops m (mkJobs [] [])).
Definition lru : Lru := (final ops (init 2 true 1 10)).1.
Definition lru_jobs : jobs := (final ops (init (P := LRU.LRUCachePolicy) 2 true 1 10)).2.

Lemma lru_client : client 2 true 1 10 lru lru_jobs.
Proof. apply (run_client 2 true 1 10 ops (init 2 true 1 10) (mkJobs [] [])); [constructor|by vm_compute]. Qed.

Example lru_state : LRU.blocks (policy lru) = [(ka, mkBlock 1 0); (kb, mkBlock 0 1)] ∧ lru_jobs = mkJobs [[ka]] [].
Proof. by vm_compute. Qed.

(** ARC: [a] was evicted and asked for again, twice, so that the target size of T1 is 2; T1
    holds [b], which is idle, and T2 [c], which is being read. *)
Definition arc_ops : list op := [PrepareStore [ka; kb]; CompleteStore 0 [ka; kb] true; PrepareStore [kc];
  CompleteStore 0 [kc] true; Touch [ka]; Touch [ka]; Touch [kc]; PrepareLoad [kc]].
Definition arc : Arc := (final arc_ops (init 2 false 1 10)).1.
Definition arc_jobs : jobs := (final arc_ops (init (P := ARC.ARCCachePolicy) 2 false 1 10)).2.

Lemma arc_client : client 2 false 1 10 arc arc_jobs.
Proof. apply (run_client 2 false 1 10 arc_ops (init 2 false 1 10) (mkJobs [] [])); [constructor|by vm_compute]. Qed.

(** Then a store is refused, although the block [b] is idle and not among its keys. *)
Theorem arc_refuses_with_idle_block : (prepare_store [kd] arc).1 = Ok None ∧ policy_get kb (policy arc) = Some (mkBlock 0 1).
Proof. by vm_compute. Qed.

(** With a store threshold and a tracker of one key: [a] is stored, the tracker forgets it
    for [b], and the store of both, which filters [a] out, evicts it. *)
Definition threshold_ops : list op := [Lookup ka; Lookup ka; PrepareStore [ka]; CompleteStore 0 [ka] true; Lookup kb; Lookup kb].
Definition threshold : Lru := (final threshold_ops (init 1 false 2 1)).1.

Theorem store_evicts_its_input : (lookup ka threshold).1 = Ok (Some true) ∧
  (prepare_store [ka; kb] threshold).1 = Ok (Some (mkStoreOutput [kb] [0] [ka])).
Proof. by vm_compute. Qed.
End Demo.

(** ** Witnesses *)
Section witnesses.
Import Demo.

Lemma offload_never_raises_witness : ∃ r m', exec (PrepareStore [kc]) lru = (Ok r, m').
Proof.
  apply (offload_never_raises 2 true 1 10 ltac:(lia) ltac:(lia) lru lru_jobs (PrepareStore [kc]) lru_client).
  apply NoDup_singleton.
Defined.

Lemma offload_slots_witness : NoDup (slots (cached lru) ++ free_list lru) ∧
  (∀ id, id ∈ slots (cached lru) → 0 ≤ id < 2) ∧ len (slots (cached lru)) + get_num_free_blocks lru = 2 ∧
  ∀ k b, cached lru !! k = Some b → ref_cnt b = if decide (k ∈ concat (stores lru_jobs)) then -1 else occ k (concat (loads lru_jobs)).
Proof. apply (offload_slots 2 true 1 10 ltac:(lia) ltac:(lia) lru lru_jobs lru_client). Defined.

Lemma transfer_keeps_slot_witness :
  (is_Some (slot lru ka) ∧ slot (exec (PrepareStore [kc]) lru).2 ka = slot lru ka) ∧ slot (exec ResetCache lru).2 ka = None.
Proof.
  assert (Hk : in_transfer lru_jobs ka) by (left; apply (bool_decide_unpack (ka ∈ concat (loads lru_jobs))); vm_compute; exact I).
  split.
  - destruct (transfer_keeps_slot 2 true 1 10 ltac:(lia) ltac:(lia) lru lru_jobs (PrepareStore [kc])
      (Some (mkStoreOutput [kc] [1] [kb])) (exec (PrepareStore [kc]) lru).2 ka lru_client) as (Hs & Hkept & _);
      [apply NoDup_singleton|vm_compute; reflexivity|exact Hk|]. split; [exact Hs|]. apply Hkept.
    left. apply (bool_decide_unpack (ka ∈ concat (loads (jobs_after (PrepareStore [kc]) (Some (mkStoreOutput [kc] [1] [kb])) lru_jobs)))).
    vm_compute. exact I.
  - apply (transfer_keeps_slot 2 true 1 10 ltac:(lia) ltac:(lia) lru lru_jobs ResetCache None (exec ResetCache lru).2 ka lru_client);
      [exact I|vm_compute; reflexivity|exact Hk|reflexivity].
Defined.

Lemma prepare_store_effect_witness : ∃ r m', prepare_store [kc] lru = (Ok r, m') ∧
  match r with
  | None => m' = lru ∧ get_num_free_blocks lru < len (wanted lru [kc])
  | Some out => stored_ok [kc] (concat (loads lru_jobs)) (concat (stores lru_jobs)) lru out m'
  end.
Proof.
  apply (prepare_store_effect 2 true 1 10 ltac:(lia) ltac:(lia) lru lru_jobs [kc] lru_client). apply NoDup_singleton.
Defined.

Lemma store_then_lookup_witness : let m1 := (prepare_store [kc] lru).2 in (lookup kc m1).1 = Ok None ∧
  ∀ success, ∃ m2, complete_store [kc] success m1 = (Ok tt, m2) ∧ (lookup kc m2).1 = Ok (Some success).
Proof.
  intros m1. apply (store_then_lookup 2 true 1 10 ltac:(lia) ltac:(lia) lru m1 lru_jobs [kc] (mkStoreOutput [kc] [1] [kb]) kc lru_client).
  - apply NoDup_singleton.
  - vm_compute. reflexivity.
  - left.
Defined.

Lemma arc_bounded_witness : let p := policy arc in
  (∃ t, num_int (ARC.target_t1_size p) = Ok t ∧ 0 ≤ t ≤ ARC.cache_capacity p) ∧
  len (ARC.b1 p) ≤ ARC.cache_capacity p ∧ len (ARC.b2 p) ≤ ARC.cache_capacity p ∧
  NoDup ((ARC.t1 p).*1 ++ (ARC.t2 p).*1 ++ (ARC.b1 p).*1 ++ (ARC.b2 p).*1).
Proof. apply (arc_bounded 2 false 1 10 arc arc_jobs); [lia|lia|exact arc_client]. Defined.
End witnesses.
