(* ===== verification/OffloadConnector.v ===== *)
(** * The scheduler's side of the offloading connector

    [vllm/distributed/kv_transfer/kv_connector/v1/offloading/scheduler.py]: which blocks of
    a request are looked up, loaded and stored, and the jobs in progress.  The manager of
    the offloaded blocks is any instance of [OffloadingManager]; the one of [CPUOffload] is
    an instance. *)
From S2P Require Import Prelude KVSpec FreeQueue Request BlockHash BlockPool PyFloat OffloadPolicy CPUOffload SchedState.

(** ** The manager *)
Inductive OffloadPolicy := BLOCK_LEVEL | REQUEST_LEVEL.

Class OffloadingManager (S : Type) := {
  mg_lookup : OffloadKey → M S (option bool);
  mg_prepare_load : list OffloadKey → M S (list Z);
  mg_touch : list OffloadKey → M S ();
  mg_complete_load : list OffloadKey → M S ();
  mg_prepare_store : list OffloadKey → M S (option PrepareStoreOutput);
  mg_complete_store : list OffloadKey → bool → M S ();
  mg_on_new_request : string → M S OffloadPolicy;
  mg_on_request_finished : string → M S ();
  mg_on_schedule_end : M S ();
  mg_reset_cache : M S ();
  mg_take_events : M S (list OffloadingEvent);
}.

#[global] Instance CPU_manager {P} `{CachePolicy P} : OffloadingManager (CPUOffloadingManager P) := {|
  mg_lookup := CPUOffload.lookup; mg_prepare_load := CPUOffload.prepare_load; mg_touch := CPUOffload.touch;
  mg_complete_load := CPUOffload.complete_load; mg_prepare_store := CPUOffload.prepare_store;
  mg_complete_store := CPUOffload.complete_store; mg_on_new_request := λ _, mret BLOCK_LEVEL;
  mg_on_request_finished := λ _, mret tt; mg_on_schedule_end := mret tt;
  mg_reset_cache := CPUOffload.reset_cache; mg_take_events := CPUOffload.take_events |}.

Module Connector.
(** ** Keys *)
Definition make_offload_key (block_hash : bytes) (group_idx : Z) : res OffloadKey :=
  g ← to_bytes_4 group_idx; Ok (block_hash ++ g).
Definition get_offload_block_hash (key : OffloadKey) : bytes := take (length key - 4) key.
Definition get_offload_group_idx (key : OffloadKey) : Z := from_bytes (drop (length key - 4) key).

(** ** Configuration *)
Record GroupOffloadConfig := mkGroupConfig {
  group_idx : Z;
  gpu_block_size : Z;
  offloaded_block_size : Z;
  hash_block_size_factor : Z;
  sliding_window_size_in_blocks : option Z;
  alignment_block_count : option Z;
}.
Record SchedulerOffloadConfig := mkOffloadConfig {
  kv_group_configs : list GroupOffloadConfig;
  block_size_factor : Z;
  num_workers : Z;
  offload_prompt_only : bool;
}.

Definition get_sliding_window_size_in_blocks (spec : KVCacheSpec) (offloaded_block_size : Z) : res (option Z) :=
  match kind spec with
  | SlidingWindow w _ => if 0 <? w then Ok (Some (cdiv w offloaded_block_size)) else Raise AssertionError
  | Mamba _ _ => Ok (Some 1)
  | FullAttention _ => Ok None
  | _ => Raise AssertionError
  end.

(** The attributes of [OffloadingSpec]: per group, its specification and block size *)
Record OffloadingSpec := mkOffloadingSpec {
  os_groups : list (KVCacheSpec * Z);
  os_block_size_factor : Z;
  os_hash_block_size : Z;
  os_world_size : Z;
  os_offload_prompt_only : bool;
  os_enable_prefix_caching : bool;
}.

Definition alignment_count (alignment_tokens : option Z) (size : Z) (window : option Z) : option Z :=
  match alignment_tokens, window with
  | Some a, Some w =>
      if a <=? size then None
      else let per_segment := a / size in if per_segment <=? w then None else Some per_segment
  | _, _ => None
  end.

Fixpoint full_sizes (spec : OffloadingSpec) (groups : list (KVCacheSpec * Z)) (sizes : gset Z) : res (gset Z) :=
  match groups with
  | [] => Ok sizes
  | (s, b) :: groups =>
      let size := b * os_block_size_factor spec in
      sw ← get_sliding_window_size_in_blocks s size;
      full_sizes spec groups (match sw with None => sizes ∪ {[size]} | Some _ => sizes end)
  end.
Fixpoint group_configs (spec : OffloadingSpec) (alignment_tokens : option Z) (i : Z) (groups : list (KVCacheSpec * Z))
    : res (list GroupOffloadConfig) :=
  match groups with
  | [] => Ok []
  | (s, b) :: groups =>
      let size := b * os_block_size_factor spec in
      sw ← get_sliding_window_size_in_blocks s size;
      l ← group_configs spec alignment_tokens (i + 1) groups;
      Ok (mkGroupConfig i b size (size / os_hash_block_size spec) sw (alignment_count alignment_tokens size sw) :: l)
  end.
Definition from_spec (spec : OffloadingSpec) : res SchedulerOffloadConfig :=
  sizes ← full_sizes spec (os_groups spec) ∅;
  let alignment_tokens := match elements sizes with [a] => Some a | _ => None end in
  l ← group_configs spec alignment_tokens 0 (os_groups spec);
  Ok (mkOffloadConfig l (os_block_size_factor spec) (os_world_size spec) (os_offload_prompt_only spec)).

(** ** State *)
Record RequestGroupState := mkGroupState {
  offload_keys : list OffloadKey;
  block_ids : list Z;
  next_stored_block_idx : Z;
  num_hit_blocks : Z;
}.
Definition gs_set_keys v g := mkGroupState v (block_ids g) (next_stored_block_idx g) (num_hit_blocks g).
Definition gs_set_blocks v g := mkGroupState (offload_keys g) v (next_stored_block_idx g) (num_hit_blocks g).
Definition gs_set_next v g := mkGroupState (offload_keys g) (block_ids g) v (num_hit_blocks g).
Definition gs_set_hits v g := mkGroupState (offload_keys g) (block_ids g) (next_stored_block_idx g) v.

(** [RequestOffloadState]; the request is the object of its name, whose attributes the
    operations get as they are at the time of the call. *)
Record RequestOffloadState := mkRequestState {
  offloading_policy : OffloadPolicy;
  group_states : list RequestGroupState;
  max_offload_tokens : option Z;
  num_locally_computed_tokens : Z;
  transfer_jobs : gset Z;
}.
Definition rs_set_groups v r := mkRequestState (offloading_policy r) v (max_offload_tokens r) (num_locally_computed_tokens r) (transfer_jobs r).
Definition rs_set_local v r := mkRequestState (offloading_policy r) (group_states r) (max_offload_tokens r) v (transfer_jobs r).
Definition rs_set_jobs v r := mkRequestState (offloading_policy r) (group_states r) (max_offload_tokens r) (num_locally_computed_tokens r) v.

Record TransferJobStatus := mkJobStatus {
  js_req_id : string;
  pending_count : Z;
  js_keys : gset OffloadKey;
  is_store : bool;
  non_sliding_window_block_ids : option (list Z);
  sliding_window_block_ids : option (list Z);
}.
Definition js_set_pending v j := mkJobStatus (js_req_id j) v (js_keys j) (is_store j)
  (non_sliding_window_block_ids j) (sliding_window_block_ids j).

(** A side of a transfer: the slots of the manager, or blocks of the device *)
Inductive LoadStoreSpec := ManagerSpec (ids : list Z) | GPUSpec (ids group_sizes block_indices : list Z).
Record TransferJob := mkTransferJob { tj_req_id : string; tj_src : LoadStoreSpec; tj_dst : LoadStoreSpec }.

Record OffloadingConnectorScheduler (S : Type) := mkConnector {
  config : SchedulerOffloadConfig;
  manager : S;
  sliding_window_groups : list nat;
  lookup_groups : list nat;
  req_status : list (string * RequestOffloadState);
  current_batch_load_jobs : list (Z * TransferJob);
  current_batch_jobs_to_flush : gset Z;
  current_batch_allocated_block_ids : gset Z;
  blocks_being_loaded : option (gset OffloadKey);
  job_counter : Z;
  stale_job_threshold : Z;
  jobs_in_progress : list (Z * TransferJobStatus);
  block_id_to_pending_jobs : list (Z * gset Z);
}.
Arguments mkConnector {_}. Arguments config {_}. Arguments manager {_}. Arguments sliding_window_groups {_}.
Arguments lookup_groups {_}. Arguments req_status {_}. Arguments current_batch_load_jobs {_}.
Arguments current_batch_jobs_to_flush {_}. Arguments current_batch_allocated_block_ids {_}.
Arguments blocks_being_loaded {_}. Arguments job_counter {_}. Arguments stale_job_threshold {_}.
Arguments jobs_in_progress {_}. Arguments block_id_to_pending_jobs {_}.

Section setters.
Context {S : Type}.
Implicit Types c : OffloadingConnectorScheduler S.
Definition set_manager v c : OffloadingConnectorScheduler S := mkConnector (config c) v (sliding_window_groups c) (lookup_groups c) (req_status c)
  (current_batch_load_jobs c) (current_batch_jobs_to_flush c) (current_batch_allocated_block_ids c) (blocks_being_loaded c)
  (job_counter c) (stale_job_threshold c) (jobs_in_progress c) (block_id_to_pending_jobs c).
Definition set_req_status v c : OffloadingConnectorScheduler S := mkConnector (config c) (manager c) (sliding_window_groups c) (lookup_groups c) v
  (current_batch_load_jobs c) (current_batch_jobs_to_flush c) (current_batch_allocated_block_ids c) (blocks_being_loaded c)
  (job_counter c) (stale_job_threshold c) (jobs_in_progress c) (block_id_to_pending_jobs c).
Definition set_load_jobs v c : OffloadingConnectorScheduler S := mkConnector (config c) (manager c) (sliding_window_groups c) (lookup_groups c) (req_status c)
  v (current_batch_jobs_to_flush c) (current_batch_allocated_block_ids c) (blocks_being_loaded c)
  (job_counter c) (stale_job_threshold c) (jobs_in_progress c) (block_id_to_pending_jobs c).
Definition set_flush v c : OffloadingConnectorScheduler S := mkConnector (config c) (manager c) (sliding_window_groups c) (lookup_groups c) (req_status c)
  (current_batch_load_jobs c) v (current_batch_allocated_block_ids c) (blocks_being_loaded c)
  (job_counter c) (stale_job_threshold c) (jobs_in_progress c) (block_id_to_pending_jobs c).
Definition set_allocated_ids v c : OffloadingConnectorScheduler S := mkConnector (config c) (manager c) (sliding_window_groups c) (lookup_groups c) (req_status c)
  (current_batch_load_jobs c) (current_batch_jobs_to_flush c) v (blocks_being_loaded c)
  (job_counter c) (stale_job_threshold c) (jobs_in_progress c) (block_id_to_pending_jobs c).
Definition set_being_loaded v c : OffloadingConnectorScheduler S := mkConnector (config c) (manager c) (sliding_window_groups c) (lookup_groups c) (req_status c)
  (current_batch_load_jobs c) (current_batch_jobs_to_flush c) (current_batch_allocated_block_ids c) v
  (job_counter c) (stale_job_threshold c) (jobs_in_progress c) (block_id_to_pending_jobs c).
Definition set_job_counter v c : OffloadingConnectorScheduler S := mkConnector (config c) (manager c) (sliding_window_groups c) (lookup_groups c) (req_status c)
  (current_batch_load_jobs c) (current_batch_jobs_to_flush c) (current_batch_allocated_block_ids c) (blocks_being_loaded c)
  v (stale_job_threshold c) (jobs_in_progress c) (block_id_to_pending_jobs c).
Definition set_stale v c : OffloadingConnectorScheduler S := mkConnector (config c) (manager c) (sliding_window_groups c) (lookup_groups c) (req_status c)
  (current_batch_load_jobs c) (current_batch_jobs_to_flush c) (current_batch_allocated_block_ids c) (blocks_being_loaded c)
  (job_counter c) v (jobs_in_progress c) (block_id_to_pending_jobs c).
Definition set_jobs v c : OffloadingConnectorScheduler S := mkConnector (config c) (manager c) (sliding_window_groups c) (lookup_groups c) (req_status c)
  (current_batch_load_jobs c) (current_batch_jobs_to_flush c) (current_batch_allocated_block_ids c) (blocks_being_loaded c)
  (job_counter c) (stale_job_threshold c) v (block_id_to_pending_jobs c).
Definition set_pending v c : OffloadingConnectorScheduler S := mkConnector (config c) (manager c) (sliding_window_groups c) (lookup_groups c) (req_status c)
  (current_batch_load_jobs c) (current_batch_jobs_to_flush c) (current_batch_allocated_block_ids c) (blocks_being_loaded c)
  (job_counter c) (stale_job_threshold c) (jobs_in_progress c) v.
End setters.

(** The constructor *)
Definition insert_by_window (c : SchedulerOffloadConfig) (i : nat) (l : list nat) : list nat :=
  let w i := default 0 (kv_group_configs c !! i ≫= sliding_window_size_in_blocks) in
  let fix go l := match l with [] => [i] | j :: l' => if w j <? w i then i :: l else j :: go l' end in go l.
(** [sort(reverse=True)] keeps the order of equal elements. *)
Definition sort_by_window (c : SchedulerOffloadConfig) (l : list nat) : list nat :=
  foldl (λ acc i, insert_by_window c i acc) [] l.
Definition groups_where (f : GroupOffloadConfig → bool) (c : SchedulerOffloadConfig) : list nat :=
  filter (λ i, (f <$> kv_group_configs c !! i) = Some true) (seq 0 (length (kv_group_configs c))).
Definition has_window (g : GroupOffloadConfig) : bool := bool_decide (is_Some (sliding_window_size_in_blocks g)).
Definition init {S} (spec : OffloadingSpec) (m : S) : res (OffloadingConnectorScheduler S) :=
  c ← from_spec spec;
  let sliding := sort_by_window c (groups_where has_window c) in
  Ok (mkConnector c m sliding (groups_where (λ g, negb (has_window g)) c ++ sliding) [] [] ∅ ∅
        (if os_enable_prefix_caching spec then Some ∅ else None) 0 0 [] []).

(** ** The state of a request *)

(** [islice(l, start, None, step)] *)
Fixpoint every {A} (skip step : nat) (l : list A) : list A :=
  match l with
  | [] => []
  | x :: l' => match skip with O => x :: every (step - 1) step l' | Datatypes.S n => every n step l' end
  end.
Definition islice {A} (l : list A) (start step : Z) : res (list A) :=
  if (start <? 0) || (step <? 1) then Raise ValueError else Ok (every (Z.to_nat start) (Z.to_nat step) l).

Fixpoint make_keys (hashes : list bytes) (g : Z) : res (list OffloadKey) :=
  match hashes with
  | [] => Ok []
  | h :: hashes => k ← make_offload_key h g; ks ← make_keys hashes g; Ok (k :: ks)
  end.
Definition update_group_keys (hashes : list bytes) (gc : GroupOffloadConfig) (gs : RequestGroupState) : res RequestGroupState :=
  let f := hash_block_size_factor gc in
  hs ← islice hashes (f * len (offload_keys gs) + f - 1) f;
  ks ← make_keys hs (group_idx gc);
  Ok (gs_set_keys (offload_keys gs ++ ks) gs).
(** A loop over the groups with their configurations *)
Fixpoint map_groups (f : GroupOffloadConfig → RequestGroupState → res RequestGroupState)
    (gcs : list GroupOffloadConfig) (gss : list RequestGroupState) : res (list RequestGroupState) :=
  match gcs, gss with
  | gc :: gcs, gs :: gss => gs' ← f gc gs; gss' ← map_groups f gcs gss; Ok (gs' :: gss')
  | _, _ => Ok gss
  end.
Definition update_offload_keys (cfg : SchedulerOffloadConfig) (request : Request) (rs : RequestOffloadState) : res RequestOffloadState :=
  gss ← map_groups (update_group_keys (block_hashes request)) (kv_group_configs cfg) (group_states rs);
  Ok (rs_set_groups gss rs).
Definition update_block_id_groups (new_groups : option (list (list Z))) (rs : RequestOffloadState) : res RequestOffloadState :=
  match new_groups with
  | None => Ok rs
  | Some l =>
      if negb (len l =? len (group_states rs)) then Raise AssertionError
      else Ok (rs_set_groups (zip_with (λ gs new, gs_set_blocks (block_ids gs ++ new) gs) (group_states rs) l) rs)
  end.
Definition advance_stored_idx (cfg : SchedulerOffloadConfig) (num_offloadable_tokens : Z) (rs : RequestOffloadState) : RequestOffloadState :=
  rs_set_groups (zip_with (λ gc gs, gs_set_next (num_offloadable_tokens / offloaded_block_size gc) gs)
                   (kv_group_configs cfg) (group_states rs)) rs.
Definition update_num_hit_blocks (cfg : SchedulerOffloadConfig) (num_cached_tokens : Z) (rs : RequestOffloadState) : RequestOffloadState :=
  rs_set_groups (zip_with (λ gc gs, gs_set_hits (num_cached_tokens / offloaded_block_size gc) gs)
                   (kv_group_configs cfg) (group_states rs)) rs.

(** ** Operations *)
Section connector.
Context {S : Type} `{OffloadingManager S}.
(** The attributes of the request objects, and the order in which Python iterates over sets *)
Context (objs : string → Request) (iter_keys : gset OffloadKey → list OffloadKey) (iter_ids : gset Z → list Z).
Abbreviation C := (OffloadingConnectorScheduler S).
Abbreviation MC := (M (OffloadingConnectorScheduler S)).

Definition on_manager {A} (m : M S A) : MC A := zoom manager set_manager m.
Definition get_status (rid : string) : MC RequestOffloadState := c ← get; of_opt KeyError (dict_get rid (req_status c)).
Definition put_status (rid : string) (rs : RequestOffloadState) : MC () := modify (λ c, set_req_status (dict_set rid rs (req_status c)) c).

Definition generate_job_id : MC Z := c ← get; _ ← modify (set_job_counter (job_counter c + 1)); mret (job_counter c).

(** [_maximal_prefix_lookup]; lookups that defer count as hits, so that later ones start *)
Fixpoint prefix_loop (keys : list OffloadKey) (hit_count : Z) (defer : bool) : MC (option Z) :=
  match keys with
  | [] => mret (if defer then None else Some hit_count)
  | key :: keys =>
      result ← on_manager (mg_lookup key);
      match result with
      | Some false => mret (if defer then None else Some hit_count)
      | Some true => prefix_loop keys (hit_count + 1) defer
      | None => prefix_loop keys (hit_count + 1) true
      end
  end.
Definition maximal_prefix_lookup (keys : list OffloadKey) : MC (option Z) := prefix_loop keys 0 false.

(** [_sliding_window_lookup]; the keys from the end, with the index of the first *)
Fixpoint window_loop (rkeys : list OffloadKey) (size consecutive_hits : Z) (defer : bool) : MC (option Z) :=
  match rkeys with
  | [] => mret (if defer then None else Some consecutive_hits)
  | key :: rkeys =>
      result ← on_manager (mg_lookup key);
      let defer := match result with None => true | Some _ => defer end in
      if negb (default false result) then window_loop rkeys size 0 defer
      else if consecutive_hits + 1 =? size then mret (if defer then None else Some (len rkeys + size))
      else window_loop rkeys size (consecutive_hits + 1) defer
  end.
Definition sliding_window_lookup (keys : list OffloadKey) (size : Z) : MC (option Z) := window_loop (rev keys) size 0 false.

Definition touch_group (gc : GroupOffloadConfig) (gs : RequestGroupState) : MC () :=
  match sliding_window_size_in_blocks gc with
  | None => on_manager (mg_touch (offload_keys gs))
  | Some w => on_manager (mg_touch (drop (Z.to_nat (Z.max 0 (num_hit_blocks gs - w))) (offload_keys gs)))
  end.
Definition touch (rs : RequestOffloadState) : MC () :=
  c ← get; for_each (zip (kv_group_configs (config c)) (group_states rs)) (λ g : GroupOffloadConfig * RequestGroupState, touch_group g.1 g.2).

(** The local variables of [_lookup] *)
Record looking := mkLooking {
  max_hit_size_tokens : Z;
  num_hit_tokens : Z;
  defer_lookup : bool;
  again : list nat;
  looked_up_sliding_window : bool;
}.

(** One group; [None]: nothing can be loaded. *)
Definition lookup_group (num_tokens num_computed : Z) (gc : GroupOffloadConfig) (gs : RequestGroupState) (l : looking)
    : MC (option looking) :=
  let size := offloaded_block_size gc in
  let keys := offload_keys gs in
  _ ← massert (num_tokens / size <=? len keys);
  let max_hit := Z.min (max_hit_size_tokens l) (len keys * size) in
  if max_hit - num_computed <? size then mret None
  else
    let num_blocks := Z.min (cdiv max_hit size) (len keys) in
    let start := num_computed / size in
    let keys := py_slice keys start num_blocks in
    hit ← (match sliding_window_size_in_blocks gc with
           | None => maximal_prefix_lookup keys
           | Some w => sliding_window_lookup keys w
           end);
    if bool_decide (hit = Some 0) then mret None
    else
      let defer := match hit with None => true | Some _ => defer_lookup l end in
      let max_hit := match hit with None => max_hit | Some h => Z.min max_hit (size * (start + h)) end in
      let new_hit := max_hit - num_computed in
      if new_hit <? size then mret None
      else
        c ← get;
        let '(defer, again') :=
          if new_hit <? num_hit_tokens l
          then if defer : bool then (false, lookup_groups c)
               else if looked_up_sliding_window l && bool_decide (again l = []) then (defer, sliding_window_groups c) else (defer, again l)
          else (defer, again l) in
        mret (Some (mkLooking max_hit new_hit defer again'
                      (looked_up_sliding_window l || has_window gc))).

(** One pass of the loop over the groups *)
Fixpoint lookup_pass (num_tokens num_computed : Z) (rs : RequestOffloadState) (groups : list nat) (l : looking) : MC (option looking) :=
  match groups with
  | [] => mret (Some l)
  | i :: groups =>
      c ← get;
      gc ← of_opt IndexError (kv_group_configs (config c) !! i);
      gs ← of_opt IndexError (group_states rs !! i);
      r ← lookup_group num_tokens num_computed gc gs l;
      match r with
      | None => mret None
      | Some l => lookup_pass num_tokens num_computed rs groups l
      end
  end.

(** [while lookup_groups] *)
Fixpoint lookup_loop (fuel : nat) (num_tokens num_computed : Z) (rs : RequestOffloadState) (l : looking) : MC (option looking) :=
  if bool_decide (again l = []) then mret (Some l)
  else
    match fuel with
    | O => raise OutOfFuel
    | Datatypes.S fuel =>
        r ← lookup_pass num_tokens num_computed rs (again l)
              (mkLooking (max_hit_size_tokens l) (num_hit_tokens l) (defer_lookup l) [] false);
        match r with
        | None => mret None
        | Some l => lookup_loop fuel num_tokens num_computed rs l
        end
    end.

(** The keys of the hit of a group *)
Definition hit_keys (gc : GroupOffloadConfig) (gs : RequestGroupState) (num_computed num_hit : Z) : list OffloadKey :=
  let size := offloaded_block_size gc in
  let keys := py_slice (offload_keys gs) (num_computed / size) (cdiv (num_computed + num_hit) size) in
  match sliding_window_size_in_blocks gc with
  | None => keys
  | Some w => drop (length keys - Z.to_nat w) keys
  end.

(** [_lookup] *)
Definition lookup (request : Request) (rs : RequestOffloadState) : MC (option Z) :=
  c ← get;
  let num_computed := num_locally_computed_tokens rs in
  let max_hit := if bool_decide (sliding_window_groups c = []) then num_tokens request else num_tokens request - 1 in
  r ← lookup_loop (Z.to_nat (num_tokens request) + 2) (num_tokens request) num_computed rs (mkLooking max_hit 0 false (lookup_groups c) false);
  match r with
  | None => mret (Some 0)
  | Some l =>
      if defer_lookup l then mret None
      else
        match blocks_being_loaded c with
        | Some loading =>
            if negb (bool_decide (loading = ∅)) &&
               existsb (λ g : GroupOffloadConfig * RequestGroupState,
                 existsb (λ key, bool_decide (key ∈ loading)) (hit_keys g.1 g.2 num_computed (num_hit_tokens l)))
                 (zip (kv_group_configs (config c)) (group_states rs))
            then mret None else mret (Some (num_hit_tokens l))
        | None => mret (Some (num_hit_tokens l))
        end
  end.

(** The value of the parameter [max_offload_tokens] of a request *)
Inductive raw_param := RawInt (z : Z) | RawOther.
Definition checked_max_offload_tokens (raw : option raw_param) : option Z :=
  match raw with Some (RawInt z) => if 0 <=? z then Some z else None | _ => None end.

Definition on_new_request (request : Request) (raw : option raw_param) : MC () :=
  policy ← on_manager (mg_on_new_request (request_id request));
  c ← get;
  put_status (request_id request)
    (mkRequestState policy (replicate (length (kv_group_configs (config c))) (mkGroupState [] [] 0 0))
       (checked_max_offload_tokens raw) 0 ∅).

Definition get_num_new_matched_tokens (request : Request) (num_computed_tokens : Z) : MC (option Z * bool) :=
  rs ← get_status (request_id request);
  let rs := rs_set_groups (gs_set_blocks [] <$> group_states rs) rs in
  _ ← put_status (request_id request) rs;
  c ← get;
  rs ← of_res (update_offload_keys (config c) request rs);
  let rs := rs_set_local num_computed_tokens rs in
  _ ← put_status (request_id request) rs;
  num_hit ← lookup request rs;
  let rs := update_num_hit_blocks (config c) (num_computed_tokens + default 0 num_hit) rs in
  _ ← put_status (request_id request) rs;
  _ ← touch rs;
  mret (num_hit, negb (default 0 num_hit =? 0)).

(** *** After the allocation: a load *)
Record loading := mkLoading {
  keys_to_load : list OffloadKey;
  dst_block_ids : list Z;
  group_sizes : list Z;
  block_indices : list Z;
}.

(** The index of the first block that is not a placeholder and has no hash yet *)
Fixpoint first_unhashed (i : Z) (blocks : list KVCacheBlock) : option Z :=
  match blocks with
  | [] => None
  | b :: blocks =>
      if negb (is_null b) && bool_decide (block_hash b = None) then Some i else first_unhashed (i + 1) blocks
  end.

Definition put_group (rid : string) (i : nat) (gs : RequestGroupState) : MC () :=
  rs ← get_status rid; put_status rid (rs_set_groups (<[i := gs]> (group_states rs)) rs).

Definition alloc_group (rid : string) (num_local num_cached : Z) (i : nat) (gc : GroupOffloadConfig)
    (gs : RequestGroupState) (group_blocks : list KVCacheBlock) (l : loading) : MC loading :=
  _ ← modify (λ c, set_allocated_ids (current_batch_allocated_block_ids c ∪
        list_to_set (filter (λ b, b ≠ 0) (FreeQueue.block_id <$> group_blocks))) c);
  c ← get;
  let num_gpu_blocks := cdiv num_cached (gpu_block_size gc) in
  _ ← massert (num_gpu_blocks <=? len group_blocks);
  let local := default num_gpu_blocks (first_unhashed 0 (take (Z.to_nat num_gpu_blocks) group_blocks)) in
  _ ← massert (num_local <=? local * gpu_block_size gc);
  let pending := num_gpu_blocks - local in
  _ ← (match sliding_window_size_in_blocks gc with
       | Some w => massert (pending <=? w * block_size_factor (config c))
       | None => mret tt
       end);
  let num_blocks := cdiv num_cached (offloaded_block_size gc) in
  _ ← massert (num_blocks <=? len (offload_keys gs));
  let keys := if pending =? 0 then [] else py_slice (offload_keys gs) (local / block_size_factor (config c)) num_blocks in
  rs ← get_status rid;
  _ ← (match offloading_policy rs with BLOCK_LEVEL => put_group rid i (gs_set_next num_blocks gs) | REQUEST_LEVEL => mret tt end);
  mret (mkLoading (keys_to_load l ++ keys)
          (dst_block_ids l ++ (FreeQueue.block_id <$> py_slice group_blocks local num_gpu_blocks))
          (group_sizes l ++ [pending]) (block_indices l ++ [local])).

Fixpoint alloc_groups (rid : string) (num_local num_cached : Z) (i : nat)
    (groups : list (GroupOffloadConfig * RequestGroupState * list KVCacheBlock)) (l : loading) : MC loading :=
  match groups with
  | [] => mret l
  | (gc, gs, blocks) :: groups =>
      l ← alloc_group rid num_local num_cached i gc gs blocks l;
      alloc_groups rid num_local num_cached (Datatypes.S i) groups l
  end.

(** [GPULoadStoreSpec(...)] with its assertions *)
Definition gpu_spec (ids sizes indices : list Z) : res LoadStoreSpec :=
  if negb (foldr Z.add 0 sizes =? len ids) then Raise AssertionError
  else if negb (len indices =? len sizes) then Raise AssertionError
  else Ok (GPUSpec ids sizes indices).

Definition update_state_after_alloc (request : Request) (blocks : list (list KVCacheBlock)) (num_external_tokens : Z) : MC () :=
  if num_external_tokens =? 0 then mret tt
  else
    let rid := request_id request in
    rs ← get_status rid;
    let num_local := num_locally_computed_tokens rs in
    let num_cached := num_local + num_external_tokens in
    c ← get;
    l ← alloc_groups rid num_local num_cached 0 (zip (zip (kv_group_configs (config c)) (group_states rs)) blocks) (mkLoading [] [] [] []);
    src ← on_manager (mg_prepare_load (keys_to_load l));
    dst ← of_res (gpu_spec (dst_block_ids l) (group_sizes l) (block_indices l));
    job_id ← generate_job_id;
    _ ← modify (λ c, set_load_jobs (dict_set job_id (mkTransferJob rid (ManagerSpec src) dst) (current_batch_load_jobs c)) c);
    rs ← get_status rid;
    _ ← massert (bool_decide (transfer_jobs rs = ∅));
    _ ← put_status rid (rs_set_jobs (transfer_jobs rs ∪ {[job_id]}) rs);
    _ ← modify (λ c, set_jobs (dict_set job_id (mkJobStatus rid (num_workers (config c)) (list_to_set (keys_to_load l)) false None None)
                                  (jobs_in_progress c)) c);
    modify (λ c, match blocks_being_loaded c with
                 | Some s => set_being_loaded (Some (s ∪ list_to_set (keys_to_load l))) c
                 | None => c
                 end).

(** *** The step's output *)
Definition yield_req_data (so : SchedulerOutput) : list (string * option (list (list Z)) * bool) :=
  ((λ nd, (nd_req_id nd, Some (nd_block_ids nd), false)) <$> so_scheduled_new_reqs so) ++
  let cd := so_scheduled_cached_reqs so in
  zip (zip (cd_req_ids cd) (cd_new_block_ids cd)) ((λ rid, bool_decide (rid ∈ cd_resumed_req_ids cd)) <$> cd_req_ids cd).

(** The first loop of [_update_req_states]; the result is [new_block_ids_end]. *)
Fixpoint take_new_blocks (reqs : list (string * option (list (list Z)) * bool)) (ends : list (string * list Z)) : MC (list (string * list Z)) :=
  match reqs with
  | [] => mret ends
  | (rid, new_groups, preempted) :: reqs =>
      rs ← get_status rid;
      c ← get;
      rs ← of_res (update_offload_keys (config c) (objs rid) rs);
      let rs := if (preempted : bool) then rs_set_groups (gs_set_blocks [] <$> group_states rs) rs else rs in
      _ ← put_status rid rs;
      let l := default [] new_groups in
      if bool_decide (l = []) then take_new_blocks reqs ends
      else
        ends ← (if bool_decide (sliding_window_groups c = []) then mret ends
                else es ← of_opt IndexError (mapM (λ i, (λ gs, len (block_ids gs)) <$> group_states rs !! i) (sliding_window_groups c));
                     mret (dict_set rid es ends));
        rs ← of_res (update_block_id_groups (Some l) rs);
        _ ← put_status rid rs;
        _ ← modify (λ c, set_allocated_ids (current_batch_allocated_block_ids c ∪ list_to_set (filter (λ b, b ≠ 0) (concat l))) c);
        take_new_blocks reqs ends
  end.

(** Entries of the table from [start] to [stop] whose block has been allocated anew become 0. *)
Definition zero_stale (allocated : gset Z) (start stop : Z) (ids : list Z) : list Z :=
  imap (λ j b, if (start <=? Z.of_nat j) && (Z.of_nat j <? stop) && bool_decide (b ∈ allocated) then 0 else b) ids.

Fixpoint zero_groups (allocated : gset Z) (factor : Z) (ends : option (list Z)) (i : nat) (groups : list nat)
    (gss : list RequestGroupState) : res (list RequestGroupState) :=
  match groups with
  | [] => Ok gss
  | g :: groups =>
      match gss !! g with
      | None => Raise IndexError
      | Some gs =>
          let start := next_stored_block_idx gs * factor in
          let stop := match ends with Some es => default 0 (es !! i) | None => len (block_ids gs) end in
          zero_groups allocated factor ends (Datatypes.S i) groups (<[g := gs_set_blocks (zero_stale allocated start stop (block_ids gs)) gs]> gss)
      end
  end.

Definition update_req_states (so : SchedulerOutput) : MC () :=
  ends ← take_new_blocks (yield_req_data so) [];
  c ← get;
  if negb (bool_decide (sliding_window_groups c = [])) && negb (bool_decide (current_batch_allocated_block_ids c = ∅))
  then for_each (req_status c).*1 (λ rid,
         rs ← get_status rid;
         gss ← of_res (zero_groups (current_batch_allocated_block_ids c) (block_size_factor (config c)) (dict_get rid ends) 0
                         (sliding_window_groups c) (group_states rs));
         put_status rid (rs_set_groups gss rs))
  else mret tt.

(** *** Stores *)
Definition num_offloadable_tokens (cfg : SchedulerOffloadConfig) (rs : RequestOffloadState) (request : Request) (num_scheduled : Z) : Z :=
  let n := Z.min (num_computed_tokens request + num_scheduled) (num_tokens request) in
  let n := match max_offload_tokens rs with Some m => Z.min n m | None => n end in
  if offload_prompt_only cfg then Z.min n (num_prompt_tokens request) else n.

(** [l[start:stop:step]] for [0 <= start], [0 <= stop], [0 < step] *)
Definition py_slice_step {A} (l : list A) (start stop step : Z) : list A :=
  every 0 (Z.to_nat step) (py_slice l start stop).

(** The keys of a group that a step completes: not those whose last block is a placeholder
    ([0]), nor those of a window that no load can hit. *)
Fixpoint wanted_keys (gc : GroupOffloadConfig) (abs_idx : Z) (l : list (OffloadKey * Z)) : res (list OffloadKey) :=
  match l with
  | [] => Ok []
  | (key, block_id) :: l =>
      take_it ← (if block_id =? 0 then Ok false
                 else match alignment_block_count gc with
                      | None => Ok true
                      | Some count =>
                          match sliding_window_size_in_blocks gc with
                          | None => Raise AssertionError
                          | Some tail => Ok (negb (abs_idx mod count <? count - tail))
                          end
                      end);
      keys ← wanted_keys gc (abs_idx + 1) l;
      Ok (if (take_it : bool) then key :: keys else keys)
  end.
Definition group_new_keys (factor n : Z) (gc : GroupOffloadConfig) (gs : RequestGroupState) : res (list OffloadKey) :=
  let num_blocks := n / offloaded_block_size gc in
  let start := next_stored_block_idx gs in
  if num_blocks <=? start then Ok []
  else
    let keys := py_slice (offload_keys gs) start num_blocks in
    let ids := py_slice_step (block_ids gs) (start * factor + factor - 1) (num_blocks * factor) factor in
    if negb (len keys =? len ids) then Raise AssertionError
    else wanted_keys gc start (zip keys ids).
Fixpoint new_keys (factor n : Z) (groups : list (GroupOffloadConfig * RequestGroupState)) : res (list OffloadKey) :=
  match groups with
  | [] => Ok []
  | (gc, gs) :: groups => ks ← group_new_keys factor n gc gs; ks' ← new_keys factor n groups; Ok (ks ++ ks')
  end.

(** The blocks of the keys to store, in one group: with the index of the first *)
Fixpoint store_blocks (factor : Z) (keys_to_store : gset OffloadKey) (idx : Z) (keys : list OffloadKey) (block_ids : list Z)
    (first : option Z) (ids : list Z) : res (option Z * list Z) :=
  match keys with
  | [] => Ok (first, ids)
  | key :: keys =>
      if negb (bool_decide (key ∈ keys_to_store)) then store_blocks factor keys_to_store (idx + 1) keys block_ids first ids
      else
        (fix go (n : nat) (i : Z) (first : option Z) (ids : list Z) :=
           match n with
           | O => store_blocks factor keys_to_store (idx + 1) keys block_ids first ids
           | Datatypes.S n =>
               match block_ids !! Z.to_nat i with
               | None => Raise IndexError
               | Some 0 => go n (i + 1) first ids
               | Some b => go n (i + 1) (Some (default i first)) (ids ++ [b])
               end
           end) (Z.to_nat factor) (idx * factor) first ids
  end.

Record storing := mkStoring {
  st_sizes : list Z; st_indices : list Z; st_src : list Z; st_window : list Z; st_full : list Z;
  st_groups : list RequestGroupState }.
Fixpoint store_groups (factor n : Z) (keys_to_store : gset OffloadKey) (groups : list (GroupOffloadConfig * RequestGroupState))
    : res storing :=
  match groups with
  | [] => Ok (mkStoring [] [] [] [] [] [])
  | (gc, gs) :: groups =>
      let num_blocks := n / offloaded_block_size gc in
      let start := next_stored_block_idx gs in
      r ← store_blocks factor keys_to_store start (py_slice (offload_keys gs) start num_blocks) (block_ids gs) None [];
      let '(first, ids) := r in
      l ← store_groups factor n keys_to_store groups;
      Ok (mkStoring (len ids :: st_sizes l) (default 0 first :: st_indices l) (ids ++ st_src l)
            (if has_window gc then ids ++ st_window l else st_window l)
            (if has_window gc then st_full l else ids ++ st_full l)
            (gs_set_next num_blocks gs :: st_groups l))
  end.

(** [setdefault(bid, set()).add(job_id)] *)
Definition watch_block (job_id bid : Z) : MC () :=
  modify (λ c, set_pending (dict_set bid (default ∅ (dict_get bid (block_id_to_pending_jobs c)) ∪ {[job_id]}) (block_id_to_pending_jobs c)) c).

(** [any_jid = next(iter(transfer_jobs))] and the assertion on it *)
Definition assert_store_jobs (jobs : gset Z) : MC () :=
  c ← get;
  j ← of_opt StopIteration (head (iter_ids jobs));
  js ← of_opt KeyError (dict_get j (jobs_in_progress c));
  massert (is_store js).

(** The store of one request; [None]: nothing is stored. *)
Definition store_request (rid : string) (num_scheduled : Z) : MC (option (Z * TransferJob)) :=
  c ← get;
  match dict_get rid (req_status c) with
  | None => mret None
  | Some rs =>
      let cfg := config c in
      let n := num_offloadable_tokens cfg rs (objs rid) num_scheduled in
      keys ← of_res (new_keys (block_size_factor cfg) n (zip (kv_group_configs cfg) (group_states rs)));
      if bool_decide (keys = []) then _ ← put_status rid (advance_stored_idx cfg n rs); mret None
      else
        out ← on_manager (mg_prepare_store keys);
        match out with
        | None => mret None
        | Some out =>
            if bool_decide (keys_to_store out = []) then _ ← put_status rid (advance_stored_idx cfg n rs); mret None
            else
              _ ← touch rs;
              let to_store := list_to_set (keys_to_store out) : gset OffloadKey in
              l ← of_res (store_groups (block_size_factor cfg) n to_store (zip (kv_group_configs cfg) (group_states rs)));
              let rs := rs_set_groups (st_groups l) rs in
              _ ← put_status rid rs;
              src ← of_res (gpu_spec (st_src l) (st_sizes l) (st_indices l));
              job_id ← generate_job_id;
              _ ← (if bool_decide (transfer_jobs rs = ∅) then mret tt else assert_store_jobs (transfer_jobs rs));
              _ ← put_status rid (rs_set_jobs (transfer_jobs rs ∪ {[job_id]}) rs);
              _ ← for_each (st_window l) (watch_block job_id);
              _ ← modify (λ c, set_jobs (dict_set job_id
                    (mkJobStatus rid (num_workers cfg) to_store true (Some (st_full l))
                       (if bool_decide (st_window l = []) then None else Some (st_window l))) (jobs_in_progress c)) c);
              mret (Some (job_id, mkTransferJob rid src (ManagerSpec (store_spec out))))
        end
  end.
Fixpoint build_store_jobs (scheduled : list (string * Z)) (jobs : list (Z * TransferJob)) : MC (list (Z * TransferJob)) :=
  match scheduled with
  | [] => mret jobs
  | (rid, n) :: scheduled =>
      r ← store_request rid n;
      build_store_jobs scheduled (match r with Some (j, t) => dict_set j t jobs | None => jobs end)
  end.

(** *** The metadata of a step *)
Record OffloadingConnectorMetadata := mkMetadata {
  load_jobs : list (Z * TransferJob); store_jobs : list (Z * TransferJob); jobs_to_flush : gset Z }.

Definition flush (jobs : gset Z) : MC () := modify (λ c, set_flush (current_batch_jobs_to_flush c ∪ jobs) c).

Definition flush_preempted (rid : string) : MC () :=
  c ← get;
  match dict_get rid (req_status c) with
  | None => mret tt
  | Some rs =>
      if bool_decide (transfer_jobs rs = ∅) then mret tt
      else _ ← assert_store_jobs (transfer_jobs rs); flush (transfer_jobs rs)
  end.

(** The jobs that wait on a block of the set *)
Definition jobs_on (allocated : gset Z) (pending : list (Z * gset Z)) : gset Z :=
  ⋃ (snd <$> filter (λ bj : Z * gset Z, bj.1 ∈ allocated) pending).

Definition build_connector_meta (iter_strings : gset string → list string) (so : SchedulerOutput) : MC OffloadingConnectorMetadata :=
  _ ← update_req_states so;
  _ ← on_manager mg_on_schedule_end;
  _ ← for_each (iter_strings (so_preempted_req_ids so)) flush_preempted;
  _ ← (c ← get; flush (jobs_on (current_batch_allocated_block_ids c) (block_id_to_pending_jobs c)));
  _ ← (c ← get;
       if negb (bool_decide (req_status c = [])) && forallb (λ r : string * RequestOffloadState, is_finished (objs r.1)) (req_status c)
       then flush (list_to_set (jobs_in_progress c).*1) else mret tt);
  c ← get;
  let loads := current_batch_load_jobs c in
  stores ← build_store_jobs (so_num_scheduled_tokens so) [];
  c ← get;
  let meta := mkMetadata loads stores (current_batch_jobs_to_flush c) in
  _ ← modify (set_load_jobs []);
  _ ← modify (set_flush ∅);
  _ ← modify (set_allocated_ids ∅);
  mret meta.

(** *** Completions *)
Definition remove_pending_block (job_id bid : Z) : MC () :=
  c ← get;
  pending ← of_opt KeyError (dict_get bid (block_id_to_pending_jobs c));
  if negb (bool_decide (job_id ∈ pending)) then raise KeyError
  else
    let pending := pending ∖ {[job_id]} in
    modify (λ c, set_pending (if bool_decide (pending = ∅) then dict_del bid (block_id_to_pending_jobs c)
                              else dict_set bid pending (block_id_to_pending_jobs c)) c).
Definition remove_pending_job (job_id : Z) (ids : option (list Z)) : MC () := for_each (default [] ids) (remove_pending_block job_id).

Definition complete_job (job_id : Z) (js : TransferJobStatus) : MC () :=
  rs ← get_status (js_req_id js);
  _ ← (if is_store js then on_manager (mg_complete_store (iter_keys (js_keys js)) true)
       else
         _ ← on_manager (mg_complete_load (iter_keys (js_keys js)));
         modify (λ c, match blocks_being_loaded c with
                      | Some s => set_being_loaded (Some (s ∖ js_keys js)) c
                      | None => c
                      end));
  c ← get;
  _ ← (if bool_decide (block_id_to_pending_jobs c = []) then mret tt
       else
         _ ← remove_pending_job job_id (sliding_window_block_ids js);
         if is_finished (objs (js_req_id js)) then remove_pending_job job_id (non_sliding_window_block_ids js) else mret tt);
  _ ← modify (λ c, set_jobs (dict_del job_id (jobs_in_progress c)) c);
  if negb (bool_decide (job_id ∈ transfer_jobs rs)) then raise KeyError
  else
    let rs := rs_set_jobs (transfer_jobs rs ∖ {[job_id]}) rs in
    _ ← put_status (js_req_id js) rs;
    if bool_decide (transfer_jobs rs = ∅) && is_finished (objs (js_req_id js))
    then modify (λ c, set_req_status (dict_del (js_req_id js) (req_status c)) c)
    else mret tt.

(** [update_connector_output], on the counts that the workers report *)
Definition complete_one (jc : Z * Z) : MC () :=
  let '(job_id, count) := jc in
  _ ← massert (0 <? count);
  c ← get;
  if job_id <? stale_job_threshold c then mret tt
  else
    js ← of_opt KeyError (dict_get job_id (jobs_in_progress c));
    let js := js_set_pending (pending_count js - count) js in
    _ ← modify (λ c, set_jobs (dict_set job_id js (jobs_in_progress c)) c);
    if 0 <? pending_count js then mret tt
    else _ ← massert (pending_count js =? 0); complete_job job_id js.
Definition update_connector_output (completed_jobs : list (Z * Z)) : MC () := for_each completed_jobs complete_one.

(** [OffloadingWorkerMetadata.aggregate] *)
Definition aggregate (jobs other : list (Z * Z)) : list (Z * Z) :=
  foldl (λ merged '(j, v), dict_set j (default 0 (dict_get j merged) + v) merged) jobs other.

Definition watch_finished (job_id : Z) : MC () :=
  c ← get;
  js ← of_opt KeyError (dict_get job_id (jobs_in_progress c));
  for_each (default [] (non_sliding_window_block_ids js)) (watch_block job_id).
Definition request_finished (request : Request) : MC () :=
  let rid := request_id request in
  c ← get;
  _ ← on_manager (mg_on_request_finished rid);
  match dict_get rid (req_status c) with
  | None => mret tt
  | Some rs =>
      if bool_decide (transfer_jobs rs = ∅) then modify (λ c, set_req_status (dict_del rid (req_status c)) c)
      else for_each (iter_ids (transfer_jobs rs)) watch_finished
  end.

(** The events, with the hashes of their keys *)
Definition take_events : MC (list (list bytes * bool)) :=
  evs ← on_manager mg_take_events;
  mret ((λ e, (get_offload_block_hash <$> event_keys e, event_removed e)) <$> evs).

Definition reset_cache : MC () :=
  c ← get;
  _ ← massert (bool_decide (current_batch_load_jobs c = []));
  _ ← massert (bool_decide (current_batch_jobs_to_flush c = ∅));
  _ ← massert (bool_decide (current_batch_allocated_block_ids c = ∅));
  _ ← flush (list_to_set (jobs_in_progress c).*1);
  _ ← on_manager mg_reset_cache;
  _ ← modify (λ c, set_req_status (prod_map id (λ rs, rs_set_groups (gs_set_next 0 <$> group_states rs) rs) <$> req_status c) c);
  _ ← modify (λ c, set_stale (job_counter c) c);
  _ ← modify (set_jobs []);
  _ ← modify (set_pending []);
  modify (λ c, match blocks_being_loaded c with Some _ => set_being_loaded (Some ∅) c | None => c end).
End connector.
End Connector.
