(* ===== verification/OffloadLookup.v ===== *)
(** * What the connector's lookup finds

    The loop over the groups in [_lookup] ends, and the number of tokens that it returns can
    be loaded: every block that the load would read, of every group, is in the manager. *)
From S2P Require Import Prelude KVSpec FreeQueue Request BlockHash BlockPool PyFloat OffloadPolicy CPUOffload OffloadConnector.
Import Connector.

(** ** The loops over the keys *)
Section keys.
Context {S : Type} `{OffloadingManager S}.
Abbreviation C := (OffloadingConnectorScheduler S).

(** The manager answers a lookup by [ans], in the states that lookups lead to ([I]). *)
Context (I : S → Prop) (ans : OffloadKey → option bool).
Context (answers : ∀ k s, I s → wp (mg_lookup k) (λ r s', I s' ∧ r = ans k) s).

(** Lookups change nothing but the manager. *)
Definition same_but_manager (c c' : C) : Prop := c' = set_manager (manager c') c.

Lemma sbm_refl c : same_but_manager c c.
Proof. by destruct c. Qed.
Lemma sbm_trans c1 c2 c3 : same_but_manager c1 c2 → same_but_manager c2 c3 → same_but_manager c1 c3.
Proof. unfold same_but_manager. intros -> ->. done. Qed.

Lemma ask k c : I (manager c) → wp (on_manager (mg_lookup k)) (λ r c', same_but_manager c c' ∧ I (manager c') ∧ r = ans k) c.
Proof. intros Hc. unfold on_manager. rewrite wp_zoom. eapply wp_mono; [by apply answers|]. intros r s' [Hs Hr]. done. Qed.

Definition hit (k : OffloadKey) : Prop := ans k = Some true.

(** The longest prefix without a miss *)
Fixpoint prefix_of (keys : list OffloadKey) : list OffloadKey :=
  match keys with
  | [] => []
  | k :: keys => match ans k with Some false => [] | _ => k :: prefix_of keys end
  end.

Lemma prefix_loop_ok keys n defer c : I (manager c) →
  wp (prefix_loop keys n defer) (λ r c', same_but_manager c c' ∧ I (manager c') ∧
    r = if defer || existsb (λ k, bool_decide (ans k = None)) (prefix_of keys) then None else Some (n + len (prefix_of keys))) c.
Proof.
  revert n defer c. induction keys as [|k keys IH]; intros n defer c Hc; cbn [prefix_loop prefix_of].
  { wp_step. split_and!; [apply sbm_refl|done|]. rewrite orb_false_r, Z.add_0_r. done. }
  wp_step. eapply wp_mono; [by apply ask|]. intros r c1 (Hs & Hc1 & ->).
  destruct (ans k) as [[]|] eqn:E.
  - eapply wp_mono; [by apply IH|]. intros r c2 (Hs2 & Hc2 & ->). split_and!; [by eapply sbm_trans|done|].
    cbn [existsb length]. rewrite E. rewrite bool_decide_eq_false_2 by done. cbn [orb]. destruct (_ || _); [done|]. f_equal. lia.
  - wp_step. split_and!; [done|done|]. cbn [existsb length]. by rewrite orb_false_r, Z.add_0_r.
  - eapply wp_mono; [by apply IH|]. intros r c2 (Hs2 & Hc2 & ->). split_and!; [by eapply sbm_trans|done|].
    cbn [existsb]. rewrite E, bool_decide_eq_true_2 by done. cbn [orb]. by rewrite orb_true_r.
Qed.

Lemma prefix_of_hit keys : existsb (λ k, bool_decide (ans k = None)) (prefix_of keys) = false →
  prefix_of keys = take (length (prefix_of keys)) keys ∧ Forall hit (prefix_of keys).
Proof.
  induction keys as [|k keys IH]; cbn [prefix_of]; [done|]. unfold hit.
  destruct (ans k) as [[]|] eqn:E; cbn [existsb length take]; [|done|by rewrite E, bool_decide_eq_true_2].
  rewrite E, bool_decide_eq_false_2 by done. cbn [orb]. intros [Ep Hh]%IH. split; [|by constructor]. f_equal. exact Ep.
Qed.

(** [_maximal_prefix_lookup]: the keys up to its result are hits. *)
Lemma maximal_prefix_lookup_ok keys c : I (manager c) →
  wp (maximal_prefix_lookup keys) (λ r c', same_but_manager c c' ∧ I (manager c') ∧
    match r with Some h => 0 ≤ h ≤ len keys ∧ Forall hit (take (Z.to_nat h) keys) | None => True end) c.
Proof.
  intros Hc. unfold maximal_prefix_lookup. eapply wp_mono; [by apply prefix_loop_ok|]. intros r c' (Hs & Hc' & ->).
  split_and!; [done|done|]. cbn [orb]. destruct (existsb _ _) eqn:E; [done|]. rewrite Z.add_0_l.
  destruct (prefix_of_hit keys E) as [Ep Hh].
  pose proof (f_equal length Ep) as El. rewrite length_take in El. split; [lia|]. rewrite Nat2Z.id. by rewrite <- Ep.
Qed.

(** [_sliding_window_lookup]: the [size] keys before its result are hits, or all of them if
    there are fewer.  The keys looked up so far are [seen], of which the first [n] are hits. *)
Lemma window_loop_ok size rkeys n defer seen c : I (manager c) → 0 ≤ n < size → n ≤ len seen →
  Forall hit (take (Z.to_nat n) seen) →
  wp (window_loop rkeys size n defer) (λ r c', same_but_manager c c' ∧ I (manager c') ∧
    match r with
    | Some h => 0 ≤ h ≤ len (rev rkeys ++ seen) ∧
        Forall hit (py_slice (rev rkeys ++ seen) (Z.max 0 (h - size)) h)
    | None => True
    end) c.
Proof.
  intros Hc Hn Hlen Hh. revert n defer seen c Hc Hn Hlen Hh. induction rkeys as [|k rkeys IH]; intros n defer seen c Hc Hn Hlen Hh; cbn [window_loop].
  { wp_step. split_and!; [apply sbm_refl|done|]. destruct defer; [done|]. cbn [rev app]. split; [lia|].
    unfold py_slice. replace (Z.max 0 (n - size)) with 0 by lia. by rewrite drop_0, Z.sub_0_r. }
  wp_step. eapply wp_mono; [by apply ask|]. intros r c1 (Hs & Hc1 & ->).
  assert (Eq : rev (k :: rkeys) ++ seen = rev rkeys ++ k :: seen) by (cbn [rev]; by rewrite <- app_assoc).
  destruct (ans k) as [[]|] eqn:E; cbn [default negb].
  - assert (Hh' : Forall hit (take (Z.to_nat (n + 1)) (k :: seen))).
    { replace (Z.to_nat (n + 1)) with (Datatypes.S (Z.to_nat n)) by lia. cbn [take]. by constructor. }
    destruct (Z.eqb_spec (n + 1) size) as [En|En].
    + wp_step. split_and!; [done|done|]. destruct defer; [done|]. rewrite Eq, !length_app, length_rev. cbn [length]. split; [lia|].
      unfold py_slice. replace (Z.max 0 (len rkeys + size - size)) with (len rkeys) by lia.
      replace (Z.to_nat (len rkeys)) with (length (rev rkeys)) by (rewrite length_rev; lia). rewrite drop_app_length.
      replace (len rkeys + size - len rkeys) with (n + 1) by lia. done.
    + eapply wp_mono; [apply (IH (n + 1) defer (k :: seen) c1); [done|lia|cbn [length]; lia|done]|].
      intros r c2 (Hs2 & Hc2 & Hr). rewrite Eq. split_and!; [by eapply sbm_trans|done|done].
  - eapply wp_mono; [apply (IH 0 defer (k :: seen) c1); [done|lia|cbn [length]; lia|constructor]|].
    intros r c2 (Hs2 & Hc2 & Hr). rewrite Eq. split_and!; [by eapply sbm_trans|done|done].
  - eapply wp_mono; [apply (IH 0 true (k :: seen) c1); [done|lia|cbn [length]; lia|constructor]|].
    intros r c2 (Hs2 & Hc2 & Hr). rewrite Eq. split_and!; [by eapply sbm_trans|done|done].
Qed.

Lemma sliding_window_lookup_ok keys size c : I (manager c) → 0 < size →
  wp (sliding_window_lookup keys size) (λ r c', same_but_manager c c' ∧ I (manager c') ∧
    match r with
    | Some h => 0 ≤ h ≤ len keys ∧ Forall hit (py_slice keys (Z.max 0 (h - size)) h)
    | None => True
    end) c.
Proof.
  intros Hc Hsize. unfold sliding_window_lookup. eapply wp_mono; [apply (window_loop_ok size (rev keys) 0 false [] c Hc); [lia|done|constructor]|].
  intros r c' Hr. by rewrite rev_involutive, app_nil_r in Hr.
Qed.
End keys.

(** ** Slices of the keys *)
Lemma take_slice {A} (l : list A) a b h : 0 ≤ a → 0 ≤ h ≤ len (py_slice l a b) →
  take (Z.to_nat h) (py_slice l a b) = py_slice l a (a + h).
Proof.
  intros Ha [Hh Hl]. unfold py_slice in *. rewrite length_take in Hl. rewrite take_take. f_equal. lia.
Qed.

Lemma Forall_slice {A} (P : A → Prop) (l : list A) a b b' : 0 ≤ a → b' ≤ b → Forall P (py_slice l a b) → Forall P (py_slice l a b').
Proof.
  intros Ha Hb Hf. unfold py_slice in *. replace (take (Z.to_nat (b' - a)) (drop (Z.to_nat a) l))
    with (take (Z.to_nat (b' - a)) (take (Z.to_nat (b - a)) (drop (Z.to_nat a) l))).
  - by apply Forall_take.
  - rewrite take_take. f_equal. lia.
Qed.

(** A window at the end of the first [h] elements of a slice *)
Lemma window_slice {A} (l : list A) a b h w : 0 ≤ a → 0 ≤ h ≤ len (py_slice l a b) → 0 ≤ w →
  py_slice (py_slice l a b) (Z.max 0 (h - w)) h = drop (length (py_slice l a (a + h)) - Z.to_nat w) (py_slice l a (a + h)).
Proof.
  intros Ha Hh Hw. rewrite <- (take_slice l a b h) by done. rewrite length_take_le by lia.
  unfold py_slice at 1. rewrite take_drop_commute. f_equal; [lia|]. f_equal. lia.
Qed.

(** The minimum with multiples of a block size *)
Lemma min_divide d size m n (hit : option Z) start : (d | size) →
  match hit with None => Z.min m (n * size) | Some h => Z.min (Z.min m (n * size)) (size * (start + h)) end = m ∨
  (d | match hit with None => Z.min m (n * size) | Some h => Z.min (Z.min m (n * size)) (size * (start + h)) end).
Proof.
  intros Hd. assert (H1 : (d | n * size)) by (by apply Z.divide_mul_r). assert (H2 : ∀ h, (d | size * (start + h))) by (intros h; by apply Z.divide_mul_l).
  destruct (Z.min_spec m (n * size)) as [[_ ->]|[_ ->]]; destruct hit as [h|]; auto.
  - destruct (Z.min_spec m (size * (start + h))) as [[_ ->]|[_ ->]]; auto.
  - destruct (Z.min_spec (n * size) (size * (start + h))) as [[_ ->]|[_ ->]]; auto.
Qed.

(** ** The loop over the groups *)
Section lookup.
Context {S : Type} `{OffloadingManager S}.
Abbreviation C := (OffloadingConnectorScheduler S).
Context (I : S → Prop) (ans : OffloadKey → option bool).
Context (answers : ∀ k s, I s → wp (mg_lookup k) (λ r s', I s' ∧ r = ans k) s).
Abbreviation hit := (hit ans).

(** What [_lookup] relies on: positive block sizes and windows, a group state per group, the
    lists of groups as the constructor makes them, and the keys of all full blocks. *)
Record config_ok (c : C) : Prop := {
  co_sizes i gc : kv_group_configs (config c) !! i = Some gc → 0 < offloaded_block_size gc;
  co_windows i gc w : kv_group_configs (config c) !! i = Some gc → sliding_window_size_in_blocks gc = Some w → 0 < w;
  co_all i : i ∈ lookup_groups c ↔ is_Some (kv_group_configs (config c) !! i);
  co_sliding i : i ∈ sliding_window_groups c ↔ ∃ gc, kv_group_configs (config c) !! i = Some gc ∧ has_window gc = true;
}.
Record lookup_ready (c : C) (rs : RequestOffloadState) (num_tokens : Z) : Prop := {
  lr_config : config_ok c;
  lr_groups : length (group_states rs) = length (kv_group_configs (config c));
  lr_keys i gc gs : kv_group_configs (config c) !! i = Some gc → group_states rs !! i = Some gs →
    num_tokens / offloaded_block_size gc ≤ len (offload_keys gs);
  lr_computed : 0 ≤ num_locally_computed_tokens rs;
}.

Context (c0 : C) (rs : RequestOffloadState) (nt : Z) (Hready : lookup_ready c0 rs nt).
Abbreviation gcs := (kv_group_configs (config c0)).
Abbreviation computed := (num_locally_computed_tokens rs).
Abbreviation ok c := (same_but_manager c0 c ∧ I (manager c)).

(** The blocks of a group that a load up to [max_hit] tokens reads are hits. *)
Definition verified (max_hit : Z) (i : nat) : Prop :=
  ∀ gc gs, gcs !! i = Some gc → group_states rs !! i = Some gs → Forall hit (hit_keys gc gs computed (max_hit - computed)).

Lemma ok_config c : ok c → config c = config c0 ∧ lookup_groups c = lookup_groups c0 ∧ sliding_window_groups c = sliding_window_groups c0.
Proof. by intros [-> _]. Qed.

(** The length of a hit is verified. *)
Lemma verified_full gc gs m h : 0 < offloaded_block_size gc → sliding_window_size_in_blocks gc = None →
  let size := offloaded_block_size gc in
  let keys := py_slice (offload_keys gs) (computed / size) (Z.min (cdiv m size) (len (offload_keys gs))) in
  0 ≤ h ≤ len keys → Forall hit (take (Z.to_nat h) keys) →
  Forall hit (hit_keys gc gs computed (Z.min m (size * (computed / size + h)) - computed)).
Proof.
  intros Hs Hw size keys Hh Hf. pose proof (lr_computed _ _ _ Hready) as Hc.
  assert (Hst : 0 ≤ computed / size) by (apply Z.div_pos; [done|exact Hs]).
  unfold hit_keys. rewrite Hw. fold size. unfold keys in *. rewrite take_slice in Hf by done.
  eapply Forall_slice; [done| |exact Hf]. replace (computed + _) with (Z.min m (size * (computed / size + h))) by lia.
  apply cdiv_le; [exact Hs|]. lia.
Qed.

Lemma verified_window gc gs m h w : 0 < offloaded_block_size gc → sliding_window_size_in_blocks gc = Some w → 0 < w →
  let size := offloaded_block_size gc in
  let keys := py_slice (offload_keys gs) (computed / size) (Z.min (cdiv m size) (len (offload_keys gs))) in
  0 ≤ h ≤ len keys → h ≠ 0 → Forall hit (py_slice keys (Z.max 0 (h - w)) h) →
  Forall hit (hit_keys gc gs computed (Z.min m (size * (computed / size + h)) - computed)).
Proof.
  intros Hs Hw Hw0 size keys Hh Hh0 Hf. pose proof (lr_computed _ _ _ Hready) as Hc.
  assert (Hst : 0 ≤ computed / size) by (apply Z.div_pos; [done|exact Hs]).
  unfold hit_keys. rewrite Hw. fold size. unfold keys in *. rewrite window_slice in Hf by lia.
  replace (cdiv _ size) with (computed / size + h); [done|].
  replace (computed + _) with (Z.min m (size * (computed / size + h))) by lia.
  unfold py_slice in Hh. rewrite length_take in Hh.
  apply Z.le_antisymm; [|apply cdiv_le; [exact Hs|lia]].
  destruct (Z.le_ge_cases m (size * (computed / size + h))).
  - rewrite Z.min_l by done. lia.
  - rewrite Z.min_r, (Z.mul_comm size), cdiv_mul by (try done; exact Hs). done.
Qed.

(** A number that divides the block sizes of all groups *)
Definition sized (d : Z) : Prop := ∀ i gc, gcs !! i = Some gc → (d | offloaded_block_size gc).

(** One group: the bound on the hit does not grow; if the group answers, its part is
    verified; if the hit has shrunk, a further pass is asked for. *)
Record group_effect (i : nat) (l l' : looking) : Prop := {
  ge_max : max_hit_size_tokens l' ≤ max_hit_size_tokens l;
  ge_num : num_hit_tokens l' = max_hit_size_tokens l' - computed ∧ 0 < num_hit_tokens l';
  ge_looked : looked_up_sliding_window l' = looked_up_sliding_window l || bool_decide (i ∈ sliding_window_groups c0);
  ge_answer : verified (max_hit_size_tokens l') i ∨ defer_lookup l' = true ∨ again l' = lookup_groups c0;
  ge_same : num_hit_tokens l ≤ num_hit_tokens l' → again l' = again l ∧ (defer_lookup l = true → defer_lookup l' = true);
  ge_less : num_hit_tokens l' < num_hit_tokens l →
    again l' = lookup_groups c0 ∨
    (defer_lookup l = false ∧ again l' = if looked_up_sliding_window l && bool_decide (again l = []) then sliding_window_groups c0 else again l);
  ge_aligned d : sized d → max_hit_size_tokens l' = max_hit_size_tokens l ∨ (d | max_hit_size_tokens l');
}.

Lemma lookup_group_ok i gc gs l c : ok c → gcs !! i = Some gc → group_states rs !! i = Some gs →
  wp (lookup_group nt computed gc gs l) (λ r c', ok c' ∧ match r with Some l' => group_effect i l l' | None => True end) c.
Proof.
  intros Hok Hgc Hgs. pose proof (co_sizes _ (lr_config _ _ _ Hready) i gc Hgc) as Hsize.
  pose proof (lr_keys _ _ _ Hready i gc gs Hgc Hgs) as Hkeys. unfold lookup_group. wp_step. split; [lia|].
  set (m := Z.min (max_hit_size_tokens l) _). destruct (m - computed <? _) eqn:Em; [by wp_step|]. wp_step.
  set (keys := py_slice _ _ _).
  set (Q := λ (hit : option Z) (c' : C), ok c' ∧ match hit with
    | Some h => h ≠ 0 → verified (Z.min m (offloaded_block_size gc * (computed / offloaded_block_size gc + h))) i
    | None => True end).
  assert (Hlook : wp (match sliding_window_size_in_blocks gc with None => maximal_prefix_lookup keys | Some w => sliding_window_lookup keys w end) Q c).
  { destruct Hok as [Hs HI]. destruct (sliding_window_size_in_blocks gc) as [w|] eqn:Ew.
    - pose proof (co_windows _ (lr_config _ _ _ Hready) i gc w Hgc Ew) as Hw.
      eapply wp_mono; [by apply (sliding_window_lookup_ok I ans answers)|]. intros [h|] c' (Hs' & HI' & Hh); [|by split; [split; [by eapply sbm_trans|]|]].
      split; [split; [by eapply sbm_trans|done]|]. intros Hh0 gc' gs' Hgc' Hgs'. simplify_eq. destruct Hh as [Hh Hf]. by apply (verified_window gc gs m h w).
    - eapply wp_mono; [by apply (maximal_prefix_lookup_ok I ans answers)|]. intros [h|] c' (Hs' & HI' & Hh); [|by split; [split; [by eapply sbm_trans|]|]].
      split; [split; [by eapply sbm_trans|done]|]. intros Hh0 gc' gs' Hgc' Hgs'. simplify_eq. destruct Hh as [Hh Hf]. by apply (verified_full gc gs m h). }
  eapply wp_mono; [exact Hlook|]. clear Hlook. unfold Q. intros hit c1 [Hok1 Hhit]. destruct (bool_decide_reflect (hit = Some 0)) as [|Hh0]; [by wp_step|].
  set (m' := match hit with Some h => _ | None => _ end). destruct (Z.ltb_spec (m' - computed) (offloaded_block_size gc)) as [|Hnew]; [by wp_step|].
  wp_step. destruct (ok_config c1 Hok1) as (_ & -> & ->).
  assert (Hm : m' ≤ max_hit_size_tokens l) by (unfold m', m; destruct hit; lia).
  assert (Halign : ∀ d, sized d → m' = max_hit_size_tokens l ∨ (d | m')).
  { intros d Hd. specialize (Hd i gc Hgc). unfold m', m. by apply min_divide. }
  assert (Hlooked : has_window gc = bool_decide (i ∈ sliding_window_groups c0)).
  { apply eq_bool_prop_intro. rewrite bool_decide_spec, (co_sliding _ (lr_config _ _ _ Hready)). split; [intros Hw; exists gc; split; [done|by apply Is_true_true]|].
    intros (gc' & ? & Hw). simplify_eq. by rewrite Hw. }
  assert (Hans : hit = None ∨ verified m' i) by (unfold m'; destruct hit as [h|]; [right; apply Hhit; congruence|by left]).
  set (d := match hit with Some _ => defer_lookup l | None => true end).
  assert (Hd : defer_lookup l = true → d = true) by (unfold d; by destruct hit).
  assert (Hd' : hit = None → d = true) by (intros ->; done).
  destruct (Z.ltb_spec (m' - computed) (num_hit_tokens l)) as [Hlt|Hge]; [destruct d eqn:Ed; [|destruct (looked_up_sliding_window l && _) eqn:El]|];
    wp_step; (split; [done|]); split; cbn [max_hit_size_tokens num_hit_tokens defer_lookup again looked_up_sliding_window];
    rewrite ?Hlooked; try done; try lia.
  - by right; right.
  - by left.
  - destruct Hans as [Hn|]; [specialize (Hd' Hn); congruence|by left].
  - intros _. right. split; [|by rewrite ?El]. destruct (defer_lookup l); [|done]. specialize (Hd eq_refl). congruence.
  - destruct Hans as [Hn|]; [specialize (Hd' Hn); congruence|by left].
  - intros _. right. split; [|by rewrite ?El]. destruct (defer_lookup l); [|done]. specialize (Hd eq_refl). congruence.
  - destruct Hans as [Hn|]; [right; left; by apply Hd'|by left].
Qed.

(** *** A pass *)
Definition valid (i : nat) : Prop := is_Some (gcs !! i).
Definition started (l : looking) : Prop := num_hit_tokens l = max_hit_size_tokens l - computed ∧ 0 < num_hit_tokens l.

Lemma verified_le m m' i : i ∉ sliding_window_groups c0 → m' ≤ m → verified m i → verified m' i.
Proof.
  intros Hi Hm Hv gc gs Hgc Hgs. specialize (Hv gc gs Hgc Hgs). unfold hit_keys in *.
  destruct (sliding_window_size_in_blocks gc) as [w|] eqn:Ew.
  - exfalso. apply Hi, (co_sliding _ (lr_config _ _ _ Hready)). exists gc. split; [done|]. unfold has_window. rewrite Ew.
    apply bool_decide_eq_true_2. by exists w.
  - pose proof (co_sizes _ (lr_config _ _ _ Hready) i gc Hgc) as Hs. pose proof (lr_computed _ _ _ Hready).
    eapply Forall_slice; [by apply Z.div_pos| |exact Hv]. apply cdiv_mono; [done|lia].
Qed.

(** Over the groups [V] visited so far; [base]: the groups of full attention that need no
    visit in this pass. *)
Record pass_inv (base : Prop) (V : list nat) (start l : looking) : Prop := {
  pi_nil : V = [] → l = start;
  pi_max : max_hit_size_tokens l ≤ max_hit_size_tokens start;
  pi_num : V ≠ [] → started l;
  pi_full i : valid i → i ∉ sliding_window_groups c0 → i ∈ V ∨ base →
    verified (max_hit_size_tokens l) i ∨ defer_lookup l = true ∨ again l = lookup_groups c0;
  pi_window i : i ∈ V → i ∈ sliding_window_groups c0 →
    verified (max_hit_size_tokens l) i ∨ defer_lookup l = true ∨ again l ≠ [];
  pi_looked i : i ∈ V → i ∈ sliding_window_groups c0 → looked_up_sliding_window l = true;
  pi_again : again l = [] ∨ again l = lookup_groups c0 ∨ again l = sliding_window_groups c0;
  pi_aligned d : sized d → max_hit_size_tokens l = max_hit_size_tokens start ∨ (d | max_hit_size_tokens l);
  pi_less : started start → num_hit_tokens l ≤ num_hit_tokens start ∧ (again l ≠ [] → num_hit_tokens l < num_hit_tokens start);
}.

Lemma lookup_pass_step base V start l l' i : (started start ∨ num_hit_tokens start = 0) → valid i →
  pass_inv base V start l → group_effect i l l' → pass_inv base (V ++ [i]) start l'.
Proof.
  intros Hstart Hi [P1 P2 P3 P4 P5 P6 P7 P9 P8] [E1 E2 E3 E4 E5 E6 E7].
  assert (Haligned : ∀ d, sized d → max_hit_size_tokens l' = max_hit_size_tokens start ∨ (d | max_hit_size_tokens l')).
  { intros d Hd. destruct (E7 d Hd) as [->|]; [by apply P9|by right]. }
  assert (Hall : lookup_groups c0 ≠ []).
  { intros E. apply (co_all _ (lr_config _ _ _ Hready)) in Hi. rewrite E in Hi. by apply elem_of_nil in Hi. }
  assert (Hl : started l ∨ V = [] ∧ num_hit_tokens l = 0).
  { destruct (decide (V = [])) as [HV|HV]; [|by left; apply P3]. rewrite (P1 HV). destruct Hstart; [by left|by right]. }
  destruct (Z.lt_ge_cases (num_hit_tokens l') (num_hit_tokens l)) as [Hlt|Hge].
  - specialize (E6 Hlt). assert (Hst : started l) by (destruct Hl as [|[_ ?]]; [done|lia]). destruct Hst as [S1 S2]. split.
    + intros HV. by destruct V.
    + lia.
    + done.
    + intros j Hj Hjs [[HjV| ->%list_elem_of_singleton]%elem_of_app|Hb]; [|done|].
      * destruct (P4 j Hj Hjs (or_introl HjV)) as [Hv|[Hd|Ha]]; [left; by eapply verified_le| |];
          destruct E6 as [|[? E6]]; try tauto; [congruence|]. right; right. by rewrite E6, Ha, (bool_decide_eq_false_2 _ Hall), andb_false_r.
      * destruct (P4 j Hj Hjs (or_intror Hb)) as [Hv|[Hd|Ha]]; [left; by eapply verified_le| |];
          destruct E6 as [|[? E6]]; try tauto; [congruence|]. right; right. by rewrite E6, Ha, (bool_decide_eq_false_2 _ Hall), andb_false_r.
    + intros j [HjV| ->%list_elem_of_singleton]%elem_of_app Hjs.
      * right; right. destruct E6 as [->|[_ ->]]; [done|]. rewrite (P6 j HjV Hjs). destruct (bool_decide_reflect (again l = [])) as [_|Hne]; cbn [andb]; [|exact Hne].
        intros E. rewrite E in Hjs. by apply elem_of_nil in Hjs.
      * destruct E4 as [|[|E4]]; [by left|by right; left|]. right; right. by rewrite E4.
    + intros j [HjV| ->%list_elem_of_singleton]%elem_of_app Hjs; rewrite E3; [by rewrite (P6 j HjV Hjs)|].
      rewrite bool_decide_eq_true_2 by done. apply orb_true_r.
    + destruct E6 as [->|[_ ->]]; [tauto|]. destruct (_ && _); [tauto|done].
    + exact Haligned.
    + intros Hs. destruct (P8 Hs) as [? _]. split; [lia|]. intros _. lia.
  - destruct (E5 Hge) as [Ea Ed].
    assert (Hmax : V ≠ [] → max_hit_size_tokens l' = max_hit_size_tokens l).
    { intros HV. destruct (P3 HV) as [S1 _]. lia. }
    split.
    + intros HV. by destruct V.
    + lia.
    + done.
    + intros j Hj Hjs [[HjV| ->%list_elem_of_singleton]%elem_of_app|Hb]; [|done|]; rewrite Ea.
      * destruct (P4 j Hj Hjs (or_introl HjV)) as [Hv|[Hd|Ha]]; [left; by eapply verified_le|tauto|tauto].
      * destruct (P4 j Hj Hjs (or_intror Hb)) as [Hv|[Hd|Ha]]; [left; by eapply verified_le|tauto|tauto].
    + intros j [HjV| ->%list_elem_of_singleton]%elem_of_app Hjs.
      * rewrite Ea, Hmax by (by intros ->; apply elem_of_nil in HjV). destruct (P5 j HjV Hjs) as [|[|]]; tauto.
      * destruct E4 as [|[|E4]]; [by left|by right; left|]. right; right. by rewrite E4.
    + intros j [HjV| ->%list_elem_of_singleton]%elem_of_app Hjs; rewrite E3; [by rewrite (P6 j HjV Hjs)|].
      rewrite bool_decide_eq_true_2 by done. apply orb_true_r.
    + by rewrite Ea.
    + exact Haligned.
    + intros Hs. destruct (P8 Hs) as [P8a P8b]. rewrite Ea.
      assert (num_hit_tokens l' ≤ num_hit_tokens l).
      { destruct Hl as [[S1 S2]|[HV S1]]; [lia|]. rewrite (P1 HV) in S1. destruct Hs. lia. }
      split; [lia|]. intros Hne. specialize (P8b Hne). lia.
Qed.

Lemma lookup_pass_ok base start groups V l c : (started start ∨ num_hit_tokens start = 0) →
  ok c → (∀ i, i ∈ groups → valid i) → pass_inv base V start l →
  wp (lookup_pass nt computed rs groups l) (λ r c', ok c' ∧ match r with Some l' => pass_inv base (V ++ groups) start l' | None => True end) c.
Proof.
  intros Hstart. revert V l c. induction groups as [|i groups IH]; intros V l c Hok Hv Hp; cbn [lookup_pass].
  { wp_step. by rewrite app_nil_r. }
  destruct (Hv i ltac:(left)) as [gc Hgc]. wp_step. destruct (ok_config c Hok) as [Ec _]. rewrite Ec, Hgc. cbn [of_opt]. wp_step.
  assert (is_Some (group_states rs !! i)) as [gs Hgs].
  { apply lookup_lt_is_Some. rewrite (lr_groups _ _ _ Hready). by eapply lookup_lt_Some. }
  rewrite Hgs. cbn [of_opt]. wp_step. eapply wp_mono; [by apply (lookup_group_ok i gc gs l)|].
  intros [l'|] c' [Hok' Hl]; [|by wp_step]. eapply wp_mono; [apply (IH (V ++ [i]) l' c' Hok')|].
  - intros j Hj. apply Hv. by right.
  - eapply lookup_pass_step; try done. apply Hv. left.
  - intros r c'' Hr. by rewrite <- app_assoc in Hr.
Qed.

(** *** The loop *)
Record loop_inv (l : looking) : Prop := {
  li_again : again l = lookup_groups c0 ∨
    (again l = sliding_window_groups c0 ∧ ∀ i, valid i → i ∉ sliding_window_groups c0 → verified (max_hit_size_tokens l) i ∨ defer_lookup l = true) ∨
    (again l = [] ∧ (defer_lookup l = true ∨ ∀ i, valid i → verified (max_hit_size_tokens l) i));
  li_num : started l ∨ num_hit_tokens l = 0 ∧ again l = lookup_groups c0;
}.

Lemma pass_end G start l (base : Prop) : G ≠ [] → (G = lookup_groups c0 ∨ G = sliding_window_groups c0 ∧ base) →
  pass_inv base G start l → loop_inv l.
Proof.
  intros HG Hbase [P1 P2 P3 P4 P5 P6 P7 _ P8]. split; [|left; by apply P3].
  assert (Hfull : ∀ i, valid i → i ∉ sliding_window_groups c0 →
    verified (max_hit_size_tokens l) i ∨ defer_lookup l = true ∨ again l = lookup_groups c0).
  { intros i Hi Hs. apply P4; [done|done|]. destruct Hbase as [->|[_ ?]]; [|by right]. left. by apply (co_all _ (lr_config _ _ _ Hready)). }
  destruct P7 as [Ea|[Ea|Ea]]; [|by left|].
  - destruct (decide (lookup_groups c0 = [])) as [En|En]; [left; congruence|]. right; right. split; [done|].
    destruct (defer_lookup l) eqn:Ed; [by left|right]. intros i Hi.
    destruct (decide (i ∈ sliding_window_groups c0)) as [Hs|Hs].
    + destruct (P5 i) as [|[|]]; try done. destruct Hbase as [->|[-> _]]; [|done]. by apply (co_all _ (lr_config _ _ _ Hready)).
    + destruct (Hfull i Hi Hs) as [|[|]]; [done|done|congruence].
  - destruct (decide (again l = lookup_groups c0)) as [|Hne]; [by left|]. right; left. split; [done|]. intros i Hi Hs.
    destruct (Hfull i Hi Hs) as [|[|]]; tauto.
Qed.

Lemma lookup_loop_ok fuel l c : ok c → loop_inv l → max_hit_size_tokens l ≤ nt →
  (again l ≠ [] → Z.max 0 (max_hit_size_tokens l - computed) + (if decide (num_hit_tokens l = 0) then 1 else 0) ≤ Z.of_nat fuel) →
  wp (lookup_loop fuel nt computed rs l) (λ r c', ok c' ∧ match r with
    | Some l' => max_hit_size_tokens l' ≤ max_hit_size_tokens l ∧ again l' = [] ∧ loop_inv l' ∧
        ∀ d, sized d → max_hit_size_tokens l' = max_hit_size_tokens l ∨ (d | max_hit_size_tokens l')
    | None => True
    end) c.
Proof.
  revert l c. induction fuel as [|fuel IH]; intros l c Hok Hl Hnt Hfuel; cbn [lookup_loop].
  - destruct (bool_decide_reflect (again l = [])) as [E|E]; [wp_step; split; [exact Hok|]; split; [done|]; split; [exact E|]; split; [exact Hl|]; intros d _; by left|]. specialize (Hfuel E).
    destruct (li_num l Hl) as [[? ?]|[? _]]; case_decide; lia.
  - destruct (bool_decide_reflect (again l = [])) as [E|E]; [wp_step; split; [exact Hok|]; split; [done|]; split; [exact E|]; split; [exact Hl|]; intros d _; by left|]. specialize (Hfuel E). wp_step.
    set (start := mkLooking _ _ _ _ _).
    assert (Hstart : started start ∨ num_hit_tokens start = 0) by (destruct (li_num l Hl) as [|[? _]]; [by left|by right]).
    set (base := again l ≠ lookup_groups c0).
    assert (Hbase : again l = lookup_groups c0 ∨ again l = sliding_window_groups c0 ∧ base).
    { destruct (decide (again l = lookup_groups c0)) as [|Hne]; [by left|right]. split; [|exact Hne].
      destruct (li_again l Hl) as [|[[? _]|[? _]]]; done. }
    eapply wp_mono; [apply (lookup_pass_ok base start (again l) [] start c Hstart Hok)|].
    + intros i Hi. destruct Hbase as [Eb|[Eb _]]; rewrite Eb in Hi.
      * by apply (co_all _ (lr_config _ _ _ Hready)) in Hi.
      * apply (co_sliding _ (lr_config _ _ _ Hready)) in Hi as (gc & Hgc & _). by exists gc.
    + split; try done.
      * intros i Hi Hs [Hn|Hb]; [by apply elem_of_nil in Hn|]. destruct (li_again l Hl) as [|[[_ Hv]|[? _]]]; [done| |done].
        destruct (Hv i Hi Hs); tauto.
      * by intros i Hn%elem_of_nil.
      * by intros i Hn%elem_of_nil.
      * by left.
      * intros d _. by left.
    + intros [l'|] c' [Hok' Hp]; [|by wp_step]. cbn [app] in Hp.
      pose proof (pass_end (again l) start l' base E Hbase Hp) as Hl'. pose proof (pi_max _ _ _ _ Hp) as Hm. cbn [max_hit_size_tokens start] in Hm.
      destruct (pi_num _ _ _ _ Hp E) as [N1 N2].
      eapply wp_mono; [apply (IH l' c' Hok' Hl'); [lia|]|].
      * intros Hne. rewrite decide_False by lia. destruct (li_num l Hl) as [Hs|[Hz _]].
        -- destruct (pi_less _ _ _ _ Hp Hs) as [_ Hless]. specialize (Hless Hne). cbn [num_hit_tokens start] in Hless.
           destruct Hs as [Hs1 Hs2]. rewrite decide_False in Hfuel by lia. lia.
        -- rewrite decide_True in Hfuel by done. lia.
      * intros [l''|] c'' [Hok'' Hr]; [|done]. split; [done|]. destruct Hr as (? & ? & ? & Hd). split_and!; [lia|done|done|].
        intros d Hs. destruct (Hd d Hs) as [->|]; [by apply (pi_aligned _ _ _ _ Hp)|by right].
Qed.

(** [_lookup] returns, within its fuel; what it promises is in the manager and is not being
    loaded by another request. *)
Definition loadable (n : Z) : Prop :=
  computed + n ≤ nt ∧
  (∀ d, sized d → computed + n = (if bool_decide (sliding_window_groups c0 = []) then nt else nt - 1) ∨ (d | computed + n)) ∧
  ∀ i gc gs, gcs !! i = Some gc → group_states rs !! i = Some gs →
    Forall (λ k, hit k ∧ ∀ loading, blocks_being_loaded c0 = Some loading → k ∉ loading) (hit_keys gc gs computed n).

Lemma lookup_result request : num_tokens request = nt → I (manager c0) →
  wp (lookup request rs) (λ r c', ok c' ∧ match r with Some n => 0 ≤ n ∧ (0 < n → loadable n) | None => True end) c0.
Proof.
  intros Hn HI. unfold lookup. wp_step. set (l0 := mkLooking _ _ _ _ _).
  assert (El0 : max_hit_size_tokens l0 = if bool_decide (sliding_window_groups c0 = []) then nt else nt - 1) by (cbn; by rewrite Hn).
  assert (Hnt : 0 ≤ nt) by (rewrite <- Hn; unfold num_tokens; lia). rewrite Hn in *.
  assert (Hmax : max_hit_size_tokens l0 ≤ nt) by (cbn; destruct (bool_decide _); lia).
  eapply wp_mono; [apply (lookup_loop_ok (Z.to_nat nt + 2) l0 c0)|].
  - split; [apply sbm_refl|done].
  - split; [by left|]. right. done.
  - done.
  - intros _. rewrite decide_True by done. pose proof (lr_computed _ _ _ Hready). cbn [max_hit_size_tokens l0] in *. lia.
  - intros [l|] c' [Hok Hl]; [|wp_step; split; [done|lia]]. destruct Hl as (Hle & Ha & Hl & Hal).
    destruct (defer_lookup l) eqn:Ed; [by wp_step|].
    assert (Hv : ∀ i, valid i → verified (max_hit_size_tokens l) i).
    { intros i Hi. destruct (li_again l Hl) as [E|[[E Hv]|[_ [?|Hv]]]]; [| |congruence|by apply Hv].
      - apply (co_all _ (lr_config _ _ _ Hready)) in Hi. rewrite <- E, Ha in Hi. by apply elem_of_nil in Hi.
      - destruct (Hv i Hi) as [|]; [|done|congruence]. rewrite <- E, Ha. by intros ?%elem_of_nil. }
    assert (Hnum : 0 ≤ num_hit_tokens l ∧ (0 < num_hit_tokens l → num_hit_tokens l = max_hit_size_tokens l - computed))
      by (destruct (li_num l Hl) as [[? ?]|[? _]]; lia).
    destruct Hnum as [Hn0 Hnum].
    assert (Hload : (∀ loading i gc gs, blocks_being_loaded c0 = Some loading → gcs !! i = Some gc → group_states rs !! i = Some gs →
        ∀ k, k ∈ hit_keys gc gs computed (num_hit_tokens l) → k ∉ loading) → 0 < num_hit_tokens l → loadable (num_hit_tokens l)).
    { intros Hfree Hpos. specialize (Hnum Hpos). split; [lia|]. split; [intros d Hd; rewrite Hnum; replace (computed + _) with (max_hit_size_tokens l) by lia; rewrite <- El0; exact (Hal d Hd)|]. intros i gc gs Hgc Hgs.
      pose proof (Hv i ltac:(by exists gc) gc gs Hgc Hgs) as Hh. rewrite <- Hnum in Hh. apply Forall_forall. intros k Hk.
      split; [by apply (proj1 (Forall_forall _ _) Hh)|]. intros loading El. by eapply Hfree. }
    destruct (blocks_being_loaded c0) as [loading|] eqn:El; [|wp_step; split; [done|split; [done|]]; by apply Hload].
    destruct (negb _ && _) eqn:Eb; wp_step; [done|]. split; [done|split; [done|]]. apply Hload.
    intros loading' i gc gs [= <-] Hgc Hgs k Hk Hin. apply andb_false_iff in Eb as [Eb|Eb].
    + apply negb_false_iff, bool_decide_eq_true in Eb. subst loading. set_solver.
    + apply not_true_iff_false in Eb. apply Eb, existsb_exists. exists (gc, gs). split.
      * apply list_elem_of_In. apply list_elem_of_lookup. exists i. apply lookup_zip_Some. done.
      * apply existsb_exists. exists k. split; [by apply list_elem_of_In|]. by apply bool_decide_eq_true_2.
Qed.
End lookup.

(** ** The keys of a request *)
Lemma every_length {A} (skip step : nat) (l : list A) : (0 < step)%nat → (length l ≤ skip + step * length (every skip step l))%nat.
Proof.
  intros Hs. revert skip. induction l as [|x l IH]; intros skip; cbn [every length]; [lia|]. destruct skip as [|n]; cbn [length].
  - specialize (IH (step - 1)%nat). lia.
  - specialize (IH n). lia.
Qed.

Lemma every_length_le {A} (skip step : nat) (l : list A) : (0 < step)%nat → every skip step l ≠ [] →
  (skip + step * length (every skip step l) ≤ length l + (step - 1))%nat.
Proof.
  intros Hs. revert skip. induction l as [|x l IH]; intros skip Hne; cbn [every length] in *; [done|]. destruct skip as [|n]; cbn [length].
  - destruct (every (step - 1) step l) as [|y r] eqn:E; cbn [length]; [lia|]. specialize (IH (step - 1)%nat). rewrite E in IH. cbn [length] in IH.
    specialize (IH ltac:(done)). lia.
  - specialize (IH n Hne). lia.
Qed.

Lemma make_keys_ok hashes g : 0 ≤ g < 2 ^ 32 → ∃ ks, make_keys hashes g = Ok ks ∧ length ks = length hashes.
Proof.
  intros Hg. induction hashes as [|h hashes (ks & E & Hlen)]; cbn [make_keys]; [by exists []|].
  unfold make_offload_key. destruct (to_bytes_4_ok g Hg) as (b & -> & _). cbn [mbind res_bind]. rewrite E. cbn [mbind res_bind].
  exists ((h ++ b) :: ks). split; [done|]. cbn [length]. lia.
Qed.

(** The keys cover every offloaded block whose hashes are there, and no other. *)
Lemma update_group_keys_ok hashes gc gs : 0 < hash_block_size_factor gc → 0 ≤ group_idx gc < 2 ^ 32 →
  ∃ gs', update_group_keys hashes gc gs = Ok gs' ∧ len hashes / hash_block_size_factor gc ≤ len (offload_keys gs') ∧
    hash_block_size_factor gc * len (offload_keys gs') ≤ Z.max (hash_block_size_factor gc * len (offload_keys gs)) (len hashes).
Proof.
  intros Hf Hg. unfold update_group_keys, islice. set (f := hash_block_size_factor gc) in *.
  destruct (Z.ltb_spec (f * len (offload_keys gs) + f - 1) 0); [lia|]. destruct (Z.ltb_spec f 1); [lia|]. cbn [orb mbind res_bind].
  destruct (make_keys_ok (every (Z.to_nat (f * len (offload_keys gs) + f - 1)) (Z.to_nat f) hashes) (group_idx gc) Hg) as (ks & -> & Hlen).
  cbn [mbind res_bind]. eexists. split; [done|]. cbn [gs_set_keys offload_keys]. rewrite length_app.
  pose proof (every_length (Z.to_nat (f * len (offload_keys gs) + f - 1)) (Z.to_nat f) hashes ltac:(lia)) as He.
  pose proof (every_length_le (Z.to_nat (f * len (offload_keys gs) + f - 1)) (Z.to_nat f) hashes ltac:(lia)) as He'. rewrite <- Hlen in He, He'.
  split; [apply Z.lt_succ_r, Z.div_lt_upper_bound; [done|]; nia|]. destruct (decide (ks = [])) as [->|Hks]; [cbn [length]; lia|].
  destruct ks as [|k ks]; [done|]. assert (every (Z.to_nat (f * len (offload_keys gs) + f - 1)) (Z.to_nat f) hashes ≠ []) as Hne.
  { intros E. rewrite E in Hlen. done. }
  specialize (He' Hne). nia.
Qed.

Lemma map_groups_ok (f : GroupOffloadConfig → RequestGroupState → res RequestGroupState) (Q : GroupOffloadConfig → RequestGroupState → Prop) gcs gss :
  length gss = length gcs → (∀ i gc gs, gcs !! i = Some gc → gss !! i = Some gs → ∃ gs', f gc gs = Ok gs' ∧ Q gc gs') →
  ∃ gss', map_groups f gcs gss = Ok gss' ∧ length gss' = length gss ∧ ∀ i gc gs, gcs !! i = Some gc → gss' !! i = Some gs → Q gc gs.
Proof.
  revert gss. induction gcs as [|gc gcs IH]; intros [|gs gss] Hlen Hf; try done; cbn [map_groups]; [by exists []|].
  destruct (Hf 0%nat gc gs eq_refl eq_refl) as (gs' & -> & HQ). cbn [mbind res_bind].
  destruct (IH gss) as (gss' & -> & Hl & Hr); [cbn in Hlen; lia|intros i; apply (Hf (Datatypes.S i))|]. cbn [mbind res_bind].
  exists (gs' :: gss'). split; [done|]. split; [cbn; lia|]. intros [|i] gc' gs'' Hgc Hgs; [by simplify_eq/=|]. by apply (Hr i).
Qed.

Section matched.
Context {S : Type} `{OffloadingManager S}.
Abbreviation C := (OffloadingConnectorScheduler S).
Context (I : S → Prop) (ans : OffloadKey → option bool).
Context (answers : ∀ k s, I s → wp (mg_lookup k) (λ r s', I s' ∧ r = ans k) s).
Context (touches : ∀ ks s, I s → wp (mg_touch ks) (λ _ s', I s') s).

(** The sizes of the groups are multiples of the size of the hashed blocks, and the request
    has the hashes of its full blocks. *)
Definition sizes_ok (hash_size : Z) (c : C) : Prop := 0 < hash_size ∧ ∀ i gc, kv_group_configs (config c) !! i = Some gc →
  0 < hash_block_size_factor gc ∧ offloaded_block_size gc = hash_block_size_factor gc * hash_size ∧ 0 ≤ group_idx gc < 2 ^ 32.

Lemma touch_keeps rs (c : C) : I (manager c) → wp (touch rs) (λ _ c', same_but_manager c c' ∧ I (manager c')) c.
Proof.
  intros HI. unfold touch. wp_step. set (l := zip _ _). clearbody l. revert c HI. induction l as [|[gc gs] l IH]; intros c HI; cbn [for_each].
  { wp_step. by split; [apply sbm_refl|]. }
  wp_step. assert (Ht : ∀ ks, wp (on_manager (mg_touch ks)) (λ _ c', same_but_manager c c' ∧ I (manager c')) c).
  { intros ks. unfold on_manager. rewrite wp_zoom. eapply wp_mono; [by apply touches|]. intros [] s' Hs. done. }
  assert (Hg : wp (touch_group gc gs) (λ _ c', same_but_manager c c' ∧ I (manager c')) c).
  { unfold touch_group. destruct (sliding_window_size_in_blocks gc); apply Ht. }
  cbn [fst snd]. eapply wp_mono; [exact Hg|]. intros [] c1 [Hs1 HI1]. eapply wp_mono; [by apply IH|]. intros [] c2 [Hs2 HI2].
  split; [by eapply sbm_trans|done].
Qed.

Lemma dict_get_set_eq {V} rid (v : V) (d : list (string * V)) : dict_get rid (dict_set rid v d) = Some v.
Proof.
  induction d as [|[k w] d IH]; cbn [dict_set dict_get]; [by rewrite decide_True|]. destruct (decide (k = rid)) as [->|]; cbn [dict_get].
  - by rewrite decide_True.
  - by rewrite decide_False.
Qed.

(** What the search relies on of the request: a state for each group, whose keys are of full
    blocks, and the hashes of all full blocks *)
Record query_ok (c : C) (request : Request) (rs : RequestOffloadState) (hash_size : Z) : Prop := {
  qo_status : dict_get (request_id request) (req_status c) = Some rs;
  qo_groups : length (group_states rs) = length (kv_group_configs (config c));
  qo_hashes : len (block_hashes request) = num_tokens request / hash_size;
  qo_keys i gc gs : kv_group_configs (config c) !! i = Some gc → group_states rs !! i = Some gs →
    len (offload_keys gs) * offloaded_block_size gc ≤ num_tokens request;
}.

(** The block is ready, and no load in progress that is tracked writes it. *)
Definition free_to_load (c : C) (k : OffloadKey) : Prop :=
  ans k = Some true ∧ ∀ loading, blocks_being_loaded c = Some loading → k ∉ loading.

(** What the answer of the connector means for the keys of the groups *)
Record answered (c : C) (request : Request) (n0 n : Z) (c' : C) (rs' : RequestOffloadState) : Prop := {
  an_config : config c' = config c;
  an_within : n0 + n ≤ num_tokens request;
  an_end d : (∀ i gc, kv_group_configs (config c) !! i = Some gc → (d | offloaded_block_size gc)) →
    n0 + n = (if bool_decide (sliding_window_groups c = []) then num_tokens request else num_tokens request - 1) ∨ (d | n0 + n);
  an_keys i gc gs : kv_group_configs (config c) !! i = Some gc → group_states rs' !! i = Some gs →
    len (offload_keys gs) * offloaded_block_size gc ≤ num_tokens request ∧ Forall (free_to_load c) (hit_keys gc gs n0 n);
}.

Lemma matched_tokens_answered (c : C) request rs n0 hash_size :
  config_ok c → sizes_ok hash_size c → I (manager c) → query_ok c request rs hash_size → 0 ≤ n0 →
  wp (get_num_new_matched_tokens request n0) (λ r c', r.2 = negb (default 0 r.1 =? 0) ∧ ∃ rs',
    dict_get (request_id request) (req_status c') = Some rs' ∧ ∀ n, r.1 = Some n → 0 < n → answered c request n0 n c' rs') c.
Proof.
  intros Hcfg [Hhs Hsizes] HI [Hrs Hlen Hhash Hold] Hn0.
  unfold get_num_new_matched_tokens, get_status, put_status. wp_step. rewrite Hrs. cbn [of_opt]. wp_step. cbn [config set_req_status].
  unfold update_offload_keys. cbn [group_states rs_set_groups].
  destruct (map_groups_ok (update_group_keys (block_hashes request)) (λ gc gs, num_tokens request / offloaded_block_size gc ≤ len (offload_keys gs) ∧
      len (offload_keys gs) * offloaded_block_size gc ≤ num_tokens request)
    (kv_group_configs (config c)) (gs_set_blocks [] <$> group_states rs)) as (gss & -> & Hl & Hkeys).
  { by rewrite length_fmap. }
  { intros i gc gs Hgc Hgs. destruct (Hsizes i gc Hgc) as (Hf & Hs & Hg). destruct (update_group_keys_ok (block_hashes request) gc gs Hf Hg) as (gs' & E & Hk & Hk').
    exists gs'. split; [done|]. rewrite list_lookup_fmap in Hgs. destruct (group_states rs !! i) as [gs0|] eqn:Egs; [|done].
    cbn [fmap option_fmap option_map] in Hgs. injection Hgs as <-. cbn [gs_set_blocks offload_keys] in *. specialize (Hold i gc gs0 Hgc Egs). rewrite Hs in *. split.
    - rewrite Z.mul_comm, <- Z.div_div by lia. etrans; [|exact Hk]. apply Z.div_le_mono; [done|lia].
    - pose proof (Z.mul_div_le (num_tokens request) hash_size Hhs). rewrite Hhash in Hk'. nia. }
  cbn [mbind res_bind]. wp_ok. set (rs1 := rs_set_local n0 _). set (c1 := set_req_status _ _).
  rewrite length_fmap in Hl.
  assert (Hready : lookup_ready c1 rs1 (num_tokens request)).
  { split; [|exact (eq_trans Hl Hlen)|intros i gc gs Hgc Hgs; by apply (Hkeys i gc gs)|done]. destruct Hcfg as [H1 H2 H3 H4]. by split. }
  eapply wp_mono; [by apply (lookup_result I ans answers c1 rs1 (num_tokens request) Hready request)|].
  intros r c2 [[Hs2 HI2] Hr]. wp_step.
  set (rs2 := update_num_hit_blocks _ _ _). eapply wp_mono; [by apply touch_keeps|]. intros [] c3 [Hs3 HI3]. wp_step.
  split; [done|]. exists rs2. rewrite Hs3. cbn [set_manager req_status set_req_status config]. rewrite dict_get_set_eq. split; [done|].
  cbn [fst]. intros n -> Hpos. destruct Hr as [_ Hr]. destruct (Hr Hpos) as (Hb & Hal & Hv). split; [by rewrite Hs2|exact Hb|exact Hal|].
  intros i gc gs Hgc Hgs. cbn [rs2 update_num_hit_blocks rs_set_groups group_states] in Hgs.
  rewrite lookup_zip_with_Some in Hgs. destruct Hgs as (gc' & gs' & -> & Hgc' & Hgs'). simplify_eq. split; [by apply (Hkeys i gc gs')|by apply (Hv i gc gs')].
Qed.

(** *** What the load reads *)

(** The sizes of the blocks of the device and of the offloaded ones.  Several blocks of the
    device make an offloaded one only where the windows' block sizes divide those of all
    groups (the constructor of [OffloadingSpec] asks for one size). *)
Record blocks_ok (c : C) : Prop := {
  bo_factor : 0 < block_size_factor (config c);
  bo_gpu i gc : kv_group_configs (config c) !! i = Some gc →
    0 < gpu_block_size gc ∧ offloaded_block_size gc = gpu_block_size gc * block_size_factor (config c);
  bo_windows : block_size_factor (config c) = 1 ∨
    ∀ i gc, kv_group_configs (config c) !! i = Some gc → has_window gc = true → 1 < gpu_block_size gc ∧
      ∀ j gc', kv_group_configs (config c) !! j = Some gc' → (offloaded_block_size gc | offloaded_block_size gc');
}.

(** The end of the hit is at the end of a block of the group, or one token before. *)
Lemma window_blocks c request n0 n c' rs' i gc gs : blocks_ok c → config_ok c → 0 ≤ n0 → 0 < n → answered c request n0 n c' rs' →
  kv_group_configs (config c) !! i = Some gc → group_states rs' !! i = Some gs → has_window gc = true →
  cdiv (n0 + n) (offloaded_block_size gc) ≤ len (offload_keys gs) →
  cdiv (n0 + n) (offloaded_block_size gc) * block_size_factor (config c) = cdiv (n0 + n) (gpu_block_size gc).
Proof.
  intros [Hf Hg Hw] Hcfg Hn0 Hn [_ _ Hend Hkeys] Hgc Hgs Hhas Hle. destruct (Hg i gc Hgc) as [Hgpu Hsz]. destruct (Hkeys i gc gs Hgc Hgs) as [Hk _].
  destruct Hw as [HF|Hw]; [by rewrite Hsz, HF, !Z.mul_1_r|]. destruct (Hw i gc Hgc Hhas) as [Hg1 Hdiv].
  rewrite bool_decide_eq_false_2 in Hend by (intros E; assert (Hin : i ∈ sliding_window_groups c) by (apply (co_sliding _ Hcfg); by exists gc); rewrite E in Hin; by apply elem_of_nil in Hin).
  set (size := offloaded_block_size gc) in *. set (F := block_size_factor (config c)) in *. set (g := gpu_block_size gc) in *.
  assert (Hs0 : 1 < size) by nia. apply cdiv_le in Hle; [|lia].
  assert (Hq : ∃ q, n0 + n = q * size ∨ n0 + n = q * size - 1).
  { destruct (Hend size Hdiv) as [E|[q E]]; [|by exists q; left]. exists (len (offload_keys gs)). lia. }
  destruct Hq as (q & Hq). assert (E1 : cdiv (n0 + n) size = q).
  { pose proof (cdiv_spec (n0 + n) size ltac:(lia)). nia. }
  rewrite E1. pose proof (cdiv_spec (n0 + n) g ltac:(lia)). assert (Hqg : q * size = q * F * g) by (rewrite Hsz; ring). nia.
Qed.

(** A suffix of a slice *)
Lemma Forall_suffix {A} (P : A → Prop) (l : list A) a a' b : 0 ≤ a → a ≤ a' → Forall P (py_slice l a b) → Forall P (py_slice l a' b).
Proof.
  intros Ha Haa Hf. apply Forall_forall. intros x [k Hk]%list_elem_of_lookup. unfold py_slice in Hk.
  apply lookup_take_Some in Hk as [Hk Hlt]. rewrite lookup_drop in Hk. rewrite Forall_forall in Hf. apply Hf.
  apply list_elem_of_lookup. exists (Z.to_nat a' - Z.to_nat a + k)%nat. unfold py_slice. apply lookup_take_Some. rewrite lookup_drop.
  split; [|lia]. rewrite <- Hk. f_equal. lia.
Qed.

Lemma drop_slice {A} (l : list A) a b w : 0 ≤ a → b ≤ len l → 0 ≤ w →
  drop (length (py_slice l a b) - Z.to_nat w) (py_slice l a b) = py_slice l (Z.max a (b - w)) b.
Proof.
  intros Ha Hb Hw. unfold py_slice. rewrite length_take, length_drop. destruct (Z.le_gt_cases b a).
  { replace (Z.to_nat (b - a)) with 0%nat by lia. replace (Z.to_nat (b - Z.max a (b - w))) with 0%nat by lia. by rewrite !take_0, drop_nil. }
  rewrite Nat.min_l by lia. destruct (Z.le_gt_cases (b - w) a).
  - replace (Z.to_nat (b - a) - Z.to_nat w)%nat with 0%nat by lia. by replace (Z.max a (b - w)) with a by lia.
  - replace (Z.max a (b - w)) with (b - w) by lia. set (m := (Z.to_nat (b - a) - Z.to_nat w)%nat).
    replace (Z.to_nat (b - a)) with (m + Z.to_nat w)%nat by (unfold m; lia). rewrite <- take_drop_commute, drop_drop. f_equal; [lia|]. f_equal. unfold m. lia.
Qed.

(** The keys that one group contributes to a load are those of the hit. *)
Lemma loaded_are_hit (Q : OffloadKey → Prop) gc gs F n0 nc local : 0 < F → 0 < gpu_block_size gc →
  offloaded_block_size gc = gpu_block_size gc * F → 0 ≤ n0 → n0 ≤ local * gpu_block_size gc →
  cdiv nc (offloaded_block_size gc) ≤ len (offload_keys gs) →
  (∀ w, sliding_window_size_in_blocks gc = Some w → 0 < w ∧ cdiv nc (gpu_block_size gc) - local ≤ w * F ∧
    cdiv nc (offloaded_block_size gc) * F = cdiv nc (gpu_block_size gc)) →
  Forall Q (hit_keys gc gs n0 (nc - n0)) → Forall Q (py_slice (offload_keys gs) (local / F) (cdiv nc (offloaded_block_size gc))).
Proof.
  intros HF Hg Hsz Hn0 Hlocal Hlen Hw Hhit. unfold hit_keys in Hhit. replace (n0 + (nc - n0)) with nc in Hhit by lia.
  set (size := offloaded_block_size gc) in *. set (nb := cdiv nc size) in *.
  assert (Hstart : 0 ≤ n0 / size) by (apply Z.div_pos; [done|lia]).
  assert (Hle : n0 / size ≤ local / F).
  { apply Z.div_le_lower_bound; [done|]. pose proof (Z.mul_div_le n0 size ltac:(nia)). nia. }
  destruct (sliding_window_size_in_blocks gc) as [w|]; [|by eapply Forall_suffix].
  destruct (Hw w eq_refl) as (Hw0 & Hp & Hex). rewrite drop_slice in Hhit by lia. eapply Forall_suffix; [| |exact Hhit]; [lia|].
  apply Z.max_lub; [done|]. apply Z.div_le_lower_bound; [done|]. nia.
Qed.

(** The groups one after the other: the keys collected so far are good. *)
Lemma alloc_groups_load (Q : OffloadKey → Prop) cfg rid n0 nc groups : 0 ≤ n0 → 0 ≤ nc → 0 < block_size_factor cfg →
  (∀ gc gs bl, (gc, gs, bl) ∈ groups → 0 < gpu_block_size gc ∧ offloaded_block_size gc = gpu_block_size gc * block_size_factor cfg ∧
    (∀ w, sliding_window_size_in_blocks gc = Some w → 0 < w ∧ (cdiv nc (offloaded_block_size gc) ≤ len (offload_keys gs) →
      cdiv nc (offloaded_block_size gc) * block_size_factor cfg = cdiv nc (gpu_block_size gc))) ∧
    Forall Q (hit_keys gc gs n0 (nc - n0))) →
  ∀ i l (c : C), config c = cfg → Forall Q (keys_to_load l) →
  wlp (alloc_groups rid n0 nc i groups l) (λ l' _, Forall Q (keys_to_load l')) c.
Proof.
  intros Hn0 Hnc HF. induction groups as [|[[gc gs] bl] groups IH]; intros Hall i l c Hc Hl; cbn [alloc_groups]; [by wlp_step|].
  destruct (Hall gc gs bl ltac:(left)) as (Hg & Hsz & Hw & Hhit). wlp_step.
  apply (wlp_mono _ (λ l' c', config c' = cfg ∧ Forall Q (keys_to_load l'))).
  2: { intros l' c' [Hc' Hl']. apply IH; [|done..]. intros gc' gs' bl' Hin. apply (Hall gc' gs' bl'). by right. }
  unfold alloc_group. wlp_step. cbn [config set_allocated_ids]. rewrite Hc. set (num_gpu := cdiv nc (gpu_block_size gc)).
  rewrite wlp_massert. intros _. wlp_step. set (local := default num_gpu _). rewrite wlp_massert. intros Hlocal%Z.leb_le. wlp_step.
  apply (wlp_mono _ (λ _ c', config c' = cfg ∧ ∀ w, sliding_window_size_in_blocks gc = Some w → num_gpu - local ≤ w * block_size_factor cfg)).
  { destruct (sliding_window_size_in_blocks gc) as [w|]; [|wlp_step; done]. rewrite wlp_massert. intros H1%Z.leb_le. split; [exact Hc|]. by intros w' [= <-]. }
  intros [] c1 [Hc1 Hwin]. wlp_step. rewrite wlp_massert. intros Hlen%Z.leb_le. wlp_step.
  assert (Hkeys : Forall Q (if num_gpu - local =? 0 then [] else py_slice (offload_keys gs) (local / block_size_factor cfg) (cdiv nc (offloaded_block_size gc)))).
  { destruct (_ =? _); [constructor|]. apply (loaded_are_hit Q gc gs (block_size_factor cfg) n0 nc local); try done.
    intros w Ew. destruct (Hw w Ew) as [Hw0 Hex]. split_and!; [done|by apply Hwin|by apply Hex]. }
  unfold get_status. wlp_step. rewrite wlp_of_opt. intros rs _. wlp_step.
  apply (wlp_mono _ (λ _ c', config c' = cfg)).
  { destruct (offloading_policy rs); [|by wlp_step]. unfold put_group, get_status, put_status. wlp_step. rewrite wlp_of_opt. intros rs' _. by wlp_step. }
  intros [] c2 Hc2. wlp_step. split; [exact Hc2|]. cbn [keys_to_load]. by apply Forall_app_2.
Qed.

(** C15. The connector's answer to the scheduler: the search returns, and if it reports [n] > 0
    tokens they are within the request, and every key that [update_state_after_alloc]
    collects for loading them, whatever blocks the scheduler has allocated, is of a block
    that is ready in the manager and that no tracked load in progress writes (loads are
    tracked when prefix caching is enabled).  Its assertions on the allocated blocks may
    fail: when block sizes do not divide one another the window of a group can reach one
    block further than the blocks looked up ([misaligned_window_asserts]).  Needed: the manager
    answers a key alike during the search; several blocks of the device make an offloaded
    one only if the window groups' blocks divide those of all groups and are longer than a
    token on the device. *)
Theorem matched_tokens_loadable (c : C) request rs n0 hash_size :
  config_ok c → sizes_ok hash_size c → blocks_ok c → I (manager c) → query_ok c request rs hash_size → 0 ≤ n0 →
  ∃ r c' rs', get_num_new_matched_tokens request n0 c = (Ok (r, negb (default 0 r =? 0)), c') ∧
    dict_get (request_id request) (req_status c') = Some rs' ∧
    ∀ n, r = Some n → 0 < n → n0 + n ≤ num_tokens request ∧
      ∀ blocks l c'', alloc_groups (request_id request) n0 (n0 + n) 0
          (zip (zip (kv_group_configs (config c')) (group_states rs')) blocks) (mkLoading [] [] [] []) c' = (Ok l, c'') →
        Forall (free_to_load c) (keys_to_load l).
Proof.
  intros Hcfg Hsizes Hblocks HI Hq Hn0.
  destruct (wp_elim _ _ _ (matched_tokens_answered c request rs n0 hash_size Hcfg Hsizes HI Hq Hn0)) as ([r b] & c' & E & Hb & rs' & Hrs' & Hr).
  cbn [fst snd] in *. subst b. exists r, c', rs'. split; [done|]. split; [done|]. intros n -> Hn. specialize (Hr n eq_refl Hn).
  pose proof Hr as [Ec Hin _ Hkeys]. split; [exact Hin|]. intros blocks l c'' El. rewrite Ec in El.
  refine (wlp_elim _ _ _ _ _ (alloc_groups_load (free_to_load c) (config c) _ n0 (n0 + n) _ Hn0 ltac:(lia) (bo_factor _ Hblocks) _ _ _ c' Ec _) El); [|constructor].
  intros gc gs bl (i & Hi)%list_elem_of_lookup. apply lookup_zip_Some in Hi as [(Hgc & Hgs)%lookup_zip_Some _].
  destruct (bo_gpu _ Hblocks i gc Hgc) as [Hg Hsz]. destruct (Hkeys i gc gs Hgc Hgs) as [_ Hhit]. split_and!; [done|done| |by replace (n0 + n - n0) with n by lia].
  intros w Ew. split; [by apply (co_windows _ Hcfg i gc w)|]. intros Hle. apply (window_blocks c request n0 n c' rs' i gc gs); try done.
  unfold has_window. apply bool_decide_eq_true_2. rewrite Ew. by eexists.
Qed.
End matched.

(** ** The connector as it is constructed *)
Lemma group_configs_lookup spec a j groups l : group_configs spec a j groups = Ok l → 0 < os_block_size_factor spec →
  Forall (λ g : KVCacheSpec * Z, 0 < g.2) groups → ∀ i gc, l !! i = Some gc →
  0 < offloaded_block_size gc ∧ ∀ w, sliding_window_size_in_blocks gc = Some w → 0 < w.
Proof.
  intros E Hf. revert j l E. induction groups as [|[s b] groups IH]; intros j l E Hg i gc Hi; cbn [group_configs] in E; [by simplify_eq|].
  apply Forall_cons in Hg as [Hb Hg]. cbn [snd] in Hb.
  destruct (get_sliding_window_size_in_blocks s (b * os_block_size_factor spec)) as [sw|] eqn:Esw; [|done]. cbn [mbind res_bind] in E.
  destruct (group_configs spec a (j + 1) groups) as [l'|] eqn:El; [|done]. cbn [mbind res_bind] in E. simplify_eq.
  destruct i as [|i]; [|by apply (IH (j + 1) l' El Hg i gc)]. simplify_eq/=. split; [lia|]. intros w ->.
  unfold get_sliding_window_size_in_blocks in Esw. destruct (kind s) as [k|w' mla|ch|mo n|]; try done; [|by simplify_eq].
  destruct (Z.ltb_spec 0 w'); [|done]. simplify_eq. pose proof (cdiv_spec w' (b * os_block_size_factor spec) ltac:(lia)). nia.
Qed.

Lemma elem_of_sort_by_window c l i : i ∈ sort_by_window c l ↔ i ∈ l.
Proof.
  assert (Hins : ∀ j l, i ∈ insert_by_window c j l ↔ i = j ∨ i ∈ l).
  { intros j l'. unfold insert_by_window. induction l' as [|x l' IH]; [by rewrite list_elem_of_singleton, elem_of_nil; tauto|].
    cbn. destruct (_ <? _); rewrite !elem_of_cons; [tauto|]. rewrite IH. tauto. }
  unfold sort_by_window. assert (Hf : ∀ acc, i ∈ foldl (λ acc j, insert_by_window c j acc) acc l ↔ i ∈ acc ∨ i ∈ l).
  { induction l as [|j l IH]; intros acc; cbn [foldl]; [rewrite elem_of_nil; tauto|]. rewrite IH, Hins, elem_of_cons. tauto. }
  rewrite Hf, elem_of_nil. tauto.
Qed.

Lemma elem_of_groups_where f c i : i ∈ groups_where f c ↔ ∃ gc, kv_group_configs c !! i = Some gc ∧ f gc = true.
Proof.
  unfold groups_where. rewrite list_elem_of_filter, elem_of_seq, fmap_Some. split.
  - intros [(gc & E & Hf) _]. by exists gc.
  - intros (gc & E & Hf). split; [by exists gc|]. apply lookup_lt_Some in E. lia.
Qed.

(** The lists of groups are as [_lookup] needs them. *)
Lemma init_config_ok {S} spec (m : S) c : Connector.init spec m = Ok c → 0 < os_block_size_factor spec →
  Forall (λ g : KVCacheSpec * Z, 0 < g.2) (os_groups spec) → config_ok c.
Proof.
  unfold Connector.init, from_spec. destruct (full_sizes _ _ _) as [sizes|]; [|done]. cbn [mbind res_bind].
  destruct (group_configs _ _ _ _) as [l|] eqn:El; [|done]. cbn [mbind res_bind]. intros E Hf Hg. simplify_eq.
  pose proof (group_configs_lookup _ _ _ _ _ El Hf Hg) as Hl. split; cbn [config kv_group_configs lookup_groups sliding_window_groups].
  - intros i gc Hi. destruct (Hl i gc Hi) as [Hs _]. exact Hs.
  - intros i gc w Hi. destruct (Hl i gc Hi) as [_ Hw]. exact (Hw w).
  - intros i. rewrite elem_of_app, elem_of_sort_by_window, !elem_of_groups_where. cbn [kv_group_configs]. split; [by intros [(gc & -> & _)|(gc & -> & _)]|].
    intros [gc Hgc]. destruct (has_window gc) eqn:E; [right|left]; exists gc; rewrite ?E; done.
  - intros i. rewrite elem_of_sort_by_window, elem_of_groups_where. done.
Qed.

(** The CPU manager answers by its slots and the stores in progress. *)
Section cpu.
Context {P : Type} `{PolicyLaws P} (N : Z) (L Q : list OffloadKey) (X : list Z) (f : OffloadKey → option Z).
Definition cpu_state (m : CPUOffloadingManager P) : Prop := inv N L Q X m ∧ ∀ k, slot m k = f k.
Definition cpu_answer (k : OffloadKey) : option bool :=
  match f k with None => Some false | Some _ => if bool_decide (k ∈ Q) then None else Some true end.

Lemma cpu_answers k m : cpu_state m → wp (mg_lookup k) (λ r m', cpu_state m' ∧ r = cpu_answer k) m.
Proof.
  intros [Hi Hs]. eapply wp_mono; [apply (lookup_ok N k L Q X m Hi)|]. intros r m' (Hi' & Hs' & ->). split.
  - split; [done|]. intros k'. by rewrite Hs'.
  - unfold cpu_answer. by rewrite Hs.
Qed.

Lemma cpu_touches ks m : cpu_state m → wp (mg_touch ks) (λ _ m', cpu_state m') m.
Proof.
  intros [Hi Hs]. eapply wp_mono; [apply (touch_ok N ks L Q X m Hi)|]. intros _ m' (Hi' & Hs'). split; [done|].
  intros k'. by rewrite Hs'.
Qed.
End cpu.

(** ** An example: full attention and a window of one block, over LRU *)
Module LookupDemo.
Abbreviation Lru := (CPUOffloadingManager LRU.LRUCachePolicy).
Definition spec : OffloadingSpec :=
  mkOffloadingSpec [(mkSpec 2 0 (FullAttention FKFull), 2); (mkSpec 2 0 (SlidingWindow 2 false), 2)] 1 2 1 false true.
Definition key (h g : Z) : OffloadKey := [h; 0; 0; 0; g].
Definition stored : list op := [PrepareStore [key 7 0; key 8 0; key 8 1]; CompleteStore 0 [key 7 0; key 8 0; key 8 1] true].
Definition cpu : Lru := (Demo.final stored (CPUOffload.init 3 false 1 10)).1.
Definition request (rid : string) (n : nat) : Request :=
  mkRequest rid 0 0 0 0 WAITING 16 false (Some (replicate n 7)) None ∅ (Z.of_nat n) [] (replicate n 7) 0 [] 0 None [] None
    false 0 [[7]; [8]] false false (new_ext None None).
Definition fresh : OffloadingConnectorScheduler Lru :=
  match Connector.init spec cpu with
  | Ok c => c
  | Raise _ => mkConnector (mkOffloadConfig [] 1 1 false) cpu [] [] [] [] ∅ ∅ None 0 0 [] []
  end.
Definition conn : OffloadingConnectorScheduler Lru := (on_new_request (request "r" 5) None fresh).2.
Definition status : RequestOffloadState := mkRequestState BLOCK_LEVEL [mkGroupState [] [] 0 0; mkGroupState [] [] 0 0] None 0 ∅.

Lemma cpu_client : client 3 false 1 10 cpu (mkJobs [] []).
Proof. apply (run_client 3 false 1 10 stored (CPUOffload.init 3 false 1 10) (mkJobs [] [])); [constructor|by vm_compute]. Qed.

Lemma cpu_ready : cpu_state 3 [] [] [] (slot cpu) cpu.
Proof. split; [|done]. exact (client_inv 3 false 1 10 cpu (mkJobs [] []) ltac:(lia) ltac:(lia) cpu_client). Qed.

(** Both blocks of full attention and the last block of the window are there. *)
Example four_tokens : (get_num_new_matched_tokens (request "r" 5) 0 conn).1 = Ok (Some 4, true).
Proof. by vm_compute. Qed.

(** Blocks of 4 tokens for full attention and of 6 for a window of 6 tokens: the first two
    blocks of the former are offloaded, and the second of the latter. *)
Definition odd_spec : OffloadingSpec :=
  mkOffloadingSpec [(mkSpec 4 0 (FullAttention FKFull), 4); (mkSpec 6 0 (SlidingWindow 6 false), 6)] 1 2 1 false true.
Definition odd_cpu : Lru := (Demo.final
  [PrepareStore [key 2 0; key 4 0; key 6 1]; CompleteStore 0 [key 2 0; key 4 0; key 6 1] true] (CPUOffload.init 4 false 1 10)).1.
Definition odd_request : Request :=
  mkRequest "r" 0 0 0 0 WAITING 16 false (Some (replicate 13 7)) None ∅ 13 [] (replicate 13 7) 0 [] 0 None [] None
    false 0 [[1]; [2]; [3]; [4]; [5]; [6]] false false (new_ext None None).
Definition new_blocks (ids : list Z) : list KVCacheBlock := FreeQueue.new_block <$> ids.

(** [_lookup] asks for one block of the window, which ends at token 12, and reports 8 tokens.
    The window before token 8 begins in the first block (token 3), which is not offloaded;
    the scheduler allocates both blocks, and the assertion on them fails. *)
Theorem misaligned_window_asserts : ∃ c0 c1, Connector.init odd_spec odd_cpu = Ok c0 ∧
  get_num_new_matched_tokens odd_request 0 (on_new_request odd_request None c0).2 = (Ok (Some 8, true), c1) ∧
  (CPUOffload.lookup (key 3 1) odd_cpu).1 = Ok (Some false) ∧
  num_skipped_tokens (SlidingWindow 6 false) 8 = 3 ∧
  (update_state_after_alloc odd_request [new_blocks [1; 2]; new_blocks [3; 4]] 8 c1).1 = Raise AssertionError.
Proof. eexists _, _. split; [vm_compute; reflexivity|]. split; [vm_compute; reflexivity|]. by vm_compute. Qed.
End LookupDemo.

Lemma matched_tokens_loadable_witness :
  ∃ r c' rs', get_num_new_matched_tokens (LookupDemo.request "r" 5) 0 LookupDemo.conn = (Ok (r, negb (default 0 r =? 0)), c') ∧
    dict_get "r"%string (req_status c') = Some rs' ∧
    ∀ n, r = Some n → 0 < n → 0 + n ≤ num_tokens (LookupDemo.request "r" 5) ∧
      ∀ blocks l c'', alloc_groups "r" 0 (0 + n) 0
          (zip (zip (kv_group_configs (config c')) (group_states rs')) blocks) (mkLoading [] [] [] []) c' = (Ok l, c'') →
        Forall (free_to_load (cpu_answer [] (slot LookupDemo.cpu)) LookupDemo.conn) (keys_to_load l).
Proof.
  apply (matched_tokens_loadable (cpu_state 3 [] [] [] (slot LookupDemo.cpu)) (cpu_answer [] (slot LookupDemo.cpu))
    (cpu_answers 3 [] [] [] (slot LookupDemo.cpu)) (cpu_touches 3 [] [] [] (slot LookupDemo.cpu)) LookupDemo.conn (LookupDemo.request "r" 5) LookupDemo.status 0 2).
  - assert (Hc : config_ok LookupDemo.fresh).
    { apply (init_config_ok LookupDemo.spec LookupDemo.cpu); [vm_compute; reflexivity|cbn; lia|repeat constructor; cbn; lia]. }
    destruct Hc as [H1 H2 H3 H4]. split; assumption.
  - split; [lia|]. intros [|[|i]] gc Hgc; vm_compute in Hgc; [injection Hgc as <-|injection Hgc as <-|discriminate]; cbn; lia.
  - split; [vm_compute; reflexivity| |left; vm_compute; reflexivity].
    intros [|[|i]] gc Hgc; vm_compute in Hgc; [injection Hgc as <-|injection Hgc as <-|discriminate]; vm_compute; done.
  - exact LookupDemo.cpu_ready.
  - split; [vm_compute; reflexivity|vm_compute; reflexivity|vm_compute; reflexivity|].
    intros [|[|i]] gc gs Hgc Hgs; vm_compute in Hgc, Hgs; [injection Hgc as <-|injection Hgc as <-|discriminate]; injection Hgs as <-; vm_compute; discriminate.
  - lia.
Defined.
