(* ===== verification/OffloadJobs.v ===== *)
(** * The connector over the CPU manager

    Every call that the connector makes to the manager is one of the manager's protocol
    ([client]): the jobs in progress of the connector are the transfers that the protocol
    knows.  The theorems of [CPUOffload] therefore hold of the two together. *)
From S2P Require Import Prelude KVSpec FreeQueue Request BlockHash BlockPool PyFloat OffloadPolicy CPUOffload SchedState OffloadConnector OffloadLookup.
Import Connector.

(** ** What a call leaves as it is *)
Section leaves.
Context {S : Type} (R : S → S → Prop) `{!PreOrder R}.
Definition leaves {A} (m : M S A) : Prop := ∀ s, wlp m (λ _ s', R s s') s.

Lemma leaves_ret {A} (a : A) : leaves (mret a).
Proof. intros s. wlp_step. done. Qed.
Lemma leaves_raise {A} e : leaves (A := A) (raise e).
Proof. done. Qed.
Lemma leaves_bind {A B} (m : M S A) (f : A → M S B) : leaves m → (∀ a, leaves (f a)) → leaves (m ≫= f).
Proof.
  intros Hm Hf s. wlp_step. eapply wlp_mono; [apply Hm|]. intros a s1 H1. cbn in H1. eapply wlp_mono; [apply Hf|]. intros b s2 H2. by transitivity s1.
Qed.
Lemma leaves_get : leaves get.
Proof. intros s. wlp_step. done. Qed.
Lemma leaves_modify f : (∀ s, R s (f s)) → leaves (modify f).
Proof. intros Hf s. wlp_step. done. Qed.
Lemma leaves_massert b : leaves (massert b).
Proof. intros s. by rewrite wlp_massert. Qed.
Lemma leaves_of_opt {A} e (o : option A) : leaves (of_opt e o).
Proof. intros s. by rewrite wlp_of_opt. Qed.
Lemma leaves_of_res {A} (r : res A) : leaves (of_res r).
Proof. intros s. by rewrite wlp_of_res. Qed.
Lemma leaves_for_each {A} (l : list A) (f : A → M S ()) : (∀ x, leaves (f x)) → leaves (for_each l f).
Proof. intros Hf. induction l as [|x l IH]; cbn [for_each]; [apply leaves_ret|]. apply leaves_bind; [apply Hf|intros _; apply IH]. Qed.
End leaves.

(** A call that is a composition of such calls *)
Ltac leaves_with lems :=
  repeat first
    [ lems
    | apply leaves_raise
    | (first [apply leaves_ret | apply leaves_get | apply leaves_massert | apply leaves_of_opt | apply leaves_of_res]; apply _)
    | apply leaves_bind; [apply _| |intros ?]
    | apply leaves_for_each; [apply _|intros ?]
    | match goal with |- leaves _ (match ?x with _ => _ end) => destruct x end ].

(** ** Dictionaries and sublists *)
Lemma sublist_concat {A} (l l' : list (list A)) : Forall2 sublist l l' → concat l `sublist_of` concat l'.
Proof. induction 1; cbn [concat]; [done|]. by apply sublist_app. Qed.

Lemma concat_sublist {A} (l l' : list (list A)) : l `sublist_of` l' → concat l `sublist_of` concat l'.
Proof. induction 1; cbn [concat]; [done|by apply sublist_app|by apply sublist_inserts_l]. Qed.

(** The keys of the jobs of a kind, a list per job *)
Definition job_lists (store : bool) (js : list (Z * TransferJobStatus)) : list (list OffloadKey) :=
  (λ j : Z * TransferJobStatus, elements (js_keys j.2)) <$> filter (λ j : Z * TransferJobStatus, is_store j.2 = store) js.

Lemma job_lists_snoc b js i j : job_lists b (js ++ [(i, j)]) = job_lists b js ++ (if decide (is_store j = b) then [elements (js_keys j)] else []).
Proof. unfold job_lists. rewrite filter_app, fmap_app. f_equal. rewrite filter_cons. cbn [snd]. by case_decide. Qed.

Lemma job_lists_set b i j j' js : dict_get i js = Some j → js_keys j' = js_keys j → is_store j' = is_store j →
  job_lists b (dict_set i j' js) = job_lists b js.
Proof.
  intros Hi Hk Hs. unfold job_lists. induction js as [|[i0 j0] js IH]; [done|]. cbn [dict_get dict_set] in *. destruct (decide (i0 = i)) as [->|].
  - injection Hi as ->. rewrite !filter_cons. cbn [snd]. rewrite Hs. case_decide; [|done]. cbn [fmap list_fmap snd]. by rewrite Hk.
  - specialize (IH Hi). rewrite !filter_cons. cbn [snd]. case_decide; cbn [fmap list_fmap]; by rewrite IH.
Qed.

Lemma dict_del_absent {V} (i : Z) (d : list (Z * V)) : i ∉ d.*1 → dict_del i d = d.
Proof.
  intros Hi. unfold dict_del. apply filter_id. intros kv Hkv E. apply Hi. rewrite <- E. apply list_elem_of_fmap. by exists kv.
Qed.

Lemma dict_del_cons {V} (i i0 : Z) (v : V) (d : list (Z * V)) : dict_del i ((i0, v) :: d) = if decide (i0 = i) then dict_del i d else (i0, v) :: dict_del i d.
Proof. unfold dict_del. rewrite filter_cons. cbn [fst]. repeat case_decide; naive_solver. Qed.

Lemma job_lists_del i j js : NoDup js.*1 → dict_get i js = Some j →
  (∃ n, job_lists (is_store j) js !! n = Some (elements (js_keys j)) ∧ job_lists (is_store j) (dict_del i js) = delete n (job_lists (is_store j) js)) ∧
  job_lists (negb (is_store j)) (dict_del i js) = job_lists (negb (is_store j)) js.
Proof.
  unfold job_lists. induction js as [|[i0 j0] js IH]; [done|]. cbn [fmap list_fmap fst dict_get]. intros Hnd Hi.
  apply NoDup_cons in Hnd as [Hi0 Hnd]. rewrite dict_del_cons.
  destruct (decide (i0 = i)) as [->|Hne].
  - injection Hi as ->. rewrite dict_del_absent by done. split.
    + exists 0%nat. rewrite filter_cons, decide_True by done. done.
    + rewrite filter_cons. cbn [snd]. rewrite decide_False; [done|]. by destruct (is_store j).
  - destruct (IH Hnd Hi) as [(n & Hn & Hd) Hother]. rewrite !filter_cons. cbn [snd]. split.
    + case_decide; [|by exists n]. exists (Datatypes.S n). cbn [fmap list_fmap]. split; [done|]. by rewrite Hd.
    + case_decide; [|done]. cbn [fmap list_fmap]. by rewrite Hother.
Qed.

(** ** The calls that leave the jobs alone *)
Section jobs.
Context {P : Type} `{PolicyLaws P} (N : Z) (ev : bool) (threshold max_size : Z).
Context (HN : 0 ≤ N < 2 ^ 53) (Hmax : 0 < max_size).
Context (iter_keys : gset OffloadKey → list OffloadKey) (iter_ids : gset Z → list Z) (iter_strings : gset string → list string).
Context (Hiter : ∀ s, iter_keys s ≡ₚ elements s).
Abbreviation Mgr := (CPUOffloadingManager P).
Abbreviation Conn := (OffloadingConnectorScheduler Mgr).
Abbreviation client := (client N ev threshold max_size).

(** The transfers of the protocol are the jobs in progress, in their order. *)
Definition follows (c : Conn) : Prop := ∃ j, client (manager c) j ∧
  Forall2 (≡ₚ) (loads j) (job_lists false (jobs_in_progress c)) ∧ Forall2 (≡ₚ) (stores j) (job_lists true (jobs_in_progress c)).

Record ids_ok (c : Conn) : Prop := {
  ids_nodup : NoDup (jobs_in_progress c).*1;
  ids_lt i : i ∈ (jobs_in_progress c).*1 → i < job_counter c;
}.

(** The jobs and the transfers of the protocol stay. *)
Record calm (c c' : Conn) : Prop := {
  ca_jobs : jobs_in_progress c' = jobs_in_progress c;
  ca_counter : job_counter c ≤ job_counter c';
  ca_client j : client (manager c) j → client (manager c') j;
}.
#[local] Instance calm_preorder : PreOrder calm.
Proof.
  split; [intros c; by split|]. intros c1 c2 c3 [A1 A2 A3] [B1 B2 B3]. split; [congruence|lia|auto].
Qed.

Lemma calm_follows c c' : calm c c' → follows c → follows c'.
Proof. intros [A1 A2 A3] (j & Hj & Hl & Hs). exists j. rewrite A1. auto. Qed.
Lemma calm_ids c c' : calm c c' → ids_ok c → ids_ok c'.
Proof. intros [A1 A2 A3] [H1 H2]. split; rewrite A1; [done|]. intros i Hi. specialize (H2 i Hi). lia. Qed.

(** One call of the manager is one step of the protocol. *)
Lemma client_call {A} (o : op) (m : M Mgr A) : exec o = (_ ← m; mret None) → (∀ mg j, allowed mg j o) → (∀ j, jobs_after o None j = j) →
  leaves calm (on_manager m).
Proof.
  intros E Ha Hj c. unfold on_manager. rewrite wlp_zoom. apply wlp_intro. intros a mg' Em. split; [done|cbn; lia|]. intros j Hc.
  rewrite <- (Hj j). eapply client_step; [exact Hc|apply Ha|]. rewrite E. unfold mbind, M_bind. cbn [manager set_manager]. by rewrite Em.
Qed.

Lemma lookup_calm k : leaves calm (on_manager (mg_lookup k)).
Proof. by apply (client_call (CPUOffload.Lookup k)). Qed.
Lemma mg_touch_calm ks : leaves calm (on_manager (mg_touch ks)).
Proof. by apply (client_call (CPUOffload.Touch ks)). Qed.
Lemma mg_take_events_calm : leaves calm (on_manager mg_take_events).
Proof. by apply (client_call CPUOffload.TakeEvents). Qed.
Lemma calm_set (f : Conn → Conn) : (∀ c, jobs_in_progress (f c) = jobs_in_progress c ∧ job_counter (f c) = job_counter c ∧ manager (f c) = manager c) →
  leaves calm (modify f).
Proof. intros Hf. apply leaves_modify. intros c. destruct (Hf c) as (E1 & E2 & E3). split; [done|lia|]. intros j. by rewrite E3. Qed.

Create HintDb calm.
#[local] Hint Resolve lookup_calm mg_touch_calm mg_take_events_calm : calm.
Ltac calm := leaves_with ltac:(idtac; first [solve [auto with calm nocore] | apply calm_set; intros ?; by repeat case_match]).

Lemma prefix_loop_calm keys n d : leaves calm (prefix_loop keys n d).
Proof. revert n d. induction keys as [|k keys IH]; intros n d; cbn [prefix_loop]; calm. Qed.
Lemma window_loop_calm rkeys size n d : leaves calm (window_loop rkeys size n d).
Proof. revert n d. induction rkeys as [|k keys IH]; intros n d; cbn [window_loop]; calm. Qed.
#[local] Hint Resolve prefix_loop_calm window_loop_calm : calm.
Lemma lookup_group_calm nt co gc gs l : leaves calm (lookup_group nt co gc gs l).
Proof. unfold lookup_group, maximal_prefix_lookup, sliding_window_lookup. calm. Qed.
#[local] Hint Resolve lookup_group_calm : calm.
Lemma lookup_pass_calm nt co rs groups l : leaves calm (lookup_pass nt co rs groups l).
Proof. revert l. induction groups as [|i groups IH]; intros l; cbn [lookup_pass]; calm. Qed.
#[local] Hint Resolve lookup_pass_calm : calm.
Lemma lookup_loop_calm fuel nt co rs l : leaves calm (lookup_loop fuel nt co rs l).
Proof. revert l. induction fuel as [|fuel IH]; intros l; cbn [lookup_loop]; calm. Qed.
#[local] Hint Resolve lookup_loop_calm : calm.
Lemma touch_calm rs : leaves calm (Connector.touch rs).
Proof. unfold Connector.touch, touch_group. calm. Qed.
#[local] Hint Resolve touch_calm : calm.
Lemma put_status_calm rid rs : leaves calm (put_status rid rs).
Proof. unfold put_status. calm. Qed.
Lemma get_status_calm rid : leaves calm (get_status rid).
Proof. unfold get_status. calm. Qed.
#[local] Hint Resolve put_status_calm get_status_calm : calm.
Lemma get_num_new_matched_tokens_calm request n : leaves calm (get_num_new_matched_tokens request n).
Proof. unfold get_num_new_matched_tokens, Connector.lookup. calm. Qed.
Lemma on_new_request_calm request raw : leaves calm (on_new_request request raw).
Proof.
  unfold on_new_request. cbn [mg_on_new_request CPU_manager]. calm.
Qed.
Lemma take_events_calm : leaves calm Connector.take_events.
Proof. unfold Connector.take_events. calm. Qed.
Lemma watch_block_calm j b : leaves calm (watch_block j b).
Proof. unfold watch_block. calm. Qed.
#[local] Hint Resolve watch_block_calm : calm.
Lemma nothing_calm : leaves calm (on_manager (mret tt)).
Proof. intros c. unfold on_manager. wlp_step. by destruct c. Qed.
#[local] Hint Resolve nothing_calm : calm.
Lemma request_finished_calm request : leaves calm (request_finished iter_ids request).
Proof. unfold request_finished, watch_finished. cbn [mg_on_request_finished CPU_manager]. calm. Qed.
Lemma take_new_blocks_calm objs reqs ends : leaves calm (take_new_blocks objs reqs ends).
Proof. revert ends. induction reqs as [|[[rid groups] pre] reqs IH]; intros ends; cbn [take_new_blocks]; calm. Qed.
#[local] Hint Resolve take_new_blocks_calm : calm.
Lemma update_req_states_calm objs so : leaves calm (update_req_states objs so).
Proof. unfold update_req_states. calm. Qed.
Lemma flush_calm js : leaves calm (flush js).
Proof. unfold flush. calm. Qed.
#[local] Hint Resolve update_req_states_calm flush_calm : calm.
Lemma flush_preempted_calm rid : leaves calm (flush_preempted iter_ids rid).
Proof. unfold flush_preempted, assert_store_jobs. calm. Qed.
#[local] Hint Resolve flush_preempted_calm : calm.
Lemma generate_job_id_calm : leaves calm generate_job_id.
Proof. intros c. unfold generate_job_id. wlp_step. split; [done|cbn; lia|done]. Qed.
#[local] Hint Resolve generate_job_id_calm : calm.
Lemma remove_pending_job_calm j ids : leaves calm (remove_pending_job j ids).
Proof. unfold remove_pending_job, remove_pending_block. calm. Qed.
#[local] Hint Resolve remove_pending_job_calm : calm.

(** ** Loads *)

(** A load that returns was one of blocks that lookups find ready. *)
Lemma prepare_load_ready ks (mg mg' : Mgr) ids : policy_wf (policy mg) → CPUOffload.prepare_load ks mg = (Ok ids, mg') →
  ∀ k, k ∈ ks → ∃ b, cached mg !! k = Some b ∧ is_ready b = true.
Proof.
  revert mg ids. induction ks as [|k ks IH]; intros mg ids Hwf E x Hx; [by apply elem_of_nil in Hx|].
  cbn [CPUOffload.prepare_load] in E. unfold mbind, M_bind, get, modify in E. rewrite (policy_get_ok k) in E by done. fold (cached mg) in E.
  destruct (cached mg !! k) as [b|] eqn:Eb; [|done]. cbn [of_opt mret M_ret] in E. unfold massert in E. destruct (is_ready b) eqn:Er; [|done].
  cbn [mret M_ret] in E. destruct (CPUOffload.prepare_load ks _) as [[ids'|] mg1] eqn:E1; [|done].
  apply elem_of_cons in Hx as [->|Hx]; [by exists b|].
  destruct (policy_write_ok k (OffloadPolicy.set_ref_cnt (OffloadPolicy.ref_cnt b + 1) b) (policy mg)) as [Hwf1 Hc1]; [done|by exists b|].
  injection E as _ ->. destruct (IH (put k (OffloadPolicy.set_ref_cnt (OffloadPolicy.ref_cnt b + 1) b) mg) ids' Hwf1 E1 x Hx) as (b' & Hb' & Hr'). unfold cached in Hb'. cbn [put CPUOffload.set_policy policy] in Hb'. rewrite Hc1 in Hb'.
  destruct (decide (x = k)) as [->|Hne]; [by exists b|]. rewrite lookup_insert_ne in Hb' by done. by exists b'.
Qed.

Lemma lookup_ready (mg : Mgr) L S X k b : inv N L S X mg → cached mg !! k = Some b → is_ready b = true →
  (CPUOffload.lookup k mg).1 = Ok (Some true).
Proof.
  intros Hi Hb Hr. destruct (wp_elim _ _ _ (lookup_ok N k L S X mg Hi)) as (r & mg' & -> & _ & _ & ->). cbn [fst].
  unfold slot. rewrite Hb. cbn. rewrite (ready_iff N k b L S X mg Hi Hb) in Hr. apply bool_decide_eq_true in Hr. by rewrite bool_decide_eq_false_2.
Qed.

Lemma elements_set (ks : list OffloadKey) : NoDup ks → elements (list_to_set ks : gset OffloadKey) ≡ₚ ks.
Proof. intros Hk. by apply elements_list_to_set. Qed.

Lemma Forall2_Permutation_concat (l l' : list (list OffloadKey)) : Forall2 (≡ₚ) l l' → concat l ≡ₚ concat l'.
Proof. induction 1; cbn [concat]; [done|]. by f_equiv. Qed.

(** The bound on the loads in progress, for which a reference count does not overflow *)
Definition few_loads (js : list (Z * TransferJobStatus)) : Prop := len (concat (job_lists false js)) < 2 ^ 31.

Lemma prepare_load_follows (c : Conn) ks : follows c → NoDup ks →
  wlp (on_manager (mg_prepare_load ks)) (λ _ c', c' = set_manager (manager c') c ∧
    (len (concat (job_lists false (jobs_in_progress c))) + len ks < 2 ^ 31 → ∃ j, client (manager c') j ∧
      Forall2 (≡ₚ) (loads j) (job_lists false (jobs_in_progress c) ++ [elements (list_to_set ks : gset OffloadKey)]) ∧
      Forall2 (≡ₚ) (stores j) (job_lists true (jobs_in_progress c)))) c.
Proof.
  intros (j & Hj & Hl & Hs) Hks. unfold on_manager. rewrite wlp_zoom. apply wlp_intro. intros ids mg' E. split; [done|]. intros Hb.
  pose proof (client_inv N ev threshold max_size (manager c) j HN Hmax Hj) as Hi.
  exists (mkJobs (loads j ++ [ks]) (stores j)). split_and!.
  - apply (client_step N ev threshold max_size (manager c) j (PrepareLoad ks) None mg' Hj).
    + split.
      * intros k Hk. destruct (prepare_load_ready ks (manager c) mg' ids (i_wf _ _ _ _ _ Hi) E k Hk) as (b & Eb & Er). by eapply lookup_ready.
      * by rewrite (Permutation_length (Forall2_Permutation_concat _ _ Hl)).
    + cbn [exec]. unfold mbind, M_bind. cbn [mg_prepare_load CPU_manager] in E. by rewrite E.
  - apply Forall2_app; [done|]. constructor; [|done]. by rewrite elements_set.
  - done.
Qed.

(** The keys of the states of the requests; different blocks have different keys, unless
    their hashes collide. *)
Definition keys_of (rs : RequestOffloadState) : list (list OffloadKey) := offload_keys <$> group_states rs.
Definition distinct (c : Conn) : Prop := ∀ rid rs, dict_get rid (req_status c) = Some rs → NoDup (concat (keys_of rs)).

Lemma alloc_group_keys rid nl nc i gc gs blocks l (c : Conn) :
  wlp (alloc_group rid nl nc i gc gs blocks l) (λ l' c', calm c c' ∧ ∃ ks, keys_to_load l' = keys_to_load l ++ ks ∧ ks `sublist_of` offload_keys gs) c.
Proof.
  assert (Hk : wlp (alloc_group rid nl nc i gc gs blocks l) (λ l' _, ∃ ks, keys_to_load l' = keys_to_load l ++ ks ∧ ks `sublist_of` offload_keys gs) c).
  { unfold alloc_group. wlp_step. rewrite wlp_massert. intros _. wlp_step. rewrite wlp_massert. intros _.
    assert (Hm : ∀ (m : M Conn ()) (Q : () → Conn → Prop) s, (∀ a s', Q a s') → wlp m Q s) by (intros m Q s HQ; apply wlp_intro; intros a s' _; apply HQ).
    wlp_step. apply Hm. intros _ c1. wlp_step. rewrite wlp_massert. intros _. unfold get_status. wlp_step. rewrite wlp_of_opt. intros rs _.
    wlp_step. apply Hm. intros _ c2. wlp_step. cbn [keys_to_load]. eexists. split; [done|]. destruct (_ =? 0); [apply sublist_nil_l|apply py_slice_sublist]. }
  assert (Hc : leaves calm (alloc_group rid nl nc i gc gs blocks l)) by (unfold alloc_group, put_group; calm).
  apply wlp_intro. intros l' c' E. split; [by apply (wlp_elim _ _ _ _ _ (Hc c) E)|by apply (wlp_elim _ _ _ _ _ Hk E)].
Qed.

Lemma alloc_groups_keys rid nl nc i groups l (c : Conn) :
  wlp (alloc_groups rid nl nc i groups l) (λ l' c', calm c c' ∧ ∃ ks, keys_to_load l' = keys_to_load l ++ ks ∧
    ks `sublist_of` concat ((λ g : GroupOffloadConfig * RequestGroupState * list KVCacheBlock, offload_keys g.1.2) <$> groups)) c.
Proof.
  revert i l c. induction groups as [|[[gc gs] blocks] groups IH]; intros i l c; cbn [alloc_groups].
  { wlp_step. split; [done|]. exists []. by rewrite app_nil_r. }
  wlp_step. eapply wlp_mono; [apply alloc_group_keys|]. intros l1 c1 (H1 & ks1 & E1 & S1).
  eapply wlp_mono; [apply IH|]. intros l2 c2 (H2 & ks2 & E2 & S2). split; [by transitivity c1|].
  exists (ks1 ++ ks2). split; [by rewrite E2, E1, app_assoc|]. cbn [fmap list_fmap concat fst snd]. by apply sublist_app.
Qed.

Lemma zip_keys (gcs : list GroupOffloadConfig) (gss : list RequestGroupState) (blocks : list (list KVCacheBlock)) :
  ((λ g : GroupOffloadConfig * RequestGroupState * list KVCacheBlock, offload_keys g.1.2) <$> zip (zip gcs gss) blocks) `sublist_of` (offload_keys <$> gss).
Proof.
  revert gcs blocks. induction gss as [|gs gss IH]; intros [|gc gcs] [|b blocks]; cbn; try apply sublist_nil_l. by apply sublist_skip, IH.
Qed.

(** A new job enters the dictionary. *)
Lemma new_job_follows (c : Conn) i js (b : bool) : is_store js = b → i ∉ (jobs_in_progress c).*1 →
  (∃ j, client (manager c) j ∧
     Forall2 (≡ₚ) (loads j) (job_lists false (jobs_in_progress c) ++ (if b then [] else [elements (js_keys js)])) ∧
     Forall2 (≡ₚ) (stores j) (job_lists true (jobs_in_progress c) ++ (if b then [elements (js_keys js)] else []))) →
  follows (set_jobs (dict_set i js (jobs_in_progress c)) c).
Proof.
  intros Hb Hi (j & Hj & Hl & Hs). exists j. cbn [manager jobs_in_progress set_jobs]. rewrite dict_set_fresh by done.
  rewrite !job_lists_snoc, Hb. by destruct b.
Qed.

Lemma update_state_after_alloc_ok request blocks n (c : Conn) : follows c → ids_ok c → distinct c →
  wlp (update_state_after_alloc request blocks n) (λ _ c', ids_ok c' ∧ (few_loads (jobs_in_progress c') → follows c')) c.
Proof.
  intros Hf Hids Hd. unfold update_state_after_alloc, get_status, put_status, generate_job_id. destruct (n =? 0); [by wlp_step|]. wlp_step.
  rewrite wlp_of_opt. intros rs Hrs. wlp_step. eapply wlp_mono; [apply alloc_groups_keys|]. intros l c1 (H1 & ks & Eks & Hsub).
  cbn [keys_to_load app] in Eks.
  assert (Hnd : NoDup (keys_to_load l)).
  { rewrite Eks. eapply sublist_NoDup; [exact (Hd _ _ Hrs)|]. etrans; [exact Hsub|]. apply concat_sublist, zip_keys. }
  pose proof (calm_follows c c1 H1 Hf) as Hf1. pose proof (calm_ids c c1 H1 Hids) as Hids1.
  wlp_step. eapply wlp_mono; [by apply prepare_load_follows|]. intros src c2 [Em Hj]. wlp_step. rewrite wlp_of_res. intros dst _. wlp_step.
  rewrite wlp_of_opt. intros rs2 _. wlp_step. rewrite wlp_massert. intros _. wlp_step.
  set (c3 := set_req_status _ _).
  assert (E3 : jobs_in_progress c3 = jobs_in_progress c1 ∧ job_counter c3 = job_counter c1 + 1 ∧ manager c3 = manager c2) by (unfold c3; rewrite Em; done).
  destruct E3 as (E3a & E3b & E3c). set (i := job_counter c2). assert (Ei : i = job_counter c1) by (unfold i; by rewrite Em).
  set (js := mkJobStatus _ _ _ _ _ _). set (c4 := set_jobs _ _).
  assert (Hi : i ∉ (jobs_in_progress c3).*1).
  { rewrite E3a, Ei. intros Hin. apply (ids_lt _ Hids1) in Hin. lia. }
  assert (Hids4 : ids_ok c4).
  { split; cbn [c4 set_jobs jobs_in_progress job_counter]; rewrite dict_set_fresh, fmap_app by done; cbn [fmap list_fmap fst].
    - apply NoDup_app. split_and!; [rewrite E3a; apply Hids1| |apply NoDup_singleton]. intros x Hx ->%list_elem_of_singleton. done.
    - intros x [Hx| ->%list_elem_of_singleton]%elem_of_app; rewrite E3b; [|lia]. rewrite E3a in Hx. apply (ids_lt _ Hids1) in Hx. lia. }
  assert (Hfew : few_loads (jobs_in_progress c4) → follows c4).
  { intros Hfew. apply (new_job_follows c3 i js false); [done|done|]. rewrite E3a, E3c, app_nil_r. apply Hj.
    unfold few_loads in Hfew. cbn [c4 set_jobs jobs_in_progress] in Hfew. rewrite dict_set_fresh, job_lists_snoc in Hfew by done.
    cbn [is_store js] in Hfew. rewrite decide_True in Hfew by done. rewrite concat_app, length_app in Hfew. cbn [concat js_keys js] in Hfew.
    rewrite app_nil_r, (Permutation_length (elements_set _ Hnd)), E3a in Hfew. lia. }
  destruct (blocks_being_loaded c4); [|done]. split; [destruct Hids4 as [A1 A2]; by split|]. exact Hfew.
Qed.

(** ** Stores *)
Lemma wanted_keys_sublist gc idx (l : list (OffloadKey * Z)) ks : wanted_keys gc idx l = Ok ks → ks `sublist_of` l.*1.
Proof.
  revert idx ks. induction l as [|[k b] l IH]; intros idx ks; cbn [wanted_keys]; [by intros [= <-]|].
  set (t := if b =? 0 then _ else _). destruct t as [t'|]; [|done]. cbn [mbind res_bind].
  destruct (wanted_keys gc (idx + 1) l) as [ks'|] eqn:E; [|done]. cbn [mbind res_bind]. intros [= <-].
  specialize (IH _ _ E). cbn [fmap list_fmap fst]. destruct t'; [by apply sublist_skip|by apply sublist_cons].
Qed.

Lemma fst_zip_sublist {A B} (l : list A) (k : list B) : (zip l k).*1 `sublist_of` l.
Proof. revert k. induction l as [|x l IH]; intros [|y k]; cbn; try apply sublist_nil_l. by apply sublist_skip, IH. Qed.

Lemma new_keys_sublist factor n (gcs : list GroupOffloadConfig) (gss : list RequestGroupState) ks :
  new_keys factor n (zip gcs gss) = Ok ks → ks `sublist_of` concat (offload_keys <$> gss).
Proof.
  revert gss ks. induction gcs as [|gc gcs IH]; intros [|gs gss] ks; cbn [zip zip_with new_keys]; try (intros [= <-]; apply sublist_nil_l).
  destruct (group_new_keys factor n gc gs) as [k1|] eqn:E1; [|done]. cbn [mbind res_bind].
  fold (zip gcs gss). destruct (new_keys factor n (zip gcs gss)) as [k2|] eqn:E2; [|done]. cbn [mbind res_bind]. intros [= <-].
  cbn [fmap list_fmap concat]. apply sublist_app; [|by apply IH]. unfold group_new_keys in E1.
  destruct (_ <=? _); [injection E1 as <-; apply sublist_nil_l|]. destruct (negb _); [done|].
  apply wanted_keys_sublist in E1. etrans; [exact E1|]. etrans; [apply fst_zip_sublist|]. apply py_slice_sublist.
Qed.

Lemma store_groups_keys factor n ks (gcs : list GroupOffloadConfig) (gss : list RequestGroupState) l :
  store_groups factor n ks (zip gcs gss) = Ok l → (offload_keys <$> st_groups l) `sublist_of` (offload_keys <$> gss).
Proof.
  revert gss l. induction gcs as [|gc gcs IH]; intros [|gs gss] l; cbn [zip zip_with store_groups]; try (intros [= <-]; apply sublist_nil_l).
  destruct (store_blocks _ _ _ _ _ _ _) as [[first ids]|]; [|done]. cbn [mbind res_bind]. fold (zip gcs gss).
  destruct (store_groups factor n ks (zip gcs gss)) as [l'|] eqn:E; [|done]. cbn [mbind res_bind]. intros [= <-].
  cbn [st_groups fmap list_fmap gs_set_next offload_keys]. by apply sublist_skip, IH.
Qed.

Lemma dict_get_set_key {V} rid rid' (v : V) (d : list (string * V)) :
  dict_get rid' (dict_set rid v d) = if decide (rid' = rid) then Some v else dict_get rid' d.
Proof.
  induction d as [|[k w] d IH]; cbn [dict_set dict_get]; [repeat case_decide; congruence|].
  destruct (decide (k = rid)) as [->|]; cbn [dict_get]; [repeat case_decide; congruence|]. rewrite IH. repeat case_decide; congruence.
Qed.

(** The keys of a state may become fewer (they do not, but this is enough). *)
Lemma distinct_put rid rs rs' (c c' : Conn) : distinct c → dict_get rid (req_status c) = Some rs → keys_of rs' `sublist_of` keys_of rs →
  req_status c' = dict_set rid rs' (req_status c) → distinct c'.
Proof.
  intros Hd Hrs Hk E rid' rs0. rewrite E, dict_get_set_key. case_decide as Er; [|apply Hd]. intros [= <-].
  eapply sublist_NoDup; [exact (Hd rid rs Hrs)|]. by apply concat_sublist.
Qed.

(** Calls that moreover leave the states of the requests alone *)
Definition quiet (c c' : Conn) : Prop := calm c c' ∧ req_status c' = req_status c.
#[local] Instance quiet_preorder : PreOrder quiet.
Proof.
  split; [by intros c|]. intros c1 c2 c3 [A1 A2] [B1 B2]. split; [by transitivity c2|congruence].
Qed.
Lemma quiet_set (f : Conn → Conn) :
  (∀ c, jobs_in_progress (f c) = jobs_in_progress c ∧ job_counter (f c) = job_counter c ∧ manager (f c) = manager c ∧ req_status (f c) = req_status c) →
  leaves quiet (modify f).
Proof. intros Hf. apply leaves_modify. intros c. destruct (Hf c) as (E1 & E2 & E3 & E4). split; [split; [done|lia|intros j; by rewrite E3]|done]. Qed.
Lemma quiet_call {A} (m : M Mgr A) : leaves calm (on_manager m) → leaves quiet (on_manager m).
Proof. intros Hm c. specialize (Hm c). unfold on_manager in *. rewrite wlp_zoom in *. eapply wlp_mono; [exact Hm|]. intros a s Hs. done. Qed.
Ltac quiet := leaves_with ltac:(idtac; first [solve [auto with calm nocore] | apply quiet_set; intros ?; by repeat case_match]).

Lemma touch_quiet rs : leaves quiet (Connector.touch rs).
Proof. unfold Connector.touch, touch_group. quiet; apply quiet_call, mg_touch_calm. Qed.
Lemma watch_block_quiet j b : leaves quiet (watch_block j b).
Proof. unfold watch_block. quiet. Qed.
Lemma assert_store_jobs_quiet js : leaves quiet (assert_store_jobs iter_ids js).
Proof. unfold assert_store_jobs. quiet. Qed.
Lemma flush_quiet js : leaves quiet (flush js).
Proof. unfold flush. quiet. Qed.
#[local] Hint Resolve touch_quiet watch_block_quiet assert_store_jobs_quiet flush_quiet : calm.
Lemma flush_preempted_quiet rid : leaves quiet (flush_preempted iter_ids rid).
Proof. unfold flush_preempted. quiet. Qed.
Lemma nothing_quiet : leaves quiet (on_manager (mret tt)).
Proof. apply quiet_call, nothing_calm. Qed.
#[local] Hint Resolve flush_preempted_quiet nothing_quiet : calm.

(** The protocol knows a store that is not yet a job. *)
Definition stores_next (ks : list OffloadKey) (c : Conn) : Prop := ∃ j, client (manager c) j ∧
  Forall2 (≡ₚ) (loads j) (job_lists false (jobs_in_progress c)) ∧
  Forall2 (≡ₚ) (stores j) (job_lists true (jobs_in_progress c) ++ [elements (list_to_set ks : gset OffloadKey)]).

Lemma calm_stores_next ks c c' : calm c c' → stores_next ks c → stores_next ks c'.
Proof. intros [A1 A2 A3] (j & Hj & Hl & Hs). exists j. rewrite A1. auto. Qed.

Lemma prepare_store_follows (c : Conn) ks : follows c → NoDup ks →
  wlp (on_manager (mg_prepare_store ks)) (λ r c', c' = set_manager (manager c') c ∧
    match r with
    | Some out => if bool_decide (keys_to_store out = []) then follows c' else stores_next (keys_to_store out) c'
    | None => follows c'
    end) c.
Proof.
  intros (j & Hj & Hl & Hs) Hks. unfold on_manager. rewrite wlp_zoom. apply wlp_intro. intros r mg' E. split; [done|].
  pose proof (client_inv N ev threshold max_size (manager c) j HN Hmax Hj) as Hi.
  pose proof (client_step N ev threshold max_size (manager c) j (PrepareStore ks) r mg' Hj Hks E) as Hj'.
  destruct r as [out|]; [|by exists j].
  destruct (wp_elim _ _ _ (prepare_store_ok N ks (manager c) _ _ _ Hi Hks)) as (r & mg & E' & Hr).
  cbn [mg_prepare_store CPU_manager] in E. rewrite E in E'. injection E' as <- <-. destruct Hr as [_ Hst].
  cbn [jobs_after] in Hj'. case_bool_decide as Ek; [by exists j|]. eexists. split; [exact Hj'|]. split; [done|].
  apply Forall2_app; [done|]. constructor; [|done]. symmetry. apply elements_set.
  rewrite (st_keys _ _ _ _ _ _ Hst). by apply NoDup_filter, NoDup_filter.
Qed.

Lemma advance_keys cfg t rs : keys_of (advance_stored_idx cfg t rs) `sublist_of` keys_of rs.
Proof.
  unfold keys_of, advance_stored_idx. cbn [group_states rs_set_groups]. generalize (kv_group_configs cfg).
  induction (group_states rs) as [|gs gss IH]; intros [|gc gcs]; cbn; try apply sublist_nil_l. by apply sublist_skip, IH.
Qed.

Lemma put_status_ok rid rs rs' (c : Conn) : distinct c → dict_get rid (req_status c) = Some rs → keys_of rs' `sublist_of` keys_of rs →
  wlp (put_status rid rs') (λ _ c', calm c c' ∧ distinct c' ∧ dict_get rid (req_status c') = Some rs') c.
Proof.
  intros Hd Hrs Hk. pose proof (put_status_calm rid rs' c) as Hc. unfold put_status in *. wlp_step. rewrite wlp_modify in Hc.
  split_and!; [done|by apply (distinct_put rid rs rs' c)|apply dict_get_set_eq].
Qed.

Lemma quiet_distinct c c' : quiet c c' → distinct c → distinct c'.
Proof. intros [_ E] Hd rid rs. rewrite E. apply Hd. Qed.

Lemma store_request_ok objs rid n (c : Conn) : follows c → ids_ok c → distinct c →
  wlp (store_request objs iter_ids rid n) (λ _ c', ids_ok c' ∧ follows c' ∧ distinct c') c.
Proof.
  intros Hf Hids Hd. unfold store_request. wlp_step. destruct (dict_get rid (req_status c)) as [rs|] eqn:Hrs; [|by wlp_step].
  set (t := num_offloadable_tokens _ _ _ _). wlp_step. rewrite wlp_of_res. intros ks Eks. apply new_keys_sublist in Eks.
  assert (Hadv : ∀ c1, follows c1 → ids_ok c1 → req_status c1 = req_status c →
    wlp (put_status rid (advance_stored_idx (config c) t rs)) (λ _ c', ids_ok c' ∧ follows c' ∧ distinct c') c1).
  { intros c1 Hf1 Hids1 E1. eapply wlp_mono; [apply (put_status_ok rid rs); [|by rewrite E1|apply advance_keys]|].
    - intros rid' rs'. rewrite E1. apply Hd.
    - intros _ c' (Hc & Hd' & _). split_and!; [by eapply calm_ids|by eapply calm_follows|done]. }
  destruct (bool_decide (ks = [])). { wlp_step. eapply wlp_mono; [by apply Hadv|]. intros [] c' Hc'. by wlp_step. }
  wlp_step. eapply wlp_mono; [apply prepare_store_follows; [done|]|].
  { eapply sublist_NoDup; [exact (Hd rid rs Hrs)|exact Eks]. }
  intros [out|] c1 [E1 Hout].
  2: { wlp_step. split_and!; [rewrite E1; destruct Hids; by split|done|]. intros rid' rs'. rewrite E1. apply Hd. }
  assert (Hids1 : ids_ok c1) by (rewrite E1; destruct Hids; by split).
  assert (Es1 : req_status c1 = req_status c) by (by rewrite E1).
  destruct (bool_decide (keys_to_store out = [])). { wlp_step. eapply wlp_mono; [by apply Hadv|]. intros [] c' Hc'. by wlp_step. }
  wlp_step. eapply wlp_mono; [apply touch_quiet|]. intros [] c2 [Hc2 Es2]. wlp_step. rewrite wlp_of_res. intros l El.
  apply store_groups_keys in El. wlp_step. set (rs1 := rs_set_groups (st_groups l) rs).
  assert (Hd2 : distinct c2) by (intros rid' rs'; rewrite Es2, Es1; apply Hd).
  eapply wlp_mono; [apply (put_status_ok rid rs); [done|by rewrite Es2, Es1|exact El]|]. intros [] c3 (Hc3 & Hd3 & Hrs3). wlp_step.
  rewrite wlp_of_res. intros src _. unfold generate_job_id. wlp_step. set (i := job_counter c3). set (c4 := set_job_counter (i + 1) c3).
  apply (wlp_mono _ (λ _ c', quiet c4 c')); [destruct (bool_decide _); [wlp_step; done|apply assert_store_jobs_quiet]|].
  intros [] c5 [Hc5 Es5]. wlp_step.
  eapply wlp_mono; [apply (put_status_ok rid rs1); [intros rid' rs'; rewrite Es5; apply Hd3|by rewrite Es5|done]|]. intros [] c6 (Hc6 & Hd6 & Hrs6). wlp_step.
  apply (wlp_mono _ (λ _ c', quiet c6 c')); [apply (leaves_for_each quiet); intros b; apply watch_block_quiet|].
  intros [] c7 [Hc7 Es7]. wlp_step. set (js := mkJobStatus _ _ _ _ _ _).
  assert (H13 : calm c1 c3) by (by transitivity c2). assert (H47 : calm c4 c7) by (transitivity c5; [done|by transitivity c6]).
  assert (H34 : calm c3 c4) by (split; [done|cbn; lia|done]).
  assert (H17 : calm c1 c7) by (transitivity c3; [done|by transitivity c4]).
  assert (Hi : i ∉ (jobs_in_progress c7).*1).
  { rewrite (ca_jobs _ _ H17). intros Hin. apply (ids_lt _ Hids1) in Hin. pose proof (ca_counter _ _ H13). lia. }
  split_and!.
  - destruct (calm_ids _ _ H17 Hids1) as [A1 A2]. split; cbn [set_jobs jobs_in_progress job_counter]; rewrite dict_set_fresh, fmap_app by done; cbn [fmap list_fmap fst].
    + apply NoDup_app. split_and!; [done| |apply NoDup_singleton]. intros x Hx ->%list_elem_of_singleton. done.
    + intros x [Hx| ->%list_elem_of_singleton]%elem_of_app; [by apply A2|]. pose proof (ca_counter _ _ H47) as Hlt. cbn in Hlt. lia.
  - apply (new_job_follows c7 i js true); [done|done|]. destruct (calm_stores_next _ _ _ H17 Hout) as (j & Hj & Hl & Hs).
    exists j. rewrite app_nil_r. done.
  - intros rid' rs'. cbn [set_jobs req_status]. rewrite Es7. apply Hd6.
Qed.

Lemma build_store_jobs_ok objs scheduled js (c : Conn) : follows c → ids_ok c → distinct c →
  wlp (build_store_jobs objs iter_ids scheduled js) (λ _ c', ids_ok c' ∧ follows c') c.
Proof.
  revert js c. induction scheduled as [|[rid n] scheduled IH]; intros js c Hf Hids Hd; cbn [build_store_jobs]; [by wlp_step|].
  wlp_step. eapply wlp_mono; [by apply store_request_ok|]. intros r c' (Hids' & Hf' & Hd'). by apply IH.
Qed.

Lemma build_connector_meta_ok objs so (c : Conn) : follows c → ids_ok c → distinct (update_req_states objs so c).2 →
  wlp (build_connector_meta objs iter_ids iter_strings so) (λ _ c', ids_ok c' ∧ follows c') c.
Proof.
  intros Hf Hids Hd. unfold build_connector_meta. wlp_step. apply wlp_intro. intros [] c1 E1. rewrite E1 in Hd. cbn [snd] in Hd.
  pose proof (wlp_elim _ _ _ _ _ (update_req_states_calm objs so c) E1) as H1. cbn [mg_on_schedule_end CPU_manager].
  set (pre := λ c' : Conn, quiet c1 c'). assert (Hpre : ∀ (m : M Conn ()) s, leaves quiet m → pre s → wlp m (λ _ c', pre c') s).
  { intros m s Hm Hs. eapply wlp_mono; [apply Hm|]. intros [] s' Hs'. unfold pre in *. by transitivity s. }
  wlp_step. eapply wlp_mono; [apply (Hpre _ c1); [apply nothing_quiet|unfold pre; reflexivity]|]. intros [] c2 H2. wlp_step.
  eapply wlp_mono; [apply (Hpre _ c2); [apply (leaves_for_each quiet); intros rid; apply flush_preempted_quiet|done]|]. intros [] c3 H3. wlp_step.
  eapply wlp_mono; [apply (Hpre _ c3); [apply flush_quiet|done]|]. intros [] c4 H4. wlp_step.
  eapply wlp_mono; [apply (Hpre _ c4); [|done]|].
  { destruct (_ && _); [apply flush_quiet|apply (leaves_ret quiet)]. }
  intros [] c5 H5. wlp_step. destruct H5 as [H5 Es5]. assert (H15 : calm c c5) by (by transitivity c1).
  eapply wlp_mono; [apply build_store_jobs_ok|].
  - by eapply calm_follows.
  - by eapply calm_ids.
  - by apply (quiet_distinct c1 c5).
  - intros js c6 [Hids6 Hf6]. wlp_step. split; [destruct Hids6; by split|exact Hf6].
Qed.

(** ** Completions *)
Lemma complete_follows (c : Conn) i js : follows c → ids_ok c → dict_get i (jobs_in_progress c) = Some js →
  wlp (if is_store js then on_manager (mg_complete_store (iter_keys (js_keys js)) true) else on_manager (mg_complete_load (iter_keys (js_keys js))))
    (λ _ c', c' = set_manager (manager c') c ∧ ∃ j, client (manager c') j ∧
      Forall2 (≡ₚ) (loads j) (job_lists false (dict_del i (jobs_in_progress c))) ∧
      Forall2 (≡ₚ) (stores j) (job_lists true (dict_del i (jobs_in_progress c)))) c.
Proof.
  intros (j & Hj & Hl & Hs) [Hnd _] Hi. destruct (job_lists_del i js _ Hnd Hi) as [(n & Hn & Hdel) Hother].
  destruct (is_store js) eqn:Eb; cbn [negb] in Hother; unfold on_manager; rewrite wlp_zoom; apply wlp_intro; intros [] mg' E; (split; [done|]).
  - destruct (Forall2_lookup_r _ _ _ _ _ Hs Hn) as (job & Hjob & Hp). exists (mkJobs (loads j) (delete n (stores j))). split_and!.
    + apply (client_step N ev threshold max_size (manager c) j (CompleteStore n (iter_keys (js_keys js)) true) None mg' Hj).
      * exists job. split; [done|]. by rewrite Hp, Hiter.
      * cbn [exec]. unfold mbind, M_bind. cbn [mg_complete_store CPU_manager] in E. by rewrite E.
    + by rewrite Hother.
    + rewrite Hdel. by apply Forall2_delete.
  - destruct (Forall2_lookup_r _ _ _ _ _ Hl Hn) as (job & Hjob & Hp). exists (mkJobs (delete n (loads j)) (stores j)). split_and!.
    + apply (client_step N ev threshold max_size (manager c) j (CompleteLoad n (iter_keys (js_keys js))) None mg' Hj).
      * exists job. split; [done|]. by rewrite Hp, Hiter.
      * cbn [exec]. unfold mbind, M_bind. cbn [mg_complete_load CPU_manager] in E. by rewrite E.
    + rewrite Hdel. by apply Forall2_delete.
    + by rewrite Hother.
Qed.

(** The protocol is ahead of the connector by the end of one job. *)
Definition job_ended (i : Z) (c : Conn) : Prop := ids_ok c ∧ ∃ j, client (manager c) j ∧
  Forall2 (≡ₚ) (loads j) (job_lists false (dict_del i (jobs_in_progress c))) ∧
  Forall2 (≡ₚ) (stores j) (job_lists true (dict_del i (jobs_in_progress c))).

Lemma calm_ended i c c' : calm c c' → job_ended i c → job_ended i c'.
Proof. intros Hc (Hids & j & Hj & Hl & Hs). split; [by eapply calm_ids|]. exists j. rewrite (ca_jobs _ _ Hc). split; [by apply Hc|done]. Qed.

Lemma complete_job_ok objs i js (c : Conn) : follows c → ids_ok c → dict_get i (jobs_in_progress c) = Some js →
  wlp (complete_job objs iter_keys i js) (λ _ c', ids_ok c' ∧ follows c') c.
Proof.
  intros Hf Hids Hi. unfold complete_job, get_status. wlp_step. rewrite wlp_of_opt. intros rs _. wlp_step.
  apply (wlp_mono _ (λ _ c', job_ended i c')).
  { pose proof (complete_follows c i js Hf Hids Hi) as Hc.
    assert (Hend : ∀ c' : Conn, c' = set_manager (manager c') c → (∃ j, client (manager c') j ∧
      Forall2 (≡ₚ) (loads j) (job_lists false (dict_del i (jobs_in_progress c))) ∧
      Forall2 (≡ₚ) (stores j) (job_lists true (dict_del i (jobs_in_progress c)))) → job_ended i c').
    { intros c' E Hj. split; [rewrite E; destruct Hids; by split|]. rewrite E. exact Hj. }
    destruct (is_store js); [eapply wlp_mono; [exact Hc|]; intros [] c' [E Hj]; by apply Hend|].
    wlp_step. eapply wlp_mono; [exact Hc|]. intros [] c' [E Hj]. wlp_step. apply (calm_ended i c'); [|by apply Hend].
    destruct (blocks_being_loaded c'); by split. }
  intros [] c1 H1. wlp_step.
  apply (wlp_mono _ (λ _ c', job_ended i c')).
  { match goal with |- wlp ?m _ _ => assert (Hm : leaves calm m) by calm end. eapply wlp_mono; [apply Hm|]. intros [] c2 Hc2. by eapply calm_ended. }
  intros [] c2 (Hids2 & Hj2). wlp_step. set (c3 := set_jobs _ c2).
  assert (H3 : ids_ok c3 ∧ follows c3).
  { split; [|exact Hj2]. destruct Hids2 as [A1 A2]. assert (Hsub : (dict_del i (jobs_in_progress c2)).*1 `sublist_of` (jobs_in_progress c2).*1).
    { apply fmap_sublist. unfold dict_del. apply sublist_filter. }
    split; [by eapply sublist_NoDup|]. intros x Hx. apply A2. eapply elem_of_submseteq; [exact Hx|by apply sublist_submseteq]. }
  destruct H3 as [Hids3 Hf3]. match goal with |- wlp ?m _ _ => assert (Hm : leaves calm m) by calm end.
  eapply wlp_mono; [apply Hm|]. intros [] c4 Hc4. split; [by eapply calm_ids|by eapply calm_follows].
Qed.

Lemma dict_set_keys {V} (i : Z) (v v' : V) (d : list (Z * V)) : dict_get i d = Some v → (dict_set i v' d).*1 = d.*1.
Proof.
  induction d as [|[k w] d IH]; cbn [dict_get dict_set]; [done|]. destruct (decide (k = i)) as [->|]; [done|]. intros Hi.
  cbn [fmap list_fmap]. by rewrite IH.
Qed.

Lemma dict_get_set_Z {V} (i : Z) (v : V) (d : list (Z * V)) : dict_get i (dict_set i v d) = Some v.
Proof.
  induction d as [|[k w] d IH]; cbn [dict_set dict_get]; [by rewrite decide_True|]. destruct (decide (k = i)) as [->|]; cbn [dict_get].
  - by rewrite decide_True.
  - by rewrite decide_False.
Qed.

Lemma complete_one_ok objs jc (c : Conn) : follows c → ids_ok c →
  wlp (complete_one objs iter_keys jc) (λ _ c', ids_ok c' ∧ follows c') c.
Proof.
  intros Hf Hids. destruct jc as [i n]. unfold complete_one. wlp_step. rewrite wlp_massert. intros _. wlp_step.
  destruct (i <? stale_job_threshold c); [by wlp_step|]. wlp_step. rewrite wlp_of_opt. intros js Hjs. wlp_step.
  set (js' := js_set_pending _ js). set (c1 := set_jobs _ c).
  assert (Hf1 : follows c1).
  { destruct Hf as (j & Hj & Hl & Hs). exists j. cbn [c1 set_jobs manager jobs_in_progress].
    rewrite !(job_lists_set _ i js js') by done. done. }
  assert (Hids1 : ids_ok c1).
  { destruct Hids as [A1 A2]. split; cbn [c1 set_jobs jobs_in_progress job_counter]; by rewrite (dict_set_keys i js). }
  destruct (0 <? pending_count js'); [by wlp_step|]. wlp_step. rewrite wlp_massert. intros _. apply complete_job_ok; [done|done|].
  apply dict_get_set_Z.
Qed.

Lemma update_connector_output_ok objs l (c : Conn) : follows c → ids_ok c →
  wlp (update_connector_output objs iter_keys l) (λ _ c', ids_ok c' ∧ follows c') c.
Proof.
  unfold update_connector_output. revert c. induction l as [|jc l IH]; intros c Hf Hids; cbn [for_each]; [by wlp_step|].
  wlp_step. eapply wlp_mono; [by apply complete_one_ok|]. intros [] c' [Hids' Hf']. by apply IH.
Qed.

Lemma reset_cache_ok (c : Conn) : follows c → wlp Connector.reset_cache (λ _ c', ids_ok c' ∧ follows c') c.
Proof.
  intros (j & Hj & _). unfold Connector.reset_cache. wlp_step. do 3 (rewrite wlp_massert; intros _; wlp_step).
  unfold flush. wlp_step. unfold on_manager. wlp_step. apply wlp_intro. intros [] mg' E. wlp_step.
  match goal with |- ids_ok ?c' ∧ _ => assert (Hc : follows c' ∧ ids_ok c') end; [|tauto].
  assert (Hj' : client mg' (mkJobs [] [])).
  { apply (client_step N ev threshold max_size (manager c) j ResetCache None mg' Hj I). cbn [exec]. unfold mbind, M_bind.
    cbn [mg_reset_cache CPU_manager manager set_flush] in E. by rewrite E. }
  case_match; (split; [exists (mkJobs [] []); by split_and!|split; cbn; [constructor|by intros x Hx%elem_of_nil]]).
Qed.

(** ** Any sequence of calls

    The requests are objects whose attributes change between the calls: an event that reads
    them carries their values. *)
Inductive event :=
  | OnNewRequest (request : Request) (raw : option raw_param)
  | GetNumNewMatchedTokens (request : Request) (num_computed_tokens : Z)
  | UpdateStateAfterAlloc (request : Request) (blocks : list (list KVCacheBlock)) (num_external_tokens : Z)
  | BuildConnectorMeta (objs : string → Request) (so : SchedulerOutput)
  | UpdateConnectorOutput (objs : string → Request) (completed_jobs : list (Z * Z))
  | RequestFinished (request : Request)
  | TakeConnectorEvents
  | ResetConnectorCache.

Definition handle (e : event) : M Conn () :=
  match e with
  | OnNewRequest r raw => on_new_request r raw
  | GetNumNewMatchedTokens r n => _ ← get_num_new_matched_tokens r n; mret tt
  | UpdateStateAfterAlloc r blocks n => update_state_after_alloc r blocks n
  | BuildConnectorMeta objs so => _ ← build_connector_meta objs iter_ids iter_strings so; mret tt
  | UpdateConnectorOutput objs l => update_connector_output objs iter_keys l
  | RequestFinished r => request_finished iter_ids r
  | TakeConnectorEvents => _ ← Connector.take_events; mret tt
  | ResetConnectorCache => Connector.reset_cache
  end.

(** Where the keys of a load or of a store are taken, different blocks have different keys
    (their hashes do not collide); there are not so many loads that a count overflows. *)
Definition keys_differ (e : event) (c : Conn) : Prop :=
  match e with
  | UpdateStateAfterAlloc _ _ _ => distinct c
  | BuildConnectorMeta objs so => distinct (update_req_states objs so c).2
  | _ => True
  end.

Inductive reach : Conn → Prop :=
  | reach_init spec c : Connector.init spec (CPUOffload.init N ev threshold max_size) = Ok c → reach c
  | reach_step c e c' : reach c → keys_differ e c → handle e c = (Ok tt, c') → few_loads (jobs_in_progress c') → reach c'.

Lemma reach_follows c : reach c → ids_ok c ∧ follows c.
Proof.
  induction 1 as [spec c E|c e c' _ [Hids Hf] Hk E Hfew].
  - unfold Connector.init in E. destruct (from_spec spec) as [cfg|]; [|done]. cbn [mbind res_bind] in E. injection E as <-. split.
    + split; cbn; [constructor|by intros i Hi%elem_of_nil].
    + exists (mkJobs [] []). split; [constructor|done].
  - assert (Hcalm : ∀ m : M Conn (), leaves calm m → m c = (Ok tt, c') → ids_ok c' ∧ follows c').
    { intros m Hm Em. pose proof (wlp_elim _ _ _ _ _ (Hm c) Em) as Hc. cbv beta in Hc. split; [by eapply calm_ids|by eapply calm_follows]. }
    destruct e as [r raw|r n|r blocks n|objs so|objs l|r| |]; cbn [handle keys_differ] in *.
    + by apply (Hcalm _ (on_new_request_calm r raw)).
    + refine (Hcalm _ _ E). pose proof (get_num_new_matched_tokens_calm r n). calm.
    + pose proof (wlp_elim _ _ _ _ _ (update_state_after_alloc_ok r blocks n c Hf Hids Hk) E) as [? ?]. auto.
    + unfold mbind, M_bind in E. destruct (build_connector_meta objs iter_ids iter_strings so c) as [[meta|] c1] eqn:Em; [|done].
      injection E as ->. exact (wlp_elim _ _ _ _ _ (build_connector_meta_ok objs so c Hf Hids Hk) Em).
    + exact (wlp_elim _ _ _ _ _ (update_connector_output_ok objs l c Hf Hids) E).
    + by apply (Hcalm _ (request_finished_calm r)).
    + refine (Hcalm _ _ E). pose proof take_events_calm. calm.
    + exact (wlp_elim _ _ _ _ _ (reset_cache_ok c Hf) E).
Qed.

(** C13. After any sequence of calls of the connector, the calls that it has made to the
    manager are a run of the manager's protocol, whose loads and stores in progress are the
    jobs of the connector, in their order. *)
Theorem connector_follows_protocol c : reach c → ∃ j, client (manager c) j ∧
  Forall2 (≡ₚ) (loads j) (job_lists false (jobs_in_progress c)) ∧ Forall2 (≡ₚ) (stores j) (job_lists true (jobs_in_progress c)).
Proof. intros Hc. by apply reach_follows. Qed.

(** C14. Every block of a job in progress has a slot, which no other block has; while it is
    being stored it is not ready, while it is being loaded it counts the loads, so that it is
    not evicted. *)
Theorem jobs_hold_slots c i js k : reach c → (i, js) ∈ jobs_in_progress c → k ∈ js_keys js →
  ∃ b, cached (manager c) !! k = Some b ∧
    (if is_store js then OffloadPolicy.ref_cnt b = -1 else 0 < OffloadPolicy.ref_cnt b) ∧
    ∀ k' b', cached (manager c) !! k' = Some b' → OffloadPolicy.block_id b' = OffloadPolicy.block_id b → k' = k.
Proof.
  intros Hc Hjs Hk. destruct (reach_follows c Hc) as [_ (j & Hj & Hl & Hs)].
  pose proof (client_inv N ev threshold max_size (manager c) j HN Hmax Hj) as Hi.
  assert (Hin : k ∈ concat (if is_store js then stores j else loads j)).
  { assert (Hp : concat (if is_store js then stores j else loads j) ≡ₚ concat (job_lists (is_store js) (jobs_in_progress c)))
      by (destruct (is_store js); by apply Forall2_Permutation_concat).
    rewrite Hp. apply list_elem_of_In, in_concat. exists (elements (js_keys js)). rewrite <- !list_elem_of_In. split; [|by apply elem_of_elements].
    unfold job_lists. apply list_elem_of_fmap. exists (i, js). split; [done|]. by apply list_elem_of_filter. }
  assert (Hb : is_Some (cached (manager c) !! k)).
  { destruct (is_store js); [by apply (i_stores _ _ _ _ _ Hi)|by apply (i_loads _ _ _ _ _ Hi)]. }
  destruct Hb as [b Hb]. exists b. split_and!; [done| |].
  - pose proof (i_cnt _ _ _ _ _ Hi k b Hb) as Hcnt. destruct (is_store js).
    + by rewrite decide_True in Hcnt.
    + destruct (i_loads _ _ _ _ _ Hi k Hin) as [_ Hn]. rewrite decide_False in Hcnt by done. pose proof (occ_bounds k (concat (loads j))).
      destruct (decide (occ k (concat (loads j)) = 0)) as [E|]; [by apply occ_0 in E|lia].
  - intros k' b' Hb' Eid. destruct (decide (k' = k)) as [|Hne]; [done|]. exfalso.
    pose proof (i_slots _ _ _ _ _ Hi) as Hsl. assert (Hnd : NoDup (slots (cached (manager c)))).
    { assert (Hnd : NoDup (slots (cached (manager c)) ++ free_list (manager c) ++ [])) by (rewrite Hsl; apply NoDup_seqZ).
      by apply NoDup_app in Hnd as [? _]. }
    rewrite (slots_delete k b) in Hnd by done. apply NoDup_cons in Hnd as [Hn _]. apply Hn.
    unfold slots. apply list_elem_of_fmap. exists b'. split; [done|]. apply list_elem_of_fmap. exists (k', b'). split; [done|].
    apply elem_of_map_to_list. by rewrite lookup_delete_ne.
Qed.
End jobs.

(** ** A run: a request stores its blocks, and the cache is reset meanwhile *)
Module JobsDemo.
Import LookupDemo.
Definition output (blocks : list (list Z)) (scheduled : Z) : SchedulerOutput :=
  mkOutput [mkNewData "r" (Some []) [] None None blocks 0 None None None] cached_make_empty [("r"%string, scheduled)] scheduled [] [] [] ∅ [] ∅
    false false None None.
Definition objs (rid : string) : Request := request rid 5.
Definition start : OffloadingConnectorScheduler Lru :=
  match Connector.init spec (CPUOffload.init 4 false 1 10) with
  | Ok c => c
  | Raise _ => mkConnector (mkOffloadConfig [] 1 1 false) (CPUOffload.init 4 false 1 10) [] [] [] [] ∅ ∅ None 0 0 [] []
  end.
Definition run (e : event) (c : OffloadingConnectorScheduler Lru) := handle (P := LRU.LRUCachePolicy) elements elements elements e c.
Definition known : OffloadingConnectorScheduler Lru := (run (OnNewRequest (request "r" 5) None) start).2.
Definition asked : OffloadingConnectorScheduler Lru := (run (GetNumNewMatchedTokens (request "r" 5) 0) known).2.
Definition step : event := BuildConnectorMeta objs (output [[1; 2; 3]; [0; 4; 5]] 5).
Definition storing : OffloadingConnectorScheduler Lru := (run step asked).2.
Definition after_reset : OffloadingConnectorScheduler Lru := (run ResetConnectorCache storing).2.
Abbreviation reached := (reach (P := LRU.LRUCachePolicy) 4 false 1 10 elements elements elements).

(** One job, for the two blocks of full attention and the last block of the window *)
Example one_job : (λ j : Z * TransferJobStatus, (j.1, is_store j.2, size (js_keys j.2))) <$> jobs_in_progress storing = [(0, true, 3%nat)].
Proof. by vm_compute. Qed.

Lemma asked_distinct : distinct (update_req_states objs (output [[1; 2; 3]; [0; 4; 5]] 5) asked).2.
Proof.
  set (c := (update_req_states _ _ _).2).
  assert (Hf : Forall (λ r : string * RequestOffloadState, NoDup (concat (keys_of r.2))) (req_status c)).
  { apply (bool_decide_unpack _). by vm_compute. }
  intros rid rs Hrs. apply (proj1 (Forall_forall _ _) Hf (rid, rs)). clear Hf.
  induction (req_status c) as [|[k v] l IH]; cbn [dict_get] in Hrs; [done|]. destruct (decide (k = rid)) as [->|]; [injection Hrs as ->; left|right; auto].
Qed.

Lemma storing_reached : reached storing.
Proof.
  apply (reach_step 4 false 1 10 elements elements elements asked step storing); [|exact asked_distinct|by vm_compute|by vm_compute].
  apply (reach_step 4 false 1 10 elements elements elements known (GetNumNewMatchedTokens (request "r" 5) 0)); [|done|by vm_compute|by vm_compute].
  apply (reach_step 4 false 1 10 elements elements elements start (OnNewRequest (request "r" 5) None)); [|done|by vm_compute|by vm_compute].
  apply (reach_init 4 false 1 10 elements elements elements spec). by vm_compute.
Qed.

Lemma after_reset_reached : reached after_reset.
Proof.
  apply (reach_step 4 false 1 10 elements elements elements storing ResetConnectorCache); [exact storing_reached|done|by vm_compute|by vm_compute].
Qed.

(** The reset forgets the jobs but not that the request has one: when the request finishes,
    the connector looks for a job that is gone. *)
Theorem reset_leaves_jobs_in_requests : reached after_reset ∧ jobs_in_progress after_reset = [] ∧
  (run (RequestFinished (request "r" 5)) after_reset).1 = Raise KeyError ∧
  (run (RequestFinished (request "r" 5)) storing).1 = Ok tt.
Proof. split; [exact after_reset_reached|by vm_compute]. Qed.
End JobsDemo.

Lemma connector_follows_protocol_witness : ∃ j, client 4 false 1 10 (manager JobsDemo.storing) j ∧
  Forall2 (≡ₚ) (loads j) (job_lists false (jobs_in_progress JobsDemo.storing)) ∧
  Forall2 (≡ₚ) (stores j) (job_lists true (jobs_in_progress JobsDemo.storing)).
Proof.
  apply (connector_follows_protocol 4 false 1 10 ltac:(lia) ltac:(lia) elements elements elements (λ s, reflexivity _)).
  exact JobsDemo.storing_reached.
Defined.

Lemma jobs_hold_slots_witness : let js := default (mkJobStatus "" 0 ∅ false None None) (dict_get 0 (jobs_in_progress JobsDemo.storing)) in
  ∃ b, cached (manager JobsDemo.storing) !! LookupDemo.key 7 0 = Some b ∧
    (if is_store js then OffloadPolicy.ref_cnt b = -1 else 0 < OffloadPolicy.ref_cnt b) ∧
    ∀ k' b', cached (manager JobsDemo.storing) !! k' = Some b' → OffloadPolicy.block_id b' = OffloadPolicy.block_id b → k' = LookupDemo.key 7 0.
Proof.
  intros js. apply (jobs_hold_slots 4 false 1 10 ltac:(lia) ltac:(lia) elements elements elements (λ s, reflexivity _) JobsDemo.storing 0 js).
  - exact JobsDemo.storing_reached.
  - assert (E : jobs_in_progress JobsDemo.storing = [(0, js)]) by (vm_compute; reflexivity). rewrite E. left.
  - apply (bool_decide_unpack (LookupDemo.key 7 0 ∈ js_keys js)). vm_compute. exact I.
Defined.
