(* ===== verification/OffloadStart.v ===== *)
(** * From the configuration to the connector

    [resolve_kv_cache_block_sizes] of [vllm/v1/core/kv_cache_utils.py] and the constructor of
    [OffloadingSpec] ([vllm/v1/kv_offload/base.py]): the block sizes with which the connector
    is constructed.  What [OffloadLookup] asks of a connector is true of every one that is
    constructed from positive sizes. *)
From S2P Require Import Prelude KVSpec FreeQueue Request BlockHash BlockPool PyFloat OffloadPolicy CPUOffload OffloadConnector OffloadLookup.
Import Connector.

(** ** Block sizes *)

(** The attributes of [VllmConfig] that are read *)
Record VllmConfig := mkVllmConfig {
  cache_block_size : Z;
  cache_hash_block_size : option Z;
  cache_enable_prefix_caching : bool;
  decode_context_parallel_size : Z;
  prefill_context_parallel_size : Z;
  parallel_world_size : Z;
  has_kv_transfer_config : bool;
}.

Definition py_mod (a b : Z) : res Z := if b =? 0 then Raise ZeroDivisionError else Ok (a mod b).

(** [any(bs % d != 0 for bs in sizes)] *)
Fixpoint any_indivisible (d : Z) (sizes : list Z) : res bool :=
  match sizes with
  | [] => Ok false
  | bs :: sizes => r ← py_mod bs d; if negb (r =? 0) then Ok true else any_indivisible d sizes
  end.

Definition mamba_diverges (v : VllmConfig) (g : KVCacheSpec) : bool :=
  match kind g with Mamba _ _ => negb (KVSpec.block_size g =? cache_block_size v) | _ => false end.

(** The pair [(scheduler_block_size, hash_block_size)] *)
Definition resolve_kv_cache_block_sizes (v : VllmConfig) (groups : list KVCacheSpec) : res (Z * Z) :=
  let dcp := decode_context_parallel_size v in
  let pcp := prefill_context_parallel_size v in
  if len groups <=? 1 then
    let bs := cache_block_size v * dcp * pcp in Ok (bs, bs)
  else if negb (dcp =? 1) || negb (pcp =? 1) then Raise ValueError
  else
    let group_block_sizes := KVSpec.block_size <$> groups in
    let scheduler_block_size := foldr Z.lcm 1 group_block_sizes in
    if negb (cache_enable_prefix_caching v || has_kv_transfer_config v) then Ok (scheduler_block_size, scheduler_block_size)
    else if existsb (mamba_diverges v) groups then Ok (scheduler_block_size, scheduler_block_size)
    else
      let hash_block_size := default (foldr Z.gcd 0 group_block_sizes) (cache_hash_block_size v) in
      bad ← any_indivisible hash_block_size group_block_sizes;
      if (bad : bool) then Raise ValueError else Ok (scheduler_block_size, hash_block_size).

(** ** [OffloadingSpec.__init__] *)

(** [kv_connector_extra_config]; a block size is given as an integer. *)
Record ExtraConfig := mkExtra { offload_prompt_only_param : option bool; block_size_param : option Z }.

Fixpoint assert_divisible (d : Z) (sizes : list Z) : res () :=
  match sizes with
  | [] => Ok tt
  | bs :: sizes => r ← py_mod bs d; if negb (r =? 0) then Raise AssertionError else assert_divisible d sizes
  end.

Definition factor_of (sizes : list Z) (param : option Z) : res Z :=
  match param with
  | None => Ok 1
  | Some size =>
      match elements (list_to_set sizes : gset Z) with
      | [gpu_block_size] =>
          r ← py_mod size gpu_block_size;
          if negb (r =? 0) then Raise AssertionError else Ok (size / gpu_block_size)
      | _ => Raise AssertionError
      end
  end.

Definition spec_init (v : VllmConfig) (x : ExtraConfig) (groups : list KVCacheSpec) : res OffloadingSpec :=
  if negb (has_kv_transfer_config v) then Raise AssertionError
  else
    let context_parallel_factor := decode_context_parallel_size v * prefill_context_parallel_size v in
    let sizes := (λ g, KVSpec.block_size g * context_parallel_factor) <$> groups in
    r ← resolve_kv_cache_block_sizes v groups;
    _ ← assert_divisible r.2 sizes;
    factor ← factor_of sizes (block_size_param x);
    Ok (mkOffloadingSpec (zip groups sizes) factor r.2 (parallel_world_size v)
          (default true (offload_prompt_only_param x)) (cache_enable_prefix_caching v)).

(** ** Divisibility *)
Lemma lcm_all l : Forall (λ x, 0 < x) l → 0 < foldr Z.lcm 1 l ∧ Forall (λ x, (x | foldr Z.lcm 1 l)) l.
Proof.
  induction 1 as [|x l Hx _ [Hpos Hall]]; cbn [foldr]; [by split; [lia|]|]. split.
  - pose proof (Z.lcm_nonneg x (foldr Z.lcm 1 l)). pose proof (proj1 (Z.lcm_eq_0 x (foldr Z.lcm 1 l))). lia.
  - constructor; [apply Z.divide_lcm_l|]. eapply Forall_impl; [exact Hall|]. intros y Hy. by etrans; [exact Hy|apply Z.divide_lcm_r].
Qed.

Lemma gcd_all l : Forall (λ x, (foldr Z.gcd 0 l | x)) l.
Proof.
  induction l as [|x l IH]; cbn [foldr]; constructor; [apply Z.gcd_divide_l|].
  eapply Forall_impl; [exact IH|]. intros y Hy. by etrans; [apply Z.gcd_divide_r|exact Hy].
Qed.

Lemma gcd_pos l : l ≠ [] → Forall (λ x, 0 < x) l → 0 < foldr Z.gcd 0 l.
Proof.
  destruct l as [|x l]; [done|]. intros _ [Hx _]%Forall_cons. cbn [foldr].
  pose proof (Z.gcd_nonneg x (foldr Z.gcd 0 l)). pose proof (proj1 (Z.gcd_eq_0 x (foldr Z.gcd 0 l))). lia.
Qed.

Lemma py_mod_Ok a b : b ≠ 0 → py_mod a b = Ok (a mod b).
Proof. intros Hb. unfold py_mod. by destruct (Z.eqb_spec b 0). Qed.

Lemma any_indivisible_spec d l : d ≠ 0 → ∃ b, any_indivisible d l = Ok b ∧ (b = false ↔ Forall (λ x, (d | x)) l).
Proof.
  intros Hd. induction l as [|x l IH]; cbn [any_indivisible]; [by exists false|]. rewrite py_mod_Ok by done. cbn [mbind res_bind].
  destruct IH as (b & Eb & Hb). pose proof (Z.mod_divide x d Hd) as Hx. destruct (Z.eqb_spec (x mod d) 0) as [E|E]; cbn [negb].
  - exists b. split; [done|]. rewrite Hb, Forall_cons. tauto.
  - exists true. split; [done|]. rewrite Forall_cons. split; [done|tauto].
Qed.

Lemma assert_divisible_spec d l : d ≠ 0 → assert_divisible d l = Ok () ↔ Forall (λ x, (d | x)) l.
Proof.
  intros Hd. induction l as [|x l IH]; cbn [assert_divisible]; [done|]. rewrite py_mod_Ok by done. cbn [mbind res_bind].
  rewrite Forall_cons, <- (Z.mod_divide x d Hd). destruct (Z.eqb_spec (x mod d) 0) as [E|E]; cbn [negb]; [|naive_solver]. rewrite IH. tauto.
Qed.

(** ** What is accepted *)

(** All sizes of the configuration are positive. *)
Record positive (v : VllmConfig) (x : ExtraConfig) (groups : list KVCacheSpec) : Prop := {
  po_cache : 0 < cache_block_size v;
  po_dcp : 0 < decode_context_parallel_size v;
  po_pcp : 0 < prefill_context_parallel_size v;
  po_hash h : cache_hash_block_size v = Some h → 0 < h;
  po_groups : Forall (λ g, 0 < KVSpec.block_size g) groups;
  po_param b : block_size_param x = Some b → 0 < b;
  po_count : len groups ≤ 2 ^ 32;
}.

(** Configurations that the constructors are meant to take *)
Record supported (v : VllmConfig) (x : ExtraConfig) (groups : list KVCacheSpec) : Prop := {
  su_connector : has_kv_transfer_config v = true;
  su_kinds : Forall (λ g, match kind g with
    | FullAttention _ => True
    | SlidingWindow w _ => 0 < w
    | Mamba _ _ => KVSpec.block_size g = cache_block_size v
    | _ => False end) groups;
  su_one g : groups = [g] → (cache_block_size v | KVSpec.block_size g);
  su_many : 1 < len groups → decode_context_parallel_size v = 1 ∧ prefill_context_parallel_size v = 1 ∧
    ∀ h, cache_hash_block_size v = Some h → Forall (λ g, (h | KVSpec.block_size g)) groups;
  su_param b : block_size_param x = Some b → groups ≠ [] ∧ ∃ n, Forall (λ g, KVSpec.block_size g = n) groups ∧
    (n * (decode_context_parallel_size v * prefill_context_parallel_size v) | b);
}.

Section start.
Context (v : VllmConfig) (x : ExtraConfig) (groups : list KVCacheSpec) (Hpos : positive v x groups).
Abbreviation cp := (decode_context_parallel_size v * prefill_context_parallel_size v).
Abbreviation sizes := ((λ g, KVSpec.block_size g * cp) <$> groups).

Lemma sizes_pos : Forall (λ s, 0 < s) sizes.
Proof. pose proof (po_dcp _ _ _ Hpos). pose proof (po_pcp _ _ _ Hpos). rewrite Forall_fmap. eapply Forall_impl; [apply Hpos|]. intros g Hg. cbn in *. nia. Qed.

(** The hashes are as fine as the blocks, and the scheduler's blocks contain those of all groups. *)
Lemma resolve_ok s h : resolve_kv_cache_block_sizes v groups = Ok (s, h) → 0 < h ∧ (h | s) ∧
  (1 < len groups → Forall (λ g, (KVSpec.block_size g | s)) groups).
Proof.
  unfold resolve_kv_cache_block_sizes. destruct Hpos as [Hc Hd Hp Hh Hg _ _].
  assert (Hg' : Forall (λ x, 0 < x) (KVSpec.block_size <$> groups)) by by rewrite Forall_fmap.
  destruct (lcm_all _ Hg') as [Hl Hall]. rewrite Forall_fmap in Hall.
  destruct (Z.leb_spec (len groups) 1) as [Hn|Hn]; [intros [= <- <-]; split; [by repeat apply Z.mul_pos_pos|split; [done|lia]]|].
  destruct (_ || _); [done|]. destruct (negb _); [intros [= <- <-]; by split_and!|].
  destruct (existsb _ _); [intros [= <- <-]; by split_and!|].
  set (d := default _ _). assert (Hd0 : 0 < d).
  { unfold d. destruct (cache_hash_block_size v) as [h'|]; cbn [default from_option id]; [by apply Hh|]. apply gcd_pos; [|done]. destruct groups; cbn in *; [lia|done]. }
  destruct (any_indivisible_spec d (KVSpec.block_size <$> groups) ltac:(lia)) as (b & -> & Hb). cbn [mbind res_bind].
  destruct b; [done|]. intros [= <- <-]. split_and!; [done| |done].
  destruct groups as [|g gs]; [cbn in Hn; lia|]. apply proj1, (λ H, H eq_refl) in Hb. cbn [fmap list_fmap] in Hb. apply Forall_cons in Hb as [Hb _].
  etrans; [exact Hb|]. by apply Forall_cons in Hall as [Hall _].
Qed.

Lemma resolve_supported : supported v x groups → ∃ s h, resolve_kv_cache_block_sizes v groups = Ok (s, h) ∧ Forall (λ s, (h | s)) sizes.
Proof.
  intros [Hconn Hk Hone Hmany _]. unfold resolve_kv_cache_block_sizes. destruct (Z.leb_spec (len groups) 1) as [Hn|Hn].
  - eexists _, _. split; [done|]. rewrite Forall_fmap. destruct groups as [|g [|g' gs]]; [done| |cbn in Hn; lia]. constructor; [|done].
    rewrite <- Z.mul_assoc. by apply Z.mul_divide_mono_r, Hone.
  - destruct (Hmany ltac:(lia)) as (-> & -> & Hh). cbn [Z.eqb Pos.eqb negb orb]. rewrite Hconn, orb_true_r. cbn [negb].
    assert (Hm : existsb (mamba_diverges v) groups = false).
    { apply not_true_iff_false. rewrite existsb_exists. intros (g & Hg%list_elem_of_In & Hb). rewrite Forall_forall in Hk. specialize (Hk g Hg).
      unfold mamba_diverges in Hb. destruct (kind g); try done. rewrite Hk, Z.eqb_refl in Hb. done. }
    rewrite Hm. set (d := default _ _). assert (Hd : d ≠ 0 ∧ Forall (λ x, (d | x)) (KVSpec.block_size <$> groups)).
    { unfold d. pose proof (po_hash _ _ _ Hpos) as Hp. destruct (cache_hash_block_size v) as [h|]; cbn [default from_option id].
      - split; [specialize (Hp h eq_refl); lia|]. by rewrite Forall_fmap; apply Hh.
      - split; [|apply gcd_all]. apply Z.neq_sym, Z.lt_neq, gcd_pos; [destruct groups; cbn in *; [lia|done]|]. rewrite Forall_fmap. apply Hpos. }
    destruct Hd as [Hd0 Hd]. destruct (any_indivisible_spec d (KVSpec.block_size <$> groups) Hd0) as (b & -> & Hb).
    apply Hb in Hd as Hf. subst b. cbn [mbind res_bind]. eexists _, _. split; [done|].
    rewrite Forall_fmap in Hd |- *. eapply Forall_impl; [exact Hd|]. intros g. cbn. by rewrite !Z.mul_1_r.
Qed.

Lemma factor_pos f : factor_of sizes (block_size_param x) = Ok f → 0 < f.
Proof.
  unfold factor_of. pose proof (po_param _ _ _ Hpos) as Hb. destruct (block_size_param x) as [b|]; [|by intros [= <-]].
  specialize (Hb b eq_refl). destruct (elements _) as [|g [|]] eqn:E; try done.
  assert (Hg : g ∈ sizes). { apply (elem_of_list_to_set (C := gset Z)), elem_of_elements. rewrite E. left. }
  pose proof sizes_pos as Hs. rewrite Forall_forall in Hs. specialize (Hs g Hg). rewrite py_mod_Ok by lia. cbn [mbind res_bind].
  destruct (Z.eqb_spec (b mod g) 0) as [Hm|]; cbn [negb]; [|done]. intros [= <-]. apply Z.mod_divide in Hm as [q ->]; [|lia].
  rewrite Z.div_mul by lia. nia.
Qed.

(** Several blocks make an offloaded one only if all are of one size. *)
Lemma factor_one_size f : factor_of sizes (block_size_param x) = Ok f → f = 1 ∨ ∃ g, Forall (λ s, s = g) sizes.
Proof.
  unfold factor_of. destruct (block_size_param x) as [b|]; [|intros [= <-]; by left]. destruct (elements _) as [|g [|]] eqn:E; try done. intros _. right.
  exists g. apply Forall_forall. intros s Hs. apply (elem_of_list_to_set (C := gset Z)), elem_of_elements in Hs. rewrite E in Hs. by apply list_elem_of_singleton.
Qed.

Lemma factor_supported : supported v x groups → ∃ f, factor_of sizes (block_size_param x) = Ok f.
Proof.
  intros [_ _ _ _ Hp]. unfold factor_of. destruct (block_size_param x) as [b|]; [|by eexists].
  destruct (Hp b eq_refl) as (Hne & n & Hn & Hdiv). pose proof sizes_pos as Hs.
  destruct groups as [|g gs]; [done|]. rewrite Forall_cons in Hn. destruct Hn as [<- Hn].
  cbn [fmap list_fmap] in Hs. apply Forall_cons in Hs as [Hs _].
  assert (E : (list_to_set ((λ g, KVSpec.block_size g * cp) <$> g :: gs) : gset Z) = {[KVSpec.block_size g * cp]}).
  { apply set_eq. intros y. rewrite elem_of_list_to_set, elem_of_singleton, list_elem_of_fmap. rewrite Forall_forall in Hn. split.
    - intros (g' & -> & [->|Hg']%elem_of_cons); [done|]. by rewrite (Hn g' Hg').
    - intros ->. exists g. split; [done|left]. }
  rewrite E, elements_singleton, py_mod_Ok by lia. cbn [mbind res_bind]. apply Z.mod_divide in Hdiv; [|lia].
  rewrite Hdiv. cbn [Z.eqb negb]. by eexists.
Qed.

(** What the constructor has checked *)
Lemma spec_init_ok spec : spec_init v x groups = Ok spec →
  0 < os_hash_block_size spec ∧ 0 < os_block_size_factor spec ∧ len (os_groups spec) ≤ 2 ^ 32 ∧ (os_groups spec).*1 = groups ∧
  Forall (λ g : KVCacheSpec * Z, 0 < g.2 ∧ (os_hash_block_size spec | g.2)) (os_groups spec).
Proof.
  unfold spec_init. destruct (negb _); [done|]. intros ([s h] & Er & (() & Ea & (f & Ef & [= <-])%bind_Ok)%bind_Ok)%bind_Ok.
  cbn [os_hash_block_size os_block_size_factor os_groups snd] in *. destruct (resolve_ok s h Er) as (Hh & _). apply assert_divisible_spec in Ea; [|lia].
  split_and!; [done|by apply factor_pos| | |].
  - rewrite length_zip_with, length_fmap. pose proof (po_count _ _ _ Hpos). lia.
  - apply fst_zip. by rewrite length_fmap.
  - assert (Hs : Forall (λ s, 0 < s ∧ (h | s)) sizes) by (apply Forall_and; split; [apply sizes_pos|done]).
    apply Forall_forall. intros [g b] Hg%elem_of_zip_r. by rewrite Forall_forall in Hs; apply Hs.
Qed.
End start.

(** ** The connector that is constructed *)
Lemma group_configs_nth spec a groups : ∀ j l i gc, group_configs spec a j groups = Ok l → l !! i = Some gc → ∃ g, groups !! i = Some g ∧
  group_idx gc = j + Z.of_nat i ∧ gpu_block_size gc = g.2 ∧ offloaded_block_size gc = g.2 * os_block_size_factor spec ∧
  hash_block_size_factor gc = g.2 * os_block_size_factor spec / os_hash_block_size spec.
Proof.
  induction groups as [|[s b] groups IH]; intros j l i gc E Hi; cbn [group_configs] in E; [by injection E as <-|].
  apply bind_Ok in E as (sw & _ & (l' & El & [= <-])%bind_Ok). destruct i as [|i]; cbn in Hi.
  - injection Hi as <-. exists (s, b). cbn. split_and!; [done|lia|done..].
  - destruct (IH _ _ _ _ El Hi) as (g & Hg & Hidx & Hgp & Ho & Hf). exists g. cbn. split_and!; [done|lia|done..].
Qed.

Lemma init_sizes_ok {S} spec (m : S) c : Connector.init spec m = Ok c → 0 < os_hash_block_size spec → 0 < os_block_size_factor spec →
  len (os_groups spec) ≤ 2 ^ 32 → Forall (λ g : KVCacheSpec * Z, 0 < g.2 ∧ (os_hash_block_size spec | g.2)) (os_groups spec) →
  sizes_ok (os_hash_block_size spec) c.
Proof.
  unfold Connector.init, from_spec. intros (cfg & (sz & _ & (l & El & [= <-])%bind_Ok)%bind_Ok & [= <-])%bind_Ok Hh Hf Hn Hall.
  split; [done|]. cbn [config kv_group_configs]. intros i gc Hi. destruct (group_configs_nth _ _ _ _ _ _ _ El Hi) as (g & Hg & -> & _ & -> & ->).
  rewrite Forall_lookup in Hall. destruct (Hall i g Hg) as [Hp [q Hq]]. apply lookup_lt_Some in Hg. rewrite Hq.
  replace (q * os_hash_block_size spec * os_block_size_factor spec) with (q * os_block_size_factor spec * os_hash_block_size spec) by ring.
  rewrite Z.div_mul by lia. split; [nia|]. split; [done|lia].
Qed.

(** What the load relies on, for blocks of more than one token *)
Lemma init_blocks_ok {S} v x groups spec (m : S) c : positive v x groups → Forall (λ g, 1 < KVSpec.block_size g) groups →
  spec_init v x groups = Ok spec → Connector.init spec m = Ok c → blocks_ok c.
Proof.
  intros Hpos Hone Es Ec. destruct (spec_init_ok v x groups Hpos spec Es) as (_ & Hf & _ & _ & Hall).
  assert (Hgpu : os_block_size_factor spec = 1 ∨ ∃ g, 1 < g ∧ Forall (λ p : KVCacheSpec * Z, p.2 = g) (os_groups spec) ∨ os_groups spec = []).
  { unfold spec_init in Es. destruct (negb _); [done|]. apply bind_Ok in Es as ([s h] & _ & (() & _ & (f & Ef & [= <-])%bind_Ok)%bind_Ok).
    cbn [os_block_size_factor os_groups]. destruct (factor_one_size v x groups f Ef) as [|[g Hg]]; [by left|right]. exists g.
    destruct groups as [|g0 gs]; [by right|left]. split.
    - pose proof (po_dcp _ _ _ Hpos). pose proof (po_pcp _ _ _ Hpos). cbn [fmap list_fmap] in Hg. apply Forall_cons in Hg as [<- _].
      apply Forall_cons in Hone as [Hone _]. nia.
    - apply Forall_forall. intros [s0 b] Hb%elem_of_zip_r. rewrite Forall_forall in Hg. by apply Hg. }
  unfold Connector.init, from_spec in Ec. apply bind_Ok in Ec as (cfg & (sz & _ & (l & El & [= <-])%bind_Ok)%bind_Ok & [= <-]).
  split; cbn [config kv_group_configs block_size_factor]; [done| |].
  - intros i gc Hi. destruct (group_configs_nth _ _ _ _ _ _ _ El Hi) as (g & Hg & _ & -> & -> & _). split; [|done].
    rewrite Forall_lookup in Hall. by apply (Hall i g Hg).
  - destruct Hgpu as [->|(g & [[Hg Hs]|E])]; [by left| |]; right; intros i gc Hi _; destruct (group_configs_nth _ _ _ _ _ _ _ El Hi) as (p & Hp & _ & -> & -> & _).
    + rewrite Forall_lookup in Hs. rewrite (Hs i p Hp). split; [done|]. intros j gc' Hj.
      destruct (group_configs_nth _ _ _ _ _ _ _ El Hj) as (p' & Hp' & _ & _ & -> & _). by rewrite (Hs j p' Hp').
    + by rewrite E in Hp.
Qed.

Lemma window_size_ok s size : 0 < size → match kind s with
    | FullAttention _ | Mamba _ _ => True | SlidingWindow w _ => 0 < w | _ => False end →
  ∃ sw, get_sliding_window_size_in_blocks s size = Ok sw.
Proof.
  intros Hs. unfold get_sliding_window_size_in_blocks. destruct (kind s) as [k|w mla|ch|mo n|]; try done; try by eexists.
  intros Hw. destruct (Z.ltb_spec 0 w); [by eexists|lia].
Qed.

Lemma init_succeeds {S} spec (m : S) : 0 < os_block_size_factor spec →
  Forall (λ g : KVCacheSpec * Z, 0 < g.2 ∧ match kind g.1 with
    | FullAttention _ | Mamba _ _ => True | SlidingWindow w _ => 0 < w | _ => False end) (os_groups spec) →
  ∃ c, Connector.init spec m = Ok c.
Proof.
  intros Hf Hall. assert (Hs : ∀ sz, ∃ sz', full_sizes spec (os_groups spec) sz = Ok sz').
  { induction Hall as [|[s b] l [Hb Hk] _ IH]; intros sz; cbn [full_sizes]; [by eexists|]. cbn [fst snd] in *.
    destruct (window_size_ok s (b * os_block_size_factor spec) ltac:(nia) Hk) as [sw ->]. cbn [mbind res_bind]. apply IH. }
  assert (Hg : ∀ a j, ∃ l, group_configs spec a j (os_groups spec) = Ok l).
  { clear Hs. induction Hall as [|[s b] l [Hb Hk] _ IH]; intros a j; cbn [group_configs]; [by eexists|]. cbn [fst snd] in *.
    destruct (window_size_ok s (b * os_block_size_factor spec) ltac:(nia) Hk) as [sw ->]. cbn [mbind res_bind].
    destruct (IH a (j + 1)) as [l' ->]. cbn [mbind res_bind]. by eexists. }
  unfold Connector.init, from_spec. destruct (Hs ∅) as [sz ->]. cbn [mbind res_bind].
  destruct (Hg (match elements sz with [a] => Some a | _ => None end) 0) as [l ->]. cbn [mbind res_bind]. by eexists.
Qed.

(** C16. The constructors make a well-formed connector: from positive sizes, if they return,
    every group has a positive block size that is a multiple of the size of the hashed
    blocks, the windows are positive, an index fits four bytes, and the lists of groups that
    the search goes through are those of all groups and of those with a window; the
    scheduler's block size is a multiple of the hashed one, and of those of all groups when
    there are several.  And they do return for every supported configuration. *)
Theorem connector_well_formed {S} (m : S) v x groups : positive v x groups →
  (∀ spec c, spec_init v x groups = Ok spec → Connector.init spec m = Ok c →
     config_ok c ∧ sizes_ok (os_hash_block_size spec) c ∧ (os_groups spec).*1 = groups ∧
     ∃ s, resolve_kv_cache_block_sizes v groups = Ok (s, os_hash_block_size spec) ∧ (os_hash_block_size spec | s) ∧
       (1 < len groups → Forall (λ g, (KVSpec.block_size g | s)) groups)) ∧
  (supported v x groups → ∃ spec c, spec_init v x groups = Ok spec ∧ Connector.init spec m = Ok c).
Proof.
  intros Hpos. split.
  - intros spec c Es Ec. destruct (spec_init_ok v x groups Hpos spec Es) as (Hh & Hf & Hn & Hg & Hall). split_and!.
    + apply (init_config_ok spec m c Ec Hf). eapply Forall_impl; [exact Hall|]. by intros g [? _].
    + by apply (init_sizes_ok spec m).
    + done.
    + unfold spec_init in Es. destruct (negb _); [done|]. apply bind_Ok in Es as ([s h] & Er & (() & _ & (f & _ & [= <-])%bind_Ok)%bind_Ok).
      exists s. destruct (resolve_ok v x groups Hpos s h Er) as (_ & Hd & Hm). done.
  - intros Hsup. destruct (resolve_supported v x groups Hpos Hsup) as (s & h & Er & Hdiv). destruct (factor_supported v x groups Hpos Hsup) as [f Ef].
    destruct (resolve_ok v x groups Hpos s h Er) as [Hh _].
    assert (Es : ∃ spec, spec_init v x groups = Ok spec).
    { unfold spec_init. rewrite (su_connector _ _ _ Hsup), Er. cbn [negb mbind res_bind snd].
      rewrite (proj2 (assert_divisible_spec h _ ltac:(lia)) Hdiv). cbn [mbind res_bind]. rewrite Ef. cbn [mbind res_bind]. by eexists. }
    destruct Es as [spec Es]. destruct (spec_init_ok v x groups Hpos spec Es) as (_ & Hf & _ & Hg & Hall).
    destruct (init_succeeds spec m Hf) as [c Ec]; [|by exists spec, c].
    pose proof (su_kinds _ _ _ Hsup) as Hk. rewrite <- Hg, Forall_fmap in Hk. apply Forall_and. split; [eapply Forall_impl; [exact Hall|]; by intros g [? _]|].
    eapply Forall_impl; [exact Hk|]. intros [g b]. cbn. by destruct (kind g).
Qed.

(** ** An example: a hybrid model with blocks of 4 and 6 tokens, hashed every 2 *)
Module StartDemo.
Definition cfg : VllmConfig := mkVllmConfig 4 None true 1 1 2 true.
Definition extra : ExtraConfig := mkExtra None None.
Definition groups : list KVCacheSpec := [mkSpec 4 0 (FullAttention FKFull); mkSpec 6 0 (SlidingWindow 8 false)].
Example sizes : resolve_kv_cache_block_sizes cfg groups = Ok (12, 2).
Proof. reflexivity. Qed.
(** A size that the blocks do not divide is refused. *)
Example refused : spec_init cfg (mkExtra None (Some 10)) [mkSpec 4 0 (FullAttention FKFull)] = Raise AssertionError.
Proof. reflexivity. Qed.
End StartDemo.

Lemma connector_well_formed_witness :
  ∃ spec c, spec_init StartDemo.cfg StartDemo.extra StartDemo.groups = Ok spec ∧ Connector.init spec tt = Ok c ∧ config_ok c ∧ sizes_ok 2 c.
Proof.
  assert (Hp : positive StartDemo.cfg StartDemo.extra StartDemo.groups).
  { split; cbn; try lia; try done. repeat constructor; cbn; lia. }
  destruct (connector_well_formed tt _ _ _ Hp) as [Hok Hrun]. destruct Hrun as (spec & c & Es & Ec).
  { split; cbn; try done. repeat constructor; cbn; lia. }
  exists spec, c. split; [done|]. split; [done|]. destruct (Hok spec c Es Ec) as (Hc & Hs & _). split; [exact Hc|].
  assert (E : os_hash_block_size spec = 2) by (vm_compute in Es; injection Es as <-; reflexivity). rewrite <- E. exact Hs.
Defined.
